(* ===== verification/_CoqProject ===== *)
-Q . S2P
Prelude.v
GoLang.v
Strings.v
CircuitBreaker.v
LruCache.v
Retry.v
Ticker.v
Timers.v
Saga.v
Errors.v
Graceful.v
Health.v
Pool.v
Store.v
Tracing.v
EventStore.v
Outbox.v
Queue.v
Lifecycle.v
Http.v
Middleware.v
Auth.v
Interceptors.v
Rpc.v
Pipeline.v
Float64.v
Metrics.v
ProductApi.v
RateLimit.v
Backoff.v
Server.v
Validation.v
Redis.v
RedisCache.v
RedisSpans.v
Feature.v
Lock.v
Keepalive.v
PubSub.v
Orders.v
Routes.v
Config.v
RedisClient.v
Sched.v
SchedTimed.v
Main.v
Uptime.v
Stream.v
Async.v
Channels.v
