(* ===== verification/Prelude.v ===== *)
(** * gkit-go: a verification library

    gkit-go is a Go toolkit for services: independent packages under [src/pkg],
    which a service wires together; [src/examples/server] is such a service and
    [src/api] its API.  This library models the packages and the service, and proves
    what each promises.

    ** Layout

    - [Prelude]: tactics, hint database [gkit], invariants by reachability, lemmas
      on lists and strings.
    - [GoLang]: the language: int64 and uint64 with wrap-around, durations and
      instants (nanoseconds), errors with [errors.Is]/[errors.As], panics
      ([outcome]).
    - [Strings]: what is used of the strings package, on bytes; UTF-8 rune counts.
    - [Float64]: binary64 arithmetic on the standard library's [SpecFloat], with the
      rounding lemmas the rate limiter and the backoff need.
    - [Http]: requests, response writers and handlers of net/http.
    - [Store]: pkg/store, and with it the class [Postgres], the interface to the
      database: SQL statements are functions on the contents of the tables,
      transactions commit or roll back, every call may fail.
    - [Redis]: the class [Redis], the interface to a Redis server, with a server
      that meets it.

    Resilience
    - [CircuitBreaker] (pkg/circuitbreaker): state machine, concurrent calls as
      interleavings of [allow] and [record].
    - [Retry], [Backoff] (pkg/retry): the loop, Stop, the backoffs and jitter.
    - [RateLimit] (pkg/ratelimit): the token bucket and the keyed limiter.
    - [Saga] (pkg/saga): execution and reverse compensation.
    - [Errors]: the methods Unwrap, Is and Error of the error structs of retry and saga.
    - [Timers]: internal/clock, the sleep of pkg/retry on a timeline, the janitor of
      pkg/cache, and the polling helpers of pkg/testutil.
    - [Graceful] (pkg/graceful), [Health] (pkg/health).

    Concurrency, each a transition system over all interleavings
    - [Pool] (pkg/pool), [Pipeline] (pkg/pipeline), [PubSub] (pkg/pubsub),
      [Sched] (pkg/sched), and the clients of [Lock] (pkg/lock).
    - [Ticker]: time.Ticker on a timeline.  [SchedTimed]: the scheduler on its tickers and
      timers; [Keepalive]: the keepalive goroutine of pkg/lock on its ticker, and in
      [Protocol] its channels with Release.
    - [Lifecycle]: Start and Stop of the workers of pkg/queue and pkg/outbox.
    - [Stream], [Channels] (pkg/async/stream.go): stages connected by channels, fan-out
      and fan-in; [Async] (future.go, semaphore.go): futures, All and Race, semaphore,
      barrier, throttle and debounce, a module each.

    Data
    - [LruCache] (pkg/cache): element pointers, list and map in a heap.
    - [EventStore] (pkg/eventstore), [Outbox] (pkg/outbox), [Queue] (pkg/queue):
      clients of [Postgres].
    - [RedisCache] (pkg/rediscache), [Feature] (pkg/feature), [Lock] (pkg/lock):
      clients of [Redis]; [RedisSpans]: the operations of pkg/rediscache with their spans.
    - [Config] (pkg/config), [Validation] (pkg/validation): structs as reflection
      shows them; [RedisClient]: the client settings of pkg/rediscache through [Config].

    Transport
    - [Middleware] (pkg/middleware), [Auth] (pkg/auth), [Interceptors]
      (pkg/rpc/interceptors), [Rpc] (pkg/rpc, the builders and the codec).

    Observability
    - [Tracing] (pkg/otel, and Open and the spans of pkg/store): the traced operations
      erase to those of [Store].
    - [Metrics] (pkg/metrics, store/metrics.go and the metric constructors of the
      middleware and the interceptors).

    The service
    - [ProductApi] (api/product/v1): messages, descriptor, handlers and client, against
      the class [Transport].
    - [Server] (examples/server): the handlers, health checks, jobs, HTTP stack and
      shutdown, composed from [LruCache], [CircuitBreaker], [Retry], [Backoff],
      [Health], [Middleware], [RateLimit], [ProductApi] and [Graceful].
    - [Orders]: the way of an order from the request over the bus ([PubSub]) to the
      workers ([Pool]) and main's shutdown, as one transition system.
    - [Routes]: the fragment of net/http's ServeMux the service uses, its five routes,
      and a request through middleware, routing and handler.
    - [Main]: main from its constructors to its exit code.
    - [Uptime]: the jobs of [Main] on the timeline of [SchedTimed] next to the requests.

    Each file but [Async], [Channels], [Routes] and [Keepalive] has one module of the package's name.  A Go type is the record or
    inductive type of its name, a method or function the definition of its name
    (with an underscore where Rocq reserves the word: [Set_], [Check_]); a loop is a
    [Fixpoint] named after its function, a closure or a critical section a
    definition of its own.  State is passed explicitly; user callbacks act on a world
    type [W]; clock readings, random numbers and the choices of a [select] are
    arguments or choices of a step.  Mutexes make their critical sections one step.

    ** What the theorems show

    - State machines: the breaker's counters obey its state under any
      interleaving, it trips exactly at the threshold and recovers
      ([breaker_invariant], [trips_at_threshold], [recovers_after_timeout]); jobs
      of the queue are never lost and never change once done or dead ([job_lifecycle]).
    - Refinement: the LRU cache of pointers answers as a list of entries
      ([cache_refines_lru], [lru_retention]); the keyed limiter as a map of
      buckets ([keyed_refines]).
    - Numbers: the bucket stays within its bounds in floating point
      ([bucket_bounds]), the backoff within [Max] ([backoff_bounded]); where a
      conversion or a shift overflows is proved too ([backoff_overflow],
      [default_exponential_overflow]).
    - Whole runs as equations: [retry_spec], [saga_run_spec], [shutdown_spec],
      [execute_job_spec], [relay_spec], [rpc_stack].
    - Composition: a product of the catalogue is served for five minutes after each
      warm-up whatever else happens ([catalog_available]) and nothing but the catalogue
      ever is ([catalog_sound]); the HTTP stack contains panics and keeps requests over
      the rate from the routes ([http_stack]); a gRPC client gets what the method returned, errors by
      the code that is sent for them ([client_calls_server]); lookups of unknown products open the breaker
      ([missing_ids_trip_breaker]); the server starts ([main_starts]) and ends
      ([main_exits]); every request has the status of its route, without the 503 that
      the comment of the Timeout middleware promises ([routes_spec],
      [request_status], [product_over_http]); every order is at one station of its way
      and left alone the orders settle ([orders_accounted], [orders_settle],
      [stopped_pool_refuses]), and the runs in which one is lost or the process crashes
      ([accepted_order_lost], [shutdown_crash]).  [ext] in [Server] is the relation that every
      activity of the service respects and from which these follow.
    - Observation: tracing changes no result and leaves no span open
      ([tracing_transparent], [query_spans], [redis_spans]), [Open] leaks no pool ([open_no_leak]),
      the metrics of the service do not collide ([server_metrics_register]).
    - Concurrency: [pool_invariant], [pool_drains], [process_spec],
      [process_terminates], [concurrency_bounded], [stop_is_final],
      [stop_can_return], [delivery], [registration]; mutual exclusion of the lock
      by leases ([mutual_exclusion]); Stop waits for the workers and can always return
      ([stop_waits_for_workers], [stop_can_return_all]); a stream delivers the list
      function of its stages and ends ([collect_spec], [collect_terminates]),
      [broadcast], [fan_in_merges], [semaphore_permits], [await_agreement], [all_spec];
      the runs that panic or block ([submit_stop_race], [publish_unsubscribe_race],
      [start_twice_panics], [stop_without_start]).
    - Databases: [withtx_atomic], [append_spec], [append_load],
      [enqueue_spec], [relay_at_least_once], [flush_spec], [list_all_spec], [set_then_decide].
    - Time: the periodic jobs begin on time ([jobs_on_time]), so that the catalogue is
      available as long as the server runs ([always_available]); the keepalive keeps the lock
      through a bounded number of failed renewals ([lease_kept]), fewer than the three chances
      of the comment ([third_chance_late]); Release ends the renewals for good ([released_for_good]),
      can return ([release_can_return]) and panics only when called concurrently
      ([sequential_releases_safe], [concurrent_release_panics]); [Do] ends within one call of its context's end ([retry_deadline]), polling
      ends ([eventually_ends], [start_postgres_ends]), the janitor only sweeps
      ([janitor_spec]).
    - Errors: [errors_is_spec], [nested_search], [error_text_panics], [validation_text].
    - Inputs: [load_spec], [env_file_precedence], [validate_accepts],
      [check_email_spec], [auth_gate], [issue_then_accept].

    ** Fuel and bounds

    Loops over a list or a counter recurse on it.  Fuel appears in [Lock.Acquire]
    (max 1 n attempts suffice under [WithRetry]), in [RedisCache.Flush] and
    [Feature.ListAll] (more than the calls the server's scan needs, [calls_left]), in
    [Timers.Eventually] (timeout/tick + 2 polls) and [Timers.StartPostgres] (152 attempts
    in 30 s), and in [Strings.trim_front] (the length of the string); the theorems say that this
    much fuel gives a result.  Integers are [Z] with [wrap64] at the operations whose
    overflow the code can meet.

    ** Outside code

    PostgreSQL, Redis, JWT signing, the regular expression engine, encoding/json, url
    and duration parsing and [math.Pow] are parameters or classes; a theorem that
    assumes something of one says so in its statement or its class, and has a witness.  The
    laws of [Store.PostgresLaws] are those of a session that runs alone: what other sessions
    commit in between is not modelled, so the theorems on [Store], [EventStore], [Outbox] and
    [Queue] speak of one session at a time, with failures anywhere.  Likewise the keyed limiter
    is used by one goroutine at a time.

    ** Not modelled, and the plan

    Loggers are left out, with the options that set them, except for the log lines a theorem
    is about; so are the JSON texts, of which only the length reaches a response.  ServeMux
    is modelled for patterns of literal and single-segment wildcards with a method, without
    hosts, since the service has no others.  Every package of the repository has its file.
    Timed systems assume bounds on how late a goroutine runs ([J]) and how long a job or a
    call takes ([D], [L], [E]), as arguments of their theorems; scheduling itself is not modelled,
    and the ticks of the outbox relay, the queue's polls and the limiter's cleanup may occur at
    any time, since nothing that is proved of them depends on when.  The timed scheduler has no
    [Stop], which [Sched] covers for every timing.  In [Uptime] a request or a job is one step;
    the interleavings inside one are those of its component's file. *)

From stdpp Require Export base gmap list strings relations.
From Stdlib Require Export ZArith Lia.

(** ** Hints *)

Create HintDb gkit discriminated.
#[export] Hint Resolve rtc_refl rtc_once : gkit.

(** ** Tactics *)

(** Case analysis on the scrutinee of a [match]/[if] of the goal or of a
    hypothesis, keeping the equation. *)
Ltac dmatch_in H :=
  match type of H with
  | context [match ?x with _ => _ end] => let E := fresh "E" in destruct x eqn:E
  end.
Ltac dmatch :=
  match goal with
  | |- context [match ?x with _ => _ end] => let E := fresh "E" in destruct x eqn:E
  end.

(** Boolean comparisons of [Z] in hypotheses and goal become propositions. *)
Ltac zbool :=
  repeat match goal with
  | H : (_ <? _)%Z = true |- _ => apply Z.ltb_lt in H
  | H : (_ <? _)%Z = false |- _ => apply Z.ltb_ge in H
  | H : (_ <=? _)%Z = true |- _ => apply Z.leb_le in H
  | H : (_ <=? _)%Z = false |- _ => apply Z.leb_gt in H
  | H : (_ >=? _)%Z = true |- _ => rewrite Z.geb_leb in H; apply Z.leb_le in H
  | H : (_ >=? _)%Z = false |- _ => rewrite Z.geb_leb in H; apply Z.leb_gt in H
  | H : (_ >? _)%Z = true |- _ => rewrite Z.gtb_ltb in H; apply Z.ltb_lt in H
  | H : (_ >? _)%Z = false |- _ => rewrite Z.gtb_ltb in H; apply Z.ltb_ge in H
  | H : (_ =? _)%Z = true |- _ => apply Z.eqb_eq in H
  | H : (_ =? _)%Z = false |- _ => apply Z.eqb_neq in H
  | H : _ && _ = true |- _ => apply andb_true_iff in H; destruct H
  | H : negb _ = true |- _ => apply negb_true_iff in H
  | H : negb _ = false |- _ => apply negb_false_iff in H
  end.

(** [zsolve]: split the remaining [match]es and close with arithmetic. *)
Ltac zsolve := intros; repeat (dmatch; zbool; simplify_eq/=); zbool; try done; try lia.

(** ** Reachability: invariants by rule induction *)

Section Reachability.
Context {S : Type} (step : S → S → Prop).

Lemma rtc_invariant (Inv : S → Prop) s s' :
  (∀ x y, Inv x → step x y → Inv y) → Inv s → rtc step s s' → Inv s'.
Proof. intros Hstep Hs Hr. induction Hr as [|x y z Hxy _ IH]; eauto. Qed.
End Reachability.

(** ** Lists *)

Section Lists.
Context {A B : Type}.

Lemma fold_left_invariant (P : A → Prop) (f : A → B → A) (l : list B) a :
  (∀ x y, y ∈ l → P x → P (f x y)) → P a → P (fold_left f l a).
Proof.
  revert a. induction l as [|b l IH]; intros a Hf Ha; simpl; [done|].
  apply IH; [intros; apply Hf; [by right|done]|]. apply Hf; [by left|done].
Qed.
Lemma filter_all (P : A → Prop) `{∀ x, Decision (P x)} (l : list A) :
  (∀ x, x ∈ l → P x) → filter P l = l.
Proof.
  induction l as [|x l IH]; intros HP; [done|].
  rewrite filter_cons_True by (apply HP; by left). f_equal. apply IH. intros; apply HP; by right.
Qed.
Lemma Forall_sublist (P : A → Prop) (l1 l2 : list A) : l1 `sublist_of` l2 → Forall P l2 → Forall P l1.
Proof. intros Hs. rewrite !Forall_forall. eauto using elem_of_sublist. Qed.
Lemma NoDup_fmap_inj (f : A → B) (l : list A) x y :
  NoDup (f <$> l) → x ∈ l → y ∈ l → f x = f y → x = y.
Proof.
  induction l as [|a l IH]; simpl; [by rewrite elem_of_nil|].
  rewrite NoDup_cons, !elem_of_cons. intros [Hni Hnd] [->|Hx] [->|Hy] Hf; auto.
  - destruct Hni. rewrite Hf. by apply list_elem_of_fmap_2.
  - destruct Hni. rewrite <-Hf. by apply list_elem_of_fmap_2.
Qed.
Lemma Forall_or_middle (P : A → Prop) `{∀ x, Decision (P x)} (l : list A) :
  Forall P l ∨ ∃ l1 x l2, l = l1 ++ x :: l2 ∧ ¬ P x.
Proof.
  induction l as [|x l [IH|(l1 & y & l2 & -> & Hy)]]; [by left| |].
  - destruct (decide (P x)); [left; by constructor|]. right. by exists [], x, l.
  - right. by exists (x :: l1), y, l2.
Qed.
Lemma sum_list_with_middle (f : A → nat) l1 x l2 :
  sum_list_with f (l1 ++ x :: l2) = (f x + sum_list_with f (l1 ++ l2))%nat.
Proof. rewrite !sum_list_with_app. simpl. lia. Qed.
Lemma omap_length_le (f : A → option B) (l : list A) : (length (omap f l) ≤ length l)%nat.
Proof. induction l as [|a l IH]; [done|]. csimpl. destruct (f a); csimpl; lia. Qed.
End Lists.

(** ** Strings *)

Lemma length_string_app (p s : string) : String.length (p +:+ s) = (String.length p + String.length s)%nat.
Proof. induction p as [|a p IH]; simpl; [done|]. by rewrite IH. Qed.

Lemma append_assoc (a b c : string) : (a +:+ b) +:+ c = a +:+ (b +:+ c).
Proof. induction a as [|x a IH]; [done|]. by apply (f_equal (String x)). Qed.

Lemma append_nil_r (a : string) : a +:+ "" = a.
Proof. induction a as [|x a IH]; [done|]. by apply (f_equal (String x)). Qed.

Lemma substring_prefix (p s : string) : String.substring 0 (String.length p) (p +:+ s) = p.
Proof. induction p as [|c p IH]; simpl; [by destruct s|by rewrite IH]. Qed.

Lemma substring_suffix (p s : string) : String.substring (String.length p) (String.length s) (p +:+ s) = s.
Proof.
  induction p as [|c p IH]; [|done]. change ("" +:+ s) with s. simpl.
  induction s as [|c s IH]; simpl; [done|by rewrite IH].
Qed.
