(* ===== verification/GoLang.v ===== *)
(** * The Go language and standard library, as far as gkit-go uses them

    Fixed-width integers with their wrap-around, [time.Time] and
    [time.Duration], [error] values with [errors.Is]/[errors.As], panics and
    buffered channels. *)

From S2P Require Import Prelude.
Open Scope Z_scope.

(** ** Machine integers *)

Definition int64_min : Z := - 2 ^ 63.
Definition int64_max : Z := 2 ^ 63 - 1.

(** The value an [int64] (and [int] on a 64-bit platform) holds after an
    arithmetic operation whose exact result is [z]. *)
Definition wrap64 (z : Z) : Z := (z + 2 ^ 63) mod 2 ^ 64 - 2 ^ 63.

(** The same for [uint64]. *)
Definition uwrap64 (z : Z) : Z := z mod 2 ^ 64.

Definition is_int64 (z : Z) : Prop := int64_min ≤ z ≤ int64_max.

(** [x << n] at type [int64]: the shift count is not reduced modulo 64. *)
Definition shl64 (x n : Z) : Z := wrap64 (Z.shiftl x n).

(** ** time.Duration and time.Time

    A duration is an [int64] number of nanoseconds.  An instant is the number
    of nanoseconds since January 1, year 1, 00:00 UTC, which is the zero
    [time.Time] of the language. *)

Definition Duration := Z.
Definition Time := Z.

Definition Nanosecond : Duration := 1.
Definition Millisecond : Duration := 1000000.
Definition Second : Duration := 1000000000.
Definition Minute : Duration := 60 * Second.
Definition Hour : Duration := 60 * Minute.

Definition time_zero : Time := 0.
Definition IsZero (t : Time) : bool := t =? time_zero.

(** [t.Sub(u)] saturates at the extreme durations. *)
Definition Sub (t u : Time) : Duration := Z.max int64_min (Z.min int64_max (t - u)).
Definition Add (t : Time) (d : Duration) : Time := t + d.
Definition After (t u : Time) : bool := u <? t.
Definition Before (t u : Time) : bool := t <? u.

(** ** Errors

    A sentinel made by [errors.New] is compared by identity, so it carries a
    name of its own.  [ErrFmt] and [ErrWrap] are the values of [fmt.Errorf]
    without and with a [%w] verb: the format and the operands are kept, the
    rendered text is not.  The remaining constructors are the error structs
    gkit-go declares, and the status errors of gRPC with their numeric code.
    The nil error is [None]. *)

Inductive error : Type :=
| ErrNew (id : positive) (text : string)
| ErrFmt (format : string) (args : list string)
| ErrWrap (format : string) (args : list string) (cause : error)
| ErrJoin (errs : list error)
| ErrMaxAttempts (Attempts : Z) (Last : option error)
| ErrStop (Err : option error)
| ErrSaga (SagaName FailedStep : string) (Cause : error)
    (CompensationErrors : list (string * error))
| ErrStatus (code : Z) (text : string).

Definition context_Canceled : error := ErrNew 1 "context canceled".
Definition context_DeadlineExceeded : error := ErrNew 2 "context deadline exceeded".

(** The errors reached from [e] by [Unwrap], [e] first, in the depth-first
    order in which [errors.Is] and [errors.As] visit them. *)
Fixpoint error_tree (e : error) : list error :=
  e :: match e with
       | ErrNew _ _ | ErrFmt _ _ | ErrStatus _ _ => []
       | ErrWrap _ _ c => error_tree c
       | ErrJoin es => flat_map error_tree es
       | ErrMaxAttempts _ last => match last with Some c => error_tree c | None => [] end
       | ErrStop inner => match inner with Some c => error_tree c | None => [] end
       | ErrSaga _ _ c _ => error_tree c
       end.

(** [errors.Is(err, target)] for a sentinel [target]. *)
Definition is_sentinel (id : positive) (e : error) : bool :=
  match e with ErrNew id' _ => bool_decide (id = id') | _ => false end.

Definition errors_Is (err : option error) (id : positive) : bool :=
  match err with Some e => existsb (is_sentinel id) (error_tree e) | None => false end.

(** [errors.As(err, &target)]: the first error of the tree that matches. *)
Definition errors_As {A} (match_ : error → option A) (err : error) : option A :=
  head (omap match_ (error_tree err)).

(** [errors.Join] of a list without nil elements. *)
Definition errors_Join (es : list error) : option error :=
  match es with [] => None | _ => Some (ErrJoin es) end.

(** ** Panics *)

Inductive outcome (A : Type) : Type :=
| Ret (a : A)
| Panic (msg : string).
Arguments Ret {A} a.
Arguments Panic {A} msg.

(** ** Integer lemmas *)

Lemma wrap64_id z : is_int64 z → wrap64 z = z.
Proof.
  unfold is_int64, wrap64, int64_min, int64_max. intros.
  rewrite Z.mod_small; lia.
Qed.

Lemma wrap64_range z : is_int64 (wrap64 z).
Proof.
  unfold is_int64, wrap64, int64_min, int64_max.
  pose proof (Z.mod_pos_bound (z + 2 ^ 63) (2 ^ 64) ltac:(lia)). lia.
Qed.

Lemma Sub_exact t u : is_int64 (t - u) → Sub t u = t - u.
Proof. unfold Sub, is_int64, int64_min, int64_max. lia. Qed.

Lemma Sub_lt t u d : is_int64 d → d ≤ int64_max - 1 → t < u + d → Sub t u < d ∨ Sub t u = int64_min.
Proof. unfold Sub, is_int64, int64_min, int64_max. lia. Qed.

Lemma Sub_ge t u d : is_int64 d → u + d ≤ t → d ≤ Sub t u.
Proof. unfold Sub, is_int64, int64_min, int64_max. lia. Qed.

Lemma uwrap64_succ z : uwrap64 (uwrap64 z + 1) = uwrap64 (z + 1).
Proof. unfold uwrap64. apply Z.add_mod_idemp_l. lia. Qed.

Lemma uwrap64_id z : 0 ≤ z < 2 ^ 64 → uwrap64 z = z.
Proof. intros. unfold uwrap64. by apply Z.mod_small. Qed.
