(* ===== verification/Strings.v ===== *)
(** * Strings: the functions of the Go packages strings and unicode/utf8 in use

    A Go string is a sequence of bytes: [string], one [ascii] per byte. *)

From S2P Require Import Prelude GoLang.
Open Scope Z_scope.

Module Strings.

Definition byte (n : nat) : Ascii.ascii := Ascii.ascii_of_nat n.
Definition utf8 (bs : list nat) : string := fold_right (λ b s, String (byte b) s) "" bs.

(** [strings.TrimPrefix] and [strings.HasPrefix] in one: the rest after [p], if
    [s] starts with [p]. *)
Fixpoint CutPrefix (p s : string) : option string :=
  match p, s with
  | "", _ => Some s
  | String a p, String b s => if Ascii.eqb a b then CutPrefix p s else None
  | _, _ => None
  end.

Definition HasPrefix (s p : string) : bool := match CutPrefix p s with Some _ => true | None => false end.

(** ** strings.TrimSpace *)

(** The UTF-8 encodings of the Unicode white space runes. *)
Definition spaces : list string :=
  utf8 <$> ([[9]; [10]; [11]; [12]; [13]; [32]; [194; 133]; [194; 160]; [225; 154; 128];
             [226; 128; 128]; [226; 128; 129]; [226; 128; 130]; [226; 128; 131]; [226; 128; 132];
             [226; 128; 133]; [226; 128; 134]; [226; 128; 135]; [226; 128; 136]; [226; 128; 137];
             [226; 128; 138]; [226; 128; 168]; [226; 128; 169]; [226; 128; 175]; [226; 129; 159];
             [227; 128; 128]])%nat.

Definition reverse (s : string) : string := String.rev s.

(** Removes the encodings [enc] from the front of [s]; every round removes at
    least one byte, so the length of [s] is enough fuel. *)
Fixpoint trim_front (enc : list string) (fuel : nat) (s : string) : string :=
  match fuel with
  | O => s
  | S fuel => match head (omap (λ p, CutPrefix p s) enc) with
              | Some s' => trim_front enc fuel s'
              | None => s
              end
  end.

Definition TrimSpace (s : string) : string :=
  let s := trim_front spaces (String.length s) s in
  reverse (trim_front (reverse <$> spaces) (String.length s) (reverse s)).

(** ** Searching and splitting *)

(** [strings.Split(s, sep)] for a separator of one byte. *)
Fixpoint Split (sep : Ascii.ascii) (s : string) : list string :=
  match s with
  | "" => [""]
  | String c s =>
    let parts := Split sep s in
    if Ascii.eqb c sep then "" :: parts
    else match parts with p :: ps => String c p :: ps | [] => [String c ""] end
  end.

Fixpoint Join (l : list string) (sep : string) : string :=
  match l with
  | [] => ""
  | [x] => x
  | x :: l => x +:+ sep +:+ Join l sep
  end.

(** [strings.TrimSuffix]: the suffix is removed once. *)
Definition TrimSuffix (s suffix : string) : string :=
  let n := (String.length s - String.length suffix)%nat in
  if (String.length suffix <=? String.length s)%nat && String.eqb (String.substring n (String.length suffix) s) suffix
  then String.substring 0 n s else s.

(** [strings.Contains] for one byte. *)
Fixpoint Contains (s : string) (c : Ascii.ascii) : bool :=
  match s with "" => false | String a s => Ascii.eqb a c || Contains s c end.

(** [strings.LastIndex] for one byte: -1 if absent. *)
Fixpoint LastIndex (s : string) (c : Ascii.ascii) : Z :=
  match s with
  | "" => -1
  | String a s => let i := LastIndex s c in
                  if 0 <=? i then i + 1 else if Ascii.eqb a c then 0 else -1
  end.

(** [s[i:]]. *)
Fixpoint from (i : nat) (s : string) : string :=
  match i, s with
  | O, _ => s
  | S i, String _ s => from i s
  | _, "" => ""
  end.

(** ** Runes *)

Definition in_range (lo hi : nat) (c : Ascii.ascii) : bool :=
  (lo <=? Ascii.nat_of_ascii c)%nat && (Ascii.nat_of_ascii c <=? hi)%nat.

(** What the bytes after the first must be, in an encoding of two, three or four
    bytes; [None] for bytes that are a rune of their own. *)
Definition continuation (c : Ascii.ascii) : option (list (nat * nat)) :=
  if in_range 194 223 c then Some [(128, 191)]%nat
  else if in_range 224 224 c then Some [(160, 191); (128, 191)]%nat
  else if in_range 237 237 c then Some [(128, 159); (128, 191)]%nat
  else if in_range 225 239 c then Some [(128, 191); (128, 191)]%nat
  else if in_range 240 240 c then Some [(144, 191); (128, 191); (128, 191)]%nat
  else if in_range 241 243 c then Some [(128, 191); (128, 191); (128, 191)]%nat
  else if in_range 244 244 c then Some [(128, 143); (128, 191); (128, 191)]%nat
  else None.

Fixpoint matches (rs : list (nat * nat)) (s : string) : bool :=
  match rs, s with
  | [], _ => true
  | (lo, hi) :: rs, String c s => in_range lo hi c && matches rs s
  | _, "" => false
  end.

(** [utf8.RuneCountInString]: an invalid byte counts as one rune.  [skip] is the
    number of bytes of the current rune still to pass. *)
Fixpoint rune_count (skip : nat) (s : string) : nat :=
  match s with
  | "" => 0
  | String c s =>
    match skip with
    | S skip => rune_count skip s
    | O => match continuation c with
           | Some rs => if matches rs s then S (rune_count (length rs) s) else S (rune_count 0 s)
           | None => S (rune_count 0 s)
           end
    end
  end.
Definition RuneCountInString (s : string) : Z := Z.of_nat (rune_count 0 s).

(** ** Lemmas *)

Lemma LastIndex_none s c : LastIndex s c = -1 ↔ Contains s c = false.
Proof.
  induction s as [|a s IH]; simpl; [done|]. rewrite orb_false_iff, <-IH.
  destruct (0 <=? LastIndex s c) eqn:E; zbool; [split; [lia|intros [_ ?]; lia]|].
  assert (-1 ≤ LastIndex s c).
  { clear. induction s as [|b s IH]; simpl; [lia|]. destruct (0 <=? LastIndex s c) eqn:E; zbool; [lia|].
    destruct (Ascii.eqb b c); lia. }
  destruct (Ascii.eqb a c); [split; [done|intros [? _]; done]|]. split; [|done]. intros _. split; [done|lia].
Qed.

Lemma LastIndex_bounds s c : -1 ≤ LastIndex s c < Z.of_nat (String.length s).
Proof.
  induction s as [|a s IH]; simpl; [lia|]. destruct (0 <=? LastIndex s c) eqn:E; zbool; [lia|].
  destruct (Ascii.eqb a c); lia.
Qed.

(** The last occurrence splits the string. *)
Lemma LastIndex_split s c i : LastIndex s c = Z.of_nat i ↔
  ∃ l r, s = l +:+ String c r ∧ Contains r c = false ∧ String.length l = i ∧ from (S i) s = r.
Proof.
  revert i. induction s as [|a s IH]; intros i; simpl LastIndex.
  - split; [lia|]. intros (l & r & Hs & _). by destruct l.
  - destruct (0 <=? LastIndex s c) eqn:E; zbool.
    + split.
      * intros Hi. destruct i as [|i]; [lia|]. destruct (proj1 (IH i)) as (l & r & -> & Hc & Hl & Hf); [lia|].
        exists (String a l), r. split_and!; [done|done|simpl; congruence|done].
      * intros (l & r & Hs & Hc & Hl & Hf). destruct l as [|b l].
        -- injection Hs as -> ->. apply LastIndex_none in Hc. lia.
        -- injection Hs as -> Hs. simpl in Hl. destruct i as [|i]; [done|]. simpl in Hf.
           assert (LastIndex s c = Z.of_nat i) by (apply IH; exists l, r; split_and!; [done|done|lia|done]). lia.
    + assert (Hn : LastIndex s c = -1) by (pose proof (LastIndex_bounds s c); lia).
      pose proof (proj1 (LastIndex_none s c) Hn) as Hc. destruct (Ascii.eqb a c) eqn:Ea.
      * apply Ascii.eqb_eq in Ea as ->. split.
        -- intros Hi. destruct i; [|lia]. exists "", s. by split_and!.
        -- intros (l & r & Hs & Hcr & Hl & Hf). destruct l as [|b l]; [by subst i|]. exfalso.
           injection Hs as -> Hs. clear -Hs Hc. subst s. induction l as [|x l IH]; simpl in Hc.
           ++ by rewrite Ascii.eqb_refl in Hc.
           ++ apply orb_false_iff in Hc as [_ ?]. auto.
      * split; [lia|]. intros (l & r & Hs & Hcr & Hl & Hf). exfalso. destruct l as [|b l].
        -- injection Hs as -> _. by rewrite Ascii.eqb_refl in Ea.
        -- injection Hs as -> Hs. clear -Hs Hc. subst s. induction l as [|x l IH]; simpl in Hc.
           ++ by rewrite Ascii.eqb_refl in Hc.
           ++ apply orb_false_iff in Hc as [_ ?]. auto.
Qed.

(** ** Splitting and joining *)

Lemma Split_nonempty sep s : Split sep s ≠ [].
Proof. destruct s as [|c s]; simpl; [done|]. destruct (Ascii.eqb c sep); [done|]. by destruct (Split sep s). Qed.

Lemma Split_none sep a : Contains a sep = false → Split sep a = [a].
Proof.
  induction a as [|c a IH]; simpl; [done|]. intros [Hc Ha]%orb_false_iff. by rewrite Hc, IH.
Qed.

Lemma Split_sep sep a b : Contains a sep = false → Split sep (a +:+ String sep b) = a :: Split sep b.
Proof.
  induction a as [|c a IH]; simpl; [by rewrite Ascii.eqb_refl|]. intros [Hc Ha]%orb_false_iff. by rewrite Hc, IH.
Qed.

Lemma Split_parts sep s : Forall (λ x, Contains x sep = false) (Split sep s).
Proof.
  induction s as [|c s IH]; simpl; [by constructor|]. destruct (Ascii.eqb c sep) eqn:E; [by constructor|].
  destruct (Split sep s) as [|p ps]; [by repeat constructor; simpl; rewrite E|].
  apply Forall_cons in IH as [Hp Hps]. constructor; [|done]. simpl. by rewrite E.
Qed.

Lemma Split_Join sep l : l ≠ [] → Forall (λ x, Contains x sep = false) l → Split sep (Join l (String sep "")) = l.
Proof.
  intros Hne Hl. induction Hl as [|x l Hx Hl IH]; [done|]. destruct l as [|y l]; [by apply Split_none|].
  change (Join (x :: y :: l) (String sep "")) with (x +:+ String sep (Join (y :: l) (String sep ""))).
  by rewrite Split_sep, IH.
Qed.

(** ** Suffixes *)

Lemma TrimSuffix_app a b : TrimSuffix (a +:+ b) b = a.
Proof.
  unfold TrimSuffix. rewrite length_string_app, Nat.add_sub, substring_suffix, String.eqb_refl.
  rewrite (proj2 (Nat.leb_le _ _)) by lia. apply substring_prefix.
Qed.

(** A text built by appending every item with its separator, less the last separator. *)
Lemma TrimSuffix_join l sep :
  l ≠ [] → TrimSuffix (foldr (λ x s, x +:+ sep +:+ s) "" l) sep = Join l sep.
Proof.
  intros Hl. replace (foldr (λ x s, x +:+ sep +:+ s) "" l) with (Join l sep +:+ sep); [apply TrimSuffix_app|].
  induction l as [|x [|y l] IH]; [done|simpl; by rewrite append_nil_r|].
  change (Join (x :: y :: l) sep) with (x +:+ sep +:+ Join (y :: l) sep).
  rewrite !append_assoc, IH by done. done.
Qed.

End Strings.
