(* ===== verification/CircuitBreaker.v ===== *)
(** * pkg/circuitbreaker: the circuit breaker state machine

    [Breaker] is the struct of breaker.go.  Every method takes the breaker's
    mutex for its whole body, so each is one atomic function on the record.
    A reading of [time.Now] is an argument.  The field [spawned] lists the
    [onStateChange] goroutines launched so far, in launch order.  [sys_step]
    interleaves the atomic sections of any number of concurrent [Execute]
    calls with [State] and [Reset]. *)

From S2P Require Import Prelude GoLang.
Open Scope Z_scope.

Module Breaker.

(** ** State and configuration *)

Inductive State : Set := StateClosed | StateOpen | StateHalfOpen.

Definition State_String (s : State) : string :=
  match s with
  | StateClosed => "closed"
  | StateOpen => "open"
  | StateHalfOpen => "half-open"
  end.

#[export] Instance State_eq_dec : EqDecision State.
Proof. solve_decision. Defined.

Definition ErrOpen : error := ErrNew 10 "circuitbreaker: circuit is open".

(** [onStateChange] records whether a callback is installed. *)
Record options := Options {
  failureThreshold : Z;
  successThreshold : Z;
  openTimeout : Duration;
  onStateChange : bool
}.

Definition Option := options → options.

Definition WithFailureThreshold (n : Z) : Option := λ o,
  Options n (successThreshold o) (openTimeout o) (onStateChange o).
Definition WithSuccessThreshold (n : Z) : Option := λ o,
  Options (failureThreshold o) n (openTimeout o) (onStateChange o).
Definition WithOpenTimeout (d : Duration) : Option := λ o,
  Options (failureThreshold o) (successThreshold o) d (onStateChange o).
Definition WithOnStateChange (installed : bool) : Option := λ o,
  Options (failureThreshold o) (successThreshold o) (openTimeout o) installed.

Record Breaker := Mk {
  state : State;
  failures : Z;
  probes : Z;
  openedAt : Time;
  opts : options;
  spawned : list (State * State)
}.

Definition New (os : list Option) : Breaker :=
  let o := fold_left (λ o opt, opt o) os (Options 5 1 (60 * Second) false) in
  Mk StateClosed 0 0 time_zero o [].

(** ** Internal transitions *)

Definition transition (to : State) (b : Breaker) : Breaker :=
  if decide (state b = to) then b
  else Mk to (failures b) (probes b) (openedAt b) (opts b)
         (if onStateChange (opts b) then spawned b ++ [(state b, to)] else spawned b).

Definition set_failures (n : Z) (b : Breaker) : Breaker :=
  Mk (state b) n (probes b) (openedAt b) (opts b) (spawned b).
Definition set_probes (n : Z) (b : Breaker) : Breaker :=
  Mk (state b) (failures b) n (openedAt b) (opts b) (spawned b).
Definition set_openedAt (t : Time) (b : Breaker) : Breaker :=
  Mk (state b) (failures b) (probes b) t (opts b) (spawned b).

Definition maybeTransitionFromOpen (now : Time) (b : Breaker) : Breaker :=
  if bool_decide (state b = StateOpen) && (Sub now (openedAt b) >=? openTimeout (opts b))
  then transition StateHalfOpen b
  else b.

(** [allow]: the second component is nil when the call may proceed. *)
Definition allow (now : Time) (b : Breaker) : Breaker * option error :=
  let b := maybeTransitionFromOpen now b in
  match state b with
  | StateClosed => (b, None)
  | StateHalfOpen => (b, None)
  | StateOpen => (b, Some (ErrWrap "%w (will retry after %s)" [] ErrOpen))
  end.

Definition record (now : Time) (err : option error) (b : Breaker) : Breaker :=
  match state b with
  | StateClosed =>
      match err with
      | Some _ =>
          let b := set_failures (wrap64 (failures b + 1)) b in
          if failures b >=? failureThreshold (opts b)
          then transition StateOpen (set_openedAt now b)
          else b
      | None => set_failures 0 b
      end
  | StateHalfOpen =>
      match err with
      | Some _ =>
          transition StateOpen (set_openedAt now (set_probes 0 (set_failures 0 b)))
      | None =>
          let b := set_probes (wrap64 (probes b + 1)) b in
          if probes b >=? successThreshold (opts b)
          then transition StateClosed (set_probes 0 (set_failures 0 b))
          else b
      end
  | StateOpen => b
  end.

(** ** Exported operations *)

(** [State()] may itself move an expired Open breaker to HalfOpen. *)
Definition get_State (now : Time) (b : Breaker) : Breaker * State :=
  let b := maybeTransitionFromOpen now b in (b, state b).

Definition Reset (b : Breaker) : Breaker :=
  set_probes 0 (set_failures 0 (transition StateClosed b)).

(** [Execute] with no other call between its two critical sections; [fn] is
    the result of the protected function, [t1] and [t2] are the two readings
    of the clock.  The third component tells whether [fn] was called. *)
Definition Execute {T} (zero : T) (t1 t2 : Time) (fn : T * option error) (b : Breaker)
  : Breaker * (T * option error) * bool :=
  match allow t1 b with
  | (b, Some e) => (b, (zero, Some e), false)
  | (b, None) => (record t2 (fn.2) b, fn, true)
  end.

Definition ExecuteVoid (t1 t2 : Time) (fn : option error) (b : Breaker)
  : Breaker * option error * bool :=
  let '(b, (_, e), called) := Execute tt t1 t2 (tt, fn) b in (b, e, called).

(** ** Concurrent use

    A system state is the breaker and the number of calls that [allow] has
    admitted and that have not yet reached [record]. *)
Record sys := Sys { brk : Breaker; inflight : nat }.

Inductive sys_step : sys → sys → Prop :=
| step_admit now b b' n :
    allow now b = (b', None) → sys_step (Sys b n) (Sys b' (S n))
| step_reject now b b' n e :
    allow now b = (b', Some e) → sys_step (Sys b n) (Sys b' n)
| step_record now err b n :
    sys_step (Sys b (S n)) (Sys (record now err b) n)
| step_State now b n :
    sys_step (Sys b n) (Sys (get_State now b).1 n)
| step_Reset b n :
    sys_step (Sys b n) (Sys (Reset b) n).

Definition thresholds_ok (o : options) : Prop :=
  1 ≤ failureThreshold o ≤ int64_max ∧ 1 ≤ successThreshold o ≤ int64_max.

(** The counters in each state. *)
Definition Inv (b : Breaker) : Prop :=
  match state b with
  | StateClosed => 0 ≤ failures b < failureThreshold (opts b) ∧ probes b = 0
  | StateOpen => probes b = 0
  | StateHalfOpen => 0 ≤ probes b < successThreshold (opts b)
  end.

(** Calls that can reach an open breaker without a [Reset]. *)
Inductive call := CallAllow (now : Time) | CallState (now : Time) | CallRecord (now : Time) (err : option error).

Definition call_time (c : call) : Time :=
  match c with CallAllow t | CallState t | CallRecord t _ => t end.

Definition is_allow (c : call) : bool := match c with CallAllow _ => true | _ => false end.

(** The breaker after a call and, for [allow], its result. *)
Definition run_call (c : call) (b : Breaker) : Breaker * option (option error) :=
  match c with
  | CallAllow t => let '(b, r) := allow t b in (b, Some r)
  | CallState t => ((get_State t b).1, None)
  | CallRecord t e => (record t e b, None)
  end.

Fixpoint run_calls (cs : list call) (b : Breaker) : Breaker * list (option error) :=
  match cs with
  | [] => (b, [])
  | c :: cs =>
      let '(b, r) := run_call c b in
      let '(b, rs) := run_calls cs b in
      (b, match r with Some r => r :: rs | None => rs end)
  end.

(** Sequential executions; each element is the two clock readings and the
    error of the protected call. *)
Fixpoint executes (es : list (Time * Time * option error)) (b : Breaker) : Breaker :=
  match es with
  | [] => b
  | (t1, t2, e) :: es => executes es (ExecuteVoid t1 t2 e b).1.1
  end.

(** A history of successful executions with the given clock readings. *)
Definition successes (ts : list (Time * Time)) : list (Time * Time * option error) :=
  map (λ t, (t.1, t.2, None)) ts.

(** Number of failures at the end of a history of results. *)
Definition failed (e : option error) : bool := match e with Some _ => true | None => false end.

Definition trailing_failures (es : list (Time * Time * option error)) : Z :=
  fold_left (λ n '(_, _, e), if failed e then n + 1 else 0) es 0.

(** A tripped breaker, for the witnesses. *)
Definition tripped : Breaker := Mk StateOpen 5 0 1000 (opts (New [])) [].

(** ** Lemmas *)

Lemma opts_transition to b : opts (transition to b) = opts b.
Proof. unfold transition. by case_decide. Qed.

Lemma state_transition to b : state (transition to b) = to.
Proof. unfold transition. by case_decide. Qed.

Lemma failures_transition to b : failures (transition to b) = failures b.
Proof. unfold transition. by case_decide. Qed.

Lemma probes_transition to b : probes (transition to b) = probes b.
Proof. unfold transition. by case_decide. Qed.

Lemma openedAt_transition to b : openedAt (transition to b) = openedAt b.
Proof. unfold transition. by case_decide. Qed.

Create Rewrite HintDb breaker.
#[export] Hint Rewrite opts_transition state_transition failures_transition probes_transition
  openedAt_transition : breaker.

Lemma opts_maybe now b : opts (maybeTransitionFromOpen now b) = opts b.
Proof. unfold maybeTransitionFromOpen. case_match; [apply opts_transition|done]. Qed.

Lemma opts_record now e b : opts (record now e b) = opts b.
Proof. unfold record. repeat case_match; rewrite ?opts_transition; done. Qed.

Lemma opts_allow now b b' r : allow now b = (b', r) → opts b' = opts b.
Proof. unfold allow. intros H. case_match; simplify_eq; apply opts_maybe. Qed.

Lemma opts_Reset b : opts (Reset b) = opts b.
Proof. unfold Reset. simpl. apply opts_transition. Qed.

Lemma fst_allow now b : (allow now b).1 = maybeTransitionFromOpen now b.
Proof. unfold allow. by case_match. Qed.

Lemma Inv_maybe now b :
  thresholds_ok (opts b) → Inv b → Inv (maybeTransitionFromOpen now b).
Proof.
  unfold maybeTransitionFromOpen, thresholds_ok. intros Ho HI. case_match eqn:E; [|done].
  zbool. case_bool_decide as Hs; [|done]. unfold Inv in *.
  autorewrite with breaker. rewrite Hs in HI. lia.
Qed.

Lemma Inv_record now e b : thresholds_ok (opts b) → Inv b → Inv (record now e b).
Proof.
  unfold thresholds_ok. intros Ho HI. unfold record.
  destruct (state b) eqn:Hs, e as [e|]; unfold Inv in HI; rewrite Hs in HI;
    simpl; try case_match eqn:E; unfold Inv; autorewrite with breaker; simpl; rewrite ?Hs; simpl;
    zbool; rewrite ?wrap64_id in * by (unfold is_int64, int64_min in *; lia); lia.
Qed.

Lemma Inv_Reset b : thresholds_ok (opts b) → Inv (Reset b).
Proof.
  unfold thresholds_ok, Inv, Reset. intros Ho. simpl.
  rewrite state_transition, opts_transition. lia.
Qed.

Lemma Inv_New os : thresholds_ok (opts (New os)) → Inv (New os).
Proof. unfold thresholds_ok, Inv. simpl. lia. Qed.

Lemma sys_step_opts s s' : sys_step s s' → opts (brk s') = opts (brk s).
Proof.
  destruct 1; cbn [brk]; eauto using opts_allow.
  - apply opts_record.
  - apply opts_maybe.
  - apply opts_Reset.
Qed.

Lemma sys_step_Inv s s' :
  thresholds_ok (opts (brk s)) ∧ Inv (brk s) → sys_step s s' →
  thresholds_ok (opts (brk s')) ∧ Inv (brk s').
Proof.
  intros [Ho HI] Hst. rewrite (sys_step_opts _ _ Hst). split; [done|].
  destruct Hst as [now b b' n Ha|now b b' n e Ha|now e b n|now b n|b n]; simpl in *.
  - replace b' with (allow now b).1 by by rewrite Ha. rewrite fst_allow. by apply Inv_maybe.
  - replace b' with (allow now b).1 by by rewrite Ha. rewrite fst_allow. by apply Inv_maybe.
  - by apply Inv_record.
  - by apply Inv_maybe.
  - by apply Inv_Reset.
Qed.

(** An Open breaker before its deadline is a fixed point of every call but
    [Reset]. *)
Lemma open_run_call c b :
  state b = StateOpen → Sub (call_time c) (openedAt b) < openTimeout (opts b) →
  (run_call c b).1 = b ∧
  (run_call c b).2 = match c with
                     | CallAllow _ => Some (Some (ErrWrap "%w (will retry after %s)" [] ErrOpen))
                     | _ => None
                     end.
Proof.
  intros Hs Ht.
  assert (Hm : maybeTransitionFromOpen (call_time c) b = b).
  { unfold maybeTransitionFromOpen. rewrite Z.geb_leb.
    destruct (Z.leb_spec (openTimeout (opts b)) (Sub (call_time c) (openedAt b))); [lia|].
    by rewrite andb_false_r. }
  destruct c; simpl in *; unfold allow, record; rewrite ?Hm, ?Hs; done.
Qed.

(** Outside Open, [allow] admits and leaves the breaker alone. *)
Lemma admitted_allow now b : state b ≠ StateOpen → allow now b = (b, None).
Proof.
  intros Hs. unfold allow, maybeTransitionFromOpen.
  rewrite bool_decide_eq_false_2 by done. simpl. by destruct (state b).
Qed.

Lemma admitted_ExecuteVoid t1 t2 e b :
  state b ≠ StateOpen → ExecuteVoid t1 t2 e b = (record t2 e b, e, true).
Proof. intros Hs. unfold ExecuteVoid, Execute. by rewrite admitted_allow. Qed.

(** One recorded result in Closed, below the threshold and at it. *)
Lemma closed_record t e b n :
  state b = StateClosed → failures b = n → 0 ≤ n < int64_max →
  (if failed e then n + 1 else 0) < failureThreshold (opts b) →
  state (record t e b) = StateClosed ∧
  failures (record t e b) = (if failed e then n + 1 else 0) ∧
  opts (record t e b) = opts b.
Proof.
  intros Hs Hf Hn Hlt. unfold record. rewrite Hs. destruct e as [e|]; simpl in *; [|done].
  rewrite Hf, wrap64_id by (unfold is_int64, int64_min; lia).
  rewrite Z.geb_leb. destruct (Z.leb_spec (failureThreshold (opts b)) (n + 1)); [lia|done].
Qed.

Lemma trailing_snoc es x :
  trailing_failures (es ++ [x]) = if failed x.2 then trailing_failures es + 1 else 0.
Proof. unfold trailing_failures. rewrite fold_left_app. destruct x as [[??] ?]. done. Qed.

Lemma trailing_nonneg es : 0 ≤ trailing_failures es.
Proof.
  induction es as [|x es IH] using rev_ind; [done|].
  rewrite trailing_snoc. case_match; lia.
Qed.

Lemma executes_app es1 es2 b : executes (es1 ++ es2) b = executes es2 (executes es1 b).
Proof.
  revert b. induction es1 as [|[[t1 t2] e] es1 IH]; intros b; simpl; [done|]. apply IH.
Qed.

(** While no prefix of the history ends in [failureThreshold] failures the
    breaker stays Closed and counts the trailing failures. *)
Lemma executes_closed es b :
  thresholds_ok (opts b) → state b = StateClosed → failures b = 0 →
  (∀ p, p `prefix_of` es → trailing_failures p < failureThreshold (opts b)) →
  state (executes es b) = StateClosed ∧ failures (executes es b) = trailing_failures es ∧
  opts (executes es b) = opts b.
Proof.
  intros Ho Hs Hf. induction es as [|[[t1 t2] e] es IH] using rev_ind; intros Hp; [done|].
  destruct IH as (Hs'&Hf'&Ho').
  { intros p Hpre. apply Hp. by apply prefix_app_r. }
  rewrite executes_app. simpl. rewrite admitted_ExecuteVoid by congruence. simpl.
  pose proof (Hp _ (reflexivity _)) as Hlt. rewrite trailing_snoc in Hlt |- *. simpl in *.
  pose proof (trailing_nonneg es). unfold thresholds_ok in Ho.
  assert (trailing_failures es < failureThreshold (opts b)).
  { apply Hp. by apply prefix_app_r. }
  destruct (closed_record t2 e (executes es b) (trailing_failures es)) as (?&?&?);
    [done|done|lia|by rewrite Ho'|]. split_and!; congruence.
Qed.

(** A run of successful probes below the success threshold. *)
Lemma halfopen_probes ts b n :
  state b = StateHalfOpen → probes b = n → 0 ≤ n →
  n + Z.of_nat (length ts) < successThreshold (opts b) ≤ int64_max →
  let b' := executes (successes ts) b in
  state b' = StateHalfOpen ∧ probes b' = n + Z.of_nat (length ts) ∧ opts b' = opts b.
Proof.
  revert b n. induction ts as [|[t1 t2] ts IH]; intros b n Hs Hp Hn Hlt; simpl in *.
  { split_and!; [done|lia|done]. }
  rewrite admitted_ExecuteVoid by congruence. cbn [fst]. unfold record. rewrite Hs. simpl.
  rewrite Hp, wrap64_id by (unfold is_int64, int64_min; lia).
  rewrite Z.geb_leb. destruct (Z.leb_spec (successThreshold (opts b)) (n + 1)); [lia|].
  destruct (IH (set_probes (n + 1) b) (n + 1)) as (?&?&?); simpl; [done|done|lia|lia|].
  split_and!; [done| |done]. etrans; [eassumption|lia].
Qed.

Lemma halfopen_last_probe t1 t2 b :
  state b = StateHalfOpen → 0 ≤ probes b < int64_max → successThreshold (opts b) ≤ probes b + 1 →
  let b' := (ExecuteVoid t1 t2 None b).1.1 in
  state b' = StateClosed ∧ failures b' = 0 ∧ probes b' = 0.
Proof.
  intros Hs Hp Hth. rewrite admitted_ExecuteVoid by congruence. simpl. unfold record. rewrite Hs. simpl.
  rewrite wrap64_id by (unfold is_int64, int64_min; lia).
  rewrite Z.geb_leb. destruct (Z.leb_spec (successThreshold (opts b)) (probes b + 1)); [|lia].
  by autorewrite with breaker.
Qed.

Lemma expired_maybe now b :
  state b = StateOpen → openTimeout (opts b) ≤ Sub now (openedAt b) →
  maybeTransitionFromOpen now b = transition StateHalfOpen b.
Proof.
  intros Hs Ht. unfold maybeTransitionFromOpen. rewrite Hs, Z.geb_leb.
  destruct (Z.leb_spec (openTimeout (opts b)) (Sub now (openedAt b))); [done|lia].
Qed.

(** ** Properties *)

(** C1: in every state reachable by any interleaving of any number of
    concurrent [Execute] calls with [State] and [Reset], the counters obey
    their state: a Closed breaker has fewer consecutive failures than the
    threshold and no probe count, an Open breaker has no probe count, a
    HalfOpen breaker has fewer successes than its threshold. *)
Theorem breaker_invariant os s :
  thresholds_ok (opts (New os)) →
  rtc sys_step (Sys (New os) 0) s →
  Inv (brk s) ∧ opts (brk s) = opts (New os).
Proof.
  intros Ho Hr.
  apply (rtc_invariant sys_step (λ s, (thresholds_ok (opts (brk s)) ∧ Inv (brk s)) ∧
           opts (brk s) = opts (New os)) (Sys (New os) 0)) in Hr; [naive_solver| |].
  - intros x y [HI Ho'] Hst. split; [by eapply sys_step_Inv|].
    by rewrite (sys_step_opts _ _ Hst).
  - split; [split|]; [done|by apply Inv_New|done].
Qed.

(** an Open breaker whose timeout has not elapsed at the time of any of
    the calls stays exactly as it is under any sequence of [allow], [State]
    and late [record] calls, and every [allow] among them is refused with
    an error that wraps [ErrOpen], so no protected function runs. *)
Theorem open_fails_fast cs b :
  state b = StateOpen →
  Forall (λ c, Sub (call_time c) (openedAt b) < openTimeout (opts b)) cs →
  run_calls cs b =
    (b, replicate (length (filter is_allow cs))
          (Some (ErrWrap "%w (will retry after %s)" [] ErrOpen))).
Proof.
  intros Hs. induction 1 as [|c cs Hc _ IH]; [done|]. simpl.
  destruct (open_run_call c b Hs Hc) as [E1 E2].
  destruct (run_call c b) as [b' r]; simpl in *; subst. rewrite IH, filter_cons.
  destruct c; done.
Qed.

(** C2: sequential executions from a fresh breaker trip it exactly when the
    number of failures since the last success first reaches the threshold:
    before that it is Closed with that number in [failures]; the execution
    that reaches it leaves it Open, stamped with the clock reading of its
    [record]. *)
Theorem trips_at_threshold os es t1 t2 e :
  thresholds_ok (opts (New os)) →
  (∀ p, p `prefix_of` es → trailing_failures p < failureThreshold (opts (New os))) →
  (state (executes es (New os)) = StateClosed ∧
   failures (executes es (New os)) = trailing_failures es) ∧
  (trailing_failures (es ++ [(t1, t2, e)]) = failureThreshold (opts (New os)) →
   state (executes (es ++ [(t1, t2, e)]) (New os)) = StateOpen ∧
   openedAt (executes (es ++ [(t1, t2, e)]) (New os)) = t2).
Proof.
  intros Ho Hp. destruct (executes_closed es (New os) Ho eq_refl eq_refl Hp) as (Hs&Hf&Hopt).
  split; [done|]. rewrite trailing_snoc. cbn [snd]. intros Heq.
  pose proof (trailing_nonneg es). pose proof (Hp _ (reflexivity es)). unfold thresholds_ok in Ho.
  destruct e as [e|]; cbn [failed] in Heq; [|lia].
  rewrite executes_app. cbn [executes]. rewrite admitted_ExecuteVoid by congruence. cbn [fst]. unfold record.
  rewrite Hs, Hf, wrap64_id by (unfold is_int64, int64_min; lia).
  cbn [failures opts set_failures]. rewrite Z.geb_leb, Hopt, Heq, Z.leb_refl. by autorewrite with breaker.
Qed.

(** C3: recovery. Once the timeout of an Open breaker has elapsed, exactly
    [successThreshold] successful sequential executions close it again with
    both counters at zero, and it is HalfOpen after any smaller number of
    them that is not zero. *)
Theorem recovers_after_timeout b t1 t2 ts :
  state b = StateOpen → probes b = 0 → thresholds_ok (opts b) →
  openTimeout (opts b) ≤ Sub t1 (openedAt b) →
  let run := executes (successes ((t1, t2) :: ts)) b in
  (Z.of_nat (S (length ts)) < successThreshold (opts b) → state run = StateHalfOpen) ∧
  (Z.of_nat (S (length ts)) = successThreshold (opts b) →
   state run = StateClosed ∧ failures run = 0 ∧ probes run = 0).
Proof.
  intros Hs Hp [Hft Hst] Ht run. subst run.
  set (h := transition StateHalfOpen b).
  assert (Hh : state h = StateHalfOpen ∧ probes h = 0 ∧ opts h = opts b).
  { unfold h. by autorewrite with breaker. }
  destruct Hh as (Hsh&Hph&Hoh).
  assert (Hm : maybeTransitionFromOpen t1 h = h).
  { unfold maybeTransitionFromOpen. by rewrite Hsh. }
  assert (Hfirst : ∀ us, executes ((t1, t2, None) :: us) b = executes ((t1, t2, None) :: us) h).
  { intros us. simpl. unfold ExecuteVoid, Execute, allow.
    by rewrite Hm, (expired_maybe t1 b Hs Ht). }
  change (successes ((t1, t2) :: ts)) with ((t1, t2, @None error) :: successes ts).
  rewrite Hfirst. split; intros Hn.
  - destruct (halfopen_probes ((t1, t2) :: ts) h 0) as (?&_&_); rewrite ?Hoh; cbn [length]; lia || done.
  - destruct ts as [|u ts _] using rev_ind; simpl in Hn.
    { apply (halfopen_last_probe t1 t2 h); rewrite ?Hoh; [done|lia|lia]. }
    rewrite length_app in Hn. simpl in Hn. unfold successes. rewrite map_app, app_comm_cons, executes_app. cbn [map executes].
    destruct (halfopen_probes ((t1, t2) :: ts) h 0) as (Hs'&Hp'&Ho'); rewrite ?Hoh; cbn [length];
      [done|done|lia|lia|].
    apply (halfopen_last_probe u.1 u.2 (executes (successes ((t1, t2) :: ts)) h));
      rewrite ?Hp', ?Ho', ?Hoh; cbn [length]; [done|lia|lia].
Qed.

(** HalfOpen does not limit the number of concurrent probes: whatever the
    configuration, once the breaker is HalfOpen any number of calls can be
    in flight at the same time. *)
Theorem halfopen_probes_unlimited b n k :
  state b = StateHalfOpen → rtc sys_step (Sys b n) (Sys b (n + k)).
Proof.
  intros Hs. induction k as [|k IH]; [by rewrite Nat.add_0_r|].
  eapply rtc_r; [exact IH|]. rewrite Nat.add_succ_r. apply (step_admit 0).
  apply admitted_allow. congruence.
Qed.

(** ** Witnesses *)

Lemma breaker_invariant_witness :
  Inv (brk (Sys (New []) 1)) ∧ opts (brk (Sys (New []) 1)) = opts (New []).
Proof.
  apply (breaker_invariant [] (Sys (New []) 1)).
  - unfold thresholds_ok, int64_max. simpl. lia.
  - eapply rtc_l; [by apply (step_admit 5)|apply rtc_refl].
Defined.

Lemma open_fails_fast_witness :
  run_calls [CallAllow 1500; CallRecord 1600 None; CallAllow 1700] tripped =
    (tripped, replicate 2 (Some (ErrWrap "%w (will retry after %s)" [] ErrOpen))).
Proof.
  apply (open_fails_fast [CallAllow 1500; CallRecord 1600 None; CallAllow 1700] tripped);
    [reflexivity|repeat constructor].
Defined.

Lemma trips_at_threshold_witness :
  state (executes ([(1, 2, Some ErrOpen)] ++ [(3, 4, Some ErrOpen)])
           (New [WithFailureThreshold 2])) = StateOpen.
Proof.
  apply (trips_at_threshold [WithFailureThreshold 2] [(1, 2, Some ErrOpen)] 3 4 (Some ErrOpen)).
  - unfold thresholds_ok, int64_max. simpl. lia.
  - intros p Hp. destruct p as [|x p]; [reflexivity|].
    apply prefix_cons_inv_1 in Hp as Hx. apply prefix_cons_inv_2 in Hp. apply prefix_nil_inv in Hp.
    subst. reflexivity.
  - reflexivity.
Defined.

Lemma recovers_after_timeout_witness :
  state (executes (successes [(60 * Second + 1000, 60 * Second + 1001)]) tripped) = StateClosed.
Proof.
  apply (recovers_after_timeout tripped (60 * Second + 1000) (60 * Second + 1001) []);
    [reflexivity|reflexivity|unfold thresholds_ok, int64_max; simpl; lia|vm_compute; discriminate|reflexivity].
Defined.

Lemma halfopen_probes_unlimited_witness :
  rtc sys_step (Sys (transition StateHalfOpen tripped) 0) (Sys (transition StateHalfOpen tripped) (0 + 7)).
Proof. apply (halfopen_probes_unlimited (transition StateHalfOpen tripped) 0 7). reflexivity. Defined.

End Breaker.
