(* ===== verification/LruCache.v ===== *)
(** * pkg/cache: the LRU cache with TTL

    [Cache] is the struct of cache.go with its pointers made explicit: the
    doubly linked list is the sequence [lst] of element addresses (front
    first), [heap] maps an address to the [*entry] the element carries, and
    [items] is the Go map from keys to elements.  Every method holds the mutex
    for its whole body, so each is one function on the record; a reading of
    [time.Now] is an argument.  [Lru] is the abstract cache: a list of entries
    in recency order and nothing else. *)

From S2P Require Import Prelude GoLang.
Open Scope Z_scope.

Module Cache.

(** [entry]: [expiresAt] is the zero time when the cache has no TTL. *)
Record entry (K V : Type) := Entry { key : K; value : V; expiresAt : Time }.
Arguments Entry {K V}.
Arguments key {K V}.
Arguments value {K V}.
Arguments expiresAt {K V}.

Record Stats := MkStats { Hits : Z; Misses : Z; Evicts : Z; Len_ : nat }.

Section Cache.
Context {K V : Type} `{Countable K}.

Record Cache := Mk {
  capacity : Z;
  ttl : Duration;
  lst : list nat;
  heap : gmap nat (entry K V);
  items : gmap K nat;
  hits : Z;
  misses : Z;
  evicts : Z;
  next : nat
}.

Definition Option := Cache → Cache.

Definition WithTTL (d : Duration) : Option := λ c,
  Mk (capacity c) d (lst c) (heap c) (items c) (hits c) (misses c) (evicts c) (next c).

Definition New (cap : Z) (opts : list Option) : outcome Cache :=
  if cap <? 1 then Panic "cache: capacity must be >= 1"
  else Ret (fold_left (λ c o, o c) opts (Mk cap 0 [] ∅ ∅ 0 0 0 0)).

(** ** Internal helpers *)

Definition newExpiry (now : Time) (d : Duration) : Time :=
  if d =? 0 then time_zero else Add now d.

Definition isExpired (now : Time) (e : entry K V) : bool :=
  negb (IsZero (expiresAt e)) && After now (expiresAt e).

Definition with_list (l : list nat) (c : Cache) : Cache :=
  Mk (capacity c) (ttl c) l (heap c) (items c) (hits c) (misses c) (evicts c) (next c).
Definition with_counts (h m e : Z) (c : Cache) : Cache :=
  Mk (capacity c) (ttl c) (lst c) (heap c) (items c) h m e (next c).

(** container/list: removal and move of an element that is on the list. *)
Definition list_Remove (el : nat) (l : list nat) : list nat := filter (λ x, x ≠ el) l.
Definition list_MoveToFront (el : nat) (l : list nat) : list nat := el :: list_Remove el l.

Definition removeElement (el : nat) (c : Cache) : Cache :=
  match heap c !! el with
  | Some e =>
      Mk (capacity c) (ttl c) (list_Remove el (lst c)) (heap c) (delete (key e) (items c))
        (hits c) (misses c) (evicts c) (next c)
  | None => c
  end.

Definition evictOldest (c : Cache) : Cache :=
  match last (lst c) with
  | Some el =>
      let c := removeElement el c in
      with_counts (hits c) (misses c) (uwrap64 (evicts c + 1)) c
  | None => c
  end.

(** ** Exported operations *)

(** [Get]: [Some v] stands for [(v, true)], [None] for [(zero, false)]. *)
Definition Get (now : Time) (k : K) (c : Cache) : Cache * option V :=
  let miss c := with_counts (hits c) (uwrap64 (misses c + 1)) (evicts c) c in
  match items c !! k with
  | None => (miss c, None)
  | Some el =>
      match heap c !! el with
      | None => (c, None)
      | Some e =>
          if isExpired now e then (miss (removeElement el c), None)
          else
            let c := with_list (list_MoveToFront el (lst c)) c in
            (with_counts (uwrap64 (hits c + 1)) (misses c) (evicts c) c, Some (value e))
      end
  end.

Definition Set_ (now : Time) (k : K) (v : V) (c : Cache) : Cache :=
  match items c !! k with
  | Some el =>
      let c := with_list (list_MoveToFront el (lst c)) c in
      Mk (capacity c) (ttl c) (lst c)
        (alter (λ e, Entry (key e) v (newExpiry now (ttl c))) el (heap c))
        (items c) (hits c) (misses c) (evicts c) (next c)
  | None =>
      let c := if Z.of_nat (length (lst c)) >=? capacity c then evictOldest c else c in
      let el := next c in
      Mk (capacity c) (ttl c) (el :: lst c)
        (<[el := Entry k v (newExpiry now (ttl c))]> (heap c))
        (<[k := el]> (items c)) (hits c) (misses c) (evicts c) (S el)
  end.

Definition Delete (k : K) (c : Cache) : Cache :=
  match items c !! k with Some el => removeElement el c | None => c end.

Definition Clear (c : Cache) : Cache :=
  Mk (capacity c) (ttl c) [] (heap c) ∅ (hits c) (misses c) (evicts c) (next c).

Definition Len (c : Cache) : nat := length (lst c).

Definition get_Stats (c : Cache) : Stats :=
  MkStats (hits c) (misses c) (evicts c) (length (lst c)).

(** The loop of [deleteExpired], from the back of the list to the front; each
    [isExpired] reads the clock anew, [now i] being the i-th reading. *)
Fixpoint deleteExpired_loop (now : nat → Time) (i : nat) (els : list nat) (c : Cache) : Cache :=
  match els with
  | [] => c
  | el :: els =>
      let c := match heap c !! el with
               | Some e => if isExpired (now i) e then removeElement el c else c
               | None => c
               end in
      deleteExpired_loop now (S i) els c
  end.

Definition deleteExpired (now : nat → Time) (c : Cache) : Cache :=
  if ttl c =? 0 then c else deleteExpired_loop now 0 (rev (lst c)) c.

(** ** Client programs: sequences of calls and what they return

    [OJanitor] is one tick of the goroutine of [StartJanitor]. *)
Inductive op :=
| OGet (now : Time) (k : K)
| OSet (now : Time) (k : K) (v : V)
| ODelete (k : K)
| OClear
| OLen
| OStats
| OJanitor (now : nat → Time).

Inductive result := RGet (r : option V) | RLen (n : nat) | RStats (s : Stats) | RUnit.

Definition run_op (o : op) (c : Cache) : Cache * result :=
  match o with
  | OGet now k => let '(c, r) := Get now k c in (c, RGet r)
  | OSet now k v => (Set_ now k v c, RUnit)
  | ODelete k => (Delete k c, RUnit)
  | OClear => (Clear c, RUnit)
  | OLen => (c, RLen (Len c))
  | OStats => (c, RStats (get_Stats c))
  | OJanitor now => (deleteExpired now c, RUnit)
  end.

Fixpoint run (os : list op) (c : Cache) : Cache * list result :=
  match os with
  | [] => (c, [])
  | o :: os => let '(c, r) := run_op o c in let '(c, rs) := run os c in (c, r :: rs)
  end.

(** ** The abstract cache *)

Record Lru := MkLru {
  l_cap : Z; l_ttl : Duration; entries : list (entry K V);
  l_hits : Z; l_misses : Z; l_evicts : Z
}.

Definition find_key (k : K) (l : list (entry K V)) : option (entry K V) :=
  list_find (λ e, key e = k) l ≫= λ x, Some x.2.
Definition drop_key (k : K) (l : list (entry K V)) : list (entry K V) :=
  filter (λ e, key e ≠ k) l.
Definition drop_last (l : list (entry K V)) : list (entry K V) := take (pred (length l)) l.

(** Entries that survive a janitor pass; the last entry is read first. *)
Fixpoint sweep (now : nat → Time) (l : list (entry K V)) : list (entry K V) :=
  match l with
  | [] => []
  | e :: l => if isExpired (now (length l)) e then sweep now l else e :: sweep now l
  end.

Definition lru_op (o : op) (s : Lru) : Lru * result :=
  let miss l := MkLru (l_cap s) (l_ttl s) l (l_hits s) (uwrap64 (l_misses s + 1)) (l_evicts s) in
  let same l := MkLru (l_cap s) (l_ttl s) l (l_hits s) (l_misses s) (l_evicts s) in
  match o with
  | OGet now k =>
      match find_key k (entries s) with
      | None => (miss (entries s), RGet None)
      | Some e =>
          if isExpired now e then (miss (drop_key k (entries s)), RGet None)
          else (MkLru (l_cap s) (l_ttl s) (e :: drop_key k (entries s))
                  (uwrap64 (l_hits s + 1)) (l_misses s) (l_evicts s), RGet (Some (value e)))
      end
  | OSet now k v =>
      let e := Entry k v (newExpiry now (l_ttl s)) in
      match find_key k (entries s) with
      | Some _ => (same (e :: drop_key k (entries s)), RUnit)
      | None =>
          if Z.of_nat (length (entries s)) >=? l_cap s
          then (MkLru (l_cap s) (l_ttl s) (e :: drop_last (entries s))
                  (l_hits s) (l_misses s) (uwrap64 (l_evicts s + 1)), RUnit)
          else (same (e :: entries s), RUnit)
      end
  | ODelete k => (same (drop_key k (entries s)), RUnit)
  | OClear => (same [], RUnit)
  | OLen => (s, RLen (length (entries s)))
  | OStats => (s, RStats (MkStats (l_hits s) (l_misses s) (l_evicts s) (length (entries s))))
  | OJanitor now => (same (if l_ttl s =? 0 then entries s else sweep now (entries s)), RUnit)
  end.

Fixpoint lru_run (os : list op) (s : Lru) : Lru * list result :=
  match os with
  | [] => (s, [])
  | o :: os => let '(s, r) := lru_op o s in let '(s, rs) := lru_run os s in (s, r :: rs)
  end.

(** ** Well-formedness and abstraction *)

Record wf (c : Cache) : Prop := {
  wf_nodup : NoDup (lst c);
  wf_list : ∀ el, el ∈ lst c → ∃ e, heap c !! el = Some e ∧ items c !! key e = Some el;
  wf_items : ∀ k el, items c !! k = Some el → el ∈ lst c ∧ ∃ e, heap c !! el = Some e ∧ key e = k;
  wf_next : ∀ el, el ∈ lst c → (el < next c)%nat;
  wf_cap : 1 ≤ capacity c;
  wf_len : Z.of_nat (length (lst c)) ≤ capacity c
}.

Definition abs (c : Cache) : Lru :=
  MkLru (capacity c) (ttl c) (omap (heap c !!.) (lst c)) (hits c) (misses c) (evicts c).

(** The entries of the abstract cache have distinct keys and fit. *)
Definition lru_ok (s : Lru) : Prop :=
  NoDup (key <$> entries s) ∧ 1 ≤ l_cap s ∧ Z.of_nat (length (entries s)) ≤ l_cap s.

(** [k] is present with value [v] and expiry [ex], and only keys of [S] are
    more recent than it. *)
Definition recent (k : K) (v : V) (ex : Time) (S : gset K) (l : list (entry K V)) : Prop :=
  ∃ pre post, l = pre ++ Entry k v ex :: post ∧ Forall (λ x, key x ∈ S ∧ key x ≠ k) pre ∧
              Forall (λ x, key x ≠ k) post.

(** In [l], exactly the element [el] carries the key [k]. *)
Definition points_to_key (h : gmap nat (entry K V)) (el : nat) (k : K) (l : list nat) : Prop :=
  ∀ x, x ∈ l → ∃ e, h !! x = Some e ∧ (key e = k ↔ x = el).

(** Keys a call can bring to the front of the recency order. *)
Definition touched (o : op) : list K :=
  match o with OGet _ k | OSet _ k _ => [k] | _ => [] end.

(** [o] neither removes [k] explicitly nor finds it expired, given that the
    entry of [k] expires at [ex]. *)
Definition keeps (k : K) (ex : Time) (o : op) : Prop :=
  match o with
  | OGet now _ => now ≤ ex ∨ ex = time_zero
  | OJanitor now => ∀ i, now i ≤ ex ∨ ex = time_zero
  | OSet _ k' _ => k' ≠ k
  | ODelete k' => k' ≠ k
  | OClear => False
  | OLen | OStats => True
  end.

(** ** Lists of elements against lists of entries *)

Lemma omap_heap_cons (h : gmap nat (entry K V)) x l e :
  h !! x = Some e → omap (h !!.) (x :: l) = e :: omap (h !!.) l.
Proof. intros E. simpl. by rewrite E. Qed.

Lemma omap_length (h : gmap nat (entry K V)) l :
  (∀ x, x ∈ l → is_Some (h !! x)) → length (omap (h !!.) l) = length l.
Proof.
  induction l as [|x l IH]; intros Hl; [done|].
  destruct (Hl x) as [e He]; [by left|]. rewrite (omap_heap_cons _ _ _ e He). simpl.
  rewrite IH; [done|]. intros; apply Hl; by right.
Qed.

Lemma omap_Remove h el k l :
  points_to_key h el k l → drop_key k (omap (h !!.) l) = omap (h !!.) (list_Remove el l).
Proof.
  unfold drop_key, list_Remove. induction l as [|x l IH]; intros Hl; [done|].
  destruct (Hl x) as (e&He&Hk); [by left|]. rewrite filter_cons, (omap_heap_cons _ _ _ e He), filter_cons.
  assert (IH' : filter (λ e, key e ≠ k) (omap (h !!.) l) = omap (h !!.) (filter (λ x, x ≠ el) l)).
  { apply IH. intros y Hy. apply Hl. by right. }
  repeat case_decide; try naive_solver. rewrite (omap_heap_cons _ _ _ e He). by rewrite IH'.
Qed.

Lemma omap_find h el k l :
  points_to_key h el k l → el ∈ l → find_key k (omap (h !!.) l) = h !! el.
Proof.
  unfold find_key. induction l as [|x l IH]; intros Hl Hin; [by apply elem_of_nil in Hin|].
  destruct (Hl x) as (e&He&Hk); [by left|]. rewrite (omap_heap_cons _ _ _ e He). simpl. case_decide as Hd.
  - apply Hk in Hd. subst. by rewrite He.
  - apply elem_of_cons in Hin as [->|Hin]; [naive_solver|].
    rewrite <-IH; [|intros y Hy; apply Hl; by right|done].
    by destruct (list_find _ _) as [[??]|].
Qed.

Lemma find_key_None k l : k ∉ (key <$> l) → find_key k l = None ∧ drop_key k l = l.
Proof.
  unfold find_key, drop_key. induction l as [|e l IH]; intros Hk; [done|].
  rewrite fmap_cons in Hk. apply not_elem_of_cons in Hk as [Hne Hk]. destruct (IH Hk) as [IH1 IH2].
  rewrite filter_cons. simpl. repeat case_decide; try naive_solver. rewrite IH2. split; [|done].
  by destruct (list_find _ _) as [[??]|].
Qed.

Lemma find_key_Some k l e : find_key k l = Some e → e ∈ l ∧ key e = k.
Proof.
  unfold find_key. destruct (list_find _ l) as [[i x]|] eqn:Hf; simpl; [|done].
  intros [= ->]. apply list_find_Some in Hf as (Hi&?&_). split; [by eapply list_elem_of_lookup_2|done].
Qed.

Lemma keys_NoDup c : wf c → NoDup (key <$> omap (heap c !!.) (lst c)).
Proof.
  intros W. pose proof (wf_list _ W) as Hl. pose proof (wf_nodup _ W) as Hn.
  induction (lst c) as [|x l IH]; [constructor|].
  apply NoDup_cons in Hn as [Hx Hn]. destruct (Hl x) as (e&He&Hi); [by left|].
  rewrite (omap_heap_cons _ _ _ e He), fmap_cons. apply NoDup_cons. split; [|apply IH; [intros; apply Hl; by right|done]].
  rewrite list_elem_of_fmap. intros (e'&Hk&Hin). apply list_elem_of_omap in Hin as (y&Hy&He').
  destruct (Hl y) as (e''&?&Hi'); [by right|]. rewrite Hk in Hi. by simplify_eq.
Qed.

Lemma wf_points_to c k el : wf c → items c !! k = Some el → points_to_key (heap c) el k (lst c).
Proof.
  intros W Hk x Hx. destruct (wf_list _ W x Hx) as (e&He&Hi).
  destruct (wf_items _ W k el Hk) as (_&e'&He'&Hke). exists e. split; [done|]. split; intros; subst; congruence.
Qed.

Lemma wf_is_Some c x : wf c → x ∈ lst c → is_Some (heap c !! x).
Proof. intros W Hx. destruct (wf_list _ W x Hx) as (e&?&_). eauto. Qed.

Lemma abs_length c : wf c → length (entries (abs c)) = length (lst c).
Proof. intros W. apply omap_length. intros. by apply wf_is_Some. Qed.

Lemma abs_find c k : wf c → find_key k (entries (abs c)) = items c !! k ≫= (heap c !!.).
Proof.
  intros W. destruct (items c !! k) as [el|] eqn:Hk; simpl.
  - apply omap_find; [by apply wf_points_to|]. by apply (wf_items _ W k).
  - apply find_key_None. rewrite list_elem_of_fmap. intros (e&->&Hin).
    apply list_elem_of_omap in Hin as (y&Hy&He). destruct (wf_list _ W y Hy) as (e'&?&?). congruence.
Qed.

(** ** Well-formedness is preserved *)

Lemma elem_of_Remove x el l : x ∈ list_Remove el l ↔ x ∈ l ∧ x ≠ el.
Proof. unfold list_Remove. rewrite list_elem_of_filter. naive_solver. Qed.

Lemma Remove_length el l : (length (list_Remove el l) ≤ length l)%nat.
Proof. unfold list_Remove. apply length_filter. Qed.

Lemma Remove_length_lt el l : el ∈ l → (length (list_Remove el l) < length l)%nat.
Proof. intros Hin. apply length_filter_lt with el; [done|]. naive_solver. Qed.

Lemma removeElement_eq el e c :
  heap c !! el = Some e →
  removeElement el c = Mk (capacity c) (ttl c) (list_Remove el (lst c)) (heap c)
    (delete (key e) (items c)) (hits c) (misses c) (evicts c) (next c).
Proof. unfold removeElement. by intros ->. Qed.

Lemma wf_removeElement el c : wf c → el ∈ lst c → wf (removeElement el c).
Proof.
  intros W Hel. destruct (wf_list _ W el Hel) as (e&He&Hi). rewrite (removeElement_eq el e c He).
  constructor; simpl.
  - apply NoDup_filter, (wf_nodup _ W).
  - intros x [Hx Hne]%elem_of_Remove. destruct (wf_list _ W x Hx) as (e'&He'&Hi').
    exists e'. split; [done|]. rewrite lookup_delete_ne; [done|]. congruence.
  - intros k x Hk. apply lookup_delete_Some in Hk as [Hne Hk].
    destruct (wf_items _ W k x Hk) as (Hx&e'&He'&Hk'). split; [|eauto].
    apply elem_of_Remove. split; [done|]. intros ->. congruence.
  - intros x [Hx _]%elem_of_Remove. by apply (wf_next _ W).
  - apply (wf_cap _ W).
  - pose proof (wf_len _ W). pose proof (Remove_length el (lst c)). lia.
Qed.

Lemma MoveToFront_elem x el l : el ∈ l → x ∈ list_MoveToFront el l ↔ x ∈ l.
Proof.
  intros Hel. unfold list_MoveToFront. rewrite elem_of_cons, elem_of_Remove.
  destruct (decide (x = el)); naive_solver.
Qed.

Lemma wf_move el c : wf c → el ∈ lst c → wf (with_list (list_MoveToFront el (lst c)) c).
Proof.
  intros W Hel. constructor; simpl.
  - unfold list_MoveToFront. apply NoDup_cons. rewrite elem_of_Remove. split; [naive_solver|].
    apply NoDup_filter, (wf_nodup _ W).
  - intros x Hx. apply (wf_list _ W). by apply MoveToFront_elem in Hx.
  - intros k x Hk. destruct (wf_items _ W k x Hk) as [Hx ?]. split; [|done]. by apply MoveToFront_elem.
  - intros x Hx. apply (wf_next _ W). by apply MoveToFront_elem in Hx.
  - apply (wf_cap _ W).
  - pose proof (wf_len _ W). pose proof (Remove_length_lt el (lst c) Hel). lia.
Qed.

Lemma wf_counts h m e c : wf c → wf (with_counts h m e c).
Proof. intros W. by destruct W; constructor. Qed.

(** ** Each operation refines the abstract one *)

Lemma omap_heap_ext (h1 h2 : gmap nat (entry K V)) (l : list nat) :
  (∀ x, x ∈ l → h1 !! x = h2 !! x) → omap (h1 !!.) l = omap (h2 !!.) l.
Proof.
  induction l as [|x l IH]; intros E; [done|]. simpl. rewrite E by by left.
  destruct (h2 !! x); [f_equal|]; apply IH; intros; apply E; by right.
Qed.

Lemma Remove_middle el l1 l2 : NoDup (l1 ++ el :: l2) → list_Remove el (l1 ++ el :: l2) = l1 ++ l2.
Proof.
  intros Hn. apply NoDup_app in Hn as (_&H1&H2). apply NoDup_cons in H2 as [H2 _].
  unfold list_Remove. rewrite filter_app, filter_cons_False by naive_solver.
  rewrite !filter_all; [done|..]; intros x Hx ->; [done|].
  by apply (H1 el Hx); left.
Qed.

Lemma evictOldest_spec c :
  wf c → lst c ≠ [] →
  wf (evictOldest c) ∧ length (lst c) = S (length (lst (evictOldest c))) ∧
  next (evictOldest c) = next c ∧ ttl (evictOldest c) = ttl c ∧
  (∀ k, items c !! k = None → items (evictOldest c) !! k = None) ∧
  abs (evictOldest c) = MkLru (capacity c) (ttl c) (drop_last (entries (abs c)))
    (hits c) (misses c) (uwrap64 (evicts c + 1)).
Proof.
  intros W Hne. destruct (lst c) as [|el l _] eqn:Hl using rev_ind; [done|].
  unfold evictOldest. rewrite Hl, last_snoc.
  assert (Hel : el ∈ lst c) by (rewrite Hl; set_solver).
  destruct (wf_list _ W el Hel) as (e&He&Hi).
  split; [by apply wf_counts, wf_removeElement|].
  pose proof (wf_nodup _ W) as Hn. rewrite Hl in Hn.
  rewrite (removeElement_eq el e c He); simpl. unfold abs; simpl.
  rewrite Hl, (Remove_middle el l []) by done. rewrite app_nil_r, length_app. simpl.
  split_and!; [lia|done|done| |].
  - intros k Hk. by apply lookup_delete_None; right.
  - f_equal. unfold drop_last. rewrite omap_app. simpl. rewrite He. simpl.
    rewrite length_app, Nat.add_1_r. simpl. by rewrite take_app_length.
Qed.

Lemma Get_refines now k c :
  wf c → wf (Get now k c).1 ∧ abs (Get now k c).1 = (lru_op (OGet now k) (abs c)).1 ∧
  RGet (Get now k c).2 = (lru_op (OGet now k) (abs c)).2.
Proof.
  intros W. unfold Get, lru_op. rewrite abs_find by done.
  destruct (items c !! k) as [el|] eqn:Hk; simpl; [|by split_and!; [apply wf_counts| |]].
  destruct (wf_items _ W k el Hk) as (Hel&e&He&Hke). rewrite He.
  pose proof (omap_Remove _ _ _ _ (wf_points_to _ _ _ W Hk)) as Hdrop.
  destruct (isExpired now e) eqn:Hx; simpl.
  - split_and!; [by apply wf_counts, wf_removeElement| |done].
    rewrite (removeElement_eq el e c He). unfold abs; simpl. by rewrite Hdrop.
  - split_and!; [by apply wf_counts, wf_move| |done].
    unfold abs; simpl. by rewrite He, Hdrop.
Qed.

Lemma Set_hit_refines now k v c el :
  wf c → items c !! k = Some el →
  wf (Set_ now k v c) ∧ abs (Set_ now k v c) = (lru_op (OSet now k v) (abs c)).1.
Proof.
  intros W Hk. unfold Set_, lru_op. rewrite abs_find, Hk by done. simpl.
  destruct (wf_items _ W k el Hk) as (Hel&e&He&Hke). rewrite He.
  pose proof (omap_Remove _ _ _ _ (wf_points_to _ _ _ W Hk)) as Hdrop.
  pose proof (wf_move el c W Hel) as [M1 M2 M3 M4 M5 M6]. simpl in *. split.
  - constructor; simpl; [done| | |done|done|done].
    + intros x Hx. destruct (M2 x Hx) as (e'&He'&Hi). rewrite lookup_alter.
      case_decide; subst; [|by eauto]. rewrite He' in *; simplify_eq. by eexists.
    + intros k' x Hk'. destruct (M3 k' x Hk') as (Hx&e'&He'&?). split; [done|]. rewrite lookup_alter.
      case_decide; subst; [|by eauto]. rewrite He' in *; simplify_eq. by eexists.
  - unfold abs; simpl. rewrite lookup_alter_eq, He. simpl. f_equal. rewrite Hke, Hdrop. f_equal.
    apply omap_heap_ext. intros x [_ Hx]%elem_of_Remove. by apply lookup_alter_ne.
Qed.

(** Insertion of a fresh key into a cache with room for it. *)
Lemma insert_fresh now k v c :
  wf c → items c !! k = None → Z.of_nat (length (lst c)) < capacity c →
  let e := Entry k v (newExpiry now (ttl c)) in
  let c' := Mk (capacity c) (ttl c) (next c :: lst c) (<[next c := e]> (heap c))
              (<[k := next c]> (items c)) (hits c) (misses c) (evicts c) (S (next c)) in
  wf c' ∧ entries (abs c') = e :: entries (abs c).
Proof.
  intros W Hk Hlt e c'.
  assert (Hfresh : ∀ x, x ∈ lst c → x ≠ next c) by (intros x Hx; pose proof (wf_next _ W x Hx); lia).
  split.
  - constructor; simpl.
    + apply NoDup_cons. split; [|apply (wf_nodup _ W)]. intros Hin. by apply Hfresh in Hin.
    + intros x [->|Hx]%elem_of_cons; [exists e; by rewrite !lookup_insert_eq|].
      destruct (wf_list _ W x Hx) as (e'&He'&Hi). exists e'.
      split; rewrite lookup_insert_ne; [done|by apply not_eq_sym, Hfresh|done|congruence].
    + intros k' x Hx. apply lookup_insert_Some in Hx as [[<- <-]|[Hne Hx]].
      * split; [by left|]. exists e. by rewrite lookup_insert_eq.
      * destruct (wf_items _ W k' x Hx) as (Hin&e'&?&?). split; [by right|]. exists e'.
        rewrite lookup_insert_ne by by apply not_eq_sym, Hfresh. done.
    + intros x [->|Hx]%elem_of_cons; [lia|]. pose proof (wf_next _ W x Hx). lia.
    + apply (wf_cap _ W).
    + lia.
  - unfold abs; simpl. rewrite lookup_insert_eq. f_equal. apply omap_heap_ext.
    intros x Hx. by apply lookup_insert_ne, not_eq_sym, Hfresh.
Qed.

Lemma Set_miss_refines now k v c :
  wf c → items c !! k = None →
  wf (Set_ now k v c) ∧ abs (Set_ now k v c) = (lru_op (OSet now k v) (abs c)).1.
Proof.
  intros W Hk. unfold Set_, lru_op. rewrite abs_find, Hk by done. cbn [option_bind mbind].
  rewrite abs_length by done. change (l_cap (abs c)) with (capacity c). simpl.
  destruct (Z.of_nat (length (lst c)) >=? capacity c) eqn:Hge; zbool.
  - assert (lst c ≠ []) as Hne.
    { intros E. rewrite E in Hge. simpl in Hge. pose proof (wf_cap _ W). lia. }
    destruct (evictOldest_spec c W Hne) as (W'&Hlen&Hnext&Httl&Hitems&Habs).
    assert (Hcap : capacity (evictOldest c) = capacity c) by exact (f_equal l_cap Habs).
    destruct (insert_fresh now k v (evictOldest c)) as [Hwf Hent]; [done|by apply Hitems| |].
    { pose proof (wf_len _ W). lia. }
    split; [exact Hwf|]. unfold abs in *. simpl in *. injection Habs as _ _ Hes -> -> ->.
    rewrite Hent, Hes, Hcap, Httl. done.
  - destruct (insert_fresh now k v c) as [Hwf Hent]; [done|done|lia|].
    split; [exact Hwf|]. unfold abs in *. simpl in *. by rewrite Hent.
Qed.

Lemma Delete_refines k c :
  wf c → wf (Delete k c) ∧ abs (Delete k c) = (lru_op (ODelete k) (abs c)).1.
Proof.
  intros W. unfold Delete. simpl. destruct (items c !! k) as [el|] eqn:Hk.
  - destruct (wf_items _ W k el Hk) as (Hel&e&He&Hke). split; [by apply wf_removeElement|].
    rewrite (removeElement_eq el e c He). unfold abs; simpl.
    by rewrite (omap_Remove _ _ _ _ (wf_points_to _ _ _ W Hk)).
  - split; [done|]. unfold abs; simpl. f_equal. symmetry. apply find_key_None.
    rewrite list_elem_of_fmap. intros (e&->&Hin). apply list_elem_of_omap in Hin as (y&Hy&He).
    destruct (wf_list _ W y Hy) as (e'&?&?). congruence.
Qed.

Lemma sweep_snoc now l e :
  sweep now (l ++ [e]) =
    sweep (λ j, now (S j)) l ++ (if isExpired (now 0%nat) e then [] else [e]).
Proof.
  induction l as [|x l IH]; simpl; [done|]. rewrite length_app, IH, Nat.add_1_r.
  by destruct (isExpired (now (S (length l))) x).
Qed.

Lemma deleteExpired_loop_spec els : ∀ now i kept c,
  wf c → lst c = rev els ++ kept →
  let c' := deleteExpired_loop now i els c in
  wf c' ∧ abs c' = MkLru (capacity c) (ttl c)
    (sweep (λ j, now (i + j)%nat) (omap (heap c !!.) (rev els)) ++ omap (heap c !!.) kept)
    (hits c) (misses c) (evicts c).
Proof.
  induction els as [|el els IH]; intros now i kept c W Hl; simpl in *.
  { split; [done|]. unfold abs. by rewrite Hl. }
  rewrite <-app_assoc in Hl. simpl in Hl.
  assert (Hel : el ∈ lst c) by (rewrite Hl; set_solver).
  destruct (wf_list _ W el Hel) as (e&He&Hi). rewrite He.
  pose proof (wf_nodup _ W) as Hn. rewrite Hl in Hn.
  assert (Hs : omap (heap c !!.) (rev els ++ [el]) = omap (heap c !!.) (rev els) ++ [e]).
  { rewrite omap_app. simpl. by rewrite He. }
  rewrite Hs, sweep_snoc, Nat.add_0_r.
  assert (Hext : ∀ l, sweep (λ j, now (i + S j)%nat) l = sweep (λ j, now (S i + j)%nat) l).
  { induction l as [|x l IHl]; simpl; [done|]. by rewrite IHl, Nat.add_succ_r. }
  rewrite Hext, <-app_assoc. destruct (isExpired (now i) e).
  - destruct (IH now (S i) kept (removeElement el c)) as [W' HA]; [by apply wf_removeElement| |].
    { rewrite (removeElement_eq el e c He). simpl. by rewrite Hl, Remove_middle. }
    split; [done|]. by rewrite HA, (removeElement_eq el e c He).
  - destruct (IH now (S i) (el :: kept) c W Hl) as [W' HA]. split; [done|].
    rewrite HA. simpl. by rewrite He.
Qed.

Lemma deleteExpired_refines now c :
  wf c → wf (deleteExpired now c) ∧
  abs (deleteExpired now c) = (lru_op (OJanitor now) (abs c)).1.
Proof.
  intros W. unfold deleteExpired. simpl. destruct (ttl c =? 0); [by split|].
  destruct (deleteExpired_loop_spec (rev (lst c)) now 0 [] c W) as [W' HA].
  { by rewrite rev_involutive, app_nil_r. }
  split; [done|]. rewrite HA, rev_involutive. simpl. by rewrite app_nil_r.
Qed.

Lemma run_op_refines o c :
  wf c → wf (run_op o c).1 ∧ abs (run_op o c).1 = (lru_op o (abs c)).1 ∧
  (run_op o c).2 = (lru_op o (abs c)).2.
Proof.
  intros W. destruct o as [now k|now k v|k| | | |now]; cbn [run_op].
  - pose proof (Get_refines now k c W). destruct (Get now k c). naive_solver.
  - simpl. destruct (items c !! k) as [el|] eqn:Hk.
    + destruct (Set_hit_refines now k v c el W Hk) as [? Habs]. split_and!; [done|exact Habs|].
      by repeat case_match.
    + destruct (Set_miss_refines now k v c W Hk) as [? Habs]. split_and!; [done|exact Habs|].
      by repeat case_match.
  - destruct (Delete_refines k c W). by split_and!.
  - split_and!; [|done|done]. constructor; simpl; try set_solver; [constructor|apply (wf_cap _ W)|].
    pose proof (wf_cap _ W). lia.
  - split_and!; [done|done|]. cbn [snd lru_op]. unfold Len. by rewrite abs_length.
  - split_and!; [done|done|]. cbn [snd lru_op]. unfold get_Stats. by rewrite abs_length.
  - destruct (deleteExpired_refines now c W). by split_and!.
Qed.

Lemma run_refines os c :
  wf c → wf (run os c).1 ∧ abs (run os c).1 = (lru_run os (abs c)).1 ∧
  (run os c).2 = (lru_run os (abs c)).2.
Proof.
  revert c. induction os as [|o os IH]; intros c W; [done|]. simpl.
  destruct (run_op_refines o c W) as (W'&HA&HR).
  destruct (run_op o c) as [c' r], (lru_op o (abs c)) as [s' r']; simpl in *; subst.
  destruct (IH c' W') as (?&?&?). destruct (run os c'), (lru_run os (abs c')); simpl in *. naive_solver.
Qed.

Lemma New_wf cap os c :
  New cap os = Ret c → Forall (λ o, ∃ d, o = WithTTL d) os →
  wf c ∧ capacity c = cap ∧ entries (abs c) = [] ∧ hits c = 0 ∧ misses c = 0 ∧ evicts c = 0.
Proof.
  unfold New. intros Hc Hos. destruct (Z.ltb_spec cap 1); [done|]. simplify_eq.
  set (P := λ c : Cache, lst c = [] ∧ items c = ∅ ∧ capacity c = cap ∧
                         hits c = 0 ∧ misses c = 0 ∧ evicts c = 0).
  assert (HP : P (fold_left (λ c o, o c) os (Mk cap 0 [] ∅ ∅ 0 0 0 0))).
  { apply fold_left_invariant; [|done]. intros x o Ho Hx. rewrite Forall_forall in Hos.
    by destruct (Hos o Ho) as [d ->]. }
  destruct HP as (Hl&Hi&Hc&?&?&?). split_and!; try done.
  - constructor; rewrite ?Hl, ?Hi, ?Hc; [constructor|set_solver| |set_solver|done|simpl; lia].
    intros k el Hk. by rewrite lookup_empty in Hk.
  - unfold abs. simpl. by rewrite Hl.
Qed.

Lemma wf_lru_ok c : wf c → lru_ok (abs c).
Proof.
  intros W. split_and!; [by apply keys_NoDup|apply (wf_cap _ W)|].
  rewrite abs_length by done. apply (wf_len _ W).
Qed.

(** ** Lookups in the abstract cache *)

Lemma find_key_cons k (e : entry K V) l :
  find_key k (e :: l) = if decide (key e = k) then Some e else find_key k l.
Proof. unfold find_key. simpl. case_decide; [done|]. by destruct (list_find _ l) as [[]|]. Qed.

Lemma find_key_drop k k' l :
  find_key k (drop_key k' l) = if decide (k = k') then None else find_key k l.
Proof.
  unfold drop_key. induction l as [|e l IH]; [by case_decide|].
  rewrite filter_cons, find_key_cons. repeat case_decide; try (by subst); rewrite ?find_key_cons, IH;
    repeat case_decide; try done; congruence.
Qed.

Lemma find_key_sweep now k l e :
  find_key k l = Some e → (∀ i, (i < length l)%nat → isExpired (now i) e = false) →
  find_key k (sweep now l) = Some e.
Proof.
  induction l as [|x l IH]; [done|]. rewrite find_key_cons. cbn [sweep length]. case_decide as Hx.
  - intros [= ->] Hi. rewrite Hi by lia. rewrite find_key_cons. by case_decide.
  - intros Hf Hi. destruct (isExpired _ x); [apply IH; auto with lia|].
    rewrite find_key_cons. case_decide; [done|]. apply IH; auto with lia.
Qed.

(** ** The abstract cache: keys stay distinct, size stays bounded *)

Lemma drop_key_sublist k l : drop_key k l `sublist_of` l.
Proof. apply sublist_filter. Qed.

Lemma sweep_sublist now l : sweep now l `sublist_of` l.
Proof. induction l as [|e l IH]; simpl; [done|]. case_match; by constructor. Qed.

Lemma drop_last_prefix l : drop_last l `prefix_of` l.
Proof. exists (drop (pred (length l)) l). unfold drop_last. by rewrite take_drop. Qed.

Lemma sublist_keys (l1 l2 : list (entry K V)) :
  l1 `sublist_of` l2 → NoDup (key <$> l2) → NoDup (key <$> l1) ∧ (length l1 ≤ length l2)%nat.
Proof.
  intros Hs Hn. split; [|by apply sublist_length].
  eapply sublist_NoDup; [done|]. by apply fmap_sublist.
Qed.

Lemma drop_key_notin k l : k ∉ key <$> drop_key k l.
Proof.
  rewrite list_elem_of_fmap. intros (e&->&He). apply list_elem_of_filter in He. naive_solver.
Qed.

Lemma drop_key_length k l e : find_key k l = Some e → (length (drop_key k l) < length l)%nat.
Proof.
  intros [Hin Hk]%find_key_Some. apply length_filter_lt with e; [done|]. naive_solver.
Qed.

Lemma lru_ok_op o s : lru_ok s → lru_ok (lru_op o s).1 ∧ l_cap (lru_op o s).1 = l_cap s ∧
  l_ttl (lru_op o s).1 = l_ttl s.
Proof.
  intros (Hn&Hc&Hl). unfold lru_ok.
  assert (Hcons : ∀ (e : entry K V) l, key e ∉ key <$> l → NoDup (key <$> l) → NoDup (key <$> e :: l)).
  { intros e l ??. rewrite fmap_cons. by apply NoDup_cons. }
  assert (Hdrop : ∀ k, NoDup (key <$> drop_key k (entries s)) ∧
                       (length (drop_key k (entries s)) ≤ length (entries s))%nat).
  { intros k. by apply sublist_keys, Hn; apply drop_key_sublist. }
  destruct o as [now k|now k v|k| | | |now]; cbn [lru_op fst entries l_cap l_ttl]; [..|by split_and!|by split_and!|].
  - destruct (find_key k (entries s)) as [e|] eqn:Hf; [|by split_and!].
    destruct (find_key_Some _ _ _ Hf) as [_ Hk]. pose proof (drop_key_length _ _ _ Hf).
    destruct (Hdrop k). case_match; cbn [fst entries l_cap l_ttl length]; split_and!; try done; try lia.
    apply Hcons; [|done]. rewrite Hk. apply drop_key_notin.
  - destruct (find_key k (entries s)) as [e|] eqn:Hf.
    { pose proof (drop_key_length _ _ _ Hf). destruct (Hdrop k). cbn [fst entries l_cap l_ttl length]. split_and!; try done; try lia.
      apply Hcons; [apply drop_key_notin|done]. }
    assert (Hk : k ∉ key <$> entries s).
    { rewrite list_elem_of_fmap. intros (e&->&He). unfold find_key in Hf.
      destruct (list_find_elem_of (λ x, key x = key e) _ _ He eq_refl) as [[i y] Hy].
      by rewrite Hy in Hf. }
    destruct (_ >=? _) eqn:Hge; zbool; cbn [fst entries l_cap l_ttl length]; split_and!; try done; try lia; try by apply Hcons.
    + destruct (drop_last_prefix (entries s)) as [tl Htl]. rewrite Htl, fmap_app in Hk, Hn.
      apply NoDup_app in Hn as (?&_&_). apply Hcons; [|done]. cbn [key]. set_solver.
    + unfold drop_last. rewrite length_take. lia.
  - destruct (Hdrop k). split_and!; try done. lia.
  - split_and!; [apply NoDup_nil_2|done|simpl; lia|done|done].
  - case_match; [by split_and!|].
    destruct (sublist_keys _ _ (sweep_sublist now (entries s)) Hn). split_and!; try done. lia.
Qed.

Lemma find_key_app k l1 l2 e :
  Forall (λ x, key x ≠ k) l1 → key e = k → find_key k (l1 ++ e :: l2) = Some e.
Proof.
  unfold find_key. intros Hl He. induction Hl as [|x l Hx _ IH]; simpl; case_decide; try done.
  destruct (list_find _ _) as [[??]|]; simpl in *; naive_solver.
Qed.

Lemma drop_key_app k k' l1 l2 (e : entry K V) :
  key e = k → k' ≠ k → drop_key k' (l1 ++ e :: l2) = drop_key k' l1 ++ e :: drop_key k' l2.
Proof.
  intros He Hne. unfold drop_key. rewrite filter_app, filter_cons_True; [done|congruence].
Qed.

Lemma Forall_drop_key (P : entry K V → Prop) k l : Forall P l → Forall P (drop_key k l).
Proof. apply Forall_sublist, drop_key_sublist. Qed.

Lemma sweep_app now l1 (e : entry K V) l2 :
  (∀ i, isExpired (now i) e = false) →
  ∃ l1' l2', sweep now (l1 ++ e :: l2) = l1' ++ e :: l2' ∧ l1' `sublist_of` l1 ∧ l2' `sublist_of` l2.
Proof.
  intros He. induction l1 as [|x l1 IH]; simpl.
  - rewrite He. exists [], (sweep now l2). split_and!; [done|done|apply sweep_sublist].
  - destruct IH as (l1'&l2'&->&?&?). case_match; [exists l1', l2'|exists (x :: l1'), l2'];
      split_and!; try done; by constructor.
Qed.

Lemma lru_ok_run os s : lru_ok s → lru_ok (lru_run os s).1 ∧
  l_cap (lru_run os s).1 = l_cap s ∧ l_ttl (lru_run os s).1 = l_ttl s.
Proof.
  revert s. induction os as [|o os IH]; intros s Hs; [done|]. simpl.
  destruct (lru_ok_op o s Hs) as (Hs'&Hc&Ht). destruct (lru_op o s) as [s' r]; simpl in *.
  destruct (IH s' Hs') as (?&?&?). destruct (lru_run os s'); simpl in *. split_and!; congruence || done.
Qed.

(** The entries ahead of [k] are distinct keys of [S]. *)
Lemma recent_position (k : K) (S : gset K) (pre : list (entry K V)) :
  NoDup (key <$> pre) → Forall (λ x, key x ∈ S ∧ key x ≠ k) pre → (length pre ≤ size S)%nat.
Proof.
  intros Hn HF. rewrite <-(length_fmap key), <-(size_list_to_set (C := gset K)) by done.
  apply subseteq_size. rewrite Forall_forall in HF. intros x Hx.
  apply elem_of_list_to_set, list_elem_of_fmap in Hx as (e&->&He). by apply HF.
Qed.

Lemma drop_last_middle (e : entry K V) l1 l2 :
  l2 ≠ [] → drop_last (l1 ++ e :: l2) = l1 ++ e :: drop_last l2.
Proof.
  intros Hl2. unfold drop_last. rewrite length_app. simpl. rewrite Nat.add_succ_r. simpl.
  rewrite take_app_ge by lia. replace (length l1 + length l2 - length l1)%nat with (length l2) by lia.
  by destruct l2.
Qed.

Lemma not_expired now (e : entry K V) :
  now ≤ expiresAt e ∨ expiresAt e = time_zero → isExpired now e = false.
Proof.
  unfold isExpired, After, IsZero. intros [Hle| ->]; [|done].
  destruct (Z.ltb_spec (expiresAt e) now); [lia|]. by rewrite andb_false_r.
Qed.

Section Recent.
Context (k : K) (v : V) (ex : Time).

Lemma recent_weaken S S' l : S ⊆ S' → recent k v ex S l → recent k v ex S' l.
Proof.
  intros HS (pre&post&->&Hpre&Hpost). exists pre, post. split_and!; [done| |done].
  eapply Forall_impl; [done|]. set_solver.
Qed.

Lemma recent_cons S x l :
  key x ∈ S → key x ≠ k → recent k v ex S l → recent k v ex S (x :: l).
Proof.
  intros HS Hne (pre&post&->&Hpre&Hpost). exists (x :: pre), post. split_and!; [done| |done].
  by constructor.
Qed.

Lemma recent_drop S k' l : k' ≠ k → recent k v ex S l → recent k v ex S (drop_key k' l).
Proof.
  intros Hne (pre&post&->&Hpre&Hpost). exists (drop_key k' pre), (drop_key k' post).
  rewrite (drop_key_app k) by done. split_and!; [done|by apply Forall_drop_key..].
Qed.

Lemma recent_find S l : recent k v ex S l → find_key k l = Some (Entry k v ex).
Proof.
  intros (pre&post&->&Hpre&_). apply find_key_app; [|done]. eapply Forall_impl; [done|naive_solver].
Qed.

Lemma recent_top S l : recent k v ex S (Entry k v ex :: drop_key k l).
Proof.
  exists [], (drop_key k l). split_and!; [done|constructor|]. apply Forall_forall.
  intros x Hx. apply list_elem_of_filter in Hx. naive_solver.
Qed.

Lemma recent_sweep S now l :
  (∀ i, now i ≤ ex ∨ ex = time_zero) → recent k v ex S l → recent k v ex S (sweep now l).
Proof.
  intros Hnow (pre&post&->&Hpre&Hpost).
  destruct (sweep_app now pre (Entry k v ex) post) as (pre'&post'&->&?&?).
  { intros i. by apply not_expired. }
  exists pre', post'. split_and!; [done|by eapply Forall_sublist..].
Qed.

(** With fewer than [cap - 1] distinct keys ahead, [k] is not the last entry. *)
Lemma recent_drop_last S l k' :
  NoDup (key <$> l) → k' ∉ key <$> l → k' ≠ k → (size ({[k']} ∪ S) < length l)%nat →
  recent k v ex S l → recent k v ex S (drop_last l).
Proof.
  intros Hn Hk' Hne Hlt (pre&post&->&Hpre&Hpost).
  assert (Hp : post ≠ []).
  { intros ->. rewrite length_app in Hlt. simpl in Hlt.
    assert (length (Entry k' v ex :: pre) ≤ size ({[k']} ∪ S))%nat; [|simpl in *; lia].
    rewrite fmap_app in Hn, Hk'. apply (recent_position k).
    - rewrite fmap_cons. apply NoDup_cons. apply NoDup_app in Hn as (?&_&_). split; [|done].
      cbn [key]. set_solver.
    - constructor; [cbn [key]; set_solver|]. eapply Forall_impl; [done|]. set_solver. }
  rewrite drop_last_middle by done. exists pre, (drop_last post). split_and!; [done|done|].
  destruct (drop_last_prefix post) as [tl Htl]. rewrite Htl in Hpost. by apply Forall_app in Hpost as [? _].
Qed.
End Recent.

Lemma find_key_None_inv k l : find_key k l = None → k ∉ key <$> l.
Proof.
  unfold find_key. intros Hf. rewrite list_elem_of_fmap. intros (e&->&He).
  destruct (list_find_elem_of (λ x, key x = key e) _ _ He eq_refl) as [[i y] Hy].
  by rewrite Hy in Hf.
Qed.

Lemma recent_step o k v ex S s :
  lru_ok s → recent k v ex S (entries s) → keeps k ex o →
  let S' := S ∪ (list_to_set (touched o) ∖ {[k]}) in
  Z.of_nat (size S') < l_cap s → recent k v ex S' (entries (lru_op o s).1).
Proof.
  intros (Hn&Hc&Hl) HR Hk S' Hlt.
  apply (recent_weaken _ _ _ _ S') in HR as HR'; [|unfold S'; set_solver].
  destruct o as [now k'|now k' v'|k'| | | |now]; cbn [lru_op]; cbn [keeps touched] in *.
  - destruct (decide (k' = k)) as [->|Hkk].
    { rewrite (recent_find k v ex S) by done. rewrite not_expired by done. apply recent_top. }
    destruct (find_key k' (entries s)) as [x|] eqn:Hf; [|done].
    destruct (find_key_Some _ _ _ Hf) as [_ Hx].
    destruct (isExpired now x); cbn [fst entries]; [by apply recent_drop|].
    apply recent_cons; rewrite ?Hx; [unfold S'; set_solver|done|by apply recent_drop].
  - assert (HS : k' ∈ S') by (unfold S'; set_solver).
    destruct (find_key k' (entries s)) as [x|] eqn:Hf; cbn [fst entries].
    { apply recent_cons; [done|done|by apply recent_drop]. }
    destruct (_ >=? _) eqn:Hge; zbool; cbn [fst entries]; apply recent_cons; try done.
    apply (recent_drop_last k v ex S' _ k'); [done|by apply find_key_None_inv|done| |done].
    replace ({[k']} ∪ S') with S' by set_solver. lia.
  - by apply recent_drop.
  - done.
  - done.
  - done.
  - cbn [fst entries]. case_match; [done|]. by apply recent_sweep.
Qed.

Lemma recent_run os k v ex S s :
  lru_ok s → recent k v ex S (entries s) → Forall (keeps k ex) os →
  let S' := S ∪ (list_to_set (os ≫= touched) ∖ {[k]}) in
  Z.of_nat (size S') < l_cap s → recent k v ex S' (entries (lru_run os s).1).
Proof.
  revert S s. induction os as [|o os IH]; intros S s Hs HR HF S' Hlt.
  { eapply recent_weaken; [|done]. unfold S'. set_solver. }
  apply Forall_cons in HF as [Ho HF]. simpl.
  destruct (lru_ok_op o s Hs) as (Hs'&Hc&_).
  set (S1 := S ∪ (list_to_set (touched o) ∖ {[k]})).
  assert (HS' : S' = S1 ∪ (list_to_set (os ≫= touched) ∖ {[k]})).
  { unfold S', S1. rewrite bind_cons, list_to_set_app_L. set_solver. }
  assert (HR1 : recent k v ex S1 (entries (lru_op o s).1)).
  { apply recent_step; [done..|]. fold S1. assert (size S1 ≤ size S')%nat; [|lia].
    apply subseteq_size. set_solver. }
  destruct (lru_op o s) as [s1 r]; simpl in *. specialize (IH S1 s1 Hs' HR1 HF).
  destruct (lru_run os s1); simpl in *. rewrite HS'. apply IH. rewrite <-HS', Hc. done.
Qed.

Lemma lru_run_app os1 os2 s :
  (lru_run (os1 ++ os2) s).1 = (lru_run os2 (lru_run os1 s).1).1 ∧
  (lru_run (os1 ++ os2) s).2 = (lru_run os1 s).2 ++ (lru_run os2 (lru_run os1 s).1).2.
Proof.
  revert s. induction os1 as [|o os1 IH]; intros s; simpl; [by destruct (lru_run os2 s)|].
  destruct (lru_op o s) as [s1 r]. specialize (IH s1). destruct (lru_run (os1 ++ os2) s1), (lru_run os1 s1).
  simpl in *. naive_solver.
Qed.

Lemma New_start cap d :
  1 ≤ cap →
  ∃ c, New cap [WithTTL d] = Ret c ∧ wf c ∧ abs c = MkLru cap d [] 0 0 0.
Proof.
  intros Hcap. destruct (New cap [WithTTL d]) as [c|] eqn:Hc; unfold New in Hc;
    destruct (Z.ltb_spec cap 1); try lia; try done.
  exists c. split; [done|]. destruct (New_wf cap [WithTTL d] c) as (W&_).
  { unfold New. destruct (Z.ltb_spec cap 1); [lia|done]. }
  { repeat constructor. by exists d. }
  split; [done|]. by injection Hc as <-.
Qed.

Lemma lru_start_ok cap d : 1 ≤ cap → lru_ok (MkLru cap d [] 0 0 0).
Proof. intros. split_and!; [apply NoDup_nil_2|done|simpl; lia]. Qed.

(** ** Properties *)

(** C4: the pointer structure implements the abstract LRU cache: a client that
    makes any sequence of [Get], [Set], [Delete], [Clear], [Len], [Stats]
    calls and janitor passes on a new cache gets exactly the results of the
    list-of-entries specification; a capacity below 1 panics. *)
Theorem cache_refines_lru cap d os :
  if cap <? 1 then ∃ m, New cap [WithTTL d] = Panic m
  else ∃ c, New cap [WithTTL d] = Ret c ∧
            (run os c).2 = (lru_run os (MkLru cap d [] 0 0 0)).2.
Proof.
  destruct (Z.ltb_spec cap 1) as [Hlt|Hge].
  - unfold New. destruct (Z.ltb_spec cap 1); [by eexists|lia].
  - destruct (New_start cap d Hge) as (c&Hc&W&Habs). exists c. split; [done|].
    rewrite <-Habs. by apply run_refines.
Qed.

(** C6: in every reachable state the list, the element heap and the key map
    agree (no dangling, duplicate or orphan element), no two entries share a
    key and the number of entries never exceeds the capacity. *)
Theorem cache_invariant cap d os c :
  New cap [WithTTL d] = Ret c →
  wf (run os c).1 ∧ NoDup (key <$> entries (abs (run os c).1)) ∧
  Z.of_nat (Len (run os c).1) ≤ cap.
Proof.
  intros Hc. assert (Hcap : 1 ≤ cap) by (unfold New in Hc; destruct (Z.ltb_spec cap 1); [done|lia]).
  destruct (New_start cap d Hcap) as (c'&Hc'&W&Habs). rewrite Hc in Hc'. injection Hc' as <-.
  destruct (run_refines os c W) as (W'&HA&_). split; [done|]. split; [by apply keys_NoDup|].
  destruct (lru_ok_run os _ (lru_start_ok cap d Hcap)) as ((_&_&Hlen)&Hc'&_).
  unfold Len. rewrite <-abs_length, HA, Habs by done. rewrite Hc' in Hlen. done.
Qed.

(** C5: least-recently-used retention. After [Set k v] in any reachable state,
    a sequence of calls that does not remove or overwrite [k], that runs
    before the entry expires and that touches fewer than [capacity] distinct
    other keys never evicts [k]: the next [Get k] returns [v], or a miss
    exactly when the entry has expired by then. *)
Theorem lru_retention cap d os0 os c t t' k v :
  New cap [WithTTL d] = Ret c →
  Forall (keeps k (newExpiry t d)) os →
  Z.of_nat (size (list_to_set (os ≫= touched) ∖ {[k]} : gset K)) < cap →
  last (run (os0 ++ OSet t k v :: os ++ [OGet t' k]) c).2 =
    Some (RGet (if isExpired t' (Entry k v (newExpiry t d)) then None else Some v)).
Proof.
  intros Hc HF Hsz. assert (Hcap : 1 ≤ cap) by (unfold New in Hc; destruct (Z.ltb_spec cap 1); [done|lia]).
  destruct (New_start cap d Hcap) as (c'&Hc'&W&Habs). rewrite Hc in Hc'. injection Hc' as <-.
  destruct (run_refines (os0 ++ OSet t k v :: os ++ [OGet t' k]) c W) as (_&_&->). rewrite Habs.
  destruct (lru_run_app os0 (OSet t k v :: os ++ [OGet t' k]) (MkLru cap d [] 0 0 0)) as [_ ->].
  destruct (lru_ok_run os0 _ (lru_start_ok cap d Hcap)) as (Hok&Hcp&Htt).
  set (s := (lru_run os0 (MkLru cap d [] 0 0 0)).1) in *. cbn [lru_run].
  destruct (lru_ok_op (OSet t k v) s Hok) as (Hok1&Hcp1&Htt1).
  assert (HR : recent k v (newExpiry t d) ∅ (entries (lru_op (OSet t k v) s).1)).
  { cbn [lru_op]. rewrite Htt. cbn [l_ttl]. destruct (find_key k (entries s)) eqn:Hf; [apply recent_top|].
    apply find_key_None_inv in Hf. destruct (_ >=? _); cbn [fst entries].
    - exists [], (drop_last (entries s)). split_and!; [done|constructor|]. apply Forall_forall. intros x Hx <-.
      apply Hf. destruct (drop_last_prefix (entries s)) as [tl Htl]. rewrite Htl, fmap_app. set_solver.
    - exists [], (entries s). split_and!; [done|constructor|]. apply Forall_forall. set_solver. }
  destruct (lru_op (OSet t k v) s) as [s1 r1]; simpl in *.
  pose proof (recent_run os k v _ ∅ s1 Hok1 HR HF) as HR2. simpl in HR2.
  rewrite union_empty_l_L, Hcp1, Hcp in HR2. specialize (HR2 Hsz).
  destruct (lru_run_app os [OGet t' k] s1) as [_ HE]. destruct (lru_run (os ++ [OGet t' k]) s1) as [s2 rs2].
  simpl in *. rewrite HE. set (s3 := (lru_run os s1).1) in *.
  rewrite (recent_find _ _ _ _ _ HR2). rewrite app_comm_cons, app_assoc.
  destruct (isExpired t' _); simpl; by rewrite last_snoc.
Qed.

End Cache.
Arguments Cache : clear implicits.
Arguments Cache K V {_ _}.
Arguments op : clear implicits.
Arguments Lru : clear implicits.
Arguments result : clear implicits.

(** ** Witnesses *)

Lemma cache_invariant_witness :
  Z.of_nat (Len (run [OSet 5 1%nat 7%nat; OGet 6 1%nat; OSet 7 2%nat 8%nat; OSet 8 3%nat 9%nat]
                   (Mk 2 10 [] ∅ ∅ 0 0 0 0)).1) ≤ 2.
Proof. eapply (cache_invariant 2 10). reflexivity. Defined.

Lemma lru_retention_witness :
  last (run ([OSet 1 9%nat 9%nat] ++ OSet 5 1%nat 7%nat :: [OSet 6 2%nat 8%nat; OGet 7 2%nat; OLen] ++ [OGet 8 1%nat])
          (Mk 2 10 [] ∅ ∅ 0 0 0 0)).2 = Some (RGet (Some 7%nat)).
Proof.
  apply (lru_retention 2 10 [OSet 1 9%nat 9%nat] [OSet 6 2%nat 8%nat; OGet 7 2%nat; OLen]
           (Mk 2 10 [] ∅ ∅ 0 0 0 0) 5 8 1%nat 7%nat).
  - reflexivity.
  - repeat constructor; vm_compute; naive_solver.
  - vm_compute. reflexivity.
Defined.

End Cache.
