(* ===== verification/Retry.v ===== *)
(** * pkg/retry: the retry loop

    The world the loop acts on (the callee, the context, timers, randomness)
    is a type [W]; the callbacks of the package are functions that pass it on.
    [Do] is the loop of retry.go for any such world.  [script] is a world in
    which the protected function returns a prepared list of results and every
    effect is recorded, so that the whole behaviour of the loop can be stated
    as an equation. *)

From S2P Require Import Prelude GoLang.
Open Scope Z_scope.

Module Retry.

(** [errors.As(err, &stop)] with [stop *StopError]. *)
Definition match_stop (e : error) : option (option error) :=
  match e with ErrStop inner => Some inner | _ => None end.
Definition as_stop (e : error) : option (option error) := errors_As match_stop e.

Definition Stop (err : option error) : error := ErrStop err.

Definition IsMaxAttempts (err : option error) : bool :=
  match err with
  | Some e =>
      match errors_As (λ e, match e with ErrMaxAttempts _ _ => Some tt | _ => None end) e with
      | Some _ => true
      | None => false
      end
  | None => false
  end.

Section Do.
Context {W T : Type} (zero : T).

(** The configuration: [backoff] is [Backoff.Next], [onRetry] may be nil. *)
Record options := Options {
  maxAttempts : Z;
  backoff : Z → W → W * Duration;
  onRetry : option (Z → error → W → W);
  sleep : Duration → W → W * option error
}.

Definition Option := options → options.

Definition defaultOptions (contextSleep : Duration → W → W * option error) : options :=
  Options 3 (λ _ w, (w, 0)) None contextSleep.

Definition WithMaxAttempts (n : Z) : outcome Option :=
  if n <? 1 then Panic "retry: MaxAttempts must be >= 1"
  else Ret (λ o, Options n (backoff o) (onRetry o) (sleep o)).

Definition WithBackoff (b : Z → W → W * Duration) : Option := λ o,
  Options (maxAttempts o) b (onRetry o) (sleep o).

Definition WithOnRetry (f : Z → error → W → W) : Option := λ o,
  Options (maxAttempts o) (backoff o) (Some f) (sleep o).

(** [ctx.Err()] and the protected function. *)
Context (ctx_Err : W → option error) (fn : W → W * (T * option error)).

(** The body of the [for attempt := range cfg.maxAttempts] loop and of the
    return after it; [n] iterations are left. *)
Fixpoint Do_loop (cfg : options) (n : nat) (attempt : Z) (last : option error) (w : W)
  : W * (T * option error) :=
  match n with
  | O => (w, (zero, Some (ErrMaxAttempts (maxAttempts cfg) last)))
  | S n =>
      match ctx_Err w with
      | Some e => (w, (zero, Some e))
      | None =>
          let '(w, (result, err)) := fn w in
          match err with
          | None => (w, (result, None))
          | Some err =>
              match as_stop err with
              | Some inner => (w, (zero, inner))
              | None =>
                  if attempt <? maxAttempts cfg - 1 then
                    let w := match onRetry cfg with
                             | Some f => f (attempt + 1) err w
                             | None => w
                             end in
                    let '(w, delay) := backoff cfg attempt w in
                    if 0 <? delay then
                      let '(w, sleepErr) := sleep cfg delay w in
                      match sleepErr with
                      | Some e => (w, (zero, Some e))
                      | None => Do_loop cfg n (attempt + 1) (Some err) w
                      end
                    else Do_loop cfg n (attempt + 1) (Some err) w
                  else Do_loop cfg n (attempt + 1) (Some err) w
              end
          end
      end
  end.

Definition Do (contextSleep : Duration → W → W * option error) (opts : list Option) (w : W)
  : W * (T * option error) :=
  let cfg := fold_left (λ c o, o c) opts (defaultOptions contextSleep) in
  Do_loop cfg (Z.to_nat (maxAttempts cfg)) 0 None w.

(** Whatever relation the callbacks of a loop respect, the loop respects; and a
    loop that succeeds does so through a successful call (or one that stopped
    without an error) in a world so related to the first. *)
Lemma Do_loop_relates (R : relation W) `{!PreOrder R} cfg :
  (∀ w, R w (fn w).1) → (∀ a w, R w (backoff cfg a w).1) →
  (∀ f a e w, onRetry cfg = Some f → R w (f a e w)) → (∀ d w, R w (sleep cfg d w).1) →
  ∀ n attempt last w, ∃ w' r err, Do_loop cfg n attempt last w = (w', (r, err)) ∧ R w w' ∧
    (err = None → ∃ w1 r1 e1, R w w1 ∧ fn w1 = (w', (r1, e1)) ∧
       match e1 with None => r = r1 | Some e => as_stop e = Some None end).
Proof.
  intros Hfn Hback Hretry Hsleep. induction n as [|n IH]; intros attempt last w; simpl.
  { by eexists _, _, _. }
  destruct (ctx_Err w) as [e|]; [by eexists _, _, _|].
  specialize (Hfn w) as Hw. destruct (fn w) as [w1 [result [err|]]] eqn:E; simpl in Hw.
  2: { eexists _, _, _. split_and!; [done|done|]. intros _. by exists w, result, None. }
  destruct (as_stop err) as [inner|] eqn:Es.
  { eexists _, _, _. split_and!; [done|done|]. intros ->. by exists w, result, (Some err). }
  assert (Hnext : ∀ w2, R w1 w2 → ∃ w' r e, Do_loop cfg n (attempt + 1) (Some err) w2 = (w', (r, e)) ∧ R w w' ∧
    (e = None → ∃ w3 r3 e3, R w w3 ∧ fn w3 = (w', (r3, e3)) ∧
       match e3 with None => r = r3 | Some e' => as_stop e' = Some None end)).
  { intros w2 Hw2. destruct (IH (attempt + 1) (Some err) w2) as (w' & r & e & Hl & HR & Hok).
    exists w', r, e. assert (R w w2) by (by etrans). split_and!; [done|by etrans|].
    intros He. destruct (Hok He) as (w3 & r3 & e3 & ? & ?). exists w3, r3, e3. split; [by etrans|done]. }
  destruct (attempt <? maxAttempts cfg - 1); [|by apply Hnext].
  set (w2 := match onRetry cfg with Some f => f (attempt + 1) err w1 | None => w1 end).
  assert (Hw2 : R w1 w2) by (unfold w2; case_match; [by eapply Hretry|done]).
  specialize (Hback attempt w2). destruct (backoff cfg attempt w2) as [w3 delay]. simpl in Hback.
  assert (Hw3 : R w1 w3) by (by etrans).
  destruct (0 <? delay); [|by apply Hnext].
  specialize (Hsleep delay w3). destruct (sleep cfg delay w3) as [w4 [e|]]; simpl in Hsleep.
  - eexists _, _, _. split_and!; [done|by repeat (etrans; [eassumption|])|done].
  - apply Hnext. by etrans.
Qed.

End Do.
Arguments options : clear implicits.
Arguments Option : clear implicits.

(** [DoVoid] wraps a function that returns only an error. *)
Definition DoVoid {W} (ctx_Err : W → option error) (fn : W → W * option error)
    (contextSleep : Duration → W → W * option error) (opts : list (Option W)) (w : W)
  : W * option error :=
  let '(w, (_, err)) :=
    Do tt ctx_Err (λ w, let '(w, e) := fn w in (w, (tt, e))) contextSleep opts w in
  (w, err).

(** ** A recording world *)

Inductive event := ECall | ERetry (attempt : Z) (err : error) | ESleep (d : Duration).

Record script (T : Type) := Script { pending : list (T * option error); trace : list event }.
Arguments Script {T}.
Arguments pending {T}.
Arguments trace {T}.

Section Script.
Context {T : Type} (zero : T) (ctx_done : list event → option error) (delay : Z → Duration).

Definition emit (e : event) (w : script T) : script T := Script (pending w) (trace w ++ [e]).

Definition s_ctx_Err (w : script T) : option error := ctx_done (trace w).

(** An exhausted script keeps failing. *)
Definition s_fn (w : script T) : script T * (T * option error) :=
  let w' := emit ECall w in
  match pending w with
  | [] => (w', (zero, Some (ErrFmt "script exhausted" [])))
  | r :: rs => (Script rs (trace w'), r)
  end.

(** A sleep ends early, with the context's error, when the context is done. *)
Definition s_sleep (d : Duration) (w : script T) : script T * option error :=
  let w := emit (ESleep d) w in (w, ctx_done (trace w)).

Definition s_opts (n : Z) : options (script T) :=
  Options n (λ a w, (w, delay a)) (Some (λ a e w, emit (ERetry a e) w)) s_sleep.

Definition s_Do (n : Z) (rs : list (T * option error)) : script T * (T * option error) :=
  Do_loop zero s_ctx_Err s_fn (s_opts n) (Z.to_nat n) 0 None (Script rs []).

(** A result after which the loop goes on: an error without [StopError]. *)
Definition retryable (r : T * option error) : option error :=
  match r.2 with
  | Some e => match as_stop e with Some _ => None | None => Some e end
  | None => None
  end.

(** What the loop records for the failures [es] of attempts [i], [i+1], ...:
    a call, the retry hook, and a sleep when the delay is positive. *)
Definition retry_events (i : Z) (e : error) : list event :=
  [ECall; ERetry (i + 1) e] ++ (if 0 <? delay i then [ESleep (delay i)] else []).

Fixpoint retries (i : Z) (es : list error) : list event :=
  match es with [] => [] | e :: es => retry_events i e ++ retries (i + 1) es end.

Definition is_call (e : event) : bool := match e with ECall => true | _ => false end.
Definition calls (tr : list event) : nat := length (filter is_call tr).

(** A call is made only from a state in which the context was not done. *)
Definition calls_live (tr : list event) : Prop :=
  ∀ tr1 tr2, tr = tr1 ++ ECall :: tr2 → ctx_done tr1 = None.

(** ** Lemmas *)

Lemma calls_snoc tr e : calls (tr ++ [e]) = (calls tr + (if is_call e then 1 else 0))%nat.
Proof. unfold calls. rewrite filter_app, length_app. by destruct e. Qed.
End Script.

Section Uncancelled.
Context {T : Type} (zero : T) (delay : Z → Duration).
Notation live := (λ _ : list event, @None error).
Notation loop n := (Do_loop zero (s_ctx_Err live) (s_fn zero) (s_opts live delay n)).

(** One failed attempt that is not the last one. *)
Lemma loop_retry n m i last r e rest tr :
  retryable r = Some e → i + 1 < n →
  loop n (S m) i last (Script (r :: rest) tr) =
  loop n m (i + 1) (Some e) (Script (T := T) rest (tr ++ retry_events delay i e)).
Proof.
  intros Hr Hi. destruct r as [x err]. unfold retryable in Hr. simpl in Hr.
  destruct err as [e'|]; [|done]. destruct (as_stop e') eqn:Hs; simplify_eq. simpl. rewrite Hs.
  destruct (Z.ltb_spec i (n - 1)); [|lia].
  unfold retry_events. destruct (0 <? delay i); simpl; unfold emit; simpl; by rewrite <-!app_assoc.
Qed.

Lemma loop_retries n m fs es : ∀ i last rest tr,
  Forall2 (λ r e, retryable r = Some e) fs es → i + Z.of_nat (length fs) < n →
  loop n (length fs + m)%nat i last (Script (fs ++ rest) tr) =
  loop n m (i + Z.of_nat (length fs)) (from_option Some last (list.last es))
    (Script (T := T) rest (tr ++ retries delay i es)).
Proof.
  intros i last rest tr HF. revert i last tr.
  induction HF as [|r e fs es Hr HF IH]; intros i last tr Hi.
  { simpl. by rewrite Z.add_0_r, app_nil_r. }
  simpl length in *. rewrite <-app_comm_cons. simpl Nat.add. rewrite (loop_retry n _ i last r e) by (done || lia).
  rewrite IH by lia. simpl retries. rewrite <-app_assoc. f_equal; [lia|].
  destruct es as [|e' es]; [done|]. rewrite last_cons_cons.
  destruct (list.last (e' :: es)) eqn:E; [done|]. by apply last_None in E.
Qed.

(** The last allowed attempt, failed. *)
Lemma loop_last n i last r e rest tr :
  retryable r = Some e → n ≤ i + 1 →
  loop n 1 i last (Script (r :: rest) tr) =
  (Script (T := T) rest (tr ++ [ECall]), (zero, Some (ErrMaxAttempts n (Some e)))).
Proof.
  intros Hr Hi. destruct r as [x err]. unfold retryable in Hr. simpl in Hr.
  destruct err as [e'|]; [|done]. destruct (as_stop e') eqn:Hs; simplify_eq. simpl. rewrite Hs.
  by destruct (Z.ltb_spec i (n - 1)); [lia|].
Qed.

(** ** Properties *)

(** C9: the retry loop against its specification, with a context that is not
    cancelled. Let the protected function fail retryably with the errors
    [es] first. (1) If it then succeeds within the attempt limit, [Do]
    returns that value with a nil error; (2) if it then fails with an error
    that carries a [StopError], [Do] stops at once with the wrapped error;
    (3) if all [n] attempts fail, [Do] returns [ErrMaxAttempts] with [n] and
    the last error. In each case the function is called once per attempt,
    and between two attempts the hook sees the 1-based attempt and its error
    and the loop sleeps for the delay of the 0-based attempt if positive. *)
Theorem retry_spec n fs es rest :
  1 ≤ n → Forall2 (λ r e, retryable r = Some e) fs es →
  (Z.of_nat (length fs) < n →
   (∀ x, s_Do zero live delay n (fs ++ (x, None) :: rest) =
      (Script rest (retries delay 0 es ++ [ECall]), (x, None))) ∧
   (∀ x e inner, as_stop e = Some inner →
      s_Do zero live delay n (fs ++ (x, Some e) :: rest) =
      (Script rest (retries delay 0 es ++ [ECall]), (zero, inner)))) ∧
  (∀ r e, retryable r = Some e → Z.of_nat (length fs) + 1 = n →
   s_Do zero live delay n (fs ++ r :: rest) =
   (Script rest (retries delay 0 es ++ [ECall]), (zero, Some (ErrMaxAttempts n (Some e))))).
Proof.
  intros Hn HF. unfold s_Do. split.
  - intros Hlt. replace (Z.to_nat n) with (length fs + S (Z.to_nat n - length fs - 1))%nat by lia.
    split; intros; rewrite (loop_retries n) with (es := es) by (done || lia); simpl; [done|].
    by match goal with H : as_stop _ = _ |- _ => rewrite H end.
  - intros r e Hr Hlen. replace (Z.to_nat n) with (length fs + 1)%nat by lia.
    rewrite (loop_retries n) with (es := es) by (done || lia). by rewrite (loop_last n) with (e := e) by (done || lia).
Qed.

End Uncancelled.

Section Cancelled.
Context {T : Type} (zero : T) (ctx_done : list event → option error) (delay : Z → Duration).

Lemma calls_live_nil : calls_live ctx_done [].
Proof. intros [|??] ? ?; done. Qed.

Lemma calls_live_snoc tr e :
  calls_live ctx_done tr → (e = ECall → ctx_done tr = None) → calls_live ctx_done (tr ++ [e]).
Proof.
  intros Hl He tr1 tr2 Heq. destruct tr2 as [|x tr2 _] using rev_ind.
  - apply app_inj_tail in Heq as [-> ->]. by apply He.
  - rewrite app_comm_cons, app_assoc in Heq. apply app_inj_tail in Heq as [Heq _]. by eapply Hl.
Qed.

Lemma loop_live n m : ∀ i last w,
  calls_live ctx_done (trace w) →
  let w' := (Do_loop zero (s_ctx_Err ctx_done) (s_fn zero) (s_opts ctx_done delay n) m i last w).1 in
  calls_live ctx_done (trace w') ∧ (calls (trace w') ≤ calls (trace w) + m)%nat.
Proof.
  induction m as [|m IH]; intros i last w Hl; cbn [Do_loop]; [split; [done|cbn [fst]; lia]|].
  change (s_ctx_Err ctx_done w) with (ctx_done (trace w)).
  destruct (ctx_done (trace w)) eqn:Hd; [split; [done|cbn [fst]; lia]|].
  assert (H1 : calls_live ctx_done (trace w ++ [ECall])) by by apply calls_live_snoc.
  assert (Hfn : ∃ p r, s_fn zero w = (Script p (trace w ++ [ECall]), r)).
  { unfold s_fn. destruct (pending w); eauto. }
  destruct Hfn as (p&[x err]&->).
  assert (Hc : calls (trace w ++ [ECall]) = S (calls (trace w))) by (rewrite calls_snoc; simpl; lia).
  destruct err as [e|]; [|simpl; split; [done|lia]].
  destruct (as_stop e); [simpl; split; [done|lia]|]. simpl.
  assert (H2 : ∀ a, calls_live ctx_done ((trace w ++ [ECall]) ++ [ERetry a e])) by (intros; by apply calls_live_snoc).
  assert (H3 : ∀ a d, calls_live ctx_done (((trace w ++ [ECall]) ++ [ERetry a e]) ++ [ESleep d]))
    by (intros; by apply calls_live_snoc).
  assert (Hc2 : ∀ a d, calls ((trace w ++ [ECall]) ++ [ERetry a e]) = S (calls (trace w)) ∧
                       calls (((trace w ++ [ECall]) ++ [ERetry a e]) ++ [ESleep d]) = S (calls (trace w))).
  { intros. rewrite !calls_snoc. simpl. lia. }
  destruct (Hc2 (i + 1) (delay i)) as [Hc3 Hc4].
  destruct (i <? n - 1); [destruct (0 <? delay i);
    [destruct (ctx_done (((trace w ++ [ECall]) ++ [ERetry (i + 1) e]) ++ [ESleep (delay i)]))|]|]; simpl.
  - split; [apply H3|]. lia.
  - destruct (IH (i + 1) (Some e) (emit (ESleep (delay i)) (emit (ERetry (i + 1) e) (Script p (trace w ++ [ECall]))))
      (H3 _ _)) as [? Hle]. split; [done|]. simpl in Hle. lia.
  - destruct (IH (i + 1) (Some e) (emit (ERetry (i + 1) e) (Script p (trace w ++ [ECall]))) (H2 _)) as [? Hle].
    split; [done|]. simpl in Hle. lia.
  - destruct (IH (i + 1) (Some e) (Script p (trace w ++ [ECall])) H1) as [? Hle].
    split; [done|]. simpl in Hle. lia.
Qed.

(** The result of the [k]-th call. *)
Definition result_of (rs : list (T * option error)) (k : nat) : T * option error :=
  default (zero, Some (ErrFmt "script exhausted" [])) (rs !! k).

(** What [Do] returns after [tr]: when the last thing it did was a call, the outcome of that
    call, an error that may be retried only when it was the last attempt; otherwise the error
    of the context, which is done. *)
Definition ends_with (n : Z) (rs : list (T * option error)) (tr : list event) (res : T * option error) : Prop :=
  match last tr with
  | Some ECall =>
      match result_of rs (pred (calls tr)) with
      | (x, None) => res = (x, None)
      | (x, Some e) =>
          match as_stop e with
          | Some inner => res = (zero, inner)
          | None => Z.of_nat (calls tr) = n ∧ res = (zero, Some (ErrMaxAttempts n (Some e)))
          end
      end
  | _ => ∃ e, ctx_done tr = Some e ∧ res = (zero, Some e)
  end.

Lemma s_fn_result rs tr :
  s_fn zero (Script (drop (calls tr) rs) tr) =
  (Script (drop (calls (tr ++ [ECall])) rs) (tr ++ [ECall]), result_of rs (calls tr)).
Proof.
  unfold s_fn, result_of, emit. rewrite calls_snoc. cbn [is_call pending trace]. replace (calls tr + 1)%nat with (S (calls tr)) by lia.
  destruct (rs !! calls tr) as [r|] eqn:E.
  - by rewrite (drop_S rs r _ E).
  - apply lookup_ge_None in E. by rewrite !drop_ge by lia.
Qed.

Lemma loop_ends n rs m : ∀ tr l,
  Z.of_nat (calls tr) + Z.of_nat (S m) = n → last tr ≠ Some ECall →
  let '(w, res) := Do_loop zero (s_ctx_Err ctx_done) (s_fn zero) (s_opts ctx_done delay n) (S m) (Z.of_nat (calls tr)) l
    (Script (drop (calls tr) rs) tr) in ends_with n rs (trace w) res.
Proof.
  induction m as [|m IH]; intros tr l Hn Hl; match goal with |- context [Do_loop _ _ _ _ (S ?k)] => remember k as k' eqn:Ek end;
    cbn [Do_loop]; change (s_ctx_Err ctx_done (Script _ tr)) with (ctx_done tr).
  all: destruct (ctx_done tr) as [e|] eqn:Hd; [unfold ends_with; simpl; destruct (last tr) as [[]|]; [done|by exists e..]|].
  all: rewrite s_fn_result; destruct (result_of rs (calls tr)) as [x [e|]] eqn:Er.
  all: assert (Hlast : last (tr ++ [ECall]) = Some ECall) by apply last_snoc.
  all: assert (Hc : calls (tr ++ [ECall]) = S (calls tr)) by (rewrite calls_snoc; simpl; lia).
  2, 4: unfold ends_with; cbn [trace]; by rewrite Hlast, Hc, Nat.pred_succ, Er.
  all: destruct (as_stop e) as [inner|] eqn:Es; [unfold ends_with; cbn [trace]; by rewrite Hlast, Hc, Nat.pred_succ, Er, Es|].
  - change (maxAttempts (s_opts ctx_done delay n)) with n. destruct (Z.ltb_spec (Z.of_nat (calls tr)) (n - 1)); [lia|].
    subst k'. cbn [Do_loop]. unfold ends_with. cbn [trace]. rewrite Hlast, Hc, Nat.pred_succ, Er, Es. split; [lia|done].
  - change (maxAttempts (s_opts ctx_done delay n)) with n. destruct (Z.ltb_spec (Z.of_nat (calls tr)) (n - 1)); [|lia].
    cbn [onRetry s_opts backoff sleep s_sleep emit trace pending].
    assert (Hgo : ∀ tr', calls tr' = S (calls tr) → last tr' ≠ Some ECall →
      let '(w, res) := Do_loop zero (s_ctx_Err ctx_done) (s_fn zero) (s_opts ctx_done delay n) k' (Z.of_nat (calls tr) + 1) (Some e) (Script (drop (calls (tr ++ [ECall])) rs) tr') in ends_with n rs (trace w) res).
    { intros tr' Hc' Hl'. specialize (IH tr' (Some e)). rewrite Hc' in IH. subst k'. rewrite Hc in *.
      replace (Z.of_nat (calls tr) + 1) with (Z.of_nat (S (calls tr))) by lia. apply IH; [lia|done]. }
    assert (Hc1 : ∀ a, calls ((tr ++ [ECall]) ++ [ERetry a e]) = S (calls tr)) by (intros; rewrite calls_snoc, Hc; simpl; lia).
    destruct (0 <? delay (Z.of_nat (calls tr))).
    + match goal with |- context [match ctx_done ?t with _ => _ end] => destruct (ctx_done t) as [e'|] eqn:Hd' end;
        [unfold ends_with; cbn [trace emit pending]; rewrite last_snoc; by exists e'|].
      apply (Hgo (((tr ++ [ECall]) ++ [ERetry _ e]) ++ [ESleep _])); [rewrite calls_snoc, Hc1; simpl; lia|by rewrite last_snoc].
    + apply (Hgo ((tr ++ [ECall]) ++ [ERetry _ e])); [by rewrite Hc1|by rewrite last_snoc].
Qed.

(** C10: whatever the context does, the loop terminates, calls the protected function at most
    [n] times, and never when the context is done as the attempt would start; and what it
    returns: the outcome of its last call, if it did nothing after it ([ErrMaxAttempts] when
    that was the [n]-th and failed), and otherwise the error of the context. *)
Theorem retry_respects_context n rs : 1 ≤ n →
  let '(w, res) := s_Do zero ctx_done delay n rs in
  (calls (trace w) ≤ Z.to_nat n)%nat ∧ calls_live ctx_done (trace w) ∧ ends_with n rs (trace w) res.
Proof.
  intros Hn. destruct (loop_live n (Z.to_nat n) 0 None (Script rs []) calls_live_nil) as [Hl Hle].
  pose proof (loop_ends n rs (Z.to_nat (n - 1)) [] None ltac:(change (calls []) with 0%nat; lia) ltac:(done)) as He.
  unfold s_Do in *. replace (Z.to_nat n) with (S (Z.to_nat (n - 1))) in * by lia. change (drop (calls []) rs) with rs in He.
  change (Z.of_nat (calls [])) with 0 in He. destruct (Do_loop _ _ _ _ _ _ _ _) as [w res]. by split_and!.
Qed.
End Cancelled.

(** ** Witness *)

Lemma retry_spec_witness :
  s_Do 0 (λ _, None) (λ a, 10 * a) 3 ([(0, Some context_Canceled)] ++ [(7, Some (ErrWrap "x: %w" [] (Stop None)))]) =
  (Script [] ([ECall; ERetry 1 context_Canceled] ++ [ECall]), (0, None)).
Proof.
  apply (retry_spec 0 (λ a, 10 * a) 3 [(0, Some context_Canceled)] [context_Canceled] []);
    [lia|by repeat constructor|simpl; lia|reflexivity].
Defined.

(** A context that is cancelled during the first call: the retry is announced, and not made. *)
Lemma retry_respects_context_witness :
  let done tr := if decide (tr = []) then None else Some context_Canceled in
  let tr := [ECall; ERetry 1 (ErrNew 1 "down")] in
  s_Do 0 done (λ _, 0) 3 [(0, Some (ErrNew 1 "down"))] = (Script [] tr, (0, Some context_Canceled)) ∧
  (calls tr ≤ 3)%nat ∧ calls_live done tr ∧ ends_with 0 done 3 [(0, Some (ErrNew 1 "down"))] tr (0, Some context_Canceled).
Proof.
  split; [reflexivity|]. cbv zeta.
  exact (retry_respects_context 0 (λ tr, if decide (tr = []) then None else Some context_Canceled) (λ _, 0) 3 [(0, Some (ErrNew 1 "down"))] ltac:(lia)).
Defined.

End Retry.
