(* ===== verification/Ticker.v ===== *)
(** * time.Ticker on a timeline

    A ticker fires at the multiples of its period and drops a tick when the one before has
    not been received: its channel holds one.  [elapse] lets time pass for a ticker.  The
    loops of pkg/lock and pkg/sched receive from one; [on_time] is what such a loop keeps
    when it receives a tick at most [J] after it fired and is back in its select
    before the next one fires. *)

From S2P Require Import Prelude GoLang.
Open Scope Z_scope.

Module Ticker.

(** [next]: when it fires next; [C]: the tick in the channel, if any. *)
Record ticker := MkTicker { period : Duration; next : Time; C : option Time }.

Definition NewTicker (now : Time) (d : Duration) : outcome ticker :=
  if d <=? 0 then Panic "non-positive interval for NewTicker" else Ret (MkTicker d (now + d) None).

Definition fire (t : ticker) : ticker := MkTicker (period t) (next t + period t) (Some (default (next t) (C t))).

(** All that fires up to [now]; only the first tick finds room in the channel. *)
Definition elapse (now : Time) (t : ticker) : ticker :=
  if now <? next t then t
  else MkTicker (period t) (next t + ((now - next t) / period t + 1) * period t) (Some (default (next t) (C t))).

(** The receive of [<-t.C]. *)
Definition recv (t : ticker) : ticker := MkTicker (period t) (next t) None.

Lemma period_elapse now t : period (elapse now t) = period t.
Proof. unfold elapse. by destruct (now <? next t). Qed.

Lemma elapse_early now t : now < next t → elapse now t = t.
Proof. intros H. unfold elapse. by rewrite (proj2 (Z.ltb_lt _ _) H). Qed.

(** [elapse] is one firing after the other. *)
Lemma elapse_fire now t : 0 < period t → next t ≤ now → elapse now t = elapse now (fire t).
Proof.
  intros Hp Hn. unfold elapse at 1. rewrite (proj2 (Z.ltb_ge _ _) Hn). unfold elapse, fire. simpl.
  destruct (Z.ltb_spec now (next t + period t)).
  - rewrite Z.div_small by lia. f_equal. lia.
  - f_equal. replace (now - next t) with (now - (next t + period t) + 1 * period t) by lia. rewrite Z.div_add by lia. lia.
Qed.

Lemma elapse_next now t : 0 < period t → now < next (elapse now t).
Proof.
  intros Hp. unfold elapse. destruct (Z.ltb_spec now (next t)); simpl; [done|].
  pose proof (Z.div_mod (now - next t) (period t) ltac:(lia)). pose proof (Z.mod_pos_bound (now - next t) (period t) Hp). lia.
Qed.

(** ** Punctual loops *)

Section Punctual.
Context (J : Duration).

(** [last] is the tick received last (or the start): the next one has not fired, or it waits in
    the channel for no longer than [J]. *)
Definition on_time (last now : Time) (t : ticker) : Prop :=
  (C t = None ∧ next t = last + period t ∧ last ≤ now < next t) ∨
  (C t = Some (last + period t) ∧ next t = last + 2 * period t ∧ last + period t ≤ now ≤ last + period t + J).

(** The loop is in its select: it does not let a tick wait. *)
Definition prompt (now : Time) (t : ticker) : Prop := ∀ x, C t = Some x → now ≤ x + J.

Lemma on_time_bound last now t : 0 ≤ J < period t → on_time last now t → last ≤ now ≤ last + period t + J.
Proof. intros HJ [(_ & ? & ?)|(_ & ? & ?)]; lia. Qed.

Lemma on_time_new now d t : NewTicker now d = Ret t → 0 < d ∧ period t = d ∧ on_time now now t.
Proof.
  unfold NewTicker. destruct (Z.leb_spec d 0); [done|]. intros [= <-]. split_and!; [done|done|]. left. simpl. split_and!; [done|done|lia|lia].
Qed.

Lemma on_time_elapse last now now' t : 0 ≤ J < period t → on_time last now t → now ≤ now' → prompt now' (elapse now' t) →
  on_time last now' (elapse now' t).
Proof.
  intros HJ [(HC & Hn & Hl)|(HC & Hn & Hl)] Hle Hp; unfold prompt, elapse in *.
  - destruct (Z.ltb_spec now' (next t)); [left; split_and!; [done|done|lia|done]|]. right. simpl in *. rewrite HC in *. simpl in *.
    specialize (Hp _ eq_refl). split_and!; [by rewrite Hn| |lia|lia].
    rewrite Z.div_small by lia. lia.
  - destruct (Z.ltb_spec now' (next t)) as [|Hge]; [right; split_and!; [done|done|lia|]|].
    + specialize (Hp _ HC). lia.
    + exfalso. rewrite HC in Hp. simpl in Hp. specialize (Hp _ eq_refl). lia.
Qed.

(** The loop receives the tick and works on it for at most [L]. *)
Lemma on_time_recv L last now now' t x : 0 ≤ J → J + L < period t → on_time last now t → C t = Some x → now ≤ now' ≤ now + L →
  x = last + period t ∧ x ≤ now ≤ x + J ∧ on_time x now' (elapse now' (recv t)).
Proof.
  intros HJ HL [(HC & Hn & Hl)|(HC & Hn & Hl)] HC' Hle; rewrite HC in HC'; [done|]. injection HC' as <-.
  split_and!; [done|lia|lia|]. left. rewrite elapse_early by (simpl; lia). simpl. split_and!; [done|lia|lia|lia].
Qed.
End Punctual.

End Ticker.
