(* ===== verification/Timers.v ===== *)
(** * Time-driven loops: internal/clock, contextSleep, the cache's janitor, testutil

    [Clock] is the interface of internal/clock; what the time package promises of it is
    the class [RealTime].  On it run the polling loops of pkg/testutil.  [contextSleep] of
    pkg/retry is a function of the instants at which it starts and at which its context is
    cancelled, and [Do] runs on a world that is the current instant.  [StartJanitor] of
    pkg/cache is the loop over the wake-ups of its goroutine. *)

From S2P Require Import Prelude GoLang LruCache Retry.
Open Scope Z_scope.

Module Timers.

(** ** internal/clock *)

(** The world holds the time; [chan] is the type of a timer's channel. *)
Record Clock (W chan : Type) := MkClock {
  Now : W → W * Time;
  Since : Time → W → W * Duration;
  Sleep : Duration → W → W;
  After_ : Duration → W → W * chan
}.
Arguments MkClock {W chan}.
Arguments Now {W chan}.
Arguments Since {W chan}.
Arguments Sleep {W chan}.
Arguments After_ {W chan}.

(** The functions of the time package. *)
Class RealTime (W chan : Type) := {
  time : W → Time;
  time_Now : W → W * Time;
  time_Sleep : Duration → W → W;
  time_After : Duration → W → W * chan;
  Now_between w : time w ≤ (time_Now w).2 ≤ time (time_Now w).1;
  Sleep_waits d w : time w + Z.max 0 d ≤ time (time_Sleep d w)
}.

(** How a helper ends: it returns, or [t.Fatalf] ends the test. *)
Inductive tresult (A : Type) := Returns (a : A) | Fatal (format : string).
Arguments Returns {A}.
Arguments Fatal {A}.

Section Real.
Context `{RealTime W chan}.

Definition time_Since (t : Time) (w : W) : W * Duration := let '(w, now) := time_Now w in (w, Sub now t).

Definition Real : Clock W chan := MkClock time_Now time_Since time_Sleep time_After.
Definition New : Clock W chan := Real.

(** Measured with the clock, a sleep lasts at least as long as asked for. *)
Lemma since_sleep d w : is_int64 d →
  let '(w1, t0) := Now New w in let w2 := Sleep New d w1 in d ≤ (Since New t0 w2).2.
Proof.
  intros Hd. simpl. pose proof (Now_between w) as H1. destruct (time_Now w) as [w1 t0]. simpl in *.
  pose proof (Sleep_waits d w1) as H2. unfold time_Since. pose proof (Now_between (time_Sleep d w1)) as H3.
  destruct (time_Now (time_Sleep d w1)) as [w2 t2]. simpl in *. apply Sub_ge; [done|lia].
Qed.

(** ** pkg/testutil *)

Definition Must (err : option error) : tresult unit :=
  match err with Some _ => Fatal "unexpected error: %v" | None => Returns tt end.
Definition MustVal {A} (val : A) (err : option error) : tresult A :=
  match err with Some _ => Fatal "unexpected error: %v" | None => Returns val end.
(** [t.Errorf] marks the test as failed and goes on. *)
Definition AssertNoError (err : option error) (failed : bool) : bool :=
  match err with Some _ => true | None => failed end.

(** [net.Listen] gives the port or an error; the listener is closed again. *)
Definition FreePort (Listen : W → W * (error + Z)) (Close : W → W) (w : W) : W * tresult Z :=
  match Listen w with
  | (w, inl _) => (w, Fatal "testutil.FreePort: %v")
  | (w, inr port) => (Close w, Returns port)
  end.

(** [None] stands for running out of fuel. *)
Fixpoint Eventually_loop (fuel : nat) (condition : W → W * bool) (deadline : Time) (tick : Duration) (w : W)
    : W * option (tresult unit) :=
  match fuel with
  | O => (w, None)
  | S fuel =>
    let '(w, now) := time_Now w in
    if Before now deadline then
      let '(w, ok) := condition w in
      if ok then (w, Some (Returns tt)) else Eventually_loop fuel condition deadline tick (time_Sleep tick w)
    else (w, Some (Fatal "condition not met within %s"))
  end.

Definition Eventually (fuel : nat) (condition : W → W * bool) (timeout tick : Duration) (w : W) : W * option (tresult unit) :=
  let '(w, now) := time_Now w in Eventually_loop fuel condition (Add now timeout) tick w.

Definition RequireEventually := Eventually.

(** What the test runs when it is over, the last registered first. *)
Inductive cleanup (C DB : Type) := Terminate (c : C) | CloseDB (db : DB).
Arguments Terminate {C DB}.
Arguments CloseDB {C DB}.

(** The loop of [StartPostgres] around [store.Open]; [cs] are the clean-ups registered so far. *)
Fixpoint Open_loop {C DB} (fuel : nat) (Open : W → W * (error + DB)) (deadline : Time) (cs : list (cleanup C DB)) (w : W)
    : W * list (cleanup C DB) * option (tresult DB) :=
  match fuel with
  | O => (w, cs, None)
  | S fuel =>
    match Open w with
    | (w, inr db) => (w, CloseDB db :: cs, Some (Returns db))
    | (w, inl _) =>
      let '(w, now) := time_Now w in
      if After now deadline then (w, cs, Some (Fatal "testutil.StartPostgres: open store: %v"))
      else Open_loop fuel Open deadline cs (time_Sleep (200 * Millisecond) w)
    end
  end.

(** [StartPostgres]: the container, its address, then the database; [Sprintf] renders the
    connection string. *)
Definition StartPostgres {C DB} (fuel : nat) (GenericContainer : W → W * (error + C))
    (Host MappedPort : C → W → W * (error + string)) (Sprintf : string → string → string)
    (Open : string → W → W * (error + DB)) (w : W) : W * list (cleanup C DB) * option (tresult DB) :=
  match GenericContainer w with
  | (w, inl _) => (w, [], Some (Fatal "testutil.StartPostgres: start container: %v"))
  | (w, inr c) =>
    let cs := [Terminate c] in
    match Host c w with
    | (w, inl _) => (w, cs, Some (Fatal "testutil.StartPostgres: host: %v"))
    | (w, inr host) =>
      match MappedPort c w with
      | (w, inl _) => (w, cs, Some (Fatal "testutil.StartPostgres: mapped port: %v"))
      | (w, inr port) =>
        let '(w, now) := time_Now w in
        Open_loop fuel (Open (Sprintf host port)) (Add now (30 * Second)) cs w
      end
    end
  end.

Lemma Eventually_loop_ends n condition deadline tick w : 0 < tick → (∀ w, time w ≤ time (condition w).1) →
  deadline - time w ≤ tick * Z.of_nat n → (Eventually_loop (S n) condition deadline tick w).2 ≠ None.
Proof.
  intros Ht Hc. revert w. induction n as [|n IH]; intros w Hd.
  - cbn [Eventually_loop]. pose proof (Now_between w) as Hn. destruct (time_Now w) as [w1 now]. simpl in *.
    unfold Before. destruct (Z.ltb_spec now deadline); [lia|done].
  - remember (S n) as k. cbn [Eventually_loop]. subst k. pose proof (Now_between w) as Hn. destruct (time_Now w) as [w1 now]. simpl in Hn.
    destruct (Before now deadline); [|done]. pose proof (Hc w1) as Hc1. destruct (condition w1) as [w2 []]; [done|].
    simpl in Hc1. apply IH. pose proof (Sleep_waits tick w2). lia.
Qed.

(** How the loop can end. *)
Lemma Eventually_loop_result fuel condition deadline tick w w' r :
  Eventually_loop fuel condition deadline tick w = (w', Some r) →
  match r with
  | Returns _ => ∃ w1, condition w1 = (w', true)
  | Fatal _ => ∃ w1 now, time_Now w1 = (w', now) ∧ deadline ≤ now
  end.
Proof.
  revert w. induction fuel as [|fuel IH]; intros w; simpl; [done|].
  destruct (time_Now w) as [w1 now] eqn:En. unfold Before. destruct (Z.ltb_spec now deadline).
  - destruct (condition w1) as [w2 []] eqn:Ec; [|apply IH]. intros [= <- <-]. by exists w1.
  - intros [= <- <-]. by exists w, now.
Qed.

(** Polling ends.  With a positive tick [Eventually] returns or fails the test after at most
    timeout/tick + 2 polls, whatever the condition does; it returns only when the
    condition has just held, and fails only at a reading of the clock at or after the deadline;
    a timeout that is not positive fails without evaluating the condition. *)
Theorem eventually_ends condition timeout tick w fuel :
  0 < tick → (∀ w, time w ≤ time (condition w).1) → (Z.to_nat (timeout / tick) + 2 ≤ fuel)%nat →
  ∃ w' r, Eventually fuel condition timeout tick w = (w', Some r) ∧
    match r with
    | Returns _ => 0 < timeout ∧ ∃ w1, condition w1 = (w', true)
    | Fatal _ => ∃ w1 now, time_Now w1 = (w', now) ∧ time w + timeout ≤ now
    end.
Proof.
  intros Ht Hc Hf. unfold Eventually. pose proof (Now_between w) as Hn. destruct (time_Now w) as [w0 now] eqn:E0. simpl in Hn.
  destruct fuel as [|n]; [lia|].
  pose proof (Eventually_loop_ends n condition (Add now timeout) tick w0 Ht Hc) as He.
  destruct (Eventually_loop (S n) condition (Add now timeout) tick w0) as [w' [r|]] eqn:El.
  2: { exfalso. apply He; [|done]. unfold Add. pose proof (Z.div_mod timeout tick ltac:(lia)).
       pose proof (Z.mod_pos_bound timeout tick Ht). nia. }
  exists w', r. split; [done|]. pose proof (Eventually_loop_result _ _ _ _ _ _ _ El) as Hr. destruct r as [[]|f].
  - split; [|done]. cbn [Eventually_loop] in El. pose proof (Now_between w0) as Hn0. destruct (time_Now w0) as [w1 now1].
    simpl in Hn0. unfold Before, Add in El. destruct (Z.ltb_spec now1 (now + timeout)); [lia|done].
  - destruct Hr as (w1 & t & E & Hle). exists w1, t. split; [done|]. unfold Add in Hle. lia.
Qed.

Lemma Open_loop_ends {C DB} n (Open : W → W * (error + DB)) deadline (cs : list (cleanup C DB)) w :
  (∀ w, time w ≤ time (Open w).1) → deadline - time w < 200 * Millisecond * Z.of_nat n →
  ∃ r, (Open_loop (S n) Open deadline cs w).2 = Some r ∧
    (Open_loop (S n) Open deadline cs w).1.2 = match r with Returns db => CloseDB db :: cs | Fatal _ => cs end.
Proof.
  intros Hc. revert w. induction n as [|n IH]; intros w Hd; [|remember (S n) as k]; cbn [Open_loop]; try subst k;
    pose proof (Hc w) as Hc1; destruct (Open w) as [w1 [e|db]]; try (by eexists); simpl in Hc1;
    pose proof (Now_between w1) as Hn; destruct (time_Now w1) as [w2 now]; simpl in Hn; unfold After.
  - destruct (Z.ltb_spec deadline now); [by eexists|]. lia.
  - destruct (Z.ltb_spec deadline now); [by eexists|]. apply IH. pose proof (Sleep_waits (200 * Millisecond) w2).
    unfold Millisecond in *. lia.
Qed.

(** [StartPostgres] ends: after at most 152 attempts to open the database it returns it or
    fails the test.  A container that was started is terminated when the test is over, in every
    case, and a database that was opened is closed before that. *)
Theorem start_postgres_ends {C DB} (gc : W → W * (error + C)) host port Sprintf (Open : string → W → W * (error + DB)) w :
  (∀ s w, time w ≤ time (Open s w).1) →
  ∃ r, (StartPostgres 152 gc host port Sprintf Open w).2 = Some r ∧
    (StartPostgres 152 gc host port Sprintf Open w).1.2 =
      match (gc w).2, r with
      | inl _, _ => []
      | inr c, Returns db => [CloseDB db; Terminate c]
      | inr c, Fatal _ => [Terminate c]
      end.
Proof.
  intros Hc. unfold StartPostgres. destruct (gc w) as [w1 [e|c]]; [by eexists|]. destruct (host c w1) as [w2 [e|h]]; [by eexists|].
  destruct (port c w2) as [w3 [e|p]]; [by eexists|]. pose proof (Now_between w3) as Hn. destruct (time_Now w3) as [w4 now]. simpl in Hn.
  edestruct (Open_loop_ends 151 (Open (Sprintf h p)) (Add now (30 * Second)) [@Terminate C DB c] w4) as (r & -> & ->); [apply Hc| |].
  - unfold Add, Millisecond, Second. lia.
  - exists r. by destruct r.
Qed.
End Real.

(** ** pkg/retry: contextSleep *)

(** [cancel]: when the context is done, and its error.  [first] decides the select
    when the timer fires at that very instant. *)
Definition contextSleep (cancel : option (Time * error)) (first : bool) (d : Duration) (now : Time) : Time * option error :=
  let fires := now + Z.max 0 d in
  match cancel with
  | None => (fires, None)
  | Some (t, e) =>
    let t := Z.max now t in
    if t <? fires then (t, Some e)
    else if fires <? t then (fires, None)
    else (fires, if first then Some e else None)
  end.

(** [ctx.Err()]. *)
Definition ctx_Err (cancel : option (Time * error)) (now : Time) : option error :=
  match cancel with Some (t, e) => if t <=? now then Some e else None | None => None end.

Lemma contextSleep_spec cancel first d now now' err : contextSleep cancel first d now = (now', err) →
  now ≤ now' ≤ now + Z.max 0 d ∧ (∀ t e, cancel = Some (t, e) → now' ≤ Z.max now t) ∧
  match err with
  | Some e => ∃ t, cancel = Some (t, e) ∧ t ≤ now'
  | None => now' = now + Z.max 0 d
  end.
Proof.
  unfold contextSleep. destruct cancel as [[t e]|]; [|by intros [= <- <-]; split_and!; [lia|lia|done|done]].
  destruct (Z.ltb_spec (Z.max now t) (now + Z.max 0 d)) as [H1|H1]; [|destruct (Z.ltb_spec (now + Z.max 0 d) (Z.max now t)) as [H2|H2]];
    intros [= <- <-]; (split_and!; [lia|lia|intros ?? [= <- <-]; lia|]).
  - exists t. split; [done|lia].
  - done.
  - destruct first; [|done]. exists t. split; [done|lia].
Qed.

Section Deadline.
Context {T : Type} (zero : T) (cancel : option (Time * error)) (first : bool).
(** The protected function takes up to [D], and computing a delay takes no time. *)
Context (fn : Time → Time * (T * option error)) (D : Duration) (delay : Z → Duration).
Context (fn_bounded : ∀ now, now ≤ (fn now).1 ≤ now + D).

Definition timed_options (n : Z) : Retry.options Time :=
  Retry.Options n (λ a now, (now, delay a)) None (contextSleep cancel first).

Lemma Do_loop_deadline n k a last now t e : cancel = Some (t, e) →
  (Retry.Do_loop zero (ctx_Err cancel) fn (timed_options n) k a last now).1 ≤ Z.max now (t + D).
Proof.
  intros Hcan. revert a last now. induction k as [|k IH]; intros a last now; simpl; [lia|].
  assert (ctx_Err cancel now = if t <=? now then Some e else None) as -> by (unfold ctx_Err; by rewrite Hcan).
  destruct (Z.leb_spec t now) as [|Hlt]; [simpl; lia|].
  pose proof (fn_bounded now) as Hb. destruct (fn now) as [now1 [v [err|]]]; simpl in *; [|lia].
  destruct (Retry.as_stop err); [simpl; lia|].
  destruct (a <? n - 1); [|etrans; [apply IH|lia]]. destruct (0 <? delay a); [|etrans; [apply IH|lia]].
  destruct (contextSleep cancel first (delay a) now1) as [now2 serr] eqn:Es.
  apply contextSleep_spec in Es as (_ & H2 & _). specialize (H2 t e Hcan).
  destruct serr; [simpl; lia|]. etrans; [apply IH|]. lia.
Qed.

(** C40: [Do] does not outlive its context: once the context is cancelled it returns within
    the duration of one call of the function, however many attempts and however long a
    backoff are still ahead. *)
Theorem retry_deadline n attempts now t e :
  cancel = Some (t, e) → Retry.WithMaxAttempts n = Ret attempts →
  (Retry.Do zero (ctx_Err cancel) fn (contextSleep cancel first)
     [attempts; Retry.WithBackoff (λ a now, (now, delay a))] now).1 ≤ Z.max now (t + D).
Proof.
  intros Hc Hn. unfold Retry.WithMaxAttempts in Hn. destruct (n <? 1); [done|]. injection Hn as <-.
  unfold Retry.Do. by apply (Do_loop_deadline n (Z.to_nat n) 0 None now t e).
Qed.
End Deadline.

(** ** pkg/cache: StartJanitor *)

Section Janitor.
Context {K V : Type} `{Countable K}.

(** The goroutine wakes when the ticker fires, with the readings of the clock during the sweep,
    or when its context is done. *)
Inductive wake := Tick (now : nat → Time) | Done.

Fixpoint janitor_loop (ws : list wake) (c : @Cache.Cache K V _ _) : @Cache.Cache K V _ _ :=
  match ws with
  | [] => c
  | Done :: _ => c
  | Tick now :: ws => janitor_loop ws (Cache.deleteExpired now c)
  end.

(** [time.NewTicker] panics for an interval that is not positive, in the new goroutine. *)
Definition StartJanitor (interval : Duration) (ws : list wake) (c : @Cache.Cache K V _ _) : outcome (@Cache.Cache K V _ _) :=
  if interval <=? 0 then Panic "non-positive interval for NewTicker" else Ret (janitor_loop ws c).

(** The ticks before the context is done. *)
Fixpoint ticks (ws : list wake) : list (@Cache.op K V) :=
  match ws with Tick now :: ws => Cache.OJanitor now :: ticks ws | _ => [] end.

(** The janitor only sweeps: it is a run of sweeps of the cache's specification, one per tick until
    its context is done and none after; a wrong interval crashes the process. *)
Theorem janitor_spec interval ws c : Cache.wf c →
  match StartJanitor interval ws c with
  | Ret c' => 0 < interval ∧ Cache.wf c' ∧
      Cache.abs c' = fold_left (λ s o, (Cache.lru_op o s).1) (ticks ws) (Cache.abs c)
  | Panic _ => interval ≤ 0
  end.
Proof.
  intros Hwf. unfold StartJanitor. destruct (Z.leb_spec interval 0); [done|]. split; [lia|].
  revert c Hwf. induction ws as [|[now|] ws IH]; intros c Hwf; simpl; [done| |done].
  destruct (Cache.deleteExpired_refines now c Hwf) as [Hw Ha]. destruct (IH _ Hw) as [Hw' Ha']. split; [done|].
  by rewrite Ha', Ha.
Qed.
End Janitor.

(** ** Witnesses *)

(** A world that is its time: reading the clock takes a nanosecond, a sleep what it is asked for. *)
#[export] Instance ideal_time : RealTime Z unit.
Proof.
  refine {| time w := w; time_Now w := (w + 1, w); time_Sleep d w := w + Z.max 0 d; time_After d w := (w, tt) |}.
  - intros w. simpl. lia.
  - intros d w. lia.
Defined.

Lemma eventually_ends_witness : ∃ w' r, Eventually 12 (λ w, (w, 35 <=? w)) 100 10 0 = (w', Some r) ∧
  match r with
  | Returns _ => 0 < 100 ∧ ∃ w1, (w1, 35 <=? w1) = (w', true)
  | Fatal _ => ∃ w1 now, time_Now w1 = (w', now) ∧ time 0 + 100 ≤ now
  end.
Proof. apply (eventually_ends (λ w, (w, 35 <=? w)) 100 10 0 12); [lia|simpl; lia|vm_compute; lia]. Defined.

Lemma start_postgres_ends_witness : ∃ r,
  (StartPostgres 152 (λ w, (w, inr tt)) (λ _ w, (w, inr "localhost")) (λ _ w, (w, inr "5432")) (λ h p, h +:+ ":" +:+ p)
     (λ dsn w, (w + 1, inl (A:=error) (B:=unit) context_Canceled)) 0).2 = Some r.
Proof.
  destruct (start_postgres_ends (λ w, (w, inr (A:=error) tt)) (λ _ w, (w, inr "localhost")) (λ _ w, (w, inr "5432")) (λ h p, h +:+ ":" +:+ p)
     (λ dsn w, (w + 1, inl (A:=error) (B:=unit) context_Canceled)) 0) as (r & Hr & _).
  - simpl. lia.
  - by exists r.
Defined.

Lemma retry_deadline_witness :
  (Retry.Do tt (ctx_Err (Some (50, context_Canceled))) (λ now, (now + 20, (tt, Some (ErrFmt "busy" []))))
     (contextSleep (Some (50, context_Canceled)) true)
     [λ o, Retry.Options 1000 (Retry.backoff o) (Retry.onRetry o) (Retry.sleep o);
      Retry.WithBackoff (λ a now, (now, 1000))] 0).1 ≤ 70.
Proof.
  apply (retry_deadline tt (Some (50, context_Canceled)) true (λ now, (now + 20, (tt, Some (ErrFmt "busy" [])))) 20 (λ _, 1000)
    ltac:(simpl; lia) 1000 _ 0 50 context_Canceled); reflexivity.
Defined.

End Timers.
