(* ===== verification/Saga.v ===== *)
(** * pkg/saga: ordered execution with reverse compensation

    A saga executes its steps in order and, when one fails, compensates the
    completed ones in reverse.  As in Retry, user code acts on a world [W];
    [sstep] and [event] give a recording world, in which the theorem states
    the whole run as an equation.  Log lines are not modelled. *)

From S2P Require Import Prelude GoLang.
Open Scope Z_scope.

Module Saga.

(** [Step]: [Compensate] may be nil. *)
Record Step (W : Type) := MkStep {
  Name : string;
  Execute : W → W * option error;
  Compensate : option (W → W * option error)
}.
Arguments MkStep {W}.
Arguments Name {W}.
Arguments Execute {W}.
Arguments Compensate {W}.

(** The hook of [WithOnStep]: step name, phase and error. *)
Record Saga (W : Type) := MkSaga {
  name : string;
  steps : list (Step W);
  onStep : option (string → string → option error → W → W)
}.
Arguments MkSaga {W}.
Arguments name {W}.
Arguments steps {W}.
Arguments onStep {W}.

Section Run.
Context {W : Type}.

Definition New (n : string) (ss : list (Step W)) : Saga W := MkSaga n ss None.

Definition WithOnStep (f : string → string → option error → W → W) (s : Saga W) : Saga W :=
  MkSaga (name s) (steps s) (Some f).

Definition notify (s : Saga W) (n phase : string) (err : option error) (w : W) : W :=
  match onStep s with Some f => f n phase err w | None => w end.

(** The loop of [compensate]: [i] runs from [len(completed)-1] down to 0, here
    as the number of elements left; [errs] is the slice built so far. *)
Fixpoint compensate_loop (s : Saga W) (completed : list nat) (left : nat)
    (errs : list (string * error)) (w : W) : W * list (string * error) :=
  match left with
  | O => (w, errs)
  | S i =>
      match completed !! i ≫= (steps s !!.) with
      | None => (w, errs)
      | Some step =>
          match Compensate step with
          | None => compensate_loop s completed i errs w
          | Some comp =>
              let '(w, err) := comp w in
              let w := notify s (Name step) "compensate" err w in
              match err with
              | Some e => compensate_loop s completed i (errs ++ [(Name step, e)]) w
              | None => compensate_loop s completed i errs w
              end
          end
      end
  end.

Definition compensate (s : Saga W) (completed : list nat) (w : W) : W * list (string * error) :=
  compensate_loop s completed (length completed) [] w.

(** The loop of [Run] from index [i] on. *)
Fixpoint Run_loop (s : Saga W) (i : nat) (todo : list (Step W)) (completed : list nat) (w : W)
  : W * option error :=
  match todo with
  | [] => (w, None)
  | step :: todo =>
      let '(w, err) := Execute step w in
      let w := notify s (Name step) "execute" err w in
      match err with
      | Some e =>
          let '(w, compErrs) := compensate s completed w in
          (w, Some (ErrSaga (name s) (Name step) e compErrs))
      | None => Run_loop s (S i) todo (completed ++ [i]) w
      end
  end.

Definition Run (s : Saga W) (w : W) : W * option error := Run_loop s 0 (steps s) [] w.

End Run.

(** [HasCompensationErrors] of the error type. *)
Definition HasCompensationErrors (e : error) : bool :=
  match e with ErrSaga _ _ _ ces => bool_decide (ces ≠ []) | _ => false end.

(** The text of the error: [%q] is [quote], [%v] of an error is [text]. *)
Section ErrorText.
Context (quote : string → string) (text : error → string).

Fixpoint error_loop (i : Z) (ces : list (string * error)) (b : string) : string :=
  match ces with
  | [] => b
  | (step, err) :: ces =>
      let b := if 0 <? i then b +:+ ", " else b in
      error_loop (i + 1) ces (b +:+ step +:+ ": " +:+ text err)
  end.

Definition Error_text (sagaName failedStep : string) (cause : error) (ces : list (string * error)) : string :=
  let b := "saga " +:+ quote sagaName +:+ " failed at step " +:+ quote failedStep +:+ ": " +:+ text cause in
  if 0 <? Z.of_nat (length ces) then error_loop 0 ces (b +:+ "; compensation errors: ") else b.

Definition item (ce : string * error) : string := ce.1 +:+ ": " +:+ text ce.2.

Lemma error_loop_concat i ces b : 0 < i →
  error_loop i ces b = b +:+ foldr (λ ce s, ", " +:+ item ce +:+ s) "" ces.
Proof.
  revert i b. induction ces as [|[st e] ces IH]; intros i b Hi; simpl; [by rewrite append_nil_r|].
  rewrite (proj2 (Z.ltb_lt 0 i) Hi), IH by lia. unfold item; simpl. by rewrite !append_assoc.
Qed.

Lemma concat_cons sep x (l : list string) :
  String.concat sep (x :: l) = x +:+ foldr (λ y s, sep +:+ y +:+ s) "" l.
Proof.
  revert x. induction l as [|y l IH]; intros x; [symmetry; apply append_nil_r|].
  change (String.concat sep (x :: y :: l)) with (x +:+ sep +:+ String.concat sep (y :: l)). by rewrite IH.
Qed.

(** The error names the saga, the step and the cause, and lists the failed
    compensations, if any, separated by commas. *)
Theorem error_text_spec sagaName failedStep cause ces :
  Error_text sagaName failedStep cause ces =
  "saga " +:+ quote sagaName +:+ " failed at step " +:+ quote failedStep +:+ ": " +:+ text cause +:+
  (if bool_decide (ces = []) then "" else "; compensation errors: " +:+ String.concat ", " (item <$> ces)).
Proof.
  unfold Error_text. destruct ces as [|[st e] ces]; [by rewrite append_nil_r|].
  cbn [length error_loop fmap list_fmap]. rewrite bool_decide_eq_false_2 by done.
  rewrite error_loop_concat by lia. rewrite concat_cons, foldr_fmap. unfold item at 2. simpl.
  by rewrite !append_assoc.
Qed.

End ErrorText.

(** ** A recording world

    A scripted step: its name, the error [Execute] returns and, when it has a
    compensation, the error that returns. *)
Record sstep := SStep { s_name : string; s_exec : option error; s_comp : option (option error) }.

Inductive event :=
| EExec (n : string) (r : option error)
| EComp (n : string) (r : option error)
| ENotify (n phase : string) (r : option error).

Definition to_step (x : sstep) : Step (list event) :=
  MkStep (s_name x) (λ tr, (tr ++ [EExec (s_name x) (s_exec x)], s_exec x))
    ((λ r tr, (tr ++ [EComp (s_name x) r], r)) <$> s_comp x).

Definition s_saga (n : string) (xs : list sstep) : Saga (list event) :=
  WithOnStep (λ n p r tr, tr ++ [ENotify n p r]) (New n (to_step <$> xs)).

(** The events of the forward and of the compensation phase of one step. *)
Definition exec_events (x : sstep) : list event :=
  [EExec (s_name x) (s_exec x); ENotify (s_name x) "execute" (s_exec x)].
Definition comp_events (x : sstep) : list event :=
  match s_comp x with
  | Some r => [EComp (s_name x) r; ENotify (s_name x) "compensate" r]
  | None => []
  end.
Definition comp_error (x : sstep) : option (string * error) :=
  match s_comp x with Some (Some e) => Some (s_name x, e) | _ => None end.

(** ** Lemmas *)

Lemma compensate_loop_spec n xs m k errs tr :
  (k ≤ m ≤ length xs)%nat →
  compensate_loop (s_saga n xs) (seq 0 m) k errs tr =
  (tr ++ (rev (take k xs) ≫= comp_events), errs ++ omap comp_error (rev (take k xs))).
Proof.
  revert errs tr. induction k as [|k IH]; intros errs tr Hk; simpl.
  { by rewrite !app_nil_r. }
  destruct (lookup_lt_is_Some_2 xs k) as [x Hx]; [lia|].
  rewrite (take_S_r _ _ x) by done. rewrite rev_app_distr. simpl.
  rewrite lookup_seq_lt by lia. simpl. rewrite list_lookup_fmap, Hx. simpl.
  unfold comp_events at 1, comp_error at 1. destruct (s_comp x) as [[e|]|]; simpl; rewrite IH by lia; simpl;
    unfold notify; simpl; rewrite <-?app_assoc; done.
Qed.

Lemma Run_loop_spec n done_ todo : ∀ tr,
  Forall (λ x, s_exec x = None) done_ →
  Run_loop (s_saga n (done_ ++ todo)) (length done_) (to_step <$> todo) (seq 0 (length done_)) tr =
  match list_find (λ x, s_exec x ≠ None) todo with
  | None => (tr ++ (todo ≫= exec_events), None)
  | Some (i, x) =>
      let completed := done_ ++ take i todo in
      (tr ++ (take i todo ≫= exec_events) ++ exec_events x ++ (rev completed ≫= comp_events),
       (λ e, ErrSaga n (s_name x) e (omap comp_error (rev completed))) <$> s_exec x)
  end.
Proof.
  revert done_. induction todo as [|x todo IH]; intros done_ tr Hd; simpl; [by rewrite app_nil_r|].
  unfold notify; simpl. destruct (s_exec x) as [e|] eqn:He; simpl.
  - unfold compensate. rewrite length_seq.
    rewrite compensate_loop_spec by (rewrite length_app; simpl; lia). simpl.
    rewrite take_app_length, app_nil_r, He. simpl. by rewrite <-!app_assoc.
  - specialize (IH (done_ ++ [x]) ((tr ++ [EExec (s_name x) None]) ++ [ENotify (s_name x) "execute" None])).
    rewrite <-app_assoc, length_app, Nat.add_1_r, seq_S in IH. simpl in IH.
    change (list_fmap sstep (Step (list event)) to_step todo) with (to_step <$> todo). rewrite IH.
    2:{ apply Forall_app. split; [done|by repeat constructor]. }
    destruct (list_find _ todo) as [[i y]|]; simpl; rewrite <-?app_assoc; simpl; [|done].
    by rewrite He.
Qed.

(** ** Properties *)

(** C17: a saga of any steps, with any results. If every [Execute] succeeds,
    all steps run once in order and [Run] returns nil. Otherwise, with [x]
    the first step that fails: exactly the steps up to and including [x]
    are executed, then the compensations of the steps before [x] run in
    reverse order (steps without one are skipped, a failing one does not
    stop the rest), each followed by its notification, and the error names
    [x], its cause and exactly the compensation failures in that order. *)
Theorem saga_run_spec n xs :
  Run (s_saga n xs) [] =
  match list_find (λ x, s_exec x ≠ None) xs with
  | None => (xs ≫= exec_events, None)
  | Some (i, x) =>
      ((take i xs ≫= exec_events) ++ exec_events x ++ (rev (take i xs) ≫= comp_events),
       (λ e, ErrSaga n (s_name x) e (omap comp_error (rev (take i xs)))) <$> s_exec x)
  end.
Proof. apply (Run_loop_spec n [] xs []). constructor. Qed.

End Saga.
