(* ===== verification/Errors.v ===== *)
(** * Error values: the methods Unwrap, Is and Error of the error structs

    pkg/retry and pkg/saga declare error structs with [Unwrap] methods, and the saga's error
    has an [Is] method too.  GoLang.v gives what [errors.Is] returns as a search of the tree
    of wrapped errors; here [errors_is] is the algorithm of the standard library, which calls
    the [Is] methods on its way and counts its comparisons.  [Error] is the text of an error,
    which the method of [StopError] may fail to give. *)

From S2P Require Import Prelude GoLang Retry Saga.

Module Errors.

(** ** Unwrap *)

(** [Unwrap] of [retry.ErrMaxAttempts], [retry.StopError] and [saga.Error]. *)
Definition MaxAttempts_Unwrap (e : error) : option error := match e with ErrMaxAttempts _ last => last | _ => None end.
Definition Stop_Unwrap (e : error) : option error := match e with ErrStop inner => inner | _ => None end.
Definition Saga_Unwrap (e : error) : option error := match e with ErrSaga _ _ c _ => Some c | _ => None end.

(** Whichever [Unwrap] method the error has. *)
Definition Unwrap (e : error) : list error :=
  match e with
  | ErrNew _ _ | ErrFmt _ _ | ErrStatus _ _ => []
  | ErrWrap _ _ c => [c]
  | ErrJoin es => es
  | ErrMaxAttempts _ _ => option_list (MaxAttempts_Unwrap e)
  | ErrStop _ => option_list (Stop_Unwrap e)
  | ErrSaga _ _ _ _ => option_list (Saga_Unwrap e)
  end.

(** Induction along [Unwrap]. *)
Lemma unwrap_ind (P : error → Prop) : (∀ e, Forall P (Unwrap e) → P e) → ∀ e, P e.
Proof.
  intros H. fix IH 1. intros e. apply H.
  destruct e as [i t|f a|f a c|es|n [c|]|[c|]|s st c ces|k t]; simpl; repeat constructor; try apply IH.
  induction es as [|e es IHes]; constructor; [apply IH|apply IHes].
Qed.

Lemma error_tree_unwrap e : error_tree e = e :: (Unwrap e ≫= error_tree).
Proof.
  destruct e as [i t|f a|f a c|es|n [c|]|[c|]|s st c ces|k t]; simpl; by rewrite ?app_nil_r.
Qed.

(** ** errors.Is *)

(** A search: how many comparisons it made, and whether it found the target; the second
    runs only when the first found nothing. *)
Definition search : Type := nat * bool.
Definition or_else (a b : search) : search := if a.2 then a else ((a.1 + b.1)%nat, b.2).
Definition missed : search := (0%nat, false).

(** The comparison with the target, the [Is] method if there is one, then the wrapped errors. *)
Fixpoint errors_is (id : positive) (e : error) : search :=
  let Saga_Is c := errors_is id c in
  or_else (1%nat, is_sentinel id e)
    match e with
    | ErrNew _ _ | ErrFmt _ _ | ErrStatus _ _ => missed
    | ErrWrap _ _ c => errors_is id c
    | ErrJoin es => foldr or_else missed (map (errors_is id) es)
    | ErrMaxAttempts _ last => match last with Some c => errors_is id c | None => missed end
    | ErrStop inner => match inner with Some c => errors_is id c | None => missed end
    | ErrSaga _ _ c _ => or_else (Saga_Is c) (errors_is id c)
    end.

(** [Is] of [saga.Error]. *)
Definition Is (id : positive) (e : error) : search :=
  match e with ErrSaga _ _ c _ => errors_is id c | _ => missed end.

Lemma or_else_missed a : or_else a missed = a.
Proof. destruct a as [n []]; [done|]. unfold or_else. simpl. f_equal. apply Nat.add_0_r. Qed.

Lemma or_else_found a b : (or_else a b).2 = a.2 || b.2.
Proof. by destruct a as [n []]. Qed.

Lemma errors_is_unwrap id e :
  errors_is id e = or_else (1%nat, is_sentinel id e) (or_else (Is id e) (foldr or_else missed (errors_is id <$> Unwrap e))).
Proof.
  destruct e as [i t|f a|f a c|es|n [c|]|[c|]|s st c ces|k t]; simpl; rewrite ?or_else_missed; try done.
  all: by destruct (foldr _ _ _).
Qed.

Lemma search_list id es : (∀ e, e ∈ es → (errors_is id e).2 = existsb (is_sentinel id) (error_tree e)) →
  (foldr or_else missed (errors_is id <$> es)).2 = existsb (is_sentinel id) (es ≫= error_tree).
Proof.
  induction es as [|e es IH]; intros He; csimpl; [done|]. rewrite or_else_found, existsb_app, He, IH by set_solver. done.
Qed.

(** The [Is] method of the saga's error changes no answer: [errors.Is] with it finds exactly
    what a search of the wrapped errors finds. *)
Theorem errors_is_spec id e : (errors_is id e).2 = errors_Is (Some e) id.
Proof.
  unfold errors_Is. induction e as [e IH] using unwrap_ind. rewrite Forall_forall in IH.
  rewrite errors_is_unwrap, error_tree_unwrap, !or_else_found, search_list by exact IH. simpl.
  destruct (is_sentinel id e); [done|]. destruct e as [| | | | | |s st c ces|]; try done. simpl in *.
  rewrite (IH c) by set_solver. rewrite app_nil_r. apply orb_diag.
Qed.

(** A saga run as a step of another one, [n] deep, whose innermost cause is [c]. *)
Definition nest (sagas : list (string * string)) (c : error) : error :=
  foldr (λ '(name, step) e, ErrSaga name step e []) c sagas.

(** But each saga around the cause doubles the work: when the target is not there, the cause
    is searched once by [Is] and once more by [Unwrap], at every level. *)
Theorem nested_search id sagas c : errors_Is (Some c) id = false →
  ((errors_is id (nest sagas c)).1 + 1 = 2 ^ length sagas * ((errors_is id c).1 + 1))%nat.
Proof.
  intros Hc. rewrite <-errors_is_spec in Hc.
  assert (H : ((errors_is id (nest sagas c)).1 + 1 = 2 ^ length sagas * ((errors_is id c).1 + 1))%nat ∧
              (errors_is id (nest sagas c)).2 = false); [|by destruct H].
  induction sagas as [|[s st] sagas [IH1 IH2]]; cbn [nest foldr length Nat.pow]; [split; [lia|done]|].
  fold (nest sagas c). rewrite errors_is_unwrap. simpl. rewrite or_else_missed.
  unfold or_else. rewrite IH2. simpl. split; [lia|done].
Qed.

(** ** Error *)

Section Text.
(** What the fmt and strconv packages render: a format with its arguments, a format with the text of
    the wrapped error, an integer, a quoted string; and the text of a gRPC status. *)
Context (Sprintf : string → list string → string) (Errorf : string → list string → string → string)
  (Itoa : Z → string) (quote : string → string) (status : Z → string → string).

Definition nil_dereference : string := "runtime error: invalid memory address or nil pointer dereference".

(** [%v] of an error: fmt recovers when its method panics and prints the panic. *)
Definition verb (o : outcome string) : string :=
  match o with Ret s => s | Panic m => "%!v(PANIC=Error method: " +:+ m +:+ ")" end.

(** [errors.Join]: the texts, one per line. *)
Fixpoint lines (os : list (outcome string)) : outcome string :=
  match os with
  | [] => Ret ""
  | [o] => o
  | Panic m :: _ => Panic m
  | Ret s :: os => match lines os with Ret t => Ret (s +:+ String (Ascii.ascii_of_nat 10) t) | Panic m => Panic m end
  end.

Fixpoint Error (e : error) : outcome string :=
  match e with
  | ErrNew _ text => Ret text
  | ErrFmt format args => Ret (Sprintf format args)
  | ErrWrap format args c => Ret (Errorf format args (verb (Error c)))
  | ErrJoin es => lines (map Error es)
  | ErrMaxAttempts n last =>
      Ret ("retry: exhausted after " +:+ Itoa n +:+ " attempts: " +:+
           match last with Some c => verb (Error c) | None => "<nil>" end)
  | ErrStop inner => match inner with Some c => Error c | None => Panic nil_dereference end
  | ErrSaga name step c ces => Ret (Saga.Error_text quote (λ e, verb (Error e)) name step c ces)
  | ErrStatus code text => Ret (status code text)
  end.

(** An error whose text is that of a [Stop(nil)]. *)
Fixpoint hollow (e : error) : bool :=
  match e with
  | ErrStop inner => match inner with Some c => hollow c | None => true end
  | ErrJoin es => existsb hollow es
  | _ => false
  end.

Lemma lines_panic os : (∃ m, lines os = Panic m) ↔ ∃ m, Panic m ∈ os.
Proof.
  induction os as [|[s|m] [|o os] IH].
  - split; [by intros [m Hm]|set_solver].
  - split; [by intros [m Hm]|]. intros [m Hm]. by apply list_elem_of_singleton in Hm.
  - change (lines (Ret s :: o :: os)) with
      (match lines (o :: os) with Ret t => Ret (s +:+ String (Ascii.ascii_of_nat 10) t) | Panic m => Panic m end).
    transitivity (∃ m, lines (o :: os) = Panic m).
    + destruct (lines (o :: os)); [by split; intros []|]. by split; intros [? [= <-]]; eexists.
    + rewrite IH. split; intros [m Hm]; exists m; [by right|]. by apply elem_of_cons in Hm as [|].
  - split; [|by eexists]. intros [m' [= <-]]. exists m. by left.
  - split; [|by eexists]. intros [m' [= <-]]. exists m. by left.
Qed.

(** Every error has a text, except those that come down to a [Stop(nil)], whose [Error] method
    dereferences the nil error it holds.  A saga error, an exhausted retry or a [%w] around such
    an error still has one, as fmt recovers from the panic. *)
Theorem error_text_panics e : (∃ m, Error e = Panic m) ↔ hollow e = true.
Proof.
  induction e as [e IH] using unwrap_ind.
  destruct e as [i t|f a|f a c|es|n l|[c|]|s st c ces|k t]; simpl in *; try (by split; [intros []|]).
  - rewrite lines_panic, existsb_exists. rewrite Forall_forall in IH.
    assert (Hm : ∀ m, Panic m ∈ map Error es ↔ ∃ e, Error e = Panic m ∧ In e es) by (intros; by rewrite list_elem_of_In, in_map_iff).
    split.
    + intros (m & (e & He & Hin)%Hm). exists e. split; [done|]. apply IH; [by apply list_elem_of_In|by eexists].
    + intros (e & Hin & He). apply IH in He as [m He]; [|by apply list_elem_of_In]. exists m. apply Hm. by exists e.
  - by inversion IH.
  - by split; [|eexists].
Qed.

End Text.

(** ** Witnesses *)

Lemma nested_search_witness :
  (errors_is 1 (nest [("order", "pay"); ("pay", "charge"); ("charge", "card")] (ErrNew 2 "declined"))).1 = 15%nat.
Proof.
  pose proof (nested_search 1 [("order", "pay"); ("pay", "charge"); ("charge", "card")] (ErrNew 2 "declined") eq_refl) as H.
  vm_compute in H |- *. congruence.
Defined.

End Errors.
