(* ===== verification/Graceful.v ===== *)
(** * pkg/graceful: shutdown hooks in reverse registration order

    Hooks act on a world [W]; the deadline context they receive is part of it.
    [hook] and [shook] give a recording world. *)

From S2P Require Import Prelude GoLang.
Open Scope Z_scope.

Module Graceful.

Section Group.
Context {W : Type}.

Definition ShutdownFunc := W → W * option error.

Record registration := Registration { name : string; fn : ShutdownFunc }.

Record Group := MkGroup { timeout : Duration; hooks : list registration }.

Definition Option := Group → Group.

Definition WithTimeout (d : Duration) : Option := λ g, MkGroup d (hooks g).

Definition New (opts : list Option) : Group :=
  fold_left (λ g o, o g) opts (MkGroup (30 * Second) []).

Definition Register (n : string) (f : ShutdownFunc) (g : Group) : Group :=
  MkGroup (timeout g) (hooks g ++ [Registration n f]).

(** The loop of [Shutdown] with [left] hooks still to run. *)
Fixpoint Shutdown_loop (hs : list registration) (left : nat) (errs : list error) (w : W)
  : W * list error :=
  match left with
  | O => (w, errs)
  | S i =>
      match hs !! i with
      | None => (w, errs)
      | Some r =>
          let '(w, err) := fn r w in
          match err with
          | Some e => Shutdown_loop hs i (errs ++ [ErrWrap "graceful: %s: %w" [name r] e]) w
          | None => Shutdown_loop hs i errs w
          end
      end
  end.

(** [with_timeout] derives the world in which the hooks see the deadline. *)
Definition Shutdown (with_timeout : Duration → W → W) (g : Group) (w : W) : W * option error :=
  let w := with_timeout (timeout g) w in
  let '(w, errs) := Shutdown_loop (hooks g) (length (hooks g)) [] w in
  (w, errors_Join errs).

(** [ListenAndShutdown]: the select it blocks in, then [Shutdown] in a context of
    its own, whichever case was taken. *)
Inductive wake := CtxDone | Signal.

Definition ListenAndShutdown (with_timeout : Duration → W → W) (ev : wake) (g : Group) (w : W) : W * option error :=
  match ev with
  | CtxDone | Signal => Shutdown with_timeout g w
  end.

End Group.
Arguments registration : clear implicits.
Arguments Group : clear implicits.
Arguments ShutdownFunc : clear implicits.

(** ** A recording world: the deadline set and the hooks run, with results *)

Inductive event := EDeadline (d : Duration) | EHook (n : string) (r : option error).

Definition record_timeout (d : Duration) (tr : list event) : list event := tr ++ [EDeadline d].
Definition hook (n : string) (r : option error) : ShutdownFunc (list event) :=
  λ tr, (tr ++ [EHook n r], r).

Definition register_all (hs : list (string * option error)) (g : Group (list event)) : Group (list event) :=
  fold_left (λ g h, Register h.1 (hook h.1 h.2) g) hs g.

Definition hook_error (h : string * option error) : option error :=
  ErrWrap "graceful: %s: %w" [h.1] <$> h.2.

(** ** Lemmas *)

Lemma in_rev_elem {A} (l : list A) x : x ∈ l ↔ x ∈ rev l.
Proof. rewrite !list_elem_of_In. apply in_rev. Qed.

Lemma register_all_hooks hs g :
  register_all hs g = MkGroup (timeout g) (hooks g ++ ((λ h, Registration h.1 (hook h.1 h.2)) <$> hs)).
Proof.
  revert g. induction hs as [|h hs IH]; intros g; simpl; [by rewrite app_nil_r; destruct g|].
  unfold register_all in IH |- *. simpl. rewrite IH. simpl. by rewrite <-app_assoc.
Qed.

Lemma Shutdown_loop_spec (hs : list (string * option error)) k errs tr :
  (k ≤ length hs)%nat →
  Shutdown_loop ((λ h, Registration h.1 (hook h.1 h.2)) <$> hs) k errs tr =
  (tr ++ ((λ h, EHook h.1 h.2) <$> rev (take k hs)), errs ++ omap hook_error (rev (take k hs))).
Proof.
  revert errs tr. induction k as [|k IH]; intros errs tr Hk; simpl; [by rewrite !app_nil_r|].
  destruct (lookup_lt_is_Some_2 hs k) as [h Hh]; [lia|].
  rewrite list_lookup_fmap, Hh, (take_S_r _ _ h), rev_app_distr by done. simpl.
  unfold hook_error at 1. destruct (h.2); simpl; rewrite IH by lia; by rewrite <-?app_assoc.
Qed.

(** ** Properties *)

(** after registering any hooks, [Shutdown] sets the configured deadline,
    runs every hook exactly once in reverse registration order whatever the
    others return, and returns the join of the failures in that order, each
    wrapped with its name; it returns nil exactly when every hook does. *)
Theorem shutdown_spec d hs :
  Shutdown record_timeout (register_all hs (New [WithTimeout d])) [] =
  (EDeadline d :: ((λ h, EHook h.1 h.2) <$> rev hs), errors_Join (omap hook_error (rev hs))) ∧
  (errors_Join (omap hook_error (rev hs)) = None ↔ Forall (λ h, h.2 = None) hs).
Proof.
  split.
  - unfold Shutdown. rewrite register_all_hooks. simpl. rewrite Shutdown_loop_spec by by rewrite length_fmap.
    by rewrite length_fmap, take_ge.
  - rewrite Forall_forall. setoid_rewrite in_rev_elem. rewrite <-Forall_forall.
    induction (rev hs) as [|[n [e|]] l IH]; simpl; rewrite ?Forall_cons; naive_solver.
Qed.

End Graceful.
