(* ===== verification/Health.v ===== *)
(** * pkg/health: concurrent health checks

    [Check] starts one goroutine per registered checker; each writes its own
    slot of the results slice.  The model runs the goroutines' writes in an
    arbitrary order [order] (the order in which they finish).  [err_text] is
    [err.Error()], [outcome_of] gives the result of a checker's [Check]. *)

From S2P Require Import Prelude GoLang.
Open Scope Z_scope.

Module Health.

Record Status := MkStatus { Name : string; Healthy : bool; Error_ : string }.

Record Report := MkReport { R_Healthy : bool; Checks : list Status }.

Section Group.
Context {Checker : Type} (outcome_of : Checker → option error) (err_text : error → string).

Record registration := Registration { name : string; checker : Checker }.

Record Group := MkGroup { checks : list registration; timeout : Duration }.

Definition Option := Group → Group.

Definition WithTimeout (d : Duration) : Option := λ g, MkGroup (checks g) d.

Definition New (opts : list Option) : Group :=
  fold_left (λ g o, o g) opts (MkGroup [] (5 * Second)).

Definition Register (n : string) (c : Checker) (g : Group) : Group :=
  MkGroup (checks g ++ [Registration n c]) (timeout g).

(** The status one goroutine computes. *)
Definition run_check (r : registration) : Status :=
  match outcome_of (checker r) with
  | Some e => MkStatus (name r) false (err_text e)
  | None => MkStatus (name r) true ""
  end.

(** The zero value of the [result] struct. *)
Definition zero_result : nat * Status := (0%nat, MkStatus "" false "").

(** Goroutine [idx] finishes: it writes [results[idx]]. *)
Definition finish (cs : list registration) (results : list (nat * Status)) (idx : nat)
  : list (nat * Status) :=
  match cs !! idx with
  | Some r => <[idx := (idx, run_check r)]> results
  | None => results
  end.

(** The final loop: [report.Checks[r.idx] = r.status]. *)
Definition collect (rep : Report) (r : nat * Status) : Report :=
  MkReport (if Healthy r.2 then R_Healthy rep else false) (<[r.1 := r.2]> (Checks rep)).

Definition Check (order : list nat) (g : Group) : Report :=
  let cs := checks g in
  let results := fold_left (finish cs) order (replicate (length cs) zero_result) in
  fold_left collect results (MkReport true (replicate (length cs) zero_result.2)).

(** The HTTP handlers: the status code sent with the report. *)
Definition handler (order : list nat) (g : Group) : Z * Report :=
  let report := Check order g in
  ((if R_Healthy report then 200 else 503), report).

Definition ReadyHandler (order : list nat) (g : Group) : Z * Report := handler order g.
Definition LiveHandler (order : list nat) (g : Group) : Z * Report := handler order (New []).

(** ** Lemmas *)

Lemma finish_length cs rs i : length (finish cs rs i) = length rs.
Proof. unfold finish. case_match; [by rewrite length_insert|done]. Qed.

Lemma fold_finish_length cs order rs : length (fold_left (finish cs) order rs) = length rs.
Proof. revert rs. induction order as [|i order IH]; intros rs; simpl; [done|]. by rewrite IH, finish_length. Qed.

(** A slot holds its check's status once its goroutine has finished. *)
Lemma fold_finish_lookup cs order : ∀ rs i r,
  length rs = length cs → cs !! i = Some r →
  fold_left (finish cs) order rs !! i =
    if bool_decide (i ∈ order) then Some (i, run_check r) else rs !! i.
Proof.
  induction order as [|j order IH]; intros rs i r Hlen Hi; simpl; [done|].
  rewrite (IH _ i r) by by rewrite ?finish_length. unfold finish.
  pose proof (lookup_lt_Some _ _ _ Hi) as Hlt.
  destruct (decide (i = j)) as [->|Hne].
  - rewrite Hi. rewrite (bool_decide_eq_true_2 (j ∈ j :: order)) by by left.
    case_bool_decide; [done|]. apply list_lookup_insert_eq. lia.
  - assert (Hiff : bool_decide (i ∈ j :: order) = bool_decide (i ∈ order)).
    { apply bool_decide_ext. rewrite elem_of_cons. naive_solver. }
    rewrite Hiff. destruct (bool_decide (i ∈ order)); [done|]. case_match; [by apply list_lookup_insert_ne|done].
Qed.

Lemma fold_finish_all cs order :
  order ≡ₚ seq 0 (length cs) →
  fold_left (finish cs) order (replicate (length cs) zero_result) = imap (λ i r, (i, run_check r)) cs.
Proof.
  intros Hp. apply list_eq. intros i. rewrite list_lookup_imap.
  destruct (cs !! i) as [r|] eqn:Hi; simpl.
  - rewrite (fold_finish_lookup cs order _ i r) by (done || by rewrite length_replicate).
    rewrite bool_decide_eq_true_2; [done|]. rewrite Hp, elem_of_seq.
    apply lookup_lt_Some in Hi. lia.
  - apply lookup_ge_None. rewrite fold_finish_length, length_replicate. by apply lookup_ge_None in Hi.
Qed.

Lemma collect_all cs : ∀ b pre,
  fold_left collect (imap (λ i r, ((length pre + i)%nat, run_check r)) cs)
    (MkReport b (pre ++ replicate (length cs) zero_result.2)) =
  MkReport (b && forallb (λ r, Healthy (run_check r)) cs) (pre ++ (run_check <$> cs)).
Proof.
  induction cs as [|r cs IH]; intros b pre; simpl; [by rewrite andb_true_r|].
  unfold collect at 2. cbn [fst snd R_Healthy Checks]. rewrite Nat.add_0_r, insert_app_r_alt by lia.
  rewrite Nat.sub_diag. simpl.
  specialize (IH (if Healthy (run_check r) then b else false) (pre ++ [run_check r])).
  rewrite length_app, <-app_assoc in IH. simpl in IH.
  rewrite (imap_ext _ (λ i r, ((length pre + 1 + i)%nat, run_check r))) by (intros; simpl; f_equal; lia).
  rewrite IH, <-app_assoc. f_equal. by destruct (Healthy (run_check r)), b.
Qed.

(** ** Properties *)

(** whatever the order in which the checkers finish, the report lists one
    status per registered check in registration order, with the check's own
    name and result, and is healthy exactly when every check returned nil;
    the readiness handler answers 200 in that case and 503 otherwise. *)
Theorem health_report_spec order g :
  order ≡ₚ seq 0 (length (checks g)) →
  Check order g = MkReport (forallb (λ r, bool_decide (outcome_of (checker r) = None)) (checks g))
                    (run_check <$> checks g) ∧
  ((ReadyHandler order g).1 = 200 ↔ Forall (λ r, outcome_of (checker r) = None) (checks g)) ∧
  ((ReadyHandler order g).1 = 503 ↔ ¬ Forall (λ r, outcome_of (checker r) = None) (checks g)).
Proof.
  intros Hp.
  assert (HC : Check order g =
    MkReport (forallb (λ r, bool_decide (outcome_of (checker r) = None)) (checks g)) (run_check <$> checks g)).
  { unfold Check. rewrite fold_finish_all by done.
    etrans; [apply (collect_all (checks g) true [])|]. simpl. f_equal. clear Hp. induction (checks g) as [|r cs IH]; simpl; [done|]. rewrite IH. f_equal.
    unfold run_check. destruct (outcome_of (checker r)); by case_bool_decide. }
  split; [done|]. unfold ReadyHandler, handler. rewrite HC. cbn [R_Healthy fst].
  assert (Hiff : forallb (λ r, bool_decide (outcome_of (checker r) = None)) (checks g) = true ↔
                 Forall (λ r, outcome_of (checker r) = None) (checks g)).
  { rewrite <-Is_true_true, forallb_True. apply Forall_iff. intros. by rewrite bool_decide_spec. }
  destruct (forallb _ _); naive_solver.
Qed.

End Group.

Lemma health_report_spec_witness :
  (ReadyHandler id (λ _, "boom") [1; 0]%nat
     (Register "b" (Some context_Canceled) (Register "a" None (New [])))).1 = 503.
Proof.
  apply (health_report_spec id (λ _, "boom") [1; 0]%nat
           (Register "b" (Some context_Canceled) (Register "a" None (New [])))).
  - simpl. constructor.
  - intros HF. repeat (apply Forall_cons in HF as [? HF]). done.
Defined.

End Health.
