(* ===== verification/Pool.v ===== *)
(** * pkg/pool: the bounded worker pool, with all its interleavings

    The pool is a transition system whose steps are the atomic actions of the
    code: one atomic counter update, one channel operation, one call or return
    of user code.  [shared] holds the fields of the [Pool] struct, the contents
    of the [jobs] channel, two ghost histories ([sent], [finished]) and the calls of [onError] ([reported]); a
    worker goroutine is at one of the program points of [run], a submitter at
    one of those of [Submit]/[TrySubmit], a [Stop] call at one of its own.  The
    results of the worker function and the instants at which contexts are
    cancelled are arbitrary. *)

From S2P Require Import Prelude GoLang.
Open Scope Z_scope.

Module Pool.

Definition ErrPoolStopped : error := ErrNew 20 "pool: pool is stopped".
Definition ErrQueueFull : error := ErrNew 21 "pool: queue is full".

Record Stats := MkStats {
  Submitted : Z; Completed : Z; Errors : Z; InFlight : Z; QueueDepth : nat
}.

Section Pool.
Context {T : Type}.

(** [onError] tells whether a callback is registered; its calls are recorded
    in [reported] below. *)
Record options := Options { queueSize : Z; onError : bool }.

Definition Option := options → options.
Definition WithQueueSize (n : Z) : Option := λ o, Options n (onError o).
Definition WithOnError : Option := λ o, Options (queueSize o) true.

(** The part of a pool fixed by [New]. *)
Record config := Config { workers : Z; opts : options }.

(** [make(chan T, n)] panics for a negative [n]. *)
Definition New (n : Z) (os : list Option) : outcome config :=
  if n <? 1 then Panic "pool: workers must be >= 1"
  else
    let cfg := fold_left (λ cfg o, o cfg) os (Options n false) in
    if queueSize cfg <? 0 then Panic "makechan: size out of range" else Ret (Config n cfg).

Record shared := Shared {
  jobs : list T;
  closed : bool;
  stopped : bool;
  panicked : bool;
  submitted : Z;
  completed : Z;
  errors : Z;
  inFlight : Z;
  sent : list T;
  finished : list (T * option error);
  reported : list (T * error)
}.

Definition init : shared := Shared [] false false false 0 0 0 0 [] [] [].

(** Program points of a worker in [run]: at the [range] receive; after the
    receive; inside [fn]; after [fn]; after the decrement of [inFlight]; after
    the increment of [completed]; after the increment of [errors]; returned. *)
Inductive wstate :=
| WRecv
| WGot (j : T)
| WRun (j : T)
| WRet (j : T) (e : option error)
| WDec (j : T) (e : option error)
| WComp (j : T) (e : option error)
| WErr (j : T) (e : error)
| WExit.

(** Program points of a submitter: past the [stopped] test, at the select
    ([block] tells [Submit] from [TrySubmit]); after a successful send. *)
Inductive sstate := SSelect (block : bool) (j : T) | SSent (j : T).

(** Program points of [Stop]: after [stopped.Store], after [close], returned. *)
Inductive pstate := PStored | PClosed | PReturned.

Record state := State {
  sh : shared;
  subs : list sstate;
  ws : list wstate;
  stops : list pstate
}.

Definition set_jobs js (s : shared) := Shared js (closed s) (stopped s) (panicked s) (submitted s)
  (completed s) (errors s) (inFlight s) (sent s) (finished s) (reported s).
Definition set_closed (s : shared) := Shared (jobs s) true (stopped s) (panicked s) (submitted s)
  (completed s) (errors s) (inFlight s) (sent s) (finished s) (reported s).
Definition set_stopped (s : shared) := Shared (jobs s) (closed s) true (panicked s) (submitted s)
  (completed s) (errors s) (inFlight s) (sent s) (finished s) (reported s).
Definition set_panicked (s : shared) := Shared (jobs s) (closed s) (stopped s) true (submitted s)
  (completed s) (errors s) (inFlight s) (sent s) (finished s) (reported s).
Definition add_submitted (s : shared) := Shared (jobs s) (closed s) (stopped s) (panicked s)
  (uwrap64 (submitted s + 1)) (completed s) (errors s) (inFlight s) (sent s) (finished s) (reported s).
Definition add_completed j e (s : shared) := Shared (jobs s) (closed s) (stopped s) (panicked s) (submitted s)
  (uwrap64 (completed s + 1)) (errors s) (inFlight s) (sent s) (finished s ++ [(j, e)]) (reported s).
Definition add_errors (s : shared) := Shared (jobs s) (closed s) (stopped s) (panicked s) (submitted s)
  (completed s) (uwrap64 (errors s + 1)) (inFlight s) (sent s) (finished s) (reported s).
Definition add_inFlight d (s : shared) := Shared (jobs s) (closed s) (stopped s) (panicked s) (submitted s)
  (completed s) (errors s) (wrap64 (inFlight s + d)) (sent s) (finished s) (reported s).
Definition add_sent j (s : shared) := Shared (jobs s) (closed s) (stopped s) (panicked s) (submitted s)
  (completed s) (errors s) (inFlight s) (sent s ++ [j]) (finished s) (reported s).
Definition add_reported j e (s : shared) := Shared (jobs s) (closed s) (stopped s) (panicked s) (submitted s)
  (completed s) (errors s) (inFlight s) (sent s) (finished s) (reported s ++ [(j, e)]).

(** [Stats]: read here in one go. *)
Definition get_Stats (s : shared) : Stats :=
  MkStats (submitted s) (completed s) (errors s) (inFlight s) (length (jobs s)).

(** What a finished [Submit]/[TrySubmit] returns. *)
Inductive label := Tau | Returns (j : T) (r : option error).

Section Steps.
Context (cfg : config).

Inductive step : state → label → state → Prop :=
(* Start *)
| start_workers s b :
    step (State s b [] []) Tau (State s b (replicate (Z.to_nat (workers cfg)) WRecv) [])
(* Submit and TrySubmit *)
| submit_rejected s b w p j :
    stopped s = true → step (State s b w p) (Returns j (Some ErrPoolStopped)) (State s b w p)
| submit_begin s b w p j k :
    stopped s = false → step (State s b w p) Tau (State s (SSelect k j :: b) w p)
| submit_send s b1 b2 w p j k :
    closed s = false → Z.of_nat (length (jobs s)) < queueSize (opts cfg) →
    step (State s (b1 ++ SSelect k j :: b2) w p) Tau
         (State (add_sent j (set_jobs (jobs s ++ [j]) s)) (b1 ++ SSent j :: b2) w p)
| submit_handoff s b1 b2 w1 w2 p j k :
    closed s = false → jobs s = [] →
    step (State s (b1 ++ SSelect k j :: b2) (w1 ++ WRecv :: w2) p) Tau
         (State (add_sent j s) (b1 ++ SSent j :: b2) (w1 ++ WGot j :: w2) p)
| submit_full s b1 b2 w p j :
    closed s = false → queueSize (opts cfg) ≤ Z.of_nat (length (jobs s)) →
    step (State s (b1 ++ SSelect false j :: b2) w p) (Returns j (Some ErrQueueFull))
         (State s (b1 ++ b2) w p)
| submit_cancelled s b1 b2 w p j e :
    step (State s (b1 ++ SSelect true j :: b2) w p) (Returns j (Some e)) (State s (b1 ++ b2) w p)
| submit_closed s b1 b2 w p j k :
    closed s = true →
    step (State s (b1 ++ SSelect k j :: b2) w p) Tau (State (set_panicked s) (b1 ++ b2) w p)
| submit_count s b1 b2 w p j :
    step (State s (b1 ++ SSent j :: b2) w p) (Returns j None) (State (add_submitted s) (b1 ++ b2) w p)
(* run *)
| run_recv s b w1 w2 p j js :
    jobs s = j :: js →
    step (State s b (w1 ++ WRecv :: w2) p) Tau (State (set_jobs js s) b (w1 ++ WGot j :: w2) p)
| run_done s b w1 w2 p :
    jobs s = [] → closed s = true →
    step (State s b (w1 ++ WRecv :: w2) p) Tau (State s b (w1 ++ WExit :: w2) p)
| run_begin s b w1 w2 p j :
    step (State s b (w1 ++ WGot j :: w2) p) Tau (State (add_inFlight 1 s) b (w1 ++ WRun j :: w2) p)
| run_fn s b w1 w2 p j e :
    step (State s b (w1 ++ WRun j :: w2) p) Tau (State s b (w1 ++ WRet j e :: w2) p)
| run_end s b w1 w2 p j e :
    step (State s b (w1 ++ WRet j e :: w2) p) Tau (State (add_inFlight (-1) s) b (w1 ++ WDec j e :: w2) p)
| run_completed s b w1 w2 p j e :
    step (State s b (w1 ++ WDec j e :: w2) p) Tau (State (add_completed j e s) b (w1 ++ WComp j e :: w2) p)
| run_ok s b w1 w2 p j :
    step (State s b (w1 ++ WComp j None :: w2) p) Tau (State s b (w1 ++ WRecv :: w2) p)
| run_err s b w1 w2 p j e :
    step (State s b (w1 ++ WComp j (Some e) :: w2) p) Tau (State (add_errors s) b (w1 ++ WErr j e :: w2) p)
| run_report s b w1 w2 p j e :
    step (State s b (w1 ++ WErr j e :: w2) p) Tau
         (State (if onError (opts cfg) then add_reported j e s else s) b (w1 ++ WRecv :: w2) p)
(* Stop *)
| stop_store s b w p :
    step (State s b w p) Tau (State (set_stopped s) b w (PStored :: p))
| stop_close s b w p1 p2 :
    closed s = false →
    step (State s b w (p1 ++ PStored :: p2)) Tau (State (set_closed s) b w (p1 ++ PClosed :: p2))
| stop_again s b w p1 p2 :
    closed s = true →
    step (State s b w (p1 ++ PStored :: p2)) Tau (State (set_panicked s) b w (p1 ++ p2))
| stop_wait s b w p1 p2 :
    Forall (λ x, x = WExit) w →
    step (State s b w (p1 ++ PClosed :: p2)) Tau (State s b w (p1 ++ PReturned :: p2)).

Definition any_step (x y : state) : Prop := ∃ l, step x l y.
Definition reachable (x : state) : Prop := rtc any_step (State init [] [] []) x.

End Steps.

(** ** The invariant *)

(** The job a worker has received and not yet counted as completed. *)
Definition held (w : wstate) : option T :=
  match w with WGot j | WRun j | WRet j _ | WDec j _ => Some j | _ => None end.

Definition is_running (w : wstate) : bool :=
  match w with WRun _ | WRet _ _ => true | _ => false end.
Definition owes_error (w : wstate) : bool :=
  match w with WComp _ (Some _) => true | _ => false end.
(** The error a worker still has to report. *)
Definition owed (w : wstate) : option (T * error) :=
  match w with WComp j (Some e) | WErr j e => Some (j, e) | _ => None end.
Definition failure (r : T * option error) : option (T * error) :=
  match r with (j, Some e) => Some (j, e) | _ => None end.
Definition is_sent (b : sstate) : bool := match b with SSent _ => true | _ => false end.
Definition failed (r : T * option error) : bool := match r.2 with Some _ => true | None => false end.

Definition count {A} (f : A → bool) (l : list A) : Z := Z.of_nat (length (filter f l)).

Record Inv (cfg : config) (x : state) : Prop := {
  inv_jobs : sent (sh x) ≡ₚ jobs (sh x) ++ omap held (ws x) ++ (finished (sh x)).*1;
  inv_depth : Z.of_nat (length (jobs (sh x))) ≤ Z.max 0 (queueSize (opts cfg));
  inv_submitted : submitted (sh x) = uwrap64 (Z.of_nat (length (sent (sh x))) - count is_sent (subs x));
  inv_completed : completed (sh x) = uwrap64 (Z.of_nat (length (finished (sh x))));
  inv_errors : errors (sh x) = uwrap64 (count failed (finished (sh x)) - count owes_error (ws x));
  inv_inFlight : inFlight (sh x) = count is_running (ws x);
  inv_reported : if onError (opts cfg)
    then omap failure (finished (sh x)) ≡ₚ reported (sh x) ++ omap owed (ws x)
    else reported (sh x) = [];
  inv_workers : ws x = [] ∨ Z.of_nat (length (ws x)) = workers cfg;
  inv_closed : closed (sh x) = true → stopped (sh x) = true;
  inv_exit : WExit ∈ ws x → closed (sh x) = true ∧ jobs (sh x) = [];
  inv_returned : PReturned ∈ stops x → Forall (λ w, w = WExit) (ws x);
  inv_stops : stops x ≠ [] → stopped (sh x) = true;
  inv_sclosed : PClosed ∈ stops x ∨ PReturned ∈ stops x → closed (sh x) = true
}.

(** ** Lemmas *)

#[local] Instance is_exit_dec (w : wstate) : Decision (w = WExit).
Proof. destruct w; (by left) || (by right). Defined.

Lemma count_app {A} (f : A → bool) l1 l2 : count f (l1 ++ l2) = count f l1 + count f l2.
Proof. unfold count. rewrite filter_app, length_app. lia. Qed.

Lemma count_cons {A} (f : A → bool) x l : count f (x :: l) = (if f x then 1 else 0) + count f l.
Proof.
  unfold count. rewrite filter_cons. case_decide as Hd; destruct (f x); simpl in *; try lia; by destruct Hd.
Qed.

Lemma count_nil {A} (f : A → bool) : count f [] = 0.
Proof. done. Qed.

Lemma count_bound {A} (f : A → bool) l : 0 ≤ count f l ≤ Z.of_nat (length l).
Proof. unfold count. pose proof (length_filter f l). lia. Qed.

Lemma count_replicate {A} (f : A → bool) n x : f x = false → count f (replicate n x) = 0.
Proof. intros Hf. induction n as [|n IH]; simpl; [done|]. by rewrite count_cons, Hf, IH. Qed.

Lemma elem_of_middle {A} (x y z : A) l1 l2 :
  y ≠ x → x ∈ l1 ++ y :: l2 → x ∈ l1 ++ z :: l2.
Proof. rewrite !elem_of_app, !elem_of_cons. naive_solver. Qed.

Create Rewrite HintDb pool.
#[local] Hint Rewrite @count_app @count_cons @count_nil @omap_app @length_app @fmap_app : pool.

Ltac pool_simpl := simpl in *; autorewrite with pool in *; simpl in *.

(** Brings a moved element to the head on both sides of a permutation. *)
Ltac pull :=
  simpl; rewrite <-?app_assoc; simpl;
  repeat (rewrite <-Permutation_middle; simpl);
  rewrite ?app_nil_r, <-?app_assoc; simpl; reflexivity.

Ltac on_error :=
  try match goal with |- context [if onError ?c then _ else _] => destruct (onError c) end.

Section Preservation.
Context (cfg : config).

Lemma step_jobs x l y : Inv cfg x → step cfg x l y →
  sent (sh y) ≡ₚ jobs (sh y) ++ omap held (ws y) ++ (finished (sh y)).*1.
Proof.
  intros [HP _ _ _ _ _ _ _ _ _ _ _ _] Hst.
  destruct Hst; on_error; pool_simpl; try done.
  - rewrite HP. simpl. by induction (Z.to_nat (workers cfg)).
  - rewrite HP. pull.
  - rewrite HP, H0. pull.
  - rewrite HP, H. pull.
  - rewrite HP. pull.
Qed.

(** [inFlight] counts workers, so it stays far from the bounds of [int64]. *)
Lemma inFlight_step w1 w2 y (d : Z) :
  workers cfg ≤ int64_max → w1 ++ y :: w2 = [] ∨ Z.of_nat (length (w1 ++ y :: w2)) = workers cfg →
  0 ≤ (if is_running y then 1 else 0) + d ≤ 1 →
  wrap64 (count is_running (w1 ++ y :: w2) + d) = count is_running (w1 ++ y :: w2) + d.
Proof.
  intros Hw HW Hd. pose proof (count_bound is_running w1). pose proof (count_bound is_running w2).
  destruct HW as [HW|HW]; [by destruct w1|]. rewrite length_app in HW. simpl in HW.
  rewrite count_app, count_cons in *. apply wrap64_id.
  unfold is_int64, int64_min, int64_max in *. lia.
Qed.

Lemma step_inFlight x l y : workers cfg ≤ int64_max → Inv cfg x → step cfg x l y →
  inFlight (sh y) = count is_running (ws y).
Proof.
  intros Hw [_ _ _ _ _ HF _ HW _ _ _ _ _] Hst.
  destruct Hst; on_error; simpl in *; rewrite ?HF;
    try (rewrite inFlight_step by (done || simpl; lia)); autorewrite with pool; simpl; try lia.
  by rewrite count_replicate.
Qed.

Lemma step_counters x l y : Inv cfg x → step cfg x l y →
  submitted (sh y) = uwrap64 (Z.of_nat (length (sent (sh y))) - count is_sent (subs y)) ∧
  completed (sh y) = uwrap64 (Z.of_nat (length (finished (sh y)))) ∧
  errors (sh y) = uwrap64 (count failed (finished (sh y)) - count owes_error (ws y)).
Proof.
  intros [_ _ HS HC HE _ _ _ _ _ _ _ _] Hst.
  destruct Hst; on_error; pool_simpl;
    rewrite ?HS, ?HC, ?HE, ?uwrap64_succ, ?count_replicate by done;
    split_and!; try done; try (f_equal; lia).
  destruct e; simpl; f_equal; lia.
Qed.

Lemma step_reported x l y : Inv cfg x → step cfg x l y →
  if onError (opts cfg)
  then omap failure (finished (sh y)) ≡ₚ reported (sh y) ++ omap owed (ws y)
  else reported (sh y) = [].
Proof.
  intros [_ _ _ _ _ _ HR _ _ _ _ _ _] Hst.
  destruct Hst; destruct (onError (opts cfg)); pool_simpl; try done.
  - rewrite HR. simpl. by induction (Z.to_nat (workers cfg)).
  - rewrite HR. destruct e; pull.
  - rewrite HR. pull.
Qed.

Lemma middle_nonempty {A} (x : A) l1 l2 : l1 ++ x :: l2 ≠ [].
Proof. by destruct l1. Qed.

Lemma step_workers x l y : 1 ≤ workers cfg → Inv cfg x → step cfg x l y →
  Z.of_nat (length (jobs (sh y))) ≤ Z.max 0 (queueSize (opts cfg)) ∧
  (ws y = [] ∨ Z.of_nat (length (ws y)) = workers cfg).
Proof.
  intros Hw [_ HD _ _ _ _ _ HW _ _ _ _ _] Hst.
  destruct Hst; on_error; simpl in *; split; try done;
    try (rewrite ?length_app in *; simpl in *; lia);
    try (right; destruct HW as [HW|HW]; [by apply middle_nonempty in HW|]; rewrite ?length_app in *; simpl in *; lia).
  - right. rewrite length_replicate. lia.
  - rewrite H in HD. simpl in HD. lia.
Qed.

Lemma step_closed x l y : Inv cfg x → step cfg x l y →
  (closed (sh y) = true → stopped (sh y) = true) ∧ (stops y ≠ [] → stopped (sh y) = true).
Proof.
  intros [_ _ _ _ _ _ _ _ HC _ _ HS _] Hst.
  destruct Hst; on_error; simpl in *; split; eauto using middle_nonempty.
Qed.

Lemma step_exit x l y : Inv cfg x → step cfg x l y →
  WExit ∈ ws y → closed (sh y) = true ∧ jobs (sh y) = [].
Proof.
  intros [_ _ _ _ _ _ _ _ _ HX _ _ _] Hst.
  destruct Hst; on_error; simpl in *; intros Hx; try done; try (by apply HX);
    try (apply HX; eapply elem_of_middle; [|exact Hx]; done).
  - by apply elem_of_replicate in Hx as [? _].
  - apply HX in Hx as [? _]. congruence.
  - destruct HX as [? ?]; [eapply elem_of_middle; [|exact Hx]; done|congruence].
  - split; [done|]. by apply HX.
Qed.

Lemma step_sclosed x l y : Inv cfg x → step cfg x l y →
  PClosed ∈ stops y ∨ PReturned ∈ stops y → closed (sh y) = true.
Proof.
  intros [_ _ _ _ _ _ _ _ _ _ _ _ HSC] Hst.
  destruct Hst; on_error; simpl in *; intros Hx; auto.
  - apply HSC. by destruct Hx as [Hx|Hx]; apply elem_of_cons in Hx as [?|?]; auto.
  - apply HSC. left. apply elem_of_app. right. by left.
Qed.

Lemma Forall_middle {A} (P : A → Prop) x y l1 l2 : ¬ P x → Forall P (l1 ++ x :: l2) → P y.
Proof. rewrite Forall_app, Forall_cons. naive_solver. Qed.

Lemma step_returned x l y : Inv cfg x → step cfg x l y →
  PReturned ∈ stops y → Forall (λ w, w = WExit) (ws y).
Proof.
  intros [_ _ _ _ _ _ _ _ _ _ HR _ _] Hst.
  destruct Hst; on_error; simpl in *; intros Hx; try done; auto;
    try (apply HR in Hx; exfalso; eapply (Forall_middle (λ w, w = WExit) _ WRecv) in Hx; done).
  - by apply elem_of_nil in Hx.
  - apply HR. by apply elem_of_cons in Hx as [?|?].
  - apply HR. by eapply elem_of_middle; [|exact Hx].
  - apply HR. rewrite elem_of_app, elem_of_cons in *. naive_solver.
Qed.

Lemma step_inv x l y : 1 ≤ workers cfg ≤ int64_max → Inv cfg x → step cfg x l y → Inv cfg y.
Proof.
  intros [Hw1 Hw2] HI Hst.
  destruct (step_counters _ _ _ HI Hst) as (?&?&?).
  destruct (step_workers _ _ _ Hw1 HI Hst) as (?&?).
  destruct (step_closed _ _ _ HI Hst) as (?&?).
  pose proof (step_exit _ _ _ HI Hst). pose proof (step_sclosed _ _ _ HI Hst).
  pose proof (step_jobs _ _ _ HI Hst). pose proof (step_inFlight _ _ _ Hw2 HI Hst).
  pose proof (step_reported _ _ _ HI Hst). pose proof (step_returned _ _ _ HI Hst).
  by constructor.
Qed.

Lemma reachable_inv x : 1 ≤ workers cfg ≤ int64_max → reachable cfg x → Inv cfg x.
Proof.
  intros Hw Hr. refine (rtc_invariant _ _ _ _ _ _ Hr).
  - intros a b Ha [l Hl]. eauto using step_inv.
  - constructor; simpl; try done; try (by left); try lia.
    all: rewrite ?elem_of_nil; try (by destruct (onError (opts cfg))); naive_solver.
Qed.

(** Once [Stop] has closed the channel and every worker has returned, nothing
    is sent or completed any more. *)
Definition quiet (x : state) : Prop :=
  closed (sh x) = true ∧ ws x ≠ [] ∧ Forall (λ w, w = WExit) (ws x).

Lemma step_quiet x l y : quiet x → step cfg x l y →
  quiet y ∧ sent (sh y) = sent (sh x) ∧ finished (sh y) = finished (sh x).
Proof.
  intros (HC & HN & HF) Hst. unfold quiet.
  destruct Hst; simpl in *; try congruence;
    try (exfalso; eapply (Forall_middle (λ w, w = WExit) _ WRecv) in HF; done); done.
Qed.

Lemma rtc_quiet x y : quiet x → rtc (any_step cfg) x y →
  sent (sh y) = sent (sh x) ∧ finished (sh y) = finished (sh x).
Proof.
  intros Hq Hr. induction Hr as [|x y z [l Hl] _ IH]; [done|].
  destruct (step_quiet _ _ _ Hq Hl) as (Hq' & <- & <-). auto.
Qed.

Lemma all_exit_omap {B} (f : wstate → option B) l :
  f WExit = None → Forall (λ w, w = WExit) l → omap f l = [].
Proof. intros Hf Hl. induction Hl as [|w l -> _ IH]; simpl; [done|]. by rewrite Hf. Qed.

Lemma all_exit_count (f : wstate → bool) l :
  f WExit = false → Forall (λ w, w = WExit) l → count f l = 0.
Proof. intros Hf Hl. induction Hl as [|w l -> _ IH]; [done|]. by rewrite count_cons, Hf, IH. Qed.

End Preservation.

(** ** Termination of the drain *)

(** The atomic steps a worker still makes before it is back at the receive. *)
Definition weight (w : wstate) : nat :=
  match w with
  | WExit => 0 | WRecv => 1 | WErr _ _ => 2 | WComp _ _ => 3 | WDec _ _ => 4
  | WRet _ _ => 5 | WRun _ => 6 | WGot _ => 7
  end.

Definition work (x : state) : nat :=
  7 * length (jobs (sh x)) + sum_list_with weight (ws x).

Lemma step_work cfg x l y : closed (sh x) = true → ws x ≠ [] → step cfg x l y →
  closed (sh y) = true ∧ ws y ≠ [] ∧ (ws y = ws x ∧ jobs (sh y) = jobs (sh x) ∨ (work y < work x)%nat).
Proof.
  intros HC HW Hst. unfold work.
  destruct Hst; on_error; simpl in *; rewrite ?sum_list_with_middle; simpl; try congruence;
    split_and!; try done; try (by left); try apply middle_nonempty; right; rewrite ?H; simpl; lia.
Qed.

Lemma worker_progress cfg x : closed (sh x) = true → ¬ Forall (λ w, w = WExit) (ws x) →
  ∃ y, step cfg x Tau y ∧ (work y < work x)%nat.
Proof.
  destruct x as [s b w p]; simpl. intros HC Hn.
  destruct (Forall_or_middle (λ x, x = WExit) w) as [?|(w1 & y & w2 & -> & Hy)]; [done|]. unfold work.
  destruct y as [|j|j|j e|j e|j [e|]|j e|]; try done;
    try (eexists; split; [first [apply (run_fn _ _ _ _ _ _ _ None)|constructor]|];
         on_error; simpl; rewrite !sum_list_with_middle; simpl; lia).
  destruct (jobs s) as [|j js] eqn:Hj; eexists; (split; [by constructor|]);
      simpl; rewrite !sum_list_with_middle, ?Hj; simpl; lia.
Qed.

(** ** Properties *)

(** C18: Whatever the interleaving of submitters, workers and [Stop] calls, the
    pool conserves jobs: every job that entered the channel is queued, held by
    one worker, or finished, exactly once; the queue never exceeds its
    capacity; the statistics are the exact counts of what happened; and at most
    [workers] jobs are in flight. *)
Theorem pool_invariant n os cfg x :
  New n os = Ret cfg → n ≤ int64_max → reachable cfg x →
  Inv cfg x ∧ 0 ≤ inFlight (sh x) ≤ n ∧ Z.of_nat (length (jobs (sh x))) ≤ queueSize (opts cfg).
Proof.
  intros HN Hn Hr. unfold New in HN. repeat dmatch_in HN; simplify_eq; zbool; simpl in *.
  assert (HI : Inv (Config n (fold_left (λ cfg o, o cfg) os (Options n false))) x)
    by (apply reachable_inv; [simpl; lia|done]).
  split; [done|]. destruct HI as [_ HD _ _ _ HF _ HW _ _ _ _ _]. simpl in *.
  rewrite HF. pose proof (count_bound is_running (ws x)).
  destruct HW as [HW|HW]; [rewrite HW in *; simpl in *|]; lia.
Qed.

(** C19: When [Stop] returns on a started pool, every job accepted by [Submit] or
    [TrySubmit] has been processed exactly once, each failure has been reported
    to [onError] exactly once if it is set, nothing is in flight, the completed
    and error counters agree with the work done, and nothing that happens later
    adds a job. *)
Theorem pool_drains n os cfg x :
  New n os = Ret cfg → n ≤ int64_max → reachable cfg x → PReturned ∈ stops x → ws x ≠ [] →
  jobs (sh x) = [] ∧ (finished (sh x)).*1 ≡ₚ sent (sh x) ∧ inFlight (sh x) = 0 ∧
  completed (sh x) = uwrap64 (Z.of_nat (length (sent (sh x)))) ∧
  errors (sh x) = uwrap64 (count failed (finished (sh x))) ∧
  (onError (opts cfg) = true → reported (sh x) ≡ₚ omap failure (finished (sh x))) ∧
  (∀ y, rtc (any_step cfg) x y → sent (sh y) = sent (sh x) ∧ finished (sh y) = finished (sh x)).
Proof.
  intros HN Hn Hr HP Hw.
  assert (HI : Inv cfg x).
  { unfold New in HN. repeat dmatch_in HN; simplify_eq; zbool. apply reachable_inv; [simpl; lia|done]. }
  destruct HI as [HJ _ _ HC HE HF HR _ _ HX HRet _ HSC].
  specialize (HRet HP). assert (closed (sh x) = true) by auto.
  assert (Hj : jobs (sh x) = []).
  { apply HX. destruct (ws x) as [|w l]; [done|]. apply Forall_cons in HRet as [-> _]. by left. }
  rewrite Hj, (all_exit_omap _ _ eq_refl HRet) in HJ. simpl in HJ.
  rewrite (all_exit_count _ _ eq_refl HRet) in HF. rewrite (all_exit_count _ _ eq_refl HRet) in HE. rewrite (all_exit_omap _ _ eq_refl HRet), app_nil_r in HR.
  split_and!; try done.
  - by rewrite HC, HJ, length_fmap.
  - by rewrite HE, Z.sub_0_r.
  - intros Hon. by rewrite Hon in HR.
  - intros y. by apply rtc_quiet.
Qed.

(** C31: The wait in [Stop] ends: once the channel is closed no step adds work,
    every step of a worker decreases the work left, and as long as a worker has
    not returned some worker can step (the worker function is assumed to
    return). *)
Theorem stop_terminates cfg x : closed (sh x) = true → ws x ≠ [] →
  (∀ l y, step cfg x l y → closed (sh y) = true ∧ ws y ≠ [] ∧
     (ws y = ws x ∧ jobs (sh y) = jobs (sh x) ∨ (work y < work x)%nat)) ∧
  (Forall (λ w, w = WExit) (ws x) ∨ ∃ y, step cfg x Tau y ∧ (work y < work x)%nat).
Proof.
  intros HC HW. split; [eauto using step_work|].
  destruct (Forall_or_middle (λ x, x = WExit) (ws x)) as [?|(w1 & y & w2 & He & Hy)]; [by left|].
  right. apply worker_progress; [done|]. rewrite He, Forall_app, Forall_cons. naive_solver.
Qed.

(** [Submit] is not safe against a concurrent [Stop]: in every configuration
    a submitter that has passed the [stopped] test panics on the closed channel
    when [Stop] closes it first. *)
Theorem submit_stop_race cfg (j : T) : ∃ x, reachable cfg x ∧ panicked (sh x) = true.
Proof.
  exists (State (set_panicked (set_closed (set_stopped init))) [] [] [PClosed]). split; [|done].
  eapply rtc_l; [eexists; by apply (submit_begin cfg _ _ _ _ j true)|].
  eapply rtc_l; [eexists; apply stop_store|].
  eapply rtc_l; [eexists; by apply (stop_close cfg _ _ _ [])|].
  eapply rtc_l; [eexists; by apply (submit_closed cfg _ [])|]. apply rtc_refl.
Qed.

End Pool.
Arguments shared : clear implicits.
Arguments state : clear implicits.
Arguments wstate : clear implicits.
Arguments sstate : clear implicits.
Arguments label : clear implicits.

(** ** Witnesses *)

Definition demo : config := Config 1 (Options 1 true).
Definition demo_err : error := ErrNew 22 "job failed".

(** A pool with one worker that processes one failing job and is stopped. *)
Definition demo_shared : shared nat :=
  Shared [] true true false 1 1 1 0 [7%nat] [(7%nat, Some demo_err)] [(7%nat, demo_err)].
Definition demo_state : state nat := State demo_shared [] [WExit] [PReturned].

Ltac pstep c := eapply rtc_l; [eexists; c|]; simpl.

Lemma demo_reachable : reachable demo demo_state.
Proof.
  unfold reachable, demo_state.
  pstep ltac:(apply start_workers). pstep ltac:(by apply (submit_begin demo _ _ _ _ 7%nat true)).
  pstep ltac:(by apply (submit_send demo _ [])). pstep ltac:(apply (submit_count demo _ [])).
  pstep ltac:(by apply (run_recv demo _ _ [])). pstep ltac:(apply (run_begin demo _ _ [])).
  pstep ltac:(apply (run_fn demo _ _ [] _ _ _ (Some demo_err))). pstep ltac:(apply (run_end demo _ _ [])).
  pstep ltac:(apply (run_completed demo _ _ [])). pstep ltac:(apply (run_err demo _ _ [])).
  pstep ltac:(apply (run_report demo _ _ [])). pstep ltac:(apply stop_store).
  pstep ltac:(by apply (stop_close demo _ _ _ [])). pstep ltac:(by apply (run_done demo _ _ [])).
  pstep ltac:(apply (stop_wait demo _ _ _ []); by constructor).
  apply rtc_refl.
Qed.

Lemma pool_invariant_witness : inFlight (sh demo_state) ≤ 1 ∧ Inv demo demo_state.
Proof.
  destruct (pool_invariant 1 [WithOnError] demo demo_state) as (? & ? & _);
    [reflexivity|vm_compute; discriminate|exact demo_reachable|]. split; [lia|done].
Defined.

Lemma pool_drains_witness : (finished (sh demo_state)).*1 ≡ₚ sent (sh demo_state).
Proof.
  by destruct (pool_drains 1 [WithOnError] demo demo_state) as (? & ? & _);
    [reflexivity|vm_compute; discriminate|exact demo_reachable|left|done|].
Defined.

Lemma stop_terminates_witness :
  Forall (λ w, w = WExit) (ws demo_state) ∨ ∃ y, step demo demo_state Tau y ∧ (work y < work demo_state)%nat.
Proof. apply stop_terminates; done. Defined.

End Pool.
