(* ===== verification/Store.v ===== *)
(** * pkg/store: transactions and migrations

    The connection pool (pgx) and the Postgres server are not part of the
    repository: they are the class [Postgres], whose laws [PostgresLaws] state
    what the Postgres documentation promises of a transaction when no other session
    commits meanwhile.  [WithTx] is
    proved against that interface; [queue], [outbox] and [eventstore] use
    [WithTx] through it.  SQL statements are given by their meaning, a function
    on the contents of the tables concerned.  Tracing spans and log records are
    left out. *)

From S2P Require Import Prelude GoLang.
Open Scope Z_scope.

Module Store.

(** The meaning of a statement on table contents [D]: an error (for instance a
    unique violation), or the new contents and the rows returned. *)
Definition sql (D R : Type) : Type := D → error + D * R.

(** [W] is the state of the world, [Tx] a transaction handle, [D] the contents
    of the tables a component works on.  [CollectRows] reads the rows of a query
    off the connection, which may fail after the query succeeded.  [committed] and [view] are
    observations: what other sessions see, and what a transaction sees. *)
Class Postgres (W Tx D : Type) := {
  BeginTx : W → W * (error + Tx);
  Commit : Tx → W → W * option error;
  Rollback : Tx → W → W * option error;
  tx_query : ∀ {R}, Tx → sql D R → W → W * (error + R);
  pool_query : ∀ {R}, sql D R → W → W * (error + R);
  CollectRows : ∀ {R}, list R → W → W * (error + list R);
  committed : W → D;
  view : Tx → W → D
}.

Class PostgresLaws (W Tx D : Type) `{Postgres W Tx D} : Prop := {
  begin_ok w w' tx : BeginTx w = (w', inr tx) → committed w' = committed w ∧ view tx w' = committed w;
  begin_err w w' e : BeginTx w = (w', inl e) → committed w' = committed w;
  commit_ok tx w w' : Commit tx w = (w', None) → committed w' = view tx w;
  (* the connection may break before or after the server has committed *)
  commit_err tx w w' e : Commit tx w = (w', Some e) →
    committed w' = committed w ∨ committed w' = view tx w;
  rollback_any tx w w' r : Rollback tx w = (w', r) → committed w' = committed w;
  query_ok {R} tx (q : sql D R) w w' r : tx_query tx q w = (w', inr r) →
    q (view tx w) = inr (view tx w', r) ∧ committed w' = committed w;
  query_err {R} tx (q : sql D R) w w' e : tx_query tx q w = (w', inl e) →
    view tx w' = view tx w ∧ committed w' = committed w;
  pool_ok {R} (q : sql D R) w w' r : pool_query q w = (w', inr r) →
    q (committed w) = inr (committed w', r);
  (* likewise for a statement in a transaction of its own *)
  pool_err {R} (q : sql D R) w w' e : pool_query q w = (w', inl e) →
    committed w' = committed w ∨ ∃ r, q (committed w) = inr (committed w', r);
  collect_ok {R} (l l' : list R) w w' : CollectRows l w = (w', inr l') → l' = l;
  collect_quiet {R} (l : list R) tx w :
    committed (CollectRows l w).1 = committed w ∧ view tx (CollectRows l w).1 = view tx w
}.

(** ** WithTx *)

Section WithTx.
Context {W Tx D : Type} `{Postgres W Tx D}.

(** A context, as far as the package reads it: the transaction it carries. *)
Definition context : Type := option Tx.

Definition contextWithTx (ctx : context) (tx : Tx) : context := Some tx.
Definition txFromContext (ctx : context) : option Tx := ctx.

Definition WithTx (ctx : context) (fn : context → Tx → W → W * outcome (option error)) (w : W)
    : W * outcome (option error) :=
  match txFromContext ctx with
  | Some tx => fn ctx tx w
  | None =>
    match BeginTx w with
    | (w, inl err) => (w, Ret (Some (ErrWrap "store: begin tx: %w" [] err)))
    | (w, inr pgxTx) =>
      match fn (contextWithTx ctx pgxTx) pgxTx w with
      | (w, Panic p) => ((Rollback pgxTx w).1, Panic p)
      | (w, Ret (Some err)) => ((Rollback pgxTx w).1, Ret (Some err))
      | (w, Ret None) =>
        match Commit pgxTx w with
        | (w, Some err) => (w, Ret (Some (ErrWrap "store: commit: %w" [] err)))
        | (w, None) => (w, Ret None)
        end
      end
    end
  end.

(** [Exec], [Query], [QueryRow] on the pool: one statement in a transaction of
    its own. *)
Definition Exec {R} (q : sql D R) (w : W) : W * option error :=
  match pool_query q w with (w, inl e) => (w, Some e) | (w, inr _) => (w, None) end.
Definition Query {R} (q : sql D R) (w : W) : W * (error + R) := pool_query q w.
Definition QueryRow {R} (q : sql D R) (w : W) : W * (error + R) := pool_query q w.

(** [tx.Exec]. *)
Definition tx_Exec {R} (tx : Tx) (q : sql D R) (w : W) : W * option error :=
  match tx_query tx q w with (w, inl e) => (w, Some e) | (w, inr _) => (w, None) end.

(** What a transaction body may assume and must respect: it changes committed
    data through its transaction only. *)
Definition tx_body (fn : context → Tx → W → W * outcome (option error)) : Prop :=
  ∀ ctx tx w, committed (fn ctx tx w).1 = committed w.

End WithTx.
Arguments context : clear implicits.

(** ** Migrations

    The migration engine (golang-migrate) is a parameter: [migrate_New] opens a
    migrator for a source and a database URL. *)

Definition ErrNoChange_id : positive := 30.
Definition ErrNilVersion_id : positive := 31.

(** The prefix is removed only from a strictly longer string. *)
Definition strip_prefix (dsn p : string) : option string :=
  if (String.length p <? String.length dsn)%nat && bool_decide (String.substring 0 (String.length p) dsn = p)
  then Some (String.substring (String.length p) (String.length dsn - String.length p) dsn) else None.

Definition stripScheme (dsn : string) : string :=
  match strip_prefix dsn "postgres://" with
  | Some r => r
  | None => match strip_prefix dsn "postgresql://" with Some r => r | None => dsn end
  end.

Section Migrate.
Context {W M : Type}.
Context (migrate_New : string → string → W → W * (error + M)).
Context (m_Up m_Down : M → W → W * option error) (m_Steps : M → Z → W → W * option error).
Context (m_Version : M → W → W * (Z * bool * option error)).

Definition newMigrate (dsn source : string) (w : W) : W * (error + M) :=
  match migrate_New source ("pgx5://" +:+ stripScheme dsn) w with
  | (w, inl err) => (w, inl (ErrWrap "store: create migrator: %w" [] err))
  | (w, inr m) => (w, inr m)
  end.

Definition unless_no_change (fmt : string) (r : option error) : option error :=
  match r with
  | Some err => if negb (errors_Is r ErrNoChange_id) then Some (ErrWrap fmt [] err) else None
  | None => None
  end.

Definition MigrateUp (dsn source : string) (w : W) : W * option error :=
  match newMigrate dsn source w with
  | (w, inl err) => (w, Some err)
  | (w, inr m) => let '(w, r) := m_Up m w in (w, unless_no_change "store: migrate up: %w" r)
  end.

Definition MigrateDown (dsn source : string) (w : W) : W * option error :=
  match newMigrate dsn source w with
  | (w, inl err) => (w, Some err)
  | (w, inr m) => let '(w, r) := m_Down m w in (w, unless_no_change "store: migrate down: %w" r)
  end.

Definition MigrateSteps (dsn source : string) (n : Z) (w : W) : W * option error :=
  match newMigrate dsn source w with
  | (w, inl err) => (w, Some err)
  | (w, inr m) => let '(w, r) := m_Steps m n w in (w, unless_no_change "store: migrate steps %d: %w" r)
  end.

Definition MigrateVersion (dsn source : string) (w : W) : W * (Z * bool * option error) :=
  match newMigrate dsn source w with
  | (w, inl err) => (w, (0, false, Some err))
  | (w, inr m) =>
    let '(w, (v, d, err)) := m_Version m w in
    if errors_Is err ErrNilVersion_id then (w, (0, false, None)) else (w, (v, d, err))
  end.
End Migrate.

(** ** A server in memory

    The instance that shows the laws can hold: one transaction at a time, and
    a script of the faults the next calls run into. *)

Record mem (D : Type) := Mem { m_db : D; m_tx : D; m_faults : list (option error) }.
Arguments Mem {D}.
Arguments m_db {D}.
Arguments m_tx {D}.
Arguments m_faults {D}.

Section Mem.
Context {D : Type}.

Definition next_fault (w : mem D) : mem D * option error :=
  match m_faults w with
  | f :: fs => (Mem (m_db w) (m_tx w) fs, f)
  | [] => (w, None)
  end.

Definition mem_begin (w : mem D) : mem D * (error + unit) :=
  match next_fault w with
  | (w, Some e) => (w, inl e)
  | (w, None) => (Mem (m_db w) (m_db w) (m_faults w), inr tt)
  end.
Definition mem_commit (_ : unit) (w : mem D) : mem D * option error :=
  match next_fault w with
  | (w, Some e) => (w, Some e)
  | (w, None) => (Mem (m_tx w) (m_tx w) (m_faults w), None)
  end.
Definition mem_rollback (_ : unit) (w : mem D) : mem D * option error := next_fault w.
Definition mem_query {R} (_ : unit) (q : sql D R) (w : mem D) : mem D * (error + R) :=
  match next_fault w with
  | (w, Some e) => (w, inl e)
  | (w, None) => match q (m_tx w) with
                 | inl e => (w, inl e)
                 | inr (d, r) => (Mem (m_db w) d (m_faults w), inr r)
                 end
  end.
Definition mem_pool {R} (q : sql D R) (w : mem D) : mem D * (error + R) :=
  match next_fault w with
  | (w, Some e) => (w, inl e)
  | (w, None) => match q (m_db w) with
                 | inl e => (w, inl e)
                 | inr (d, r) => (Mem d (m_tx w) (m_faults w), inr r)
                 end
  end.
Definition mem_collect {R} (l : list R) (w : mem D) : mem D * (error + list R) :=
  match next_fault w with
  | (w, Some e) => (w, inl e)
  | (w, None) => (w, inr l)
  end.
End Mem.

#[export] Instance mem_postgres {D} : Postgres (mem D) unit D := {
  BeginTx := mem_begin; Commit := mem_commit; Rollback := mem_rollback;
  tx_query := @mem_query D; pool_query := @mem_pool D; CollectRows := @mem_collect D; committed := m_db; view _ w := m_tx w
}.

(** ** Lemmas *)

Lemma next_fault_data {D} (w w' : mem D) f :
  next_fault w = (w', f) → m_db w' = m_db w ∧ m_tx w' = m_tx w.
Proof. unfold next_fault. intros. repeat dmatch_in H; simplify_eq; done. Qed.

Ltac mem_laws :=
  cbn in *; unfold mem_begin, mem_commit, mem_rollback, mem_query, mem_pool, mem_collect in *;
  repeat match goal with H : match next_fault ?w with _ => _ end = _ |- _ =>
    let E := fresh "E" in destruct (next_fault w) as [? ?] eqn:E
  | |- context [next_fault ?w] => let E := fresh "E" in destruct (next_fault w) as [? ?] eqn:E end;
  repeat match goal with H : next_fault _ = _ |- _ => apply next_fault_data in H as [? ?] end;
  simplify_eq/=.

#[export] Instance mem_laws {D} : PostgresLaws (mem D) unit D.
Proof.
  constructor; intros; mem_laws;
    repeat (match goal with
      | H : match ?o with _ => _ end = _ |- _ => destruct o eqn:?
      | |- context [match ?o with _ => _ end] => destruct o eqn:? end; simplify_eq/=);
    split_and?; try left; congruence.
Qed.

Lemma strip_prefix_app p rest : rest ≠ "" → strip_prefix (p +:+ rest) p = Some rest.
Proof.
  intros Hr. unfold strip_prefix. rewrite substring_prefix, length_string_app.
  rewrite (proj2 (Nat.ltb_lt _ _)) by (destruct rest; simpl; [done|lia]).
  rewrite bool_decide_eq_true_2 by done. simpl.
  replace (_ + _ - _)%nat with (String.length rest) by lia. by rewrite substring_suffix.
Qed.

Lemma substring_split n (s : string) : ∃ r, s = String.substring 0 n s +:+ r.
Proof.
  revert s. induction n as [|n IH]; intros [|a s]; simpl; eauto. destruct (IH s) as [r Hr].
  exists r. change (String a s = String a (String.substring 0 n s +:+ r)). by f_equal.
Qed.

Lemma strip_prefix_none p dsn : (∀ r, dsn ≠ p +:+ r) → strip_prefix dsn p = None.
Proof.
  intros Hd. unfold strip_prefix. dmatch; [|done]. exfalso. zbool.
  rewrite bool_decide_eq_true in *. destruct (substring_split (String.length p) dsn) as [r Hr].
  apply (Hd r). congruence.
Qed.

(** A world with more in it than the database. *)
#[export] Instance prod_postgres {W Tx D X} `{Postgres W Tx D} : Postgres (W * X) Tx D := {
  BeginTx w := let '(w1, r) := BeginTx w.1 in ((w1, w.2), r);
  Commit tx w := let '(w1, r) := Commit tx w.1 in ((w1, w.2), r);
  Rollback tx w := let '(w1, r) := Rollback tx w.1 in ((w1, w.2), r);
  tx_query R tx q w := let '(w1, r) := tx_query tx q w.1 in ((w1, w.2), r);
  pool_query R q w := let '(w1, r) := pool_query q w.1 in ((w1, w.2), r);
  CollectRows R l w := let '(w1, r) := CollectRows l w.1 in ((w1, w.2), r);
  committed w := committed w.1;
  view tx w := view tx w.1
}.

#[export] Instance prod_laws {W Tx D X} `{PostgresLaws W Tx D} : PostgresLaws (W * X) Tx D.
Proof.
  constructor; intros; cbn in *;
    repeat match goal with
    | HE : context [let '(_, _) := ?x in _] |- _ => destruct x as [? ?] eqn:?; simplify_eq/=
    end; eauto using begin_ok, begin_err, commit_ok, commit_err, rollback_any, query_ok, query_err,
      pool_ok, pool_err, collect_ok.
  pose proof (collect_quiet l tx w.1). by destruct (CollectRows l w.1).
Qed.

Section Atomicity.
Context {W Tx D : Type} `{PostgresLaws W Tx D}.

Lemma rollback_committed tx w : committed (Rollback tx w).1 = committed w.
Proof. destruct (Rollback tx w) as [w' r] eqn:E. by apply rollback_any in E. Qed.

(** A statement: the error leaves everything as it was, success applies it to
    the view. *)
Lemma tx_Exec_cases {R} (tx : Tx) (q : sql D R) w w' r :
  tx_Exec tx q w = (w', r) →
  committed w' = committed w ∧
  match r with
  | Some e => view tx w' = view tx w
  | None => ∃ x, q (view tx w) = inr (view tx w', x)
  end.
Proof.
  unfold tx_Exec. intros HE. destruct (tx_query tx q w) as [w1 [e|x]] eqn:E; simplify_eq.
  - apply query_err in E as [? ?]. done.
  - apply query_ok in E as [? ?]. eauto.
Qed.

Lemma WithTx_nested ctx tx (fn : context Tx → Tx → W → W * outcome (option error)) w :
  txFromContext ctx = Some tx → WithTx ctx fn w = fn ctx tx w.
Proof. unfold WithTx. by intros ->. Qed.

(** The outcomes of a top-level [WithTx]. *)
Inductive tx_outcome (fn : context Tx → Tx → W → W * outcome (option error)) (w w' : W)
    : outcome (option error) → Prop :=
| tx_no_begin e : committed w' = committed w →
    tx_outcome fn w w' (Ret (Some (ErrWrap "store: begin tx: %w" [] e)))
| tx_committed tx w1 w2 : view tx w1 = committed w → committed w1 = committed w →
    fn (Some tx) tx w1 = (w2, Ret None) → committed w' = view tx w2 → tx_outcome fn w w' (Ret None)
| tx_rolled_back tx w1 w2 e : view tx w1 = committed w → committed w1 = committed w →
    fn (Some tx) tx w1 = (w2, Ret (Some e)) → committed w' = committed w →
    tx_outcome fn w w' (Ret (Some e))
| tx_panicked tx w1 w2 p : view tx w1 = committed w → committed w1 = committed w →
    fn (Some tx) tx w1 = (w2, Panic p) → committed w' = committed w → tx_outcome fn w w' (Panic p)
| tx_unknown tx w1 w2 e : view tx w1 = committed w → committed w1 = committed w →
    fn (Some tx) tx w1 = (w2, Ret None) →
    committed w' = committed w ∨ committed w' = view tx w2 →
    tx_outcome fn w w' (Ret (Some (ErrWrap "store: commit: %w" [] e))).

Lemma WithTx_cases fn w w' r :
  tx_body fn → WithTx None fn w = (w', r) → tx_outcome fn w w' r.
Proof.
  intros Hfn. unfold WithTx. simpl. destruct (BeginTx w) as [w1 [e|tx]] eqn:EB; intros HW.
  - simplify_eq. apply begin_err in EB. by constructor.
  - apply begin_ok in EB as [Hc Hv]. unfold contextWithTx in HW.
    destruct (fn (Some tx) tx w1) as [w2 o] eqn:EF.
    assert (Hc2 : committed w2 = committed w).
    { specialize (Hfn (Some tx) tx w1). rewrite EF in Hfn. simpl in Hfn. congruence. }
    destruct o as [[e|]|p]; simplify_eq.
    + eapply tx_rolled_back; try done. by rewrite rollback_committed.
    + destruct (Commit tx w2) as [w3 [e|]] eqn:EC; simplify_eq.
      * eapply tx_unknown; try done. apply commit_err in EC. by rewrite <-Hc2.
      * eapply tx_committed; try done. by apply commit_ok.
    + eapply tx_panicked; try done. by rewrite rollback_committed.
Qed.

(** ** Properties *)

(** C22: [WithTx] is atomic.  Outside a transaction, for every body that works
    through its transaction: a nil result means that exactly what the body saw
    at its end is committed, an error or a panic of the body is passed on and
    nothing is committed, a failed [BeginTx] is reported without running the
    body, and only a failed [Commit] leaves open whether all or nothing was
    applied.  Inside a transaction the body joins it and nothing is committed
    or rolled back. *)
Theorem withtx_atomic (fn : context Tx → Tx → W → W * outcome (option error)) (ctx : context Tx) w :
  tx_body fn →
  match ctx with
  | None => tx_outcome fn w (WithTx None fn w).1 (WithTx None fn w).2
  | Some tx => WithTx (Some tx) fn w = fn (Some tx) tx w
  end.
Proof.
  intros Hfn. destruct ctx as [tx|]; [by apply WithTx_nested|].
  apply WithTx_cases; [done|]. by destruct (WithTx None fn w).
Qed.

End Atomicity.

(** A body that writes and then fails is rolled back; on the in-memory server
    the hypothesis of [withtx_atomic] holds for it. *)
Definition demo_fn (e : option error) (ctx : context unit) (tx : unit) (w : mem nat)
    : mem nat * outcome (option error) :=
  match tx_Exec tx (λ d : nat, inr (S d, tt)) w with
  | (w, Some e) => (w, Ret (Some e))
  | (w, None) => (w, Ret e)
  end.

Lemma withtx_atomic_witness :
  tx_outcome (demo_fn None) (Mem 4%nat 0%nat []) (Mem 5%nat 5%nat []) (Ret None) ∧
  (WithTx None (demo_fn (Some context_Canceled)) (Mem 4%nat 0%nat [])).1 = Mem 4%nat 5%nat [].
Proof.
  split; [|reflexivity].
  refine (withtx_atomic (demo_fn None) None (Mem 4%nat 0%nat []) _).
  intros ctx tx w. unfold demo_fn. destruct (tx_Exec tx _ w) as [w' r] eqn:E.
  apply tx_Exec_cases in E as [E _]. by destruct r.
Defined.

(** [newMigrate] hands the migration driver the DSN with its [postgres://]
    or [postgresql://] scheme replaced by [pgx5://]; a DSN with neither scheme
    gets the driver's scheme put in front. *)
Theorem migrate_url (rest dsn : string) :
  rest ≠ "" → (∀ r, dsn ≠ "postgres://" +:+ r) → (∀ r, dsn ≠ "postgresql://" +:+ r) →
  stripScheme ("postgres://" +:+ rest) = rest ∧ stripScheme ("postgresql://" +:+ rest) = rest ∧
  stripScheme dsn = dsn ∧
  ∀ W M (migrate_New : string → string → W → W * (error + M)) source w e,
    migrate_New source ("pgx5://" +:+ rest) w = (w, inl e) →
    newMigrate migrate_New ("postgres://" +:+ rest) source w
      = (w, inl (ErrWrap "store: create migrator: %w" [] e)).
Proof.
  intros Hr Hd1 Hd2.
  assert (H1 : stripScheme ("postgres://" +:+ rest) = rest)
    by (unfold stripScheme; by rewrite strip_prefix_app).
  split_and!; [done| | |].
  - unfold stripScheme. rewrite (strip_prefix_none "postgres://") by (intros r Hr'; discriminate Hr').
    by rewrite strip_prefix_app.
  - unfold stripScheme. by rewrite !strip_prefix_none.
  - intros W M New source w e HN. unfold newMigrate. by rewrite H1, HN.
Qed.

Lemma migrate_url_witness :
  stripScheme "postgres://app@db/shop" = "app@db/shop" ∧ stripScheme "app@db/shop" = "app@db/shop".
Proof.
  destruct (migrate_url "app@db/shop" "app@db/shop") as (? & _ & ? & _); [done| | |done];
    intros r Hr; discriminate Hr.
Defined.

End Store.
