(* ===== verification/Tracing.v ===== *)
(** * Tracing and connection set-up: pkg/otel, and the spans and Open of pkg/store

    A trace is the list of the actions on spans, a span the number of spans
    started before it.  [Exec], [Query] and [WithTx] of Store.v are given here
    with their spans, on the world paired with the trace; the theorems show that
    erasing the trace gives back the functions of Store.v.  What pgx, Prometheus
    and the OpenTelemetry SDK return is an argument. *)

From S2P Require Import Prelude GoLang Store.
Import Store.
Open Scope Z_scope.

Module Tracing.

Definition span := nat.

(** [SetStatus] is always called with [codes.Error]. *)
Inductive tevent :=
| SpanStart (sp : span) (name : string) (attrs : list (string * string))
| RecordError_ (sp : span) (err : error)
| SetStatus (sp : span) (desc : string)
| SetAttributes (sp : span) (key value : string)
| SpanEnd (sp : span).

Definition trace := list tevent.

Definition span_of (e : tevent) : span :=
  match e with SpanStart sp _ _ | RecordError_ sp _ | SetStatus sp _ | SetAttributes sp _ _ | SpanEnd sp => sp end.

Definition starts (tr : trace) : nat :=
  sum_list_with (λ e, match e with SpanStart _ _ _ => 1 | _ => 0 end)%nat tr.

(** [tracer.Start] *)
Definition tracer_Start (name : string) (attrs : list (string * string)) (tr : trace) : trace * span :=
  (tr ++ [SpanStart (starts tr) name attrs], starts tr).

(** ** store.go: spans *)

Section Store.
Context (Error : error → string).

Definition startSpan (op sql : string) (tr : trace) : trace * span :=
  tracer_Start ("db." +:+ op) [("db.system", "postgresql"); ("db.statement", sql)] tr.

Definition recordSpanError (sp : span) (err : option error) (tr : trace) : trace :=
  match err with
  | Some e => tr ++ [RecordError_ sp e; SetStatus sp (Error e)]
  | None => tr
  end.

Section Queries.
Context {W Tx D : Type} `{Postgres W Tx D}.

Notation T := (W * trace)%type.

Definition Exec_t {R} (sql : string) (q : Store.sql D R) (x : T) : T * option error :=
  let '(w, tr) := x in
  let '(tr, sp) := startSpan "exec" sql tr in
  let '(w, err) := Exec q w in
  (w, recordSpanError sp err tr ++ [SpanEnd sp], err).

(** The span ends when [QueryRow] returns, before the row is scanned. *)
Definition QueryRow_t {R} (sql : string) (q : Store.sql D R) (x : T) : T * (error + R) :=
  let '(w, tr) := x in
  let '(tr, sp) := startSpan "query_row" sql tr in
  let '(w, r) := QueryRow q w in
  (w, tr ++ [SpanEnd sp], r).

Definition Query_t {R} (sql : string) (q : Store.sql D R) (x : T) : T * (error + R) :=
  let '(w, tr) := x in
  let '(tr, sp) := startSpan "query" sql tr in
  let '(w, r) := Query q w in
  (w, recordSpanError sp (match r with inl e => Some e | inr _ => None end) tr ++ [SpanEnd sp], r).

Definition WithTx_t (ctx : context Tx) (fn : context Tx → Tx → T → T * outcome (option error)) (x : T)
    : T * outcome (option error) :=
  match txFromContext ctx with
  | Some tx => fn ctx tx x
  | None =>
    let '(w, tr) := x in
    let '(tr, sp) := tracer_Start "db.transaction" [] tr in
    match BeginTx w with
    | (w, inl err) =>
      (w, recordSpanError sp (Some err) tr ++ [SpanEnd sp], Ret (Some (ErrWrap "store: begin tx: %w" [] err)))
    | (w, inr pgxTx) =>
      match fn (contextWithTx ctx pgxTx) pgxTx (w, tr) with
      | (w, tr, Panic p) =>
        ((Rollback pgxTx w).1,
         tr ++ [RecordError_ sp (ErrFmt "panic: %v" [p]); SetStatus sp "panic in transaction"; SpanEnd sp], Panic p)
      | (w, tr, Ret (Some err)) =>
        ((Rollback pgxTx w).1, recordSpanError sp (Some err) tr ++ [SpanEnd sp], Ret (Some err))
      | (w, tr, Ret None) =>
        match Commit pgxTx w with
        | (w, Some err) =>
          (w, recordSpanError sp (Some err) tr ++ [SpanEnd sp], Ret (Some (ErrWrap "store: commit: %w" [] err)))
        | (w, None) => (w, tr ++ [SpanEnd sp], Ret None)
        end
      end
    end
  end.
End Queries.

(** The query tracer handed to pgx: the context carries the span from the start
    of a query to its end. *)
Definition TraceQueryStart (sql : string) (tr : trace) : trace * option span :=
  let '(tr, sp) := tracer_Start "db.query" [("db.system", "postgresql"); ("db.statement", sql)] tr in
  (tr, Some sp).

Definition TraceQueryEnd (ctx : option span) (err : option error) (tr : trace) : trace :=
  match ctx with
  | None => tr
  | Some sp =>
    (match err with Some e => tr ++ [RecordError_ sp e; SetStatus sp (Error e)] | None => tr end) ++ [SpanEnd sp]
  end.
End Store.

(** ** store.go: Open *)

Record options := Options { maxConns : Z; minConns : Z; promReg : bool }.
Definition defaultOptions : options := Options 0 0 false.
Definition Option := options → options.
Definition WithMaxConns (n : Z) : Option := λ o, Options n (minConns o) (promReg o).
Definition WithMinConns (n : Z) : Option := λ o, Options (maxConns o) n (promReg o).
Definition WithPrometheus : Option := λ o, Options (maxConns o) (minConns o) true.

(** The parts of [pgxpool.Config] the package reads or writes. *)
Record Config := MkConfig {
  MaxConns : Z; MinConns : Z; Host : string; Database : string; User : string; Password : string; Traced : bool
}.

(** Actions on the pool of a connection attempt, and the log line. *)
Inductive action := CreatePool (cfg : Config) | ClosePool | LogConnected (dsn_masked : string).

Section Open.
(** What [ParseConfig], [NewWithConfig], [Ping] and [Register] return. *)
Context (ParseConfig : string → error + Config) (NewWithConfig : Config → option error)
  (Ping Register : option error).

Definition maskDSN (dsn : string) : string :=
  match ParseConfig dsn with
  | inl _ => "<unparseable>"
  | inr u => "postgres://" +:+ User u +:+ "@" +:+ Host u +:+ "/" +:+ Database u
  end.

Definition Open (dsn : string) (opts : list Option) : list action * option error :=
  match ParseConfig dsn with
  | inl err => ([], Some (ErrWrap "store: parse DSN: %w" [] err))
  | inr cfg =>
    let o := fold_left (λ o opt, opt o) opts defaultOptions in
    let max := if maxConns o >? 0 then maxConns o else MaxConns cfg in
    let min := if minConns o >? 0 then minConns o else MinConns cfg in
    let cfg := MkConfig max min (Host cfg) (Database cfg) (User cfg) (Password cfg) true in
    match NewWithConfig cfg with
    | Some err => ([], Some (ErrWrap "store: create pool: %w" [] err))
    | None =>
      match Ping with
      | Some err => ([CreatePool cfg; ClosePool], Some (ErrWrap "store: ping: %w" [] err))
      | None =>
        match (if promReg o then Register else None) with
        | Some err => ([CreatePool cfg; ClosePool], Some (ErrWrap "store: register metrics: %w" [] err))
        | None => ([CreatePool cfg; LogConnected (maskDSN dsn)], None)
        end
      end
    end
  end.
End Open.

(** The handle: [Close], [Pool], [Ping] and the health check forward to the pool. *)
Section Handle.
Context {PgxPool W : Type} (pool_Ping : PgxPool → W → W * option error) (pool_Close : PgxPool → W → W).
Record DB := MkDB { db_pool : PgxPool }.
Definition DB_Close (db : DB) (w : W) : W := pool_Close (db_pool db) w.
Definition DB_Pool (db : DB) : PgxPool := db_pool db.
Definition DB_Ping (db : DB) (w : W) : W * option error := pool_Ping (db_pool db) w.
Definition DB_Check (db : DB) (w : W) : W * option error := DB_Ping db w.
End Handle.

(** ** otel/tracer.go *)

Definition KeyValue : Type := string * string.

Record config {Sampler : Type} := MkProviderConfig {
  serviceName : string; serviceVersion : string; environment : string; otlpEndpoint : string;
  sampler : Sampler; extraAttrs : list KeyValue
}.
Arguments config : clear implicits.

(** Actions of setting the provider up. *)
Inductive setup :=
| StartProcessor (exporter : string)
| NewProvider (processors : list string) (attrs : list KeyValue)
| SetGlobal (propagators : list string).

Section Provider.
Context {Sampler : Type} (AlwaysSample : Sampler).

Definition ProviderOption := config Sampler → config Sampler.

Definition WithServiceName (name : string) : ProviderOption := λ c,
  MkProviderConfig Sampler name (serviceVersion c) (environment c) (otlpEndpoint c) (sampler c) (extraAttrs c).
Definition WithServiceVersion (v : string) : ProviderOption := λ c,
  MkProviderConfig Sampler (serviceName c) v (environment c) (otlpEndpoint c) (sampler c) (extraAttrs c).
Definition WithEnvironment (env : string) : ProviderOption := λ c,
  MkProviderConfig Sampler (serviceName c) (serviceVersion c) env (otlpEndpoint c) (sampler c) (extraAttrs c).
Definition WithOTLPEndpoint (addr : string) : ProviderOption := λ c,
  MkProviderConfig Sampler (serviceName c) (serviceVersion c) (environment c) addr (sampler c) (extraAttrs c).
Definition WithSampler (s : Sampler) : ProviderOption := λ c,
  MkProviderConfig Sampler (serviceName c) (serviceVersion c) (environment c) (otlpEndpoint c) s (extraAttrs c).
Definition WithAttributes (attrs : list KeyValue) : ProviderOption := λ c,
  MkProviderConfig Sampler (serviceName c) (serviceVersion c) (environment c) (otlpEndpoint c) (sampler c)
    (extraAttrs c ++ attrs).

Definition resource_attrs (cfg : config Sampler) : list KeyValue :=
  [("service.name", serviceName cfg)]
  ++ (if bool_decide (serviceVersion cfg ≠ "") then [("service.version", serviceVersion cfg)] else [])
  ++ (if bool_decide (environment cfg ≠ "") then [("deployment.environment", environment cfg)] else [])
  ++ extraAttrs cfg.

(** [resource], [stdout] and [otlp] are the errors of the SDK's constructors. *)
Definition NewTracerProvider (resource stdout : option error) (otlp : string → option error)
    (opts : list ProviderOption) : list setup * option error :=
  let cfg := fold_left (λ c o, o c) opts (MkProviderConfig Sampler "gkit-service" "" "" "" AlwaysSample []) in
  match resource with
  | Some err => ([], Some (ErrWrap "otel: build resource: %w" [] err))
  | None =>
    match stdout with
    | Some err => ([], Some (ErrWrap "otel: stdout exporter: %w" [] err))
    | None =>
      let finish processors :=
        ((StartProcessor <$> processors) ++
           [NewProvider processors (resource_attrs cfg); SetGlobal ["TraceContext"; "Baggage"]], None) in
      if bool_decide (otlpEndpoint cfg ≠ "") then
        match otlp (otlpEndpoint cfg) with
        | Some err => ([StartProcessor "stdout"], Some (ErrWrap "otel: OTLP exporter: %w" [] err))
        | None => finish ["stdout"; "otlp"]
        end
      else finish ["stdout"]
    end
  end.
End Provider.

(** The wrapper around the SDK's provider and the gRPC options only forward; the SDK is a
    parameter. *)
Section Wrapper.
Context {SDK W T : Type} (sdk_Shutdown : SDK → W → W * option error) (sdk_Tracer : SDK → string → T).

Record TracerProvider := MkTracerProvider { tp : SDK }.
Definition Shutdown (p : TracerProvider) (w : W) : W * option error := sdk_Shutdown (tp p) w.
Definition Tracer (p : TracerProvider) (name : string) : T := sdk_Tracer (tp p) name.

Context {HOption Handler ServerOption DialOption : Type} (otelgrpc_NewServerHandler otelgrpc_NewClientHandler : list HOption → Handler)
  (StatsHandler : Handler → ServerOption) (WithStatsHandler : Handler → DialOption).

Definition NewServerHandler (opts : list HOption) : ServerOption := StatsHandler (otelgrpc_NewServerHandler opts).
Definition NewClientHandler (opts : list HOption) : DialOption := WithStatsHandler (otelgrpc_NewClientHandler opts).
End Wrapper.
Arguments TracerProvider : clear implicits.

(** [StartSpan] and [RecordError] of the package. *)
Definition StartSpan (name : string) (tr : trace) : trace * span := tracer_Start name [] tr.
Definition RecordError (sp : span) (err : option error) (tr : trace) : trace :=
  match err with Some e => tr ++ [RecordError_ sp e] | None => tr end.

(** ** Specification *)

(** The spans started and not yet ended. *)
Definition open_step (o : gset span) (e : tevent) : gset span :=
  match e with SpanStart sp _ _ => o ∪ {[sp]} | SpanEnd sp => o ∖ {[sp]} | _ => o end.
Definition open_spans (tr : trace) : gset span := fold_left open_step tr ∅.

(** The error status of a span. *)
Definition failed (sp : span) (tr : trace) : Prop := ∃ d, SetStatus sp d ∈ tr.

(** A trace mentions only spans that it started. *)
Definition wf (tr : trace) : Prop := Forall (λ e, (span_of e < starts tr)%nat) tr.

(** [tr'] continues [tr] and leaves the spans of [tr] alone. *)
Definition extends (tr tr' : trace) : Prop :=
  ∃ evs, tr' = tr ++ evs ∧ Forall (λ e, (starts tr ≤ span_of e)%nat) evs ∧ open_spans tr' = open_spans tr.

(** ** Lemmas *)

Lemma starts_app a b : starts (a ++ b) = (starts a + starts b)%nat.
Proof. apply sum_list_with_app. Qed.

Lemma open_app a b : open_spans (a ++ b) = fold_left open_step b (open_spans a).
Proof. unfold open_spans. by rewrite fold_left_app. Qed.

Lemma failed_app sp a b : failed sp (a ++ b) ↔ failed sp a ∨ failed sp b.
Proof. unfold failed. setoid_rewrite elem_of_app. naive_solver. Qed.

Lemma extends_failed tr tr' sp : extends tr tr' → (sp < starts tr)%nat → failed sp tr' → failed sp tr.
Proof.
  intros (evs & -> & HF & _) Hsp [?|[d Hd]]%failed_app; [done|].
  rewrite Forall_forall in HF. specialize (HF _ Hd). simpl in HF. lia.
Qed.

Lemma open_mentioned tr sp : sp ∈ open_spans tr → ∃ e, e ∈ tr ∧ span_of e = sp.
Proof.
  unfold open_spans. enough (Hgen : ∀ o, sp ∈ fold_left open_step tr o → sp ∈ o ∨ ∃ e, e ∈ tr ∧ span_of e = sp).
  { intros [?%not_elem_of_empty|?]%Hgen; done. }
  induction tr as [|e tr IH]; intros o; simpl; [by left|]. intros [Hin|(e' & ? & ?)]%IH.
  - destruct e; simpl in Hin; rewrite ?elem_of_union, ?elem_of_difference, ?elem_of_singleton in Hin; try tauto.
    destruct Hin as [?| ->]; [by left|]. right. eexists. split; [by left|done].
  - right. exists e'. split; [by right|done].
Qed.

Lemma wf_open tr sp : wf tr → sp ∈ open_spans tr → (sp < starts tr)%nat.
Proof. unfold wf. rewrite Forall_forall. intros Hwf (e & He & <-)%open_mentioned. by apply Hwf. Qed.

Lemma wf_start tr name attrs : wf tr → wf (tr ++ [SpanStart (starts tr) name attrs]).
Proof.
  unfold wf. intros Hwf. rewrite starts_app. simpl. apply Forall_app. split; [|by constructor; [simpl; lia|]].
  eapply Forall_impl; [exact Hwf|]. simpl. lia.
Qed.

Lemma wf_fresh tr : wf tr → ¬ failed (starts tr) tr.
Proof. unfold wf. rewrite Forall_forall. intros Hwf [d Hd]. specialize (Hwf _ Hd). simpl in Hwf. lia. Qed.

(** A span around work that leaves older spans alone: it ends, and the trace as a
    whole continues the old one. *)
Lemma span_around name attrs tr tr1 tr2 evs :
  wf tr → tr1 = tr ++ [SpanStart (starts tr) name attrs] → extends tr1 tr2 →
  Forall (λ e, span_of e = starts tr) evs → open_spans (tr2 ++ evs) = open_spans tr2 →
  extends tr (tr2 ++ evs ++ [SpanEnd (starts tr)]).
Proof.
  intros Hwf -> (evs1 & -> & HF & Ho) Hevs Ho2.
  exists ([SpanStart (starts tr) name attrs] ++ evs1 ++ evs ++ [SpanEnd (starts tr)]).
  split_and!; [by rewrite <-!(assoc_L (++))| |].
  - rewrite !Forall_app. split_and!; [by repeat constructor| | |by repeat constructor].
    + eapply Forall_impl; [exact HF|]. intros e. rewrite starts_app. simpl. lia.
    + eapply Forall_impl; [exact Hevs|]. simpl. lia.
  - rewrite (assoc_L (++)), open_app, Ho2, Ho, open_app. simpl. apply set_eq. intros sp.
    pose proof (wf_open tr sp Hwf) as Hlt. rewrite elem_of_difference, elem_of_union, elem_of_singleton.
    split; [tauto|]. intros Hin. split; [tauto|]. intros ->. specialize (Hlt Hin). lia.
Qed.

Lemma extends_refl tr : extends tr tr.
Proof. exists []. by rewrite app_nil_r. Qed.

(** A span that ends where it began, with events of its own between. *)
Lemma leaf_span name attrs tr evs :
  wf tr → Forall (λ e, span_of e = starts tr) evs → (∀ o, fold_left open_step evs o = o) →
  let tr' := (tr ++ [SpanStart (starts tr) name attrs]) ++ evs ++ [SpanEnd (starts tr)] in
  extends tr tr' ∧ (failed (starts tr) tr' ↔ failed (starts tr) evs).
Proof.
  intros Hwf Hevs Ho. split.
  - eapply span_around; [done|done|apply extends_refl|done|]. by rewrite open_app.
  - rewrite !failed_app. split; [|tauto]. intros [[Hf|[d Hd]]|[Hf|[d Hd]]]; [| |done|].
    + by apply wf_fresh in Hf.
    + by apply list_elem_of_singleton in Hd.
    + by apply list_elem_of_singleton in Hd.
Qed.

Section Properties.
Context (Error : error → string) {W Tx D : Type} `{Postgres W Tx D}.

(** A traced function does what the plain one does, and its spans are closed. *)
Definition erases (fnT : context Tx → Tx → W * trace → (W * trace) * outcome (option error))
    (fn : context Tx → Tx → W → W * outcome (option error)) : Prop :=
  ∀ ctx tx w tr, wf tr →
    ∃ tr', fnT ctx tx (w, tr) = ((fn ctx tx w).1, tr', (fn ctx tx w).2) ∧ extends tr tr'.

(** The trace after the span of a transaction has ended. *)
Lemma tx_span tr tr2 evs (bad : Prop) :
  wf tr → extends (tr ++ [SpanStart (starts tr) "db.transaction" []]) tr2 →
  Forall (λ e, span_of e = starts tr) evs → open_spans (tr2 ++ evs) = open_spans tr2 →
  (failed (starts tr) evs ↔ bad) →
  extends tr (tr2 ++ evs ++ [SpanEnd (starts tr)]) ∧
  (failed (starts tr) (tr2 ++ evs ++ [SpanEnd (starts tr)]) ↔ bad).
Proof.
  intros Hwf Hext Hevs Ho Hbad. split; [by eapply span_around|].
  rewrite !failed_app. split; [|tauto]. intros [Hf|[Hf|Hf]]; [|tauto|].
  - exfalso. apply (extends_failed _ _ _ Hext) in Hf; [|rewrite starts_app; simpl; lia].
    apply failed_app in Hf as [Hf|[d Hd]]; [by apply wf_fresh in Hf|].
    by apply list_elem_of_singleton in Hd.
  - destruct Hf as [d Hd]. by apply list_elem_of_singleton in Hd.
Qed.

(** C23: Tracing changes nothing: the traced [WithTx] does to the world, and
    returns or panics with, exactly what [WithTx] of Store.v does; it touches no
    older span and leaves none open; and its span carries an error status exactly
    when [WithTx] does not return nil. *)
Theorem tracing_transparent fnT fn ctx w tr :
  erases fnT fn → wf tr →
  ∃ tr', WithTx_t Error ctx fnT (w, tr) = ((WithTx ctx fn w).1, tr', (WithTx ctx fn w).2) ∧ extends tr tr' ∧
    (ctx = None → (failed (starts tr) tr' ↔ (WithTx ctx fn w).2 ≠ Ret None)).
Proof.
  intros Hfn Hwf. unfold WithTx_t, WithTx. destruct ctx as [tx|]; simpl.
  { destruct (Hfn (Some tx) tx w tr Hwf) as (tr' & -> & He). by exists tr'. }
  set (tr1 := tr ++ [SpanStart (starts tr) "db.transaction" []]).
  assert (Herr : ∀ tr2 e (o : outcome (option error)), extends tr1 tr2 → o ≠ Ret None →
    extends tr ((tr2 ++ [RecordError_ (starts tr) e; SetStatus (starts tr) (Error e)]) ++ [SpanEnd (starts tr)]) ∧
    (failed (starts tr) ((tr2 ++ [RecordError_ (starts tr) e; SetStatus (starts tr) (Error e)]) ++ [SpanEnd (starts tr)])
     ↔ o ≠ Ret None)).
  { intros tr2 e o Hext Ho. rewrite <-!(assoc_L (++)).
    apply tx_span; [done|done|by repeat constructor|by rewrite open_app|].
    split; [done|]. intros _. eexists. right. by left. }
  destruct (BeginTx w) as [w1 [err|pgxTx]] eqn:Eb.
  { eexists. split; [done|]. destruct (Herr tr1 err (Ret (Some (ErrWrap "store: begin tx: %w" [] err))))
      as [H1 H2]; [apply extends_refl|done|]. by split. }
  destruct (Hfn (contextWithTx None pgxTx) pgxTx w1 tr1 (wf_start _ _ _ Hwf)) as (tr2 & -> & Hext).
  destruct (fn (contextWithTx None pgxTx) pgxTx w1) as [w2 [[err|]|p]]; simpl.
  - eexists. split; [done|]. destruct (Herr tr2 err (Ret (Some err))) as [H1 H2]; [done|done|]. by split.
  - destruct (Commit pgxTx w2) as [w3 [err|]]; simpl.
    + eexists. split; [done|]. destruct (Herr tr2 err (Ret (Some (ErrWrap "store: commit: %w" [] err))))
        as [H1 H2]; [done|done|]. by split.
    + eexists. split; [done|]. destruct (tx_span tr tr2 [] False) as [H1 H2]; [done|done|done|by rewrite app_nil_r| |].
      { split; [|done]. by intros [d ?%not_elem_of_nil]. }
      split; [done|]. intros _. rewrite H2. naive_solver.
  - eexists. split; [done|].
    destruct (tx_span tr tr2 [RecordError_ (starts tr) (ErrFmt "panic: %v" [p]); SetStatus (starts tr) "panic in transaction"]
      True) as [H1 H2]; [done|done|by repeat constructor|by rewrite open_app| |].
    { split; [done|]. intros _. eexists. right. by left. }
    split; [done|]. intros _. rewrite H2. naive_solver.
Qed.

Lemma query_span op sql tr evs :
  wf tr → Forall (λ e, span_of e = starts tr) evs → open_spans ((startSpan op sql tr).1 ++ evs) = open_spans (startSpan op sql tr).1 →
  extends tr ((startSpan op sql tr).1 ++ evs ++ [SpanEnd (starts tr)]).
Proof.
  intros. by apply (span_around ("db." +:+ op) [("db.system", "postgresql"); ("db.statement", sql)] tr
    (startSpan op sql tr).1); auto using extends_refl.
Qed.

(** The query helpers run their statement as Store.v does and end their span;
    [Exec] and [Query] mark it as failed exactly when the statement failed,
    [QueryRow] never does. *)
Theorem query_spans {R} sql (q : Store.sql D R) w tr :
  wf tr →
  (∃ tr', Exec_t Error sql q (w, tr) = ((Exec q w).1, tr', (Exec q w).2) ∧ extends tr tr' ∧
     (failed (starts tr) tr' ↔ (Exec q w).2 ≠ None)) ∧
  (∃ tr', Query_t Error sql q (w, tr) = ((Query q w).1, tr', (Query q w).2) ∧ extends tr tr' ∧
     (failed (starts tr) tr' ↔ ∃ e, (Query q w).2 = inl e)) ∧
  (∃ tr', QueryRow_t sql q (w, tr) = ((QueryRow q w).1, tr', (QueryRow q w).2) ∧ extends tr tr' ∧
     ¬ failed (starts tr) tr').
Proof.
  intros Hwf. pose proof (wf_fresh tr Hwf) as Hfresh.
  assert (Hspan : ∀ op err, extends tr (recordSpanError Error (starts tr) err (startSpan op sql tr).1 ++ [SpanEnd (starts tr)]) ∧
    (failed (starts tr) (recordSpanError Error (starts tr) err (startSpan op sql tr).1 ++ [SpanEnd (starts tr)]) ↔ err ≠ None)).
  { intros op err. split.
    - destruct err as [e|]; simpl.
      + rewrite <-(assoc_L (++)). apply query_span; [done|by repeat constructor|by rewrite open_app].
      + apply (query_span op sql tr []); [done|done|by rewrite app_nil_r].
    - destruct err as [e|]; simpl; rewrite !failed_app.
      + split; [done|]. intros _. left. right. eexists. right. by left.
      + split; [|done]. intros [[?|[d ?%list_elem_of_singleton]]|[d ?%list_elem_of_singleton]]; done. }
  unfold Exec_t, Query_t, QueryRow_t. cbn [startSpan tracer_Start]. split_and!.
  - destruct (Exec q w) as [w' err]. eexists. split; [done|]. apply Hspan.
  - destruct (Query q w) as [w' [e|r]]; eexists; (split; [done|]).
    + destruct (Hspan "query" (Some e)) as [H1 H2]. split; [exact H1|]. simpl in H2. rewrite H2. naive_solver.
    + destruct (Hspan "query" None) as [H1 H2]. split; [exact H1|]. simpl in H2. rewrite H2. naive_solver.
  - destruct (QueryRow q w) as [w' r]. eexists. split; [done|].
    destruct (Hspan "query_row" None) as [H1 H2]. split; [exact H1|]. simpl in H2. rewrite H2. naive_solver.
Qed.

End Properties.

(** [Open] leaks no pool: when it returns an error, every pool it created is
    closed; when it succeeds, the pool is open, has the limits of the options
    that are positive and those of the DSN otherwise, and the log line shows the
    DSN without its password. *)
Theorem open_no_leak parse new ping reg dsn opts :
  let '(acts, err) := Open parse new ping reg dsn opts in
  match err with
  | Some _ => acts = [] ∨ ∃ cfg, acts = [CreatePool cfg; ClosePool]
  | None => ∃ c,
      parse dsn = inr c ∧ ping = None ∧
      let o := fold_left (λ o opt, opt o) opts defaultOptions in
      acts = [CreatePool (MkConfig (if 0 <? maxConns o then maxConns o else MaxConns c)
                            (if 0 <? minConns o then minConns o else MinConns c)
                            (Host c) (Database c) (User c) (Password c) true);
              LogConnected ("postgres://" +:+ User c +:+ "@" +:+ Host c +:+ "/" +:+ Database c)]
  end.
Proof.
  unfold Open, maskDSN. destruct (parse dsn) as [e|c]; [by left|]. simpl.
  rewrite !Z.gtb_ltb. set (o := fold_left _ _ _).
  destruct (new _); [by left|]. destruct ping; [by right; eexists|].
  destruct (if promReg o then reg else None); [by right; eexists|]. by exists c.
Qed.

(** A provider always exports to stdout, and to OTLP exactly when an endpoint
    is set; its resource has the service name, the version and environment when
    set, and the extra attributes in the order given. *)
Theorem provider_spec {Sampler} (s : Sampler) resource stdout otlp opts acts :
  NewTracerProvider s resource stdout otlp opts = (acts, None) →
  let cfg := fold_left (λ c o, o c) opts (MkProviderConfig Sampler "gkit-service" "" "" "" s []) in
  let exporters := "stdout" :: (if bool_decide (otlpEndpoint cfg = "") then [] else ["otlp"]) in
  acts = (StartProcessor <$> exporters) ++ [NewProvider exporters (resource_attrs cfg); SetGlobal ["TraceContext"; "Baggage"]].
Proof.
  unfold NewTracerProvider. destruct resource; [done|]. destruct stdout; [done|]. simpl.
  set (cfg := fold_left _ _ _).
  destruct (decide (otlpEndpoint cfg = "")) as [E|E].
  - rewrite (bool_decide_eq_false_2 (otlpEndpoint cfg ≠ "")) by naive_solver. rewrite bool_decide_eq_true_2 by done.
    by intros [= <-].
  - rewrite bool_decide_eq_true_2, bool_decide_eq_false_2 by done. destruct (otlp _); [done|]. by intros [= <-].
Qed.

(** When the OTLP exporter cannot be created the stdout processor has been
    started and is never shut down. *)
Theorem provider_leaks {Sampler} (s : Sampler) addr err :
  addr ≠ "" →
  NewTracerProvider s None None (λ _, Some err) [WithOTLPEndpoint addr]
  = ([StartProcessor "stdout"], Some (ErrWrap "otel: OTLP exporter: %w" [] err)).
Proof. intros Ha. unfold NewTracerProvider. simpl. by rewrite bool_decide_eq_true_2. Qed.

(** [RecordError] of pkg/otel adds the error to the span but never marks the span
    as failed. *)
Theorem record_error_no_status sp err tr : failed sp (RecordError sp err tr) ↔ failed sp tr.
Proof.
  destruct err as [e|]; simpl; [|done]. rewrite failed_app. split; [|tauto].
  intros [?|[d ?%list_elem_of_singleton]]; done.
Qed.

(** ** Witnesses *)

Lemma tracing_transparent_witness : ∃ tr',
  WithTx_t (λ _, "e") None (λ _ _ x, (x, Ret (Some context_Canceled))) (Mem 1%nat 1%nat [], [])
  = ((Mem 1%nat 1%nat [], tr'), Ret (Some context_Canceled)) ∧ failed 0%nat tr'.
Proof.
  destruct (tracing_transparent (λ _, "e") (Tx:=unit) (λ _ _ x, (x, Ret (Some context_Canceled)))
    (λ _ _ w, (w, Ret (Some context_Canceled))) None (Mem 1%nat 1%nat []) []) as (tr' & Hrun & _ & Hf).
  - intros ctx tx w tr _. exists tr. split; [done|apply extends_refl].
  - constructor.
  - exists tr'. split; [exact Hrun|]. by apply Hf.
Defined.

Lemma query_spans_witness : ∃ tr',
  Exec_t (λ _, "e") "SELECT 1" (λ _, inl context_Canceled : error + nat * unit) (Mem 1%nat 1%nat [], [])
  = ((Mem 1%nat 1%nat [], tr'), Some context_Canceled) ∧ failed 0%nat tr'.
Proof.
  destruct (query_spans (λ _, "e") (Tx:=unit) "SELECT 1" (λ _, inl context_Canceled : error + nat * unit)
    (Mem 1%nat 1%nat []) []) as ((tr' & Hrun & _ & Hf) & _); [constructor|].
  exists tr'. split; [exact Hrun|]. by apply Hf.
Defined.

Lemma provider_spec_witness :
  NewTracerProvider tt None None (λ _, None) [WithServiceName "svc"; WithOTLPEndpoint "tempo:4317"]
  = ([StartProcessor "stdout"; StartProcessor "otlp"; NewProvider ["stdout"; "otlp"] [("service.name", "svc")];
      SetGlobal ["TraceContext"; "Baggage"]], None).
Proof.
  destruct (NewTracerProvider tt None None (λ _, None) [WithServiceName "svc"; WithOTLPEndpoint "tempo:4317"])
    as [acts [e|]] eqn:E; [discriminate|].
  rewrite (provider_spec tt None None (λ _, None) _ acts E). reflexivity.
Defined.

Lemma provider_leaks_witness :
  (NewTracerProvider tt None None (λ _, Some context_Canceled) [WithOTLPEndpoint "x:1"]).1 = [StartProcessor "stdout"].
Proof. rewrite (provider_leaks tt "x:1" context_Canceled); [reflexivity|discriminate]. Defined.

End Tracing.
