(* ===== verification/EventStore.v ===== *)
(** * pkg/eventstore: append-only streams with optimistic concurrency

    The [events] and [snapshots] tables are the contents [db]; each SQL
    statement of the package is a function on them.  [Append] runs in [WithTx]
    against the interface of Store.v.  [json.Marshal] works by reflection on
    values of any type: [Marshal] and [MarshalMeta] are parameters of the
    section; they stand for the encoding as the JSONB column gives it back,
    which keeps the JSON value and not its bytes.  Nothing is assumed about them. *)

From S2P Require Import Prelude GoLang Store.
From stdpp Require Import sorting.
Open Scope Z_scope.

Module EventStore.
Import Store.

Definition ExpectedVersionNew : Z := -1.
Definition ExpectedVersionAny : Z := -2.

Definition ErrVersionConflict_id : positive := 40.
Definition ErrStreamNotFound_id : positive := 41.
Definition ErrVersionConflict : error := ErrNew 40 "eventstore: version conflict".
Definition ErrStreamNotFound : error := ErrNew 41 "eventstore: stream not found".
Definition ErrNoRows_id : positive := 42.
Definition ErrNoRows : error := ErrNew 42 "no rows in result set".
Definition unique_violation : error := ErrNew 43 "duplicate key value violates unique constraint".

Record Event := MkEvent {
  StreamID : string; Version : Z; Type_ : string; Data : string; Metadata : string; CreatedAt : Time
}.

Record Snapshot := MkSnapshot {
  S_StreamID : string; S_Version : Z; S_Data : string; S_CreatedAt : Time
}.

(** [Event.Decode] and [Snapshot.Decode]. *)
Definition Decode {A} (Unmarshal : string → error + A) (e : Event) : error + A := Unmarshal (Data e).
Definition Snapshot_Decode {A} (Unmarshal : string → error + A) (s : Snapshot) : error + A := Unmarshal (S_Data s).

(** [M] is the type of metadata maps; the nil map is [None]. *)
Record EventData (A M : Type) := MkEventData { ED_Type : string; ED_Data : A; ED_Metadata : option M }.
Arguments MkEventData {A M}.
Arguments ED_Type {A M}.
Arguments ED_Data {A M}.
Arguments ED_Metadata {A M}.

Record db := Db { events : list Event; snapshots : gmap string Snapshot }.

(** ** The SQL statements *)

Definition of_stream (s : string) (e : Event) : Prop := StreamID e = s.
#[export] Instance of_stream_dec s e : Decision (of_stream s e) := decide (StreamID e = s).

Definition stream (s : string) (d : db) : list Event := filter (of_stream s) (events d).

(** [SELECT COALESCE(MAX(version), -1) FROM events WHERE stream_id = $1] *)
Definition select_max_version (s : string) : sql db Z := λ d,
  inr (d, match Version <$> stream s d with [] => -1 | v :: vs => foldr Z.max v vs end).

(** [INSERT INTO events]: the primary key is [(stream_id, version)]. *)
Definition insert_event (row : Event) : sql db unit := λ d,
  if existsb (λ e, bool_decide (StreamID e = StreamID row) && (Version e =? Version row)) (events d)
  then inl unique_violation
  else inr (Db (events d ++ [row]) (snapshots d), tt).

Definition version_le (a b : Event) : Prop := Version a ≤ Version b.
#[export] Instance version_le_dec a b : Decision (version_le a b) := decide (Version a ≤ Version b).

(** [SELECT .. WHERE stream_id = $1 AND version >= $2 ORDER BY version] *)
Definition select_events (s : string) (from : Z) : sql db (list Event) := λ d,
  inr (d, merge_sort version_le (filter (λ e, from ≤ Version e) (stream s d))).

(** [INSERT INTO snapshots .. ON CONFLICT (stream_id) DO UPDATE] *)
Definition upsert_snapshot (row : Snapshot) : sql db unit := λ d,
  inr (Db (events d) (<[S_StreamID row := row]> (snapshots d)), tt).

(** [SELECT .. FROM snapshots WHERE stream_id = $1]; [Scan] turns no row into
    [pgx.ErrNoRows]. *)
Definition select_snapshot (s : string) : sql db Snapshot := λ d,
  match snapshots d !! s with Some r => inr (d, r) | None => inl ErrNoRows end.

(** ** Operations *)

Section Operations.
Context {W Tx : Type} `{Postgres W Tx db}.
Context {A M : Type} (Marshal : A → error + string) (MarshalMeta : M → error + string) (empty_meta : M).
Context (NOW : Time).

Definition currentVersion (tx : Tx) (streamID : string) (w : W) : W * (error + Z) :=
  match tx_query tx (select_max_version streamID) w with
  | (w, inl err) => (w, inl (ErrWrap "eventstore: read version %q: %w" [streamID] err))
  | (w, inr v) => (w, inr v)
  end.

(** The loop over the events of [Append]. *)
Fixpoint Append_loop (tx : Tx) (streamID : string) (evs : list (EventData A M)) (nextVersion : Z) (w : W)
    : W * option error :=
  match evs with
  | [] => (w, None)
  | ed :: evs =>
    match Marshal (ED_Data ed) with
    | inl err => (w, Some (ErrWrap "eventstore: marshal data for %q: %w" [ED_Type ed] err))
    | inr data =>
      let meta := match ED_Metadata ed with None => empty_meta | Some m => m end in
      match MarshalMeta meta with
      | inl err => (w, Some (ErrWrap "eventstore: marshal metadata for %q: %w" [ED_Type ed] err))
      | inr metaJSON =>
        match tx_Exec tx (insert_event (MkEvent streamID nextVersion (ED_Type ed) data metaJSON NOW)) w with
        | (w, Some err) => (w, Some (ErrWrap "eventstore: insert event %q v%d: %w" [ED_Type ed] err))
        | (w, None) => Append_loop tx streamID evs (wrap64 (nextVersion + 1)) w
        end
      end
    end
  end.

Definition check_version (streamID : string) (current expectedVersion : Z) : option error :=
  if expectedVersion =? ExpectedVersionNew then
    if current >=? 0
    then Some (ErrWrap "%w: stream %q already exists at version %d" [streamID] ErrVersionConflict) else None
  else if expectedVersion =? ExpectedVersionAny then None
  else if negb (current =? expectedVersion)
  then Some (ErrWrap "%w: stream %q at version %d, expected %d" [streamID] ErrVersionConflict) else None.

Definition Append_body (streamID : string) (evs : list (EventData A M)) (expectedVersion : Z)
    (ctx : context Tx) (tx : Tx) (w : W) : W * outcome (option error) :=
  match currentVersion tx streamID w with
  | (w, inl err) => (w, Ret (Some err))
  | (w, inr current) =>
    match check_version streamID current expectedVersion with
    | Some err => (w, Ret (Some err))
    | None => let '(w, r) := Append_loop tx streamID evs (wrap64 (current + 1)) w in (w, Ret r)
    end
  end.

Definition Append (ctx : context Tx) (streamID : string) (evs : list (EventData A M)) (expectedVersion : Z)
    (w : W) : W * outcome (option error) :=
  if (length evs =? 0)%nat then (w, Ret None)
  else WithTx ctx (Append_body streamID evs expectedVersion) w.

Definition Load (streamID : string) (fromVersion : Z) (w : W) : W * (error + list Event) :=
  match Query (select_events streamID fromVersion) w with
  | (w, inl err) => (w, inl (ErrWrap "eventstore: load %q: %w" [streamID] err))
  | (w, inr rows) =>
    match CollectRows (D:=db) rows w with
    | (w, inl err) => (w, inl (ErrWrap "eventstore: scan %q: %w" [streamID] err))
    | (w, inr evs) =>
      if (length evs =? 0)%nat && (fromVersion =? 0)
      then (w, inl (ErrWrap "%w: %q" [streamID] ErrStreamNotFound)) else (w, inr evs)
    end
  end.

Definition CurrentVersion (streamID : string) (w : W) : W * (Z * option error) :=
  match QueryRow (select_max_version streamID) w with
  | (w, inl err) => (w, (-1, Some (ErrWrap "eventstore: current version %q: %w" [streamID] err)))
  | (w, inr v) => (w, (v, None))
  end.

Definition SaveSnapshot (streamID : string) (version : Z) (state : A) (w : W) : W * option error :=
  match Marshal state with
  | inl err => (w, Some (ErrWrap "eventstore: marshal snapshot: %w" [] err))
  | inr data =>
    match Exec (upsert_snapshot (MkSnapshot streamID version data NOW)) w with
    | (w, Some err) => (w, Some (ErrWrap "eventstore: save snapshot %q: %w" [streamID] err))
    | (w, None) => (w, None)
    end
  end.

Definition LoadSnapshot (streamID : string) (w : W) : W * (error + option Snapshot) :=
  match QueryRow (select_snapshot streamID) w with
  | (w, inl err) =>
    if errors_Is (Some err) ErrNoRows_id then (w, inr None)
    else (w, inl (ErrWrap "eventstore: load snapshot %q: %w" [streamID] err))
  | (w, inr snap) => (w, inr (Some snap))
  end.

(** ** Specification *)

(** The rows an append of [evs] at version [v] writes, if they can be encoded. *)
Fixpoint encode (s : string) (v : Z) (evs : list (EventData A M)) : option (list Event) :=
  match evs with
  | [] => Some []
  | ed :: evs =>
    match Marshal (ED_Data ed), MarshalMeta (default empty_meta (ED_Metadata ed)), encode s (v + 1) evs with
    | inr data, inr meta, Some rows => Some (MkEvent s v (ED_Type ed) data meta NOW :: rows)
    | _, _, _ => None
    end
  end.

End Operations.

(** The number of events of a stream is one more than its version. *)
Definition size (s : string) (d : db) : Z := Z.of_nat (length (stream s d)).

(** Versions of every stream are 0, 1, 2, ... without gap or repetition. *)
Definition wf (d : db) : Prop := ∀ s, Version <$> stream s d = seqZ 0 (size s d).

(** The optimistic concurrency condition of the documentation. *)
Definition expected_ok (expected : Z) (n : Z) : Prop :=
  (expected = ExpectedVersionNew ∧ n = 0) ∨ expected = ExpectedVersionAny ∨ (0 ≤ expected ∧ expected = n - 1).

(** ** Lemmas *)

Lemma foldr_max_spec v vs :
  foldr Z.max v vs ∈ v :: vs ∧ ∀ x, x ∈ v :: vs → x ≤ foldr Z.max v vs.
Proof.
  induction vs as [|u vs [IH1 IH2]]; simpl.
  - split; [by left|]. intros x Hx. apply list_elem_of_singleton in Hx. lia.
  - split.
    + destruct (Z.max_spec u (foldr Z.max v vs)) as [[_ ->]|[_ ->]]; set_solver.
    + intros x. rewrite !elem_of_cons. intros [->|[->|Hx]]; [|lia|]; etransitivity;
        [apply IH2| |apply IH2|]; try apply Z.le_max_r; set_solver.
Qed.

Lemma select_max_wf s d : wf d → select_max_version s d = inr (d, size s d - 1).
Proof.
  intros Hwf. unfold select_max_version. specialize (Hwf s). do 2 f_equal.
  destruct (Version <$> stream s d) as [|v vs] eqn:E.
  - apply fmap_nil_inv in E. unfold size. by rewrite E.
  - destruct (foldr_max_spec v vs) as [H1 H2]. rewrite Hwf in H1, H2.
    assert (0 < size s d) by (unfold size in *; destruct (stream s d); [done|simpl; lia]).
    apply elem_of_seqZ in H1. specialize (H2 (size s d - 1)). rewrite elem_of_seqZ in H2. lia.
Qed.

Lemma stream_app s d rows ss :
  stream s (Db (events d ++ rows) ss) = stream s d ++ filter (of_stream s) rows.
Proof. unfold stream. simpl. by rewrite filter_app. Qed.

Lemma insert_event_fresh row d :
  wf d → Version row = size (StreamID row) d →
  insert_event row d = inr (Db (events d ++ [row]) (snapshots d), tt).
Proof.
  intros Hwf Hv. unfold insert_event. dmatch; [exfalso|done].
  apply existsb_exists in E as (e & He & Hb). apply andb_true_iff in Hb as [Hs Hn].
  apply bool_decide_eq_true in Hs. zbool.
  assert (Hin : Version e ∈ Version <$> stream (StreamID row) d).
  { apply list_elem_of_fmap_2. apply list_elem_of_filter. split; [done|]. by apply list_elem_of_In. }
  rewrite (Hwf (StreamID row)), elem_of_seqZ in Hin. lia.
Qed.

Lemma wf_insert row d : wf d → Version row = size (StreamID row) d →
  wf (Db (events d ++ [row]) (snapshots d)).
Proof.
  intros Hwf Hv s. unfold size. rewrite stream_app, filter_cons, filter_nil.
  destruct (decide (of_stream s row)) as [Hs|Hs].
  - rewrite fmap_app, length_app, Hwf. unfold of_stream in Hs. subst s. simpl.
    rewrite Nat2Z.inj_add, seqZ_app by lia. f_equal. simpl. f_equal. rewrite Hv. done.
  - rewrite app_nil_r. apply Hwf.
Qed.

Lemma stream_insert s row d :
  stream s (Db (events d ++ [row]) (snapshots d))
  = stream s d ++ (if decide (StreamID row = s) then [row] else []).
Proof. rewrite stream_app, filter_cons, filter_nil. unfold of_stream. by repeat case_decide. Qed.

Lemma size_insert s row d : size s (Db (events d ++ [row]) (snapshots d))
  = size s d + (if decide (StreamID row = s) then 1 else 0).
Proof. unfold size. rewrite stream_insert, length_app. case_decide; simpl; lia. Qed.

Lemma check_version_ok s n expected : 0 ≤ n →
  check_version s (n - 1) expected = None ↔ expected_ok expected n.
Proof.
  intros Hn. unfold check_version, expected_ok, ExpectedVersionNew, ExpectedVersionAny.
  split; intros; repeat (dmatch || dmatch_in H); zbool; try done; lia.
Qed.

Lemma check_version_conflict s v expected e :
  check_version s v expected = Some e → errors_Is (Some e) ErrVersionConflict_id = true.
Proof. unfold check_version. intros H. repeat dmatch_in H; simplify_eq; done. Qed.

(** ** ORDER BY *)

Lemma seqZ_S m n : seqZ m (Z.of_nat (S n)) = m :: seqZ (m + 1) (Z.of_nat n).
Proof. rewrite seqZ_cons by lia. f_equal; f_equal; lia. Qed.

Lemma filter_from l a from :
  Version <$> l = seqZ a (Z.of_nat (length l)) →
  filter (λ e, from ≤ Version e) l = drop (Z.to_nat (from - a)) l.
Proof.
  revert a. induction l as [|e l IH]; intros a Hl; [by rewrite drop_nil|].
  rewrite length_cons, seqZ_S in Hl. injection Hl as Ha Hl.
  rewrite filter_cons, (IH _ Hl). case_decide.
  - replace (Z.to_nat (from - a)) with 0%nat by lia. replace (Z.to_nat (from - (a + 1))) with 0%nat by lia. done.
  - replace (Z.to_nat (from - a)) with (S (Z.to_nat (from - (a + 1)))) by lia. done.
Qed.

Lemma perm_fmap_inj {X Y} (f : X → Y) (l1 l2 : list X) :
  NoDup (f <$> l1) → l1 ≡ₚ l2 → f <$> l1 = f <$> l2 → l1 = l2.
Proof.
  revert l2. induction l1 as [|x l1 IH]; intros [|y l2] Hnd Hp Hf; try done.
  simpl in *. injection Hf as Hxy Hf. apply NoDup_cons in Hnd as [Hni Hnd].
  assert (x = y) as ->.
  { assert (Hx : x ∈ y :: l2) by (rewrite <-Hp; by left). apply elem_of_cons in Hx as [?|Hx]; [done|].
    destruct Hni. rewrite Hf. by apply list_elem_of_fmap_2. }
  f_equal. apply IH; [done| |done]. by apply Permutation_cons_inv in Hp.
Qed.

Lemma sort_versions l : StronglySorted version_le l → NoDup (Version <$> l) → merge_sort version_le l = l.
Proof.
  intros Hs Hnd.
  assert (Hp : l ≡ₚ merge_sort version_le l) by (symmetry; apply merge_sort_Permutation).
  symmetry. apply (perm_fmap_inj Version); [done|done|].
  assert (Hle : ∀ k, StronglySorted version_le k → StronglySorted Z.le (Version <$> k)).
  { clear. intros k Hk. induction Hk as [|x k _ IH Hx]; simpl; constructor; [done|].
    rewrite Forall_fmap. done. }
  apply (StronglySorted_unique Z.le); [by apply Hle| |by rewrite <-Hp].
  apply Hle. apply StronglySorted_merge_sort.
  - intros a b c. unfold version_le. lia.
  - intros a b. unfold version_le. lia.
Qed.

Lemma sorted_seqZ l a : Version <$> l = seqZ a (Z.of_nat (length l)) →
  StronglySorted version_le l ∧ Forall (λ e, a ≤ Version e) l.
Proof.
  revert a. induction l as [|e l IH]; intros a Hl; [split; constructor|].
  rewrite length_cons, seqZ_S in Hl. injection Hl as Ha Hl.
  apply IH in Hl as [Hs Hf]. split.
  - constructor; [done|]. eapply Forall_impl; [exact Hf|]. unfold version_le. simpl. lia.
  - constructor; [lia|]. eapply Forall_impl; [exact Hf|]. simpl. lia.
Qed.

Lemma select_events_wf s from d : wf d →
  select_events s from d = inr (d, drop (Z.to_nat from) (stream s d)).
Proof.
  intros Hwf. unfold select_events. do 2 f_equal.
  rewrite (filter_from _ 0) by apply Hwf. rewrite Z.sub_0_r.
  destruct (sorted_seqZ _ _ (Hwf s)) as [Hs _].
  assert (Hnd : NoDup (Version <$> stream s d)) by (rewrite (Hwf s); apply NoDup_seqZ).
  apply sort_versions.
  - rewrite <-(take_drop (Z.to_nat from) (stream s d)) in Hs. by apply StronglySorted_app_1_r in Hs.
  - rewrite fmap_drop. rewrite <-(take_drop (Z.to_nat from)) in Hnd. by apply NoDup_app in Hnd as (_ & _ & ?).
Qed.

Section Proofs.
Context {W Tx : Type} `{PostgresLaws W Tx db}.
Context {A M : Type} (Marshal : A → error + string) (MarshalMeta : M → error + string) (empty_meta : M).
Context (NOW : Time).
#[local] Notation Append := (Append (Tx:=Tx) Marshal MarshalMeta empty_meta NOW).
#[local] Notation Append_body := (Append_body (Tx:=Tx) Marshal MarshalMeta empty_meta NOW).
#[local] Notation Append_loop := (Append_loop (Tx:=Tx) Marshal MarshalMeta empty_meta NOW).
#[local] Notation encode := (encode Marshal MarshalMeta empty_meta NOW).

Lemma Append_loop_spec tx s evs v w w' r :
  wf (view tx w) → v = size s (view tx w) → v + Z.of_nat (length evs) ≤ int64_max →
  Append_loop tx s evs v w = (w', r) →
  committed w' = committed w ∧
  (r = None → ∃ rows, encode s v evs = Some rows ∧ wf (view tx w') ∧
     view tx w' = Db (events (view tx w) ++ rows) (snapshots (view tx w))).
Proof.
  revert v w. induction evs as [|ed evs IH]; intros v w Hwf Hv Hb HL; simpl in *.
  { simplify_eq. split; [done|]. intros _. exists []. rewrite app_nil_r. by destruct (view tx w'). }
  destruct (Marshal (ED_Data ed)) as [e|data]; [by simplify_eq|].
  change (match ED_Metadata ed with None => empty_meta | Some m => m end)
    with (default empty_meta (ED_Metadata ed)) in HL.
  destruct (MarshalMeta (default empty_meta (ED_Metadata ed))) as [e|meta]; [by simplify_eq|].
  set (row := MkEvent s v (ED_Type ed) data meta NOW) in *.
  destruct (tx_Exec tx (insert_event row) w) as [w1 [e|]] eqn:EX; apply tx_Exec_cases in EX as [Hc Hx].
  { by simplify_eq. }
  destruct Hx as [[] Hx]. rewrite insert_event_fresh in Hx by done. injection Hx as Hx.
  rewrite wrap64_id in HL by (unfold is_int64, int64_min, int64_max, size in *; lia).
  apply IH in HL as [Hc' HN]; rewrite <-?Hx; [|by apply wf_insert| |lia].
  2: { rewrite size_insert. simpl. case_decide; [lia|done]. }
  split; [congruence|]. intros ->. destruct HN as (rows & -> & Hwf' & Hv'); [done|].
  exists (row :: rows). split_and!; [done|done|]. rewrite Hv', <-Hx. simpl. by rewrite <-app_assoc.
Qed.

Lemma Append_body_spec ctx tx s evs expected w w' r :
  wf (view tx w) → size s (view tx w) + Z.of_nat (length evs) ≤ int64_max →
  Append_body s evs expected ctx tx w = (w', Ret r) →
  r = None → ∃ rows, encode s (size s (view tx w)) evs = Some rows ∧ wf (view tx w') ∧
    expected_ok expected (size s (view tx w)) ∧
    view tx w' = Db (events (view tx w) ++ rows) (snapshots (view tx w)).
Proof.
  intros Hwf Hb HA ->. unfold Append_body, currentVersion in HA.
  destruct (tx_query tx (select_max_version s) w) as [w1 [e|v]] eqn:EQ; [done|].
  apply query_ok in EQ as [EQ Hc]. rewrite select_max_wf in EQ by done. injection EQ as Hv1 Hv.
  destruct (check_version s v expected) eqn:EC; [done|].
  destruct (Append_loop tx s evs (wrap64 (v + 1)) w1) as [w2 r] eqn:EL. simplify_eq.
  rewrite check_version_ok in EC by (unfold size; lia).
  apply Append_loop_spec in EL as [_ HN]; rewrite <-?Hv1; try done.
  - destruct HN as (rows & He & ? & ?); [done|]. exists rows. rewrite Hv1 in *.
    replace (wrap64 (size s (view tx w1) - 1 + 1)) with (size s (view tx w1)) in He; [done|].
    rewrite wrap64_id; unfold is_int64, int64_min, int64_max, size in *; lia.
  - rewrite wrap64_id; unfold is_int64, int64_min, int64_max, size in *; lia.
  - rewrite wrap64_id; unfold is_int64, int64_min, int64_max, size in *; lia.
Qed.

Lemma Append_loop_committed tx s evs v w :
  committed (Append_loop tx s evs v w).1 = committed w.
Proof.
  revert v w. induction evs as [|ed evs IH]; intros v w; simpl; [done|].
  destruct (Marshal _) as [|data]; [done|]. destruct (MarshalMeta _) as [|meta]; [done|].
  destruct (tx_Exec tx _ w) as [w1 [e|]] eqn:EX; apply tx_Exec_cases in EX as [Hc _]; simpl; [done|].
  by rewrite IH.
Qed.

Lemma Append_tx_body s evs expected : tx_body (Append_body s evs expected).
Proof.
  intros ctx tx w. unfold Append_body, currentVersion.
  destruct (tx_query tx (select_max_version s) w) as [w1 [e|v]] eqn:EQ; simpl.
  - by apply query_err in EQ as [_ ?].
  - apply query_ok in EQ as [_ Hc]. destruct (check_version s v expected); [done|].
    pose proof (Append_loop_committed tx s evs (wrap64 (v + 1)) w1) as HL.
    destruct (Append_loop tx s evs (wrap64 (v + 1)) w1). simpl in *. congruence.
Qed.

Lemma encode_stream s v evs rows : encode s v evs = Some rows →
  length rows = length evs ∧ filter (of_stream s) rows = rows.
Proof.
  revert v rows. induction evs as [|ed evs IH]; intros v rows Hr; simpl in *; [by simplify_eq|].
  repeat dmatch_in Hr; simplify_eq. apply IH in E1 as [Hl Hf]. simpl. rewrite Hl. split; [done|].
  rewrite filter_cons_True by done. by rewrite Hf.
Qed.

Lemma encode_numbers s v evs rows : encode s v evs = Some rows →
  ∀ i e, rows !! i = Some e → StreamID e = s ∧ Version e = v + Z.of_nat i.
Proof.
  revert v rows. induction evs as [|ed evs IH]; intros v rows Hr i e He; simpl in *; [by simplify_eq|].
  repeat dmatch_in Hr; simplify_eq. destruct i as [|i]; simplify_eq/=; [split; [done|lia]|].
  edestruct (IH (v + 1)) as [? ->]; [done|exact He|]. split; [done|lia].
Qed.

(** A row holds what the event was given with: its type, and its data and metadata encoded. *)
Definition row_of (ed : EventData A M) (e : Event) : Prop :=
  Type_ e = ED_Type ed ∧ Marshal (ED_Data ed) = inr (Data e) ∧
  MarshalMeta (default empty_meta (ED_Metadata ed)) = inr (Metadata e).

Lemma encode_rows s v evs rows : encode s v evs = Some rows → Forall2 row_of evs rows.
Proof.
  revert v rows. induction evs as [|ed evs IH]; intros v rows Hr; simpl in *; [by simplify_eq|].
  repeat dmatch_in Hr; simplify_eq. constructor; [done|by eapply IH].
Qed.

Lemma append_cases s evs expected w w' r :
  wf (committed w) → size s (committed w) + Z.of_nat (length evs) ≤ int64_max →
  Append None s evs expected w = (w', r) →
  wf (committed w') ∧
  ((committed w' = committed w ∧ (r = Ret None → evs = [])) ∨
   (∃ rows, evs ≠ [] ∧ expected_ok expected (size s (committed w)) ∧
      encode s (size s (committed w)) evs = Some rows ∧
      committed w' = Db (events (committed w) ++ rows) (snapshots (committed w)) ∧
      (r = Ret None ∨ ∃ e, r = Ret (Some (ErrWrap "store: commit: %w" [] e))))).
Proof.
  intros Hwf Hb HA. unfold EventStore.Append in HA. destruct evs as [|ed evs]; [simpl in HA; by simplify_eq; eauto|].
  apply WithTx_cases in HA; [|apply Append_tx_body].
  inversion HA as [e Hc|tx w1 w2 Hv1 Hc1 Hf Hc|tx w1 w2 e Hv1 Hc1 Hf Hc|tx w1 w2 p Hv1 Hc1 Hf Hc
                  |tx w1 w2 e Hv1 Hc1 Hf Hc]; subst r.
  - rewrite Hc. split; [done|]. left. done.
  - rewrite <-Hv1 in Hwf, Hb. apply Append_body_spec in Hf as (rows & ? & ? & ? & Hv2); [|done..].
    rewrite Hc. split; [done|]. right. exists rows. rewrite <-Hv1. eauto 10.
  - rewrite Hc. split; [done|]. left. done.
  - rewrite Hc. split; [done|]. left. done.
  - rewrite <-Hv1 in Hwf, Hb. apply Append_body_spec in Hf as (rows & ? & ? & ? & Hv2); [|done..].
    destruct Hc as [Hc|Hc]; rewrite Hc.
    + rewrite <-Hv1. split; [done|]. by left.
    + split; [done|]. right. exists rows. rewrite <-Hv1. eauto 10.
Qed.

Lemma append_facts s evs expected w w1 :
  wf (committed w) → evs ≠ [] → size s (committed w) + Z.of_nat (length evs) ≤ int64_max →
  Append None s evs expected w = (w1, Ret None) →
  ∃ rows, encode s (size s (committed w)) evs = Some rows ∧ length rows = length evs ∧ wf (committed w1) ∧
    stream s (committed w1) = stream s (committed w) ++ rows.
Proof.
  intros Hwf Hne Hb HA. apply append_cases in HA as [Hwf1 HA]; [|done..].
  destruct HA as [[_ HA]|(rows & _ & _ & Hr & Hc & _)]; [by specialize (HA eq_refl)|].
  exists rows. destruct (encode_stream _ _ _ _ Hr) as [Hl Hf]. split_and!; try done.
  by rewrite Hc, stream_app, Hf.
Qed.

(** ** Properties *)

(** C28: [Append] outside a transaction, on a store whose streams are numbered
    0, 1, 2, ...: either nothing is committed, and then the call succeeded only
    if there was nothing to append; or the expected version matched and exactly
    the encoded events are committed, after the ones the stream had and
    numbered consecutively, and then the call succeeded or reports a failed
    commit.  The numbering invariant is preserved in every case. *)
Theorem append_spec s evs expected w w' r :
  wf (committed w) → size s (committed w) + Z.of_nat (length evs) ≤ int64_max →
  Append None s evs expected w = (w', r) →
  wf (committed w') ∧
  ((committed w' = committed w ∧ (r = Ret None → evs = [])) ∨
   (∃ rows, evs ≠ [] ∧ expected_ok expected (size s (committed w)) ∧
      encode s (size s (committed w)) evs = Some rows ∧
      committed w' = Db (events (committed w) ++ rows) (snapshots (committed w)) ∧
      (r = Ret None ∨ ∃ e, r = Ret (Some (ErrWrap "store: commit: %w" [] e))))).
Proof. apply append_cases. Qed.

(** A stale writer is refused: when the version it expects is not the current
    one, [Append] commits nothing and, if the transaction begins and the version
    is read, the error it returns is [ErrVersionConflict]. *)
Theorem append_conflict s evs expected w w1 w2 tx v :
  wf (committed w) → evs ≠ [] → ¬ expected_ok expected (size s (committed w)) →
  BeginTx w = (w1, inr tx) → tx_query tx (select_max_version s) w1 = (w2, inr v) →
  ∃ e, Append None s evs expected w = ((Rollback tx w2).1, Ret (Some e)) ∧
    errors_Is (Some e) ErrVersionConflict_id = true ∧ committed (Rollback tx w2).1 = committed w.
Proof.
  intros Hwf Hne Hex HB HQ. unfold EventStore.Append. destruct evs as [|ed evs]; [done|]. simpl.
  unfold WithTx. simpl. rewrite HB. unfold EventStore.Append_body, currentVersion. rewrite HQ.
  apply begin_ok in HB as [Hc1 Hv1]. apply query_ok in HQ as [HQ Hc2].
  rewrite Hv1, select_max_wf in HQ by done. injection HQ as Hv2 <-.
  destruct (check_version s (size s (committed w) - 1) expected) as [e|] eqn:EC.
  - exists e. rewrite rollback_committed. split_and!; [done|by eapply check_version_conflict|congruence].
  - by rewrite check_version_ok in EC by (unfold size; lia).
Qed.

(** C29: What is appended is what is loaded: after a successful [Append], [Load]
    from the version the stream had returns exactly the appended events, in order,
    and [Load] from 0 returns the earlier events followed by them.  The loaded events belong to
    the stream, are numbered from the version it had, and each has the type of the event
    appended, and as data and metadata the JSON these were encoded to, which is what [Decode]
    unmarshals. *)
Theorem append_load s evs expected w w1 w2 w3 l l' from :
  wf (committed w) → evs ≠ [] → size s (committed w) + Z.of_nat (length evs) ≤ int64_max →
  Append None s evs expected w = (w1, Ret None) →
  pool_query (select_events s from) w1 = (w2, inr l) → CollectRows (D:=db) l w2 = (w3, inr l') →
  ∃ rows, Forall2 row_of evs rows ∧
    (∀ i e, rows !! i = Some e → StreamID e = s ∧ Version e = size s (committed w) + Z.of_nat i) ∧
    (from = size s (committed w) → Load s from w1 = (w3, inr rows)) ∧
    (from = 0 → Load s from w1 = (w3, inr (stream s (committed w) ++ rows))).
Proof.
  intros Hwf Hne Hb HA HQ HC. apply append_facts in HA as (rows & Hr & Hlen & Hwf1 & Hst); [|done..].
  exists rows. split; [by eapply encode_rows|]. split; [by eapply encode_numbers|].
  unfold Load, Query. rewrite HQ, HC. apply pool_ok in HQ.
  apply collect_ok in HC as ->.
  rewrite select_events_wf in HQ by done. injection HQ as _ <-. rewrite Hst.
  split; intros ->.
  - rewrite drop_app_length' by (unfold size; lia). destruct rows; [by destruct evs|done].
  - change (Z.to_nat 0) with 0%nat. rewrite drop_0. destruct rows; [by destruct evs|].
    by rewrite length_app, Nat.add_comm.
Qed.

End Proofs.

(** ** Witnesses: on the in-memory server *)

Definition demo_marshal (s : string) : error + string := inr s.
Definition demo_db : db :=
  Db [MkEvent "order-1" 0 "Placed" "a" "{}" 5; MkEvent "order-2" 0 "Placed" "b" "{}" 6] ∅.
Definition demo_evs : list (EventData string string) := [MkEventData "Paid" "p" None; MkEventData "Sent" "s" None].
Definition demo_world : mem db := Mem demo_db demo_db [].
Definition demo_append (expected : Z) : mem db * outcome (option error) :=
  Append demo_marshal demo_marshal "{}" 7 None "order-1" demo_evs expected demo_world.

Lemma demo_wf : wf demo_db.
Proof.
  intros s. unfold size, stream. simpl. rewrite !filter_cons, filter_nil. unfold of_stream. simpl.
  repeat case_decide; subst; done.
Qed.

Lemma append_spec_witness : wf (committed (demo_append 0).1) ∧ (demo_append 0).2 = Ret None.
Proof.
  split; [|reflexivity].
  eapply (append_spec (Tx:=unit) demo_marshal demo_marshal "{}" 7 "order-1" demo_evs 0 demo_world);
    [exact demo_wf|vm_compute; discriminate|reflexivity].
Defined.

Lemma append_conflict_witness : ∃ e, (demo_append 3).2 = Ret (Some e) ∧
  errors_Is (Some e) ErrVersionConflict_id = true.
Proof.
  destruct (append_conflict (Tx:=unit) demo_marshal demo_marshal "{}" 7 "order-1" demo_evs 3 demo_world
    demo_world demo_world tt 0) as (e & He & Hc & _).
  - exact demo_wf.
  - discriminate.
  - vm_compute. intros [[H _]|[H|[_ H]]]; discriminate H.
  - reflexivity.
  - reflexivity.
  - exists e. unfold demo_append. rewrite He. done.
Defined.

Lemma append_load_witness : ∃ w2 rows,
  Load "order-1" 1 (demo_append 0).1 = (w2, inr rows) ∧ Forall2 (row_of demo_marshal demo_marshal "{}") demo_evs rows.
Proof.
  destruct (append_load (Tx:=unit) demo_marshal demo_marshal "{}" 7 "order-1" demo_evs 0 demo_world
    (demo_append 0).1 (demo_append 0).1 (demo_append 0).1
    [MkEvent "order-1" 1 "Paid" "p" "{}" 7; MkEvent "order-1" 2 "Sent" "s" "{}" 7]
    [MkEvent "order-1" 1 "Paid" "p" "{}" 7; MkEvent "order-1" 2 "Sent" "s" "{}" 7] 1)
    as (rows & Hr & _ & HL & _).
  - exact demo_wf.
  - discriminate.
  - vm_compute. discriminate.
  - reflexivity.
  - vm_compute. reflexivity.
  - reflexivity.
  - eexists _, rows. split; [by apply HL|exact Hr].
Defined.

End EventStore.
