(* ===== verification/Outbox.v ===== *)
(** * pkg/outbox: the transactional outbox and its relay

    [outbox_events] is a table of rows; the relay runs against the interface of
    Store.v.  The message bus behind [Publisher] is not part of the repository:
    it is the class [Publisher], with the deliveries it has accepted as an
    observation.  Rows locked by other relays ([FOR UPDATE SKIP LOCKED]) and
    the order of rows with equal [created_at] are arguments. *)

From S2P Require Import Prelude GoLang Store.
From stdpp Require Import sorting.
Open Scope Z_scope.

Module Outbox.
Import Store.

Record row := Row {
  r_id : string; r_topic : string; r_payload : string; r_created : Time; r_published : option Time
}.
Notation db := (list row).

(** The struct scanned by the relay. *)
Record event := Event { id : string; topic : string; payload : string }.

(** ** The SQL statements *)

Definition unique_violation : error := ErrNew 50 "duplicate key value violates unique constraint".
Definition negative_limit : error := ErrNew 51 "LIMIT must not be negative".

(** [INSERT INTO outbox_events (topic, payload)]: the id and the creation time
    are column defaults. *)
Definition insert_event (uuid : string) (now : Time) (t p : string) : sql db unit := λ d,
  if existsb (λ r, bool_decide (r_id r = uuid)) d then inl unique_violation
  else inr (d ++ [Row uuid t p now None], tt).

Definition eligible (locked : list string) (r : row) : Prop := r_published r = None ∧ r_id r ∉ locked.
#[export] Instance eligible_dec locked r : Decision (eligible locked r).
Proof. unfold eligible. apply _. Defined.

Definition to_event (r : row) : event := Event (r_id r) (r_topic r) (r_payload r).

Definition select_unpublished (order : list row → list row) (locked : list string) (limit : Z)
    : sql db (list event) := λ d,
  if limit <? 0 then inl negative_limit
  else inr (d, to_event <$> take (Z.to_nat limit) (order (filter (eligible locked) d))).

(** [UPDATE outbox_events SET published_at = NOW() WHERE id = ANY($1)] *)
Definition mark (now : Time) (ids : list string) (r : row) : row :=
  if bool_decide (r_id r ∈ ids) then Row (r_id r) (r_topic r) (r_payload r) (r_created r) (Some now) else r.
Definition mark_published (now : Time) (ids : list string) : sql db unit := λ d,
  inr (mark now ids <$> d, tt).

(** [ORDER BY created_at]. *)
Definition created_le (a b : row) : Prop := r_created a ≤ r_created b.
#[export] Instance created_le_dec a b : Decision (created_le a b) := decide (r_created a ≤ r_created b).
Definition order_by_created (order : list row → list row) : Prop :=
  ∀ l, order l ≡ₚ l ∧ StronglySorted created_le (order l).

(** ** The publisher *)

Class Publisher (W : Type) := {
  Publish : string → string → W → W * outcome (option error);
  delivered : W → list (string * string)
}.

(** A publish that succeeds has delivered the message; one that fails or panics may or
    may not have.  The bus and the database do not write to each other. *)
Class PublisherLaws (W Tx : Type) `{Postgres W Tx db} `{Publisher W} : Prop := {
  publish_ok t p w w' : Publish t p w = (w', Ret None) → delivered w' = delivered w ++ [(t, p)];
  publish_err t p w w' o : Publish t p w = (w', o) → delivered w `prefix_of` delivered w';
  publish_db t p w tx : committed (Publish t p w).1 = committed w ∧ view tx (Publish t p w).1 = view tx w;
  begin_bus w : delivered (BeginTx w).1 = delivered w;
  commit_bus tx w : delivered (Commit tx w).1 = delivered w;
  rollback_bus tx w : delivered (Rollback tx w).1 = delivered w;
  query_bus {R} tx (q : sql db R) w : delivered (tx_query tx q w).1 = delivered w;
  collect_bus {R} (l : list R) w : delivered (CollectRows (D:=db) l w).1 = delivered w
}.

(** ** Store: the write side *)

Section Store_.
Context {W Tx A : Type} `{Postgres W Tx db} (Marshal : A → error + string).

Definition Store (uuid : string) (now : Time) (tx : Tx) (t : string) (p : A) (w : W) : W * option error :=
  match Marshal p with
  | inl err => (w, Some (ErrWrap "outbox: marshal payload: %w" [] err))
  | inr raw =>
    match tx_Exec tx (insert_event uuid now t raw) w with
    | (w, Some err) => (w, Some (ErrWrap "outbox: insert event: %w" [] err))
    | (w, None) => (w, None)
    end
  end.
End Store_.

(** ** The relay *)

Section Relay.
Context {W Tx : Type} `{Postgres W Tx db} `{Publisher W}.
Context (order : list row → list row).

Record relayOptions := RelayOptions {
  interval : Duration; batchSize : Z; onError : option (error → W → W)
}.
Definition defaultRelayOptions : relayOptions := RelayOptions (5 * Second) 100 None.

Definition RelayOption : Type := relayOptions → relayOptions.
Definition WithRelayInterval (d : Duration) : RelayOption := λ o, RelayOptions d (batchSize o) (onError o).
Definition WithBatchSize (n : Z) : RelayOption := λ o, RelayOptions (interval o) n (onError o).
Definition WithOnError (fn : error → W → W) : RelayOption := λ o,
  RelayOptions (interval o) (batchSize o) (Some fn).

Definition NewRelay (opts : list RelayOption) : relayOptions :=
  fold_left (λ o opt, opt o) opts defaultRelayOptions.

Fixpoint publish_loop (events : list event) (w : W) : W * outcome (option error) :=
  match events with
  | [] => (w, Ret None)
  | e :: events =>
    match Publish (topic e) (payload e) w with
    | (w, Panic p) => (w, Panic p)
    | (w, Ret (Some err)) => (w, Ret (Some (ErrWrap "publish topic %q id %s: %w" [topic e; id e] err)))
    | (w, Ret None) => publish_loop events w
    end
  end.

Definition relay_body (o : relayOptions) (locked : list string) (now : Time)
    (ctx : context Tx) (tx : Tx) (w : W) : W * outcome (option error) :=
  match tx_query tx (select_unpublished order locked (batchSize o)) w with
  | (w, inl err) => (w, Ret (Some (ErrWrap "fetch: %w" [] err)))
  | (w, inr rows) =>
    match CollectRows (D:=db) rows w with
    | (w, inl err) => (w, Ret (Some (ErrWrap "scan: %w" [] err)))
    | (w, inr events) =>
      if (length events =? 0)%nat then (w, Ret None)
      else match publish_loop events w with
           | (w, Panic p) => (w, Panic p)
           | (w, Ret (Some err)) => (w, Ret (Some err))
           | (w, Ret None) =>
             let ids := id <$> events in
             match tx_Exec tx (mark_published now ids) w with
             | (w, Some err) => (w, Ret (Some (ErrWrap "mark published: %w" [] err)))
             | (w, None) => (w, Ret None)
             end
           end
    end
  end.

Definition relay (o : relayOptions) (locked : list string) (now : Time) (w : W) : W * outcome (option error) :=
  WithTx None (relay_body o locked now) w.

(** What the select of the background loop picks next. *)
Inductive tick := Stopped | Cancelled | Tick (locked : list string) (now : Time).

(** [run]: the loop, for the sequence of cases its select takes; [true] when it
    has returned and closed [done]. *)
Fixpoint run (o : relayOptions) (ts : list tick) (w : W) : W * outcome bool :=
  match ts with
  | [] => (w, Ret false)
  | Stopped :: _ | Cancelled :: _ => (w, Ret true)
  | Tick locked now :: ts =>
    match relay o locked now w with
    | (w, Panic p) => (w, Panic p)
    | (w, Ret None) => run o ts w
    | (w, Ret (Some err)) =>
      run o ts (match onError o with Some f => f err w | None => w end)
    end
  end.

End Relay.
Arguments relayOptions : clear implicits.

(** ** Specification *)

(** No row is acknowledged before its event was delivered, and ids are unique. *)
Definition acked_delivered {W Tx} `{Postgres W Tx db} `{Publisher W} (w : W) : Prop :=
  NoDup (r_id <$> committed w) ∧
  ∀ r, r ∈ committed w → r_published r ≠ None → (r_topic r, r_payload r) ∈ delivered w.

Definition message (r : row) : string * string := (r_topic r, r_payload r).

(** ** Lemmas *)

Lemma mark_id now ids r : r_id (mark now ids r) = r_id r.
Proof. unfold mark. by dmatch. Qed.

Lemma mark_message now ids r : message (mark now ids r) = message r.
Proof. unfold mark, message. by dmatch. Qed.

Lemma mark_all_ids now ids (d : list row) : r_id <$> (mark now ids <$> d) = r_id <$> d.
Proof. rewrite <-list_fmap_compose. apply list_fmap_ext. intros. apply mark_id. Qed.

Section Proofs.
Context {W Tx : Type} `{PostgresLaws W Tx db} `{!Publisher W} `{!PublisherLaws W Tx}.
Context (order : list row → list row) (Horder : order_by_created order).

Lemma publish_loop_db evs w tx :
  committed (publish_loop evs w).1 = committed w ∧ view tx (publish_loop evs w).1 = view tx w.
Proof.
  revert w. induction evs as [|e evs IH]; intros w; simpl; [done|].
  pose proof (publish_db (topic e) (payload e) w tx) as [H1 H2].
  destruct (Publish (topic e) (payload e) w) as [w1 [[err|]|p]]; simpl in *; [done| |done].
  destruct (IH w1). split; congruence.
Qed.

Lemma publish_loop_bus evs w w' r : publish_loop evs w = (w', r) →
  delivered w `prefix_of` delivered w' ∧
  (r = Ret None → delivered w' = delivered w ++ ((λ e, (topic e, payload e)) <$> evs)).
Proof.
  revert w. induction evs as [|e evs IH]; intros w HP; simpl in *; [simplify_eq; by rewrite app_nil_r|].
  destruct (Publish (topic e) (payload e) w) as [w1 [[err|]|p]] eqn:EP.
  - simplify_eq. apply publish_err in EP. done.
  - apply publish_ok in EP. apply IH in HP as [H1 H2]. rewrite EP in *. split.
    + etransitivity; [|exact H1]. by apply prefix_app_r.
    + intros Hr. rewrite (H2 Hr), <-app_assoc. done.
  - simplify_eq. apply publish_err in EP. done.
Qed.


(** The rows a relay cycle picks. *)
Definition batch (o : relayOptions W) (locked : list string) (d : db) : list row :=
  take (Z.to_nat (batchSize o)) (order (filter (eligible locked) d)).

Lemma mark_nil now (d : list row) : mark now [] <$> d = d.
Proof.
  rewrite <-(list_fmap_id d) at 2. apply list_fmap_ext. intros i r _. unfold mark.
  rewrite bool_decide_eq_false_2; [done|]. apply not_elem_of_nil.
Qed.

Lemma batch_events (l : list row) : (λ e, (topic e, payload e)) <$> (to_event <$> l) = message <$> l.
Proof. rewrite <-list_fmap_compose. done. Qed.

Lemma batch_ids (l : list row) : id <$> (to_event <$> l) = r_id <$> l.
Proof. rewrite <-list_fmap_compose. done. Qed.

Lemma batch_sub o locked d r : r ∈ batch o locked d → r ∈ d ∧ eligible locked r.
Proof.
  intros Hr. apply elem_of_take in Hr as (i & Hr & _). apply list_elem_of_lookup_2 in Hr.
  rewrite (proj1 (Horder _)) in Hr. by apply list_elem_of_filter in Hr as [? ?].
Qed.

Lemma relay_body_spec o locked now ctx tx w w' r :
  relay_body order o locked now ctx tx w = (w', r) →
  committed w' = committed w ∧ delivered w `prefix_of` delivered w' ∧
  (r = Ret None →
    0 ≤ batchSize o ∧ delivered w' = delivered w ++ (message <$> batch o locked (view tx w)) ∧
    view tx w' = mark now (r_id <$> batch o locked (view tx w)) <$> view tx w).
Proof.
  unfold relay_body. intros HB.
  pose proof (query_bus tx (select_unpublished order locked (batchSize o)) w) as Hb1.
  destruct (tx_query tx (select_unpublished order locked (batchSize o)) w) as [w1 [e|rows]] eqn:EQ.
  { apply query_err in EQ as [_ ?]. simplify_eq/=. by rewrite Hb1. }
  apply query_ok in EQ as [EQ Hc1]. unfold select_unpublished in EQ. dmatch_in EQ; [done|]. zbool.
  injection EQ as Hv1 Hrows. simpl in Hb1.
  pose proof (collect_bus rows w1) as Hb2. destruct (collect_quiet (D:=db) rows tx w1) as [Hc2 Hv2].
  destruct (CollectRows (D:=db) rows w1) as [w2 [e|evs]] eqn:EC; simpl in *.
  { simplify_eq. by rewrite Hb2, Hb1, Hc2, Hc1. }
  apply collect_ok in EC as ->. fold (batch o locked (view tx w)) in Hrows.
  dmatch_in HB.
  { injection HB as <- <-. split_and!; [congruence|by rewrite Hb2, Hb1|]. intros _.
    apply Nat.eqb_eq in E0. rewrite <-Hrows, length_fmap in E0. apply nil_length_inv in E0. rewrite E0. simpl.
    rewrite app_nil_r, mark_nil. split_and!; [done|congruence|congruence]. }
  destruct (publish_loop_db rows w2 tx) as [Hc3 Hv3].
  destruct (publish_loop rows w2) as [w3 r3] eqn:EP. apply publish_loop_bus in EP as [Hb3 Hb3'].
  rewrite Hb2, Hb1 in Hb3, Hb3'. simpl in *.
  destruct r3 as [[e|]|p]; [simplify_eq; split_and!; [congruence|done|done]| |simplify_eq; split_and!; [congruence|done|done]].
  pose proof (query_bus tx (mark_published now (id <$> rows)) w3) as Hb4.
  unfold tx_Exec in HB. destruct (tx_query tx (mark_published now (id <$> rows)) w3) as [w4 [e|[]]] eqn:EM;
    simplify_eq/=.
  - apply query_err in EM as [_ ?]. rewrite Hb4. split_and!; [congruence|done|done].
  - apply query_ok in EM as [EM ?]. injection EM as EM. rewrite Hb4. split_and!; [congruence|done|].
    intros _. rewrite (Hb3' eq_refl), batch_events. rewrite batch_ids in EM.
    rewrite <-EM, Hv3, Hv2, <-Hv1. done.
Qed.

Lemma relay_cases o locked now w w' r :
  relay order o locked now w = (w', r) →
  delivered w `prefix_of` delivered w' ∧
  let b := batch o locked (committed w) in
  let sent := 0 ≤ batchSize o ∧ delivered w' = delivered w ++ (message <$> b) in
  match r with
  | Ret None => sent ∧ committed w' = mark now (r_id <$> b) <$> committed w
  | Ret (Some e) => committed w' = committed w ∨
                    sent ∧ committed w' = mark now (r_id <$> b) <$> committed w
  | Panic p => committed w' = committed w
  end.
Proof.
  unfold relay, WithTx. simpl. intros HR.
  pose proof (begin_bus w) as Hb1. destruct (BeginTx w) as [w1 [e|tx]] eqn:EB; simpl in Hb1.
  { apply begin_err in EB. simplify_eq. rewrite Hb1. auto. }
  apply begin_ok in EB as [Hc1 Hv1].
  destruct (relay_body order o locked now (contextWithTx None tx) tx w1) as [w2 o2] eqn:ER.
  apply relay_body_spec in ER as (Hc2 & Hb2 & HN). rewrite Hb1, Hv1 in *.
  pose proof (rollback_bus tx w2) as Hb3. pose proof (rollback_committed tx w2) as Hc3.
  destruct o2 as [[e|]|p]; [simplify_eq; rewrite Hb3; split; [done|left; congruence]| |
                            simplify_eq; rewrite Hb3; split; [done|congruence]].
  destruct (HN eq_refl) as (Hn & Hd & Hv2). pose proof (commit_bus tx w2) as Hb4.
  destruct (Commit tx w2) as [w3 [e|]] eqn:EC; simplify_eq/=; rewrite Hb4; split; try done.
  - apply commit_err in EC as [?|?]; [left; congruence|right]. split; [done|congruence].
  - apply commit_ok in EC. split; [done|congruence].
Qed.

Lemma relay_acked o locked now w w' r :
  relay order o locked now w = (w', r) → acked_delivered w → acked_delivered w'.
Proof.
  intros HR [Hnd Hack]. apply relay_cases in HR as [Hpre HR].
  assert (Hmono : ∀ m, m ∈ delivered w → m ∈ delivered w').
  { destruct Hpre as [k ->]. intros m. rewrite elem_of_app. auto. }
  assert (Hkeep : committed w' = committed w → acked_delivered w').
  { unfold acked_delivered. intros ->. split; [done|]. auto. }
  set (b := batch o locked (committed w)) in *.
  assert (Hmark : delivered w' = delivered w ++ (message <$> b) →
    committed w' = mark now (r_id <$> b) <$> committed w → acked_delivered w').
  { unfold acked_delivered. intros Hd ->. rewrite mark_all_ids. split; [done|].
    intros r' Hr Hp. apply list_elem_of_fmap in Hr as (r0 & -> & Hr).
    fold (message (mark now (r_id <$> b) r0)). rewrite mark_message. unfold mark in Hp. dmatch_in Hp.
    - apply bool_decide_eq_true, list_elem_of_fmap in E as (r1 & Hid & Hr1).
      pose proof (batch_sub _ _ _ _ Hr1) as [Hin _].
      assert (r0 = r1) as -> by by eapply NoDup_fmap_inj.
      rewrite Hd, elem_of_app. right. by apply list_elem_of_fmap_2.
    - apply Hmono. by apply Hack. }
  destruct r as [[e|]|p]; [destruct HR as [?|[[_ ?] ?]]|destruct HR as [[_ ?] ?]|]; auto.
Qed.

(** ** Properties *)

(** One cycle of the relay.  It picks the [batchSize] oldest unpublished rows
    that are not locked.  A nil result means that each of them was delivered
    once, in that order, and that exactly they are now marked; on an error
    nothing is marked, so the rows are picked again later, unless the commit
    itself failed after everything had been delivered.  Nothing delivered is
    taken back. *)
Theorem relay_spec o locked now w :
  let b := batch o locked (committed w) in
  let w' := (relay order o locked now w).1 in
  let sent := 0 ≤ batchSize o ∧ delivered w' = delivered w ++ (message <$> b) in
  delivered w `prefix_of` delivered w' ∧
  StronglySorted created_le b ∧
  length b = Nat.min (Z.to_nat (batchSize o)) (length (filter (eligible locked) (committed w))) ∧
  match (relay order o locked now w).2 with
  | Ret None => sent ∧ committed w' = mark now (r_id <$> b) <$> committed w
  | Ret (Some e) => committed w' = committed w ∨
                    sent ∧ committed w' = mark now (r_id <$> b) <$> committed w
  | Panic p => committed w' = committed w
  end.
Proof.
  destruct (relay order o locked now w) as [w' r] eqn:ER. apply relay_cases in ER as [Hp HR].
  simpl. destruct (Horder (filter (eligible locked) (committed w))) as [Hperm Hs].
  split_and!; [done| | |done].
  - unfold batch. rewrite <-(take_drop (Z.to_nat (batchSize o)) (order _)) in Hs.
    by apply StronglySorted_app_1_l in Hs.
  - unfold batch. by rewrite length_take, Hperm.
Qed.

(** C33: At-least-once delivery: through any run of the background loop, whatever
    fails, a row is marked as published only after its event was delivered, and
    no row is lost. *)
Theorem relay_at_least_once o ts w :
  acked_delivered w →
  (∀ f e w, onError o = Some f → committed (f e w) = committed w ∧ delivered (f e w) = delivered w) →
  acked_delivered (run order o ts w).1 ∧
  message <$> committed (run order o ts w).1 = message <$> committed w.
Proof.
  intros Hack Hf. revert w Hack. induction ts as [|t ts IH]; intros w Hack; [done|].
  destruct t as [| |locked now]; [done|done|]. simpl.
  destruct (relay order o locked now w) as [w1 r] eqn:ER.
  pose proof (relay_acked _ _ _ _ _ _ ER Hack) as Hack1. apply relay_cases in ER as [_ HR].
  assert (Hm : message <$> committed w1 = message <$> committed w).
  { assert (Hmk : ∀ ids, message <$> (mark now ids <$> committed w) = message <$> committed w).
    { intros ids. rewrite <-list_fmap_compose. apply list_fmap_ext. intros. apply mark_message. }
    destruct r as [[e|]|p]; [destruct HR as [->|[_ ->]]|destruct HR as [_ ->]|rewrite HR]; done. }
  destruct r as [[e|]|p]; [|by rewrite <-Hm; apply IH|done].
  destruct (onError o) as [f|] eqn:EO; [|by rewrite <-Hm; apply IH].
  destruct (Hf f e w1 eq_refl) as [Hc Hd]. rewrite <-Hm, <-Hc. apply IH.
  unfold acked_delivered. by rewrite Hc, Hd.
Qed.

End Proofs.

(** ** Witnesses: on the in-memory server, with a bus that may refuse *)

Definition world : Type := mem (list row) * (list (string * string) * list (outcome (option error))).

#[export] Instance mem_publisher : Publisher world := {
  Publish t p w := match w.2.2 with
                   | (Ret (Some _) | Panic _) as o :: fs => ((w.1, (w.2.1, fs)), o)
                   | fs => ((w.1, (w.2.1 ++ [(t, p)], tail fs)), Ret None)
                   end;
  delivered w := w.2.1
}.

#[export] Instance mem_publisher_laws : PublisherLaws world unit.
Proof.
  constructor; intros; cbn in *;
    repeat match goal with |- context [let '(_, _) := ?x in _] => destruct x as [? ?] eqn:? end;
    repeat dmatch_in H; repeat dmatch; simplify_eq/=; eauto using prefix_app_r.
Qed.

Definition demo_rows : list row :=
  [Row "b" "orders" "2" 20 None; Row "a" "orders" "1" 10 None; Row "c" "users" "3" 5 (Some 6)].
Definition demo_world (faults : list (outcome (option error))) : world :=
  (Mem demo_rows demo_rows [], ([("users", "3")], faults)).
Definition demo_opts : relayOptions world := NewRelay [WithBatchSize 2].

Lemma merge_sort_orders : order_by_created (merge_sort created_le).
Proof.
  intros l. split; [apply merge_sort_Permutation|]. apply StronglySorted_merge_sort.
  - intros a b c. unfold created_le. lia.
  - intros a b. unfold created_le. lia.
Qed.

Lemma relay_spec_witness :
  (relay (Tx:=unit) (merge_sort created_le) demo_opts [] 30 (demo_world [])).2 = Ret None ∧
  StronglySorted created_le (batch (merge_sort created_le) demo_opts [] demo_rows).
Proof.
  split; [reflexivity|].
  exact (proj1 (proj2 (relay_spec (Tx:=unit) (merge_sort created_le) merge_sort_orders demo_opts [] 30
    (demo_world [])))).
Defined.

(** The second publish fails, so nothing is marked; the next cycle delivers the
    first event again. *)
Definition demo_run : world * outcome bool :=
  run (Tx:=unit) (merge_sort created_le) demo_opts [Tick [] 30; Tick [] 31; Stopped]
    (demo_world [Ret None; Ret (Some context_Canceled)]).

Lemma relay_at_least_once_witness : acked_delivered (Tx:=unit) demo_run.1 ∧
  delivered demo_run.1 = [("users", "3"); ("orders", "1"); ("orders", "1"); ("orders", "2")].
Proof.
  split; [|reflexivity].
  apply (relay_at_least_once (Tx:=unit) (merge_sort created_le) merge_sort_orders).
  - split; [by apply (bool_decide_unpack _); vm_compute|].
    intros r Hr Hp. change (r ∈ demo_rows) in Hr. unfold demo_rows in Hr.
    rewrite !elem_of_cons, elem_of_nil in Hr. destruct Hr as [->|[->|[->|[]]]]; try done. by left.
  - intros f e w HE. discriminate HE.
Defined.

End Outbox.
