(* ===== verification/Queue.v ===== *)
(** * pkg/queue: the persistent job queue

    The [jobs] table is a list of rows; workers run against the interface of
    Store.v.  A handler is a state transformer that may fail or panic.  Rows
    locked by other workers ([FOR UPDATE SKIP LOCKED]), the order of rows with
    equal [run_at], generated ids and clock readings are arguments. *)

From S2P Require Import Prelude GoLang Store.
Open Scope Z_scope.

Module Queue.
Import Store.

(** A job as scanned by a worker. *)
Record Job := MkJob { ID : string; Type_ : string; Payload : string; Attempts : Z; MaxAttempts : Z }.

(** A row of the [jobs] table. *)
Record row := Row {
  j_id : string; j_type : string; j_payload : string; j_status : string;
  j_attempts : Z; j_max : Z; j_run_at : Time; j_error : option string
}.

(** ** The SQL statements *)

Definition unique_violation : error := ErrNew 60 "duplicate key value violates unique constraint".
Definition out_of_range : error := ErrNew 61 "integer out of range".

(** The counters are [INT] columns. *)
Definition insert_job (uuid t p : string) (max : Z) (run_at : Time) : sql (list row) unit := λ d,
  if (max <? - 2 ^ 31) || (2 ^ 31 - 1 <? max) then inl out_of_range
  else if existsb (λ r, bool_decide (j_id r = uuid)) d then inl unique_violation
  else inr (d ++ [Row uuid t p "pending" 0 max run_at None], tt).

Definition to_job (r : row) : Job := MkJob (j_id r) (j_type r) (j_payload r) (j_attempts r) (j_max r).

Definition due (now : Time) (locked : list string) (r : row) : Prop :=
  j_status r = "pending" ∧ j_run_at r ≤ now ∧ j_id r ∉ locked.
#[export] Instance due_dec now locked r : Decision (due now locked r).
Proof. unfold due. apply _. Defined.

Definition select_due (order : list row → list row) (now : Time) (locked : list string)
    : sql (list row) (list Job) := λ d,
  inr (d, to_job <$> take 10 (order (filter (due now locked) d))).

Definition update_job (jid : string) (f : row → row) : sql (list row) unit := λ d,
  inr ((λ r, if bool_decide (j_id r = jid) then f r else r) <$> d, tt).

Definition set_failed (msg : string) (r : row) : row :=
  Row (j_id r) (j_type r) (j_payload r) "failed" (j_attempts r) (j_max r) (j_run_at r) (Some msg).
Definition set_done (attempts : Z) (r : row) : row :=
  Row (j_id r) (j_type r) (j_payload r) "done" attempts (j_max r) (j_run_at r) (j_error r).
Definition set_dead (attempts : Z) (msg : string) (r : row) : row :=
  Row (j_id r) (j_type r) (j_payload r) "dead" attempts (j_max r) (j_run_at r) (Some msg).
Definition set_retry (attempts : Z) (msg : string) (run_at : Time) (r : row) : row :=
  Row (j_id r) (j_type r) (j_payload r) "pending" attempts (j_max r) run_at (Some msg).

(** ** Enqueue *)

Record enqueueOpts := EnqueueOpts { maxAttempts : Z; delay : Duration }.
Definition EnqueueOption : Type := enqueueOpts → enqueueOpts.
Definition WithMaxAttempts (n : Z) : EnqueueOption := λ o, EnqueueOpts n (delay o).
Definition WithDelay (d : Duration) : EnqueueOption := λ o, EnqueueOpts (maxAttempts o) d.

(** [Marshal] stands for the encoding as the JSONB column gives it back. *)
Section Enqueue.
Context {W Tx A : Type} `{Postgres W Tx (list row)} (Marshal : A → error + string).

Definition Enqueue (uuid : string) (now : Time) (tx : option Tx) (jobType : string) (payload : A)
    (opts : list EnqueueOption) (w : W) : W * option error :=
  let o := fold_left (λ o opt, opt o) opts (EnqueueOpts 3 0) in
  match Marshal payload with
  | inl err => (w, Some (ErrWrap "queue: marshal payload: %w" [] err))
  | inr raw =>
    let runAt := if delay o >? 0 then Add now (delay o) else now in
    let q := insert_job uuid jobType raw (maxAttempts o) runAt in
    match match tx with Some tx => tx_Exec tx q w | None => Exec q w end with
    | (w, Some err) => (w, Some (ErrWrap "queue: enqueue %q: %w" [jobType] err))
    | (w, None) => (w, None)
    end
  end.
End Enqueue.

(** [Payload.Decode] and [Payload.Raw] of the payload a handler is given. *)
Definition Decode {A} (Unmarshal : string → error + A) (p : string) : error + A := Unmarshal p.
Definition Raw (p : string) : string := p.

(** ** Workers *)

(** The delay before the next attempt: [time.Duration(1<<attempts) * 10 *
    time.Second], capped at one hour, in [int64] arithmetic. *)
Definition backoff (attempts : Z) : outcome Duration :=
  if attempts <? 0 then Panic "runtime error: negative shift amount"
  else
    let b := wrap64 (wrap64 (shl64 1 attempts * 10) * Second) in
    Ret (if b >? Hour then Hour else b).

Section Workers.
Context {W Tx : Type} `{Postgres W Tx (list row)}.
Context (order : list row → list row).
(** [err.Error()] and the [%q] verb. *)
Context (Error : error → string) (quote : string → string).

Definition Handler : Type := string → W → W * outcome (option error).

Record Queue := MkQueue { handlers : gmap string Handler; poll : Duration }.
Definition Option : Type := Queue → Queue.
Definition WithPollInterval (d : Duration) : Option := λ q, MkQueue (handlers q) d.
Definition New (opts : list Option) : Queue := fold_left (λ q o, o q) opts (MkQueue ∅ (2 * Second)).
Definition Register (jobType : string) (h : Handler) (q : Queue) : Queue :=
  MkQueue (<[jobType := h]> (handlers q)) (poll q).

Definition executeJob (q : Queue) (now : Time) (tx : Tx) (job : Job) (w : W) : W * outcome unit :=
  match handlers q !! Type_ job with
  | None =>
    let msg := "no handler for type " +:+ quote (Type_ job) in
    ((tx_Exec tx (update_job (ID job) (set_failed msg)) w).1, Ret tt)
  | Some h =>
    match h (Payload job) w with
    | (w, Panic p) => (w, Panic p)
    | (w, Ret err) =>
      let attempts := wrap64 (Attempts job + 1) in
      match err with
      | None => ((tx_Exec tx (update_job (ID job) (set_done attempts)) w).1, Ret tt)
      | Some err =>
        if attempts >=? MaxAttempts job then
          ((tx_Exec tx (update_job (ID job) (set_dead attempts (Error err))) w).1, Ret tt)
        else
          match backoff attempts with
          | Panic p => (w, Panic p)
          | Ret b =>
            ((tx_Exec tx (update_job (ID job) (set_retry attempts (Error err) (Add now b))) w).1, Ret tt)
          end
      end
    end
  end.

(** [clock] is the reading of [time.Now] while a job is executed. *)
Fixpoint execute_all (q : Queue) (clock : string → Time) (tx : Tx) (jobs : list Job) (w : W) : W * outcome unit :=
  match jobs with
  | [] => (w, Ret tt)
  | job :: jobs =>
    match executeJob q (clock (ID job)) tx job w with
    | (w, Panic p) => (w, Panic p)
    | (w, Ret _) => execute_all q clock tx jobs w
    end
  end.

Definition batch_body (q : Queue) (now : Time) (clock : string → Time) (locked : list string)
    (ctx : context Tx) (tx : Tx) (w : W) : W * outcome (option error) :=
  match tx_query tx (select_due order now locked) w with
  | (w, inl err) => (w, Ret (Some err))
  | (w, inr rows) =>
    match CollectRows (D:=list row) rows w with
    | (w, inl err) => (w, Ret (Some err))
    | (w, inr jobs) =>
      match execute_all q clock tx jobs w with
      | (w, Panic p) => (w, Panic p)
      | (w, Ret _) => (w, Ret None)
      end
    end
  end.

Definition processBatch (q : Queue) (now : Time) (clock : string → Time) (locked : list string) (w : W) : W * outcome (option error) :=
  WithTx None (batch_body q now clock locked) w.

(** What the select of a worker picks next. *)
Inductive tick := Stopped | Cancelled | Tick (now : Time) (clock : string → Time) (locked : list string).

(** [workerLoop] for the cases its select takes; a failed batch is only logged. *)
Fixpoint workerLoop (q : Queue) (ts : list tick) (w : W) : W * outcome bool :=
  match ts with
  | [] => (w, Ret false)
  | Stopped :: _ | Cancelled :: _ => (w, Ret true)
  | Tick now clock locked :: ts =>
    match processBatch q now clock locked w with
    | (w, Panic p) => (w, Panic p)
    | (w, Ret _) => workerLoop q ts w
    end
  end.

End Workers.
Arguments Queue : clear implicits.
Arguments Handler : clear implicits.

(** ** Specification *)

(** What becomes of a job whose handler is absent ([None]) or returned [res]. *)
Definition transition (Error : error → string) (quote : string → string) (now : Time) (j : Job)
    (res : option (option error)) (r : row) : row :=
  match res with
  | None => set_failed ("no handler for type " +:+ quote (Type_ j)) r
  | Some None => set_done (Attempts j + 1) r
  | Some (Some e) =>
    if Attempts j + 1 >=? MaxAttempts j then set_dead (Attempts j + 1) (Error e) r
    else set_retry (Attempts j + 1) (Error e)
           (now + match backoff (Attempts j + 1) with Ret b => b | Panic _ => 0 end) r
  end.

(** A well-formed row: attempts never exceed the maximum (a job runs at least
    once), a pending job has attempts left and a dead one has none. *)
Definition job_ok (r : row) : Prop :=
  (j_status r = "pending" ∨ j_status r = "done" ∨ j_status r = "failed" ∨ j_status r = "dead") ∧
  j_max r ≤ 2 ^ 31 - 1 ∧ 0 ≤ j_attempts r ≤ Z.max 1 (j_max r) ∧
  (j_status r = "pending" → j_attempts r < Z.max 1 (j_max r)) ∧
  (j_status r = "dead" → j_max r ≤ j_attempts r).

Definition table_ok (d : list row) : Prop := NoDup (j_id <$> d) ∧ Forall job_ok d.

(** One row from one state of the table to a later one. *)
Record keeps (r r' : row) : Prop := {
  k_id : j_id r' = j_id r;
  k_type : j_type r' = j_type r;
  k_payload : j_payload r' = j_payload r;
  k_max : j_max r' = j_max r;
  k_attempts : j_attempts r ≤ j_attempts r';
  k_final : j_status r = "done" ∨ j_status r = "dead" → r' = r
}.

(** The rows of a table are kept, and new ones may follow. *)
Definition grows (d d' : list row) : Prop := ∃ l new, d' = l ++ new ∧ Forall2 keeps d l.

(** ** Lemmas *)

Lemma pow2_mod a : 54 ≤ a → (2 ^ a * 10 * Second) mod 2 ^ 64 = 0.
Proof.
  intros Ha. replace (2 ^ a * 10 * Second) with (2 ^ (a - 54) * 9765625 * 2 ^ 64).
  - apply Z.mod_mul. lia.
  - replace a with (a - 54 + 54) at 2 by lia. rewrite Z.pow_add_r by lia. unfold Second. lia.
Qed.

Lemma wrap64_mul_l x y : wrap64 (wrap64 x * y) = wrap64 (x * y).
Proof.
  assert (Hw : ∃ k, wrap64 x = x + k * 2 ^ 64).
  { unfold wrap64. exists (- ((x + 2 ^ 63) / 2 ^ 64)). pose proof (Z.div_mod (x + 2 ^ 63) (2 ^ 64)). lia. }
  destruct Hw as [k ->]. unfold wrap64. f_equal.
  replace ((x + k * 2 ^ 64) * y + 2 ^ 63) with (x * y + 2 ^ 63 + (k * y) * 2 ^ 64) by lia.
  apply Z.mod_add. lia.
Qed.

Lemma backoff_value a : 0 ≤ a →
  backoff a = Ret (let b := wrap64 (2 ^ a * 10 * Second) in if b >? Hour then Hour else b).
Proof.
  intros Ha. unfold backoff, shl64. rewrite Z.shiftl_1_l.
  replace (a <? 0) with false by (symmetry; apply Z.ltb_ge; lia).
  by rewrite (wrap64_mul_l (2 ^ a)), wrap64_mul_l.
Qed.

Lemma transition_id Error quote now j res r : j_id (transition Error quote now j res r) = j_id r.
Proof. unfold transition. repeat dmatch; done. Qed.

Lemma transition_keeps Error quote now r res :
  j_status r = "pending" → keeps r (transition Error quote now (to_job r) res r).
Proof.
  intros Hp. unfold transition. destruct res as [[e|]|]; [case (_ >=? _)|..]; constructor; simpl; try done; try lia;
    rewrite Hp; by intros [?|?].
Qed.

Lemma transition_ok Error quote now r res :
  job_ok r → j_status r = "pending" → job_ok (transition Error quote now (to_job r) res r).
Proof.
  intros (_ & Hm & Ha & Hp & _) Hs. specialize (Hp Hs). unfold job_ok, transition.
  destruct res as [[e|]|]; [destruct (_ >=? _) eqn:E|..]; simpl in *; zbool;
    split_and!; auto; try done; try lia; intros; lia.
Qed.

#[export] Instance keeps_preorder : PreOrder keeps.
Proof.
  split; [by constructor|]. intros a b c [? ? ? ? ? Hab] [? ? ? ? ? Hbc]. constructor; try congruence; [lia|].
  intros Hs. rewrite Hbc; [by apply Hab|]. by rewrite (Hab Hs).
Qed.

#[export] Instance grows_preorder : PreOrder grows.
Proof.
  split.
  - intros d. exists d, []. rewrite app_nil_r. split; [done|]. by apply Forall_Forall2_diag, Forall_true.
  - intros d1 d2 d3 (l1 & n1 & -> & H1) (l2 & n2 & -> & H2). apply Forall2_app_inv_l in H2 as (a & b & Ha & Hb & ->).
    exists a, (b ++ n2). rewrite app_assoc. split; [done|]. eapply Forall2_trans; [|exact H1|exact Ha]. intros ???. apply transitivity.
Qed.

Section Proofs.
Context {W Tx : Type} `{PostgresLaws W Tx (list row)}.
Context (order : list row → list row) (Error : error → string) (quote : string → string).
Context (Horder : ∀ l, order l ≡ₚ l).

(** A handler does to the table what the context it is given allows: it may enqueue jobs in
    the worker's transaction. *)
Definition handler_ok (h : Handler W) : Prop :=
  ∀ p w (tx : Tx), committed (h p w).1 = committed w ∧
    ∃ new, view tx (h p w).1 = view tx w ++ new ∧ (table_ok (view tx w) → table_ok (view tx w ++ new)).

Context (q : Queue W) (Hq : map_Forall (λ _, handler_ok) (handlers q)).

(** From one table to the next by the statement of a job, or without it. *)
Definition job_moves (jid : string) (d d' : list row) : Prop :=
  grows d d' ∧ table_ok d' ∧ ∀ r, r ∈ d → j_id r ≠ jid → r ∈ d'.

Lemma update_moves tx now r w f res :
  table_ok (view tx w) → r ∈ view tx w → j_status r = "pending" →
  (∀ r', f r' = transition Error quote now (to_job r) res r') →
  job_moves (j_id r) (view tx w) (view tx (tx_Exec tx (update_job (j_id r) f) w).1).
Proof.
  intros [Hnd Hok] Hin Hp Hf. destruct (tx_Exec tx (update_job (j_id r) f) w) as [w' o] eqn:E. simpl.
  apply tx_Exec_cases in E as [_ HE]. destruct o as [e|].
  { rewrite HE. by split_and!. }
  destruct HE as [[] HE]. injection HE as <-. set (g := λ x, if bool_decide (j_id x = j_id r) then f x else x).
  assert (Hg : ∀ x, x ∈ view tx w → keeps x (g x) ∧ job_ok (g x)).
  { rewrite Forall_forall in Hok. intros x Hx. unfold g. case_bool_decide as Hid; [|split; [done|by apply Hok]].
    assert (x = r) as -> by by eapply NoDup_fmap_inj. rewrite Hf.
    split; [by apply transition_keeps|apply transition_ok; [by apply Hok|done]]. }
  split_and!.
  - exists (g <$> view tx w), []. rewrite app_nil_r. split; [done|].
    apply Forall2_fmap_r, Forall_Forall2_diag, Forall_forall. intros x Hx. by apply Hg.
  - split; [|apply Forall_fmap, Forall_forall; intros x Hx; by apply Hg].
    rewrite <-list_fmap_compose, (list_fmap_ext _ j_id); [done|].
    intros i x Hx. simpl. apply k_id, Hg. by eapply list_elem_of_lookup_2.
  - intros x Hx Hne. apply list_elem_of_fmap. exists x. split; [|done]. unfold g. by rewrite bool_decide_eq_false_2.
Qed.

(** What the table looks like when the handler has returned. *)
Lemma handler_moves h tx p w : handler_ok h → table_ok (view tx w) →
  grows (view tx w) (view tx (h p w).1) ∧ table_ok (view tx (h p w).1) ∧ ∀ r, r ∈ view tx w → r ∈ view tx (h p w).1.
Proof.
  intros Hh Hok. destruct (Hh p w tx) as [_ (new & -> & Hok')]. split_and!; [|by apply Hok'|].
  - exists (view tx w), new. split; [done|]. by apply Forall_Forall2_diag, Forall_true.
  - intros r Hr. apply elem_of_app. by left.
Qed.

Lemma executeJob_moves now tx r w w' :
  table_ok (view tx w) → r ∈ view tx w → j_status r = "pending" →
  executeJob Error quote q now tx (to_job r) w = (w', Ret tt) → job_moves (j_id r) (view tx w) (view tx w').
Proof.
  intros Hok Hin Hp. unfold executeJob. cbn [Type_ ID Payload Attempts MaxAttempts to_job].
  destruct (handlers q !! j_type r) as [h|] eqn:EH.
  2: { intros [= <-]. by apply (update_moves tx now r w _ None). }
  destruct (handler_moves h tx (j_payload r) w (Hq _ _ EH) Hok) as (Hg & Hok1 & Hsub).
  destruct (h (j_payload r) w) as [w1 [res|p]]; [|done]. simpl in Hg, Hok1, Hsub. intros HE.
  cut (job_moves (j_id r) (view tx w1) (view tx w')).
  { intros (Hg' & Hok' & Hsub'). split_and!; [by etrans|done|]. intros x Hx. apply Hsub', Hsub, Hx. }
  assert (Ha : wrap64 (j_attempts r + 1) = j_attempts r + 1).
  { destruct Hok as [_ Hok]. rewrite Forall_forall in Hok. destruct (Hok r Hin) as (_ & ? & ? & ? & _).
    apply wrap64_id. unfold is_int64, int64_min, int64_max. lia. }
  rewrite Ha in HE. specialize (Hsub r Hin). destruct res as [e|].
  2: { injection HE as <-. by apply (update_moves tx now r w1 _ (Some None)). }
  destruct (j_attempts r + 1 >=? j_max r) eqn:EM.
  { injection HE as <-. apply (update_moves tx now r w1 _ (Some (Some e))); try done. intros r'. simpl. by rewrite EM. }
  destruct (backoff (j_attempts r + 1)) as [b|p] eqn:EB; [|done]. injection HE as <-.
  apply (update_moves tx now r w1 _ (Some (Some e))); try done. intros r'. simpl. by rewrite EM, EB.
Qed.

Lemma execute_all_moves clock tx rs w w' :
  table_ok (view tx w) → NoDup (j_id <$> rs) → Forall (λ r, r ∈ view tx w ∧ j_status r = "pending") rs →
  execute_all Error quote q clock tx (to_job <$> rs) w = (w', Ret tt) →
  grows (view tx w) (view tx w') ∧ table_ok (view tx w').
Proof.
  revert w. induction rs as [|r rs IH]; intros w Hok Hnd Hrs HE; simpl in HE; [by injection HE as <-|].
  apply NoDup_cons in Hnd as [Hni Hnd]. apply Forall_cons in Hrs as [[Hr Hp] Hrs].
  destruct (executeJob Error quote q (clock (j_id r)) tx (to_job r) w) as [w1 [[]|p]] eqn:E1; [|done].
  apply executeJob_moves in E1 as (Hg & Hok1 & Hsub); [|done..].
  destruct (IH w1 Hok1 Hnd) as [Hg' ?]; [|done|by split; [etrans|]].
  rewrite Forall_forall in *. intros x Hx. destruct (Hrs x Hx) as [Hx' ?]. split; [|done]. apply Hsub; [done|].
  intros E. apply Hni. rewrite <-E. by apply list_elem_of_fmap_2.
Qed.

Lemma executeJob_committed now tx j w :
  committed (executeJob Error quote q now tx j w).1 = committed w.
Proof.
  assert (HX : ∀ f w, committed (tx_Exec tx (update_job (ID j) f) w).1 = committed w).
  { intros f w0. destruct (tx_Exec tx _ w0) as [w1 r] eqn:E. by apply tx_Exec_cases in E as [? _]. }
  unfold executeJob. destruct (handlers q !! Type_ j) as [h|] eqn:EH; [|apply HX].
  destruct (Hq _ _ EH (Payload j) w tx) as [Hc _].
  destruct (h (Payload j) w) as [w1 [[e|]|p]]; simpl in *; [|by rewrite HX|done].
  destruct (_ >=? _); [by rewrite <-Hc; apply HX|]. destruct (backoff _); [by rewrite <-Hc; apply HX|done].
Qed.

Lemma batch_tx_body now clock locked : tx_body (batch_body order Error quote q now clock locked).
Proof.
  intros ctx tx w. unfold batch_body.
  destruct (tx_query tx (select_due order now locked) w) as [w1 [e|rows]] eqn:EQ.
  { by apply query_err in EQ as [_ ?]. }
  apply query_ok in EQ as [_ Hc1]. destruct (collect_quiet (D:=list row) rows tx w1) as [Hc2 _].
  destruct (CollectRows (D:=list row) rows w1) as [w2 [e|js]]; simpl in *; [congruence|].
  assert (Hall : ∀ js w, committed (execute_all Error quote q clock tx js w).1 = committed w).
  { clear -Hq H0. intros js. induction js as [|j js IH]; intros w; simpl; [done|].
    pose proof (executeJob_committed (clock (ID j)) tx j w) as Hc.
    destruct (executeJob Error quote q (clock (ID j)) tx j w) as [w1 [[]|p]]; simpl in *; [|done].
    by rewrite IH. }
  specialize (Hall js w2). destruct (execute_all Error quote q clock tx js w2) as [w3 [[]|p]]; simpl in *;
    congruence.
Qed.

(** The rows a batch picks. *)
Definition picked (now : Time) (locked : list string) (d : list row) : list row :=
  take 10 (order (filter (due now locked) d)).

Lemma picked_sub now locked d r : r ∈ picked now locked d → r ∈ d ∧ due now locked r.
Proof.
  intros Hr. apply elem_of_take in Hr as (i & Hr & _). apply list_elem_of_lookup_2 in Hr.
  rewrite Horder in Hr. by apply list_elem_of_filter in Hr as [? ?].
Qed.

Lemma picked_NoDup now locked d : NoDup (j_id <$> d) → NoDup (j_id <$> picked now locked d).
Proof.
  intros Hnd. unfold picked. rewrite fmap_take. eapply sublist_NoDup; [|apply sublist_take].
  rewrite Horder. eapply sublist_NoDup; [exact Hnd|]. apply fmap_sublist, sublist_filter.
Qed.

Lemma batch_body_moves now clock locked ctx tx w w' :
  table_ok (view tx w) → batch_body order Error quote q now clock locked ctx tx w = (w', Ret None) →
  grows (view tx w) (view tx w') ∧ table_ok (view tx w').
Proof.
  intros Hok. unfold batch_body.
  destruct (tx_query tx (select_due order now locked) w) as [w1 [e|rows]] eqn:EQ; [done|].
  apply query_ok in EQ as [EQ _]. unfold select_due in EQ. injection EQ as Hv1 Hrows.
  destruct (collect_quiet (D:=list row) rows tx w1) as [_ Hv2].
  destruct (CollectRows (D:=list row) rows w1) as [w2 [e|js]] eqn:EC; [done|].
  apply collect_ok in EC as ->. simpl in Hv2. fold (picked now locked (view tx w)) in Hrows.
  destruct (execute_all Error quote q clock tx rows w2) as [w3 [[]|p]] eqn:EE; [|done].
  intros HE. injection HE as <-. subst rows. rewrite Hv1, <-Hv2 in *. apply execute_all_moves in EE; [done|done|apply picked_NoDup, Hok|].
  apply Forall_forall. intros r [Hr (Hs & _)]%picked_sub. done.
Qed.

Lemma processBatch_moves now clock locked w :
  table_ok (committed w) →
  let w' := (processBatch order Error quote q now clock locked w).1 in
  grows (committed w) (committed w') ∧ table_ok (committed w').
Proof.
  intros Hok. simpl. destruct (processBatch order Error quote q now clock locked w) as [w' r] eqn:EP. simpl.
  unfold processBatch in EP. apply WithTx_cases in EP; [|apply batch_tx_body].
  inversion EP as [e Hc|tx w1 w2 Hv1 Hc1 Hf Hc|tx w1 w2 e Hv1 Hc1 Hf Hc|tx w1 w2 p Hv1 Hc1 Hf Hc
                  |tx w1 w2 e Hv1 Hc1 Hf Hc]; subst r; try by rewrite Hc.
  - apply batch_body_moves in Hf as [? ?]; rewrite ?Hv1; [|done]. by rewrite Hc, <-Hv1.
  - apply batch_body_moves in Hf as [? ?]; rewrite ?Hv1; [|done].
    destruct Hc as [Hc|Hc]; rewrite Hc; [done|]. by rewrite <-Hv1.
Qed.

(** ** Properties *)

(** C30: The life of a job.  Through any run of a worker, whatever fails in the
    database or in the handlers, and whatever jobs the handlers enqueue: every row stays
    well-formed (attempts never exceed the maximum, a pending job has attempts left, a job is
    dead only when its attempts are used up), keeps its place, id, type,
    payload and maximum, never loses attempts, and a job that is done or dead never changes
    again. *)
Theorem job_lifecycle ts w :
  table_ok (committed w) →
  let w' := (workerLoop order Error quote q ts w).1 in
  table_ok (committed w') ∧ grows (committed w) (committed w').
Proof.
  simpl. revert w. induction ts as [|t ts IH]; intros w Hok; simpl; [done|].
  destruct t as [| |now clock locked]; simpl; [done..|].
  pose proof (processBatch_moves now clock locked w Hok) as [HF Hok1].
  destruct (processBatch order Error quote q now clock locked w) as [w1 [r|p]]; simpl in *; [|done].
  destruct (IH w1 Hok1) as [Hok2 HF2]. split; [done|by etrans].
Qed.

(** What [executeJob] writes, branch by branch, when the database accepts the
    statement: a job without handler is failed; a job whose handler succeeds is
    done; one whose handler fails is dead once its attempts reach the maximum
    and is otherwise pending again after the backoff.  Beyond what the handler did no other
    row changes. *)
Theorem execute_job_spec now tx j w w1 res :
  0 ≤ Attempts j < 2 ^ 31 →
  match handlers q !! Type_ j with
  | None => w1 = w ∧ res = None
  | Some h => ∃ r, h (Payload j) w = (w1, Ret r) ∧ res = Some r
  end →
  (∀ f, (tx_Exec tx (update_job (ID j) f) w1).2 = None) →
  ∃ w', executeJob Error quote q now tx j w = (w', Ret tt) ∧ committed w' = committed w1 ∧
    view tx w' = (λ r, if bool_decide (j_id r = ID j) then transition Error quote now j res r else r)
                 <$> view tx w1.
Proof.
  intros Ha Hh Hdb.
  assert (HX : ∀ f, (∀ r, f r = transition Error quote now j res r) →
    committed (tx_Exec tx (update_job (ID j) f) w1).1 = committed w1 ∧
    view tx (tx_Exec tx (update_job (ID j) f) w1).1
    = (λ r, if bool_decide (j_id r = ID j) then transition Error quote now j res r else r) <$> view tx w1).
  { intros f Hf. specialize (Hdb f). destruct (tx_Exec tx _ w1) as [w2 r2] eqn:E. simpl in *. subst r2.
    apply tx_Exec_cases in E as [Hc2 [[] HE]]. injection HE as HE. rewrite <-HE. split; [done|].
    apply list_fmap_ext. intros i r _. by rewrite Hf. }
  unfold executeJob. destruct (handlers q !! Type_ j) as [h|] eqn:EH.
  2: { destruct Hh as [-> ->]. eexists. split; [done|]. by apply HX. }
  destruct Hh as (r & Hh & ->). rewrite Hh.
  rewrite (wrap64_id (Attempts j + 1)) by (unfold is_int64, int64_min, int64_max; lia).
  destruct r as [e|]; [|eexists; split; [done|]; by apply HX].
  destruct (Attempts j + 1 >=? MaxAttempts j) eqn:EM.
  { eexists. split; [done|]. apply HX. intros r. simpl. by rewrite EM. }
  rewrite backoff_value in * by lia. eexists. split; [done|]. apply HX. intros r. simpl.
  by rewrite EM, backoff_value by lia.
Qed.

End Proofs.

(** The backoff is [2^attempts * 10s] capped at one hour for every attempt
    count up to 29. *)
Theorem backoff_spec a : 0 ≤ a ≤ 29 → backoff a = Ret (Z.min (2 ^ a * 10 * Second) Hour).
Proof.
  intros Ha. rewrite backoff_value by lia. cbv zeta.
  assert (2 ^ a ≤ 2 ^ 29) by (apply Z.pow_le_mono_r; lia). assert (0 < 2 ^ a) by (apply Z.pow_pos_nonneg; lia).
  rewrite wrap64_id by (unfold is_int64, int64_min, int64_max, Second; lia).
  f_equal. unfold Hour, Minute. destruct (_ >? _) eqn:E; zbool; lia.
Qed.

Lemma backoff_spec_witness : backoff 3 = Ret (80 * Second) ∧ backoff 20 = Ret Hour.
Proof. split; rewrite backoff_spec; by try lia. Defined.

(** Beyond that the product overflows [int64] and the cap no longer helps: at
    30 attempts the delay is negative, and from 54 attempts on it is zero, so
    that a failing job is retried at every poll. *)
Theorem backoff_overflow a :
  (∃ d, backoff 30 = Ret d ∧ d < 0) ∧ (54 ≤ a → backoff a = Ret 0).
Proof.
  split; [eexists; split; [reflexivity|by vm_compute]|]. intros Ha. rewrite backoff_value by lia. cbv zeta.
  assert (Hw : wrap64 (2 ^ a * 10 * Second) = 0); [|by rewrite Hw].
  unfold wrap64. rewrite Z.add_mod, pow2_mod by lia. done.
Qed.

Lemma backoff_overflow_witness : backoff 54 = Ret 0.
Proof. apply backoff_overflow. lia. Defined.

(** ** Enqueue *)

Section EnqueueSpec.
Context {W Tx A : Type} `{PostgresLaws W Tx (list row)} (Marshal : A → error + string).

(** The row of a job before its first attempt. *)
Definition fresh_row (uuid jobType raw : string) (o : enqueueOpts) (now : Time) : row :=
  Row uuid jobType raw "pending" 0 (maxAttempts o) (Add now (Z.max 0 (delay o))) None.

Lemma insert_job_ok uuid t p max run_at d d' u : insert_job uuid t p max run_at d = inr (d', u) →
  d' = d ++ [Row uuid t p "pending" 0 max run_at None] ∧ uuid ∉ j_id <$> d ∧ - 2 ^ 31 ≤ max < 2 ^ 31.
Proof.
  unfold insert_job. destruct ((max <? - 2 ^ 31) || (2 ^ 31 - 1 <? max)) eqn:E1; [done|].
  destruct (existsb _ d) eqn:E2; [done|]. intros [= <- _]. apply orb_false_iff in E1 as [??]. zbool.
  split_and!; [done| |lia..]. intros (r & -> & Hr)%list_elem_of_fmap. apply not_true_iff_false in E2. apply E2, existsb_exists.
  exists r. split; [by apply list_elem_of_In|by case_bool_decide].
Qed.

(** [Enqueue] adds the one job, pending and untouched, due no earlier than its delay from now,
    and the handler gets the encoded payload.  With a transaction the job is only in that
    transaction's view: it is queued if and when the caller commits, and on an error nothing was
    written.  Without one an error leaves open whether the job was added, as the connection may
    break after the server has committed. *)
Theorem enqueue_spec uuid now tx jobType payload opts w w' r :
  Enqueue Marshal uuid now tx jobType payload opts w = (w', r) →
  let o := fold_left (λ o opt, opt o) opts (EnqueueOpts 3 0) in
  let table w := match tx with Some tx => view tx w | None => committed w end in
  let added := ∃ raw, let job := fresh_row uuid jobType raw o now in
      Marshal payload = inr raw ∧ Raw (Payload (to_job job)) = raw ∧
      table w' = table w ++ [job] ∧ uuid ∉ j_id <$> table w ∧ - 2 ^ 31 ≤ maxAttempts o < 2 ^ 31 ∧
      ∀ t, due t [] job ↔ now ≤ t ∧ Add now (delay o) ≤ t in
  (is_Some tx → committed w' = committed w) ∧
  match r with
  | Some _ => table w' = table w ∨ tx = None ∧ added
  | None => added
  end.
Proof.
  unfold Enqueue. intros HE. cbv zeta. set (o := fold_left _ _ _) in *.
  destruct (Marshal payload) as [e|raw] eqn:EM; [injection HE as <- <-; destruct tx; auto|].
  assert (Hrun : (if delay o >? 0 then Add now (delay o) else now) = Add now (Z.max 0 (delay o))).
  { unfold Add. destruct (delay o >? 0) eqn:Ed; zbool; lia. }
  rewrite Hrun in HE.
  assert (Hjob : ∀ t, due t [] (fresh_row uuid jobType raw o now) ↔ now ≤ t ∧ Add now (delay o) ≤ t).
  { intros t. unfold due, fresh_row, Add. simpl. rewrite elem_of_nil. intuition lia. }
  destruct tx as [tx|]; [destruct (tx_Exec _ _ _) as [w1 r1] eqn:EX|destruct (Exec _ _) as [w1 r1] eqn:EX].
  - apply tx_Exec_cases in EX as [Hc Hv]. destruct r1 as [e|]; injection HE as <- <-; [by auto|].
    destruct Hv as [x (Hd & Hu & Hm)%insert_job_ok]. split; [done|]. exists raw. split_and!; try done; lia.
  - split; [by intros []|]. unfold Exec in EX. destruct (pool_query _ _) as [w2 [e|x]] eqn:EP; injection EX as <- <-; injection HE as <- <-.
    + apply pool_err in EP as [EP|[u (Hd & Hu & Hm)%insert_job_ok]]; [by left|]. right. split; [done|].
      exists raw. split_and!; try done; lia.
    + apply pool_ok, insert_job_ok in EP as (Hd & Hu & Hm). exists raw. split_and!; try done; lia.
Qed.

Lemma fresh_ok uuid jobType raw o now d : table_ok d → uuid ∉ j_id <$> d → maxAttempts o < 2 ^ 31 →
  table_ok (d ++ [fresh_row uuid jobType raw o now]).
Proof.
  intros [Hnd Hok] Hu Hm. split.
  - rewrite fmap_app. apply NoDup_app. split_and!; [done| |apply NoDup_singleton]. intros x Hx ->%list_elem_of_singleton. done.
  - apply Forall_app. split; [done|]. apply Forall_singleton. unfold job_ok, fresh_row. simpl. split_and!; auto; try lia. done.
Qed.

(** A handler that enqueues a job in the worker's transaction is allowed. *)
Lemma enqueue_moves uuid now tx jobType payload opts w :
  let w' := (Enqueue Marshal uuid now (Some tx) jobType payload opts w).1 in
  committed w' = committed w ∧
  ∃ new, view tx w' = view tx w ++ new ∧ (table_ok (view tx w) → table_ok (view tx w ++ new)).
Proof.
  simpl. destruct (Enqueue Marshal uuid now (Some tx) jobType payload opts w) as [w' r] eqn:E.
  destruct (enqueue_spec _ _ _ _ _ _ _ _ _ E) as [Hc Hr]. simpl. split; [by apply Hc|]. destruct r as [e|].
  - destruct Hr as [->|[? _]]; [|done]. exists []. by rewrite app_nil_r.
  - destruct Hr as (raw & _ & _ & -> & Hu & Hm & _). eexists. split; [done|]. intros Hok. by apply fresh_ok; [| |lia].
Qed.
End EnqueueSpec.

(** ** Witnesses on the in-memory server *)

Definition demo_jobs : list row :=
  [Row "1" "mail" "x" "pending" 0 3 10 None; Row "2" "none" "y" "pending" 0 3 10 None;
   Row "3" "mail" "z" "done" 1 3 10 None].
Definition demo_world : mem (list row) := Mem demo_jobs demo_jobs [].
(** A handler that reports its failure by another job, in the same transaction. *)
Definition demo_handler : Handler (mem (list row)) := λ p w,
  ((Enqueue (λ s : string, inr s) ("report-" +:+ p) 20 (Some tt) "report" p [] w).1, Ret (Some context_Canceled)).
Definition demo_queue : Queue (mem (list row)) := Register "mail" demo_handler (New []).

Lemma demo_handlers : map_Forall (λ _, handler_ok (Tx:=unit)) (handlers demo_queue).
Proof.
  intros t h Ht. unfold demo_queue, Register in Ht. simpl in Ht. apply lookup_insert_Some in Ht as [[_ <-]|[_ Ht]]; [|by apply lookup_empty_Some in Ht].
  intros p w []. apply (enqueue_moves (Tx:=unit)).
Qed.

Lemma demo_table_ok : table_ok demo_jobs.
Proof.
  split; [by apply (bool_decide_unpack _); vm_compute|].
  unfold demo_jobs. rewrite !Forall_cons, Forall_nil. unfold job_ok. simpl.
  split_and!; try done; try lia; auto.
Qed.

Lemma job_lifecycle_witness :
  let w' := (workerLoop (Tx:=unit) (λ l, l) (λ _, "err") (λ s, s) demo_queue [Tick 20 (λ _, 21) []; Tick 30 (λ _, 31) []] demo_world).1 in
  length (committed w') = 4%nat ∧ table_ok (committed w') ∧ grows (committed demo_world) (committed w').
Proof. split; [vm_compute; reflexivity|]. apply (job_lifecycle (Tx:=unit)); [done|exact demo_handlers|exact demo_table_ok]. Defined.

Lemma execute_job_spec_witness : ∃ w',
  executeJob (λ _, "err") (λ s, s) demo_queue 20 tt (MkJob "1" "mail" "x" 2 3) demo_world = (w', Ret tt) ∧
  view tt w' = [Row "1" "mail" "x" "dead" 3 3 10 (Some "err"); Row "2" "none" "y" "pending" 0 3 10 None;
                Row "3" "mail" "z" "done" 1 3 10 None; Row "report-x" "report" "x" "pending" 0 3 20 None].
Proof.
  destruct (execute_job_spec (λ _, "err") (λ s, s) demo_queue 20 tt (MkJob "1" "mail" "x" 2 3)
    demo_world (demo_handler "x" demo_world).1 (Some (Some context_Canceled))) as (w' & HE & _ & Hv).
  - simpl. lia.
  - exists (Some context_Canceled). split; reflexivity.
  - reflexivity.
  - exists w'. split; [exact HE|]. rewrite Hv. reflexivity.
Defined.

Lemma enqueue_spec_witness : ∃ raw,
  committed (Enqueue (Tx:=unit) (λ s : string, inr s) "4" 20 None "mail" "hello" [WithDelay Minute] demo_world).1 =
    demo_jobs ++ [Row "4" "mail" raw "pending" 0 3 (20 + Minute) None].
Proof.
  destruct (enqueue_spec (Tx:=unit) (λ s : string, inr s) "4" 20 None "mail" "hello" [WithDelay Minute] demo_world
    (Enqueue (Tx:=unit) (λ s : string, inr s) "4" 20 None "mail" "hello" [WithDelay Minute] demo_world).1 None) as (_ & raw & _ & _ & HT & _).
  - reflexivity.
  - exists raw. exact HT.
Defined.

End Queue.
