(* ===== verification/Lifecycle.v ===== *)
(** * Start and Stop of the background workers

    Queue.Start launches [n] workers and a goroutine that closes [done] when
    they have all returned; Relay.Start launches one whose deferred call closes
    [done].  Stop closes [stop] once and waits for [done].  A [run] is what one
    call of Start launched; [step] interleaves the goroutines of any number of
    calls of Start and Stop.  What a worker does while it is busy is the batch of
    Queue.v and the relay cycle of Outbox.v. *)

From S2P Require Import Prelude GoLang.

Module Lifecycle.

(** A worker waits in its select, works on a batch, or has returned. *)
Inductive worker := WSelect | WBusy | WExit.

#[export] Instance worker_eq_dec : EqDecision worker.
Proof. solve_decision. Defined.

(** [closer]: [close(done)] has been executed for this run. *)
Record run := Run { workers : list worker; cancelled : bool; closer : bool }.

Inductive stopper := SWaiting | SReturned.

Record state := State {
  stop : bool;        (* the channel stop is closed *)
  done_ : bool;       (* the channel done is closed *)
  panicked : bool;
  runs : list run;
  stoppers : list stopper
}.

Definition new : state := State false false false [] [].

(** [Queue.Start(ctx, n)]; a negative [n] starts none. *)
Definition Start (n : Z) (s : state) : state :=
  State (stop s) (done_ s) (panicked s) (runs s ++ [Run (replicate (Z.to_nat n) WSelect) false false]) (stoppers s).

(** [Relay.Start(ctx)] *)
Definition Relay_Start (s : state) : state := Start 1 s.

(** [Stop] up to its wait. *)
Definition Stop (s : state) : state :=
  State true (done_ s) (panicked s) (runs s) (stoppers s ++ [SWaiting]).

(** [close(done)], which panics when the channel is closed. *)
Definition close_done (s : state) : state :=
  State (stop s) true (panicked s || done_ s) (runs s) (stoppers s).

Definition set_runs (rs : list run) (s : state) : state :=
  State (stop s) (done_ s) (panicked s) rs (stoppers s).

(** The select of a worker loop, and the end of a batch. *)
Inductive work (stopped : bool) (ctx : bool) : worker → worker → Prop :=
| work_tick : work stopped ctx WSelect WBusy
| work_done : work stopped ctx WBusy WSelect
| work_stop : stopped = true → work stopped ctx WSelect WExit
| work_ctx : ctx = true → work stopped ctx WSelect WExit.

Inductive step : state → state → Prop :=
| step_start n s : step s (Start n s)
| step_stop s : step s (Stop s)
| step_cancel s l1 l2 r :
    runs s = l1 ++ r :: l2 →
    step s (set_runs (l1 ++ Run (workers r) true (closer r) :: l2) s)
| step_work s l1 l2 ws1 ws2 w w' c k :
    runs s = l1 ++ Run (ws1 ++ w :: ws2) c k :: l2 → work (stop s) c w w' →
    step s (set_runs (l1 ++ Run (ws1 ++ w' :: ws2) c k :: l2) s)
| step_close s l1 l2 ws c :
    runs s = l1 ++ Run ws c false :: l2 → Forall (.= WExit) ws →
    step s (close_done (set_runs (l1 ++ Run ws c true :: l2) s))
| step_return s p1 p2 :
    done_ s = true → stoppers s = p1 ++ SWaiting :: p2 →
    step s (State (stop s) (done_ s) (panicked s) (runs s) (p1 ++ SReturned :: p2)).

(** ** Invariant *)

Definition closed (r : run) : Prop := closer r = true.
Definition quiet (r : run) : Prop := Forall (.= WExit) (workers r).

Definition closers (rs : list run) : nat := sum_list_with (λ r, if closer r then 1 else 0)%nat rs.

Record invariant (s : state) : Prop := {
  inv_quiet : Forall (λ r, closed r → quiet r) (runs s);
  inv_done : done_ s = true ↔ Exists closed (runs s);
  inv_panic : panicked s = true → (2 ≤ closers (runs s))%nat;
  inv_return : SReturned ∈ stoppers s → done_ s = true;
  inv_stop : stoppers s ≠ [] → stop s = true
}.

Lemma work_exit b c w : ¬ work b c WExit w.
Proof. by inversion 1. Qed.

Lemma closers_app a b : closers (a ++ b) = (closers a + closers b)%nat.
Proof. apply sum_list_with_app. Qed.

Lemma closed_count rs : Exists closed rs → (1 ≤ closers rs)%nat.
Proof.
  unfold closers. induction 1 as [r rs Hr|r rs _ IH]; simpl; [rewrite Hr|]; lia.
Qed.

Lemma step_invariant s s' : invariant s → step s s' → invariant s'.
Proof.
  intros [Hq Hd Hp Hr Hs] Hst. destruct Hst as [n s|s|s l1 l2 r E|s l1 l2 ws1 ws2 w w' c k E Hw|s l1 l2 ws c E Hws|s p1 p2 Hdn E].
  - constructor; simpl; [|rewrite Hd, Exists_app, Exists_cons, Exists_nil|..]; auto.
    + apply Forall_app. split; [done|]. by repeat constructor.
    + split; [auto|]. by intros [?|[|]].
    + rewrite closers_app. intros ?%Hp. lia.
  - constructor; simpl; auto. rewrite elem_of_app, list_elem_of_singleton. intros [?|?]; [auto|done].
  - rewrite E in *. constructor; simpl; auto.
    + rewrite Forall_app, Forall_cons in *. done.
    + rewrite Hd, !Exists_app, !Exists_cons. done.
    + by rewrite closers_app in *.
  - rewrite E in *. constructor; simpl; auto.
    + rewrite Forall_app, Forall_cons in *. split_and!; try tauto. destruct Hq as (_ & Hq & _).
      intros Hk. specialize (Hq Hk). unfold quiet in *. simpl in *.
      rewrite Forall_app, Forall_cons in Hq. destruct Hq as (_ & -> & _). by apply work_exit in Hw.
    + rewrite Hd, !Exists_app, !Exists_cons. done.
    + by rewrite closers_app in *.
  - rewrite E in *. constructor; simpl; auto.
    + rewrite Forall_app, Forall_cons in *. split_and!; try tauto.
    + split; [intros _|done]. rewrite Exists_app, Exists_cons. by right; left.
    + rewrite closers_app in *. simpl in *. intros [Hpan|Hdone]%orb_true_iff; [specialize (Hp Hpan); lia|].
      apply Hd, closed_count in Hdone. rewrite closers_app in Hdone. simpl in Hdone. lia.
  - constructor; simpl; auto. intros _. apply Hs. rewrite E. by destruct p1.
Qed.

Lemma reachable_invariant s : rtc step new s → invariant s.
Proof.
  apply (rtc_invariant step invariant); [apply step_invariant|].
  constructor; simpl; try done; [by rewrite Exists_nil|by intros ?%not_elem_of_nil].
Qed.

(** *** After a stop every worker can return *)

Lemma worker_returns s l1 l2 ws1 ws2 w c k :
  stop s = true → runs s = l1 ++ Run (ws1 ++ w :: ws2) c k :: l2 →
  rtc step s (set_runs (l1 ++ Run (ws1 ++ WExit :: ws2) c k :: l2) s).
Proof.
  intros Hs E. assert (Hsel : ∀ s, stop s = true → runs s = l1 ++ Run (ws1 ++ WSelect :: ws2) c k :: l2 →
    rtc step s (set_runs (l1 ++ Run (ws1 ++ WExit :: ws2) c k :: l2) s)).
  { intros x Hx Ex. apply rtc_once. eapply step_work; [exact Ex|]. by apply work_stop. }
  destruct w; [by apply Hsel| |].
  - eapply rtc_l; [eapply step_work; [exact E|apply work_done]|].
    apply (Hsel (set_runs (l1 ++ Run (ws1 ++ WSelect :: ws2) c k :: l2) s)); done.
  - rewrite <-E. by destruct s.
Qed.

Lemma workers_return s l1 l2 ws1 ws2 c k :
  stop s = true → runs s = l1 ++ Run (ws1 ++ ws2) c k :: l2 →
  rtc step s (set_runs (l1 ++ Run (ws1 ++ replicate (length ws2) WExit) c k :: l2) s).
Proof.
  revert s ws1. induction ws2 as [|w ws2 IH]; intros s ws1 Hs E; simpl.
  - rewrite <-E. by destruct s.
  - etrans; [by eapply (worker_returns s l1 l2 ws1 ws2)|].
    specialize (IH (set_runs (l1 ++ Run (ws1 ++ WExit :: ws2) c k :: l2) s) (ws1 ++ [WExit]) Hs).
    rewrite <-!(assoc_L (++)) in IH. simpl in IH. by apply IH.
Qed.

Definition set_stoppers (p : list stopper) (s : state) : state :=
  State (stop s) (done_ s) (panicked s) (runs s) p.

Lemma stoppers_return s p1 p2 :
  done_ s = true → stoppers s = p1 ++ p2 →
  rtc step s (set_stoppers (p1 ++ replicate (length p2) SReturned) s).
Proof.
  revert s p1. induction p2 as [|p p2 IH]; intros s p1 Hd E; simpl.
  - rewrite <-E. by destruct s.
  - assert (Hone : rtc step s (set_stoppers (p1 ++ SReturned :: p2) s)).
    { destruct p; [apply rtc_once; by apply step_return|]. rewrite <-E. by destruct s. }
    etrans; [exact Hone|].
    specialize (IH (set_stoppers (p1 ++ SReturned :: p2) s) (p1 ++ [SReturned]) Hd).
    rewrite <-!(assoc_L (++)) in IH. by apply IH.
Qed.

(** ** Properties *)

(** A queue or relay started once: when a call of Stop has returned, every
    worker has returned, so no batch is running and none will; and nothing has
    panicked. *)
Theorem stop_waits_for_workers s r :
  rtc step new s → runs s = [r] → panicked s = false ∧ (SReturned ∈ stoppers s → quiet r).
Proof.
  intros [Hq Hd Hp Hr _]%reachable_invariant E. rewrite E in *. split.
  - destruct (panicked s); [|done]. specialize (Hp eq_refl). unfold closers in Hp. simpl in Hp.
    destruct (closer r); lia.
  - intros Hret%Hr%Hd. rewrite Forall_cons in Hq. apply Hq. apply Exists_cons in Hret as [?|?%Exists_nil]; done.
Qed.

(** Stop cannot deadlock: a queue or relay started once and told to stop can
    always go on to a state in which every call of Stop has returned. *)
Theorem stop_can_return_all s r :
  rtc step new s → runs s = [r] → stoppers s ≠ [] →
  ∃ s', rtc step s s' ∧ stoppers s' = replicate (length (stoppers s)) SReturned.
Proof.
  intros Hinv%reachable_invariant E Hne. pose proof (inv_stop s Hinv Hne) as Hs. destruct r as [ws c k].
  assert (Hdone : ∃ s1, rtc step s s1 ∧ done_ s1 = true ∧ stoppers s1 = stoppers s).
  { destruct k.
    - exists s. split_and!; [done| |done]. apply (inv_done s Hinv). rewrite E. by left.
    - set (s1 := set_runs [Run (replicate (length ws) WExit) c false] s).
      assert (Hws : rtc step s s1) by (apply (workers_return s [] [] [] ws c false Hs E)).
      exists (close_done (set_runs [Run (replicate (length ws) WExit) c true] s1)). split_and!; [|done|done].
      etrans; [exact Hws|]. apply rtc_once. apply (step_close s1 [] [] _ c); [done|]. by apply Forall_replicate. }
  destruct Hdone as (s1 & H1 & Hd1 & Hp1).
  exists (set_stoppers (replicate (length (stoppers s1)) SReturned) s1). rewrite Hp1. split; [|done].
  etrans; [exact H1|]. rewrite <-Hp1. by apply (stoppers_return s1 []).
Qed.

(** Stop without Start never returns: nothing closes [done]. *)
Theorem stop_without_start s : rtc step new s → runs s = [] → SReturned ∉ stoppers s.
Proof.
  intros [_ Hd _ Hr _]%reachable_invariant E Hin. apply Hr, Hd in Hin. rewrite E in Hin. by apply Exists_nil in Hin.
Qed.

(** A second Start panics when both sets of workers have returned: [done] is
    closed twice. *)
Definition twice : state :=
  State true true true [Run [WExit] false true; Run [WExit] false true] [SWaiting].

Theorem start_twice_panics : rtc step new twice.
Proof.
  eapply rtc_l; [apply (step_start 1)|]. eapply rtc_l; [apply (step_start 1)|]. eapply rtc_l; [apply step_stop|].
  eapply rtc_l; [by eapply (step_work _ [] [Run [WSelect] false false] [] []); [reflexivity|apply work_stop]|].
  eapply rtc_l; [by eapply (step_work _ [Run [WExit] false false] [] [] []); [reflexivity|apply work_stop]|].
  eapply rtc_l; [apply (step_close _ [] [Run [WExit] false false] [WExit] false); [reflexivity|by repeat constructor]|].
  eapply rtc_l; [apply (step_close _ [Run [WExit] false true] [] [WExit] false); [reflexivity|by repeat constructor]|].
  reflexivity.
Qed.

(** ** Witnesses *)

(** One worker, one Stop that has returned. *)
Definition stopped_once : state := State true true false [Run [WExit] false true] [SReturned].
(** One busy worker, one Stop that waits. *)
Definition stopping : state := State true false false [Run [WBusy] false false] [SWaiting].

Lemma stopping_reachable : rtc step new stopping.
Proof.
  eapply rtc_l; [apply (step_start 1)|]. eapply rtc_l; [apply step_stop|].
  apply rtc_once.
  apply (step_work (Stop (Start 1 new)) [] [] [] [] WSelect WBusy false false); [reflexivity|apply work_tick].
Qed.

Lemma stopped_once_reachable : rtc step new stopped_once.
Proof.
  etrans; [apply stopping_reachable|].
  eapply rtc_l; [by eapply (step_work _ [] [] [] []); [reflexivity|apply work_done]|].
  eapply rtc_l; [by eapply (step_work _ [] [] [] []); [reflexivity|apply work_stop]|].
  eapply rtc_l; [apply (step_close _ [] [] [WExit] false); [reflexivity|by repeat constructor]|].
  apply rtc_once.
  by apply (step_return (State true true false [Run [WExit] false true] [SWaiting]) [] []).
Qed.

Lemma stop_waits_for_workers_witness : quiet (Run [WExit] false true).
Proof.
  apply (stop_waits_for_workers stopped_once); [apply stopped_once_reachable|reflexivity|by left].
Defined.

Lemma stop_can_return_all_witness : ∃ s', rtc step stopping s' ∧ stoppers s' = [SReturned].
Proof.
  apply (stop_can_return_all stopping (Run [WBusy] false false)); [apply stopping_reachable|reflexivity|discriminate].
Defined.

Lemma stop_without_start_witness : SReturned ∉ stoppers (Stop new).
Proof. apply stop_without_start; [apply rtc_once, step_stop|reflexivity]. Defined.

End Lifecycle.
