(* ===== verification/Http.v ===== *)
(** * HTTP requests, handlers and the response writer of net/http

    A handler's run is the sequence of its visible actions on the response
    writer, the logger and the metrics, and how it ended.  [wire] is what
    net/http makes of the actions: what the client receives. *)

From S2P Require Import Prelude GoLang.
Open Scope Z_scope.

Module Http.

Record Claims := MkClaims {
  UserID : string; Roles : list string;
  IssuedAt : option Time; NotBefore : option Time; ExpiresAt : option Time; Subject : string
}.

#[export] Instance Claims_eq_dec : EqDecision Claims.
Proof. solve_decision. Defined.

(** The values gkit-go stores in a request context. *)
Record context := Ctx {
  ctx_request_id : option string;
  ctx_claims : option Claims;
  ctx_timeouts : list Duration
}.

Record Request := MkRequest {
  Method : string; Path : string; Pattern : string;
  Header : gmap string string; Cookies : gmap string string; RemoteAddr : string;
  Context : context
}.

Definition Header_Get (r : Request) (k : string) : string := default "" (Header r !! k).
Definition WithContext (c : context) (r : Request) : Request :=
  MkRequest (Method r) (Path r) (Pattern r) (Header r) (Cookies r) (RemoteAddr r) c.

Inductive level := LevelDebug | LevelInfo | LevelWarn | LevelError.

(** The actions a handler completed: [WriteHeader] panics in net/http on a code outside
    100..999, so that a run with such a call ends in a panic and has no event for it.
    [Write n]: a write of which the connection accepted [n] bytes. *)
Inductive event :=
| SetHeader (k v : string)
| WriteHeader (code : Z)
| Write (n : Z)
| LogRequest (l : level) (method path : string) (status bytes : Z) (request_id : option string)
| LogPanic (p : string)
| InFlight (method : string) (d : Z)
| RequestsTotal (method path : string) (status : Z)
| ObserveDuration (method path : string)
| ResponseBytes (method : string) (n : Z).

Definition run : Type := list event * outcome unit.
Definition Handler : Type := Request → run.

(** [http.Error]. *)
Definition http_Error (msg : string) (code : Z) : list event :=
  [SetHeader "Content-Type" "text/plain; charset=utf-8"; SetHeader "X-Content-Type-Options" "nosniff";
   WriteHeader code; Write (Z.of_nat (String.length msg) + 1)].

(** ** The wire *)

Record wire := Wire { w_status : option Z; w_header : gmap string string; w_bytes : Z }.
Definition wire_init : wire := Wire None ∅ 0.

Definition valid_code (code : Z) : bool := (100 <=? code) && (code <=? 999).

(** 1xx codes other than 101 are informational and leave the header open. *)
Definition informational (code : Z) : bool := (100 <=? code) && (code <=? 199) && negb (code =? 101).

Definition wire_step (w : wire) (e : event) : wire :=
  match e with
  | SetHeader k v => match w_status w with
                     | None => Wire None (<[k := v]> (w_header w)) (w_bytes w)
                     | Some _ => w
                     end
  | WriteHeader code => match w_status w with
                        | None => if informational code then w else Wire (Some code) (w_header w) (w_bytes w)
                        | Some _ => w
                        end
  | Write n => Wire (Some (default 200 (w_status w))) (w_header w) (w_bytes w + n)
  | _ => w
  end.

Definition wire_run (evs : list event) : wire := fold_left wire_step evs wire_init.

(** The status the client sees; the server sends 200 if the handler returned
    without writing. *)
Definition wire_status (evs : list event) : Z := default 200 (w_status (wire_run evs)).

(** ** Lemmas *)

Lemma wire_run_app a b : wire_run (a ++ b) = fold_left wire_step b (wire_run a).
Proof. unfold wire_run. by rewrite fold_left_app. Qed.

Lemma wire_status_kept w evs s : w_status w = Some s → w_status (fold_left wire_step evs w) = Some s.
Proof.
  revert w. induction evs as [|e evs IH]; intros w Hw; simpl; [done|]. apply IH.
  destruct e; simpl; rewrite ?Hw; done.
Qed.

(** The status does not depend on headers and bytes. *)
Lemma wire_status_ext w w' evs :
  w_status w = w_status w' → w_status (fold_left wire_step evs w) = w_status (fold_left wire_step evs w').
Proof.
  revert w w'. induction evs as [|e evs IH]; intros w w' Hw; simpl; [done|]. apply IH.
  destruct e; simpl; rewrite <-?Hw; repeat case_match; simpl; congruence.
Qed.

End Http.
