(* ===== verification/Middleware.v ===== *)
(** * pkg/middleware: composable HTTP middleware *)

From S2P Require Import Prelude GoLang Http.
Open Scope Z_scope.

Module Middleware.
Import Http.

Definition Middleware : Type := Handler → Handler.

(** The loop of [Chain], from the last middleware down to the first. *)
Fixpoint Chain_loop (ms : list Middleware) (i : nat) (next : Handler) : Handler :=
  match i with
  | O => next
  | S i => Chain_loop ms i (match ms !! i : option Middleware with Some m => m next | None => next end)
  end.
Definition Chain (ms : list Middleware) : Middleware := λ next, Chain_loop ms (length ms) next.
Definition Apply (h : Handler) (ms : list Middleware) : Handler := Chain ms h.

(** ** Recovery *)

Definition Recovery : Middleware := λ next r,
  match next r with
  | (evs, Panic p) => (evs ++ [LogPanic p] ++ http_Error "Internal Server Error" 500, Ret tt)
  | (evs, Ret _) => (evs, Ret tt)
  end.

(** ** RequestID *)

Definition RequestIDHeader : string := "X-Request-Id".

Definition hex_digit (d : Z) : Ascii.ascii :=
  default Ascii.zero (String.get (Z.to_nat d) "0123456789abcdef").
Definition hex_EncodeToString (bs : list Z) : string :=
  fold_right (λ b s, String (hex_digit (b / 16)) (String (hex_digit (b mod 16)) s)) "" bs.

(** [rnd] is what [rand.Read] puts into the eight bytes. *)
Definition newRequestID (rnd : list Z) : string := hex_EncodeToString (take 8 rnd).

Definition RequestID (rnd : Request → list Z) : Middleware := λ next r,
  let id := Header_Get r RequestIDHeader in
  let id := if bool_decide (id = "") then newRequestID (rnd r) else id in
  let c := Context r in
  let '(evs, o) := next (WithContext (Ctx (Some id) (ctx_claims c) (ctx_timeouts c)) r) in
  (SetHeader RequestIDHeader id :: evs, o).

Definition RequestIDFromContext (c : context) : string := default "" (ctx_request_id c).

(** ** Timeout and RateLimit *)

Definition Timeout (d : Duration) : Middleware := λ next r,
  let c := Context r in
  next (WithContext (Ctx (ctx_request_id c) (ctx_claims c) (d :: ctx_timeouts c)) r).

Definition RateLimit (allow : Request → bool) : Middleware := λ next r,
  if negb (allow r) then (http_Error "rate limit exceeded" 429, Ret tt) else next r.

(** ** The recording response writer *)

Record responseWriter := RW { status : Z; wroteHeader : bool; bytes : Z }.
Definition wrapResponseWriter : responseWriter := RW 200 false 0.

Definition rw_WriteHeader (rw : responseWriter) (code : Z) : responseWriter * list event :=
  if wroteHeader rw then (rw, []) else (RW code true (bytes rw), [WriteHeader code]).
Definition rw_Write (rw : responseWriter) (n : Z) : responseWriter * list event :=
  (RW (status rw) (wroteHeader rw) (bytes rw + n), [Write n]).

Definition rw_step (rw : responseWriter) (e : event) : responseWriter * list event :=
  match e with
  | WriteHeader code => rw_WriteHeader rw code
  | Write n => rw_Write rw n
  | e => (rw, [e])
  end.

(** A handler run through the wrapper: the wrapper's final state and the actions
    that reach the underlying writer. *)
Fixpoint rw_run (rw : responseWriter) (evs : list event) : responseWriter * list event :=
  match evs with
  | [] => (rw, [])
  | e :: evs =>
    let '(rw, out1) := rw_step rw e in
    let '(rw, out2) := rw_run rw evs in (rw, out1 ++ out2)
  end.

(** ** Logging *)

Definition log_level (s : Z) : level :=
  if s >=? 500 then LevelError else if s >=? 400 then LevelWarn else LevelInfo.

Definition Logging : Middleware := λ next r,
  let '(evs, o) := next r in
  let '(wrapped, out) := rw_run wrapResponseWriter evs in
  match o with
  | Panic p => (out, Panic p)
  | Ret _ =>
    let id := RequestIDFromContext (Context r) in
    (out ++ [LogRequest (log_level (status wrapped)) (Method r) (Path r) (status wrapped) (bytes wrapped)
               (if bool_decide (id = "") then None else Some id)], Ret tt)
  end.

(** ** HTTPMetrics *)

Definition HTTPMetrics_Middleware : Middleware := λ next r,
  let '(evs, o) := next r in
  let '(wrapped, out) := rw_run wrapResponseWriter evs in
  match o with
  | Panic p => (InFlight (Method r) 1 :: out, Panic p)
  | Ret _ =>
    let path := if bool_decide (Pattern r = "") then Path r else Pattern r in
    (InFlight (Method r) 1 :: out ++
       [InFlight (Method r) (-1); RequestsTotal (Method r) path (status wrapped);
        ObserveDuration (Method r) path; ResponseBytes (Method r) (bytes wrapped)], Ret tt)
  end.

(** ** Specification *)

Definition total (f : event → Z) (evs : list event) : Z := fold_right (λ e s, f e + s) 0 evs.
Definition written (e : event) : Z := match e with Write n => n | _ => 0 end.

(** The handler sends its header, with a final status, before it writes. *)
Fixpoint header_first (evs : list event) : bool :=
  match evs with
  | [] => true
  | WriteHeader c :: _ => negb (informational c)
  | Write _ :: evs => forallb (λ e, match e with WriteHeader _ => false | _ => true end) evs
  | _ :: evs => header_first evs
  end.

(** The value an in-flight gauge moves by during a run. *)
Definition in_flight (method : string) (e : event) : Z :=
  match e with InFlight m d => if bool_decide (m = method) then d else 0 | _ => 0 end.
Definition gauge (method : string) (evs : list event) : Z := total (in_flight method) evs.

(** ** Lemmas *)

Lemma Chain_loop_take (ms : list Middleware) i next : (i ≤ length ms)%nat →
  Chain_loop ms i next = foldr (λ (m : Middleware) h, m h) next (take i ms).
Proof.
  revert next. induction i as [|i IH]; intros next Hi; [done|]. cbn [Chain_loop].
  destruct (lookup_lt_is_Some_2 ms i) as [m Hm]; [lia|]. rewrite Hm.
  rewrite IH by lia. erewrite take_S_r by done. by rewrite foldr_snoc.
Qed.

Lemma rw_run_bytes rw evs :
  bytes (rw_run rw evs).1 = bytes rw + total written evs.
Proof.
  revert rw. induction evs as [|e evs IH]; intros rw; simpl; [lia|].
  destruct (rw_step rw e) as [rw1 o1] eqn:E1. specialize (IH rw1).
  destruct (rw_run rw1 evs) as [rw2 o2]. simpl in *. rewrite IH.
  destruct e; simpl in *; unfold rw_WriteHeader, rw_Write in E1; try dmatch_in E1; simplify_eq/=; lia.
Qed.

(** Once the wrapper has a status, its run forwards no second header. *)
Lemma rw_run_wrote rw evs : wroteHeader rw = true →
  status (rw_run rw evs).1 = status rw ∧ wroteHeader (rw_run rw evs).1 = true.
Proof.
  revert rw. induction evs as [|e evs IH]; intros rw Hw; simpl; [done|].
  destruct (rw_step rw e) as [rw1 o1] eqn:E1.
  assert (H1 : wroteHeader rw1 = true ∧ status rw1 = status rw).
  { destruct e; simpl in E1; unfold rw_WriteHeader, rw_Write in E1; rewrite ?Hw in E1; by simplify_eq/=. }
  destruct H1 as [H1 H2], (IH _ H1) as [H3 H4]. destruct (rw_run rw1 evs). simpl in *. split; congruence.
Qed.

Lemma rw_run_no_header rw evs :
  forallb (λ e, match e with WriteHeader _ => false | _ => true end) evs = true →
  status (rw_run rw evs).1 = status rw ∧ (rw_run rw evs).2 = evs.
Proof.
  revert rw. induction evs as [|e evs IH]; intros rw Hf; simpl in *; [done|].
  apply andb_true_iff in Hf as [He Hf].
  destruct (rw_step rw e) as [rw1 o1] eqn:E1.
  assert (H1 : o1 = [e] ∧ status rw1 = status rw) by (destruct e; try done; by injection E1 as <- <-).
  destruct H1 as [-> H2], (IH rw1 Hf) as [H3 H4]. destruct (rw_run rw1 evs). simpl in *. subst. split; congruence.
Qed.

Lemma rw_status_wire rw w evs :
  header_first evs = true → wroteHeader rw = false → status rw = 200 → w_status w = None →
  default 200 (w_status (fold_left wire_step (rw_run rw evs).2 w)) = status (rw_run rw evs).1.
Proof.
  revert rw w. induction evs as [|e evs IH]; intros rw w Hf Hn Hs Hw; simpl; [by rewrite Hw, Hs|].
  destruct e as [k v|c|n|l m p s b i|p|m d|m p s|m p|m n]; simpl in *;
    try (specialize (IH rw w Hf Hn Hs Hw); destruct (rw_run rw evs); done).
  - specialize (IH rw (wire_step w (SetHeader k v)) Hf Hn Hs). simpl in IH. rewrite Hw in IH.
    specialize (IH eq_refl). destruct (rw_run rw evs). simpl in *. by rewrite Hw.
  - unfold rw_WriteHeader. rewrite Hn.
    destruct (rw_run_wrote (RW c true (bytes rw)) evs eq_refl) as [Hst _].
    destruct (rw_run (RW c true (bytes rw)) evs) as [rw2 o2]. simpl in *. rewrite Hw.
    apply negb_true_iff in Hf. rewrite Hf. erewrite wire_status_kept by done. done.
  - unfold rw_Write. destruct (rw_run_no_header (RW (status rw) (wroteHeader rw) (bytes rw + n)) evs Hf) as [Hst _].
    destruct (rw_run (RW (status rw) (wroteHeader rw) (bytes rw + n)) evs) as [rw2 o2]. simpl in *.
    erewrite wire_status_kept by (simpl; rewrite Hw; done). simpl. congruence.
Qed.

(** The codes written are valid and none is informational (1xx). *)
Definition plain (evs : list event) : bool :=
  forallb (λ e, match e with WriteHeader c => valid_code c && negb (informational c) | _ => true end) evs.

Lemma plain_events_app a b : plain (a ++ b) = plain a && plain b.
Proof. apply forallb_app. Qed.

(** For such a run the wrapper is invisible on the wire. *)
Lemma rw_run_wire rw evs w :
  plain evs = true → (wroteHeader rw = true → w_status w ≠ None) →
  plain (rw_run rw evs).2 = true ∧
  fold_left wire_step (rw_run rw evs).2 w = fold_left wire_step evs w.
Proof.
  revert rw w. induction evs as [|e evs IH]; intros rw w Hp Hw; simpl; [done|].
  apply andb_true_iff in Hp as [He Hp].
  assert (Hstep : plain (rw_step rw e).2 = true ∧
    fold_left wire_step (rw_step rw e).2 w = wire_step w e ∧
    (wroteHeader (rw_step rw e).1 = true → w_status (wire_step w e) ≠ None)).
  { destruct e as [k v|c|n| | | | | |]; simpl; try done.
    - split_and!; [done|done|]. intros Hh. specialize (Hw Hh). destruct (w_status w) eqn:E; [by rewrite E|done].
    - unfold rw_WriteHeader. destruct (wroteHeader rw); simpl.
      + specialize (Hw eq_refl). destruct (w_status w) eqn:E; [by rewrite E|done].
      + rewrite He. split_and!; [done|done|]. intros _. apply andb_true_iff in He as [_ He%negb_true_iff]. rewrite He.
        destruct (w_status w) eqn:E; [by rewrite E|done]. }
  destruct Hstep as (H1 & H2 & H3). destruct (rw_step rw e) as [rw1 o1]. simpl in *.
  destruct (IH rw1 (wire_step w e) Hp H3) as [H4 H5]. destruct (rw_run rw1 evs) as [rw2 o2]. simpl in *.
  by rewrite plain_events_app, H1, H4, fold_left_app, H2.
Qed.

(** How each middleware changes the status on the wire. *)
Definition sent (evs : list event) : option Z := w_status (wire_run evs).

Lemma sent_app_quiet evs quiet : (∀ w, w_status (fold_left wire_step quiet w) = w_status w) →
  sent (evs ++ quiet) = sent evs.
Proof. intros Hq. unfold sent. by rewrite wire_run_app. Qed.

Lemma sent_cons_quiet e evs : (∀ w, w_status (wire_step w e) = w_status w) → sent (e :: evs) = sent evs.
Proof. intros Hq. unfold sent, wire_run. simpl. apply wire_status_ext, Hq. Qed.

Lemma sent_rw evs : plain evs = true →
  plain (rw_run wrapResponseWriter evs).2 = true ∧ sent (rw_run wrapResponseWriter evs).2 = sent evs.
Proof.
  intros Hp. destruct (rw_run_wire wrapResponseWriter evs wire_init Hp) as [? Hw]; [done|].
  unfold sent, wire_run. by rewrite Hw.
Qed.

Lemma Logging_sent next r : plain (next r).1 = true →
  sent (Logging next r).1 = sent (next r).1 ∧
  (Logging next r).2 = match (next r).2 with Ret _ => Ret tt | Panic p => Panic p end.
Proof.
  unfold Logging. destruct (next r) as [evs o]. simpl. intros [_ Hs]%sent_rw.
  destruct (rw_run wrapResponseWriter evs) as [rw out]. simpl in Hs.
  destruct o; simpl; split; try done. by rewrite sent_app_quiet.
Qed.

Lemma HTTPMetrics_sent next r : plain (next r).1 = true →
  plain (HTTPMetrics_Middleware next r).1 = true ∧
  sent (HTTPMetrics_Middleware next r).1 = sent (next r).1 ∧
  (HTTPMetrics_Middleware next r).2 = match (next r).2 with Ret _ => Ret tt | Panic p => Panic p end.
Proof.
  unfold HTTPMetrics_Middleware. destruct (next r) as [evs o]. simpl. intros [Hp Hs]%sent_rw.
  destruct (rw_run wrapResponseWriter evs) as [rw out]. simpl in Hp, Hs.
  destruct o; simpl; rewrite ?sent_cons_quiet by done; rewrite ?plain_events_app, ?Hp; split_and!; try done.
  by rewrite sent_app_quiet.
Qed.

Lemma Recovery_sent next r : plain (next r).1 = true →
  plain (Recovery next r).1 = true ∧ (Recovery next r).2 = Ret tt ∧
  sent (Recovery next r).1 = match (next r).2 with
                             | Ret _ => sent (next r).1
                             | Panic _ => Some (default 500 (sent (next r).1))
                             end.
Proof.
  unfold Recovery. destruct (next r) as [evs [[]|p]]; simpl; [done|]. intros Hp.
  rewrite plain_events_app, Hp. split_and!; [done|done|].
  unfold sent. rewrite wire_run_app. simpl. by destruct (w_status (wire_run evs)) as [s|] eqn:E; simpl; rewrite ?E.
Qed.

Lemma rw_run_sub rw evs e : e ∈ (rw_run rw evs).2 → e ∈ evs.
Proof.
  revert rw. induction evs as [|x evs IH]; intros rw; simpl; [done|].
  destruct (rw_step rw x) as [rw1 o1] eqn:E1. specialize (IH rw1). destruct (rw_run rw1 evs) as [rw2 o2].
  simpl in *. rewrite elem_of_app, elem_of_cons. intros [He|He]; [left|auto].
  destruct x; simpl in E1; unfold rw_WriteHeader, rw_Write in E1; try dmatch_in E1; simplify_eq/=;
    rewrite ?list_elem_of_singleton, ?elem_of_nil in He; done.
Qed.

(** A header that nobody sets again is the one sent. *)
Lemma wire_keeps_header k v w evs :
  (∀ v', SetHeader k v' ∉ evs) → w_header w !! k = Some v →
  w_header (fold_left wire_step evs w) !! k = Some v.
Proof.
  revert w. induction evs as [|e evs IH]; intros w Hni Hw; simpl; [done|].
  apply IH; [intros v' Hv; apply (Hni v'); by right|].
  destruct e; simpl; repeat dmatch; try done. simpl. rewrite lookup_insert_ne; [done|].
  intros ->. eapply Hni. by left.
Qed.

Lemma gauge_app m a b : gauge m (a ++ b) = gauge m a + gauge m b.
Proof. unfold gauge. induction a as [|e a IH]; simpl; lia. Qed.

Lemma gauge_cons m e l : gauge m (e :: l) = in_flight m e + gauge m l.
Proof. done. Qed.

Lemma gauge_rw m rw evs : gauge m (rw_run rw evs).2 = gauge m evs.
Proof.
  revert rw. induction evs as [|e evs IH]; intros rw; simpl; [done|].
  destruct (rw_step rw e) as [rw1 o1] eqn:E1. specialize (IH rw1). destruct (rw_run rw1 evs) as [rw2 o2].
  simpl in *. rewrite gauge_app, IH. unfold gauge at 1. unfold gauge at 2.
  destruct e; simpl in E1; unfold rw_WriteHeader, rw_Write in E1; try dmatch_in E1; simplify_eq/=; unfold gauge; lia.
Qed.

(** ** Properties *)

(** [Chain] applies the first middleware outermost, and chains compose. *)
Theorem chain_outermost_first m ms ms' next :
  Chain (m :: ms) next = m (Chain ms next) ∧ Chain (ms ++ ms') next = Chain ms (Chain ms' next).
Proof.
  unfold Chain. rewrite !Chain_loop_take, !take_ge by lia. simpl. split; [done|]. by rewrite foldr_app.
Qed.

(** [Recovery] contains panics: the wrapped handler never panics; if the inner
    handler panicked before a final header was sent the client receives status
    500, otherwise the status already sent stands; a handler that returns is
    left untouched. *)
Theorem recovery_contains_panics next r :
  let '(evs, o) := next r in
  let '(evs', o') := Recovery next r in
  o' = Ret tt ∧
  match o with
  | Ret _ => evs' = evs
  | Panic p => wire_status evs' = default 500 (w_status (wire_run evs))
  end.
Proof.
  unfold Recovery. destruct (next r) as [evs [[]|p]]; [done|]. split; [done|].
  unfold wire_status. rewrite wire_run_app. destruct (wire_run evs) as [[s|] hd n]; [|done].
  by erewrite wire_status_kept.
Qed.

(** [Logging] reports what the client received: for a handler that sends its
    header before the body, the status it logs is the status on the wire and
    the byte count is what was written; the level is ERROR from 500, WARN from
    400.  It adds nothing else to what the handler does. *)
Theorem logging_reports_wire next r evs :
  next r = (evs, Ret tt) → header_first evs = true →
  ∃ out s, (Logging next r) =
      (out ++ [LogRequest (log_level s) (Method r) (Path r) s (total written evs)
                 (if bool_decide (RequestIDFromContext (Context r) = "") then None
                  else Some (RequestIDFromContext (Context r)))], Ret tt) ∧
    s = wire_status out ∧ ∀ e, e ∈ out → e ∈ evs.
Proof.
  intros Hn Hf. unfold Logging. rewrite Hn.
  pose proof (rw_run_bytes wrapResponseWriter evs) as Hb.
  pose proof (rw_status_wire wrapResponseWriter wire_init evs Hf eq_refl eq_refl eq_refl) as Hs.
  pose proof (rw_run_sub wrapResponseWriter evs) as Hsub.
  destruct (rw_run wrapResponseWriter evs) as [rw out]. simpl in *. rewrite Hb.
  exists out, (status rw). by unfold wire_status, wire_run.
Qed.

(** For a handler that writes first and then sets a status the wrapper reports
    the status the client never received. *)
Theorem logging_wrong_status : ∃ next r out s b,
  Logging next r = (out ++ [LogRequest LevelError (Method r) (Path r) s b None], Ret tt) ∧
  s = 500 ∧ wire_status out = 200.
Proof.
  exists (λ _, ([Write 5; WriteHeader 500], Ret tt)),
    (MkRequest "GET" "/" "" ∅ ∅ "" (Ctx None None [])), [Write 5; WriteHeader 500], 500, 5. done.
Qed.

(** The in-flight gauge of [HTTPMetrics] returns to its value when the handler
    returns and stays one too high for ever when it panics. *)
Theorem http_gauge next r :
  let '(evs, o) := next r in
  gauge (Method r) (HTTPMetrics_Middleware next r).1 =
    gauge (Method r) evs + match o with Ret _ => 0 | Panic _ => 1 end.
Proof.
  unfold HTTPMetrics_Middleware. destruct (next r) as [evs o].
  pose proof (gauge_rw (Method r) wrapResponseWriter evs) as Hg.
  destruct (rw_run wrapResponseWriter evs) as [rw out]. simpl in Hg. rewrite <-Hg.
  destruct o as [[]|p]; simpl; rewrite ?gauge_cons, ?gauge_app, ?gauge_cons; simpl;
    rewrite bool_decide_eq_true_2 by done; unfold gauge; simpl; lia.
Qed.

(** [RequestID] gives the handler and the client the same id: the incoming one
    if there is one, a fresh one otherwise, and the client's header carries it
    whatever the handler does with other headers. *)
Theorem request_id_propagates rnd next r :
  let id := if bool_decide (Header_Get r RequestIDHeader = "") then newRequestID (rnd r)
            else Header_Get r RequestIDHeader in
  let '(evs, o) := RequestID rnd next r in
  ∃ c, RequestIDFromContext c = id ∧ next (WithContext c r) = (tail evs, o) ∧
    ((∀ v, SetHeader RequestIDHeader v ∉ tail evs) →
     w_header (wire_run evs) !! RequestIDHeader = Some id).
Proof.
  unfold RequestID. destruct (next _) as [evs o] eqn:E. eexists. split; [|split; [exact E|]]; [reflexivity|].
  intros Hni. unfold wire_run. cbn [fold_left]. apply wire_keeps_header; [exact Hni|].
  apply lookup_insert_eq.
Qed.

(** ** Witness *)

Lemma logging_reports_wire_witness : ∃ out s,
  Logging (λ _, ([WriteHeader 404; Write 9], Ret tt)) (MkRequest "GET" "/x" "" ∅ ∅ "" (Ctx (Some "id1") None []))
  = (out ++ [LogRequest (log_level s) "GET" "/x" s 9 (Some "id1")], Ret tt) ∧ s = wire_status out.
Proof.
  destruct (logging_reports_wire (λ _, ([WriteHeader 404; Write 9], Ret tt))
    (MkRequest "GET" "/x" "" ∅ ∅ "" (Ctx (Some "id1") None [])) [WriteHeader 404; Write 9] eq_refl eq_refl)
    as (out & s & HL & Hs & _).
  exists out, s. split; [exact HL|exact Hs].
Defined.

End Middleware.
