(* ===== verification/Auth.v ===== *)
(** * pkg/auth: JWT authentication and role checks

    The JWT library is not part of the repository: it is the class [Jwt], whose
    laws state its documented contract (the key function is asked for the key
    of the token's method, the signature is checked with that key, and with
    [WithExpirationRequired] the token carries an expiry that has not passed). *)

From S2P Require Import Prelude GoLang Strings Http Middleware.
Open Scope Z_scope.

Module Auth.
Import Strings Http Middleware.

(** ** Claims *)

Fixpoint has_role (roles : list string) (role : string) : bool :=
  match roles with
  | [] => false
  | r :: rs => if bool_decide (r = role) then true else has_role rs role
  end.
Definition HasRole (c : Claims) (role : string) : bool := has_role (Roles c) role.

Fixpoint HasAnyRole (c : Claims) (roles : list string) : bool :=
  match roles with
  | [] => false
  | role :: roles => if HasRole c role then true else HasAnyRole c roles
  end.

Definition ContextWithClaims (ctx : context) (c : Claims) : context :=
  Ctx (ctx_request_id ctx) (Some c) (ctx_timeouts ctx).
Definition ClaimsFromContext (ctx : context) : option Claims := ctx_claims ctx.

(** ** The bearer token *)

Definition ErrMissing : error := ErrNew 70 "missing Authorization header".
Definition ErrNotBearer : error := ErrNew 71 "Authorization header must start with 'Bearer '".
Definition ErrEmpty : error := ErrNew 72 "empty token".

Definition bearerToken (r : Request) : error + string :=
  let hdr := Header_Get r "Authorization" in
  if bool_decide (hdr = "") then
    match Cookies r !! "access_token" with
    | Some v => inr v
    | None => inl ErrMissing
    end
  else match CutPrefix "Bearer " hdr with
       | None => inl ErrNotBearer
       | Some rest => let tok := TrimSpace rest in
                      if bool_decide (tok = "") then inl ErrEmpty else inr tok
       end.

(** ** The JWT library *)

Inductive SigningMethod := HMAC (alg : string) | OtherMethod (alg : string).

#[export] Instance SigningMethod_eq_dec : EqDecision SigningMethod.
Proof. solve_decision. Defined.

Definition ErrTokenExpired_id : positive := 73.

Inductive ParserOption := WithExpirationRequired.

(** [ParseWithClaims raw kf opts now], [now] the clock it reads. *)
Class Jwt (key : Type) := {
  jwt_method : string → option SigningMethod;
  jwt_signed : string → SigningMethod → key → Claims → bool;
  ParseWithClaims : string → (SigningMethod → error + key) → list ParserOption → Time → error + Claims;
  SignedString : SigningMethod → key → Claims → error + string
}.

Class JwtLaws (key : Type) `{Jwt key} : Prop := {
  parse_sound raw kf opts now c : ParseWithClaims raw kf opts now = inr c →
    ∃ m k, jwt_method raw = Some m ∧ kf m = inr k ∧ jwt_signed raw m k c = true ∧
      (∀ e, ExpiresAt c = Some e → now < e) ∧
      (WithExpirationRequired ∈ opts → is_Some (ExpiresAt c));
  parse_complete raw kf opts now m k c e :
    SignedString m k c = inr raw → kf m = inr k → ExpiresAt c = Some e → now < e →
    (∀ t, NotBefore c = Some t → t ≤ now) →
    ParseWithClaims raw kf opts now = inr c
}.

Section Auth.
Context {key : Type} `{Jwt key} (Error : error → string).

Definition keyfunc (secret : key) (m : SigningMethod) : error + key :=
  match m with
  | HMAC _ => inr secret
  | OtherMethod alg => inl (ErrFmt "unexpected signing method: %v" [alg])
  end.

Definition parseToken (raw : string) (secret : key) (now : Time) : error + Claims :=
  ParseWithClaims raw (keyfunc secret) [WithExpirationRequired] now.

Definition JWT (secret : key) (now : Request → Time) : Middleware := λ next r,
  match bearerToken r with
  | inl err => (http_Error ("unauthorized: " +:+ Error err) 401, Ret tt)
  | inr raw =>
    match parseToken raw secret (now r) with
    | inl err =>
      if errors_Is (Some err) ErrTokenExpired_id then (http_Error "token expired" 403, Ret tt)
      else (http_Error "unauthorized: invalid token" 401, Ret tt)
    | inr claims => next (WithContext (ContextWithClaims (Context r) claims) r)
    end
  end.

(** [jwt.NewNumericDate] truncates to seconds. *)
Definition NewNumericDate (t : Time) : Time := t / Second * Second.

Definition IssueToken (c : Claims) (secret : key) (ttl : Duration) (now : Time) : error + string :=
  let c := MkClaims (UserID c) (Roles c) (Some (NewNumericDate now)) (Some (NewNumericDate now))
             (Some (NewNumericDate (Add now ttl))) (UserID c) in
  match SignedString (HMAC "HS256") secret c with
  | inl err => inl (ErrWrap "auth: sign token: %w" [] err)
  | inr signed => inr signed
  end.
End Auth.

Definition Require (roles : list string) : Middleware := λ next r,
  match ClaimsFromContext (Context r) with
  | None => (http_Error "forbidden: no claims" 403, Ret tt)
  | Some claims =>
    if (0 <? length roles)%nat && negb (HasAnyRole claims roles)
    then (http_Error "forbidden: insufficient role" 403, Ret tt)
    else next r
  end.

(** ** Lemmas *)

Lemma has_role_in roles role : has_role roles role = true ↔ role ∈ roles.
Proof.
  induction roles as [|r rs IH]; simpl; [by rewrite elem_of_nil|].
  rewrite elem_of_cons. case_bool_decide; subst; [naive_solver|]. rewrite IH. naive_solver.
Qed.

Lemma HasAnyRole_in c roles : HasAnyRole c roles = true ↔ ∃ role, role ∈ roles ∧ role ∈ Roles c.
Proof.
  induction roles as [|r rs IH]; simpl.
  - split; [done|]. intros (? & Hr & _). by apply elem_of_nil in Hr.
  - destruct (HasRole c r) eqn:E.
    + apply has_role_in in E. split; [|done]. intros _. exists r. split; [by left|done].
    + rewrite IH. split; intros (x & Hx & Hc); [exists x; split; [by right|done]|].
      apply elem_of_cons in Hx as [->|Hx]; [|by exists x].
      apply has_role_in in Hc. unfold HasRole in E. congruence.
Qed.

Section Proofs.
Context {key : Type} `{JwtLaws key} (Error : error → string).

Lemma keyfunc_hmac (secret : key) m k : keyfunc secret m = inr k → (∃ alg, m = HMAC alg) ∧ k = secret.
Proof. destruct m; simpl; intros; simplify_eq; eauto. Qed.

(** ** Properties *)

(** C39: Nobody reaches a protected handler without credentials: behind [JWT] and
    [Require], the handler runs only on a request whose token has an HMAC
    method and is signed with the server's secret, carries the claims the
    handler sees, has not expired, and, when roles are required, grants one of
    them.  Every other request is answered with 401 or 403 and the handler is
    not run. *)
Theorem auth_gate (secret : key) now roles next r :
  (∃ raw c alg e, bearerToken r = inr raw ∧ jwt_method raw = Some (HMAC alg) ∧
     jwt_signed raw (HMAC alg) secret c = true ∧ ExpiresAt c = Some e ∧ now r < e ∧
     (roles ≠ [] → ∃ role, role ∈ roles ∧ role ∈ Roles c) ∧
     Chain [JWT Error secret now; Require roles] next r
     = next (WithContext (ContextWithClaims (Context r) c) r)) ∨
  (∃ msg code, (code = 401 ∨ code = 403) ∧
     Chain [JWT Error secret now; Require roles] next r = (http_Error msg code, Ret tt)).
Proof.
  change (Chain [JWT Error secret now; Require roles] next r) with (JWT Error secret now (Require roles next) r).
  unfold JWT. destruct (bearerToken r) as [e|raw] eqn:EB; [right; eauto 10|].
  destruct (parseToken raw secret (now r)) as [e|c] eqn:EP; [right; dmatch; eauto 10|].
  apply parse_sound in EP as (m & k & Hm & Hk & Hs & Hnow & He).
  destruct He as [e He]; [by left|]. apply Hnow in He as Hlt.
  apply keyfunc_hmac in Hk as [[alg ->] ->].
  unfold Require. simpl. destruct roles as [|role roles].
  - left. exists raw, c, alg, e. split_and!; done.
  - simpl. destruct (if HasRole c role then true else HasAnyRole c roles) eqn:ER; [|right; eauto 10].
    left. exists raw, c, alg, e. split_and!; try done. intros _. by apply (HasAnyRole_in c (role :: roles)).
Qed.

(** A token issued for a user is accepted until it expires: with the token in
    the Authorization header, [JWT] runs the handler with exactly the user and
    roles it was issued for. *)
Theorem issue_then_accept (secret : key) c ttl t0 now next r raw :
  IssueToken c secret ttl t0 = inr raw → bearerToken r = inr raw →
  t0 ≤ now r < NewNumericDate (t0 + ttl) →
  ∃ c', UserID c' = UserID c ∧ Roles c' = Roles c ∧ Subject c' = UserID c ∧
    JWT Error secret now next r = next (WithContext (ContextWithClaims (Context r) c') r).
Proof.
  intros HI HB [Ht1 Ht2]. unfold IssueToken in HI.
  destruct (SignedString (HMAC "HS256") secret _) as [e|s] eqn:ES; [done|]. injection HI as ->.
  assert (Hd : NewNumericDate t0 ≤ t0).
  { unfold NewNumericDate. pose proof (Z.mul_div_le t0 Second ltac:(done)). lia. }
  match type of ES with SignedString _ _ ?c1 = _ => exists c1 end.
  split_and!; [done..|]. unfold JWT. rewrite HB. unfold parseToken.
  erewrite parse_complete; [done|exact ES|done|done|done|]. simpl. intros t Ht. simplify_eq. lia.
Qed.

End Proofs.

(** ** Witnesses: a toy library with two tokens, one of them unsigned *)

Definition demo_claims : Claims :=
  MkClaims "u1" ["admin"] (Some (10 * Second)) (Some (10 * Second)) (Some (20 * Second)) "u1".

#[export] Instance demo_jwt : Jwt Z := {
  jwt_method raw := if bool_decide (raw = "tok") then Some (HMAC "HS256") else Some (OtherMethod "none");
  jwt_signed raw m k c := match m with HMAC _ => (k =? 7) && bool_decide (raw = "tok") | _ => false end;
  ParseWithClaims raw kf _ now :=
    if bool_decide (raw = "tok")
    then match kf (HMAC "HS256") with
         | inr k => if (k =? 7) && (now <? 20 * Second) then inr demo_claims else inl ErrEmpty
         | inl e => inl e
         end
    else match kf (OtherMethod "none") with inr _ => inl ErrEmpty | inl e => inl e end;
  SignedString m k c :=
    if bool_decide (c = demo_claims) && bool_decide (m = HMAC "HS256") && (k =? 7)
    then inr "tok" else inl ErrEmpty
}.

#[export] Instance demo_jwt_laws : JwtLaws Z.
Proof.
  constructor.
  - intros raw kf opts now c HP. cbn in HP |- *.
    case_bool_decide; [|destruct (kf (OtherMethod "none")); done].
    destruct (kf (HMAC "HS256")) as [|k] eqn:EK; [done|].
    destruct ((k =? 7) && (now <? 20 * Second)) eqn:EB; [|done]. apply andb_true_iff in EB as [Hk Hn]. zbool.
    injection HP as <-. exists (HMAC "HS256"), k. subst k. split_and!; [done..| |by eexists]. by intros e [= <-].
  - intros raw kf opts now m k c e HS HK He Hn _. cbn in HS |- *.
    destruct (bool_decide (c = demo_claims) && bool_decide (m = HMAC "HS256") && (k =? 7)) eqn:EB; [|done].
    rewrite !andb_true_iff, !bool_decide_eq_true in EB. destruct EB as [[-> ->] Hk].
    injection HS as <-. injection He as <-. rewrite bool_decide_eq_true_2 by done. rewrite HK, Hk. simpl.
    by rewrite (proj2 (Z.ltb_lt _ _) Hn).
Qed.

Definition demo_request (hdr : string) : Request :=
  MkRequest "GET" "/" "" {["Authorization" := hdr]} ∅ "" (Ctx None None []).
Definition demo_next : Handler := λ r,
  ([WriteHeader (match ClaimsFromContext (Context r) with Some _ => 200 | None => 500 end)], Ret tt).

(** An admin token passes, an unsigned one does not. *)
Lemma auth_gate_witness :
  (Chain [JWT (λ _, "e") 7 (λ _, 12 * Second); Require ["admin"]] demo_next (demo_request "Bearer tok"))
    = ([WriteHeader 200], Ret tt) ∧
  ∃ msg code, (code = 401 ∨ code = 403) ∧
    Chain [JWT (λ _, "e") 7 (λ _, 12 * Second); Require ["admin"]] demo_next (demo_request "Bearer none ")
    = (http_Error msg code, Ret tt).
Proof.
  split; [vm_compute; reflexivity|].
  destruct (auth_gate (λ _, "e") 7 (λ _, 12 * Second) ["admin"] demo_next (demo_request "Bearer none "))
    as [(raw & c & alg & e & HB & Hm & _)|Hc]; [|exact Hc].
  exfalso. assert (HB' : bearerToken (demo_request "Bearer none ") = inr "none") by (vm_compute; reflexivity).
  rewrite HB' in HB. injection HB as <-. discriminate Hm.
Defined.

Lemma issue_then_accept_witness : ∃ c', UserID c' = "u1" ∧
  JWT (λ _, "e") 7 (λ _, 12 * Second) demo_next (demo_request "Bearer tok")
  = demo_next (WithContext (ContextWithClaims (Ctx None None []) c') (demo_request "Bearer tok")).
Proof.
  destruct (issue_then_accept (λ _, "e") 7 demo_claims (10 * Second) (10 * Second) (λ _, 12 * Second)
    demo_next (demo_request "Bearer tok") "tok") as (c' & Hu & _ & _ & HJ).
  - vm_compute. reflexivity.
  - vm_compute. reflexivity.
  - vm_compute. split; [discriminate|reflexivity].
  - exists c'. split; [exact Hu|exact HJ].
Defined.

End Auth.
