(* ===== verification/Interceptors.v ===== *)
(** * pkg/rpc/interceptors: gRPC server interceptors

    A handler acts on the state [W] of the service behind it; its run also
    yields the list of its metric and log actions and its result.
    [status.Code] and [status.Errorf] belong to the grpc module: they are the
    class [GrpcStatus] with their documented relation.  Unary handlers return a
    response and an error, stream handlers an error only. *)

From S2P Require Import Prelude GoLang.
Open Scope Z_scope.

Module Interceptors.

(** [codes.Code] is a [uint32]. *)
Definition Code := Z.
Definition OK : Code := 0.
Definition Canceled : Code := 1.
Definition Unknown : Code := 2.
Definition InvalidArgument : Code := 3.
Definition DeadlineExceeded : Code := 4.
Definition NotFound : Code := 5.
Definition AlreadyExists : Code := 6.
Definition PermissionDenied : Code := 7.
Definition ResourceExhausted : Code := 8.
Definition FailedPrecondition : Code := 9.
Definition Aborted : Code := 10.
Definition OutOfRange : Code := 11.
Definition Unimplemented : Code := 12.
Definition Internal : Code := 13.
Definition Unavailable : Code := 14.
Definition DataLoss : Code := 15.
Definition Unauthenticated : Code := 16.

Class GrpcStatus := {
  status_Code : error → Code;
  status_Errorf : Code → string → string → error;
  status_Code_Errorf c fmt arg : status_Code (status_Errorf c fmt arg) = c;
  (** the second result of [status.FromError]: whether the error carries a status *)
  status_ok : error → bool;
  status_ok_Errorf c fmt arg : c ≠ OK → status_ok (status_Errorf c fmt arg) = true;
  status_Code_Unknown e : status_ok e = false → status_Code e = Unknown
}.

(** The code a server sends for an error of a handler: the one of its status, and otherwise
    [status.FromContextError]. *)
Definition sent_code `{GrpcStatus} (e : error) : Code :=
  if status_ok e then status_Code e
  else if errors_Is (Some e) 2 then DeadlineExceeded
  else if errors_Is (Some e) 1 then Canceled
  else Unknown.

Inductive level := LevelDebug | LevelError.

Inductive event :=
| InFlight (method : string) (d : Z)
| ObserveDuration (method : string)
| RequestsTotal (method : string) (code : Code)
| LogRPC (l : level) (method : string) (code : Code) (streams : option (bool * bool)) (err : option error)
| LogPanic (method p : string).

(** The parts of [grpc.UnaryServerInfo] and [grpc.StreamServerInfo] used. *)
Record info := Info { FullMethod : string; IsClientStream : bool; IsServerStream : bool }.

Section Interceptors.
Context `{GrpcStatus} {W Req Resp : Type}.

Definition UnaryHandler : Type := Req → W → W * list event * outcome (option Resp * option error).
Definition UnaryServerInterceptor : Type := info → UnaryHandler → UnaryHandler.
Definition StreamHandler : Type := Req → W → W * list event * outcome (option error).
Definition StreamServerInterceptor : Type := info → StreamHandler → StreamHandler.

Definition Recovery : UnaryServerInterceptor := λ i handler req w,
  match handler req w with
  | (w, evs, Panic p) =>
    (w, evs ++ [LogPanic (FullMethod i) p], Ret (None, Some (status_Errorf Internal "internal error: %v" p)))
  | (w, evs, Ret r) => (w, evs, Ret r)
  end.

Definition StreamRecovery : StreamServerInterceptor := λ i handler req w,
  match handler req w with
  | (w, evs, Panic p) =>
    (w, evs ++ [LogPanic (FullMethod i) p], Ret (Some (status_Errorf Internal "internal error: %v" p)))
  | (w, evs, Ret r) => (w, evs, Ret r)
  end.

Definition code_of (err : option error) : Code :=
  match err with None => OK | Some e => status_Code e end.

Definition UnaryInterceptor : UnaryServerInterceptor := λ i handler req w,
  match handler req w with
  | (w, evs, Panic p) => (w, InFlight (FullMethod i) 1 :: evs, Panic p)
  | (w, evs, Ret (resp, err)) =>
    (w, InFlight (FullMethod i) 1 :: evs ++
       [InFlight (FullMethod i) (-1); ObserveDuration (FullMethod i); RequestsTotal (FullMethod i) (code_of err)],
     Ret (resp, err))
  end.

Definition StreamInterceptor : StreamServerInterceptor := λ i handler req w,
  match handler req w with
  | (w, evs, Panic p) => (w, InFlight (FullMethod i) 1 :: evs, Panic p)
  | (w, evs, Ret err) =>
    (w, InFlight (FullMethod i) 1 :: evs ++
       [InFlight (FullMethod i) (-1); ObserveDuration (FullMethod i); RequestsTotal (FullMethod i) (code_of err)],
     Ret err)
  end.

Definition isServerError (c : Code) : bool :=
  if bool_decide (c ∈ [OK; Canceled; InvalidArgument; NotFound; AlreadyExists; PermissionDenied;
                       Unauthenticated; ResourceExhausted; FailedPrecondition; Aborted; OutOfRange])
  then false else true.

Definition Logging : UnaryServerInterceptor := λ i handler req w,
  match handler req w with
  | (w, evs, Panic p) => (w, evs, Panic p)
  | (w, evs, Ret (resp, err)) =>
    let code := code_of err in
    let '(l, e) := if isServerError code then (LevelError, err) else (LevelDebug, None) in
    (w, evs ++ [LogRPC l (FullMethod i) code None e], Ret (resp, err))
  end.

Definition StreamLogging : StreamServerInterceptor := λ i handler req w,
  match handler req w with
  | (w, evs, Panic p) => (w, evs, Panic p)
  | (w, evs, Ret err) =>
    let code := code_of err in
    let '(l, e) := if isServerError code then (LevelError, err) else (LevelDebug, None) in
    (w, evs ++ [LogRPC l (FullMethod i) code (Some (IsClientStream i, IsServerStream i)) e], Ret err)
  end.

(** ** Lemmas *)

Definition in_flight (method : string) (e : event) : Z :=
  match e with InFlight m d => if bool_decide (m = method) then d else 0 | _ => 0 end.
Definition gauge (method : string) (evs : list event) : Z := fold_right (λ e s, in_flight method e + s) 0 evs.

Lemma rpc_gauge_app m a b : gauge m (a ++ b) = gauge m a + gauge m b.
Proof. unfold gauge. induction a as [|e a IH]; simpl; lia. Qed.

(** What the caller of the stack sees: the state the handler left and its
    result, a panic turned into an Internal error. *)
Lemma stack_answer (i : info) (handler : UnaryHandler) req w :
  ∃ log, Recovery i (Logging i (UnaryInterceptor i handler)) req w
  = ((handler req w).1.1, log,
     match (handler req w).2 with
     | Ret r => Ret r
     | Panic p => Ret (None, Some (status_Errorf Internal "internal error: %v" p))
     end).
Proof.
  unfold Recovery, Logging, UnaryInterceptor. destruct (handler req w) as [[w' evs] [[resp err]|p]]; simpl.
  - destruct (isServerError (code_of err)); eauto.
  - eauto.
Qed.

(** ** Properties *)

(** The server stack Recovery outside Logging outside Metrics: whatever the
    handler does the call ends with a response or an error, never a panic; a
    panic is answered with code Internal; a handler that returns is counted
    with the code of its error, logged at ERROR exactly for server faults, and
    its result is passed on unchanged; the service ends in the state in which
    the handler left it. *)
Theorem rpc_stack (i : info) (handler : UnaryHandler) req w :
  let '(w', evs, o) := handler req w in
  let '(w'', log, answer) := Recovery i (Logging i (UnaryInterceptor i handler)) req w in
  w'' = w' ∧
  match o with
  | Panic p => ∃ e, answer = Ret (None, Some e) ∧ status_Code e = Internal
  | Ret (resp, err) =>
    answer = Ret (resp, err) ∧
    RequestsTotal (FullMethod i) (code_of err) ∈ log ∧
    last log = Some (LogRPC (if isServerError (code_of err) then LevelError else LevelDebug)
      (FullMethod i) (code_of err) None (if isServerError (code_of err) then err else None))
  end.
Proof.
  unfold Recovery, Logging, UnaryInterceptor. destruct (handler req w) as [[w' evs] [[resp err]|p]].
  - destruct (isServerError (code_of err)); simpl; split_and!; try done;
      try (rewrite app_comm_cons, last_snoc; done);
      rewrite elem_of_cons, !elem_of_app, !elem_of_cons; auto 10.
  - simpl. split; [done|]. eexists. split; [done|]. apply status_Code_Errorf.
Qed.

(** The server faults are exactly Unknown, DeadlineExceeded, Unimplemented,
    Internal, Unavailable, DataLoss and every code outside the standard range. *)
Theorem server_faults c :
  isServerError c = true ↔
  c ∈ [Unknown; DeadlineExceeded; Unimplemented; Internal; Unavailable; DataLoss] ∨ c < 0 ∨ 16 < c.
Proof.
  unfold isServerError. case_bool_decide as Hc; rewrite !list_elem_of_In in *; simpl in *;
    unfold OK, Canceled, Unknown, InvalidArgument, DeadlineExceeded, NotFound, AlreadyExists, PermissionDenied,
      ResourceExhausted, FailedPrecondition, Aborted, OutOfRange, Unimplemented, Internal, Unavailable, DataLoss,
      Unauthenticated, Code in *; split; intros; try done; lia.
Qed.

(** The in-flight gauge returns to its value when the handler returns and stays
    one too high for ever when it panics, for unary and stream calls. *)
Theorem rpc_gauge (i : info) (h : UnaryHandler) (sh : StreamHandler) req w :
  gauge (FullMethod i) (UnaryInterceptor i h req w).1.2
    = gauge (FullMethod i) (h req w).1.2 + match (h req w).2 with Ret _ => 0 | Panic _ => 1 end ∧
  gauge (FullMethod i) (StreamInterceptor i sh req w).1.2
    = gauge (FullMethod i) (sh req w).1.2 + match (sh req w).2 with Ret _ => 0 | Panic _ => 1 end.
Proof.
  unfold UnaryInterceptor, StreamInterceptor.
  destruct (h req w) as [[w1 evs] [[resp err]|p]], (sh req w) as [[w2 evs'] [err'|p']]; simpl;
    rewrite ?rpc_gauge_app; simpl; rewrite !bool_decide_eq_true_2 by done; split; lia.
Qed.

End Interceptors.

(** ** Witness *)

#[export] Instance demo_status : GrpcStatus.
Proof.
  refine {| status_Code e := match e with ErrStatus c _ => c | _ => Unknown end;
            status_Errorf c fmt arg := ErrStatus c (fmt +:+ arg);
            status_ok e := match e with ErrStatus _ _ => true | _ => false end |}; [done|done|by intros []].
Defined.

Lemma rpc_stack_witness : ∃ e,
  Recovery (Info "/p/Get" false false) (Logging (Info "/p/Get" false false)
     (UnaryInterceptor (Info "/p/Get" false false)
       (λ (_ w : nat), (S w, [], Panic "boom") : nat * list event * outcome (option nat * option error)))) 1%nat 0%nat
  = (1%nat, [InFlight "/p/Get" 1; LogPanic "/p/Get" "boom"], Ret (None, Some e)) ∧ status_Code e = Internal.
Proof.
  destruct (rpc_stack (Resp:=nat) (Info "/p/Get" false false) (λ (_ w : nat), (S w, [], Panic "boom")) 1%nat 0%nat)
    as [_ (e & He & Hc)].
  exists e. split; [|exact Hc]. injection He as <-. reflexivity.
Defined.

End Interceptors.
