(* ===== verification/Rpc.v ===== *)
(** * pkg/rpc: the gRPC server and client builders, and the JSON codec

    [grpc.NewServer], [grpc.ChainUnaryInterceptor] and [grpc.NewClient] belong
    to the grpc module.  What gkit-go hands to them is data here
    ([grpcServerOption], [DialOption]); the chaining of interceptors is the
    class [GrpcChain] with its documented order. *)

From S2P Require Import Prelude GoLang Interceptors.
Import Interceptors.
Open Scope Z_scope.

Module Rpc.

(** The documentation of [grpc.ChainUnaryInterceptor]: the first interceptor is
    the outermost, the last one wraps the real call; with none the handler is
    called directly. *)
Class GrpcChain (W Req Resp : Type) := {
  ChainUnaryInterceptor : list (@UnaryServerInterceptor W Req Resp) → @UnaryServerInterceptor W Req Resp;
  ChainStreamInterceptor : list (@StreamServerInterceptor W Req) → @StreamServerInterceptor W Req;
  chain_unary_nil i h : ChainUnaryInterceptor [] i h = h;
  chain_unary_cons m ms i h :
    ChainUnaryInterceptor (m :: ms) i h = m i (ChainUnaryInterceptor ms i h);
  chain_stream_nil i h : ChainStreamInterceptor [] i h = h;
  chain_stream_cons m ms i h :
    ChainStreamInterceptor (m :: ms) i h = m i (ChainStreamInterceptor ms i h)
}.

(** ** Server *)

Section Server.
Context {W Req Resp : Type} `{GrpcChain W Req Resp}.

Record serverOptions := ServerOptions {
  unaryInterceptors : list (@UnaryServerInterceptor W Req Resp);
  streamInterceptors : list (@StreamServerInterceptor W Req);
  enableReflection : bool
}.

Definition ServerOption := serverOptions → serverOptions.

Definition WithUnaryInterceptors (ics : list UnaryServerInterceptor) : ServerOption := λ o,
  ServerOptions (unaryInterceptors o ++ ics) (streamInterceptors o) (enableReflection o).
Definition WithStreamInterceptors (ics : list StreamServerInterceptor) : ServerOption := λ o,
  ServerOptions (unaryInterceptors o) (streamInterceptors o ++ ics) (enableReflection o).
Definition WithReflection : ServerOption := λ o,
  ServerOptions (unaryInterceptors o) (streamInterceptors o) true.

(** A [*grpc.Server]: the interceptors it was made with and whether the
    reflection service is registered on it. *)
Record grpcServer := GrpcServer {
  g_unary : @UnaryServerInterceptor W Req Resp;
  g_stream : @StreamServerInterceptor W Req;
  g_reflection : bool
}.

Record Server := MkServer { srv : grpcServer; opts : serverOptions }.

Definition reflection_Register (g : grpcServer) : grpcServer := GrpcServer (g_unary g) (g_stream g) true.

Definition NewServer (os : list ServerOption) : Server :=
  let o := fold_left (λ o opt, opt o) os (ServerOptions [] [] true) in
  let g := GrpcServer (ChainUnaryInterceptor (unaryInterceptors o))
             (ChainStreamInterceptor (streamInterceptors o)) false in
  MkServer (if enableReflection o then reflection_Register g else g) o.

(** [Serve]: the first event its [select] sees decides.  [listen] is the error
    of [net.Listen].  The actions are those on the underlying server. *)
Inductive serve_event := CtxDone | ServeReturned (err : option error).
Inductive serve_action := GoServe | DoGracefulStop.

Definition Serve (listen : option error) (ev : serve_event) : list serve_action * option error :=
  match listen with
  | Some err => ([], Some err)
  | None =>
    match ev with
    | CtxDone => ([GoServe; DoGracefulStop], None)
    | ServeReturned err => ([GoServe], err)
    end
  end.

Definition GracefulStop : list serve_action := [DoGracefulStop].

(** The option constructors the package exports, with their arguments. *)
Inductive exported : ServerOption → Prop :=
| exp_unary ics : exported (WithUnaryInterceptors ics)
| exp_stream ics : exported (WithStreamInterceptors ics)
| exp_reflection : exported WithReflection.

(** ** Lemmas *)

Lemma chain_fold ms i h : ChainUnaryInterceptor ms i h = foldr (λ m, m i) h ms.
Proof.
  induction ms as [|m ms IH]; simpl; [apply chain_unary_nil|]. by rewrite chain_unary_cons, IH.
Qed.

Lemma options_reflection os o :
  Forall exported os → enableReflection o = true →
  enableReflection (fold_left (λ o opt, opt o) os o) = true.
Proof.
  intros Hos. revert o. induction Hos as [|opt os Ho _ IH]; intros o He; simpl; [done|].
  apply IH. by destruct Ho.
Qed.

Lemma unary_fold (iss : list (list UnaryServerInterceptor)) o :
  unaryInterceptors (fold_left (λ o opt, opt o) (WithUnaryInterceptors <$> iss) o)
  = unaryInterceptors o ++ concat iss.
Proof.
  revert o. induction iss as [|ics iss IH]; intros o; simpl; [by rewrite app_nil_r|].
  rewrite IH. simpl. by rewrite (assoc_L (++)).
Qed.

(** ** Properties *)

(** The interceptors given to [NewServer], over however many options, run in
    the order in which they were given, the first one outermost. *)
Theorem interceptor_order (iss : list (list UnaryServerInterceptor)) i h :
  g_unary (srv (NewServer (WithUnaryInterceptors <$> iss))) i h = foldr (λ m, m i) h (concat iss).
Proof.
  unfold NewServer. destruct (enableReflection _); simpl; by rewrite chain_fold, unary_fold.
Qed.

(** Reflection is on in every server the exported options can build: the default
    is already true, so [WithReflection] changes nothing. *)
Theorem reflection_always_on os :
  Forall exported os → g_reflection (srv (NewServer os)) = true.
Proof. intros Hos. unfold NewServer. by rewrite (options_reflection os). Qed.

End Server.

(** ** Client *)

Section Client.
(** Client interceptors and the remaining dial options belong to grpc. *)
Context {UI SI Other : Type}.

Inductive DialOption :=
| InsecureCredentials
| WithChainUnaryInterceptor (ics : list UI)
| WithChainStreamInterceptor (ics : list SI)
| RawDialOption (o : Other).

Record clientOptions := ClientOptions {
  c_unary : list UI; c_stream : list SI; dialOpts : list DialOption
}.

Definition ClientOption := clientOptions → clientOptions.

Definition WithClientUnaryInterceptors (ics : list UI) : ClientOption := λ o,
  ClientOptions (c_unary o ++ ics) (c_stream o) (dialOpts o).
Definition WithClientStreamInterceptors (ics : list SI) : ClientOption := λ o,
  ClientOptions (c_unary o) (c_stream o ++ ics) (dialOpts o).
Definition WithDialOptions (os : list DialOption) : ClientOption := λ o,
  ClientOptions (c_unary o) (c_stream o) (dialOpts o ++ os).

(** [Dial] calls [NewClient target opts] of grpc. *)
Definition Dial {R} (NewClient : string → list DialOption → R) (target : string) (os : list ClientOption) : R :=
  let o := fold_left (λ o opt, opt o) os (ClientOptions [] [] []) in
  NewClient target
    ([InsecureCredentials; WithChainUnaryInterceptor (c_unary o); WithChainStreamInterceptor (c_stream o)]
     ++ dialOpts o).

End Client.

(** ** The JSON codec *)

Definition NameJSON : string := "json".
Definition NameProto : string := "proto".

Record jsonCodec := MkCodec { codec_name : string }.
Definition codec_Name (c : jsonCodec) : string := codec_name c.

(** [encoding.RegisterCodec] keeps codecs under their names, the last one wins. *)
Definition RegisterCodec (c : jsonCodec) (reg : gmap string jsonCodec) : gmap string jsonCodec :=
  <[codec_Name c := c]> reg.
Definition Register (reg : gmap string jsonCodec) : gmap string jsonCodec :=
  RegisterCodec (MkCodec NameProto) (RegisterCodec (MkCodec NameJSON) reg).

(** ** Instance: the chain as the documentation describes it *)

#[export] Instance foldr_chain W Req Resp : GrpcChain W Req Resp.
Proof.
  refine {| ChainUnaryInterceptor ms i h := foldr (λ m, m i) h ms;
            ChainStreamInterceptor ms i h := foldr (λ m, m i) h ms |}; done.
Defined.

Lemma reflection_always_on_witness :
  g_reflection (srv (NewServer (W:=nat) (Req:=nat) (Resp:=nat)
    [WithReflection; WithUnaryInterceptors [Recovery]])) = true.
Proof. apply reflection_always_on. repeat constructor. Defined.

End Rpc.
