(* ===== verification/Pipeline.v ===== *)
(** * pkg/pipeline: concurrent Process, and sequential composition

    [Process] is a transition system: the main goroutine sends the work, the
    workers receive it, call [fn] and send results, the main goroutine collects
    them; each step is one channel operation, one test of the context, one call
    of [fn] or the cancellation of the context from outside.  [fn] is a
    relation, so that its results may depend on anything. *)

From S2P Require Import Prelude GoLang.
Open Scope Z_scope.

Module Pipeline.

(** ** Options *)

Record processOptions := Opts { workers : Z; ordered : bool }.
Definition Option : Type := processOptions → processOptions.
Definition WithWorkers (n : Z) : Option := λ o, if n >? 0 then Opts n (ordered o) else o.
Definition WithOrdered (b : bool) : Option := λ o, Opts (workers o) b.

(** The options [Process] runs with on [n] items. *)
Definition configure (n : nat) (opts : list Option) : processOptions :=
  let o := fold_left (λ o opt, opt o) opts (Opts (Z.of_nat n) false) in
  if workers o >? Z.of_nat n then Opts (Z.of_nat n) (ordered o) else o.

(** ** Process *)

Section Process.
Context {In Out : Type} (zero : Out).
(** [fn idx item (val, err)]: the call of [fn] on item [idx] may return this. *)
Context (fn : nat → In → Out * option error → Prop).
Context (items : list In) (o : processOptions).

Record result := Result { idx : nat; val : Out; err : option error }.
Record work := Work { w_idx : nat; w_val : In }.

(** Program points of a worker: at the receive; with a job, before the test of
    the context; in [fn]; before the send of a result; returned. *)
Inductive wstate := WRecv | WGot (j : work) | WRun (j : work) | WSend (r : result) | WExit.

(** [pending] is what the main goroutine has still to send; when it is empty the
    jobs channel is closed.  [collected] is a ghost history.  [ret] is what
    [Process] returned. *)
Record state := State {
  pending : list work;
  jobs : list work;
  ws : list wstate;
  results : list result;
  ctx : option error;
  firstErr : option error;
  out : list Out;
  unordered : list Out;
  collected : list result;
  ret : option (list Out * option error)
}.

Definition all_work : list work := imap Work items.

Definition init (c : option error) : state :=
  State all_work [] (replicate (Z.to_nat (workers o)) WRecv) [] c None
    (replicate (length items) zero) [] [] None.

(** One iteration of the collecting loop. *)
Definition collect (r : result) (s : state) : state :=
  let '(fe, c) := match err r, firstErr s with
                  | Some e, None => (Some e, match ctx s with None => Some context_Canceled | c => c end)
                  | _, fe => (fe, ctx s)
                  end in
  let '(ou, un) := match err r with
                   | Some _ => (out s, unordered s)
                   | None => if ordered o then (<[idx r := val r]> (out s), unordered s)
                             else (out s, unordered s ++ [val r])
                   end in
  State (pending s) (jobs s) (ws s) (results s) c fe ou un (collected s ++ [r]) None.

Definition returned (s : state) : list Out * option error :=
  match firstErr s with
  | Some e => ([], Some e)
  | None => (if ordered o then out s else unordered s, None)
  end.

Definition set_jobs p js (s : state) := State p js (ws s) (results s) (ctx s) (firstErr s) (out s)
  (unordered s) (collected s) (ret s).
Definition set_ws w (s : state) := State (pending s) (jobs s) w (results s) (ctx s) (firstErr s) (out s)
  (unordered s) (collected s) (ret s).
Definition set_results rs (s : state) := State (pending s) (jobs s) (ws s) rs (ctx s) (firstErr s) (out s)
  (unordered s) (collected s) (ret s).
Definition set_ctx c (s : state) := State (pending s) (jobs s) (ws s) (results s) c (firstErr s) (out s)
  (unordered s) (collected s) (ret s).
Definition set_ret r (s : state) := State (pending s) (jobs s) (ws s) (results s) (ctx s) (firstErr s) (out s)
  (unordered s) (collected s) r.

Inductive step : state → state → Prop :=
(* main: send work; the channel holds every item, so the send never blocks *)
| main_send s j p : pending s = j :: p → (length (jobs s) < length items)%nat →
    step s (set_jobs p (jobs s ++ [j]) s)
(* worker *)
| worker_recv s w1 w2 j js : ws s = w1 ++ WRecv :: w2 → jobs s = j :: js →
    step s (set_ws (w1 ++ WGot j :: w2) (set_jobs (pending s) js s))
| worker_exit s w1 w2 : ws s = w1 ++ WRecv :: w2 → jobs s = [] → pending s = [] →
    step s (set_ws (w1 ++ WExit :: w2) s)
| worker_cancelled s w1 w2 j e : ws s = w1 ++ WGot j :: w2 → ctx s = Some e →
    step s (set_ws (w1 ++ WSend (Result (w_idx j) zero (Some e)) :: w2) s)
| worker_call s w1 w2 j : ws s = w1 ++ WGot j :: w2 → ctx s = None →
    step s (set_ws (w1 ++ WRun j :: w2) s)
| worker_return s w1 w2 j v e : ws s = w1 ++ WRun j :: w2 → fn (w_idx j) (w_val j) (v, e) →
    step s (set_ws (w1 ++ WSend (Result (w_idx j) v e) :: w2) s)
| worker_send s w1 w2 r : ws s = w1 ++ WSend r :: w2 → (length (results s) < length items)%nat →
    step s (set_ws (w1 ++ WRecv :: w2) (set_results (results s ++ [r]) s))
(* main: collect, return *)
| main_collect s r rs : pending s = [] → ret s = None → results s = r :: rs →
    step s (collect r (set_results rs s))
| main_return s : pending s = [] → ret s = None → results s = [] → Forall (λ w, w = WExit) (ws s) →
    step s (set_ret (Some (returned s)) s)
(* the caller's context is cancelled *)
| cancel s e : ctx s = None → step s (set_ctx (Some e) s).

End Process.
Arguments state : clear implicits.
Arguments wstate : clear implicits.
Arguments result : clear implicits.
Arguments work : clear implicits.

(** ** Sequential composition *)

Section Compose.
Context {W : Type} (ctx_Err : W → option error).

Definition MapFunc (A B : Type) : Type := A → W → W * (B * option error).
Definition StageFunc (T : Type) : Type := T → W → W * (T * option error).

Fixpoint Chain {T} (zero : T) (stages : list (StageFunc T)) (x : T) (w : W) : W * (T * option error) :=
  match stages with
  | [] => (w, (x, None))
  | stage :: stages =>
    match ctx_Err w with
    | Some e => (w, (zero, Some e))
    | None =>
      match stage x w with
      | (w, (_, Some e)) => (w, (zero, Some e))
      | (w, (x, None)) => Chain zero stages x w
      end
    end
  end.

Definition Compose {A B C} (zero : C) (first : MapFunc A B) (second : MapFunc B C) : MapFunc A C := λ a w,
  match first a w with
  | (w, (_, Some e)) => (w, (zero, Some e))
  | (w, (b, None)) => second b w
  end.

Definition Compose3 {A B C D} (zeroC : C) (zeroD : D)
    (f1 : MapFunc A B) (f2 : MapFunc B C) (f3 : MapFunc C D) : MapFunc A D :=
  Compose zeroD (Compose zeroC f1 f2) f3.

Definition Map {A B} (a : A) (f : MapFunc A B) : W → W * (B * option error) := f a.
End Compose.

(** ** The invariant of Process *)

Section Invariant.
Context {In Out : Type} (zero : Out) (fn : nat → In → Out * option error → Prop).
Context (items : list In) (o : processOptions).

Definition held_idx (w : wstate In Out) : option nat :=
  match w with WGot j | WRun j => Some (w_idx j) | WSend r => Some (idx r) | _ => None end.

(** A unit of work is an item with its index. *)
Definition work_ok (j : work In) : Prop := items !! w_idx j = Some (w_val j).

(** A result comes from a call of [fn] on its item, or is the error of the
    context. *)
Definition result_ok (c : option error) (r : result Out) : Prop :=
  (∃ x, items !! idx r = Some x ∧ fn (idx r) x (val r, err r)) ∨ (∃ e, err r = Some e ∧ c = Some e).

Definition held_ok (c : option error) (w : wstate In Out) : Prop :=
  match w with WGot j | WRun j => work_ok j | WSend r => result_ok c r | _ => True end.

Record Inv (s : state In Out) : Prop := {
  inv_idx : seq 0 (length items) ≡ₚ
    (w_idx <$> pending s) ++ (w_idx <$> jobs s) ++ omap held_idx (ws s) ++
    (idx <$> results s) ++ (idx <$> collected s);
  inv_work : Forall work_ok (pending s ++ jobs s);
  inv_held : Forall (held_ok (ctx s)) (ws s);
  inv_results : Forall (result_ok (ctx s)) (results s ++ collected s);
  inv_err : firstErr s = None → Forall (λ r, err r = None) (collected s);
  inv_first : ∀ e, firstErr s = Some e → ∃ r, r ∈ collected s ∧ err r = Some e;
  inv_out : length (out s) = length items ∧ (ordered o = true →
    ∀ r, r ∈ collected s → err r = None → out s !! idx r = Some (val r));
  inv_unordered : ordered o = false → unordered s = omap (λ r, match err r with None => Some (val r) | _ => None end) (collected s);
  inv_exit : WExit ∈ ws s → pending s = [] ∧ jobs s = [];
  inv_ret : ∀ x, ret s = Some x → x = returned o s ∧ pending s = [] ∧ results s = [] ∧
    Forall (λ w, w = WExit) (ws s)
}.

(** ** Preservation *)

#[local] Instance is_exit_dec (w : wstate In Out) : Decision (w = WExit).
Proof. destruct w; (by left) || (by right). Defined.

#[local] Notation step := (step zero fn items o).

Lemma result_ok_mono c c' r : (∀ e, c = Some e → c' = Some e) → result_ok c r → result_ok c' r.
Proof. intros Hc [?|(e & ? & ?)]; [by left|]. right. eauto. Qed.

Lemma held_mono c c' w : (∀ e, c = Some e → c' = Some e) → held_ok c w → held_ok c' w.
Proof. intros Hc. destruct w; simpl; try done. by apply result_ok_mono. Qed.

(** What a step does to the context: once cancelled it stays so. *)
Lemma collect_ctx r (s : state In Out) e : ctx s = Some e → ctx (collect o r s) = Some e.
Proof. unfold collect. intros Hc. destruct (err r), (firstErr s), (ordered o); simpl; by rewrite ?Hc. Qed.

Lemma collect_frame r (s : state In Out) :
  pending (collect o r s) = pending s ∧ jobs (collect o r s) = jobs s ∧ ws (collect o r s) = ws s ∧
  results (collect o r s) = results s ∧ collected (collect o r s) = collected s ++ [r] ∧
  ret (collect o r s) = None.
Proof. unfold collect. by destruct (err r), (firstErr s), (ordered o). Qed.

Ltac frame r s :=
  let F := fresh in pose proof (collect_frame r s) as F; simpl in F;
  destruct F as (?HF1 & ?HF2 & ?HF3 & ?HF4 & ?HF5 & ?HF6);
  rewrite ?HF1, ?HF2, ?HF3, ?HF4, ?HF5, ?HF6.

Ltac pull :=
  repeat (simpl; rewrite ?omap_app, ?fmap_app, <-?app_assoc; simpl);
  repeat (rewrite <-Permutation_middle; simpl);
  rewrite ?app_nil_r, <-?app_assoc; simpl.

Lemma step_idx s s' : Inv s → step s s' →
  seq 0 (length items) ≡ₚ
    (w_idx <$> pending s') ++ (w_idx <$> jobs s') ++ omap held_idx (ws s') ++
    (idx <$> results s') ++ (idx <$> collected s').
Proof.
  intros [HP _ _ _ _ _ _ _ _ _] Hst.
  destruct Hst; [..|frame r (set_results rs s)| |]; simpl; try done; rewrite HP;
    repeat match goal with H : ?f s = _ |- _ => rewrite H; clear H end; pull; done.
Qed.

(** The context only ever goes from live to cancelled. *)
Lemma step_ctx s s' e : step s s' → ctx s = Some e → ctx s' = Some e.
Proof. intros Hst Hc. destruct Hst; simpl in *; try done; [by apply collect_ctx|congruence]. Qed.

Lemma Forall_middle_replace {A} (P Q : A → Prop) l1 x y l2 :
  (∀ z, P z → Q z) → (P x → Q y) → Forall P (l1 ++ x :: l2) → Forall Q (l1 ++ y :: l2).
Proof. intros HPQ Hxy. rewrite !Forall_app, !Forall_cons. naive_solver eauto using Forall_impl. Qed.

Lemma step_held s s' : Inv s → step s s' → Forall (held_ok (ctx s')) (ws s').
Proof.
  intros [_ HW HH HR _ _ _ _ _ _] Hst. pose proof (λ e, step_ctx s s' e Hst) as Hc.
  assert (Hm : Forall (held_ok (ctx s')) (ws s)) by (eapply Forall_impl; [exact HH|]; intros w; by apply held_mono).
  destruct Hst; simpl in *; rewrite ?H in Hm; try done;
    try (eapply Forall_middle_replace; [| |exact Hm]; [done|simpl]); try done.
  - intros _. rewrite H0, Forall_app, Forall_cons in HW. tauto.
  - intros _. right. eauto.
  - intros Hj. left. eauto.
  - by frame r (set_results rs s).
Qed.

Lemma proc_step_work s s' : Inv s → step s s' → Forall work_ok (pending s' ++ jobs s').
Proof.
  intros [_ HW _ _ _ _ _ _ _ _] Hst. destruct Hst; [..|frame r (set_results rs s)| |]; simpl in *; try done.
  - rewrite H in HW. rewrite !Forall_app, !Forall_cons in *. simpl. naive_solver.
  - rewrite H0 in HW. rewrite !Forall_app, !Forall_cons in *. tauto.
Qed.

Lemma step_results s s' : Inv s → step s s' → Forall (result_ok (ctx s')) (results s' ++ collected s').
Proof.
  intros [_ _ HH HR _ _ _ _ _ _] Hst. pose proof (λ e, step_ctx s s' e Hst) as Hc.
  assert (Hm : Forall (result_ok (ctx s')) (results s ++ collected s))
    by (eapply Forall_impl; [exact HR|]; intros w; by apply result_ok_mono).
  destruct Hst; [..|frame r (set_results rs s)| |]; simpl in *; try done.
  - rewrite H, Forall_app, Forall_cons in HH. rewrite !Forall_app, Forall_cons in *. simpl in HH. naive_solver.
  - rewrite H1 in Hm. rewrite !Forall_app, !Forall_cons in *. naive_solver.
Qed.

Lemma collect_err (r : result Out) (s : state In Out) :
  firstErr (collect o r s) = match firstErr s with Some e => Some e | None => err r end.
Proof. unfold collect. by destruct (err r), (firstErr s), (ordered o). Qed.

Lemma step_err s s' : Inv s → step s s' →
  (firstErr s' = None → Forall (λ r, err r = None) (collected s')) ∧
  (∀ e, firstErr s' = Some e → ∃ r, r ∈ collected s' ∧ err r = Some e).
Proof.
  intros [_ _ _ _ HE HF _ _ _ _] Hst. destruct Hst; simpl in *; try done.
  rewrite collect_err. frame r (set_results rs s). simpl. split.
  - intros Hn. destruct (firstErr s); [done|]. apply Forall_app. split; [auto|by repeat constructor].
  - intros e He. destruct (firstErr s) as [e'|].
    + simplify_eq. destruct (HF e eq_refl) as (r' & Hr & ?). exists r'. split; [|done]. apply elem_of_app. by left.
    + exists r. split; [|done]. apply elem_of_app. right. by left.
Qed.

(** Every index occurs once. *)
Lemma collect_fresh s r rs : Inv s → results s = r :: rs →
  (idx r < length items)%nat ∧ idx r ∉ idx <$> collected s.
Proof.
  intros [HP _ _ _ _ _ _ _ _ _] Hr. rewrite Hr in HP. simpl in HP.
  assert (Hnd := NoDup_seq 0 (length items)). rewrite HP in Hnd. split.
  - assert (Hin : idx r ∈ seq 0 (length items)) by (rewrite HP; set_solver).
    apply elem_of_seq in Hin. lia.
  - rewrite !NoDup_app in Hnd. destruct Hnd as (_ & _ & _ & _ & _ & _ & Hnd).
    apply NoDup_cons in Hnd as [Hni _]. set_solver.
Qed.

Lemma step_out s s' : Inv s → step s s' →
  length (out s') = length items ∧
  (ordered o = true → ∀ r, r ∈ collected s' → err r = None → out s' !! idx r = Some (val r)) ∧
  (ordered o = false →
     unordered s' = omap (λ r, match err r with None => Some (val r) | _ => None end) (collected s')).
Proof.
  intros HI Hst. pose proof HI as [_ _ _ _ _ _ [HL HO] HU _ _]. destruct Hst; simpl in *; try done.
  destruct (collect_fresh _ _ _ HI H1) as [Hlt Hni]. unfold collect. simpl.
  assert (Hcons : ∀ r' : result Out, r' ∈ collected s ++ [r] → r' ∈ collected s ∨ r' = r).
  { intros r'. rewrite elem_of_app, list_elem_of_singleton. done. }
  destruct (err r) as [e|] eqn:He, (firstErr s), (ordered o); simpl; rewrite ?length_insert;
    split_and!; try done; intros _; rewrite ?omap_app, ?HU by done; simpl; rewrite ?He, ?app_nil_r; try done;
    intros r' [Hr| ->]%Hcons Hn; try congruence; try (by apply HO).
  1,3: rewrite list_lookup_insert_ne; [by apply HO|]; intros Heq; apply Hni; rewrite Heq;
       by apply list_elem_of_fmap_2.
  all: apply list_lookup_insert_eq; lia.
Qed.

Lemma proc_step_exit s s' : Inv s → step s s' → WExit ∈ ws s' → pending s' = [] ∧ jobs s' = [].
Proof.
  intros [_ _ _ _ _ _ _ _ HX _] Hst.
  assert (Hmid : ∀ w1 w2 (x y : wstate In Out), y ≠ WExit → WExit ∈ w1 ++ y :: w2 → WExit ∈ w1 ++ x :: w2).
  { intros w1 w2 x y Hy. rewrite !elem_of_app, !elem_of_cons. naive_solver. }
  destruct Hst; simpl in *; intros Hx; try (by auto);
    try (rewrite H in HX; apply HX; eapply Hmid; [|exact Hx]; done).
  - apply HX in Hx as [? _]. congruence.
  - rewrite H in HX. destruct HX as [? ?]; [eapply Hmid; [|exact Hx]; done|]. congruence.
  - frame r (set_results rs s). simpl. apply HX. by rewrite HF3 in Hx.
Qed.

Lemma step_ret s s' : Inv s → step s s' → ∀ x, ret s' = Some x →
  x = returned o s' ∧ pending s' = [] ∧ results s' = [] ∧ Forall (λ w, w = WExit) (ws s').
Proof.
  intros [_ _ _ _ _ _ _ _ _ HR] Hst x Hx.
  assert (Hno : ∀ w1 w2 (y : wstate In Out), ws s = w1 ++ y :: w2 → y ≠ WExit → ret s = None).
  { intros w1 w2 y Hw Hy. destruct (ret s) as [x'|]; [|done]. destruct (HR x' eq_refl) as (_ & _ & _ & HF).
    rewrite Hw, Forall_app, Forall_cons in HF. naive_solver. }
  destruct Hst; simpl in *;
    try (erewrite Hno in Hx by done; done);
    try (by destruct (HR _ Hx) as (-> & ? & ? & ?)).
  - destruct (HR _ Hx) as (_ & ? & _). congruence.
  - pose proof (collect_frame r (set_results rs s)) as (_ & _ & _ & _ & _ & HF). congruence.
  - by simplify_eq.
Qed.

Lemma proc_step_inv s s' : Inv s → step s s' → Inv s'.
Proof.
  intros HI Hst. destruct (step_err _ _ HI Hst), (step_out _ _ HI Hst) as (? & ? & ?).
  constructor; eauto using step_idx, proc_step_work, step_held, step_results, proc_step_exit, step_ret.
Qed.

Lemma init_inv c : Inv (init zero items o c).
Proof.
  assert (Hw : omap held_idx (replicate (Z.to_nat (workers o)) WRecv) = [])
    by (induction (Z.to_nat (workers o)); done).
  constructor; simpl; try done.
  - rewrite Hw, !app_nil_r. unfold all_work. rewrite fmap_imap.
    rewrite (imap_ext _ (λ i _, (λ n, n) i)) by done. by rewrite imap_seq_0, list_fmap_id.
  - rewrite app_nil_r. apply Forall_lookup. intros i j Hj. unfold all_work in Hj.
    apply list_lookup_imap_Some in Hj as (x & Hx & ->). done.
  - apply Forall_replicate. done.
  - split; [by rewrite length_replicate|]. intros _ r Hr. by apply elem_of_nil in Hr.
  - intros Hx. by apply elem_of_replicate in Hx as [? _].
Qed.

Lemma proc_reachable_inv c s : rtc step (init zero items o c) s → Inv s ∧ length (ws s) = Z.to_nat (workers o).
Proof.
  intros Hr. refine (rtc_invariant _ (λ s, Inv s ∧ length (ws s) = Z.to_nat (workers o)) _ _ _ _ Hr).
  - intros x y [HI HL] Hst. split; [by eapply proc_step_inv|].
    destruct Hst; simpl; rewrite <-HL; try done; try (rewrite H, !length_app; simpl; lia).
    by rewrite (proj1 (proj2 (proj2 (collect_frame r _)))).
  - split; [apply init_inv|]. simpl. apply length_replicate.
Qed.

(** When [Process] has returned, every index was collected exactly once. *)
Lemma returned_complete c s x : 0 < workers o → rtc step (init zero items o c) s → ret s = Some x →
  Inv s ∧ x = returned o s ∧ idx <$> collected s ≡ₚ seq 0 (length items).
Proof.
  intros Hw Hr Hx. destruct (proc_reachable_inv _ _ Hr) as [HI HL].
  pose proof HI as [HP _ _ _ _ _ _ _ HX HR]. destruct (HR _ Hx) as (-> & Hp & Hrs & HF).
  split_and!; [done|done|].
  destruct HX as [_ Hj].
  { destruct (ws s) as [|w l]; [simpl in HL; lia|]. apply Forall_cons in HF as [-> _]. by left. }
  assert (Hh : omap held_idx (ws s) = []) by (clear -HF; induction HF as [|w l -> _ IH]; done).
  by rewrite HP, Hp, Hj, Hrs, Hh.
Qed.

(** The collected results, put in the order of the items. *)
Lemma in_order (rs : list (result Out)) n : idx <$> rs ≡ₚ seq 0 n →
  ∃ rs', rs' ≡ₚ rs ∧ idx <$> rs' = seq 0 n.
Proof.
  intros Hp. symmetry in Hp. apply Permutation_map_inv in Hp as (rs' & He & Hp). exists rs'. by split.
Qed.

(** ** Termination *)

Definition weight (w : wstate In Out) : nat :=
  match w with WExit => 0 | WRecv => 1 | WSend _ => 3 | WRun _ => 4 | WGot _ => 5 end.
Definition live {A} (x : option A) : nat := match x with None => 1 | Some _ => 0 end.
Definition measure (s : state In Out) : nat :=
  6 * length (pending s) + 5 * length (jobs s) + sum_list_with weight (ws s) + length (results s) +
  live (ctx s) + live (ret s).

Lemma collect_live (r : result Out) (s : state In Out) : (live (ctx (collect o r s)) ≤ live (ctx s))%nat.
Proof. unfold collect. destruct (err r), (firstErr s), (ordered o), (ctx s); simpl; lia. Qed.

Lemma step_measure s s' : step s s' → (measure s' < measure s)%nat.
Proof.
  intros Hst. unfold measure. destruct Hst; simpl.
  8: { match goal with |- context [collect o ?r ?x] => pose proof (collect_live r x) as HL; frame r x end.
       simpl in *. rewrite H0, H1. simpl. lia. }
  all: repeat match goal with H : _ = _ |- _ => rewrite H; clear H end;
    rewrite ?sum_list_with_middle, ?length_app; simpl; lia.
Qed.

Lemma progress s : (∀ i x, ∃ r, fn i x r) → Inv s → ret s = None → ∃ s', step s s'.
Proof.
  intros Hfn [HP _ _ _ _ _ _ _ _ _] Hret. apply Permutation_length in HP.
  rewrite length_seq, !length_app, !length_fmap in HP.
  destruct (pending s) as [|j p] eqn:Hp.
  2: { eexists. eapply main_send; [done|]. simpl in HP. lia. }
  destruct (results s) as [|r rs] eqn:Hrs; [|eexists; by eapply main_collect].
  destruct (Forall_or_middle (λ x, x = WExit) (ws s)) as [?|(w1 & w & w2 & Hw & Hne)]; [eexists; by eapply main_return|].
  destruct w as [|j|j|r|]; [| | | |done].
  - destruct (jobs s) as [|j js] eqn:Hj; eexists; [by eapply worker_exit|by eapply worker_recv].
  - destruct (ctx s) as [e|] eqn:Hc; eexists; [by eapply worker_cancelled|by eapply worker_call].
  - destruct (Hfn (w_idx j) (w_val j)) as [[v e] Hv]. eexists. by eapply worker_return.
  - eexists. eapply worker_send; [exact Hw|]. rewrite Hw, omap_app, length_app in HP. simpl in HP.
    rewrite Hrs. simpl. lia.
Qed.

End Invariant.

(** ** Properties *)

Section Properties.
Context {In Out : Type} (zero : Out) (fn : nat → In → Out * option error → Prop).
Context (items : list In) (opts : list Option).
#[local] Notation o := (configure (length items) opts).
#[local] Notation step := (step zero fn items o).

(** A call of [Process]: it may return [r] when the context, initially in state [c],
    is then in state [c'].  Without items it returns at once. *)
Definition Process (c : option error) (r : list Out * option error) (c' : option error) : Prop :=
  match items with
  | [] => r = ([], None) ∧ c' = c
  | _ => ∃ s, rtc step (init zero items o c) s ∧ ret s = Some r ∧ ctx s = c'
  end.

(** The options the package offers. *)
Definition is_option (opt : Option) : Prop := (∃ n, opt = WithWorkers n) ∨ (∃ b, opt = WithOrdered b).

Lemma configure_workers n os : (0 < n)%nat → Forall is_option os → 0 < workers (configure n os) ≤ Z.of_nat n.
Proof.
  intros Hn Hos. unfold configure.
  assert (Hpos : 0 < workers (fold_left (λ o opt, opt o) os (Opts (Z.of_nat n) false))).
  { apply (fold_left_invariant (λ o, 0 < workers o)); [|simpl; lia].
    intros x opt Hin Hx. rewrite Forall_forall in Hos. destruct (Hos _ Hin) as [[k ->]|[b ->]]; [|done].
    unfold WithWorkers. destruct (k >? 0) eqn:E; zbool; simpl; lia. }
  destruct (_ >? _) eqn:E; zbool; simpl; lia.
Qed.

Lemma process_run c c' r : Process c r c' →
  (items = [] ∧ r = ([], None) ∧ c' = c) ∨
  ∃ s, items ≠ [] ∧ rtc step (init zero items o c) s ∧ ret s = Some r ∧ ctx s = c'.
Proof.
  unfold Process. destruct items as [|x l]; [by intros [-> ->]; left|].
  intros (s & Hr & Hret & Hc). right. by exists s.
Qed.

(** C20: What [Process] returns, for every interleaving of its goroutines and
    whatever [fn] does.  Without error: one result of [fn] per item, in the
    order of the items with [WithOrdered(true)] and in some order otherwise;
    with an error: no results, and the error is one [fn] returned for an item or
    the error of the cancelled context. *)
Theorem process_spec c c' vals e :
  Forall is_option opts → Process c (vals, e) c' →
  match e with
  | None => ∃ vs, length vs = length items ∧
      (∀ i x v, items !! i = Some x → vs !! i = Some v → fn i x (v, None)) ∧
      if ordered o then vals = vs else vals ≡ₚ vs
  | Some e => vals = [] ∧ ((∃ i x v, items !! i = Some x ∧ fn i x (v, Some e)) ∨ c' = Some e)
  end.
Proof.
  intros Hos HP. destruct (process_run c c' (vals, e) HP) as [(Hnil & [= -> ->] & _)|(s & Hne & Hr & Hret & <-)].
  { exists []. rewrite Hnil. split_and!; [done|by intros i x v Hi; rewrite lookup_nil in Hi|by destruct (ordered _)]. }
  destruct (configure_workers (length items) opts) as [Hw _]; [by destruct items; simpl; [|lia]|done|].
  destruct (returned_complete zero fn items _ c s _ Hw Hr Hret) as (HI & He & Hidx).
  destruct HI as [_ _ _ HR HE HF [HL HO] HU _ _]. rewrite Forall_app in HR. destruct HR as [_ HR].
  unfold returned in He. destruct (firstErr s) as [e1|] eqn:Hfe; injection He as -> ->.
  { split; [done|]. destruct (HF _ eq_refl) as (r & Hin & Herr). rewrite Forall_forall in HR.
    destruct (HR _ Hin) as [(x & Hx & Hfn)|(e2 & He2 & Hc)]; [|right; congruence].
    left. rewrite Herr in Hfn. eauto. }
  specialize (HE eq_refl). destruct (in_order _ _ Hidx) as (rs & Hp & Hrs).
  assert (Hlen : length rs = length items) by (rewrite <-(length_fmap idx), Hrs; apply length_seq).
  assert (Hat : ∀ i r, rs !! i = Some r → idx r = i ∧ r ∈ collected s ∧ err r = None).
  { intros i r Hi. assert (Hin : r ∈ collected s) by (rewrite <-Hp; by eapply list_elem_of_lookup_2).
    split_and!; [|done|by rewrite Forall_forall in HE; apply HE].
    assert (Hs : (idx <$> rs) !! i = Some (idx r)) by (by rewrite list_lookup_fmap, Hi).
    rewrite Hrs in Hs. apply lookup_seq in Hs. lia. }
  exists (val <$> rs). split_and!; [by rewrite length_fmap| |].
  - intros i x v Hx Hv. rewrite list_lookup_fmap in Hv. destruct (rs !! i) as [r|] eqn:Hi; [|done].
    injection Hv as <-. destruct (Hat _ _ Hi) as (Hix & Hin & Hn). rewrite Forall_forall in HR.
    destruct (HR _ Hin) as [(x' & Hx' & Hfn)|(e2 & He2 & Hc)]; [|congruence].
    rewrite Hn, Hix in Hfn. rewrite Hix in Hx'. congruence.
  - destruct (ordered o) eqn:Ho.
    + apply list_eq_same_length with (n := length items); [by rewrite length_fmap|done|].
      intros i x y Hi Hx Hy. rewrite list_lookup_fmap in Hy. destruct (rs !! i) as [r|] eqn:Hri; [|done].
      injection Hy as <-. destruct (Hat _ _ Hri) as (Hix & Hin & Hn).
      specialize (HO eq_refl _ Hin Hn). rewrite Hix in HO. congruence.
    + rewrite (HU eq_refl), <-Hp. clear -Hat.
      assert (HN : Forall (λ r, err r = None) rs).
      { apply Forall_lookup. intros i r Hi. by apply (Hat i r). }
      clear Hat. induction HN as [|r rs Hr _ IH]; simpl; [done|]. rewrite Hr. by constructor.
Qed.

(** C21: [Process] always returns: provided every call of [fn] returns, no
    reachable state is stuck before the return, and every step decreases a
    measure, so no run is infinite. *)
Theorem process_terminates c s :
  (∀ i x, ∃ r, fn i x r) → rtc step (init zero items o c) s →
  (∀ s', step s s' → (measure s' < measure s)%nat) ∧ (ret s = None → ∃ s', step s s').
Proof.
  intros Hfn Hr. destruct (proc_reachable_inv zero fn items o c s Hr) as [HI _].
  split; [intros s'; apply step_measure|]. by apply progress.
Qed.

End Properties.

(** ** Witnesses *)

Definition demo_fn (i : nat) (x : nat) (r : nat * option error) : Prop := r = (x + 1, None)%nat.
Definition demo_items : list nat := [10%nat].
Definition demo_opts : list Option := [WithWorkers 4; WithOrdered true].
Definition demo_end : state nat nat :=
  State [] [] [WExit] [] None None [11%nat] [] [Result 0 11%nat None] (Some ([11%nat], None)).

Ltac pstep c := eapply rtc_l; [c|]; simpl.

Lemma proc_demo_reachable :
  rtc (step 0%nat demo_fn demo_items (configure 1 demo_opts)) (init 0%nat demo_items (configure 1 demo_opts) None) demo_end.
Proof.
  pstep ltac:(by eapply main_send; [|simpl; lia]). pstep ltac:(by eapply (worker_recv _ _ _ _ _ [])).
  pstep ltac:(by eapply (worker_call _ _ _ _ _ [])). pstep ltac:(by eapply (worker_return _ _ _ _ _ [] [] _ 11%nat None)).
  pstep ltac:(by eapply (worker_send _ _ _ _ _ []); [|simpl; lia]). pstep ltac:(by eapply (worker_exit _ _ _ _ _ [])).
  pstep ltac:(by eapply main_collect). pstep ltac:(by eapply main_return; [..|repeat constructor]).
  apply rtc_refl.
Qed.

Lemma process_spec_witness : ∃ vs, length vs = 1%nat ∧ vs = [11%nat].
Proof.
  destruct (process_spec 0%nat demo_fn demo_items demo_opts None None [11%nat] None) as (vs & Hl & _ & Hv).
  - apply Forall_cons; split; [left; by exists 4|]. apply Forall_cons; split; [right; by exists true|].
    apply Forall_nil; done.
  - exists demo_end. split; [exact proc_demo_reachable|split; reflexivity].
  - exists vs. split; [exact Hl|]. symmetry. exact Hv.
Defined.

Lemma process_terminates_witness :
  ∃ s', step 0%nat demo_fn demo_items (configure 1 demo_opts) (init 0%nat demo_items (configure 1 demo_opts) None) s'.
Proof.
  apply (process_terminates 0%nat demo_fn demo_items demo_opts None).
  - intros i x. exists (x + 1, None)%nat. reflexivity.
  - apply rtc_refl.
  - reflexivity.
Defined.

End Pipeline.
