(* ===== verification/Float64.v ===== *)
(** * IEEE 754 binary64 arithmetic, as Go's float64 uses it

    Go's [float64] operations are the round-to-nearest-even operations of the
    Standard Library's [SpecFloat] at precision 53.  This file instantiates
    them, adds the conversions and [math.Min], and proves what the rate limiter
    needs: results are canonical floats, sums and products of non-negative
    floats are non-negative, and [x - y] is non-negative when [y <= x]. *)

From Stdlib Require Import SpecFloat.
From S2P Require Import Prelude GoLang.
Open Scope Z_scope.

Module Float64.

Definition prec : Z := 53.
Definition emax : Z := 1024.
Definition float64 : Type := spec_float.

Definition fadd : float64 → float64 → float64 := SFadd prec emax.
Definition fsub : float64 → float64 → float64 := SFsub prec emax.
Definition fmul : float64 → float64 → float64 := SFmul prec emax.
Definition fdiv : float64 → float64 → float64 := SFdiv prec emax.
Definition fltb : float64 → float64 → bool := SFltb.
Definition fleb : float64 → float64 → bool := SFleb.

(** [float64(n)]. *)
Definition of_int (n : Z) : float64 := binary_normalize prec emax n 0 false.

(** The integer part of a finite float. *)
Definition trunc (x : float64) : option Z :=
  match x with
  | S754_zero _ => Some 0
  | S754_finite s m e =>
    let n := if 0 <=? e then Z.pos m * 2 ^ e else Z.pos m / 2 ^ (- e) in
    Some (if s then - n else n)
  | _ => None
  end.

(** [int64(x)]: the result is implementation-specific ([oob]) when the integer
    part does not fit. *)
Definition to_int64 (oob : float64 → Z) (x : float64) : Z :=
  match trunc x with
  | Some n => if (int64_min <=? n) && (n <=? int64_max) then n else oob x
  | None => oob x
  end.

(** [math.Min]. *)
Definition math_Min (x y : float64) : float64 :=
  match x, y with
  | S754_infinity true, _ | _, S754_infinity true => S754_infinity true
  | S754_nan, _ | _, S754_nan => S754_nan
  | S754_zero sx, S754_zero sy => S754_zero (sx || sy)
  | _, _ => if fltb x y then x else y
  end.

(** [Duration.Seconds]. *)
Definition Seconds (d : Duration) : float64 :=
  let sec := Z.quot d Second in
  let nsec := Z.rem d Second in
  fadd (of_int sec) (fdiv (of_int nsec) (of_int 1000000000)).

(** ** Canonical and non-negative floats *)

Definition valid (x : float64) : Prop := valid_binary prec emax x = true.

Definition nonneg (x : float64) : Prop :=
  match x with
  | S754_zero _ | S754_infinity false | S754_finite false _ _ => True
  | _ => False
  end.

(** Positive and finite. *)
Definition positive_finite (x : float64) : Prop :=
  match x with S754_finite false _ _ => True | _ => False end.

Definition not_inf (x : float64) : Prop := match x with S754_infinity _ => False | _ => True end.

(** ** Digits and shifts *)

Notation fexp := (fexp prec emax).
Notation emin := (emin prec emax).

Lemma digits_log2 m : 0 < m → Zdigits2 m = Z.log2 m + 1.
Proof.
  destruct m as [|p|p]; [lia| |lia]. intros _. cbn [Zdigits2].
  induction p as [p IH|p IH|]; cbn [digits2_pos].
  - rewrite Pos2Z.inj_succ, IH. change (Z.pos p~1) with (2 * Z.pos p + 1).
    rewrite Z.log2_succ_double by lia. lia.
  - rewrite Pos2Z.inj_succ, IH. change (Z.pos p~0) with (2 * Z.pos p). rewrite Z.log2_double by lia. lia.
  - done.
Qed.

Lemma digits_nonneg m : 0 ≤ Zdigits2 m.
Proof. destruct m; simpl; lia. Qed.

Lemma digits_zero m : 0 ≤ m → Zdigits2 m = 0 → m = 0.
Proof. intros Hm Hd. destruct (Z.eq_dec m 0); [done|]. rewrite digits_log2 in Hd by lia. pose proof (Z.log2_nonneg m). lia. Qed.

Lemma digits_bounds m : 0 < m → 2 ^ (Zdigits2 m - 1) ≤ m < 2 ^ Zdigits2 m.
Proof.
  intros Hm. rewrite digits_log2 by done. replace (Z.log2 m + 1 - 1) with (Z.log2 m) by lia.
  by apply Z.log2_spec.
Qed.

Lemma digits_le m d : 0 ≤ m → 0 ≤ d → m < 2 ^ d → Zdigits2 m ≤ d.
Proof.
  intros Hm Hd Hlt. destruct (Z.eq_dec m 0) as [->|]; [done|]. rewrite digits_log2 by lia.
  pose proof (proj1 (Z.log2_lt_pow2 m d ltac:(lia)) Hlt). lia.
Qed.

Lemma digits_ge m d : 2 ^ d ≤ m → 0 ≤ d → d + 1 ≤ Zdigits2 m.
Proof.
  intros Hm Hd. assert (0 < m) by (pose proof (Z.pow_pos_nonneg 2 d); lia).
  rewrite digits_log2 by done. pose proof (proj1 (Z.log2_le_pow2 m d ltac:(done)) Hm). lia.
Qed.

Lemma digits_shift m n : 0 ≤ m → 0 ≤ n → Zdigits2 (m / 2 ^ n) = Z.max 0 (Zdigits2 m - n).
Proof.
  intros Hm Hn. destruct (Z.eq_dec m 0) as [->|]; [rewrite Z.div_0_l by lia; simpl; lia|].
  rewrite <-Z.shiftr_div_pow2 by done. pose proof (Z.log2_shiftr m n ltac:(lia)) as HL.
  pose proof (Z.log2_spec m ltac:(lia)) as [Hl1 Hl2].
  destruct (Z.eq_dec (Z.shiftr m n) 0) as [Hz|Hz].
  - rewrite Hz. simpl. rewrite digits_log2 by lia. apply Z.shiftr_eq_0_iff in Hz. lia.
  - assert (0 < Z.shiftr m n) by (pose proof (Z.shiftr_nonneg m n); lia).
    assert (n ≤ Z.log2 m).
    { destruct (Z.lt_ge_cases (Z.log2 m) n) as [Hlt|]; [|lia]. destruct Hz. by apply Z.shiftr_eq_0; lia. }
    rewrite !digits_log2 by lia. lia.
Qed.

Lemma shr_1_m mrs : 0 ≤ shr_m mrs → shr_m (shr_1 mrs) = shr_m mrs / 2.
Proof.
  destruct mrs as [[|p|p] r s]; simpl; [done| |lia]. intros _.
  destruct p as [p|p|]; simpl; [| |done].
  - change (Z.pos p~1) with (2 * Z.pos p + 1). apply (Z.div_unique _ 2 _ 1); lia.
  - change (Z.pos p~0) with (2 * Z.pos p). by rewrite Z.mul_comm, Z.div_mul.
Qed.

Lemma iter_shr_m p mrs : 0 ≤ shr_m mrs → shr_m (SpecFloat.iter_pos shr_1 p mrs) = shr_m mrs / 2 ^ Z.pos p.
Proof.
  revert mrs. induction p as [p IH|p IH|]; intros mrs Hm; simpl SpecFloat.iter_pos.
  - assert (H1 : 0 ≤ shr_m (shr_1 mrs)) by (rewrite shr_1_m by done; apply Z.div_pos; lia).
    assert (H2 : 0 ≤ shr_m (SpecFloat.iter_pos shr_1 p (shr_1 mrs))) by (rewrite IH by done; apply Z.div_pos; [done|lia]).
    rewrite IH, IH, shr_1_m by done. rewrite !Z.div_div by lia. f_equal.
    change (Z.pos p~1) with (2 * Z.pos p + 1). rewrite Z.pow_add_r, Z.pow_mul_r by lia.
    replace (2 ^ 2) with (2 * 2) by done. rewrite Z.pow_mul_l. lia.
  - assert (H2 : 0 ≤ shr_m (SpecFloat.iter_pos shr_1 p mrs)) by (rewrite IH by done; apply Z.div_pos; [done|lia]).
    rewrite IH, IH by done. rewrite !Z.div_div by lia. f_equal.
    change (Z.pos p~0) with (2 * Z.pos p). rewrite Z.pow_mul_r by lia.
    replace (2 ^ 2) with (2 * 2) by done. by rewrite Z.pow_mul_l.
  - by apply shr_1_m.
Qed.

Lemma fexp_max x : fexp x = Z.max (x - 53) (-1074).
Proof. done. Qed.

(** ** Rounding *)

Lemma shr_fexp_spec m e l : 0 ≤ m → e ≤ fexp (Zdigits2 m + e) →
  shr_m (shr_fexp prec emax m e l).1 = m / 2 ^ (fexp (Zdigits2 m + e) - e) ∧
  (shr_fexp prec emax m e l).2 = fexp (Zdigits2 m + e).
Proof.
  intros Hm He. unfold shr_fexp, shr.
  assert (Hl : shr_m (shr_record_of_loc m l) = m) by (by destruct l as [|[]]).
  destruct (fexp (Zdigits2 m + e) - e) as [|p|p] eqn:E; simpl.
  - rewrite Hl, Z.div_1_r. split; [done|lia].
  - rewrite iter_shr_m by (by rewrite Hl). rewrite Hl. split; [done|lia].
  - lia.
Qed.

Lemma round_nearest_even_cases m l : round_nearest_even m l = m ∨ round_nearest_even m l = m + 1.
Proof. destruct l as [|[]]; simpl; auto. destruct (Z.even m); auto. Qed.

(** A float with the sign [s]: a signed zero, infinity or finite number. *)
Definition has_sign (s : bool) (x : float64) : Prop :=
  match x with S754_zero s' | S754_infinity s' | S754_finite s' _ _ => s' = s | S754_nan => False end.

Lemma digits_succ m : 0 ≤ m → Zdigits2 m ≤ Zdigits2 (m + 1) ≤ Zdigits2 m + 1.
Proof.
  intros Hm. destruct (Z.eq_dec m 0) as [->|]; [simpl; lia|].
  rewrite !digits_log2 by lia. pose proof (Z.log2_le_mono m (m + 1)).
  pose proof (Z.log2_succ_le m) as Hs. rewrite <-Z.add_1_r in Hs. lia.
Qed.

Lemma round_aux_valid s m e l : 0 ≤ m → e ≤ fexp (Zdigits2 m + e) →
  valid (binary_round_aux prec emax s m e l) ∧ has_sign s (binary_round_aux prec emax s m e l) ∧
  (Zdigits2 m + e ≤ 1000 → not_inf (binary_round_aux prec emax s m e l)).
Proof.
  intros Hm He. unfold binary_round_aux.
  destruct (shr_fexp_spec m e l Hm He) as [Hm1 He1].
  destruct (shr_fexp prec emax m e l) as [mrs1 e1]. simpl in Hm1, He1.
  assert (Hp1 : 0 ≤ shr_m mrs1) by (rewrite Hm1; apply Z.div_pos; [done|lia]).
  pose proof (digits_shift m (fexp (Zdigits2 m + e) - e) Hm ltac:(lia)) as Hd1. rewrite <-Hm1 in Hd1.
  set (m2 := round_nearest_even (shr_m mrs1) (loc_of_shr_record mrs1)).
  assert (Hp2 : 0 ≤ m2) by (destruct (round_nearest_even_cases (shr_m mrs1) (loc_of_shr_record mrs1)); unfold m2; lia).
  assert (Hd2 : Zdigits2 (shr_m mrs1) ≤ Zdigits2 m2 ≤ Zdigits2 (shr_m mrs1) + 1).
  { unfold m2. destruct (round_nearest_even_cases (shr_m mrs1) (loc_of_shr_record mrs1)) as [->| ->]; [lia|].
    by apply digits_succ. }
  assert (He2 : e1 ≤ fexp (Zdigits2 m2 + e1)) by (rewrite fexp_max in *; lia).
  destruct (shr_fexp_spec m2 e1 loc_Exact Hp2 He2) as [Hm3 He3].
  destruct (shr_fexp prec emax m2 e1 loc_Exact) as [mrs3 e3]. simpl in Hm3, He3.
  pose proof (digits_shift m2 (fexp (Zdigits2 m2 + e1) - e1) Hp2 ltac:(lia)) as Hd3. rewrite <-Hm3 in Hd3.
  assert (Hp3 : 0 ≤ shr_m mrs3) by (rewrite Hm3; apply Z.div_pos; [done|lia]).
  destruct (shr_m mrs3) as [|p|p] eqn:E3; [done| |lia].
  destruct (e3 <=? emax - prec) eqn:EB.
  2: { split_and!; [done..|]. intros Hs. apply Z.leb_gt in EB. unfold emax, prec in EB.
       rewrite fexp_max in *. lia. }
  split_and!; [|done..].
  unfold valid, valid_binary, bounded. rewrite EB, andb_true_r. unfold canonical_mantissa.
  apply Z.eqb_eq. change (Z.pos (digits2_pos p)) with (Zdigits2 (Z.pos p)).
  assert (0 < Zdigits2 (Z.pos p)) by (simpl; lia). rewrite fexp_max in *. lia.
Qed.

Lemma round_two s m e l : 0 ≤ m → e ≤ fexp (Zdigits2 m + e) →
  valid (binary_round_aux prec emax s m e l) ∧ has_sign s (binary_round_aux prec emax s m e l).
Proof. intros Hm He. destruct (round_aux_valid s m e l Hm He) as (? & ? & _). done. Qed.

Lemma iter_xO m d : Z.pos (Pos.iter xO m d) = Z.pos m * 2 ^ Z.pos d.
Proof.
  revert m. induction d as [|d IH] using Pos.peano_ind; intros m; [simpl; lia|].
  rewrite Pos.iter_succ, Pos2Z.inj_succ, Z.pow_succ_r by lia.
  change (Z.pos (Pos.iter xO m d)~0) with (2 * Z.pos (Pos.iter xO m d)). rewrite IH. lia.
Qed.

(** Alignment to a smaller exponent keeps the value. *)
Lemma shl_align_spec m e e' :
  Z.pos (shl_align m e e').1 = Z.pos m * 2 ^ Z.max 0 (e - e') ∧ (shl_align m e e').2 = Z.min e e'.
Proof.
  unfold shl_align. destruct (e' - e) as [|p|p] eqn:E; simpl.
  - replace (Z.max 0 (e - e')) with 0 by lia. rewrite Z.pow_0_r. lia.
  - replace (Z.max 0 (e - e')) with 0 by lia. rewrite Z.pow_0_r. lia.
  - rewrite iter_xO. replace (Z.max 0 (e - e')) with (Z.pos p) by lia. lia.
Qed.

Lemma digits_mul_pow2 m n : 0 < m → 0 ≤ n → Zdigits2 (m * 2 ^ n) = Zdigits2 m + n.
Proof. intros. rewrite !digits_log2 by lia. rewrite Z.log2_mul_pow2 by lia. lia. Qed.

Lemma binary_round_valid s m e :
  valid (binary_round prec emax s m e) ∧ has_sign s (binary_round prec emax s m e) ∧
  (Zdigits2 (Z.pos m) + e ≤ 1000 → not_inf (binary_round prec emax s m e)).
Proof.
  unfold binary_round. change (Z.pos (digits2_pos m)) with (Zdigits2 (Z.pos m)).
  destruct (shl_align_spec m e (fexp (Zdigits2 (Z.pos m) + e))) as [H1 H2].
  destruct (shl_align m e _) as [mz ez]. cbn [fst snd] in H1, H2.
  assert (Hd : Zdigits2 (Z.pos mz) = Zdigits2 (Z.pos m) + Z.max 0 (e - fexp (Zdigits2 (Z.pos m) + e)))
    by (rewrite H1, digits_mul_pow2; lia).
  destruct (round_aux_valid s (Z.pos mz) ez loc_Exact) as (? & ? & Hi); [lia| |].
  - rewrite Hd, H2, !fexp_max. lia.
  - split_and!; [done..|]. intros. apply Hi. rewrite Hd, H2, !fexp_max. lia.
Qed.

Lemma binary_normalize_valid m e : 0 ≤ m →
  valid (binary_normalize prec emax m e false) ∧ nonneg (binary_normalize prec emax m e false).
Proof.
  intros Hm. destruct m as [|p|p]; [done| |lia]. simpl. destruct (binary_round_valid false p e) as (Hv & Hs & _).
  split; [done|]. by destruct (binary_round prec emax false p e) as [| [] | | []].
Qed.

Lemma normalize_valid m e : valid (binary_normalize prec emax m e false).
Proof. destruct m as [|p|p]; simpl; [done|apply binary_round_valid..]. Qed.

Lemma valid_finite s m e : valid (S754_finite s m e) →
  Zdigits2 (Z.pos m) ≤ 53 ∧ -1074 ≤ e ≤ 971 ∧ (-1074 < e → Zdigits2 (Z.pos m) = 53).
Proof.
  unfold valid, valid_binary, bounded, canonical_mantissa. intros [He Hb]%andb_true_iff.
  apply Z.eqb_eq in He. apply Z.leb_le in Hb. change (Z.pos (digits2_pos m)) with (Zdigits2 (Z.pos m)) in He.
  rewrite fexp_max in He. unfold emax, prec in Hb. lia.
Qed.

Lemma has_sign_nonneg x : has_sign false x → nonneg x.
Proof. by destruct x as [| [] | | []]. Qed.

(** ** Conversion, sum, product, quotient *)

Lemma of_int_valid n : valid (of_int n).
Proof. apply normalize_valid. Qed.

Lemma of_int_nonneg n : 0 ≤ n → nonneg (of_int n).
Proof. intros. by apply binary_normalize_valid. Qed.

Lemma of_int_finite n : 0 ≤ n ≤ int64_max → not_inf (of_int n).
Proof.
  intros Hn. unfold of_int. destruct n as [|p|p]; [done| |lia]. simpl. apply binary_round_valid.
  rewrite Z.add_0_r. transitivity 63; [|lia]. apply digits_le; unfold int64_max in *; lia.
Qed.

Lemma fadd_valid x y : valid x → valid y → valid (fadd x y).
Proof.
  intros Hx Hy. unfold fadd.
  destruct x as [sx|sx| |sx mx ex], y as [sy|sy| |sy my ey]; simpl; try done;
    try (by destruct sx, sy). apply normalize_valid.
Qed.

Lemma fadd_nonneg x y : nonneg x → nonneg y → nonneg (fadd x y).
Proof.
  intros Hx Hy. unfold fadd.
  destruct x as [sx|[]| |[] mx ex], y as [sy|[]| |[] my ey]; simpl; try done; try (by destruct sx, sy).
  apply has_sign_nonneg. apply binary_round_valid.
Qed.

Lemma digits_mul a b : 0 < a → 0 < b → Zdigits2 a + Zdigits2 b - 1 ≤ Zdigits2 (a * b).
Proof. intros. rewrite !digits_log2 by lia. pose proof (Z.log2_mul_below a b). lia. Qed.

Lemma fmul_finite sx mx ex sy my ey :
  valid (S754_finite sx mx ex) → valid (S754_finite sy my ey) →
  valid (fmul (S754_finite sx mx ex) (S754_finite sy my ey)) ∧
  has_sign (xorb sx sy) (fmul (S754_finite sx mx ex) (S754_finite sy my ey)).
Proof.
  intros Hx%valid_finite Hy%valid_finite. unfold fmul, SFmul. apply round_two; [lia|].
  pose proof (digits_mul (Z.pos mx) (Z.pos my) ltac:(lia) ltac:(lia)) as Hd.
  change (Z.pos (mx * my)) with (Z.pos mx * Z.pos my).
  assert (1 ≤ Zdigits2 (Z.pos mx)) by (simpl; lia). assert (1 ≤ Zdigits2 (Z.pos my)) by (simpl; lia).
  rewrite fexp_max. lia.
Qed.

Lemma fmul_valid x y : valid x → valid y → valid (fmul x y).
Proof.
  intros Hx Hy. destruct x as [sx|sx| |sx mx ex], y as [sy|sy| |sy my ey]; try done. by apply fmul_finite.
Qed.

(** A positive finite factor keeps the product away from NaN. *)
Lemma fmul_nonneg x y : valid x → valid y → nonneg x → positive_finite y → nonneg (fmul x y).
Proof.
  intros Hx Hy Hnx Hny. destruct x as [sx|[]| |[] mx ex], y as [sy|[]| |[] my ey]; try done.
  apply has_sign_nonneg. by apply fmul_finite.
Qed.

Lemma digits_div a b : 0 < a → 0 < b → Zdigits2 a - Zdigits2 b ≤ Zdigits2 (a / b).
Proof.
  intros Ha Hb. destruct (Z.le_gt_cases (Zdigits2 a - Zdigits2 b) 0); [pose proof (digits_nonneg (a / b)); lia|].
  pose proof (digits_bounds a Ha) as [Ha1 _]. pose proof (digits_bounds b Hb) as [_ Hb2].
  assert (Hq : 2 ^ (Zdigits2 a - Zdigits2 b - 1) ≤ a / b).
  { apply Z.div_le_lower_bound; [done|].
    transitivity (2 ^ Zdigits2 b * 2 ^ (Zdigits2 a - Zdigits2 b - 1)).
    - apply Z.mul_le_mono_nonneg_r; [|lia]. apply Z.pow_nonneg. lia.
    - rewrite <-Z.pow_add_r by (pose proof (digits_nonneg b); lia).
      replace (Zdigits2 b + _) with (Zdigits2 a - 1) by lia. done. }
  apply digits_ge in Hq; lia.
Qed.

Lemma fdiv_finite sx mx ex sy my ey :
  valid (fdiv (S754_finite sx mx ex) (S754_finite sy my ey)) ∧
  has_sign (xorb sx sy) (fdiv (S754_finite sx mx ex) (S754_finite sy my ey)).
Proof.
  unfold fdiv, SFdiv, SFdiv_core_binary.
  set (d1 := Zdigits2 (Z.pos mx)). set (d2 := Zdigits2 (Z.pos my)).
  set (e' := Z.min (fexp (d1 + ex - (d2 + ey))) (ex - ey)).
  set (m' := match ex - ey - e' with Z0 => Z.pos mx | Z.pos _ => Z.shiftl (Z.pos mx) (ex - ey - e') | Z.neg _ => 0 end).
  assert (Hs : 0 ≤ ex - ey - e') by (unfold e'; lia).
  assert (Hm : m' = Z.pos mx * 2 ^ (ex - ey - e')).
  { unfold m'. destruct (ex - ey - e') as [|p|p] eqn:E; [by rewrite Z.pow_0_r, Z.mul_1_r| |lia].
    by rewrite Z.shiftl_mul_pow2 by lia. }
  assert (Hq : (Z.div_eucl m' (Z.pos my)).1 = m' / Z.pos my) by (unfold Z.div; by destruct (Z.div_eucl m' _)).
  destruct (Z.div_eucl m' (Z.pos my)) as [q r]. simpl in Hq. subst q.
  apply round_two.
  - apply Z.div_pos; [|lia]. rewrite Hm. pose proof (Z.pow_nonneg 2 (ex - ey - e')). lia.
  - assert (Hd : Zdigits2 m' - d2 ≤ Zdigits2 (m' / Z.pos my)).
    { apply digits_div; [|lia]. rewrite Hm. pose proof (Z.pow_pos_nonneg 2 (ex - ey - e')). lia. }
    rewrite Hm, digits_mul_pow2 in Hd by lia. rewrite <-Hm in Hd. fold d1 in Hd.
    unfold e' in *. rewrite !fexp_max in *. lia.
Qed.

Lemma fdiv_int_valid a b : 0 ≤ a → 0 < b → valid (fdiv (of_int a) (of_int b)) ∧
  (positive_finite (of_int b) → nonneg (fdiv (of_int a) (of_int b))).
Proof.
  intros Ha Hb. pose proof (of_int_nonneg a Ha) as Hna. pose proof (of_int_nonneg b ltac:(lia)) as Hnb.
  destruct (of_int a) as [sa|[]| |[] ma ea], (of_int b) as [sb|[]| |[] mb eb]; try done.
  destruct (fdiv_finite false ma ea false mb eb) as [Hv Hs]. split; [done|]. intros _. by apply has_sign_nonneg.
Qed.

Lemma Seconds_spec d : 0 ≤ d → valid (Seconds d) ∧ nonneg (Seconds d).
Proof.
  intros Hd. unfold Seconds.
  assert (0 ≤ Z.quot d Second) by (apply Z.quot_pos; [done|unfold Second; lia]).
  assert (0 ≤ Z.rem d Second) by (apply Z.rem_nonneg; unfold Second; lia).
  destruct (fdiv_int_valid (Z.rem d Second) 1000000000) as [Hv Hn]; [done|lia|].
  split; [apply fadd_valid; [apply of_int_valid|done]|apply fadd_nonneg; [by apply of_int_nonneg|by apply Hn]].
Qed.

(** ** Comparison and difference *)

Lemma compare_swap x y : SFcompare y x = CompOpp <$> SFcompare x y.
Proof.
  destruct x as [sx|sx| |sx mx ex], y as [sy|sy| |sy my ey]; try (by destruct sx); try (by destruct sy);
    try (by destruct sx, sy); try done.
  simpl. f_equal. change (Pos.compare_cont Eq) with Pos.compare.
  rewrite (Z.compare_antisym ex ey), (Pos.compare_antisym mx my).
  destruct sx, sy, (ex ?= ey); simpl; by try destruct (mx ?= my)%positive.
Qed.

Lemma compare_not_nan x y : nonneg x → nonneg y → ∃ c, SFcompare x y = Some c.
Proof. destruct x as [|[]| |[]], y as [|[]| |[]]; simpl; try done; eauto. Qed.

Lemma fltb_false_fleb x y : nonneg x → nonneg y → fltb x y = false → fleb y x = true.
Proof.
  intros Hx Hy. unfold fltb, fleb, SFltb, SFleb. rewrite (compare_swap x y).
  destruct (compare_not_nan x y Hx Hy) as [c ->]. by destruct c.
Qed.

Lemma fleb_refl x : nonneg x → fleb x x = true.
Proof.
  intros Hx. unfold fleb, SFleb. destruct x as [|[]| |[] m e]; try done. simpl.
  rewrite Z.compare_refl. change (Pos.compare_cont Eq) with Pos.compare. by rewrite Pos.compare_refl.
Qed.

(** On canonical floats the comparison of exponents and mantissas is the
    comparison of values. *)
Lemma canonical_order mx ex my ey :
  valid (S754_finite false mx ex) → valid (S754_finite false my ey) →
  fleb (S754_finite false my ey) (S754_finite false mx ex) = true →
  Z.pos my * 2 ^ Z.max 0 (ey - Z.min ex ey) ≤ Z.pos mx * 2 ^ Z.max 0 (ex - Z.min ex ey).
Proof.
  intros Hx%valid_finite Hy%valid_finite. unfold fleb, SFleb. simpl.
  destruct (Z.compare_spec ey ex) as [->|Hlt|Hgt]; [|intros _|done].
  - change (Pos.compare_cont Eq) with Pos.compare. rewrite Z.min_id, Z.sub_diag, Z.max_id, Z.pow_0_r.
    destruct (Pos.compare_spec my mx); intros; try done; lia.
  - rewrite Z.min_r, Z.sub_diag by lia. rewrite (Z.max_r 0 (ex - ey)) by lia.
    pose proof (digits_bounds (Z.pos mx) ltac:(lia)) as [Hm1 _].
    pose proof (digits_bounds (Z.pos my) ltac:(lia)) as [_ Hm2].
    destruct Hx as (_ & _ & Hx), Hy as (Hy & Hye & _). rewrite Hx in Hm1 by lia.
    assert (2 ^ Zdigits2 (Z.pos my) ≤ 2 ^ 53) by (apply Z.pow_le_mono_r; lia).
    assert (2 ^ 1 ≤ 2 ^ (ex - ey)) by (apply Z.pow_le_mono_r; lia).
    rewrite Z.max_id, Z.pow_0_r. nia.
Qed.

Lemma fsub_valid x y : valid x → valid y → valid (fsub x y).
Proof.
  intros Hx Hy. unfold fsub.
  destruct x as [sx|sx| |sx mx ex], y as [sy|sy| |sy my ey]; simpl; try done;
    try (by destruct sx, sy). apply normalize_valid.
Qed.

Lemma fsub_nonneg x y : valid x → valid y → nonneg x → nonneg y → not_inf y →
  fleb y x = true → nonneg (fsub x y).
Proof.
  intros Hvx Hvy Hx Hy Hi Hle. unfold fsub.
  destruct x as [sx|[]| |[] mx ex], y as [sy|[]| |[] my ey]; try done; try (by destruct sx, sy).
  pose proof (canonical_order _ _ _ _ Hvx Hvy Hle) as Ho. cbn [SFsub cond_Zopp].
  destruct (shl_align_spec mx ex (Z.min ex ey)) as [H1 _], (shl_align_spec my ey (Z.min ex ey)) as [H2 _].
  rewrite H1, H2. apply binary_normalize_valid. lia.
Qed.

(** ** math.Min *)

Lemma math_Min_spec b x : valid b → valid x → nonneg b → nonneg x →
  valid (math_Min b x) ∧ nonneg (math_Min b x) ∧ fleb (math_Min b x) b = true.
Proof.
  intros Hvb Hvx Hb Hx.
  assert (Hc : math_Min b x = b ∨ math_Min b x = x ∧ fltb b x = false ∨
    (∃ s, math_Min b x = S754_zero s) ∧ ∃ s, b = S754_zero s).
  { destruct b as [sb|[]| |[] mb eb], x as [sx|[]| |[] mx ex]; try done; simpl;
      try (by left); try (by right; left); try (by right; right; split; eexists); destruct (fltb _ _); auto. }
  destruct Hc as [->|[[-> Hlt]|[[s ->] [s' ->]]]].
  - split_and!; [done|done|]. by apply fleb_refl.
  - split_and!; [done|done|]. by apply fltb_false_fleb.
  - done.
Qed.

Lemma fleb_trans_lt x b y : nonneg x → nonneg b → nonneg y →
  fleb x b = true → fltb b y = true → fltb x y = true.
Proof.
  intros Hx Hb Hy. unfold fleb, fltb, SFleb, SFltb.
  destruct x as [|[]| |[] mx ex], b as [|[]| |[] mb eb], y as [|[]| |[] my ey]; try done. simpl.
  change (Pos.compare_cont Eq) with Pos.compare.
  destruct (Z.compare_spec ex eb), (Z.compare_spec eb ey), (Z.compare_spec ex ey);
    destruct (Pos.compare_spec mx mb), (Pos.compare_spec mb my), (Pos.compare_spec mx my); try done; lia.
Qed.

End Float64.
