(* ===== verification/Metrics.v ===== *)
(** * pkg/metrics, store/metrics.go and the metric constructors

    Descriptors and metrics are data; [prometheus.Registerer] is the class
    [Registerer] with the documented condition under which a collector is
    accepted.  The collectors copy a snapshot of a component's counters into
    metrics at each scrape. *)

From Stdlib Require Import Ascii.
From S2P Require Import Prelude GoLang LruCache Float64.
Import Float64.
Open Scope Z_scope.

Module Metrics.

(** ** What the Prometheus client is given *)

Inductive ValueType := CounterValue | GaugeValue.

Record Desc := MkDesc { fqName : string; help : string; constLabels : list (string * string) }.

#[export] Instance Desc_eq_dec : EqDecision Desc.
Proof. solve_decision. Defined.

Record Metric := MkMetric { m_desc : Desc; m_type : ValueType; m_value : float64 }.

Inductive VecKind := CounterVec | GaugeVec | HistogramVec (Buckets : list float64).

Record Vec := MkVec { v_kind : VecKind; Namespace : string; v_Name : string; v_Help : string; v_labels : list string }.

(** [prometheus.BuildFQName] for an empty subsystem. *)
Definition BuildFQName (ns name : string) : string :=
  if bool_decide (name = "") then "" else if bool_decide (ns = "") then name else ns +:+ "_" +:+ name.

Inductive Collector := CVec (v : Vec) | CDescs (ds : list Desc).

(** The name and constant labels that identify each descriptor. *)
Definition ids (c : Collector) : list (string * list (string * string)) :=
  match c with
  | CVec v => [(BuildFQName (Namespace v) (v_Name v), [])]
  | CDescs ds => (λ d, (fqName d, constLabels d)) <$> ds
  end.

(** A metric name as Prometheus admits it. *)
Definition name_char (first : bool) (c : ascii) : bool :=
  let n := N_of_ascii c in
  ((65 <=? n) && (n <=? 90) || (97 <=? n) && (n <=? 122) || (n =? 95) || (n =? 58)
   || negb first && (48 <=? n) && (n <=? 57))%N.

Definition valid_name (s : string) : bool :=
  match String.list_ascii_of_string s with
  | [] => false
  | c :: cs => name_char true c && forallb (name_char false) cs
  end.

(** A label name: no colon, and not reserved by two leading underscores. *)
Definition valid_label (s : string) : bool :=
  valid_name s && forallb (λ c, negb (N_of_ascii c =? 58)%N) (String.list_ascii_of_string s) && negb (String.prefix "__" s).

(** The label names of each descriptor are valid and distinct. *)
Definition labels_ok (c : Collector) : bool :=
  let ok ls := bool_decide (NoDup ls) && forallb valid_label ls in
  match c with
  | CVec v => ok (v_labels v)
  | CDescs ds => forallb (λ d, ok (constLabels d).*1) ds
  end.

(** Registration: a collector is accepted when its descriptors are valid, and their names are
    distinct and new; and its descriptors are then in use.  Prometheus accepts descriptors that share a
    name too, if their label values differ and their label names and help texts agree; that is not
    promised here. *)
Class Registerer (R : Type) := {
  reg_Register : Collector → R → R * option error;
  in_use : R → list (string * list (string * string));
  Register_new c r :
    NoDup (ids c).*1 → Forall (λ x, valid_name x = true) (ids c).*1 → labels_ok c = true →
    (∀ x, x ∈ (ids c).*1 → x ∉ (in_use r).*1) →
    (reg_Register c r).2 = None ∧ in_use (reg_Register c r).1 = in_use r ++ ids c
}.

Section Registry.
Context {R : Type} `{Registerer R}.

(** [prometheus.Registry.MustRegister] panics at the first error. *)
Fixpoint reg_MustRegister (cs : list Collector) (r : R) : R * outcome unit :=
  match cs with
  | [] => (r, Ret tt)
  | c :: cs =>
    match reg_Register c r with
    | (r, None) => reg_MustRegister cs r
    | (r, Some _) => (r, Panic "registration failed")
    end
  end.

(** ** Registry *)

Record Registry := MkRegistry { r_ : R; namespace : string }.

(** [go] and [process] are the standard collectors. *)
Definition NewRegistry (fresh : R) (go process : Collector) (ns : string) : outcome Registry :=
  match reg_MustRegister [go; process] fresh with
  | (r, Ret _) => Ret (MkRegistry r ns)
  | (_, Panic m) => Panic m
  end.

Definition MustRegister (cs : list Collector) (reg : Registry) : Registry * outcome unit :=
  let '(r, o) := reg_MustRegister cs (r_ reg) in (MkRegistry r (namespace reg), o).

Definition Register (c : Collector) (reg : Registry) : Registry * option error :=
  let '(r, e) := reg_Register c (r_ reg) in (MkRegistry r (namespace reg), e).

Record CounterOpts := MkCounterOpts { c_Name : string; c_Help : string; c_Labels : list string }.
Record GaugeOpts := MkGaugeOpts { g_Name : string; g_Help : string; g_Labels : list string }.
Record HistogramOpts := MkHistogramOpts {
  h_Name : string; h_Help : string; h_Labels : list string; h_Buckets : list float64
}.

(** The constructors register what they return, or panic. *)
Definition new_vec (v : Vec) (reg : Registry) : Registry * outcome Vec :=
  match MustRegister [CVec v] reg with
  | (reg, Ret _) => (reg, Ret v)
  | (reg, Panic m) => (reg, Panic m)
  end.

Definition NewCounter (o : CounterOpts) (reg : Registry) : Registry * outcome Vec :=
  new_vec (MkVec CounterVec (namespace reg) (c_Name o) (c_Help o) (c_Labels o)) reg.
Definition NewGauge (o : GaugeOpts) (reg : Registry) : Registry * outcome Vec :=
  new_vec (MkVec GaugeVec (namespace reg) (g_Name o) (g_Help o) (g_Labels o)) reg.
Definition NewHistogram (DefBuckets : list float64) (o : HistogramOpts) (reg : Registry) : Registry * outcome Vec :=
  let buckets := if bool_decide (h_Buckets o = []) then DefBuckets else h_Buckets o in
  new_vec (MkVec (HistogramVec buckets) (namespace reg) (h_Name o) (h_Help o) (h_Labels o)) reg.

End Registry.

(** ** Collectors *)

(** *** The worker pool *)

Record PoolSnapshot := MkPoolSnapshot {
  Submitted : Z; Completed : Z; Errors : Z; InFlight : Z; QueueDepth : Z
}.

Record PoolCollector := MkPoolCollector {
  p_fn : PoolSnapshot; p_submitted : Desc; p_completed : Desc; p_errors : Desc; p_inFlight : Desc; p_queueLen : Desc
}.

(** [fn] is the snapshot at the time of the scrape. *)
Definition NewPoolCollector (name : string) (fn : PoolSnapshot) : PoolCollector :=
  let desc metric help := MkDesc ("gkit_pool_" +:+ metric) help [("pool", name)] in
  MkPoolCollector fn
    (desc "jobs_submitted_total" "Total number of jobs submitted.")
    (desc "jobs_completed_total" "Total number of jobs completed.")
    (desc "jobs_errors_total" "Total number of jobs that returned an error.")
    (desc "jobs_in_flight" "Number of jobs currently being processed.")
    (desc "queue_depth" "Number of jobs waiting in the queue buffer.").

Definition Pool_Describe (c : PoolCollector) : list Desc :=
  [p_submitted c; p_completed c; p_errors c; p_inFlight c; p_queueLen c].

Definition Pool_Collect (c : PoolCollector) : list Metric :=
  let s := p_fn c in
  [MkMetric (p_submitted c) CounterValue (of_int (Submitted s));
   MkMetric (p_completed c) CounterValue (of_int (Completed s));
   MkMetric (p_errors c) CounterValue (of_int (Errors s));
   MkMetric (p_inFlight c) GaugeValue (of_int (InFlight s));
   MkMetric (p_queueLen c) GaugeValue (of_int (QueueDepth s))].

(** *** The cache *)

Record CacheSnapshot := MkCacheSnapshot { Hits : Z; Misses : Z; Evicts : Z; Len : Z }.

Record CacheCollector := MkCacheCollector {
  c_fn : CacheSnapshot; c_hits : Desc; c_misses : Desc; c_evicts : Desc; c_size : Desc
}.

Definition NewCacheCollector (name : string) (fn : CacheSnapshot) : CacheCollector :=
  let desc metric help := MkDesc ("gkit_cache_" +:+ metric) help [("cache", name)] in
  MkCacheCollector fn
    (desc "hits_total" "Total cache hits.")
    (desc "misses_total" "Total cache misses.")
    (desc "evictions_total" "Total cache evictions (LRU or TTL).")
    (desc "size" "Current number of items in the cache.").

Definition Cache_Describe (c : CacheCollector) : list Desc := [c_hits c; c_misses c; c_evicts c; c_size c].

Definition Cache_Collect (c : CacheCollector) : list Metric :=
  let s := c_fn c in
  [MkMetric (c_hits c) CounterValue (of_int (Hits s));
   MkMetric (c_misses c) CounterValue (of_int (Misses s));
   MkMetric (c_evicts c) CounterValue (of_int (Evicts s));
   MkMetric (c_size c) GaugeValue (of_int (Len s))].

(** *** The connection pool of the store *)

(** The parts of [pgxpool.Stat] it reads. *)
Record Stat := MkStat { TotalConns : Z; IdleConns : Z; AcquiredConns : Z; MaxConns : Z; AcquireCount : Z }.

Record poolCollector := MkPgxCollector {
  x_stat : Stat; x_total : Desc; x_idle : Desc; x_used : Desc; x_max : Desc; x_acquire : Desc
}.

Definition newPoolCollector (stat : Stat) : poolCollector :=
  MkPgxCollector stat
    (MkDesc "pgx_pool_total_connections" "Total number of connections in the pool." [])
    (MkDesc "pgx_pool_idle_connections" "Number of idle connections in the pool." [])
    (MkDesc "pgx_pool_used_connections" "Number of connections currently in use." [])
    (MkDesc "pgx_pool_max_connections" "Maximum number of connections allowed." [])
    (MkDesc "pgx_pool_acquire_total" "Total number of connection acquire operations." []).

Definition Pgx_Describe (c : poolCollector) : list Desc := [x_total c; x_idle c; x_used c; x_max c; x_acquire c].

Definition Pgx_Collect (c : poolCollector) : list Metric :=
  let s := x_stat c in
  [MkMetric (x_total c) GaugeValue (of_int (TotalConns s));
   MkMetric (x_idle c) GaugeValue (of_int (IdleConns s));
   MkMetric (x_used c) GaugeValue (of_int (AcquiredConns s));
   MkMetric (x_max c) GaugeValue (of_int (MaxConns s));
   MkMetric (x_acquire c) CounterValue (of_int (AcquireCount s))].

(** ** The instrumentation of HTTP and gRPC *)

Record HTTPMetrics := MkHTTPMetrics {
  requestsTotal : Vec; requestDuration : Vec; requestsInFlight : Vec; responseBytes : Vec
}.

Definition millis (l : list Z) : list float64 := (λ n, fdiv (of_int n) (of_int 1000)) <$> l.

Definition http_vecs : HTTPMetrics := MkHTTPMetrics
  (MkVec CounterVec "" "http_requests_total"
     "Total HTTP requests, partitioned by method, path, and status." ["method"; "path"; "status"])
  (MkVec (HistogramVec (millis [5; 10; 25; 50; 100; 250; 500; 1000; 2500; 5000; 10000])) ""
     "http_request_duration_seconds" "HTTP request latency histogram." ["method"; "path"])
  (MkVec GaugeVec "" "http_requests_in_flight" "Current number of HTTP requests being served." ["method"])
  (MkVec CounterVec "" "http_response_bytes_total" "Total bytes sent in HTTP responses." ["method"]).

Definition NewHTTPMetrics {R} `{Registerer R} (r : R) : R * outcome HTTPMetrics :=
  let m := http_vecs in
  match reg_MustRegister [CVec (requestsTotal m); CVec (requestDuration m); CVec (requestsInFlight m);
                          CVec (responseBytes m)] r with
  | (r, Ret _) => (r, Ret m)
  | (r, Panic e) => (r, Panic e)
  end.

Record RPCMetrics := MkRPCMetrics { rpc_requestsTotal : Vec; rpc_requestDuration : Vec; rpc_requestsInFlight : Vec }.

Definition rpc_vecs : RPCMetrics := MkRPCMetrics
  (MkVec CounterVec "" "grpc_server_requests_total"
     "Total number of gRPC requests completed, by method and code." ["method"; "code"])
  (MkVec (HistogramVec (millis [1; 5; 10; 25; 50; 100; 250; 500; 1000; 2500; 5000])) ""
     "grpc_server_request_duration_seconds" "Histogram of gRPC request latencies." ["method"])
  (MkVec GaugeVec "" "grpc_server_requests_in_flight"
     "Number of gRPC requests currently being processed." ["method"]).

Definition NewRPCMetrics {R} `{Registerer R} (r : R) : R * outcome RPCMetrics :=
  let m := rpc_vecs in
  match reg_MustRegister [CVec (rpc_requestsTotal m); CVec (rpc_requestDuration m); CVec (rpc_requestsInFlight m)] r with
  | (r, Ret _) => (r, Ret m)
  | (r, Panic e) => (r, Panic e)
  end.

(** ** Lemmas *)

Definition desc_ok (d : Desc) : Prop := valid_name (fqName d) = true.

(** The names of some collectors can all be registered. *)
Record registrable {R} `{Registerer R} (cs : list Collector) (r : R) : Prop := {
  rg_distinct : NoDup (cs ≫= ids).*1;
  rg_names : Forall (λ x, valid_name x = true) (cs ≫= ids).*1;
  rg_labels : Forall (λ c, labels_ok c = true) cs;
  rg_new x : x ∈ (cs ≫= ids).*1 → x ∉ (in_use r).*1
}.

Lemma MustRegister_new {R} `{Registerer R} cs r : registrable cs r →
  ∃ r', reg_MustRegister cs r = (r', Ret tt) ∧ in_use r' = in_use r ++ (cs ≫= ids).
Proof.
  revert r. induction cs as [|c cs IH]; intros r [Hnd Hv Hl Hnew]; simpl in *.
  { exists r. by rewrite app_nil_r. }
  rewrite fmap_app in *. apply NoDup_app in Hnd as (Hc & Hdis & Hcs). apply Forall_app in Hv as [Hvc Hvcs].
  apply Forall_cons in Hl as [Hlc Hlcs].
  destruct (Register_new c r Hc Hvc Hlc) as [He Hu]; [set_solver|].
  destruct (reg_Register c r) as [r1 e]. simpl in He, Hu. subst e.
  destruct (IH r1) as (r' & Hr & Hu').
  { split; try done. intros x Hx. rewrite Hu, fmap_app, elem_of_app. intros [Hx'|Hx']; [by apply (Hnew x); set_solver|by eapply Hdis]. }
  exists r'. split; [done|]. by rewrite Hu', Hu, (assoc_L (++)).
Qed.

Lemma must_app {R} `{Registerer R} cs1 cs2 (r r' : R) : reg_MustRegister (cs1 ++ cs2) r = (r', Ret tt) →
  ∃ r1, reg_MustRegister cs1 r = (r1, Ret tt) ∧ reg_MustRegister cs2 r1 = (r', Ret tt).
Proof.
  revert r. induction cs1 as [|c cs1 IH]; intros r; simpl; [by exists r|].
  destruct (reg_Register c r) as [r1 [e|]]; [done|]. apply IH.
Qed.

(** Everything the server registers besides the standard collectors. *)
Definition server_collectors (pool cache : string) : list Collector :=
  [CVec (requestsTotal http_vecs); CVec (requestDuration http_vecs); CVec (requestsInFlight http_vecs);
   CVec (responseBytes http_vecs); CVec (rpc_requestsTotal rpc_vecs); CVec (rpc_requestDuration rpc_vecs);
   CVec (rpc_requestsInFlight rpc_vecs);
   CDescs (Cache_Describe (NewCacheCollector cache (MkCacheSnapshot 0 0 0 0)));
   CDescs (Pool_Describe (NewPoolCollector pool (MkPoolSnapshot 0 0 0 0 0)))].

Definition server_names : list string :=
  ["http_requests_total"; "http_request_duration_seconds"; "http_requests_in_flight"; "http_response_bytes_total";
   "grpc_server_requests_total"; "grpc_server_request_duration_seconds"; "grpc_server_requests_in_flight";
   "gkit_cache_hits_total"; "gkit_cache_misses_total"; "gkit_cache_evictions_total"; "gkit_cache_size";
   "gkit_pool_jobs_submitted_total"; "gkit_pool_jobs_completed_total"; "gkit_pool_jobs_errors_total";
   "gkit_pool_jobs_in_flight"; "gkit_pool_queue_depth"].

Lemma server_ids pool cache : (server_collectors pool cache ≫= ids).*1 = server_names.
Proof. reflexivity. Qed.

(** ** Properties *)

(** Each collector delivers in Collect exactly the metrics it announced in
    Describe, in the same order, with distinct and valid names, whatever the
    snapshot. *)
Theorem collectors_consistent name p c st :
  let P := NewPoolCollector name p in let C := NewCacheCollector name c in let X := newPoolCollector st in
  (m_desc <$> Pool_Collect P = Pool_Describe P ∧ m_desc <$> Cache_Collect C = Cache_Describe C ∧
   m_desc <$> Pgx_Collect X = Pgx_Describe X) ∧
  (NoDup (fqName <$> Pool_Describe P) ∧ NoDup (fqName <$> Cache_Describe C) ∧ NoDup (fqName <$> Pgx_Describe X)) ∧
  Forall desc_ok (Pool_Describe P ++ Cache_Describe C ++ Pgx_Describe X).
Proof.
  split_and!; try done; try (by apply (bool_decide_unpack _); vm_compute).
Qed.

(** The metrics of the server do not collide: on a registry that holds only
    the standard go_ and process_ metrics, registering the HTTP and gRPC
    instrumentation and the cache and pool collectors does not panic. *)
Theorem server_metrics_register {R} `{Registerer R} (r : R) pool cache :
  (∀ x, x ∈ in_use r → String.prefix "go_" x.1 = true ∨ String.prefix "process_" x.1 = true) →
  ∃ r1 r2 r3,
    NewHTTPMetrics r = (r1, Ret http_vecs) ∧ NewRPCMetrics r1 = (r2, Ret rpc_vecs) ∧
    reg_MustRegister (drop 7 (server_collectors pool cache)) r2 = (r3, Ret tt).
Proof.
  intros Hstd.
  assert (Hreg : registrable (server_collectors pool cache) r).
  { split; rewrite ?server_ids; [by apply (bool_decide_unpack _); vm_compute|by repeat constructor|repeat (constructor; [vm_compute; reflexivity|]); constructor|].
    intros x Hx ([x' ls] & -> & Hin)%list_elem_of_fmap. simpl in Hx.
    assert (HF : Forall (λ s, String.prefix "go_" s = false ∧ String.prefix "process_" s = false) server_names)
      by by repeat constructor.
    rewrite Forall_forall in HF. destruct (HF _ Hx) as [H1 H2]. destruct (Hstd _ Hin); simpl in *; congruence. }
  apply MustRegister_new in Hreg as (r' & Hr & _).
  change (server_collectors pool cache) with (take 4 (server_collectors pool cache) ++ drop 4 (server_collectors pool cache)) in Hr.
  apply must_app in Hr as (r1 & R1 & Hr).
  change (drop 4 (server_collectors pool cache)) with (take 3 (drop 4 (server_collectors pool cache)) ++ drop 7 (server_collectors pool cache)) in Hr.
  apply must_app in Hr as (r2 & R2 & R3). exists r1, r2, r'. split_and!; [| |exact R3].
  - unfold NewHTTPMetrics.
    change (reg_MustRegister _ r) with (reg_MustRegister (take 4 (server_collectors pool cache)) r). by rewrite R1.
  - unfold NewRPCMetrics.
    change (reg_MustRegister _ r1) with (reg_MustRegister (take 3 (drop 4 (server_collectors pool cache))) r1).
    by rewrite R2.
Qed.

(** The evictions the cache collector exports are those of the LRU bound only:
    an entry removed because its TTL has passed leaves the metric unchanged and
    shows as a miss. *)
Theorem expiry_not_exported {K V} `{Countable K} (c : @Cache.Cache K V _ _) now k el e name snap :
  Cache.items c !! k = Some el → Cache.heap c !! el = Some e → Cache.isExpired now e = true →
  let snapshot (c : @Cache.Cache K V _ _) :=
    let s := Cache.get_Stats c in
    MkCacheSnapshot (Cache.Hits s) (Cache.Misses s) (Cache.Evicts s) (Z.of_nat (Cache.Len_ s)) in
  let c' := (Cache.Get now k c).1 in
  snap = snapshot c →
  Cache_Collect (NewCacheCollector name (snapshot c')) !! 2%nat
    = Cache_Collect (NewCacheCollector name snap) !! 2%nat ∧
  Misses (snapshot c') = uwrap64 (Misses snap + 1) ∧ Cache.items c' !! Cache.key e = None.
Proof.
  intros Hk He Hx. cbv zeta. intros ->. unfold Cache.Get. rewrite Hk, He, Hx. simpl.
  unfold Cache.removeElement. rewrite He. simpl. by rewrite lookup_delete_eq.
Qed.

(** ** Witnesses *)

(** A registry that keeps the identities it accepted. *)
Definition table : Type := list (string * list (string * string)).
#[export] Instance table_registerer : Registerer table.
Proof.
  refine {| in_use r := r;
            reg_Register c r := if bool_decide (Forall (λ x, x ∉ r) (ids c)) then (r ++ ids c, None)
                                else (r, Some (ErrNew 90 "duplicate metrics collector registration attempted")) |}.
  intros c r _ _ _ Hnew. rewrite bool_decide_eq_true_2; [done|]. apply Forall_forall. intros x Hx Hr.
  eapply Hnew; by apply list_elem_of_fmap_2.
Defined.

Lemma server_metrics_register_witness : ∃ r1 r2 r3,
  NewHTTPMetrics ([("go_goroutines", []); ("process_open_fds", [])] : table) = (r1, Ret http_vecs) ∧
  NewRPCMetrics r1 = (r2, Ret rpc_vecs) ∧
  reg_MustRegister (drop 7 (server_collectors "order_pool" "product_cache")) r2 = (r3, Ret tt).
Proof.
  apply server_metrics_register. intros x Hx. simpl in Hx.
  rewrite !elem_of_cons, elem_of_nil in Hx. destruct Hx as [->|[->|[]]]; [left|right]; reflexivity.
Defined.

(** One entry, expired at the second instant. *)
Definition demo_cache : @Cache.Cache nat nat _ _ :=
  Cache.Mk 4 10 [0%nat] {[0%nat := Cache.Entry 7%nat 1%nat 11]} {[7%nat := 0%nat]} 0 0 0 1.

Lemma expiry_not_exported_witness :
  Cache.evicts (Cache.Get 12 7%nat demo_cache).1 = 0 ∧
  Cache_Collect (NewCacheCollector "c" (MkCacheSnapshot 0 1 0 0)) !! 2%nat
    = Cache_Collect (NewCacheCollector "c" (MkCacheSnapshot 0 0 0 1)) !! 2%nat.
Proof.
  split; [reflexivity|].
  apply (expiry_not_exported demo_cache 12 7%nat 0%nat (Cache.Entry 7%nat 1%nat 11) "c" (MkCacheSnapshot 0 0 0 1));
    reflexivity.
Defined.

End Metrics.
