(* ===== verification/ProductApi.v ===== *)
(** * api/product/v1: the Product service, its gRPC bindings and its client

    A service implementation is a record of its three methods
    ([ProductServiceServer]), each acting on the state [W] of the service.  The
    message types are values of one type [any], as the interceptors see them;
    [Message] says which constructor holds which struct, so that a Go type
    assertion is [of_any].  The transport between client and server (grpc and
    encoding/json) is the class [Transport]. *)

From S2P Require Import Prelude GoLang Interceptors Rpc Float64.
Import Interceptors Rpc Float64.
Open Scope Z_scope.

Module ProductApi.

(** ** Messages *)

Record Product := MkProduct { ID : string; Name : string; Price : float64 }.
Record GetProductRequest := MkGetProductRequest { Get_ID : string }.
(** [PageSize] is an [int32]. *)
Record ListProductsRequest := MkListProductsRequest { PageSize : Z; PageToken : string }.
Record ListProductsResponse := MkListProductsResponse { Products : list Product; NextPageToken : string }.
(** [Quantity] is an [int32]. *)
Record PlaceOrderRequest := MkPlaceOrderRequest { Order_ProductID : string; Order_Quantity : Z }.
Record PlaceOrderResponse := MkPlaceOrderResponse { OrderID : string; Status : string }.

(** A message held in an [any]. *)
Inductive any :=
| AnyProduct (m : Product)
| AnyGetProductRequest (m : GetProductRequest)
| AnyListProductsRequest (m : ListProductsRequest)
| AnyListProductsResponse (m : ListProductsResponse)
| AnyPlaceOrderRequest (m : PlaceOrderRequest)
| AnyPlaceOrderResponse (m : PlaceOrderResponse).

Class Message (A : Type) := {
  zero : A;
  to_any : A → any;
  of_any : any → option A;
  of_to_any a : of_any (to_any a) = Some a
}.

#[export] Instance Product_message : Message Product.
Proof.
  refine {| zero := MkProduct "" "" (of_int 0); to_any := AnyProduct;
            of_any a := match a with AnyProduct m => Some m | _ => None end |}. done.
Defined.
#[export] Instance GetProductRequest_message : Message GetProductRequest.
Proof.
  refine {| zero := MkGetProductRequest ""; to_any := AnyGetProductRequest;
            of_any a := match a with AnyGetProductRequest m => Some m | _ => None end |}. done.
Defined.
#[export] Instance ListProductsRequest_message : Message ListProductsRequest.
Proof.
  refine {| zero := MkListProductsRequest 0 ""; to_any := AnyListProductsRequest;
            of_any a := match a with AnyListProductsRequest m => Some m | _ => None end |}. done.
Defined.
#[export] Instance ListProductsResponse_message : Message ListProductsResponse.
Proof.
  refine {| zero := MkListProductsResponse [] ""; to_any := AnyListProductsResponse;
            of_any a := match a with AnyListProductsResponse m => Some m | _ => None end |}. done.
Defined.
#[export] Instance PlaceOrderRequest_message : Message PlaceOrderRequest.
Proof.
  refine {| zero := MkPlaceOrderRequest "" 0; to_any := AnyPlaceOrderRequest;
            of_any a := match a with AnyPlaceOrderRequest m => Some m | _ => None end |}. done.
Defined.
#[export] Instance PlaceOrderResponse_message : Message PlaceOrderResponse.
Proof.
  refine {| zero := MkPlaceOrderResponse "" ""; to_any := AnyPlaceOrderResponse;
            of_any a := match a with AnyPlaceOrderResponse m => Some m | _ => None end |}. done.
Defined.

(** ** Service *)

Definition ServiceName : string := "product.v1.ProductService".

Definition errUnimplemented `{GrpcStatus} (method : string) : error :=
  status_Errorf Unimplemented "method %s not implemented" method.

Section Service.
Context `{GrpcStatus} {W : Type}.

(** A method may log through the interceptors' events and may panic; a nil
    response pointer is [None]. *)
Definition method (Req Resp : Type) : Type :=
  Req → W → W * list event * outcome (option Resp * option error).

Record ProductServiceServer := MkService {
  GetProduct : method GetProductRequest Product;
  ListProducts : method ListProductsRequest ListProductsResponse;
  PlaceOrder : method PlaceOrderRequest PlaceOrderResponse
}.

Definition UnimplementedProductServiceServer : ProductServiceServer := {|
  GetProduct _ w := (w, [], Ret (None, Some (errUnimplemented "GetProduct")));
  ListProducts _ w := (w, [], Ret (None, Some (errUnimplemented "ListProducts")));
  PlaceOrder _ w := (w, [], Ret (None, Some (errUnimplemented "PlaceOrder")))
|}.

(** [dec] fills the request it is given or fails. *)
Definition decoder : Type := ∀ A, Message A → A → A * option error.

Definition box {Resp} `{Message Resp} (r : W * list event * outcome (option Resp * option error))
    : W * list event * outcome (option any * option error) :=
  let '(w, evs, o) := r in
  (w, evs, match o with Ret (resp, err) => Ret (to_any <$> resp, err) | Panic p => Panic p end).

(** The three handlers share their text up to the method and its types. *)
Definition unary {Req Resp} `{Message Req, Message Resp} (name : string) (m : method Req Resp)
    (dec : decoder) (interceptor : option (@UnaryServerInterceptor W any any)) (w : W)
    : W * list event * outcome (option any * option error) :=
  let '(req, err) := dec Req _ zero in
  match err with
  | Some e => (w, [], Ret (None, Some e))
  | None =>
    match interceptor with
    | None => box (m req w)
    | Some ic =>
      let i := Info ("/" +:+ ServiceName +:+ "/" +:+ name) false false in
      let handler : @UnaryHandler W any any := λ a w,
        match of_any a with
        | Some req => box (m req w)
        | None => (w, [], Panic "interface conversion")
        end in
      ic i handler (to_any req) w
    end
  end.

Definition ProductService_GetProduct_Handler (srv : ProductServiceServer) := unary "GetProduct" (GetProduct srv).
Definition ProductService_ListProducts_Handler (srv : ProductServiceServer) :=
  unary "ListProducts" (ListProducts srv).
Definition ProductService_PlaceOrder_Handler (srv : ProductServiceServer) := unary "PlaceOrder" (PlaceOrder srv).

Record MethodDesc := MkMethod {
  MethodName : string;
  Handler : ProductServiceServer → decoder → option (@UnaryServerInterceptor W any any) → W →
            W * list event * outcome (option any * option error)
}.

Definition ProductService_ServiceDesc : string * list MethodDesc :=
  (ServiceName,
   [MkMethod "GetProduct" ProductService_GetProduct_Handler;
    MkMethod "ListProducts" ProductService_ListProducts_Handler;
    MkMethod "PlaceOrder" ProductService_PlaceOrder_Handler]).

(** [RegisterService] is the method of [grpc.Server], whose registrations are [S]. *)
Definition RegisterProductServiceServer {S} (RegisterService : string * list MethodDesc → ProductServiceServer → S → S)
    (srv : ProductServiceServer) (s : S) : S := RegisterService ProductService_ServiceDesc srv s.

(** ** Client *)

(** [grpc.ClientConnInterface]: [Invoke] fills the reply it is given or fails. *)
Record ClientConn := MkConn {
  Invoke : string → any → ∀ A, Message A → A → W → W * (A * option error)
}.

Definition call {Req Resp} `{Message Req, Message Resp} (name : string) (cc : ClientConn) (req : Req) (w : W)
    : W * (option Resp * option error) :=
  let '(w, (out, err)) := Invoke cc ("/" +:+ ServiceName +:+ "/" +:+ name) (to_any req) Resp _ zero w in
  match err with
  | Some e => (w, (None, Some e))
  | None => (w, (Some out, None))
  end.

Definition Client_GetProduct : ClientConn → GetProductRequest → W → W * (option Product * option error) :=
  call "GetProduct".
Definition Client_ListProducts
  : ClientConn → ListProductsRequest → W → W * (option ListProductsResponse * option error) :=
  call "ListProducts".
Definition Client_PlaceOrder
  : ClientConn → PlaceOrderRequest → W → W * (option PlaceOrderResponse * option error) :=
  call "PlaceOrder".

(** The interface, and the stub over a connection that implements it. *)
Record ProductServiceClient := MkClient {
  C_GetProduct : GetProductRequest → W → W * (option Product * option error);
  C_ListProducts : ListProductsRequest → W → W * (option ListProductsResponse * option error);
  C_PlaceOrder : PlaceOrderRequest → W → W * (option PlaceOrderResponse * option error)
}.
Definition NewProductServiceClient (cc : ClientConn) : ProductServiceClient :=
  MkClient (Client_GetProduct cc) (Client_ListProducts cc) (Client_PlaceOrder cc).

(** ** The transport

    What gRPC documents of a connection to a server on which the descriptor is
    registered: the call is dispatched by its full method name to the handler,
    which decodes the request the client encoded and runs under the server's
    interceptor; a response is decoded into the client's reply, an error
    becomes a status error with the code the server sends for it.  [faithful] are the messages
    that encoding/json gives back as they were. *)
Class Transport (desc : string * list MethodDesc) (srv : ProductServiceServer)
    (ic : @UnaryServerInterceptor W any any) (cc : ClientConn) := {
  faithful : any → Prop;
  to_status : error → error;
  to_status_code e : sent_code e ≠ OK → status_Code (to_status e) = sent_code e;
  invoke_spec md req w : md ∈ desc.2 → faithful req →
    ∃ dec : decoder,
      (∀ A (M : Message A) (a : A), to_any a = req → dec A M zero = (a, None)) ∧
      let '(w', _, o) := Handler md srv dec (Some ic) w in
      ∀ A (M : Message A) (out : A),
        let reply := Invoke cc ("/" +:+ desc.1 +:+ "/" +:+ MethodName md) req A M out w in
        match o with
        | Ret (resp, Some e) => sent_code e ≠ OK → ∃ out', reply = (w', (out', Some (to_status e)))
        | Ret (Some resp, None) =>
            ∀ a, of_any resp = Some a → faithful resp → reply = (w', (a, None))
        | _ => True
        end
}.

(** ** Properties *)

(** How the client's view [reply] relates to the method's run. *)
Definition answers {Resp} `{Message Resp} (ok : any → Prop)
    (run : W * list event * outcome (option Resp * option error))
    (reply : W * (option Resp * option error)) : Prop :=
  match run with
  | (w, _, Ret (_, Some e)) => sent_code e ≠ OK → ∃ e', reply = (w, (None, Some e')) ∧ status_Code e' = sent_code e
  | (w, _, Ret (Some resp, None)) => ok (to_any resp) → reply = (w, (Some resp, None))
  | (w, _, Ret (None, None)) => True
  | (w, _, Panic _) => ∃ e', reply = (w, (None, Some e')) ∧ status_Code e' = Internal
  end.

Lemma call_answers {Req Resp} `{Message Req, Message Resp} (m : method Req Resp) desc srv ic cc
    `{T : !Transport desc srv ic cc} md (req : Req) w :
  (∀ i h a w, ∃ log, ic i h a w =
     ((h a w).1.1, log, match (h a w).2 with
                        | Ret r => Ret r
                        | Panic p => Ret (None, Some (status_Errorf Internal "internal error: %v" p))
                        end)) →
  desc.1 = ServiceName → md ∈ desc.2 → Handler md srv = unary (MethodName md) m → faithful (to_any req) →
  answers faithful (m req w) (call (MethodName md) cc req w).
Proof.
  intros Hic Hname Hmd Hm Hf.
  destruct (invoke_spec _ (to_any req) w Hmd Hf) as (dec & Hdec & Hinv).
  rewrite Hm in Hinv. unfold unary in Hinv. rewrite (Hdec Req _ req eq_refl) in Hinv.
  edestruct (Hic) as [log Hlog]. rewrite Hlog in Hinv. clear Hlog.
  rewrite of_to_any in Hinv. rewrite Hname in Hinv.
  unfold call, answers, box in *. destruct (m req w) as [[w' evs] [[resp err]|p]]; simpl in *.
  - destruct err as [e|]; simpl in *.
    + destruct resp; intros Hok; (destruct (Hinv Resp _ zero Hok) as [out ->]; eexists; split; [done|]; by apply to_status_code).
    + destruct resp as [resp|]; simpl in *; [|done]. intros Hok.
      by rewrite (Hinv Resp _ zero resp (of_to_any resp) Hok).
  - assert (Hc : sent_code (status_Errorf Internal "internal error: %v" p) = Internal).
    { unfold sent_code. by rewrite status_ok_Errorf, status_Code_Errorf. }
    destruct (Hinv Resp _ zero) as [out ->]; [by rewrite Hc|]. eexists. split; [done|]. by rewrite to_status_code; rewrite Hc.
Qed.

(** C16: A client of a server built by [NewServer] with the Recovery, Logging and
    metrics interceptors gets from each method exactly what the method returned:
    the response itself, an error with the code gRPC sends for the method's error (the one of
    its status, Canceled or DeadlineExceeded for an error of a context, and Unknown for any
    other), or Internal when the method panicked; and the service is left in the state in which the
    method left it. *)
Theorem client_calls_server `{!GrpcChain W any any} (srv : ProductServiceServer) (cc : ClientConn)
    `{T : !Transport ProductService_ServiceDesc srv
        (g_unary (Rpc.srv (NewServer [WithUnaryInterceptors [Recovery; Logging; UnaryInterceptor]]))) cc} w :
  (∀ req, faithful (to_any req) →
     answers faithful (GetProduct srv req w) (C_GetProduct (NewProductServiceClient cc) req w)) ∧
  (∀ req, faithful (to_any req) →
     answers faithful (ListProducts srv req w) (C_ListProducts (NewProductServiceClient cc) req w)) ∧
  (∀ req, faithful (to_any req) →
     answers faithful (PlaceOrder srv req w) (C_PlaceOrder (NewProductServiceClient cc) req w)).
Proof.
  assert (Hic : ∀ i h a w, ∃ log,
    g_unary (Rpc.srv (NewServer [WithUnaryInterceptors [Recovery; Logging; UnaryInterceptor]])) i h a w =
      ((h a w).1.1, log, match (h a w).2 with
                         | Ret r => Ret r
                         | Panic p => Ret (None, Some (status_Errorf Internal "internal error: %v" p))
                         end)).
  { intros i h a w'. simpl. rewrite chain_fold. apply stack_answer. }
  split_and!; intros req Hf.
  - apply (call_answers (GetProduct srv) _ srv _ cc (MkMethod "GetProduct" ProductService_GetProduct_Handler));
      try done. set_solver.
  - apply (call_answers (ListProducts srv) _ srv _ cc (MkMethod "ListProducts" ProductService_ListProducts_Handler));
      try done. set_solver.
  - apply (call_answers (PlaceOrder srv) _ srv _ cc (MkMethod "PlaceOrder" ProductService_PlaceOrder_Handler));
      try done. set_solver.
Qed.

End Service.
Arguments ProductServiceServer : clear implicits.
Arguments ClientConn : clear implicits.
Arguments MethodDesc : clear implicits.

(** ** Witness: a connection that hands the encoded message over unchanged *)

Section Loopback.
Context {W : Type} (desc : string * list (MethodDesc W)) (srv : ProductServiceServer W)
  (ic : @UnaryServerInterceptor W any any).

Definition loop_dec (req : any) : decoder := λ A _ z,
  match of_any req with Some a => (a, None) | None => (z, Some (ErrStatus Internal "decode")) end.

Definition loop_status (e : error) : error := ErrStatus (sent_code e) "".

Definition loopback : ClientConn W := MkConn (λ path req A _ out w,
  match find (λ md, bool_decide ("/" +:+ desc.1 +:+ "/" +:+ MethodName md = path)) desc.2 with
  | None => (w, (out, Some (ErrStatus Unimplemented "unknown method")))
  | Some md =>
    let '(w, _, o) := Handler md srv (loop_dec req) (Some ic) w in
    match o with
    | Ret (resp, Some e) => (w, (out, Some (loop_status e)))
    | Ret (Some resp, None) =>
        match of_any resp with
        | Some a => (w, (a, None))
        | None => (w, (out, Some (ErrStatus Internal "decode")))
        end
    | Ret (None, None) => (w, (out, None))
    | Panic _ => (w, (out, Some (ErrStatus Unavailable "")))
    end
  end).

Lemma loop_find md :
  NoDup (MethodName <$> desc.2) → md ∈ desc.2 →
  find (λ md', bool_decide ("/" +:+ desc.1 +:+ "/" +:+ MethodName md' = "/" +:+ desc.1 +:+ "/" +:+ MethodName md))
    desc.2 = Some md.
Proof.
  induction desc.2 as [|md' mds IH]; simpl; [by intros _ ?%not_elem_of_nil|].
  intros [Hn Hnd]%NoDup_cons [->|Hin]%elem_of_cons.
  { by rewrite bool_decide_eq_true_2. }
  rewrite bool_decide_eq_false_2; [by apply IH|].
  intros Heq. apply Hn. apply (inj (String.append "/")) in Heq. apply (inj (String.append desc.1)) in Heq.
  apply (inj (String.append "/")) in Heq. rewrite Heq. by apply list_elem_of_fmap_2.
Qed.

End Loopback.

#[export] Instance loop_transport {W} (srv : ProductServiceServer W) ic :
  Transport ProductService_ServiceDesc srv ic (loopback ProductService_ServiceDesc srv ic).
Proof.
  refine {| faithful _ := True; to_status := loop_status |}; [done|].
  intros md req w Hmd _. exists (loop_dec req). split.
  { intros A M a <-. unfold loop_dec. by rewrite of_to_any. }
  destruct (Handler md srv (loop_dec req) (Some ic) w) as [[w' evs] o] eqn:E.
  intros A M out. unfold loopback; cbn [Invoke]. cbv zeta.
  rewrite loop_find; [|by apply (bool_decide_unpack _); vm_compute|done].
  rewrite E. destruct o as [[[resp|] [e|]]|p]; eauto. intros a Ha _. by rewrite Ha.
Defined.

(** A service that finds one product and panics on another. *)
Definition demo_service : ProductServiceServer nat := {|
  GetProduct req w :=
    if bool_decide (Get_ID req = "p1") then (S w, [], Ret (Some (MkProduct "p1" "Desk" (of_int 80)), None))
    else (w, [], Panic "nil map");
  ListProducts := ListProducts UnimplementedProductServiceServer;
  PlaceOrder := PlaceOrder UnimplementedProductServiceServer
|}.

Definition demo_conn : ClientConn nat :=
  loopback ProductService_ServiceDesc demo_service
    (g_unary (Rpc.srv (NewServer [WithUnaryInterceptors [Recovery; Logging; UnaryInterceptor]]))).

Lemma client_calls_server_witness :
  Client_GetProduct demo_conn (MkGetProductRequest "p1") 7%nat
    = (8%nat, (Some (MkProduct "p1" "Desk" (of_int 80)), None)) ∧
  (∃ e, Client_GetProduct demo_conn (MkGetProductRequest "p2") 7%nat = (7%nat, (None, Some e)) ∧
        status_Code e = Internal) ∧
  (∃ e, Client_PlaceOrder demo_conn (MkPlaceOrderRequest "p1" 2) 7%nat = (7%nat, (None, Some e)) ∧
        status_Code e = Unimplemented).
Proof.
  destruct (client_calls_server demo_service demo_conn 7%nat) as (Hget & _ & Hplace).
  split_and!.
  - by apply (Hget (MkGetProductRequest "p1")).
  - by apply (Hget (MkGetProductRequest "p2")).
  - by apply (Hplace (MkPlaceOrderRequest "p1" 2)).
Defined.

End ProductApi.
