(* ===== verification/RateLimit.v ===== *)
(** * pkg/ratelimit: the token bucket, and one bucket per key

    Token counts are binary64 floats (Float64.v); clock readings and, for
    [WaitN], the outcomes of its selects are arguments.  Each operation runs
    under the limiter's mutex, so operations are atomic.  A [KeyedLimiter] holds
    pointers to its limiters, so it has a heap. *)

From Stdlib Require Import SpecFloat.
From S2P Require Import Prelude GoLang Float64.
Open Scope Z_scope.

Module RateLimit.
Import Float64.

(** ** Limiter *)

Record Limiter := MkLimiter { rate : float64; burst : float64; tokens : float64; lastFill : Time }.

Definition New (r : float64) (b : Z) (now : Time) : Limiter := MkLimiter r (of_int b) (of_int b) now.

Definition refill (now : Time) (l : Limiter) : Limiter :=
  let elapsed := Seconds (Sub now (lastFill l)) in
  MkLimiter (rate l) (burst l) (math_Min (burst l) (fadd (tokens l) (fmul elapsed (rate l)))) now.

Definition set_tokens (t : float64) (l : Limiter) : Limiter := MkLimiter (rate l) (burst l) t (lastFill l).

Definition AllowN (now : Time) (n : Z) (l : Limiter) : Limiter * bool :=
  let l := refill now l in
  if fltb (tokens l) (of_int n) then (l, false)
  else (set_tokens (fsub (tokens l) (of_int n)) l, true).

Definition Allow (now : Time) (l : Limiter) : Limiter * bool := AllowN now 1 l.

Definition Tokens (now : Time) (l : Limiter) : Limiter * float64 :=
  let l := refill now l in (l, tokens l).

Section Wait.
Context (oob : float64 → Z).

(** The wait before the next try. *)
Definition waitDur (n : Z) (l : Limiter) : Duration :=
  let need := fsub (of_int n) (tokens l) in
  let d := to_int64 oob (fmul (fdiv need (rate l)) (of_int Second)) in
  if d <? Millisecond then Millisecond else d.

(** One pass through the loop of [WaitN] under the mutex: [None] when the tokens
    were taken, otherwise the timer it sets. *)
Definition WaitN_try (now : Time) (n : Z) (l : Limiter) : Limiter * option Duration :=
  let l := refill now l in
  if fleb (of_int n) (tokens l) then (set_tokens (fsub (tokens l) (of_int n)) l, None)
  else (l, Some (waitDur n l)).

(** [WaitN] for the clock readings of its passes and what each select yields:
    the error of the context, or the timer.  [None] while it is still waiting. *)
Fixpoint WaitN (n : Z) (env : list (Time * option error)) (l : Limiter) : Limiter * option (option error) :=
  match env with
  | [] => (l, None)
  | (now, sel) :: env =>
    match WaitN_try now n l with
    | (l, None) => (l, Some None)
    | (l, Some _) => match sel with
                     | Some e => (l, Some (Some e))
                     | None => WaitN n env l
                     end
    end
  end.

Definition Wait (env : list (Time * option error)) (l : Limiter) : Limiter * option (option error) :=
  WaitN 1 env l.
End Wait.

(** ** KeyedLimiter *)

Section Keyed.
Context {K : Type} `{Countable K}.

Record keyedEntry := KeyedEntry { limiter : nat; lastSeen : Time }.

Record KeyedLimiter := MkKeyed {
  k_rate : float64; k_burst : Z; ttl : Duration;
  entries : gmap K keyedEntry;
  heap : gmap nat Limiter
}.

Definition KeyedOption : Type := KeyedLimiter → KeyedLimiter.
Definition WithKeyTTL (d : Duration) : KeyedOption := λ kl,
  MkKeyed (k_rate kl) (k_burst kl) d (entries kl) (heap kl).
Definition NewKeyed (r : float64) (b : Z) (opts : list KeyedOption) : KeyedLimiter :=
  fold_left (λ kl o, o kl) opts (MkKeyed r b (10 * Minute) ∅ ∅).

Definition with_entries (es : gmap K keyedEntry) (hp : gmap nat Limiter) (kl : KeyedLimiter) : KeyedLimiter :=
  MkKeyed (k_rate kl) (k_burst kl) (ttl kl) es hp.

Definition limiterFor (now : Time) (key : K) (kl : KeyedLimiter) : KeyedLimiter * nat :=
  match entries kl !! key with
  | Some e => (with_entries (<[key := KeyedEntry (limiter e) now]> (entries kl)) (heap kl) kl, limiter e)
  | None =>
    let p := fresh (dom (heap kl)) in
    (with_entries (<[key := KeyedEntry p now]> (entries kl))
       (<[p := New (k_rate kl) (k_burst kl) now]> (heap kl)) kl, p)
  end.

(** The lookup and the take are two critical sections, each with its own reading of the clock; here
    nothing happens between them and the clock shows the same time. *)
Definition Keyed_AllowN (now : Time) (key : K) (n : Z) (kl : KeyedLimiter) : KeyedLimiter * bool :=
  let '(kl, p) := limiterFor now key kl in
  match heap kl !! p with
  | Some l => let '(l, ok) := AllowN now n l in (with_entries (entries kl) (<[p := l]> (heap kl)) kl, ok)
  | None => (kl, false)
  end.

Definition Keyed_Allow (now : Time) (key : K) (kl : KeyedLimiter) : KeyedLimiter * bool :=
  Keyed_AllowN now key 1 kl.

Definition Delete (key : K) (kl : KeyedLimiter) : KeyedLimiter :=
  with_entries (delete key (entries kl)) (heap kl) kl.

Definition Evict (now : Time) (kl : KeyedLimiter) : KeyedLimiter * nat :=
  let cutoff := Add now (wrap64 (- ttl kl)) in
  let keep := filter (λ ke : K * keyedEntry, Before (lastSeen ke.2) cutoff = false) (entries kl) in
  (with_entries keep (heap kl) kl, (size (entries kl) - size keep)%nat).

Definition Len (kl : KeyedLimiter) : nat := size (entries kl).

(** Operations and their results, for runs. *)
Inductive op := OAllowN (key : K) (n : Z) | ODelete (key : K) | OEvict | OLen.
Inductive result := RAllowed (b : bool) | REvicted (n : nat) | RLen (n : nat) | RUnit.

Definition run_op (now : Time) (o : op) (kl : KeyedLimiter) : KeyedLimiter * result :=
  match o with
  | OAllowN key n => let '(kl, b) := Keyed_AllowN now key n kl in (kl, RAllowed b)
  | ODelete key => (Delete key kl, RUnit)
  | OEvict => let '(kl, n) := Evict now kl in (kl, REvicted n)
  | OLen => (kl, RLen (Len kl))
  end.

Fixpoint run (ops : list (Time * op)) (kl : KeyedLimiter) : KeyedLimiter * list result :=
  match ops with
  | [] => (kl, [])
  | (now, o) :: ops => let '(kl, r) := run_op now o kl in let '(kl, rs) := run ops kl in (kl, r :: rs)
  end.

(** *** Specification: a map from keys to independent limiters *)

Definition spec_op (r : float64) (b : Z) (d : Duration) (now : Time) (o : op) (m : gmap K (Limiter * Time))
    : gmap K (Limiter * Time) * result :=
  match o with
  | OAllowN key n =>
    let l := match m !! key with Some (l, _) => l | None => New r b now end in
    let '(l, ok) := AllowN now n l in (<[key := (l, now)]> m, RAllowed ok)
  | ODelete key => (delete key m, RUnit)
  | OEvict =>
    let keep := filter (λ kx : K * (Limiter * Time), Before kx.2.2 (Add now (wrap64 (- d))) = false) m in
    (keep, REvicted (size m - size keep)%nat)
  | OLen => (m, RLen (size m))
  end.

Fixpoint spec_run (r : float64) (b : Z) (d : Duration) (ops : list (Time * op)) (m : gmap K (Limiter * Time))
    : gmap K (Limiter * Time) * list result :=
  match ops with
  | [] => (m, [])
  | (now, o) :: ops =>
    let '(m, x) := spec_op r b d now o m in let '(m, xs) := spec_run r b d ops m in (m, x :: xs)
  end.

(** Every entry points to a limiter of its own. *)
Definition wf (kl : KeyedLimiter) : Prop :=
  (∀ k e, entries kl !! k = Some e → is_Some (heap kl !! limiter e)) ∧
  (∀ k1 k2 e1 e2, entries kl !! k1 = Some e1 → entries kl !! k2 = Some e2 → limiter e1 = limiter e2 → k1 = k2).

Definition abs (kl : KeyedLimiter) : gmap K (Limiter * Time) :=
  omap (λ e, (λ l, (l, lastSeen e)) <$> heap kl !! limiter e) (entries kl).

End Keyed.
Arguments KeyedLimiter K {_ _}.
Arguments keyedEntry : clear implicits.

(** ** The bucket invariant *)

Record bucket (l : Limiter) : Prop := {
  b_rate : positive_finite (rate l) ∧ valid (rate l);
  b_burst : nonneg (burst l) ∧ valid (burst l) ∧ not_inf (burst l);
  b_tokens : nonneg (tokens l) ∧ valid (tokens l)
}.

(** Operations on one limiter. *)
Inductive lop := LAllowN (n : Z) | LTokens | LWaitTry (n : Z).
Definition lop_ok (o : lop) : Prop :=
  match o with LAllowN n | LWaitTry n => 0 ≤ n ≤ int64_max | LTokens => True end.
Definition run_lop (oob : float64 → Z) (now : Time) (o : lop) (l : Limiter) : Limiter :=
  match o with
  | LAllowN n => (AllowN now n l).1
  | LTokens => (Tokens now l).1
  | LWaitTry n => (WaitN_try oob now n l).1
  end.

(** Clock readings from [t] on never go back. *)
Fixpoint monotone (t : Time) (ts : list Time) : Prop :=
  match ts with [] => True | t' :: ts => t ≤ t' ∧ monotone t' ts end.

(** ** Lemmas *)

Lemma Sub_nonneg now t : t ≤ now → 0 ≤ Sub now t.
Proof. unfold Sub, int64_min, int64_max. lia. Qed.

Lemma refill_spec now l : bucket l → lastFill l ≤ now →
  bucket (refill now l) ∧ fleb (tokens (refill now l)) (burst l) = true.
Proof.
  intros [[Hr Hrv] (Hb & Hbv & Hbi) [Ht Htv]] Hle. unfold refill.
  destruct (Seconds_spec (Sub now (lastFill l))) as [Hsv Hs]; [by apply Sub_nonneg|].
  destruct (math_Min_spec (burst l) (fadd (tokens l) (fmul (Seconds (Sub now (lastFill l))) (rate l))))
    as (Hmv & Hm & Hmb); [done| |done| |].
  - apply fadd_valid; [done|]. by apply fmul_valid.
  - apply fadd_nonneg; [done|]. by apply fmul_nonneg.
  - split; [|done]. by constructor.
Qed.

Lemma take_bucket n l : bucket l → 0 ≤ n ≤ int64_max → fleb (of_int n) (tokens l) = true →
  bucket (set_tokens (fsub (tokens l) (of_int n)) l).
Proof.
  intros [Hr Hb [Ht Htv]] Hn Hle. constructor; simpl; [done|done|]. split.
  - apply fsub_nonneg; [done|apply of_int_valid|done|apply of_int_nonneg; lia|by apply of_int_finite|done].
  - apply fsub_valid; [done|apply of_int_valid].
Qed.

Lemma fltb_negb_fleb x y : nonneg x → nonneg y → fltb x y = negb (fleb y x).
Proof.
  intros Hx Hy. destruct (fltb x y) eqn:E.
  - unfold fltb, fleb, SFltb, SFleb in *. rewrite (compare_swap x y).
    destruct (SFcompare x y) as [[]|]; done.
  - by rewrite fltb_false_fleb.
Qed.

Lemma run_lop_bucket oob now o l : bucket l → lastFill l ≤ now → lop_ok o →
  bucket (run_lop oob now o l) ∧ lastFill (run_lop oob now o l) = now ∧
  burst (run_lop oob now o l) = burst l.
Proof.
  intros Hb Hle Ho. destruct (refill_spec now l Hb Hle) as [Hr _].
  destruct o as [n| |n]; simpl in *; [| |]; unfold AllowN, WaitN_try.
  - destruct (fltb _ _) eqn:E; [done|]. split; [|done]. apply take_bucket; [done|lia|].
    apply fltb_false_fleb; [apply Hr|apply of_int_nonneg; lia|done].
  - done.
  - destruct (fleb _ _) eqn:E; [|done]. split; [|done]. by apply take_bucket.
Qed.

Lemma New_bucket r b now : positive_finite r → valid r → 0 ≤ b ≤ int64_max → bucket (New r b now).
Proof.
  intros Hr Hv Hb. constructor; simpl; [done| |].
  - split_and!; [apply of_int_nonneg; lia|apply of_int_valid|by apply of_int_finite].
  - split; [apply of_int_nonneg; lia|apply of_int_valid].
Qed.

Lemma run_lops_bucket oob ops l now :
  bucket l → monotone (lastFill l) (ops.*1 ++ [now]) → Forall lop_ok ops.*2 →
  let l' := fold_left (λ l x, run_lop oob x.1 x.2 l) ops l in
  bucket l' ∧ lastFill l' ≤ now ∧ burst l' = burst l.
Proof.
  revert l. induction ops as [|[t o] ops IH]; intros l Hb Hm Ho; simpl in *; [tauto|].
  destruct Hm as [Ht Hm]. apply Forall_cons in Ho as [Ho Hos].
  destruct (run_lop_bucket oob t o l Hb Ht Ho) as (Hb1 & Hl1 & Hbu). rewrite <-Hbu.
  apply IH; [done|by rewrite Hl1|done].
Qed.

Section KeyedProofs.
Context {K : Type} `{Countable K}.
Implicit Types kl : KeyedLimiter K.

Lemma abs_lookup kl k :
  abs kl !! k = entries kl !! k ≫= λ e, (λ l, (l, lastSeen e)) <$> heap kl !! limiter e.
Proof. unfold abs. by rewrite lookup_omap. Qed.

Lemma abs_None kl k : wf kl → abs kl !! k = None ↔ entries kl !! k = None.
Proof.
  intros [Hh _]. rewrite abs_lookup. destruct (entries kl !! k) as [e|] eqn:He; simpl; [|done].
  destruct (Hh _ _ He) as [l ->]. done.
Qed.

(** Writing through the pointer of [key] changes the limiter of [key] only. *)
Lemma abs_update kl key p now l :
  wf kl → (∀ k e, k ≠ key → entries kl !! k = Some e → limiter e ≠ p) →
  wf (with_entries (<[key := KeyedEntry p now]> (entries kl)) (<[p := l]> (heap kl)) kl) ∧
  abs (with_entries (<[key := KeyedEntry p now]> (entries kl)) (<[p := l]> (heap kl)) kl)
  = <[key := (l, now)]> (abs kl).
Proof.
  intros [Hh Hd] Hp. split; [split|]; simpl.
  - intros k e He. apply lookup_insert_Some in He as [[<- <-]|[Hne He]]; simpl.
    + rewrite lookup_insert_eq. eauto.
    + rewrite lookup_insert_ne by (by apply not_eq_sym, (Hp k)). eauto.
  - intros k1 k2 e1 e2 [[<- <-]|[Hne1 He1]]%lookup_insert_Some [[<- <-]|[Hne2 He2]]%lookup_insert_Some; simpl; intros Heq.
    + done.
    + by destruct (Hp _ _ (not_eq_sym Hne2) He2).
    + by destruct (Hp _ _ (not_eq_sym Hne1) He1).
    + by eapply Hd.
  - apply map_eq. intros k. rewrite abs_lookup. simpl. destruct (decide (k = key)) as [->|Hk].
    + by rewrite !lookup_insert_eq; simpl; rewrite lookup_insert_eq.
    + rewrite !lookup_insert_ne by done. rewrite abs_lookup. destruct (entries kl !! k) as [e|] eqn:He; [|done].
      simpl. rewrite lookup_insert_ne; [done|]. by apply not_eq_sym, (Hp k).
Qed.

Lemma Keyed_AllowN_refines now key n kl : wf kl →
  wf (Keyed_AllowN now key n kl).1 ∧
  let '(l, ok) := AllowN now n (match abs kl !! key with
                                | Some (l, _) => l | None => New (k_rate kl) (k_burst kl) now end) in
  abs (Keyed_AllowN now key n kl).1 = <[key := (l, now)]> (abs kl) ∧ (Keyed_AllowN now key n kl).2 = ok.
Proof.
  intros Hwf. unfold Keyed_AllowN, limiterFor.
  assert (Habs := abs_lookup kl key). destruct (entries kl !! key) as [e|] eqn:He; simpl in Habs.
  - destruct (proj1 Hwf _ _ He) as [l Hl]. rewrite Hl in Habs. simpl in Habs. rewrite Habs. simpl. rewrite Hl.
    destruct (AllowN now n l) as [l' ok]. simpl.
    destruct (abs_update kl key (limiter e) now l' Hwf) as [Hw Ha]; [|by split; [exact Hw|split; [exact Ha|]]].
    intros k e' Hk He' Heq. apply Hk. by eapply (proj2 Hwf).
  - rewrite Habs. simpl. rewrite lookup_insert_eq.
    destruct (AllowN now n (New (k_rate kl) (k_burst kl) now)) as [l' ok]. simpl. rewrite insert_insert_eq.
    destruct (abs_update kl key (fresh (dom (heap kl))) now l' Hwf) as [Hw Ha]; [|by split; [exact Hw|split; [exact Ha|]]].
    intros k e' Hk He' Heq. destruct (proj1 Hwf _ _ He') as [l Hl]. rewrite Heq in Hl.
    apply elem_of_dom_2 in Hl. by apply is_fresh in Hl.
Qed.

Lemma wf_sub kl es : wf kl → es ⊆ entries kl → wf (with_entries es (heap kl) kl).
Proof.
  intros [Hh Hd] Hs. split; simpl.
  - intros k e He. eapply Hh. by eapply lookup_weaken.
  - intros k1 k2 e1 e2 He1 He2. eapply Hd; by eapply lookup_weaken.
Qed.

Lemma size_abs kl : wf kl → size (abs kl) = size (entries kl).
Proof.
  intros Hwf. rewrite <-!size_dom. f_equal. apply set_eq. intros k. rewrite !elem_of_dom, !is_Some_alt.
  pose proof (abs_None kl k Hwf). destruct (abs kl !! k), (entries kl !! k); naive_solver.
Qed.

Lemma abs_filter kl cutoff : wf kl →
  abs (with_entries (filter (λ ke : K * keyedEntry, Before (lastSeen ke.2) cutoff = false) (entries kl)) (heap kl) kl)
  = filter (λ kx : K * (Limiter * Time), Before kx.2.2 cutoff = false) (abs kl).
Proof.
  intros [Hh _]. apply map_eq. intros k. apply option_eq. intros [l t].
  rewrite map_lookup_filter_Some, !abs_lookup. simpl. rewrite !bind_Some. split.
  - intros (e & He & Hl). apply map_lookup_filter_Some in He as [He Hb]. simpl in Hb.
    apply fmap_Some in Hl as (l' & Hl & [= -> ->]). split; [|done]. exists e. by rewrite Hl.
  - intros [(e & He & Hl) Hb]. exists e. rewrite map_lookup_filter_Some. split; [|done]. split; [done|].
    apply fmap_Some in Hl as (l' & Hl & [= -> ->]). done.
Qed.

Lemma abs_delete key kl : abs (Delete key kl) = delete key (abs kl).
Proof.
  apply map_eq. intros k. rewrite abs_lookup. simpl.
  destruct (decide (k = key)) as [->|Hk]; [by rewrite !lookup_delete_eq|].
  by rewrite !lookup_delete_ne, abs_lookup.
Qed.

(** The configuration of a keyed limiter never changes. *)
Definition config kl : float64 * Z * Duration := (k_rate kl, k_burst kl, ttl kl).

Lemma keyed_op_refines now o kl : wf kl →
  wf (run_op now o kl).1 ∧ config (run_op now o kl).1 = config kl ∧
  spec_op (k_rate kl) (k_burst kl) (ttl kl) now o (abs kl) = (abs (run_op now o kl).1, (run_op now o kl).2).
Proof.
  intros Hwf. destruct o as [key n|key| |]; simpl.
  - destruct (Keyed_AllowN_refines now key n kl Hwf) as [Hw Ha].
    assert (Hc : config (Keyed_AllowN now key n kl).1 = config kl).
    { unfold Keyed_AllowN, limiterFor. destruct (entries kl !! key); simpl; repeat (dmatch; simpl); done. }
    destruct (Keyed_AllowN now key n kl) as [kl' b]. simpl in *.
    destruct (AllowN now n _) as [l ok]. destruct Ha as [-> ->]. done.
  - split; [apply wf_sub; [done|apply delete_subseteq]|]. split; [done|]. by rewrite abs_delete.
  - assert (Hs := wf_sub kl _ Hwf (map_filter_subseteq
      (λ ke : K * keyedEntry, Before (lastSeen ke.2) (Add now (wrap64 (- ttl kl))) = false) (entries kl))).
    split; [done|]. split; [done|]. by rewrite <-(abs_filter kl _ Hwf), !size_abs.
  - by rewrite size_abs.
Qed.

Lemma keyed_run_refines ops kl : wf kl →
  (run ops kl).2 = (spec_run (k_rate kl) (k_burst kl) (ttl kl) ops (abs kl)).2.
Proof.
  revert kl. induction ops as [|[now o] ops IH]; intros kl Hwf; simpl; [done|].
  destruct (keyed_op_refines now o kl Hwf) as (Hw & Hc & ->).
  destruct (run_op now o kl) as [kl' r]. simpl in *. specialize (IH kl' Hw).
  unfold config in Hc. injection Hc as H1 H2 H3. rewrite H1, H2, H3 in IH.
  destruct (run ops kl') as [kl'' rs]. simpl in IH. rewrite IH. by destruct (spec_run _ _ _ _ _).
Qed.

(** ** Properties *)

(** C8: Keys do not interfere: every sequence of operations on a keyed limiter
    gives the answers of a map from keys to independent token buckets, each
    created full when its key is first seen (again after a deletion or an
    eviction), and [Evict] removes exactly the keys idle for longer than the
    TTL. *)
Theorem keyed_refines r b d (ops : list (Time * op)) :
  (run ops (NewKeyed (K:=K) r b [WithKeyTTL d])).2 = (spec_run r b d ops ∅).2.
Proof.
  assert (Hwf : wf (NewKeyed (K:=K) r b [WithKeyTTL d])).
  { split; simpl; intros *; by rewrite lookup_empty. }
  rewrite (keyed_run_refines ops _ Hwf). simpl. do 2 f_equal.
Qed.

End KeyedProofs.

(** C7: The bucket in floating-point arithmetic: with a positive finite rate, for
    every sequence of operations at clock readings that never go back, the
    token count is never NaN and always between zero and the burst, and
    [AllowN] admits exactly when the tokens available cover the request. *)
Theorem bucket_bounds oob r b t0 ops now n :
  positive_finite r → valid r → 0 ≤ b ≤ int64_max → 0 ≤ n ≤ int64_max →
  monotone t0 (ops.*1 ++ [now]) → Forall lop_ok ops.*2 →
  let l := fold_left (λ l x, run_lop oob x.1 x.2 l) ops (New r b t0) in
  nonneg (Tokens now l).2 ∧ fleb (Tokens now l).2 (of_int b) = true ∧
  (AllowN now n l).2 = fleb (of_int n) (Tokens now l).2 ∧
  nonneg (tokens (AllowN now n l).1).
Proof.
  intros Hr Hv Hb Hn Hm Ho l.
  destruct (run_lops_bucket oob ops (New r b t0) now) as (Hbk & Hle & Hbu);
    [by apply New_bucket|done|done|]. fold l in Hbk, Hle, Hbu.
  destruct (refill_spec now l Hbk Hle) as [Hrf Hmax]. rewrite Hbu in Hmax.
  destruct (run_lop_bucket oob now (LAllowN n) l Hbk Hle Hn) as (Hal & _ & _).
  split_and!; [apply Hrf|done| |apply Hal].
  unfold AllowN, Tokens. cbn [snd]. rewrite fltb_negb_fleb by (apply Hrf || (apply of_int_nonneg; lia)).
  by destruct (fleb (of_int n) (tokens (refill now l))).
Qed.

Lemma WaitN_starves oob n env l :
  bucket l → 0 ≤ n ≤ int64_max → fltb (burst l) (of_int n) = true → monotone (lastFill l) env.*1 →
  (WaitN oob n env l).2 ≠ Some None.
Proof.
  revert l. induction env as [|[now sel] env IH]; intros l Hb Hn Hlt Hm; [done|]. simpl in Hm.
  destruct Hm as [Hle Hm]. destruct (refill_spec now l Hb Hle) as [Hrf Hmax]. simpl. unfold WaitN_try.
  assert (Hno : fleb (of_int n) (tokens (refill now l)) = false).
  { apply negb_true_iff. rewrite <-fltb_negb_fleb by (apply Hrf || (apply of_int_nonneg; lia)).
    apply (fleb_trans_lt _ (burst l)); [apply Hrf|apply Hb|apply of_int_nonneg; lia|done|done]. }
  rewrite Hno. destruct sel; [done|]. by apply IH.
Qed.

(** A request for more tokens than the burst is never granted: [WaitN] keeps
    polling and returns only when its context is done. *)
Theorem wait_beyond_burst_starves oob r b t0 n env :
  positive_finite r → valid r → 0 ≤ b ≤ int64_max → 0 ≤ n ≤ int64_max →
  fltb (of_int b) (of_int n) = true → monotone t0 env.*1 →
  (WaitN oob n env (New r b t0)).2 ≠ Some None.
Proof. intros Hr Hv Hb Hn Hlt Hm. apply WaitN_starves; [by apply New_bucket|done|done|done]. Qed.

(** ** Witnesses *)

Definition demo_rate : float64 := of_int 2.

Lemma bucket_bounds_witness :
  (AllowN (3 * Second) 5 (fold_left (λ l x, run_lop (λ _, 0) x.1 x.2 l)
     [(Second, LAllowN 4); (2 * Second, LTokens)] (New demo_rate 10 0))).2 = true ∧
  fleb (Tokens (3 * Second) (New demo_rate 10 0)).2 (of_int 10) = true.
Proof.
  split; [vm_compute; reflexivity|].
  destruct (bucket_bounds (λ _, 0) demo_rate 10 0 [] (3 * Second) 5) as (_ & HB & _); [..|exact HB].
  - vm_compute. exact I.
  - vm_compute. reflexivity.
  - vm_compute. split; discriminate.
  - vm_compute. split; discriminate.
  - vm_compute. split; [discriminate|exact I].
  - apply Forall_nil. exact I.
Defined.

Lemma wait_beyond_burst_starves_witness :
  (WaitN (λ _, 0) 3 [(Second, None); (5 * Second, None); (9 * Second, Some context_Canceled)]
     (New demo_rate 2 0)).2 ≠ Some None.
Proof.
  apply (wait_beyond_burst_starves (λ _, 0) demo_rate 2 0 3).
  - vm_compute. exact I.
  - vm_compute. reflexivity.
  - vm_compute. split; discriminate.
  - vm_compute. split; discriminate.
  - vm_compute. reflexivity.
  - vm_compute. split_and!; try discriminate. exact I.
Defined.

End RateLimit.
