(* ===== verification/Backoff.v ===== *)
(** * pkg/retry/backoff.go: delays between attempts

    A [Backoff] is a state transformer, so that it can be handed to
    [Retry.WithBackoff]; only [Jitter] uses the state, for the random source.
    [math.Pow] and [rand.N] are parameters: the theorems assume that [Pow] is
    exact on the powers of two it is used on, and that [rand.N(n)] is in [0,n). *)

From Stdlib Require Import SpecFloat.
From S2P Require Import Prelude GoLang Float64.
Open Scope Z_scope.

Module Backoff.
Import Float64.

Definition Backoff (W : Type) : Type := Z → W → W * Duration.

Record ConstantBackoff := MkConstant { Delay : Duration }.
Definition Constant_Next {W} (b : ConstantBackoff) : Backoff W := λ _ w, (w, Delay b).

Record ExponentialBackoff := MkExponential { Initial : Duration; Multiplier : float64; Max : Duration }.

Definition DefaultExponential : ExponentialBackoff :=
  MkExponential (100 * Millisecond) (of_int 2) (30 * Second).

Section Exponential.
Context (Pow : float64 → float64 → float64) (oob : float64 → Z).

Definition delay (b : ExponentialBackoff) (attempt : Z) : Duration :=
  let d := fmul (of_int (Initial b)) (Pow (Multiplier b) (of_int attempt)) in
  if (Max b >? 0) && (to_int64 oob d >? Max b) then Max b else to_int64 oob d.

Definition Exponential_Next {W} (b : ExponentialBackoff) : Backoff W := λ attempt w, (w, delay b attempt).
End Exponential.

Section Jitter.
Context {W : Type} (rand_N : Duration → W → W * Duration).

Record Jitter := MkJitter { Base : Backoff W }.

Definition Jitter_Next (j : Jitter) : Backoff W := λ attempt w,
  let '(w, base) := Base j attempt w in
  if base <=? 0 then (w, 0) else rand_N base w.

Definition WithJitter (b : Backoff W) : Backoff W := Jitter_Next (MkJitter b).
End Jitter.

(** ** Properties *)

(** The delays of [DefaultExponential], computed for each attempt. *)
Definition default_delay (oob : float64 → Z) (a : Z) : Duration :=
  delay (λ _ _, of_int (2 ^ a)) oob DefaultExponential a.

Lemma default_delays : Forall (λ n, default_delay (λ _, 0) (Z.of_nat n)
  = Z.min (100 * Millisecond * 2 ^ Z.of_nat n) (30 * Second)) (seq 0 37).
Proof. by apply (bool_decide_unpack _); vm_compute. Qed.

Definition fits (x : float64) : bool :=
  match trunc x with Some k => (int64_min <=? k) && (k <=? int64_max) | None => false end.

Lemma default_in_range :
  Forall (λ n, fits (fmul (of_int (100 * Millisecond)) (of_int (2 ^ Z.of_nat n))) = true) (seq 0 37).
Proof. by apply (bool_decide_unpack _); vm_compute. Qed.

(** The default backoff doubles from 100ms and is capped at 30s: on every
    platform, for the first 37 attempts, attempt [a] waits
    [min(100ms * 2^a, 30s)]. *)
Theorem default_exponential Pow oob a :
  0 ≤ a ≤ 36 → Pow (of_int 2) (of_int a) = of_int (2 ^ a) →
  delay Pow oob DefaultExponential a = Z.min (100 * Millisecond * 2 ^ a) (30 * Second).
Proof.
  intros Ha HP. assert (Hin : Z.to_nat a ∈ seq 0 37) by (apply elem_of_seq; lia).
  pose proof (proj1 (Forall_forall _ _) default_delays _ Hin) as Hd.
  pose proof (proj1 (Forall_forall _ _) default_in_range _ Hin) as Hr.
  cbv beta in Hd, Hr. rewrite Z2Nat.id in Hd, Hr by lia. rewrite <-Hd.
  unfold default_delay, delay, DefaultExponential. cbn [Initial Multiplier Max]. rewrite HP.
  unfold fits in Hr. unfold to_int64. destruct (trunc _) as [k|]; [|done]. by rewrite Hr.
Qed.

Lemma default_exponential_witness :
  delay (λ _ y, of_int 8) (λ _, 0) DefaultExponential 3 = 800 * Millisecond.
Proof. apply (default_exponential (λ _ _, of_int 8) (λ _, 0) 3); [lia|reflexivity]. Defined.

(** Any exponential backoff with a positive [Max] stays at or below it as long
    as the product fits into an [int64], and jitter keeps the delay between zero
    and what it wraps. *)
Theorem backoff_bounded {W} (rand_N : Duration → W → W * Duration) Pow oob b attempt w k :
  (∀ n w, 0 < n → 0 ≤ (rand_N n w).2 < n) → 0 < Max b →
  trunc (fmul (of_int (Initial b)) (Pow (Multiplier b) (of_int attempt))) = Some k → is_int64 k →
  delay Pow oob b attempt = Z.min k (Max b) ∧
  0 ≤ (WithJitter rand_N (Exponential_Next Pow oob b) attempt w).2 ≤ Z.max 0 (Z.min k (Max b)).
Proof.
  intros Hrand HM Ht [Hk1 Hk2].
  assert (Hd : delay Pow oob b attempt = Z.min k (Max b)).
  { unfold delay, to_int64. rewrite Ht.
    rewrite (proj2 (Z.leb_le _ _) Hk1), (proj2 (Z.leb_le _ _) Hk2). simpl.
    rewrite (proj2 (Z.gtb_lt _ _) HM). simpl. destruct (k >? Max b) eqn:E; zbool; lia. }
  split; [done|]. unfold WithJitter, Jitter_Next, Exponential_Next. simpl. rewrite Hd.
  destruct (_ <=? 0) eqn:E; zbool; simpl; [lia|]. specialize (Hrand (Z.min k (Max b)) w ltac:(lia)). lia.
Qed.

Lemma backoff_bounded_witness :
  delay (λ _ _, of_int 1024) (λ _, 0) DefaultExponential 10 = 30 * Second.
Proof.
  destruct (backoff_bounded (W:=unit) (λ n w, (w, 0)) (λ _ _, of_int 1024) (λ _, 0) DefaultExponential 10 tt
    (102400 * Millisecond)) as [HD _].
  - intros n w Hn. simpl. lia.
  - reflexivity.
  - vm_compute. reflexivity.
  - split; vm_compute; discriminate.
  - exact HD.
Defined.

(** From attempt 37 on the product no longer fits into an [int64]: the
    conversion is implementation-specific and the cap does not apply to a
    negative result.  On a platform that converts to the smallest [int64] the
    delay is negative, and [Retry.Do] then does not wait at all. *)
Theorem default_exponential_overflow Pow :
  Pow (of_int 2) (of_int 37) = of_int (2 ^ 37) →
  delay Pow (λ _, int64_min) DefaultExponential 37 = int64_min.
Proof. intros HP. unfold delay, DefaultExponential. cbn [Initial Multiplier Max]. rewrite HP. by vm_compute. Qed.

Lemma default_exponential_overflow_witness :
  delay (λ _ _, of_int (2 ^ 37)) (λ _, int64_min) DefaultExponential 37 = int64_min.
Proof. apply (default_exponential_overflow (λ _ _, of_int (2 ^ 37))). reflexivity. Defined.

End Backoff.
