(* ===== verification/Server.v ===== *)
(** * examples/server: the packages composed into one service

    [world] holds what the handlers of main.go share: the product cache, the
    circuit breaker in front of the database, the order pool's counters and the
    orders published on the bus.  [clock] and [rnd] are the readings of
    [time.Now] and of [rand.Float64() < 0.2], in the order in which they are
    made.  The handlers are built from the models of the packages they call.
    What the bus and the pool do with a published order is Orders.v, the way of a
    request to its handler Routes.v and the rest of main Main.v.

    A request that sleeps between two attempts lets other requests run: the
    sleep is a parameter, any transformer of the world, and the theorems say
    what they need of it. *)

From S2P Require Import Prelude GoLang CircuitBreaker LruCache Retry Graceful Health Pool Http Middleware.
From S2P Require Import Interceptors Rpc Float64 ProductApi RateLimit Backoff.
Import Float64 ProductApi.
Open Scope Z_scope.

Module Server.

(** ** Domain types and helpers *)

Record OrderEvent := MkOrder { ProductID : string; Quantity : Z; At : Time }.

Definition ErrNotFound : error := ErrNew 80 "not found".

(** A decimal literal with two digits: the exact quotient rounded once. *)
Definition cents (n : Z) : float64 := fdiv (of_int n) (of_int 100).

Definition sampleProducts : list Product :=
  [MkProduct "p1" "Wireless Keyboard" (cents 7999);
   MkProduct "p2" "Mechanical Mouse" (cents 4999);
   MkProduct "p3" "4K Monitor" (cents 39999);
   MkProduct "p4" "USB-C Hub" (cents 3499);
   MkProduct "p5" "Laptop Stand" (cents 2499)].

Definition envOr (Getenv : string → string) (key fallback : string) : string :=
  let v := Getenv key in if bool_decide (v ≠ "") then v else fallback.

Record world := World {
  cache : @Cache.Cache string Product _ _;
  breaker : Breaker.Breaker;
  pool : Pool.shared OrderEvent;
  published : list (string * OrderEvent);
  clock : nat → Time;
  reads : nat;
  rnd : nat → bool;
  draws : nat
}.

Definition set_cache c (w : world) : world :=
  World c (breaker w) (pool w) (published w) (clock w) (reads w) (rnd w) (draws w).
Definition set_breaker b (w : world) : world :=
  World (cache w) b (pool w) (published w) (clock w) (reads w) (rnd w) (draws w).

Definition time_Now (w : world) : world * Time :=
  (World (cache w) (breaker w) (pool w) (published w) (clock w) (S (reads w)) (rnd w) (draws w), clock w (reads w)).
Definition rand_low (w : world) : world * bool :=
  (World (cache w) (breaker w) (pool w) (published w) (clock w) (reads w) (rnd w) (S (draws w)), rnd w (draws w)).

(** [pubsub.Publish] on the server's bus. *)
Definition Publish (topic : string) (ev : OrderEvent) (w : world) : world :=
  World (cache w) (breaker w) (pool w) (published w ++ [(topic, ev)]) (clock w) (reads w) (rnd w) (draws w).

(** ** The components, with their clock *)

Definition cache_Get (id : string) (w : world) : world * option Product :=
  let '(w, t) := time_Now w in
  let '(c, r) := Cache.Get t id (cache w) in (set_cache c w, r).

Definition cache_Set (id : string) (p : Product) (w : world) : world :=
  let '(w, t) := time_Now w in set_cache (Cache.Set_ t id p (cache w)) w.

(** [circuitbreaker.Execute] around a function of the world. *)
Definition Execute {T} (zero : T) (fn : world → world * (T * option error)) (w : world)
    : world * (T * option error) :=
  let '(w, t1) := time_Now w in
  match Breaker.allow t1 (breaker w) with
  | (b, Some e) => (set_breaker b w, (zero, Some e))
  | (b, None) =>
    let '(w, (v, err)) := fn (set_breaker b w) in
    let '(w, t2) := time_Now w in
    (set_breaker (Breaker.record t2 err (breaker w)) w, (v, err))
  end.

Definition fetchProductFromDB (id : string) (w : world) : world * (Product * option error) :=
  let '(w, low) := rand_low w in
  if low then (w, (zero, Some (ErrWrap "transient db error: %w" [] ErrNotFound)))
  else (w, (zero, Some (ErrWrap "%w: product %s" [id] ErrNotFound))).

(** [processOrder] logs, sleeps and never fails. *)
Definition processOrder (ev : OrderEvent) : option error := None.

(** The cache-warmup job, also run at start. *)
Definition warmup (w : world) : world := fold_left (λ w p, cache_Set (ID p) p w) sampleProducts w.

(** The state of the service once main has built its components. *)
Definition productCache : outcome (@Cache.Cache string Product _ _) :=
  Cache.New 512 [Cache.WithTTL (5 * Minute)].

Definition dbBreaker : Breaker.Breaker :=
  Breaker.New [Breaker.WithFailureThreshold 5; Breaker.WithSuccessThreshold 2;
               Breaker.WithOpenTimeout (30 * Second); Breaker.WithOnStateChange true].

Definition start (clk : nat → Time) (r : nat → bool) : outcome world :=
  match productCache with
  | Panic m => Panic m
  | Ret c => Ret (warmup (World c dbBreaker Pool.init [] clk 0 r 0))
  end.

(** ** HTTP handlers *)

Inductive response :=
| RError (msg : string) (code : Z)
| RProduct (p : Product)
| RAccepted.

(** The handler's actions on the response writer; [size] is the length of the
    JSON text. *)
Definition response_events (size : response → Z) (r : response) : list Http.event :=
  match r with
  | RError msg code => Http.http_Error msg code
  | RProduct _ => [Http.SetHeader "Content-Type" "application/json"; Http.Write (size r)]
  | RAccepted => [Http.WriteHeader 202; Http.Write (size r)]
  end.

Section Handlers.
(** The request's context, the sleep between attempts and the sources of the
    jittered backoff. *)
Context (ctx_Err : world → option error) (contextSleep : Duration → world → world * option error)
  (rand_N : Duration → world → world * Duration) (Pow : float64 → float64 → float64) (oob : float64 → Z).

Definition lookup_product (id : string) (w : world) : world * (Product * option error) :=
  let '(w, r) := cache_Get id w in
  match r with
  | Some p => (w, (p, None))
  | None => Execute zero (fetchProductFromDB id) w
  end.

Definition get_backoff : Backoff.Backoff world :=
  Backoff.WithJitter rand_N (Backoff.Exponential_Next Pow oob
    (Backoff.MkExponential (50 * Millisecond) (of_int 2) (500 * Millisecond))).

(** GET /products/{id} *)
Definition GET_product (id : string) (w : world) : world * outcome response :=
  match Retry.WithMaxAttempts 3 with
  | Panic m => (w, Panic m)
  | Ret attempts =>
    let '(w, (product, err)) :=
      Retry.Do zero ctx_Err (lookup_product id) contextSleep [attempts; Retry.WithBackoff get_backoff] w in
    (w, Ret match err with
            | Some e =>
                if errors_Is (Some e) 80 then RError "product not found" 404
                else RError "internal error" 500
            | None => RProduct product
            end)
  end.

(** POST /orders; [body] is the decoded event, or nothing when decoding fails. *)
Definition POST_orders (body : option OrderEvent) (w : world) : world * response :=
  match body with
  | None => (w, RError "invalid body" 400)
  | Some ev =>
    let '(w, t) := time_Now w in
    (Publish "orders.placed" (MkOrder (ProductID ev) (Quantity ev) t) w, RAccepted)
  end.
End Handlers.

(** ** gRPC service *)

Definition GetProduct (req : GetProductRequest) (w : world) : world * (option Product * option error) :=
  let '(w, r) := cache_Get (Get_ID req) w in
  match r with
  | Some p => (w, (Some p, None))
  | None =>
    let '(w, (p, err)) := Execute zero (fetchProductFromDB (Get_ID req)) w in
    match err with
    | Some e => (w, (None, Some e))
    | None => (cache_Set (ID p) p w, (Some p, None))
    end
  end.

Definition ListProducts (req : ListProductsRequest) : outcome (option ListProductsResponse * option error) :=
  let all := sampleProducts in
  let pageSize := PageSize req in
  let pageSize := if (pageSize <=? 0) || (pageSize >? Z.of_nat (length all)) then Z.of_nat (length all)
                  else pageSize in
  match mapM (λ i, all !! i) (seq 0 (Z.to_nat pageSize)) with
  | Some result => Ret (Some (MkListProductsResponse result ""), None)
  | None => Panic "index out of range"
  end.

(** [UnixNano]: nanoseconds since 1970, which is [unix_epoch] after year 1. *)
Definition unix_epoch : Time := 62135596800 * Second.
Definition UnixNano (t : Time) : Z := wrap64 (t - unix_epoch).

Definition PlaceOrder (Sprint : Z → string) (req : PlaceOrderRequest) (w : world)
    : world * (option PlaceOrderResponse * option error) :=
  let '(w, t) := time_Now w in
  let w := Publish "orders.placed" (MkOrder (Order_ProductID req) (Order_Quantity req) t) w in
  let '(w, t') := time_Now w in
  (w, (Some (MkPlaceOrderResponse ("ord-" +:+ Sprint (UnixNano t')) "accepted"), None)).

Definition productService (Sprint : Z → string) : ProductServiceServer world := {|
  ProductApi.GetProduct req w := let '(w, r) := GetProduct req w in (w, [], Ret r);
  ProductApi.ListProducts req w := (w, [], ListProducts req);
  ProductApi.PlaceOrder req w := let '(w, r) := PlaceOrder Sprint req w in (w, [], Ret r)
|}.

(** ** Health *)

Inductive checker := OrderPoolCheck | BreakerCheck.

(** [State] may move the breaker, so a probe changes the world. *)
Definition run_checker (c : checker) (w : world) : world * option error :=
  match c with
  | OrderPoolCheck =>
    (w, if 200 <? Z.of_nat (Pool.QueueDepth (Pool.get_Stats (pool w)))
        then Some (ErrFmt "order queue depth critical: %d" []) else None)
  | BreakerCheck =>
    let '(w, t) := time_Now w in
    let '(b, s) := Breaker.get_State t (breaker w) in
    (set_breaker b w, match s with
                      | Breaker.StateOpen => Some (ErrNew 81 "database circuit is open")
                      | _ => None
                      end)
  end.

Definition healthGroup : Health.Group :=
  Health.Register "circuit_breaker" BreakerCheck
    (Health.Register "order_pool" OrderPoolCheck (Health.New [Health.WithTimeout (3 * Second)])).

(** GET /healthz/ready: the two checks touch different components, so their
    outcomes do not depend on the order in which they finish. *)
Definition ready (err_text : error → string) (order : list nat) (w : world) : world * (Z * Health.Report) :=
  ((run_checker BreakerCheck w).1,
   Health.ReadyHandler (λ c, (run_checker c w).2) err_text order healthGroup).

(** One pass of the cache's janitor, started with the server. *)
Definition janitor (w : world) : world :=
  World (Cache.deleteExpired (λ i, clock w (reads w + i)) (cache w)) (breaker w) (pool w) (published w)
    (clock w) (reads w + length (Cache.lst (cache w))) (rnd w) (draws w).

(** ** The HTTP stack *)

Definition ipLimiter : RateLimit.KeyedLimiter string :=
  RateLimit.NewKeyed (of_int 100) 20 [RateLimit.WithKeyTTL (5 * Minute)].

(** [handler] of main with the limiter in state [lim] at the time of the
    request. *)
Definition http_handler (rnd : Http.Request → list Z) (now : Time) (lim : RateLimit.KeyedLimiter string)
    (mux : Http.Handler) : Http.Handler :=
  Middleware.Apply mux
    [Middleware.RequestID rnd; Middleware.Logging; Middleware.Recovery; Middleware.HTTPMetrics_Middleware;
     Middleware.Timeout (10 * Second);
     Middleware.RateLimit (λ r, (RateLimit.Keyed_Allow now (Http.RemoteAddr r) lim).2)].

(** ** Shutdown *)

Inductive action := ADeadline (d : Duration) | ACancel | ASchedulerStop | AGrpcStop | AHttpShutdown | APoolStop.

Definition does (acts : list action) (r : option error) : Graceful.ShutdownFunc (list action) :=
  λ tr, (tr ++ acts, r).

(** [http] is what [httpSrv.Shutdown] returns. *)
Definition shutdown_group (http : option error) : Graceful.Group (list action) :=
  Graceful.Register "order-pool" (does [APoolStop] None)
    (Graceful.Register "http-server" (does [AHttpShutdown] http)
      (Graceful.Register "grpc-server" (does [AGrpcStop] None)
        (Graceful.Register "scheduler" (does [ACancel; ASchedulerStop] None)
          (Graceful.New [Graceful.WithTimeout (15 * Second)])))).

(** ** The catalogue invariant *)

Definition in_catalog (e : Cache.entry string Product) : Prop :=
  Cache.value e ∈ sampleProducts ∧ Cache.key e = ID (Cache.value e).

Notation lru := (@Cache.Lru string Product).

Definition shop_op (o : @Cache.op string Product) : Prop :=
  match o with
  | Cache.OGet _ _ | Cache.OJanitor _ => True
  | Cache.OSet _ k p => p ∈ sampleProducts ∧ k = ID p
  | _ => False
  end.

(** Reads happen by [t1], writes not before [t0]. *)
Definition timed (t0 t1 : Time) (s : lru) (o : @Cache.op string Product) : Prop :=
  match o with
  | Cache.OGet now _ => now ≤ t1
  | Cache.OSet now _ _ => t0 ≤ now
  | Cache.OJanitor now => ∀ i, (i < length (Cache.entries s))%nat → now i ≤ t1
  | _ => True
  end.

Definition shop (s : lru) : Prop :=
  Cache.l_cap s = 512 ∧ Cache.l_ttl s = 5 * Minute ∧ Forall in_catalog (Cache.entries s).

(** Product [p] was put into the cache at [t0] or later. *)
Definition held (p : Product) (t0 : Time) (s : lru) : Prop :=
  ∃ e, Cache.find_key (ID p) (Cache.entries s) = Some e ∧ Cache.value e = p ∧
    t0 + 5 * Minute ≤ Cache.expiresAt e.

(** The cache holds nothing but the catalogue and the breaker keeps its
    configuration and its own invariant. *)
Record Inv (w : world) : Prop := {
  inv_wf : Cache.wf (cache w);
  inv_shop : shop (Cache.abs (cache w));
  inv_opts : Breaker.opts (breaker w) = Breaker.opts dbBreaker;
  inv_breaker : Breaker.Inv (breaker w)
}.

(** The whole catalogue was put into the cache at [t0] or later. *)
Definition warm (t0 : Time) (w : world) : Prop :=
  ∀ p, p ∈ sampleProducts → held p t0 (Cache.abs (cache w)).

Definition monotonic (clk : nat → Time) : Prop := ∀ i j, (i ≤ j)%nat → clk i ≤ clk j.

(** What every activity of the server does to the world: time goes on, the
    invariant is kept, and products stay cached for their five minutes. *)
Record ext (w w' : world) : Prop := {
  ext_clock : clock w' = clock w;
  ext_reads : (reads w ≤ reads w')%nat;
  ext_inv : Inv w → Inv w';
  ext_held p t0 : p ∈ sampleProducts → monotonic (clock w) → Inv w → t0 ≤ clock w (reads w) →
    clock w (reads w') ≤ t0 + 5 * Minute → held p t0 (Cache.abs (cache w)) → held p t0 (Cache.abs (cache w'))
}.

#[export] Instance ext_preorder : PreOrder ext.
Proof.
  split.
  - intros w. by constructor.
  - intros w1 w2 w3 [C1 R1 I1 W1] [C2 R2 I2 W2]. constructor; [congruence|lia|auto|].
    intros p t0 Hp Hm Hi Ht Hd Hw. rewrite C1 in W2.
    assert (clock w1 (reads w2) ≤ clock w1 (reads w3)) by (by apply Hm).
    assert (clock w1 (reads w1) ≤ clock w1 (reads w2)) by (by apply Hm).
    apply W2; [done|done|by apply I1|lia|done|]. apply W1; auto with lia.
Qed.

Lemma breaker_thresholds b : Breaker.opts b = Breaker.opts dbBreaker → Breaker.thresholds_ok (Breaker.opts b).
Proof. intros ->. by unfold Breaker.thresholds_ok, int64_max; simpl. Qed.

(** Activities that leave the cache alone. *)
Lemma ext_frame w w' :
  clock w' = clock w → (reads w ≤ reads w')%nat → cache w' = cache w →
  (Breaker.opts (breaker w) = Breaker.opts dbBreaker → Breaker.Inv (breaker w) →
   Breaker.opts (breaker w') = Breaker.opts dbBreaker ∧ Breaker.Inv (breaker w')) →
  ext w w'.
Proof.
  intros Hc Hr Hca Hb. constructor; [done|done| |].
  - intros [????]. destruct Hb; [done|done|]. constructor; by rewrite ?Hca.
  - by rewrite Hca.
Qed.

Lemma product_ids : NoDup (ID <$> sampleProducts).
Proof. by apply (bool_decide_unpack _); vm_compute. Qed.

Lemma in_catalog_eq e p : in_catalog e → p ∈ sampleProducts → Cache.key e = ID p → Cache.value e = p.
Proof.
  intros [Hv Hk] Hp He. rewrite Hk in He. by apply (NoDup_fmap_inj ID _ _ _ product_ids).
Qed.

(** *** The cache operations of the server, on the abstract cache *)

Lemma shop_drop (P : Cache.entry string Product → Prop) k l : Forall P l → Forall P (Cache.drop_key k l).
Proof. apply Cache.Forall_drop_key. Qed.

Lemma shop_find k l e : Forall in_catalog l → Cache.find_key k l = Some e → in_catalog e.
Proof. intros HF Hf. apply Cache.find_key_Some in Hf as [Hin _]. by eapply Forall_forall in Hin. Qed.

Lemma shop_lru o s : shop_op o → shop s → shop (Cache.lru_op o s).1.
Proof.
  unfold shop. intros Ho (Hc & Ht & HF). destruct o as [now k|now k p|k| | | |now]; simpl in Ho; try done; simpl.
  - destruct (Cache.find_key k _) as [e|] eqn:E; [|done].
    destruct (Cache.isExpired now e); simpl; eauto 6 using shop_drop, shop_find, Forall_cons_2.
  - destruct Ho as [Hp ->].
    assert (in_catalog (Cache.Entry (ID p) p (Cache.newExpiry now (Cache.l_ttl s)))) by done.
    destruct (Cache.find_key (ID p) _) as [e|] eqn:E; simpl; [eauto using shop_drop, Forall_cons_2|].
    case_match; simpl; split_and!; try done; constructor; try done. unfold Cache.drop_last. by apply Forall_take.
  - case_match; simpl; [done|]. split_and!; try done.
    eapply Forall_sublist; [apply Cache.sweep_sublist|exact HF].
Qed.

Lemma shop_small s : shop s → Cache.lru_ok s → (length (Cache.entries s) ≤ 5)%nat.
Proof.
  intros (_ & _ & HF) (Hnd & _). rewrite <-(length_fmap Cache.key).
  change 5%nat with (length (ID <$> sampleProducts)). apply submseteq_length, NoDup_submseteq; [done|].
  intros k Hk. apply list_elem_of_fmap in Hk as (e & -> & He). rewrite Forall_forall in HF.
  destruct (HF e He) as [Hv ->]. by apply list_elem_of_fmap_2.
Qed.

Lemma fresh_not_expired now t1 (e : Cache.entry string Product) :
  now ≤ t1 → t1 ≤ Cache.expiresAt e → Cache.isExpired now e = false.
Proof. intros. unfold Cache.isExpired, After. destruct (Z.ltb_spec (Cache.expiresAt e) now); [lia|]. apply andb_false_r. Qed.

Lemma held_lru o s p t0 :
  p ∈ sampleProducts → shop_op o → shop s → Cache.lru_ok s → timed t0 (t0 + 5 * Minute) s o → held p t0 s →
  held p t0 (Cache.lru_op o s).1.
Proof.
  intros Hp Ho Hs Hok Ht (e & He & Hv & Hx). unfold held.
  pose proof (shop_small s Hs Hok) as Hlen. destruct Hs as (Hc & Httl & HF).
  destruct o as [now k|now k q|k| | | |now]; simpl in Ho, Ht; try done; simpl.
  - destruct (Cache.find_key k _) as [e'|] eqn:E; [|by eauto].
    destruct (Cache.find_key_Some _ _ _ E) as [_ Hk].
    destruct (decide (ID p = k)) as [<-|Hne].
    + rewrite He in E. injection E as <-. rewrite (fresh_not_expired now (t0 + 5 * Minute)) by done.
      simpl. rewrite Cache.find_key_cons. case_decide; [by eauto|done].
    + exists e. split; [|done]. destruct (Cache.isExpired now e'); simpl.
      * rewrite Cache.find_key_drop. by case_decide.
      * rewrite Cache.find_key_cons, Cache.find_key_drop. repeat case_decide; congruence.
  - destruct Ho as [Hq ->]. rewrite Httl.
    set (e' := Cache.Entry (ID q) q (Cache.newExpiry now (5 * Minute))).
    assert (Hroom : (Z.of_nat (length (Cache.entries s)) >=? Cache.l_cap s) = false) by (zbool; lia).
    destruct (Cache.find_key (ID q) _) as [e2|] eqn:E; simpl; rewrite ?Hroom; simpl;
      rewrite Cache.find_key_cons, ?Cache.find_key_drop; simpl;
      (destruct (decide (ID q = ID p)) as [Heq|Hne];
        [|exists e; repeat case_decide; try congruence; done]);
      (exists e'; split_and!; [done|by eapply (in_catalog_eq e')|]); simpl;
      unfold Cache.newExpiry, Add; simpl; unfold Minute, Second in *; lia.
  - rewrite Httl. simpl. exists e. split; [|done]. apply Cache.find_key_sweep; [done|].
    intros i Hi. apply (fresh_not_expired _ (t0 + 5 * Minute)); auto.
Qed.

(** *** Every activity of the server extends the world *)

Lemma ext_cache o w w' :
  clock w' = clock w → (reads w ≤ reads w')%nat → breaker w' = breaker w →
  cache w' = (Cache.run_op o (cache w)).1 → shop_op o →
  (∀ t0 t1, monotonic (clock w) → Inv w → t0 ≤ clock w (reads w) → clock w (reads w') ≤ t1 →
     timed t0 t1 (Cache.abs (cache w)) o) →
  ext w w'.
Proof.
  intros Hc Hr Hb Hca Ho Ht. constructor; [done|done| |].
  - intros [Hwf Hs ??]. destruct (Cache.run_op_refines o (cache w) Hwf) as (? & Ha & _).
    constructor; rewrite ?Hca, ?Hb; [done| |done|done]. rewrite Ha. by apply shop_lru.
  - intros p t0 Hp Hm Hi Ht0 Hd Hw. pose proof (inv_wf _ Hi) as Hwf.
    destruct (Cache.run_op_refines o (cache w) Hwf) as (? & Ha & _).
    rewrite Hca, Ha. apply held_lru; auto using Cache.wf_lru_ok. apply Hi.
Qed.

Lemma ext_time_Now w : ext w (time_Now w).1.
Proof. apply ext_frame; simpl; auto. Qed.

Lemma ext_rand w : ext w (rand_low w).1.
Proof. apply ext_frame; simpl; auto. Qed.

Lemma ext_Publish t ev w : ext w (Publish t ev w).
Proof. apply ext_frame; simpl; auto. Qed.

Lemma ext_set_breaker b w :
  (Breaker.opts (breaker w) = Breaker.opts dbBreaker → Breaker.Inv (breaker w) →
   Breaker.opts b = Breaker.opts dbBreaker ∧ Breaker.Inv b) → ext w (set_breaker b w).
Proof. intros. by apply ext_frame. Qed.

Lemma ext_cache_Get id w : ext w (cache_Get id w).1.
Proof.
  unfold cache_Get. simpl. destruct (Cache.Get (clock w (reads w)) id (cache w)) as [c r] eqn:E. simpl.
  apply (ext_cache (Cache.OGet (clock w (reads w)) id)); simpl; try done; [lia|by rewrite E|].
  intros t0 t1 Hm _ _ Hd. etrans; [apply Hm|exact Hd]. lia.
Qed.

Lemma ext_cache_Set p w : p ∈ sampleProducts → ext w (cache_Set (ID p) p w).
Proof.
  intros Hp. apply (ext_cache (Cache.OSet (clock w (reads w)) (ID p) p)); simpl; try done. lia.
Qed.

Lemma ext_janitor w : ext w (janitor w).
Proof.
  apply (ext_cache (Cache.OJanitor (λ i, clock w (reads w + i)))); simpl; try done; [lia|].
  intros t0 t1 Hm Hi _ Hd i Hlt. pose proof (Cache.abs_length _ (inv_wf _ Hi)) as Hl. simpl in Hl.
  etrans; [apply Hm|exact Hd]. lia.
Qed.

Lemma ext_fetch id w : ext w (fetchProductFromDB id w).1.
Proof. unfold fetchProductFromDB. pose proof (ext_rand w). destruct (rand_low w) as [w' []]; done. Qed.

Lemma ext_Execute {T} (z : T) fn w : (∀ w, ext w (fn w).1) → ext w (Execute z fn w).1.
Proof.
  intros Hfn. unfold Execute. pose proof (ext_time_Now w) as H1. destruct (time_Now w) as [w1 t1]. simpl in H1.
  destruct (Breaker.allow t1 (breaker w1)) as [b r] eqn:Ha.
  assert (H2 : ext w1 (set_breaker b w1)).
  { apply ext_set_breaker. intros Ho Hi. pose proof (Breaker.fst_allow t1 (breaker w1)) as Hf.
    rewrite Ha in Hf. simpl in Hf. subst b. rewrite Breaker.opts_maybe. split; [done|].
    apply Breaker.Inv_maybe; [by apply breaker_thresholds|done]. }
  destruct r as [e|]; [by etrans|].
  specialize (Hfn (set_breaker b w1)). destruct (fn (set_breaker b w1)) as [w2 [v err]]. simpl in Hfn.
  pose proof (ext_time_Now w2) as H3. destruct (time_Now w2) as [w3 t2]. simpl in H3.
  assert (ext w3 (set_breaker (Breaker.record t2 err (breaker w3)) w3)); [|by repeat (etrans; [eassumption|])].
  apply ext_set_breaker. intros Ho Hi. rewrite Breaker.opts_record. split; [done|].
  apply Breaker.Inv_record; [by apply breaker_thresholds|done].
Qed.

Lemma ext_lookup id w : ext w (lookup_product id w).1.
Proof.
  unfold lookup_product. pose proof (ext_cache_Get id w) as H1. destruct (cache_Get id w) as [w1 [p|]]; [done|].
  etrans; [exact H1|]. apply ext_Execute, ext_fetch.
Qed.

Lemma ext_sets ps w :
  Forall (λ p, p ∈ sampleProducts) ps → ext w (fold_left (λ w p, cache_Set (ID p) p w) ps w).
Proof.
  intros HF. revert w. induction HF as [|p ps Hp _ IH]; intros w; simpl; [done|].
  etrans; [by apply ext_cache_Set|apply IH].
Qed.

Lemma ext_warmup w : ext w (warmup w).
Proof. apply ext_sets. by apply Forall_forall. Qed.

Lemma Set_held p w : p ∈ sampleProducts → Inv w →
  held p (clock w (reads w)) (Cache.abs (cache (cache_Set (ID p) p w))).
Proof.
  intros Hp Hi. destruct (Cache.run_op_refines (Cache.OSet (clock w (reads w)) (ID p) p) (cache w) (inv_wf _ Hi))
    as (_ & Ha & _).
  change (cache (cache_Set (ID p) p w)) with
    (Cache.run_op (Cache.OSet (clock w (reads w)) (ID p) p) (cache w)).1.
  rewrite Ha. destruct (inv_shop _ Hi) as (Hc & Httl & _).
  exists (Cache.Entry (ID p) p (Cache.newExpiry (clock w (reads w)) (5 * Minute))). split_and!; [|done|done].
  cbn [Cache.lru_op]. rewrite Httl. repeat case_match; simpl; rewrite Cache.find_key_cons; simpl; by case_decide.
Qed.

Lemma sets_held ps w t0 p :
  Forall (λ p, p ∈ sampleProducts) ps → p ∈ ps → monotonic (clock w) → Inv w → t0 ≤ clock w (reads w) →
  let w' := fold_left (λ w p, cache_Set (ID p) p w) ps w in
  clock w (reads w') ≤ t0 + 5 * Minute → held p t0 (Cache.abs (cache w')).
Proof.
  intros HF. revert w. induction HF as [|q ps Hq HF IH]; intros w; simpl; [by intros ?%not_elem_of_nil|].
  intros Hin Hm Hi Ht Hd. pose proof (ext_cache_Set q w Hq) as He.
  set (w1 := cache_Set (ID q) q w) in *.
  assert (Hm1 : monotonic (clock w1)) by done.
  assert (Ht1 : t0 ≤ clock w1 (reads w1)).
  { etrans; [exact Ht|]. apply Hm. apply (ext_reads _ _ He). }
  apply elem_of_cons in Hin as [->|Hin].
  - destruct (ext_sets ps w1 HF) as [_ _ _ Hh]. apply (Hh q t0); [done|done|by apply (ext_inv _ _ He)|done|done|].
    destruct (Set_held q w Hq Hi) as (e & ? & ? & ?). exists e. split_and!; [done|done|lia].
  - apply IH; [done|done|by apply (ext_inv _ _ He)|done|done].
Qed.

Lemma warmup_warm w :
  monotonic (clock w) → Inv w → clock w (reads (warmup w)) ≤ clock w (reads w) + 5 * Minute →
  warm (clock w (reads w)) (warmup w).
Proof. intros Hm Hi Hd p Hp. apply sets_held; try done. by apply Forall_forall. Qed.

(** *** Runs *)

(** What can happen to a running server: the requests it serves, and its
    background jobs. *)
Inductive op :=
| OpGet (id : string) | OpOrder (body : option OrderEvent) | OpRpcGet (req : GetProductRequest)
| OpPlace (req : PlaceOrderRequest) | OpReady | OpWarmup | OpJanitor.

Section Requests.
Context (ctx_Err : world → option error) (contextSleep : Duration → world → world * option error)
  (rand_N : Duration → world → world * Duration) (Pow : float64 → float64 → float64) (oob : float64 → Z)
  (Sprint : Z → string).

Notation GET := (GET_product ctx_Err contextSleep rand_N Pow oob).

Definition run_op (w : world) (o : op) : world :=
  match o with
  | OpGet id => (GET id w).1
  | OpOrder body => (POST_orders body w).1
  | OpRpcGet req => (GetProduct req w).1
  | OpPlace req => (PlaceOrder Sprint req w).1
  | OpReady => (ready (λ _, "") [0; 1]%nat w).1
  | OpWarmup => warmup w
  | OpJanitor => janitor w
  end.

Definition run_ops (os : list op) (w : world) : world := fold_left run_op os w.

Definition get_options : Retry.options world := Retry.Options 3 (get_backoff rand_N Pow oob) None contextSleep.

(** The answer to the result of the retry loop. *)
Definition get_response (r : Product * option error) : response :=
  match r.2 with
  | Some e => if errors_Is (Some e) 80 then RError "product not found" 404 else RError "internal error" 500
  | None => RProduct r.1
  end.

Lemma GET_eq id w :
  GET id w = let '(w', r) := Retry.Do_loop zero ctx_Err (lookup_product id) get_options 3 0 None w in
             (w', Ret (get_response r)).
Proof.
  unfold GET_product. change (Retry.WithMaxAttempts 3) with
    (Ret (λ o : Retry.options world, Retry.Options 3 (Retry.backoff o) (Retry.onRetry o) (Retry.sleep o))).
  cbv beta iota. unfold Retry.Do. change (fold_left _ _ _) with get_options.
  change (Z.to_nat _) with 3%nat. by destruct (Retry.Do_loop _ _ _ _ _ _ _ _) as [w' [p err]].
Qed.

(** An attempt either finds the product of that name, or fails because the
    database does not have it or because the breaker is open. *)
Lemma lookup_result id w w' p err :
  lookup_product id w = (w', (p, err)) → Inv w →
  match err with
  | None => p ∈ sampleProducts ∧ ID p = id
  | Some e => ∃ fmt args s, e = ErrWrap fmt args s ∧ (s = ErrNotFound ∨ s = Breaker.ErrOpen)
  end.
Proof.
  unfold lookup_product, cache_Get. simpl. intros Hl Hi.
  destruct (Cache.Get_refines (clock w (reads w)) id (cache w) (inv_wf _ Hi)) as (_ & _ & Hr).
  destruct (Cache.Get (clock w (reads w)) id (cache w)) as [c [q|]] eqn:E; simpl in Hr, Hl.
  - simplify_eq. destruct (Cache.find_key id _) as [e|] eqn:Ef; [|done].
    destruct (Cache.isExpired _ e); simplify_eq/=.
    destruct (Cache.find_key_Some _ _ _ Ef) as [Hin <-]. destruct (inv_shop _ Hi) as (_ & _ & HF).
    rewrite Forall_forall in HF. by destruct (HF e Hin).
  - clear Hr. unfold Execute in Hl. simpl in Hl.
    destruct (Breaker.allow _ _) as [b [e|]] eqn:Ha.
    + simplify_eq/=. unfold Breaker.allow in Ha. case_match; simplify_eq. eexists _, _, _; split; [done|by auto].
    + unfold fetchProductFromDB in Hl. simpl in Hl. destruct (rnd w (draws w)); simplify_eq/=; (eexists _, _, _; split; [done|by auto]).
Qed.

Lemma lookup_not_stop e fmt args s :
  e = ErrWrap fmt args s → s = ErrNotFound ∨ s = Breaker.ErrOpen → Retry.as_stop e = None.
Proof. by intros -> [->| ->]. Qed.

(** A hit: the breaker is not consulted. *)
Lemma lookup_hit p t0 w :
  p ∈ sampleProducts → Inv w → held p t0 (Cache.abs (cache w)) → clock w (reads w) ≤ t0 + 5 * Minute →
  ∃ w', lookup_product (ID p) w = (w', (p, None)) ∧ breaker w' = breaker w ∧ published w' = published w.
Proof.
  intros Hp Hi (e & He & Hv & Hx) Ht. unfold lookup_product, cache_Get. simpl.
  destruct (Cache.Get_refines (clock w (reads w)) (ID p) (cache w) (inv_wf _ Hi)) as (_ & _ & Hr).
  simpl in Hr. simpl in He. rewrite He, (fresh_not_expired _ (t0 + 5 * Minute)) in Hr by done. simpl in Hr.
  destruct (Cache.Get _ _ _) as [c r]. simpl in *. simplify_eq. by eexists.
Qed.

Lemma GET_hit p t0 w :
  p ∈ sampleProducts → Inv w → held p t0 (Cache.abs (cache w)) → clock w (reads w) ≤ t0 + 5 * Minute → ctx_Err w = None →
  (GET (ID p) w).2 = Ret (RProduct p) ∧ breaker (GET (ID p) w).1 = breaker w.
Proof.
  intros Hp Hi Hh Ht Hctx. destruct (lookup_hit p t0 w Hp Hi Hh Ht) as (w' & Hl & Hb & _).
  rewrite GET_eq. cbn [Retry.Do_loop]. by rewrite Hctx, Hl.
Qed.

(** Other requests may run while this one sleeps between attempts. *)
Context (sleep_ext : ∀ d w, ext w (contextSleep d w).1) (rand_ext : ∀ n w, ext w (rand_N n w).1).

Lemma ext_backoff a w : ext w (get_backoff rand_N Pow oob a w).1.
Proof.
  unfold get_backoff, Backoff.WithJitter, Backoff.Jitter_Next, Backoff.Exponential_Next. simpl.
  case_match; [done|apply rand_ext].
Qed.

Lemma GET_spec id w : ∃ w' r,
  GET id w = (w', Ret r) ∧ ext w w' ∧
  (Inv w → match r with
           | RProduct p => p ∈ sampleProducts ∧ ID p = id
           | RError _ code => code = 404 ∨ code = 500
           | RAccepted => False
           end).
Proof.
  rewrite GET_eq.
  destruct (Retry.Do_loop_relates zero ctx_Err (lookup_product id) ext get_options
    (ext_lookup id) ext_backoff (ltac:(done)) sleep_ext 3 0 None w) as (w' & p & err & -> & He & Hok).
  eexists w', _. split_and!; [done|done|]. intros Hi. unfold get_response. cbn [fst snd]. destruct err as [e|].
  - by destruct (errors_Is _ _); auto.
  - destruct (Hok eq_refl) as (w1 & r1 & e1 & Hw1 & Hfn & Hm).
    pose proof (lookup_result _ _ _ _ _ Hfn (ext_inv _ _ Hw1 Hi)) as Hr.
    destruct e1 as [e|]; [|by subst]. destruct Hr as (fmt & args & s & Hs & Hor).
    by rewrite (lookup_not_stop _ _ _ _ Hs Hor) in Hm.
Qed.

Lemma GetProduct_spec req w : ∃ w' p err,
  GetProduct req w = (w', (p, err)) ∧ ext w w' ∧
  (Inv w → match p, err with
           | Some p, None => p ∈ sampleProducts ∧ ID p = Get_ID req
           | None, Some e => ∃ fmt args s, e = ErrWrap fmt args s ∧ (s = ErrNotFound ∨ s = Breaker.ErrOpen)
           | _, _ => False
           end).
Proof.
  assert (Hl : GetProduct req w =
    let '(w', (p, err)) := lookup_product (Get_ID req) w in
    match err with Some e => (w', (None, Some e)) | None => (w', (Some p, None)) end).
  { unfold GetProduct, lookup_product. destruct (cache_Get (Get_ID req) w) as [w1 [p|]]; [done|].
    unfold Execute, fetchProductFromDB. simpl. repeat case_match; by simplify_eq. }
  rewrite Hl. pose proof (ext_lookup (Get_ID req) w) as He.
  pose proof (lookup_result (Get_ID req) w) as Hr.
  destruct (lookup_product (Get_ID req) w) as [w' [p err]]. simpl in He. specialize (Hr _ _ _ eq_refl).
  destruct err as [e|]; by eexists w', _, _.
Qed.

Lemma ext_op o w : ext w (run_op w o).
Proof.
  destruct o as [id|body|req|req| | |]; simpl.
  - by destruct (GET_spec id w) as (w' & r & -> & ? & _).
  - destruct body as [ev|]; simpl; [|done]. etrans; [apply (ext_time_Now w)|apply ext_Publish].
  - by destruct (GetProduct_spec req w) as (w' & p & err & -> & ? & _).
  - apply ext_frame; simpl; auto.
  - etrans; [apply (ext_time_Now w)|]. apply (ext_set_breaker _ (time_Now w).1). intros Ho Hi.
    cbn [Breaker.get_State fst]. rewrite Breaker.opts_maybe. split; [done|].
    apply Breaker.Inv_maybe; [by apply breaker_thresholds|done].
  - apply ext_warmup.
  - apply ext_janitor.
Qed.

Lemma ext_ops os w : ext w (run_ops os w).
Proof.
  revert w. induction os as [|o os IH]; intros w; simpl; [done|]. etrans; [apply ext_op|apply IH].
Qed.

End Requests.

(** Nothing outside the catalogue is ever in the cache. *)
Lemma missing_item w id : Inv w → id ∉ ID <$> sampleProducts → Cache.items (cache w) !! id = None.
Proof.
  intros Hi Hid. destruct (Cache.items (cache w) !! id) as [el|] eqn:E; [|done]. exfalso. apply Hid.
  destruct (Cache.wf_items _ (inv_wf _ Hi) id el E) as (Hel & e & He & <-).
  destruct (inv_shop _ Hi) as (_ & _ & HF). rewrite Forall_forall in HF. destruct (HF e) as [Hv ->].
  - apply list_elem_of_omap. by exists el.
  - by apply list_elem_of_fmap_2.
Qed.

(** The service before main fills the cache. *)
Lemma built_inv clk r c : productCache = Ret c → Inv (World c dbBreaker Pool.init [] clk 0 r 0).
Proof.
  intros Hc. assert (Hn : Cache.New 512 [Cache.WithTTL (5 * Minute)] = Ret c) by exact Hc.
  destruct (Cache.New_wf 512 [Cache.WithTTL (5 * Minute)] c Hn) as (? & ? & He & _).
  { repeat constructor. by eexists. }
  injection Hn as <-. by constructor.
Qed.

Lemma start_inv clk r w : start clk r = Ret w → Inv w ∧ clock w = clk.
Proof.
  unfold start. destruct productCache as [c|] eqn:Hc; [|done]. intros [= <-]. pose proof (built_inv clk r c Hc) as Hi.
  split; [|by rewrite (ext_clock _ _ (ext_warmup _))]. by apply (ext_inv _ _ (ext_warmup _)).
Qed.

Lemma start_warm clk r w : start clk r = Ret w → monotonic clk → clk (reads w) ≤ clk 0%nat + 5 * Minute → warm (clk 0%nat) w.
Proof.
  unfold start. destruct productCache as [c|] eqn:Hc; [|done]. intros [= <-] Hm Hd.
  apply (warmup_warm (World c dbBreaker Pool.init [] clk 0 r 0)); [done|by apply built_inv|done].
Qed.

(** *** Products that do not exist *)

Definition closed_at (f : Z) (b : Breaker.Breaker) : Prop :=
  Breaker.state b = Breaker.StateClosed ∧ Breaker.failures b = f.
Definition open_since (t : Time) (b : Breaker.Breaker) : Prop :=
  Breaker.state b = Breaker.StateOpen ∧ Breaker.openedAt b = t.

(** The result of one attempt on a product that does not exist. *)
Definition attempt_fails (id : string) (w w' : world) (notfound : bool) : Prop :=
  ∃ e, lookup_product id w = (w', (zero, Some e)) ∧ Retry.as_stop e = None ∧
       errors_Is (Some e) 80 = notfound ∧ Inv w' ∧ clock w' = clock w.

Lemma miss_Get id w : Inv w → id ∉ ID <$> sampleProducts → ∃ w1,
  cache_Get id w = (w1, None) ∧ Inv w1 ∧ breaker w1 = breaker w ∧ clock w1 = clock w ∧ reads w1 = S (reads w).
Proof.
  intros Hi Hid. pose proof (ext_inv _ _ (ext_cache_Get id w) Hi) as Hi1.
  unfold cache_Get, Cache.Get in *. simpl in *. rewrite (missing_item w id Hi Hid) in *. by eexists.
Qed.

Lemma attempt_closed id w f :
  Inv w → id ∉ ID <$> sampleProducts → closed_at f (breaker w) → 0 ≤ f < 5 →
  ∃ w', attempt_fails id w w' true ∧ reads w' = (reads w + 3)%nat ∧
    if f <? 4 then closed_at (f + 1) (breaker w') else open_since (clock w (reads w + 2)%nat) (breaker w').
Proof.
  intros Hi Hid [Hs Hf] Hr. pose proof (ext_inv _ _ (ext_lookup id w) Hi) as Hi'.
  destruct (miss_Get id w Hi Hid) as (w1 & Hg & Hi1 & Hb1 & Hc1 & Hr1).
  unfold attempt_fails, lookup_product in *. rewrite Hg in *. unfold Execute in *. simpl in Hi' |- *.
  rewrite Hb1, Breaker.admitted_allow in * by congruence. rewrite Hc1, Hr1 in *.
  assert (Hrec : ∀ e, if f <? 4 then closed_at (f + 1) (Breaker.record (clock w (reads w + 2)%nat) (Some e) (breaker w))
            else open_since (clock w (reads w + 2)%nat) (Breaker.record (clock w (reads w + 2)%nat) (Some e) (breaker w))).
  { intros e. unfold closed_at, open_since, Breaker.record. rewrite Hs. simpl.
    rewrite (inv_opts _ Hi), Hf, wrap64_id by (unfold is_int64, int64_min, int64_max; lia). simpl.
    destruct (Z.ltb_spec f 4), (Z.geb_spec (f + 1) 5); try lia; simpl; rewrite ?Hs; [done|].
    by rewrite Breaker.state_transition, Breaker.openedAt_transition. }
  replace (reads w + 2)%nat with (S (S (reads w))) in * by lia.
  unfold fetchProductFromDB in *. simpl in Hi' |- *.
  destruct (rnd w1 (draws w1)); simpl in Hi' |- *; rewrite ?Hb1, ?Hc1, ?Hr1 in *;
    (eexists; split_and!; [eexists; split_and!; [done|done|done|done|done]|simpl; lia|apply Hrec]).
Qed.

Lemma attempt_open id w t :
  Inv w → id ∉ ID <$> sampleProducts → open_since t (breaker w) →
  clock w (S (reads w)) - t < 30 * Second →
  ∃ w', attempt_fails id w w' false ∧ reads w' = (reads w + 2)%nat ∧ open_since t (breaker w').
Proof.
  intros Hi Hid [Hs Ht] Hd. pose proof (ext_inv _ _ (ext_lookup id w) Hi) as Hi'.
  destruct (miss_Get id w Hi Hid) as (w1 & Hg & Hi1 & Hb1 & Hc1 & Hr1).
  unfold attempt_fails, lookup_product in *. rewrite Hg in *. unfold Execute in *. simpl in Hi' |- *.
  rewrite Hb1, Hc1, Hr1 in *.
  assert (Ha : Breaker.allow (clock w (S (reads w))) (breaker w)
    = (breaker w, Some (ErrWrap "%w (will retry after %s)" [] Breaker.ErrOpen))).
  { destruct (Breaker.open_run_call (Breaker.CallAllow (clock w (S (reads w)))) (breaker w) Hs) as [H1 H2].
    - rewrite (inv_opts _ Hi), Ht. simpl. unfold Sub, int64_min, int64_max, Second in *. lia.
    - simpl in H1, H2. destruct (Breaker.allow _ _) as [b r]. simpl in *. congruence. }
  rewrite Ha in *. simpl in Hi' |- *.
  eexists. split_and!; [eexists; split_and!; [done|done|done|done|done]|simpl; lia|done].
Qed.

(** A request with nobody else at work: its context stays live and the world
    does not change while it sleeps. *)
Section Alone.
Context (ctx_Err : world → option error) (contextSleep : Duration → world → world * option error)
  (rand_N : Duration → world → world * Duration) (Pow : float64 → float64 → float64) (oob : float64 → Z)
  (ctx_live : ∀ w, ctx_Err w = None) (sleep_alone : ∀ d w, contextSleep d w = (w, None))
  (rand_alone : ∀ n w, (rand_N n w).1 = w).

Notation GET := (GET_product ctx_Err contextSleep rand_N Pow oob).
Notation loop id := (Retry.Do_loop zero ctx_Err (lookup_product id) (get_options contextSleep rand_N Pow oob)).

Lemma loop_fails id n a last w w' e :
  lookup_product id w = (w', (zero, Some e)) → Retry.as_stop e = None →
  loop id (S n) a last w = loop id n (a + 1) (Some e) w'.
Proof.
  intros Hl Hs. cbn [Retry.Do_loop]. rewrite ctx_live, Hl, Hs. cbn [get_options Retry.maxAttempts Retry.onRetry
    Retry.backoff Retry.sleep].
  destruct (a <? 3 - 1); [|done].
  assert (Hb : ∃ d, get_backoff rand_N Pow oob a w' = (w', d)).
  { unfold get_backoff, Backoff.WithJitter, Backoff.Jitter_Next, Backoff.Exponential_Next. simpl.
    case_match; [by eexists|]. match goal with |- context [rand_N ?x w'] => specialize (rand_alone x w') end.
    destruct (rand_N _ w') as [w'' d]. simpl in rand_alone. subst. by eexists. }
  destruct Hb as [d ->]. destruct (0 <? d); [|done]. by rewrite sleep_alone.
Qed.

(** Three failed attempts: the last one decides between 404 and 500. *)
Lemma GET_fails id w w1 w2 w3 b1 b2 b3 :
  attempt_fails id w w1 b1 → attempt_fails id w1 w2 b2 → attempt_fails id w2 w3 b3 →
  GET id w = (w3, Ret (if b3 then RError "product not found" 404 else RError "internal error" 500)).
Proof.
  intros (e1 & H1 & S1 & _) (e2 & H2 & S2 & _) (e3 & H3 & S3 & Hb & _).
  rewrite GET_eq, (loop_fails _ _ _ _ _ _ _ H1 S1), (loop_fails _ _ _ _ _ _ _ H2 S2),
    (loop_fails _ _ _ _ _ _ _ H3 S3).
  cbn [Retry.Do_loop]. unfold get_response. cbn [fst snd].
  replace (errors_Is (Some (ErrMaxAttempts _ (Some e3))) 80) with b3 by (by rewrite <-Hb).
  by destruct b3.
Qed.

(** All readings up to the [n]-th lie within the breaker's timeout. *)
Definition brisk (clk : nat → Time) (n : nat) : Prop := ∀ i j, (i < n)%nat → (j < n)%nat → clk j - clk i < 30 * Second.

Lemma GET_open id w t n :
  Inv w → id ∉ ID <$> sampleProducts → brisk (clock w) n → (reads w + 6 ≤ n)%nat →
  (∃ i, (i < n)%nat ∧ t = clock w i) → open_since t (breaker w) →
  ∃ w', GET id w = (w', Ret (RError "internal error" 500)) ∧ Inv w' ∧ open_since t (breaker w').
Proof.
  intros Hi Hid Hb Hn (i & Hin & ->) Ho.
  destruct (attempt_open id w _ Hi Hid Ho) as (w1 & A1 & R1 & O1); [apply Hb; lia|].
  pose proof A1 as (_ & _ & _ & _ & I1 & C1).
  destruct (attempt_open id w1 _ I1 Hid O1) as (w2 & A2 & R2 & O2); [rewrite C1; apply Hb; lia|].
  pose proof A2 as (_ & _ & _ & _ & I2 & C2).
  destruct (attempt_open id w2 _ I2 Hid O2) as (w3 & A3 & R3 & O3); [rewrite C2, C1; apply Hb; lia|].
  pose proof A3 as (_ & _ & _ & _ & I3 & C3).
  exists w3. by rewrite (GET_fails id w w1 w2 w3 false false false).
Qed.

(** A closed breaker with [f] failures in a row. *)
Lemma GET_closed id w f n :
  Inv w → id ∉ ID <$> sampleProducts → brisk (clock w) n → (reads w + 9 ≤ n)%nat →
  closed_at f (breaker w) → 0 ≤ f < 5 →
  ∃ w', GET id w = (w', Ret (if f <? 3 then RError "product not found" 404 else RError "internal error" 500)) ∧
    Inv w' ∧ clock w' = clock w ∧ (reads w' ≤ reads w + 9)%nat ∧
    if f <? 2 then closed_at (f + 3) (breaker w')
    else ∃ i, (i < n)%nat ∧ open_since (clock w i) (breaker w').
Proof.
  intros Hi Hid Hb Hn Hc Hf.
  destruct (attempt_closed id w f Hi Hid Hc Hf) as (w1 & A1 & R1 & P1).
  pose proof A1 as (_ & _ & _ & _ & I1 & C1).
  assert (Hnext : ∃ w2 b2, attempt_fails id w1 w2 b2 ∧ (reads w2 ≤ reads w1 + 3)%nat ∧
    if f <? 3 then closed_at (f + 2) (breaker w2) else ∃ i, (i < n)%nat ∧ open_since (clock w i) (breaker w2)).
  { destruct (Z.ltb_spec f 4).
    - destruct (attempt_closed id w1 (f + 1) I1 Hid P1) as (w2 & A2 & R2 & P2); [lia|].
      exists w2, true. split_and!; [done|lia|].
      destruct (Z.ltb_spec (f + 1) 4), (Z.ltb_spec f 3); try lia.
      + by replace (f + 2) with (f + 1 + 1) by lia.
      + rewrite C1 in P2. eexists. split; [|exact P2]. lia.
    - destruct (attempt_open id w1 _ I1 Hid P1) as (w2 & A2 & R2 & P2); [rewrite C1; apply Hb; lia|].
      exists w2, false. split_and!; [done|lia|]. destruct (Z.ltb_spec f 3); [lia|].
      eexists. split; [|exact P2]. lia. }
  destruct Hnext as (w2 & b2 & A2 & R2 & P2). pose proof A2 as (_ & _ & _ & _ & I2 & C2).
  destruct (Z.ltb_spec f 3).
  - destruct (attempt_closed id w2 (f + 2) I2 Hid P2) as (w3 & A3 & R3 & P3); [lia|].
    pose proof A3 as (_ & _ & _ & _ & I3 & C3).
    exists w3. rewrite (GET_fails id w w1 w2 w3 true b2 true) by done.
    split_and!; [done|done|congruence|lia|].
    destruct (Z.ltb_spec f 2), (Z.ltb_spec (f + 2) 4); try lia.
    + by replace (f + 3) with (f + 2 + 1) by lia.
    + rewrite C2, C1 in P3. eexists. split; [|exact P3]. lia.
  - destruct P2 as (i & Hin & P2).
    destruct (attempt_open id w2 _ I2 Hid P2) as (w3 & A3 & R3 & P3); [rewrite C2, C1; apply Hb; lia|].
    pose proof A3 as (_ & _ & _ & _ & I3 & C3).
    exists w3. rewrite (GET_fails id w w1 w2 w3 true b2 false) by done.
    split_and!; [done|done|congruence|lia|]. destruct (Z.ltb_spec f 2); [lia|]. by exists i.
Qed.

(** The readiness probe while the breaker is open. *)
Lemma ready_open err_text w t :
  Inv w → open_since t (breaker w) → clock w (reads w) - t < 30 * Second →
  (ready err_text [0; 1]%nat w).2.1 = 503.
Proof.
  intros Hi [Hs Ht] Hd. unfold ready. cbn [snd]. unfold Health.ReadyHandler, Health.handler, healthGroup. simpl.
  unfold Health.run_check. cbn [Health.checker run_checker]. simpl.
  assert (Hm : Breaker.maybeTransitionFromOpen (clock w (reads w)) (breaker w) = breaker w).
  { unfold Breaker.maybeTransitionFromOpen. rewrite (inv_opts _ Hi), Ht. simpl.
    destruct (Z.geb_spec (Sub (clock w (reads w)) t) (30 * Second)); [|by rewrite andb_false_r].
    unfold Sub, int64_min, int64_max, Second in *. lia. }
  rewrite Hm, Hs. simpl. done.
Qed.

End Alone.

(** ** Properties *)

Section Properties.
Context (ctx_Err : world → option error) (contextSleep : Duration → world → world * option error)
  (rand_N : Duration → world → world * Duration) (Pow : float64 → float64 → float64) (oob : float64 → Z)
  (Sprint : Z → string).

Notation GET := (GET_product ctx_Err contextSleep rand_N Pow oob).
Notation run := (run_ops ctx_Err contextSleep rand_N Pow oob Sprint).

(** After any sequence of requests and background jobs, whatever else runs
    while a request sleeps, GET /products/{id} does not panic and answers with
    the product of that id, 404 or 500; gRPC GetProduct answers with that product
    or an error that is ErrNotFound or ErrOpen; a wrong or made-up product is
    never served. *)
Theorem catalog_sound clk r w0 os id :
  (∀ d w, ext w (contextSleep d w).1) → (∀ n w, ext w (rand_N n w).1) → start clk r = Ret w0 →
  (∃ resp, (GET id (run os w0)).2 = Ret resp ∧
    match resp with
    | RProduct p => p ∈ sampleProducts ∧ ID p = id
    | RError _ code => code = 404 ∨ code = 500
    | RAccepted => False
    end) ∧
  match (GetProduct (MkGetProductRequest id) (run os w0)).2 with
  | (Some p, None) => p ∈ sampleProducts ∧ ID p = id
  | (None, Some e) => ∃ fmt args s, e = ErrWrap fmt args s ∧ (s = ErrNotFound ∨ s = Breaker.ErrOpen)
  | _ => False
  end.
Proof.
  intros Hsleep Hrand Hst. destruct (start_inv _ _ _ Hst) as [Hi _].
  pose proof (ext_inv _ _ (ext_ops ctx_Err contextSleep rand_N Pow oob Sprint Hsleep Hrand os w0) Hi) as Hi'.
  split.
  - destruct (GET_spec ctx_Err contextSleep rand_N Pow oob Hsleep Hrand id (run os w0)) as (w' & resp & -> & _ & Hr).
    exists resp. split; [done|by apply Hr].
  - destruct (GetProduct_spec (MkGetProductRequest id) (run os w0)) as (w' & p & err & -> & _ & Hr).
    specialize (Hr Hi'). by destruct p, err.
Qed.

(** A cached product is served without the breaker. *)
Lemma product_available clk r w0 os1 os2 p :
  (∀ d w, ext w (contextSleep d w).1) → (∀ n w, ext w (rand_N n w).1) → start clk r = Ret w0 →
  monotonic clk → p ∈ sampleProducts →
  let w1 := run os1 w0 in let w2 := run os2 (warmup w1) in
  clk (reads w2) ≤ clk (reads w1) + 5 * Minute → ctx_Err w2 = None →
  (GET (ID p) w2).2 = Ret (RProduct p) ∧ breaker (GET (ID p) w2).1 = breaker w2.
Proof.
  intros Hsleep Hrand Hst Hm Hp w1 w2 Hd Hctx. destruct (start_inv _ _ _ Hst) as [Hi Hclk].
  pose proof (ext_ops ctx_Err contextSleep rand_N Pow oob Sprint Hsleep Hrand) as Hext.
  assert (H1 : Inv w1 ∧ clock w1 = clk) by (split; [by apply (ext_inv _ _ (Hext os1 w0))|];
    by etrans; [apply (ext_clock _ _ (Hext os1 w0))|]).
  destruct H1 as [Hi1 Hc1]. pose proof (ext_warmup w1) as Hw. pose proof (Hext os2 (warmup w1)) as He2.
  fold w2 in He2. assert (Hm1 : monotonic (clock w1)) by by rewrite Hc1.
  assert (Hcw : clock (warmup w1) = clk) by by rewrite (ext_clock _ _ Hw).
  assert (Hc2 : clock w2 = clk) by by rewrite (ext_clock _ _ He2).
  assert (Hle : clk (reads (warmup w1)) ≤ clk (reads w2)).
  { rewrite <-Hc1. apply Hm1. apply (ext_reads _ _ He2). }
  assert (Hh : held p (clk (reads w1)) (Cache.abs (cache (warmup w1)))).
  { rewrite <-Hc1. apply warmup_warm; [done|done| |done]. rewrite Hc1. lia. }
  apply (ext_held _ _ He2) in Hh; [|done|by rewrite Hcw|by apply (ext_inv _ _ Hw)| |by rewrite Hcw].
  2: { rewrite Hcw. rewrite <-Hc1. apply Hm1. apply (ext_reads _ _ Hw). }
  apply (GET_hit ctx_Err contextSleep rand_N Pow oob p (clk (reads w1)) w2 Hp); [|done|by rewrite Hc2|done].
  by apply (ext_inv _ _ He2), (ext_inv _ _ Hw).
Qed.

(** C12: A product of the catalogue is served for five minutes after the start of
    each warm-up, whatever requests and jobs run in between and whatever the
    state of the circuit breaker, which the request neither consults nor
    changes. *)
Theorem catalog_available clk r w0 os1 os2 p :
  (∀ d w, ext w (contextSleep d w).1) → (∀ n w, ext w (rand_N n w).1) → start clk r = Ret w0 →
  monotonic clk → p ∈ sampleProducts →
  let w1 := run os1 w0 in let w2 := run os2 (warmup w1) in
  clk (reads w2) ≤ clk (reads w1) + 5 * Minute → ctx_Err w2 = None →
  (GET (ID p) w2).2 = Ret (RProduct p) ∧ breaker (GET (ID p) w2).1 = breaker w2.
Proof. apply product_available. Qed.

(** C14: Looking up products that do not exist takes the circuit down although the
    database answers: "not found" counts as a failure and each request tries
    three times.  After the start the first such request is answered 404, the
    second 500 with the breaker open; from then on every product that is not
    cached answers 500 and the readiness probe 503 until the timeout. *)
Theorem missing_ids_trip_breaker clk r w0 err_text id1 id2 id3 :
  (∀ w, ctx_Err w = None) → (∀ d w, contextSleep d w = (w, None)) → (∀ n w, (rand_N n w).1 = w) →
  start clk r = Ret w0 → brisk clk 40 →
  id1 ∉ ID <$> sampleProducts → id2 ∉ ID <$> sampleProducts → id3 ∉ ID <$> sampleProducts →
  ∃ w1 w2,
    GET id1 w0 = (w1, Ret (RError "product not found" 404)) ∧
    GET id2 w1 = (w2, Ret (RError "internal error" 500)) ∧
    Breaker.state (breaker w2) = Breaker.StateOpen ∧
    (GET id3 w2).2 = Ret (RError "internal error" 500) ∧
    (ready err_text [0; 1]%nat w2).2.1 = 503.
Proof.
  intros Hctx Hsl Hr Hst Hb Hid1 Hid2 Hid3. destruct (start_inv _ _ _ Hst) as [Hi Hc].
  assert (H0 : reads w0 = 5%nat ∧ closed_at 0 (breaker w0)) by by injection Hst as <-.
  destruct H0 as [H5 Hcl].
  pose proof (GET_closed ctx_Err contextSleep rand_N Pow oob Hctx Hsl Hr) as HG.
  destruct (HG id1 w0 0 40%nat Hi Hid1) as (w1 & G1 & I1 & C1 & R1 & P1); [by rewrite Hc|lia|done|lia|].
  destruct (HG id2 w1 3 40%nat I1 Hid2) as (w2 & G2 & I2 & C2 & R2 & i & Hin & P2);
    [by rewrite C1, Hc|lia|done|lia|].
  exists w1, w2. rewrite C1, Hc in *.
  split_and!; [done|done|apply P2| |].
  - destruct (GET_open ctx_Err contextSleep rand_N Pow oob Hctx Hsl Hr id3 w2 (clk i) 40 I2 Hid3)
      as (w3 & -> & _); [by rewrite C2|lia| |done|done]. exists i. by rewrite C2.
  - apply (ready_open err_text w2 (clk i)); [done|done|]. rewrite C2. apply Hb; lia.
Qed.

End Properties.

(** ListProducts never fails: it returns the first [PageSize] products, or all
    five when the size is not positive or too large; the page token is ignored
    and none is ever returned, so a client cannot get past the first page. *)
Theorem list_products_spec size tok :
  ListProducts (MkListProductsRequest size tok) =
  Ret (Some (MkListProductsResponse
    (take (if (1 <=? size) && (size <=? 5) then Z.to_nat size else 5%nat) sampleProducts) ""), None).
Proof.
  assert (Hn : ∀ n, (n ≤ 5)%nat → mapM (λ i, sampleProducts !! i) (seq 0 n) = Some (take n sampleProducts)).
  { intros n Hn. do 6 (destruct n as [|n]; [reflexivity|]). lia. }
  unfold ListProducts. cbn [PageSize]. change (Z.of_nat (length sampleProducts)) with 5.
  destruct (Z.leb_spec size 0), (Z.leb_spec 1 size), (Z.gtb_spec size 5), (Z.leb_spec size 5);
    try lia; simpl orb; simpl andb; cbv iota; rewrite Hn by lia; done.
Qed.

(** Orders: a body that does not decode is answered 400 and publishes nothing;
    every other order, over HTTP or gRPC, is accepted and published exactly once
    on "orders.placed" with the product and quantity of the request and the time
    of its arrival. *)
Theorem orders_published Sprint w ev req size :
  POST_orders None w = (w, RError "invalid body" 400) ∧
  Http.wire_status (response_events size (RError "invalid body" 400)) = 400 ∧
  (let '(w', resp) := POST_orders (Some ev) w in
   published w' = published w ++ [("orders.placed", MkOrder (ProductID ev) (Quantity ev) (clock w (reads w)))] ∧
   Http.wire_status (response_events size resp) = 202) ∧
  (let '(w', (resp, err)) := PlaceOrder Sprint req w in
   published w' = published w ++
     [("orders.placed", MkOrder (Order_ProductID req) (Order_Quantity req) (clock w (reads w)))] ∧
   Status <$> resp = Some "accepted" ∧ err = None).
Proof. done. Qed.

(** Shutdown runs in the order opposite to registration, under one deadline of
    15 seconds, and only the HTTP server's error is reported.  The order pool is
    drained first, while the HTTP and gRPC servers still accept orders. *)
Theorem shutdown_order http :
  Graceful.Shutdown (λ d tr, tr ++ [ADeadline d]) (shutdown_group http) [] =
  ([ADeadline (15 * Second); APoolStop; AHttpShutdown; AGrpcStop; ACancel; ASchedulerStop],
   match http with
   | Some e => Some (ErrJoin [ErrWrap "graceful: %s: %w" ["http-server"] e])
   | None => None
   end).
Proof. by destruct http. Qed.

(** The status a request gets through the stack. *)
Lemma stack_status rnd now lim mux r :
  (∀ r, Middleware.plain (mux r).1 = true) →
  let '(evs, o) := http_handler rnd now lim mux r in
  let id := if bool_decide (Http.Header_Get r "X-Request-Id" = "") then Middleware.newRequestID (rnd r)
            else Http.Header_Get r "X-Request-Id" in
  let c := Http.Context r in
  let r' := Http.WithContext (Http.Ctx (Some id) (Http.ctx_claims c) (10 * Second :: Http.ctx_timeouts c)) r in
  o = Ret tt ∧
  Http.wire_status evs =
    if (RateLimit.Keyed_Allow now (Http.RemoteAddr r) lim).2 then
      match mux r' with
      | (mevs, Ret _) => Http.wire_status mevs
      | (mevs, Panic _) => default 500 (Http.w_status (Http.wire_run mevs))
      end
    else 429.
Proof.
  intros Hplain. unfold http_handler, Middleware.Apply, Middleware.Chain. cbn [length Middleware.Chain_loop lookup list_lookup].
  unfold Middleware.RequestID. cbv zeta. set (id := if bool_decide _ then _ else _).
  set (r1 := Http.WithContext (Http.Ctx (Some id) _ _) r).
  set (h := Middleware.Timeout _ _).
  assert (Hh : h r1 = if (RateLimit.Keyed_Allow now (Http.RemoteAddr r) lim).2
    then mux (Http.WithContext (Http.Ctx (Some id) (Http.ctx_claims (Http.Context r))
                (10 * Second :: Http.ctx_timeouts (Http.Context r))) r)
    else (Http.http_Error "rate limit exceeded" 429, Ret tt)).
  { unfold h, Middleware.Timeout, Middleware.RateLimit. simpl. by destruct (RateLimit.Keyed_Allow _ _ _) as [? []]. }
  assert (Hp : Middleware.plain (h r1).1 = true) by (rewrite Hh; case_match; [apply Hplain|done]).
  destruct (Middleware.HTTPMetrics_sent h r1 Hp) as (Hp2 & Hs2 & Ho2).
  destruct (Middleware.Recovery_sent _ r1 Hp2) as (Hp3 & Ho3 & Hs3).
  destruct (Middleware.Logging_sent _ r1 Hp3) as [Hs4 Ho4]. rewrite Ho3 in Ho4. rewrite Hs3, Ho2, Hs2 in Hs4.
  destruct (Middleware.Logging _ r1) as [evs o]. simpl in Hs4, Ho4. split; [done|].
  unfold Http.wire_status. change (Http.w_status (Http.wire_run ?l)) with (Middleware.sent l).
  rewrite Middleware.sent_cons_quiet by (intros w; simpl; by destruct (Http.w_status w) eqn:E; rewrite ?E).
  rewrite Hs4, Hh. destruct (RateLimit.Keyed_Allow _ _ _) as [? []]; simpl; [|done].
  by destruct (mux _) as [mevs [[]|p]].
Qed.

(** The request as the routes see it: with its id, or a new one, and a deadline. *)
Definition routed (rnd : Http.Request → list Z) (r : Http.Request) : Http.Request :=
  let id := if bool_decide (Http.Header_Get r "X-Request-Id" = "") then Middleware.newRequestID (rnd r)
            else Http.Header_Get r "X-Request-Id" in
  let c := Http.Context r in
  Http.WithContext (Http.Ctx (Some id) (Http.ctx_claims c) (10 * Second :: Http.ctx_timeouts c)) r.

(** The routes matter only through what they do with that request, if it is admitted. *)
Lemma stack_reaches rnd now lim mux mux' r :
  ((RateLimit.Keyed_Allow now (Http.RemoteAddr r) lim).2 = true → mux' (routed rnd r) = mux (routed rnd r)) →
  http_handler rnd now lim mux' r = http_handler rnd now lim mux r.
Proof.
  intros Hm. unfold http_handler, Middleware.Apply, Middleware.Chain. cbn [length Middleware.Chain_loop lookup list_lookup].
  unfold Middleware.RequestID, Middleware.Logging, Middleware.Recovery, Middleware.HTTPMetrics_Middleware, Middleware.Timeout, Middleware.RateLimit.
  cbv zeta. match goal with |- context [mux' ?q] => change q with (routed rnd r) end. simpl Http.RemoteAddr.
  destruct (RateLimit.Keyed_Allow _ _ _).2 eqn:E; simpl; [|done]. by rewrite Hm.
Qed.

(** C15: The HTTP stack contains its routes.  No panic escapes.  A request over its rate is
    answered 429 and never reaches the routes; an admitted one reaches them with a
    request id and a ten-second deadline, and is answered 500 when they panic before they have
    written a status. *)
Theorem http_stack rnd now lim mux r :
  (∀ r, Middleware.plain (mux r).1 = true) →
  let '(evs, o) := http_handler rnd now lim mux r in
  let r' := routed rnd r in
  o = Ret tt ∧
  if (RateLimit.Keyed_Allow now (Http.RemoteAddr r) lim).2 then
    (∀ mux', mux' r' = mux r' → http_handler rnd now lim mux' r = (evs, o)) ∧
    (∀ mevs p, mux r' = (mevs, Panic p) → Http.w_status (Http.wire_run mevs) = None → Http.wire_status evs = 500)
  else Http.wire_status evs = 429 ∧ ∀ mux', http_handler rnd now lim mux' r = (evs, o).
Proof.
  intros Hp. pose proof (stack_status rnd now lim mux r Hp) as Hs. pose proof (λ m, stack_reaches rnd now lim mux m r) as Hm.
  destruct (http_handler rnd now lim mux r) as [evs o]. destruct Hs as [Ho Hst]. split; [done|].
  destruct (RateLimit.Keyed_Allow _ _ _).2; [|split; [done|by intros; apply Hm]].
  split; [by intros; apply Hm|]. intros mevs p Em Hw. unfold routed in Em. cbv zeta in Em, Hst. by rewrite Hst, Em, Hw.
Qed.

(** The limiter after any traffic keeps its rate and burst. *)
Lemma limiter_config ops kl :
  RateLimit.wf kl → RateLimit.wf (RateLimit.run ops kl).1 ∧
  RateLimit.config (K:=string) (RateLimit.run ops kl).1 = RateLimit.config kl.
Proof.
  revert kl. induction ops as [|[now o] ops IH]; intros kl Hwf; simpl; [done|].
  destruct (RateLimit.keyed_op_refines now o kl Hwf) as (Hw & Hc & _).
  destruct (RateLimit.run_op now o kl) as [kl' x]. simpl in *. destruct (IH kl' Hw) as [? Hc'].
  destruct (RateLimit.run ops kl'). simpl in *. split; congruence.
Qed.

Lemma full_bucket_allows now : (RateLimit.Allow now (RateLimit.New (of_int 100) 20 now)).2 = true.
Proof.
  unfold RateLimit.Allow, RateLimit.AllowN, RateLimit.refill. simpl.
  replace (Sub now now) with 0 by (unfold Sub, int64_min, int64_max; lia). vm_compute. reflexivity.
Qed.

(** The limiter's key is the remote address, which net/http sets to
    "IP:port": whatever traffic a host has sent, a request of the same host from
    a port not yet seen is admitted, with a bucket of its own. *)
Theorem new_port_admitted ops host port now :
  RateLimit.entries (RateLimit.run ops ipLimiter).1 !! (host +:+ ":" +:+ port) = None →
  (RateLimit.Keyed_Allow now (host +:+ ":" +:+ port) (RateLimit.run ops ipLimiter).1).2 = true.
Proof.
  intros Hnew. assert (Hwf : RateLimit.wf ipLimiter) by (split; simpl; intros *; by rewrite lookup_empty).
  destruct (limiter_config ops ipLimiter Hwf) as [Hwf' Hc].
  destruct (RateLimit.run ops ipLimiter) as [kl rs]. simpl in *.
  destruct (RateLimit.Keyed_AllowN_refines now (host +:+ ":" +:+ port) 1 kl Hwf') as [_ Ha].
  rewrite (proj2 (RateLimit.abs_None kl _ Hwf') Hnew) in Ha. injection Hc as H1 H2 _. rewrite H1, H2 in Ha.
  pose proof (full_bucket_allows now) as Hf. unfold RateLimit.Allow in Hf.
  destruct (RateLimit.AllowN now 1 _) as [l ok]. simpl in Hf. destruct Ha as [_ Ha].
  unfold RateLimit.Keyed_Allow. rewrite Ha. exact Hf.
Qed.

(** ** Witnesses *)

(** A request alone on a server that reads its clock every millisecond. *)
Definition demo_clock (i : nat) : Time := 1000 * Second + Z.of_nat i * Millisecond.
Definition demo_start : world :=
  match start demo_clock (λ _, false) with
  | Ret w => w
  | Panic _ => World (Cache.Mk 1 0 [] ∅ ∅ 0 0 0 0) dbBreaker Pool.init [] demo_clock 0 (λ _, false) 0
  end.
Definition demo_GET : string → world → world * outcome response :=
  GET_product (λ _, None) (λ _ w, (w, None)) (λ n w, (w, n - 1)) (λ _ y, y) (λ _, 0).

Lemma demo_monotonic : monotonic demo_clock.
Proof. intros i j Hij. unfold demo_clock, Millisecond. lia. Qed.

Lemma catalog_sound_witness :
  ∃ resp, (demo_GET "nope" (run_ops (λ _, None) (λ _ w, (w, None)) (λ n w, (w, n - 1)) (λ _ y, y) (λ _, 0)
             (λ _, "1") [OpGet "p1"; OpWarmup] demo_start)).2 = Ret resp ∧
    match resp with
    | RProduct p => p ∈ sampleProducts ∧ ID p = "nope"
    | RError _ code => code = 404 ∨ code = 500
    | RAccepted => False
    end.
Proof.
  apply (catalog_sound (λ _, None) (λ _ w, (w, None)) (λ n w, (w, n - 1)) (λ _ y, y) (λ _, 0) (λ _, "1")
    demo_clock (λ _, false)); reflexivity.
Defined.

Lemma catalog_available_witness : (demo_GET "p3" (run_ops (λ _, None) (λ _ w, (w, None)) (λ n w, (w, n - 1))
    (λ _ y, y) (λ _, 0) (λ _, "1") [OpGet "nope"; OpGet "nope"; OpJanitor] (warmup demo_start))).2
  = Ret (RProduct (MkProduct "p3" "4K Monitor" (cents 39999))).
Proof.
  apply (catalog_available (λ _, None) (λ _ w, (w, None)) (λ n w, (w, n - 1)) (λ _ y, y) (λ _, 0) (λ _, "1")
    demo_clock (λ _, false) demo_start [] [OpGet "nope"; OpGet "nope"; OpJanitor]
    (MkProduct "p3" "4K Monitor" (cents 39999))).
  - reflexivity.
  - reflexivity.
  - reflexivity.
  - apply demo_monotonic.
  - right. right. left.
  - vm_compute. discriminate.
  - reflexivity.
Defined.

Lemma missing_ids_trip_breaker_witness : ∃ w1 w2,
  demo_GET "nope" demo_start = (w1, Ret (RError "product not found" 404)) ∧
  demo_GET "nope" w1 = (w2, Ret (RError "internal error" 500)) ∧
  Breaker.state (breaker w2) = Breaker.StateOpen ∧
  (demo_GET "other" w2).2 = Ret (RError "internal error" 500) ∧
  (ready (λ _, "") [0; 1]%nat w2).2.1 = 503.
Proof.
  apply (missing_ids_trip_breaker (λ _, None) (λ _ w, (w, None)) (λ n w, (w, n - 1)) (λ _ y, y) (λ _, 0)
    demo_clock (λ _, false)); try reflexivity.
  - intros i j Hi Hj. unfold demo_clock, Millisecond, Second. lia.
  - by apply (bool_decide_unpack _); vm_compute.
  - by apply (bool_decide_unpack _); vm_compute.
  - by apply (bool_decide_unpack _); vm_compute.
Defined.

Definition demo_request : Http.Request :=
  Http.MkRequest "GET" "/products/p1" "" ∅ ∅ "10.0.0.1:4242" (Http.Ctx None None []).

Lemma http_stack_witness :
  Http.wire_status (http_handler (λ _, [1; 2; 3; 4; 5; 6; 7; 8]) 0 ipLimiter (λ _, ([], Panic "boom")) demo_request).1
  = 500.
Proof.
  pose proof (http_stack (λ _, [1; 2; 3; 4; 5; 6; 7; 8]) 0 ipLimiter (λ _, ([], Panic "boom")) demo_request
    (λ _, eq_refl)) as Hw.
  destruct (http_handler _ _ _ _ _) as [evs o]. destruct Hw as [_ Hw].
  replace (RateLimit.Keyed_Allow _ _ _).2 with true in Hw by (vm_compute; reflexivity). by eapply (proj2 Hw).
Defined.

(** Twenty-five requests from one connection empty its bucket; the next
    connection of the same host is served. *)
Definition demo_traffic : list (Time * RateLimit.op) :=
  repeat (0, RateLimit.OAllowN "10.0.0.1:4242" 1) 25.

Lemma new_port_admitted_witness :
  (RateLimit.Keyed_Allow 0 "10.0.0.1:4242" (RateLimit.run demo_traffic ipLimiter).1).2 = false ∧
  (RateLimit.Keyed_Allow 0 "10.0.0.1:4243" (RateLimit.run demo_traffic ipLimiter).1).2 = true.
Proof.
  split; [vm_compute; reflexivity|]. apply (new_port_admitted demo_traffic "10.0.0.1" "4243"). vm_compute. reflexivity.
Defined.

End Server.
