(* ===== verification/Validation.v ===== *)
(** * pkg/validation: struct validation by field tags

    A struct is given by what reflection shows of it: for each field its name,
    its tags and its value.  [strconv.ParseFloat], [url.ParseRequestURI], the
    regular expression engine and the [%v]/[%q] verbs are parameters; nothing is
    assumed of them. *)

From Stdlib Require Import SpecFloat Ascii.
From S2P Require Import Prelude GoLang Strings Float64.
Open Scope Z_scope.

Module Validation.
Import Strings Float64.

Record field := Field { Name : string; tag_validate : string; tag_json : string }.

(** Values by [reflect.Kind]; arrays (of which the code reads the length) and the
    kinds without a rule of their own (channels, functions, ...) show whether they
    are zero. *)
Inductive value :=
| VString (s : string)
| VSlice (nil : bool) (len : Z)
| VMap (nil : bool) (len : Z)
| VArray (zero : bool) (len : Z)
| VPtr (nil : bool)
| VInterface (nil : bool)
| VInt (n : Z)
| VUint (n : Z)
| VFloat (f : float64)
| VBool (b : bool)
| VStruct (fields : list (field * value))
| VOther (zero : bool).

(** [reflect.Value.IsZero]: a slice or a map is zero when it is nil, a float when it
    equals zero, a struct when its fields other than blank ones are. *)
Fixpoint IsZero (v : value) : bool :=
  match v with
  | VString s => bool_decide (s = "")
  | VSlice b _ | VMap b _ | VArray b _ | VPtr b | VInterface b | VOther b => b
  | VInt n | VUint n => n =? 0
  | VFloat f => SFeqb f (S754_zero false)
  | VBool b => negb b
  | VStruct fs => forallb (λ x, IsZero x.2 || bool_decide (Name x.1 = "_")) fs
  end.

Definition toString (v : value) : option string := match v with VString s => Some s | _ => None end.

(** [Error]: messages per field; [Error_text] below is its text. *)
Definition Error : Type := gmap string (list string).
Definition newVErr : Error := ∅.
Definition add (e : Error) (name msg : string) : Error := <[name := default [] (e !! name) ++ [msg]]> e.
Definition empty (e : Error) : bool := bool_decide (size e = 0%nat).

(** ** Rules *)

Section Rules.
Context (ParseFloat : string → option float64).
Context (ParseRequestURI : string → option (string * string)).
Context (Compile : string → error + (string → bool)).
Context (show_float : float64 → string) (show_error : error → string) (quote : string → string).

Definition checkRequired (v : value) : string :=
  match v with
  | VString s => if bool_decide (s = "") then "is required" else ""
  | VSlice _ n | VMap _ n | VArray _ n => if n =? 0 then "is required" else ""
  | VPtr b | VInterface b => if b then "is required" else ""
  | _ => if IsZero v then "is required" else ""
  end.

Definition checkMin (v : value) (n : float64) : string :=
  match v with
  | VString s => if fltb (of_int (RuneCountInString s)) n
                 then "must be at least " +:+ show_float n +:+ " characters" else ""
  | VSlice _ l | VArray _ l | VMap _ l => if fltb (of_int l) n
                                    then "must have at least " +:+ show_float n +:+ " items" else ""
  | VInt k | VUint k => if fltb (of_int k) n then "must be ≥ " +:+ show_float n else ""
  | VFloat f => if fltb f n then "must be ≥ " +:+ show_float n else ""
  | _ => ""
  end.

Definition checkMax (v : value) (n : float64) : string :=
  match v with
  | VString s => if fltb n (of_int (RuneCountInString s))
                 then "must be at most " +:+ show_float n +:+ " characters" else ""
  | VSlice _ l | VArray _ l | VMap _ l => if fltb n (of_int l)
                                    then "must have at most " +:+ show_float n +:+ " items" else ""
  | VInt k | VUint k => if fltb n (of_int k) then "must be ≤ " +:+ show_float n else ""
  | VFloat f => if fltb n f then "must be ≤ " +:+ show_float n else ""
  | _ => ""
  end.

Definition invalid_email : string := "must be a valid email address".

Definition checkEmail (s : string) : string :=
  let at_ := LastIndex s "@"%char in
  if (at_ <? 1) || (at_ >=? Z.of_nat (String.length s) - 3) then invalid_email
  else if negb (Contains (from (Z.to_nat (at_ + 1)) s) "."%char) then invalid_email
  else "".

Definition checkURL (s : string) : string :=
  match ParseRequestURI s with
  | Some (scheme, host) =>
    if bool_decide (scheme = "") || bool_decide (host = "") then "must be a valid URL" else ""
  | None => "must be a valid URL"
  end.

Definition checkOneOf (s : string) (options : list string) : string :=
  if bool_decide (s ∈ options) then "" else "must be one of [" +:+ Join options ", " +:+ "]".

Definition checkRegex (s pattern : string) : string :=
  match Compile pattern with
  | inl err => "invalid regex pattern: " +:+ show_error err
  | inr matches => if matches s then "" else "must match pattern " +:+ quote pattern
  end.

(** Rules on strings skip other kinds and the empty string. *)
Definition on_string (v : value) (check : string → string) : string :=
  match toString v with
  | None => ""
  | Some s => if bool_decide (s = "") then "" else check s
  end.

Definition applyRule (rule : string) (v : value) : string :=
  if bool_decide (rule = "required") then checkRequired v
  else if bool_decide (rule = "email") then on_string v checkEmail
  else if bool_decide (rule = "url") then on_string v checkURL
  else match CutPrefix "min=" rule with
  | Some arg => match ParseFloat arg with Some n => checkMin v n | None => "" end
  | None =>
  match CutPrefix "max=" rule with
  | Some arg => match ParseFloat arg with Some n => checkMax v n | None => "" end
  | None =>
  match CutPrefix "oneof=" rule with
  | Some arg => on_string v (λ s, checkOneOf s (Split "|"%char arg))
  | None =>
  match CutPrefix "regex=" rule with
  | Some arg => on_string v (λ s, checkRegex s arg)
  | None => ""
  end end end end.

(** ** Structs *)

Definition is_struct (v : value) : bool := match v with VStruct _ => true | _ => false end.

(** The name a field is reported under. *)
Definition report_name (f : field) : string :=
  if bool_decide (tag_json f = "") then Name f
  else match Split ","%char (tag_json f) with p :: _ => p | [] => "" end.

Definition add_rule (v : value) (name : string) (e : Error) (rule : string) : Error :=
  let msg := applyRule (TrimSpace rule) v in
  if bool_decide (msg = "") then e else add e name msg.

(** [ve.Fields[field.Name+"."+k] = msgs] for the fields of a nested error. *)
Definition add_nested (name : string) (e nested : Error) : Error :=
  map_fold (λ k msgs e, <[name +:+ "." +:+ k := msgs]> e) e nested.

Definition step_field (rec : value → option Error) (e : Error) (x : field * value) : Error :=
  let '(f, v) := x in
  if is_struct v && bool_decide (tag_validate f = "") then
    match rec v with Some nested => add_nested (Name f) e nested | None => e end
  else if bool_decide (tag_validate f = "") then e
  else fold_left (add_rule v (report_name f)) (Split ","%char (tag_validate f)) e.

Fixpoint validateStruct (v : value) : option Error :=
  match v with
  | VStruct fs =>
    let ve := fold_left (step_field validateStruct) fs newVErr in
    if empty ve then None else Some ve
  | _ => None
  end.

(** What [Validate] is given: nothing, a value, or a pointer, possibly nil. *)
Inductive target := TNil | TValue (v : value) | TPointer (v : option value).

Definition Validate (dst : target) : option (error + Error) :=
  let rv := match dst with TNil => None | TValue v => Some v | TPointer v => v end in
  match rv with
  | Some (VStruct fs) => inr <$> validateStruct (VStruct fs)
  | _ => Some (inl (ErrFmt "validation: expected struct, got %T" []))
  end.

(** ** Specification *)

(** The fields [Validate] reaches: those with a [validate] tag in the struct and in the
    structs it nests through fields without such a tag.  The fields of a nested struct
    that is itself tagged, and those behind a pointer, are not among them. *)
Fixpoint leaves (v : value) : list (list string * value) :=
  match v with
  | VStruct fs =>
    flat_map (λ x, if is_struct x.2 && bool_decide (tag_validate x.1 = "") then leaves x.2
                   else if bool_decide (tag_validate x.1 = "") then []
                   else [(Split ","%char (tag_validate x.1), x.2)]) fs
  | _ => []
  end.

(** What [min] and [max] compare: the characters of a string, the items of a slice, array
    or map, the number itself; other kinds have no measure. *)
Definition measure (v : value) : option float64 :=
  match v with
  | VString s => Some (of_int (RuneCountInString s))
  | VSlice _ n | VArray _ n | VMap _ n | VInt n | VUint n => Some (of_int n)
  | VFloat f => Some f
  | _ => None
  end.

(** Without a value: zero, or a slice or map without items. *)
Definition missing (v : value) : Prop := IsZero v = true ∨ ∃ b, v = VSlice b 0 ∨ v = VMap b 0.

Definition is_text (v : value) (s : string) : Prop := v = VString s ∧ s ≠ "".

Definition address (s : string) : Prop :=
  ∃ local domain, s = local +:+ String "@" domain ∧ local ≠ "" ∧ Contains domain "@"%char = false ∧
    Contains domain "."%char = true ∧ (3 ≤ String.length domain)%nat.

(** What a rule demands of a value, rule by rule. *)
Record satisfies (rule : string) (v : value) : Prop := {
  sat_required : rule = "required" → ¬ missing v;
  sat_email s : rule = "email" → is_text v s → address s;
  sat_url s : rule = "url" → is_text v s →
    ∃ scheme host, ParseRequestURI s = Some (scheme, host) ∧ scheme ≠ "" ∧ host ≠ "";
  sat_min arg n m : rule = "min=" +:+ arg → ParseFloat arg = Some n → n ≠ S754_nan →
    measure v = Some m → fleb n m = true;
  sat_max arg n m : rule = "max=" +:+ arg → ParseFloat arg = Some n → n ≠ S754_nan →
    measure v = Some m → fleb m n = true;
  sat_oneof arg s : rule = "oneof=" +:+ arg → is_text v s → s ∈ Split "|"%char arg;
  sat_regex arg s : rule = "regex=" +:+ arg → is_text v s →
    ∃ matches, Compile arg = inr matches ∧ matches s = true;
}.

Definition leaf_ok (l : list string * value) : Prop :=
  Forall (λ rule, satisfies (TrimSpace rule) l.2) l.1.

(** A nil slice or map has no items; no array holds only zeros and no float is NaN. *)
Definition ordinary (v : value) : Prop :=
  match v with
  | VSlice b n | VMap b n => b = true → n = 0
  | VArray zero n => zero = true ↔ n = 0
  | VFloat f => f ≠ S754_nan
  | _ => True
  end.

(** ** Lemmas *)

(** *** Rules *)

(** The email rule accepts exactly the strings with a non-empty part before
    the last [@] and, after it, at least three bytes with a dot among them. *)
Lemma check_email_spec s : checkEmail s = "" ↔ address s.
Proof.
  unfold checkEmail. set (i := LastIndex s "@"%char). split.
  - intros Hc. destruct ((i <? 1) || (i >=? Z.of_nat (String.length s) - 3)) eqn:E1; [done|].
    destruct (negb (Contains _ _)) eqn:E2; [done|]. apply orb_false_iff in E1 as [Hi1 Hi2]. zbool.
    destruct (proj1 (LastIndex_split s "@"%char (Z.to_nat i))) as (l & r & Hs & Hr & Hl & Hf).
    { unfold i in *. lia. }
    replace (Z.to_nat (i + 1)) with (S (Z.to_nat i)) in E2 by lia. rewrite Hf in E2.
    exists l, r. split_and!; [done|by destruct l; [simpl in Hl; lia|]|done|done|].
    rewrite Hs, length_string_app in Hi2. simpl in Hi2. lia.
  - intros (l & r & Hs & Hl & Hr & Hd & Hlen).
    assert (Hi : i = Z.of_nat (String.length l)).
    { unfold i. apply LastIndex_split. exists l, r. split_and!; [done|done|done|]. subst s. clear.
      induction l as [|a l IH]; [done|]. exact IH. }
    assert (0 < String.length l)%nat by (destruct l; [done|simpl; lia]).
    rewrite (proj2 (Z.ltb_ge _ _)) by lia. rewrite Z.geb_leb, (proj2 (Z.leb_gt _ _)).
    2: { rewrite Hs, length_string_app. simpl. lia. }
    simpl. replace (from (Z.to_nat (i + 1)) s) with r; [by rewrite Hd|].
    replace (Z.to_nat (i + 1)) with (S (String.length l)) by lia. rewrite Hs. clear.
    induction l as [|a l IH]; [done|]. exact IH.
Qed.


Lemma CutPrefix_Some p s r : CutPrefix p s = Some r ↔ s = p +:+ r.
Proof.
  revert s. induction p as [|a p IH]; intros s.
  - change ("" +:+ r) with r. destruct s; simpl; split; congruence.
  - change (String a p +:+ r) with (String a (p +:+ r)). destruct s as [|b s]; simpl; [done|].
    destruct (Ascii.eqb_spec a b) as [Hab|Hn]; [rewrite IH|]; split; congruence.
Qed.

Lemma msg_nil (b : bool) c msg : (if b then String c msg else "") = "" ↔ b = false.
Proof. by destruct b. Qed.

Lemma of_int_number n : of_int n ≠ S754_nan.
Proof.
  destruct n as [|p|p]; [done|..]; unfold of_int; simpl; intros E;
    [destruct (binary_round_valid false p 0) as (_ & Hs & _)|destruct (binary_round_valid true p 0) as (_ & Hs & _)];
    by rewrite E in Hs.
Qed.

Lemma measure_number v m : ordinary v → measure v = Some m → m ≠ S754_nan.
Proof. destruct v; simpl; intros Ho [= <-]; try apply of_int_number; done. Qed.

(** Between numbers, not below is at least. *)
Lemma fltb_fleb x y : x ≠ S754_nan → y ≠ S754_nan → fltb x y = false ↔ fleb y x = true.
Proof.
  intros Hx Hy. unfold fltb, fleb, SFltb, SFleb. rewrite (compare_swap x y).
  destruct (SFcompare x y) as [c|] eqn:E; [by destruct c|]. exfalso.
  destruct x as [|[]| |[]], y as [|[]| |[]]; simpl in E; done.
Qed.

Lemma is_nan_dec (x : float64) : x = S754_nan ∨ x ≠ S754_nan.
Proof. destruct x; by (left + right). Qed.

Lemma fltb_nan_r x : fltb x S754_nan = false.
Proof. by destruct x as [|[]| |[]]. Qed.

Lemma check_required_spec v : ordinary v → checkRequired v = "" ↔ ¬ missing v.
Proof.
  intros Ho. unfold missing.
  destruct v; simpl in *;
    rewrite ?msg_nil, ?bool_decide_eq_false, ?bool_decide_eq_true, ?Z.eqb_neq, ?Z.eqb_eq,
      <-?not_true_iff_false; try (destruct nil); try (destruct zero); naive_solver.
Qed.

(** A bound violated by the measure is a message, one kept is none. *)
Ltac bound_cases :=
  simpl; try case_match; split; intros; simplify_eq/=; try done;
  match goal with H : ∀ m, Some _ = Some m → _ |- _ => specialize (H _ eq_refl); congruence end.

Lemma check_min_spec v n : checkMin v n = "" ↔ ∀ m, measure v = Some m → fltb m n = false.
Proof. destruct v; bound_cases. Qed.

Lemma check_max_spec v n : checkMax v n = "" ↔ ∀ m, measure v = Some m → fltb n m = false.
Proof. destruct v; bound_cases. Qed.

Lemma on_string_spec v check : on_string v check = "" ↔ ∀ s, is_text v s → check s = "".
Proof.
  unfold on_string, is_text. destruct v; simpl; try (case_bool_decide); naive_solver.
Qed.

Lemma check_url_spec s : checkURL s = "" ↔
  ∃ scheme host, ParseRequestURI s = Some (scheme, host) ∧ scheme ≠ "" ∧ host ≠ "".
Proof.
  unfold checkURL. destruct (ParseRequestURI s) as [[scheme host]|]; [|naive_solver].
  rewrite msg_nil, orb_false_iff, !bool_decide_eq_false. naive_solver.
Qed.

Lemma check_oneof_spec s options : checkOneOf s options = "" ↔ s ∈ options.
Proof. unfold checkOneOf. by case_bool_decide. Qed.

Lemma check_regex_spec s pattern : checkRegex s pattern = "" ↔
  ∃ matches, Compile pattern = inr matches ∧ matches s = true.
Proof.
  unfold checkRegex. destruct (Compile pattern) as [|f]; [split; [done|naive_solver]|].
  destruct (f s) eqn:E; split; try done; [eauto|]. intros (g & [= <-] & Hg). congruence.
Qed.

(** At most one clause of [satisfies] concerns a rule. *)
Ltac rule_clause :=
  constructor; intros; subst; simplify_eq/=; try done.

Lemma CutPrefix_None p s : CutPrefix p s = None ↔ ∀ r, s ≠ p +:+ r.
Proof.
  rewrite eq_None_not_Some. unfold is_Some. setoid_rewrite CutPrefix_Some. naive_solver.
Qed.

(** The bound rules, for bounds that are numbers. *)
Lemma prefix_min arg v : ordinary v →
  match ParseFloat arg with Some n => checkMin v n | None => "" end = "" ↔
  ∀ n m, ParseFloat arg = Some n → n ≠ S754_nan → measure v = Some m → fleb n m = true.
Proof.
  intros Ho. destruct (ParseFloat arg) as [n|]; [|done]. rewrite check_min_spec. split.
  - intros H n' m [= <-] Hn Hm. apply fltb_fleb; eauto using measure_number.
  - intros H m Hm. destruct (is_nan_dec n) as [->|Hn]; [apply fltb_nan_r|].
    apply fltb_fleb; eauto using measure_number.
Qed.

Lemma prefix_max arg v : ordinary v →
  match ParseFloat arg with Some n => checkMax v n | None => "" end = "" ↔
  ∀ n m, ParseFloat arg = Some n → n ≠ S754_nan → measure v = Some m → fleb m n = true.
Proof.
  intros Ho. destruct (ParseFloat arg) as [n|]; [|done]. rewrite check_max_spec. split.
  - intros H n' m [= <-] Hn Hm. apply fltb_fleb; eauto using measure_number.
  - intros H m Hm. destruct (is_nan_dec n) as [->|Hn]; [done|].
    apply fltb_fleb; eauto using measure_number.
Qed.

Lemma applyRule_spec rule v : ordinary v → applyRule rule v = "" ↔ satisfies rule v.
Proof.
  intros Ho. unfold applyRule.
  case_bool_decide as H1.
  { rewrite check_required_spec by done. split; [intros; rule_clause|intros []; auto]. }
  case_bool_decide as H2.
  { rewrite on_string_spec. setoid_rewrite check_email_spec. split; [intros; rule_clause; eauto|intros []; auto]. }
  case_bool_decide as H3.
  { rewrite on_string_spec. setoid_rewrite check_url_spec. split; [intros; rule_clause; eauto|intros []; auto]. }
  destruct (CutPrefix "min=" rule) as [arg|] eqn:H4; [apply CutPrefix_Some in H4|rewrite CutPrefix_None in H4].
  { rewrite prefix_min by done. split; [intros; rule_clause; eauto|intros []; eauto]. }
  destruct (CutPrefix "max=" rule) as [arg|] eqn:H5; [apply CutPrefix_Some in H5|rewrite CutPrefix_None in H5].
  { rewrite prefix_max by done. split; [intros; rule_clause; eauto|intros []; eauto]. }
  destruct (CutPrefix "oneof=" rule) as [arg|] eqn:H6; [apply CutPrefix_Some in H6|rewrite CutPrefix_None in H6].
  { rewrite on_string_spec. setoid_rewrite check_oneof_spec. split; [intros; rule_clause; eauto|intros []; auto]. }
  destruct (CutPrefix "regex=" rule) as [arg|] eqn:H7; [apply CutPrefix_Some in H7|rewrite CutPrefix_None in H7].
  { rewrite on_string_spec. setoid_rewrite check_regex_spec. split; [intros; rule_clause; eauto|intros []; auto]. }
  split; [|done]. intros _. constructor; naive_solver.
Qed.

(** Induction on values with the fields of a struct. *)
Fixpoint value_rect' (P : value → Prop)
    (Hs : ∀ fs, Forall (λ x, P x.2) fs → P (VStruct fs))
    (Ho : ∀ v, is_struct v = false → P v) (v : value) : P v :=
  match v with
  | VStruct fs =>
    Hs fs ((fix go fs : Forall (λ x, P x.2) fs :=
      match fs with
      | [] => Forall_nil_2 _
      | x :: fs => Forall_cons_2 _ _ _ (value_rect' P Hs Ho x.2) (go fs)
      end) fs)
  | v => Ho v eq_refl
  end.

Lemma empty_iff (e : Error) : empty e = true ↔ e = ∅.
Proof. unfold empty. rewrite bool_decide_eq_true. apply map_size_empty_iff. Qed.

Lemma add_not_empty e name msg : add e name msg ≠ ∅.
Proof. apply insert_non_empty. Qed.

Lemma add_nested_not_empty name e nested : e ≠ ∅ ∨ nested ≠ ∅ → add_nested name e nested ≠ ∅.
Proof.
  unfold add_nested. apply (map_fold_weak_ind (λ r nested, e ≠ ∅ ∨ nested ≠ ∅ → r ≠ ∅)); [naive_solver|].
  intros. apply insert_non_empty.
Qed.

Lemma add_rules_empty v name rules e :
  fold_left (add_rule v name) rules e = ∅ ↔ e = ∅ ∧ Forall (λ rule, applyRule (TrimSpace rule) v = "") rules.
Proof.
  revert e. induction rules as [|r rules IH]; intros e; simpl; [naive_solver|].
  rewrite IH, Forall_cons. unfold add_rule. case_bool_decide as Hr; [naive_solver|].
  split; [intros [Hn _]; by apply add_not_empty in Hn|naive_solver].
Qed.

(** No rule of a leaf yields a message. *)
Definition leaf_silent (l : list string * value) : Prop :=
  Forall (λ rule, applyRule (TrimSpace rule) l.2 = "") l.1.

(** Whether a field adds nothing to the error. *)
Definition field_ok (x : field * value) : Prop :=
  if is_struct x.2 && bool_decide (tag_validate x.1 = "") then validateStruct x.2 = None
  else if bool_decide (tag_validate x.1 = "") then True
  else leaf_silent (Split ","%char (tag_validate x.1), x.2).

Lemma validateStruct_not_empty v e : validateStruct v = Some e → e ≠ ∅.
Proof.
  destruct v; simpl; try done. destruct (empty _) eqn:E; [done|]. intros [= <-] He.
  apply empty_iff in He. congruence.
Qed.

Lemma step_field_empty e x : step_field validateStruct e x = ∅ ↔ e = ∅ ∧ field_ok x.
Proof.
  destruct x as [f v]. unfold step_field, field_ok. simpl.
  destruct (is_struct v && bool_decide (tag_validate f = "")) eqn:Es.
  - destruct (validateStruct v) as [nested|] eqn:Ev; [|naive_solver].
    split; [|naive_solver]. intros He. exfalso. eapply add_nested_not_empty; [|exact He].
    right. by eapply validateStruct_not_empty.
  - case_bool_decide; [naive_solver|]. apply add_rules_empty.
Qed.

Lemma fold_fields_empty fs e :
  fold_left (step_field validateStruct) fs e = ∅ ↔ e = ∅ ∧ Forall field_ok fs.
Proof.
  revert e. induction fs as [|x fs IH]; intros e; simpl; [naive_solver|].
  rewrite IH, step_field_empty, Forall_cons. tauto.
Qed.

Lemma validateStruct_ok v : validateStruct v = None ↔ Forall leaf_silent (leaves v).
Proof.
  induction v as [fs IH|v Hv] using value_rect'; [|by destruct v].
  transitivity (Forall field_ok fs).
  - simpl. destruct (empty _) eqn:E.
    + apply empty_iff, fold_fields_empty in E. tauto.
    + split; [done|]. intros Hf. exfalso. assert (He : fold_left (step_field validateStruct) fs newVErr = ∅).
      { by apply fold_fields_empty. } apply empty_iff in He. congruence.
  - simpl. induction IH as [|[f v] fs Hv _ IHfs]; simpl; [by rewrite !Forall_nil|].
    rewrite Forall_cons, Forall_app, IHfs. unfold field_ok at 1. simpl in *.
    destruct (is_struct v && bool_decide (tag_validate f = "")); [by rewrite Hv|].
    case_bool_decide; [rewrite Forall_nil|rewrite Forall_singleton]; tauto.
Qed.

Lemma leaf_silent_ok l : ordinary l.2 → leaf_silent l ↔ leaf_ok l.
Proof.
  intros Ho. unfold leaf_silent, leaf_ok. apply Forall_iff. intros rule. by apply applyRule_spec.
Qed.

Lemma leaves_silent_ok ls : Forall (λ l, ordinary l.2) ls → Forall leaf_silent ls ↔ Forall leaf_ok ls.
Proof.
  intros Ho. rewrite !Forall_forall in *. split; intros H l Hl; apply leaf_silent_ok; auto.
Qed.

(** ** Properties *)

(** C38: [Validate] accepts a struct exactly when each field it reaches satisfies what its
    comma-separated rules demand: [required] a value that is not missing, [min] and [max] a
    measure (characters, items, or the number) at least or at most the bound, [email], [url],
    [oneof] and [regex] a string of that form unless it is empty.  It reaches the tagged fields
    of the struct and of the structs nested in it through untagged fields.  No field holds a
    NaN or an array of zeros. *)
Theorem validate_accepts fs :
  Forall (λ l, ordinary l.2) (leaves (VStruct fs)) →
  Validate (TPointer (Some (VStruct fs))) = None ↔ Forall leaf_ok (leaves (VStruct fs)).
Proof.
  intros Ho. rewrite <-leaves_silent_ok, <-validateStruct_ok by done.
  unfold Validate. destruct (validateStruct (VStruct fs)); by split.
Qed.

End Rules.

(** An order with a quantity from 1 to 1000 and a nested, untagged customer with an email;
    [demo_struct q mail] has the quantity and the address given. *)
Definition demo_parse (s : string) : option float64 :=
  if bool_decide (s = "1") then Some (of_int 1) else if bool_decide (s = "1000") then Some (of_int 1000) else None.

Definition demo_struct (q : Z) (mail : string) : list (field * value) :=
  [(Field "Quantity" "required,min=1, max=1000" "quantity", VInt q);
   (Field "Customer" "" "", VStruct [(Field "Email" "email" "email", VString mail)])].

Lemma validate_accepts_witness :
  let valid := Validate demo_parse (λ _, None) (λ _, inr (λ _, true)) (λ _, "") (λ _, "") id in
  let ok := leaf_ok demo_parse (λ _, None) (λ _, inr (λ _, true)) in
  (valid (TPointer (Some (VStruct (demo_struct 5 "a@b.io")))) = None ∧
   Forall ok (leaves (VStruct (demo_struct 5 "a@b.io")))) ∧
  ¬ Forall ok (leaves (VStruct (demo_struct 1001 "a@b.io"))) ∧
  ¬ Forall ok (leaves (VStruct (demo_struct 5 "a.b@io"))).
Proof.
  split_and!; [vm_compute; reflexivity|..].
  - apply validate_accepts with (show_float := λ _, "") (show_error := λ _, "") (quote := id);
      [by repeat constructor|vm_compute; reflexivity].
  - rewrite <-validate_accepts with (show_float := λ _, "") (show_error := λ _, "") (quote := id)
      by (by repeat constructor). vm_compute. discriminate.
  - rewrite <-validate_accepts with (show_float := λ _, "") (show_error := λ _, "") (quote := id)
      by (by repeat constructor). vm_compute. discriminate.
Defined.

(** ** The text of an error *)

Section Text.
(** The order in which the loop over the map meets its fields. *)
Context (order : Error → list (string * list string)) (order_perm : ∀ e, order e ≡ₚ map_to_list e).

Fixpoint text_loop (fields : list (string * list string)) (b : string) : string :=
  match fields with
  | [] => b
  | (field, msgs) :: fields => text_loop fields (b +:+ (field +:+ ": " +:+ Join msgs ", " +:+ "; "))
  end.

Definition Error_text (e : Error) : string := TrimSuffix (text_loop (order e) "") "; ".

Definition text_item (x : string * list string) : string := x.1 +:+ ": " +:+ Join x.2 ", ".

Lemma text_loop_spec fields b : text_loop fields b = b +:+ foldr (λ x s, x +:+ "; " +:+ s) "" (text_item <$> fields).
Proof.
  revert b. induction fields as [|[f msgs] fields IH]; intros b; csimpl; [by rewrite append_nil_r|].
  rewrite IH. unfold text_item at 2. by rewrite !append_assoc.
Qed.

(** The text lists each field once with its messages, the messages separated by commas and the
    fields by semicolons, in an order that is not determined. *)
Theorem validation_text e : ∃ fields, fields ≡ₚ map_to_list e ∧ Error_text e = Join (text_item <$> fields) "; ".
Proof using order_perm.
  exists (order e). split; [apply order_perm|]. unfold Error_text. rewrite text_loop_spec.
  destruct (order e) as [|x l]; [done|]. by apply TrimSuffix_join.
Qed.
End Text.

End Validation.
