(* ===== verification/Redis.v ===== *)
(** * The Redis server behind pkg/feature, pkg/lock and pkg/rediscache

    Redis and the go-redis client are not part of the repository.  The three
    packages are written against the class [Redis]: a command is a function on the
    keyspace ([op]), the server runs it atomically at some instant of the call, and
    a failed call may or may not have run.  [SCAN] promises what its
    documentation does.  [Ideal] is a server that meets the class. *)

From Stdlib Require Import Ascii.
From S2P Require Import Prelude GoLang Strings.
Open Scope Z_scope.

Module Redis.
Import Strings.

(** A key's string value and the instant after which it is gone. *)
Record entry := Entry { contents : string; expires : option Time }.
Notation keyspace := (gmap string entry).

Definition alive (t : Time) (e : entry) : bool :=
  match expires e with Some d => t <=? d | None => true end.

(** What a command that reads [k] at the instant [t] sees. *)
Definition read (t : Time) (ks : keyspace) (k : string) : option string :=
  e ← ks !! k; if alive t e then Some (contents e) else None.

(** The expiry of a key written at [t] with [ttl > 0]: whole milliseconds, at least
    one; the client sends no expiry for [ttl <= 0]. *)
Definition deadline (t : Time) (ttl : Duration) : option Time :=
  if ttl >? 0 then Some (t + Z.max Millisecond (ttl / Millisecond * Millisecond)) else None.

(** [redis.KeepTTL] *)
Definition KeepTTL : Duration := -1.

(** ** Commands *)

Definition op (A : Type) : Type := Time → keyspace → keyspace * A.

Definition cmd_get (k : string) : op (option string) := λ t ks, (ks, read t ks k).
Definition cmd_mget (l : list string) : op (list (option string)) := λ t ks, (ks, read t ks <$> l).
Definition cmd_set (k v : string) (ttl : Duration) : op unit := λ t ks,
  let exp := if ttl =? KeepTTL then e ← ks !! k; if alive t e then expires e else None
             else deadline t ttl in
  (<[k := Entry v exp]> ks, tt).
(** [SET k v NX]: the answer is whether the key was set. *)
Definition cmd_setnx (k v : string) (ttl : Duration) : op bool := λ t ks,
  match read t ks k with
  | Some _ => (ks, false)
  | None => (<[k := Entry v (deadline t ttl)]> ks, true)
  end.
Definition cmd_del (l : list string) : op Z := λ t ks,
  (foldr delete ks l, Z.of_nat (length (filter (λ k, is_Some (read t ks k)) (remove_dups l)))).
Definition cmd_flushdb : op unit := λ _ _, (∅, tt).
(** [PEXPIRE k ms]: a key given no time to live is deleted. *)
Definition cmd_pexpire (k : string) (ms : Z) : op Z := λ t ks,
  match read t ks k with
  | None => (ks, 0)
  | Some v => (if ms <=? 0 then delete k ks else <[k := Entry v (Some (t + ms * Millisecond))]> ks, 1)
  end.
Definition cmd_ping : op unit := λ _ ks, (ks, tt).

(** ** The interface *)

(** No character of [p] is special in a glob pattern. *)
Definition special (c : ascii) : bool :=
  bool_decide (c ∈ ["*"; "?"; "["; "]"; "\"]%char).
Fixpoint plain (p : string) : bool :=
  match p with String c p => negb (special c) && plain p | EmptyString => true end.

Class Redis (W : Type) := {
  clock : W → Time;
  keys_of : W → keyspace;
  do_ : ∀ {A : Type}, op A → W → W * (error + A);
  (** cursor, pattern, count; keys and the next cursor *)
  scan : Z → string → Z → W → W * (error + (list string * Z));
  glob : string → string → bool;
  (** the keys an iteration has yet to visit, and a bound on its remaining calls *)
  pending : W → Z → string → gset string;
  calls_left : W → Z → nat;
  glob_prefix p k : plain p = true → glob (p +:+ "*") k = HasPrefix k p;
  do_spec {A} (o : op A) w w' r : do_ o w = (w', r) →
    ∃ t, clock w ≤ t ≤ clock w' ∧
    match r with
    | inr a => o t (keys_of w) = (keys_of w', a)
    | inl _ => keys_of w' = keys_of w ∨ keys_of w' = (o t (keys_of w)).1
    end;
  scan_frame c p n w w' r : scan c p n w = (w', r) → clock w ≤ clock w' ∧ keys_of w' = keys_of w;
  scan_spec c p n w w' l next : scan c p n w = (w', inr (l, next)) →
    Forall (λ k, glob p k = true) l ∧
    (next ≠ 0 → (calls_left w' next < calls_left w c)%nat) ∧
    ∀ k e, k ∈ pending w c p → keys_of w !! k = Some e → alive (clock w') e = true →
      k ∈ l ∨ (next ≠ 0 ∧ k ∈ pending w' next p);
  pending_start w p k : is_Some (keys_of w !! k) → glob p k = true → k ∈ pending w 0 p;
  pending_do {A} (o : op A) w w' r c p k : do_ o w = (w', r) →
    k ∈ pending w c p → is_Some (keys_of w' !! k) → k ∈ pending w' c p;
  calls_do {A} (o : op A) w w' r c : do_ o w = (w', r) →
    dom (keys_of w') ⊆ dom (keys_of w) → (calls_left w' c ≤ calls_left w c)%nat;
}.
#[global] Hint Mode Redis - : typeclass_instances.

(** ** Lemmas *)

Lemma read_alive_mono t t' ks k v : t ≤ t' → read t' ks k = Some v → read t ks k = Some v.
Proof.
  unfold read. destruct (ks !! k) as [e|]; simpl; [|done]. unfold alive.
  destruct (expires e) as [d|]; [|done]. intros Ht. destruct (t' <=? d) eqn:E; [|done].
  zbool. by rewrite (proj2 (Z.leb_le _ _)) by lia.
Qed.

Lemma alive_mono t t' e : t ≤ t' → alive t' e = true → alive t e = true.
Proof. unfold alive. destruct (expires e); [|done]. intros. zbool. apply Z.leb_le. lia. Qed.

Lemma read_insert t ks k v exp :
  read t (<[k := Entry v exp]> ks) k = if alive t (Entry v exp) then Some v else None.
Proof. unfold read. by rewrite lookup_insert_eq. Qed.

Lemma read_insert_ne t ks k k' e : k ≠ k' → read t (<[k := e]> ks) k' = read t ks k'.
Proof. intros. unfold read. by rewrite lookup_insert_ne. Qed.

Lemma lookup_delete_all (ks : keyspace) l k : foldr delete ks l !! k = if decide (k ∈ l) then None else ks !! k.
Proof.
  induction l as [|k' l IH]; simpl; [done|]. destruct (decide (k' = k)) as [->|Hne].
  - rewrite lookup_delete_eq. rewrite decide_True by (by left). done.
  - rewrite lookup_delete_ne, IH by done. destruct (decide (k ∈ l)).
    + rewrite decide_True by (by right). done.
    + rewrite decide_False; [done|]. rewrite elem_of_cons. naive_solver.
Qed.

Lemma HasPrefix_app p s : HasPrefix (p +:+ s) p = true.
Proof.
  unfold HasPrefix. induction p as [|a p IH]; [done|]. simpl. destruct (Ascii.eqb a a) eqn:E.
  - exact IH.
  - by rewrite Ascii.eqb_refl in E.
Qed.

#[export] Hint Resolve alive_mono read_alive_mono HasPrefix_app : gkit.

Section Client.
Context `{Redis W}.

(** A command that does not change the keyspace leaves it as it was, also when the
    call fails. *)
Lemma do_readonly {A} (o : op A) w w' r :
  (∀ t ks, (o t ks).1 = ks) → do_ o w = (w', r) → keys_of w' = keys_of w.
Proof.
  intros Ho Hd. apply do_spec in Hd as (t & _ & Hr). destruct r as [err|a].
  - rewrite Ho in Hr. by destruct Hr.
  - specialize (Ho t (keys_of w)). rewrite Hr in Ho. done.
Qed.

Lemma do_clock {A} (o : op A) w w' r : do_ o w = (w', r) → clock w ≤ clock w'.
Proof. intros Hd. apply do_spec in Hd as (t & Ht & _). lia. Qed.

(** A stretch of the run that only reads. *)
Definition quiet (w w' : W) : Prop :=
  keys_of w' = keys_of w ∧ clock w ≤ clock w' ∧ (∀ c, (calls_left w' c ≤ calls_left w c)%nat) ∧
  ∀ c p k, k ∈ pending w c p → is_Some (keys_of w !! k) → k ∈ pending w' c p.

#[export] Instance quiet_preorder : PreOrder quiet.
Proof.
  split.
  - intros w. split_and!; [done|lia|lia|done].
  - intros w1 w2 w3 (Hk1 & Hc1 & Hl1 & Hp1) (Hk2 & Hc2 & Hl2 & Hp2). split_and!; [congruence|lia| |].
    + intros c. specialize (Hl1 c). specialize (Hl2 c). lia.
    + intros c p k Hk Hs. apply Hp2; [by apply Hp1|by rewrite Hk1].
Qed.

Lemma do_quiet {A} (o : op A) w w' r : (∀ t ks, (o t ks).1 = ks) → do_ o w = (w', r) → quiet w w'.
Proof.
  intros Ho Hd. pose proof (do_readonly _ _ _ _ Ho Hd) as Hk. split_and!; [done|by eapply do_clock| |].
  - intros c. eapply calls_do; [exact Hd|by rewrite Hk].
  - intros c p k Hp Hs. eapply pending_do; [exact Hd|done|by rewrite Hk].
Qed.


(** What holds of the keyspace whether or not the command ran. *)
Lemma do_preserves {A} (P : keyspace → Prop) (o : op A) w w' r :
  P (keys_of w) → (∀ t, P (o t (keys_of w)).1) → do_ o w = (w', r) → P (keys_of w').
Proof.
  intros HP Ho Hd. apply do_spec in Hd as (t & _ & Hr). specialize (Ho t). destruct r as [err|a].
  - by destruct Hr as [->| ->].
  - rewrite Hr in Ho. done.
Qed.

End Client.

#[export] Hint Resolve do_clock : gkit.

(** ** A server that meets the interface *)

Module Ideal.

Record server := Server { s_clock : Time; s_keys : keyspace }.

Definition ideal_do {A} (o : op A) (w : server) : server * (error + A) :=
  let '(ks, a) := o (s_clock w) (s_keys w) in (Server (s_clock w) ks, inr a).

(** Literal patterns, and a star at the end. *)
Fixpoint ideal_glob (p k : string) : bool :=
  match p with
  | EmptyString => bool_decide (k = "")
  | String a p' =>
    if Ascii.eqb a "*" && bool_decide (p' = "") then true
    else match k with String b k' => Ascii.eqb a b && ideal_glob p' k' | EmptyString => false end
  end.

(** One batch with every key. *)
Definition ideal_scan (c : Z) (p : string) (n : Z) (w : server) : server * (error + (list string * Z)) :=
  (w, inr (filter (λ k, ideal_glob p k = true) (elements (dom (s_keys w))), 0)).

Lemma ideal_glob_prefix p k : plain p = true → ideal_glob (p +:+ "*") k = HasPrefix k p.
Proof.
  revert k. induction p as [|a p IH]; intros k; [done|]. simpl. intros [Ha Hp]%andb_true_iff.
  destruct (Ascii.eqb a "*") eqn:E.
  { apply Ascii.eqb_eq in E as ->. done. }
  simpl. destruct k as [|b k]; [done|]. rewrite IH by done. unfold HasPrefix. simpl.
  destruct (Ascii.eqb a b) eqn:E'; [done|done].
Qed.

#[export] Program Instance ideal_redis : Redis server := {
  clock := s_clock; keys_of := s_keys; do_ := @ideal_do; scan := ideal_scan; glob := ideal_glob;
  pending w _ p := filter (λ k, ideal_glob p k = true) (dom (s_keys w));
  calls_left _ _ := 0%nat; glob_prefix := ideal_glob_prefix
}.
Next Obligation.
  intros A o w w' r Hd. exists (s_clock w). unfold ideal_do in Hd.
  destruct (o (s_clock w) (s_keys w)) as [ks a] eqn:E. simplify_eq/=. split; [lia|done].
Qed.
Next Obligation. intros c p n w w' r Hs. unfold ideal_scan in Hs. simplify_eq. split; [lia|done]. Qed.
Next Obligation.
  intros c p n w w' l next Hs. unfold ideal_scan in Hs. simplify_eq/=. split_and!; [|done|].
  - apply Forall_forall. intros k Hk. rewrite list_elem_of_filter in Hk. tauto.
  - intros k e Hk _ _. left. rewrite elem_of_filter in Hk. rewrite list_elem_of_filter, elem_of_elements. tauto.
Qed.
Next Obligation. intros w p k Hk Hg. rewrite elem_of_filter, elem_of_dom. tauto. Qed.
Next Obligation.
  intros A o w w' r c p k Hd Hk Hs. rewrite elem_of_filter, elem_of_dom in *. tauto.
Qed.
Next Obligation. intros. simpl. lia. Qed.

End Ideal.

End Redis.
