(* ===== verification/RedisCache.v ===== *)
(** * pkg/rediscache: a cache of JSON values in Redis

    Every operation with its error paths, against the interface of Redis.v.  The
    operations with their trace spans are in RedisSpans.v.  [json.Marshal] and
    [json.Unmarshal] work by reflection on the type [V] and are parameters. *)

From S2P Require Import Prelude GoLang Strings Redis.
Open Scope Z_scope.

Module RedisCache.
Import Strings Redis.

Record options := Options { o_prefix : string }.
Definition Option_ : Type := options → options.
Definition WithKeyPrefix (prefix : string) : Option_ := λ _, Options prefix.

Record Cache := MkCache { prefix : string }.
Definition New (opts : list Option_) : Cache :=
  MkCache (o_prefix (fold_left (λ o opt, opt o) opts (Options ""))).

Definition k_ (c : Cache) (key : string) : string := prefix c +:+ key.

Section Operations.
Context `{Redis W} {V : Type} (Marshal : V → error + string) (Unmarshal : string → error + V).

(** A miss is [inr None]. *)
Definition Get (c : Cache) (key : string) (w : W) : W * (error + option V) :=
  match do_ (cmd_get (k_ c key)) w with
  | (w, inr None) => (w, inr None)
  | (w, inl err) => (w, inl (ErrWrap "rediscache: get %q: %w" [key] err))
  | (w, inr (Some raw)) =>
    match Unmarshal raw with
    | inl err => (w, inl (ErrWrap "rediscache: unmarshal %q: %w" [key] err))
    | inr v => (w, inr (Some v))
    end
  end.

Definition Set_ (c : Cache) (key : string) (value : V) (ttl : Duration) (w : W) : W * option error :=
  match Marshal value with
  | inl err => (w, Some (ErrWrap "rediscache: marshal %q: %w" [key] err))
  | inr raw =>
    match do_ (cmd_set (k_ c key) raw ttl) w with
    | (w, inl err) => (w, Some (ErrWrap "rediscache: set %q: %w" [key] err))
    | (w, inr _) => (w, None)
    end
  end.

Definition Delete (c : Cache) (key : string) (w : W) : W * option error :=
  match do_ (cmd_del [k_ c key]) w with
  | (w, inl err) => (w, Some (ErrWrap "rediscache: del %q: %w" [key] err))
  | (w, inr _) => (w, None)
  end.

(** One batch of keys, deleted unless it is empty. *)
Definition del_batch (keys : list string) (w : W) : W * option error :=
  if bool_decide (keys = []) then (w, None)
  else match do_ (cmd_del keys) w with
       | (w, inl err) => (w, Some (ErrWrap "rediscache: del batch: %w" [] err))
       | (w, inr _) => (w, None)
       end.

(** The SCAN + DEL loop; [None] stands for running out of fuel. *)
Fixpoint Flush_loop (fuel : nat) (c : Cache) (cursor : Z) (w : W) : W * option (option error) :=
  match fuel with
  | O => (w, None)
  | S fuel =>
    match scan cursor (prefix c +:+ "*") 100 w with
    | (w, inl err) => (w, Some (Some (ErrWrap "rediscache: scan: %w" [] err)))
    | (w, inr (keys, cursor)) =>
      match del_batch keys w with
      | (w, Some err) => (w, Some (Some err))
      | (w, None) => if cursor =? 0 then (w, Some None) else Flush_loop fuel c cursor w
      end
    end
  end.

Definition Flush (fuel : nat) (c : Cache) (w : W) : W * option (option error) :=
  if bool_decide (prefix c = "") then
    match do_ cmd_flushdb w with
    | (w, inl err) => (w, Some (Some (ErrWrap "rediscache: flush db: %w" [] err)))
    | (w, inr _) => (w, Some None)
    end
  else Flush_loop fuel c 0 w.

(** The loop over the replies of [MGet]: nil replies and values that do not decode
    are skipped. *)
Definition collect (keys : list string) (vals : list (option string)) : gmap string V :=
  fold_left (λ m kv, match kv.2 with
                     | None => m
                     | Some raw => match Unmarshal raw with inl _ => m | inr v => <[kv.1 := v]> m end
                     end) (zip keys vals) ∅.

(** No keys give the nil map, which reads as the empty one. *)
Definition MGet (c : Cache) (keys : list string) (w : W) : W * (error + gmap string V) :=
  if bool_decide (keys = []) then (w, inr ∅) else
  match do_ (cmd_mget (k_ c <$> keys)) w with
  | (w, inl err) => (w, inl (ErrWrap "rediscache: mget: %w" [] err))
  | (w, inr vals) => (w, inr (collect keys vals))
  end.

Definition Check_ (w : W) : W * option error :=
  match do_ cmd_ping w with
  | (w, inl err) => (w, Some (ErrWrap "rediscache: ping: %w" [] err))
  | (w, inr _) => (w, None)
  end.

(** ** Specification: the cache as a map at an instant *)

Definition lookup_at (t : Time) (ks : keyspace) (c : Cache) (key : string) : option (error + V) :=
  Unmarshal <$> read t ks (k_ c key).

(** ** Lemmas *)

Lemma k_inj c k k' : k_ c k = k_ c k' → k = k'.
Proof. unfold k_. apply (inj _). Qed.

Lemma collect_lookup keys (f : string → option string) key :
  collect keys (f <$> keys) !! key =
  if decide (key ∈ keys) then raw ← f key; match Unmarshal raw with inl _ => None | inr v => Some v end else None.
Proof.
  unfold collect. set (g := λ m kv, _).
  cut (∀ m, fold_left g (zip keys (f <$> keys)) m !! key =
    match (if decide (key ∈ keys) then raw ← f key; match Unmarshal raw with inl _ => None | inr v => Some v end
           else None) with Some v => Some v | None => m !! key end).
  { intros ->. rewrite lookup_empty. by destruct (if decide _ then _ else _). }
  induction keys as [|k keys IH]; intros m; simpl; [done|]. rewrite IH. unfold g; simpl.
  destruct (decide (key = k)) as [->|Hne].
  - rewrite (decide_True (P := k ∈ k :: keys)) by (by left).
    destruct (f k) as [raw|]; simpl; [|by destruct (decide _)].
    destruct (Unmarshal raw) as [e|v]; [by destruct (decide _)|].
    rewrite lookup_insert_eq. by destruct (decide _).
  - rewrite (decide_ext (key ∈ k :: keys) (key ∈ keys)); [|rewrite elem_of_cons; tauto].
    destruct (if decide (key ∈ keys) then _ else _); [done|].
    destruct (f k) as [raw|]; [|done]. destruct (Unmarshal raw); [done|]. by rewrite lookup_insert_ne.
Qed.

(** The keys an unfinished flush has yet to remove. *)
Definition flush_inv (c : Cache) (cursor : Z) (w : W) : Prop :=
  ∀ k e, keys_of w !! k = Some e → HasPrefix k (prefix c) = true → alive (clock w) e = true →
    k ∈ pending w cursor (prefix c +:+ "*").

Definition outside (c : Cache) (ks ks' : keyspace) : Prop :=
  ∀ k, HasPrefix k (prefix c) = false → ks' !! k = ks !! k.

Lemma outside_trans c ks1 ks2 ks3 : outside c ks1 ks2 → outside c ks2 ks3 → outside c ks1 ks3.
Proof. intros H1 H2 k Hk. by rewrite H2, H1. Qed.

Lemma outside_del c ks l : Forall (λ k, HasPrefix k (prefix c) = true) l → outside c ks (foldr delete ks l).
Proof.
  intros Hl k Hk. rewrite lookup_delete_all. destruct (decide (k ∈ l)) as [Hin|]; [|done].
  rewrite Forall_forall in Hl. apply Hl in Hin. congruence.
Qed.

Lemma del_batch_spec c l w w' r : Forall (λ k, HasPrefix k (prefix c) = true) l →
  del_batch l w = (w', r) →
  outside c (keys_of w) (keys_of w') ∧ clock w ≤ clock w' ∧
  (r = None → keys_of w' = foldr delete (keys_of w) l ∧ ∀ cur p,
     (calls_left w' cur ≤ calls_left w cur)%nat ∧
     ∀ k, k ∈ pending w cur p → is_Some (keys_of w' !! k) → k ∈ pending w' cur p).
Proof.
  unfold del_batch. intros Hl. case_bool_decide as El.
  { intros [= <- <-]. subst l. split_and!; [by intros k|lia|]. intros _. split; [done|]. intros. split; [lia|done]. }
  destruct (do_ (cmd_del l) w) as [w1 [err|n]] eqn:Ed; intros [= <- <-].
  - split_and!; [|eauto with gkit|done].
    apply (do_preserves (outside c (keys_of w)) _ _ _ _ (λ k _, eq_refl)) in Ed; [done|].
    intros t. by apply outside_del.
  - destruct (do_spec _ _ _ _ Ed) as (t & Ht & Hd). injection Hd as Hd _.
    split_and!; [rewrite <-Hd; by apply outside_del|lia|]. intros _. split; [done|]. intros cur p. split.
    + eapply calls_do; [exact Ed|]. rewrite <-Hd. clear. intros k. rewrite !elem_of_dom, lookup_delete_all.
      destruct (decide (k ∈ l)); [by intros []|done].
    + intros k. by eapply pending_do.
Qed.

(** One round of the loop leaves only pending keys. *)
Lemma flush_round c cursor w w1 l next w2 : plain (prefix c) = true → flush_inv c cursor w →
  scan cursor (prefix c +:+ "*") 100 w = (w1, inr (l, next)) → del_batch l w1 = (w2, None) →
  (next ≠ 0 → (calls_left w2 next < calls_left w cursor)%nat) ∧
  ∀ k e, keys_of w2 !! k = Some e → HasPrefix k (prefix c) = true → alive (clock w2) e = true →
    next ≠ 0 ∧ k ∈ pending w2 next (prefix c +:+ "*").
Proof.
  intros Hp Hinv Es Ed. destruct (scan_frame _ _ _ _ _ _ Es) as [Hc1 Hk1].
  apply scan_spec in Es as (Hg & Hcalls & Hpend).
  apply (del_batch_spec c) in Ed as (_ & Hc2 & Hok).
  2: { eapply Forall_impl; [exact Hg|]. intros k. simpl. by rewrite glob_prefix. }
  destruct (Hok eq_refl) as (Hk2 & Hcl). split.
  { intros Hn. specialize (Hcalls Hn). destruct (Hcl next ""). lia. }
  intros k e Hke Hpk Ha. pose proof Hke as Hke'. rewrite Hk2, lookup_delete_all in Hke.
  destruct (decide (k ∈ l)); [done|]. rewrite Hk1 in Hke.
  destruct (Hpend k e) as [?|[Hn Hpn]]; [|done|eauto with gkit|done|].
  - eapply Hinv; [done|done|]. eapply alive_mono; [|done]. lia.
  - split; [done|]. apply Hcl; [done|]. by eexists.
Qed.

Lemma Flush_loop_spec c fuel : plain (prefix c) = true →
  ∀ cursor w, flush_inv c cursor w → (calls_left w cursor < fuel)%nat →
  ∃ w' r, Flush_loop fuel c cursor w = (w', Some r) ∧ outside c (keys_of w) (keys_of w') ∧
    (r = None → ∀ key, read (clock w') (keys_of w') (k_ c key) = None).
Proof.
  intros Hp. induction fuel as [|fuel IH]; intros cursor w Hinv Hf; [lia|]. simpl.
  destruct (scan cursor _ 100 w) as [w1 [err|[l next]]] eqn:Es.
  { apply scan_frame in Es as [_ Hk]. eexists w1, _. split; [done|]. split; [by intros k _; rewrite Hk|done]. }
  destruct (del_batch l w1) as [w2 r] eqn:Ed.
  assert (Hout : outside c (keys_of w) (keys_of w2)).
  { pose proof (scan_frame _ _ _ _ _ _ Es) as [_ <-]. apply scan_spec in Es as (Hg & _ & _).
    eapply del_batch_spec; [|exact Ed]. eapply Forall_impl; [exact Hg|]. intros k. simpl. by rewrite glob_prefix. }
  destruct r as [err|]; [by eexists w2, _|].
  destruct (flush_round _ _ _ _ _ _ _ Hp Hinv Es Ed) as [Hcalls Hleft].
  destruct (next =? 0) eqn:En; zbool.
  - eexists w2, None. split; [done|]. split; [done|]. intros _ key. unfold read.
    destruct (keys_of w2 !! k_ c key) as [e|] eqn:Ee; [|done]. simpl.
    destruct (alive (clock w2) e) eqn:Ea; [|done].
    by destruct (Hleft _ _ Ee (HasPrefix_app _ _) Ea).
  - destruct (IH next w2) as (w' & r & Hr & Ho & Hn).
    { intros k e ???. by eapply Hleft. }
    { specialize (Hcalls En). lia. }
    eexists w', r. split; [done|]. split; [by eapply outside_trans|done].
Qed.

Lemma Get_spec c key w w' r : Get c key w = (w', r) →
  keys_of w' = keys_of w ∧
  ∀ ov, r = inr ov → ∃ t, clock w ≤ t ≤ clock w' ∧
    match lookup_at t (keys_of w) c key with
    | None => ov = None
    | Some (inl _) => False
    | Some (inr v) => ov = Some v
    end.
Proof.
  unfold Get, lookup_at. destruct (do_ _ w) as [w1 [err|raw]] eqn:Ed.
  - intros [= <- <-]. split; [|done]. by eapply do_readonly in Ed.
  - assert (Hk : keys_of w1 = keys_of w) by (by eapply do_readonly in Ed).
    apply do_spec in Ed as (t & Ht & Hd). injection Hd as _ Hr. intros Hg.
    assert (w' = w1) as -> by (destruct raw as [raw|]; [destruct (Unmarshal raw)|]; by simplify_eq).
    split; [done|]. intros ov ->. exists t. split; [done|]. rewrite Hr.
    destruct raw as [raw|]; simpl; [destruct (Unmarshal raw)|]; by simplify_eq.
Qed.

(** ** Properties *)

(** [Flush] terminates once the calls a scan needs fit the fuel; it touches no
    key outside the cache's prefix, and when it reports success every key of the
    cache misses.  With the empty prefix that is the whole database. *)
Theorem flush_spec c fuel w : plain (prefix c) = true → (calls_left w 0 < fuel)%nat →
  ∃ w' r, Flush fuel c w = (w', Some r) ∧
    (∀ k, HasPrefix k (prefix c) = false → keys_of w' !! k = keys_of w !! k) ∧
    (r = None → ∀ key, read (clock w') (keys_of w') (k_ c key) = None).
Proof.
  intros Hp Hf. unfold Flush. case_bool_decide as Hpre.
  - destruct (do_ cmd_flushdb w) as [w1 [err|[]]] eqn:Ed; (eexists w1, _; split; [done|]; split);
      [intros k Hk; by rewrite Hpre in Hk|done|intros k Hk; by rewrite Hpre in Hk|].
    intros _ key. apply do_spec in Ed as (t & _ & Hd). injection Hd as Hd. unfold read. by rewrite <-Hd, lookup_empty.
  - apply Flush_loop_spec; [done| |done]. intros k e Hk Hpk _. apply pending_start; [by eexists|].
    by rewrite glob_prefix.
Qed.

(** A value that was set and survives a JSON round trip is what [Get] returns
    until its time to live is over; [ttl <= 0] (but not [KeepTTL]) means for ever. *)
Theorem set_get c key v raw ttl w w1 w2 r :
  Marshal v = inr raw → Unmarshal raw = inr v → ttl ≠ KeepTTL →
  Set_ c key v ttl w = (w1, None) → Get c key w1 = (w2, inr r) →
  ttl ≤ 0 ∨ clock w2 ≤ clock w + Z.max Millisecond (ttl / Millisecond * Millisecond) →
  r = Some v.
Proof.
  intros Hm Hu Hk Hs Hg Hlive. unfold Set_ in Hs. rewrite Hm in Hs.
  destruct (do_ _ w) as [w1' [err|[]]] eqn:Ed; simplify_eq. apply do_spec in Ed as (t & Ht & Hd).
  unfold cmd_set in Hd. rewrite (proj2 (Z.eqb_neq _ _) Hk) in Hd. injection Hd as Hd.
  apply Get_spec in Hg as [_ Hg]. destruct (Hg r eq_refl) as (t' & Ht' & Hr).
  unfold lookup_at in Hr. rewrite <-Hd, read_insert in Hr.
  replace (alive _ _) with true in Hr; [by simpl in Hr; rewrite Hu in Hr|]. symmetry.
  unfold alive, deadline. simpl. destruct (ttl >? 0) eqn:E; [|done]. zbool. apply Z.leb_le. lia.
Qed.

(** [MGet] answers for all keys as of one instant: it maps a key to a value
    exactly when the key was asked for, is present and decodes; the keys missing or
    broken are absent from the result. *)
Theorem mget_spec c keys w w' m : MGet c keys w = (w', inr m) →
  keys_of w' = keys_of w ∧ ∃ t, clock w ≤ t ≤ clock w' ∧
  ∀ key v, m !! key = Some v ↔ key ∈ keys ∧ lookup_at t (keys_of w) c key = Some (inr v).
Proof.
  unfold MGet. case_bool_decide as Ek.
  { intros [= <- <-]. split; [done|]. exists (clock w). split; [lia|]. subst keys. intros key v.
    rewrite lookup_empty, elem_of_nil. naive_solver. }
  destruct (do_ _ w) as [w1 [err|vals]] eqn:Ed; intros [= <- <-].
  split; [by eapply do_readonly in Ed|]. apply do_spec in Ed as (t & Ht & Hd). exists t. split; [done|].
  injection Hd as _ <-. intros key v. rewrite <-list_fmap_compose.
  rewrite (collect_lookup keys (read t (keys_of w) ∘ k_ c)). unfold lookup_at. simpl.
  destruct (decide (key ∈ keys)); [|naive_solver].
  destruct (read t (keys_of w) (k_ c key)) as [raw|]; simpl; [|naive_solver].
  destruct (Unmarshal raw); naive_solver.
Qed.

End Operations.

(** ** Witnesses: strings that are their own encoding *)

Import Ideal.

Definition demo : Cache := New [WithKeyPrefix "p:"].
Definition demo_server : Ideal.server :=
  Ideal.Server 0 (list_to_map [("p:a", Entry "x" None); ("q", Entry "y" None)]).

Lemma flush_spec_witness :
  ∃ w' r, Flush 1 demo demo_server = (w', Some r) ∧
    (∀ k, HasPrefix k (prefix demo) = false → keys_of w' !! k = keys_of demo_server !! k) ∧
    (r = None → ∀ key, read (clock w') (keys_of w') (k_ demo key) = None).
Proof. apply (flush_spec demo 1 demo_server); [reflexivity|simpl; lia]. Defined.

Lemma set_get_witness : Some "v" = Some "v".
Proof.
  refine (set_get inr inr demo "a" "v" "v" Second demo_server _ _ _ eq_refl eq_refl _ eq_refl eq_refl _).
  - unfold KeepTTL, Second. lia.
  - right. vm_compute. discriminate.
Defined.

Lemma mget_spec_witness :
  MGet inr demo ["a"; "b"] demo_server = (demo_server, inr {["a" := "x"]}) ∧
  ∃ t, lookup_at inr t (keys_of demo_server) demo "a" = Some (inr "x").
Proof.
  assert (Hm : MGet inr demo ["a"; "b"] demo_server = (demo_server, inr {["a" := "x"]})) by (vm_compute; reflexivity).
  split; [exact Hm|]. destruct (mget_spec inr inr demo ["a"; "b"] demo_server _ _ Hm) as [_ (t & _ & Hv)].
  exists t. apply (Hv "a" "x"). reflexivity.
Defined.

End RedisCache.
