(* ===== verification/RedisSpans.v ===== *)
(** * pkg/rediscache: the spans of the operations

    The operations of RedisCache.v with the client spans they open, on the world paired
    with the trace of Tracing.v.  Erasing the trace gives back RedisCache.v. *)

From S2P Require Import Prelude GoLang Strings Redis RedisCache Tracing.
Open Scope Z_scope.

Module RedisSpans.
Import Redis RedisCache.
Notation tevent := Tracing.tevent.
Notation trace := Tracing.trace.

Section Operations.
Context `{Redis W} {V : Type} (Marshal : V → error + string) (Unmarshal : string → error + V).
(** [err.Error()] and the decimal rendering of a length. *)
Context (Error : error → string) (Itoa : nat → string).

Notation T := (W * trace)%type.

Definition span_ (op key : string) (tr : trace) : trace * Tracing.span :=
  Tracing.tracer_Start ("redis." +:+ op) [("db.system", "redis"); ("db.operation", op); ("cache.key", key)] tr.

Definition recordErr (sp : Tracing.span) (err : error) : trace :=
  [Tracing.RecordError_ sp err; Tracing.SetStatus sp (Error err)].

Definition hit (sp : Tracing.span) (b : bool) : trace :=
  [Tracing.SetAttributes sp "cache.hit" (if b then "true" else "false")].

Definition Get_t (c : Cache) (key : string) (x : T) : T * (error + option V) :=
  let '(w, tr) := x in
  let '(tr, sp) := span_ "GET" key tr in
  match do_ (cmd_get (k_ c key)) w with
  | (w, inr None) => (w, tr ++ hit sp false ++ [Tracing.SpanEnd sp], inr None)
  | (w, inl err) => (w, tr ++ recordErr sp err ++ [Tracing.SpanEnd sp], inl (ErrWrap "rediscache: get %q: %w" [key] err))
  | (w, inr (Some raw)) =>
    match Unmarshal raw with
    | inl err => (w, tr ++ hit sp true ++ [Tracing.SpanEnd sp], inl (ErrWrap "rediscache: unmarshal %q: %w" [key] err))
    | inr v => (w, tr ++ hit sp true ++ [Tracing.SpanEnd sp], inr (Some v))
    end
  end.

Definition Set_t (c : Cache) (key : string) (value : V) (ttl : Duration) (x : T) : T * option error :=
  let '(w, tr) := x in
  let '(tr, sp) := span_ "SET" key tr in
  match Marshal value with
  | inl err => (w, tr ++ [] ++ [Tracing.SpanEnd sp], Some (ErrWrap "rediscache: marshal %q: %w" [key] err))
  | inr raw =>
    match do_ (cmd_set (k_ c key) raw ttl) w with
    | (w, inl err) => (w, tr ++ recordErr sp err ++ [Tracing.SpanEnd sp], Some (ErrWrap "rediscache: set %q: %w" [key] err))
    | (w, inr _) => (w, tr ++ [] ++ [Tracing.SpanEnd sp], None)
    end
  end.

Definition Delete_t (c : Cache) (key : string) (x : T) : T * option error :=
  let '(w, tr) := x in
  let '(tr, sp) := span_ "DEL" key tr in
  match do_ (cmd_del [k_ c key]) w with
  | (w, inl err) => (w, tr ++ recordErr sp err ++ [Tracing.SpanEnd sp], Some (ErrWrap "rediscache: del %q: %w" [key] err))
  | (w, inr _) => (w, tr ++ [] ++ [Tracing.SpanEnd sp], None)
  end.

(** The loop of [Flush]: the events it puts on the span. *)
Fixpoint Flush_loop_t (fuel : nat) (c : Cache) (sp : Tracing.span) (cursor : Z) (w : W)
    : W * trace * option (option error) :=
  match fuel with
  | O => (w, [], None)
  | S fuel =>
    match scan cursor (prefix c +:+ "*") 100 w with
    | (w, inl err) => (w, recordErr sp err, Some (Some (ErrWrap "rediscache: scan: %w" [] err)))
    | (w, inr (keys, cursor)) =>
      match (if bool_decide (keys = []) then (w, None)
             else match do_ (cmd_del keys) w with (w, inl err) => (w, Some err) | (w, inr _) => (w, None) end) with
      | (w, Some err) => (w, recordErr sp err, Some (Some (ErrWrap "rediscache: del batch: %w" [] err)))
      | (w, None) => if cursor =? 0 then (w, [], Some None) else Flush_loop_t fuel c sp cursor w
      end
    end
  end.

Definition Flush_t (fuel : nat) (c : Cache) (x : T) : T * option (option error) :=
  let '(w, tr) := x in
  let '(tr, sp) := span_ "FLUSH" "*" tr in
  if bool_decide (prefix c = "") then
    match do_ cmd_flushdb w with
    | (w, inl err) => (w, tr ++ recordErr sp err ++ [Tracing.SpanEnd sp], Some (Some (ErrWrap "rediscache: flush db: %w" [] err)))
    | (w, inr _) => (w, tr ++ [] ++ [Tracing.SpanEnd sp], Some None)
    end
  else let '(w, evs, r) := Flush_loop_t fuel c sp 0 w in (w, tr ++ evs ++ [Tracing.SpanEnd sp], r).

Definition MGet_t (c : Cache) (keys : list string) (x : T) : T * (error + gmap string V) :=
  if bool_decide (keys = []) then (x, inr ∅) else
  let '(w, tr) := x in
  let '(tr, sp) := span_ "MGET" (Itoa (length keys) +:+ " keys") tr in
  match do_ (cmd_mget (k_ c <$> keys)) w with
  | (w, inl err) => (w, tr ++ recordErr sp err ++ [Tracing.SpanEnd sp], inl (ErrWrap "rediscache: mget: %w" [] err))
  | (w, inr vals) => (w, tr ++ [] ++ [Tracing.SpanEnd sp], inr (collect Unmarshal keys vals))
  end.

(** ** Specification *)

(** A traced operation does what the plain one does, ends its span, leaves older spans
    alone, and marks its span as failed exactly when [bad]. *)
Definition traced {A} (opT : T → T * A) (op : W → W * A) (bad : W → Prop) : Prop :=
  ∀ w tr, Tracing.wf tr → ∃ tr', opT (w, tr) = ((op w).1, tr', (op w).2) ∧ Tracing.extends tr tr' ∧
    (Tracing.failed (Tracing.starts tr) tr' ↔ bad w).

(** ** Lemmas *)

Lemma failed_recordErr sp err : Tracing.failed sp (recordErr sp err).
Proof. exists (Error err). right. left. Qed.

Lemma not_failed_nil sp : ¬ Tracing.failed sp [].
Proof. by intros [d ?%not_elem_of_nil]. Qed.

Lemma not_failed_hit sp b : ¬ Tracing.failed sp (hit sp b).
Proof. intros [d Hd]. by apply list_elem_of_singleton in Hd. Qed.

(** The two shapes of a span's events, both without a start or an end. *)
Definition leaf (sp : Tracing.span) (evs : trace) : Prop :=
  Forall (λ e, Tracing.span_of e = sp) evs ∧ ∀ o, fold_left Tracing.open_step evs o = o.

Lemma leaf_nil sp : leaf sp [].
Proof. by split; [constructor|]. Qed.
Lemma leaf_hit sp b : leaf sp (hit sp b).
Proof. by split; [repeat constructor|]. Qed.
Lemma leaf_err sp err : leaf sp (recordErr sp err).
Proof. by split; [repeat constructor|]. Qed.
#[local] Hint Resolve leaf_nil leaf_hit leaf_err : core.

(** One span of an operation. *)
Lemma op_span {A} (op key : string) (w : W) (a : A) (bad : Prop) tr evs (x : T * A) :
  x = (w, (span_ op key tr).1 ++ evs ++ [Tracing.SpanEnd (Tracing.starts tr)], a) →
  Tracing.wf tr → leaf (Tracing.starts tr) evs → (Tracing.failed (Tracing.starts tr) evs ↔ bad) →
  ∃ tr', x = (w, tr', a) ∧ Tracing.extends tr tr' ∧ (Tracing.failed (Tracing.starts tr) tr' ↔ bad).
Proof.
  intros -> Hwf [H1 H2] Hb. eexists. split; [done|].
  destruct (Tracing.leaf_span ("redis." +:+ op) [("db.system", "redis"); ("db.operation", op); ("cache.key", key)] tr evs Hwf H1 H2)
    as [H3 H4]. split; [done|]. by rewrite <-Hb.
Qed.

Lemma Flush_loop_erase fuel c sp cursor w :
  let '(w', evs, r) := Flush_loop_t fuel c sp cursor w in
  Flush_loop fuel c cursor w = (w', r) ∧ leaf sp evs ∧ (Tracing.failed sp evs ↔ ∃ e, r = Some (Some e)).
Proof.
  revert cursor w. induction fuel as [|fuel IH]; intros cursor w; simpl.
  { split_and!; [done|done|]. split; [by intros ?%not_failed_nil|by intros [? ?]]. }
  destruct (scan cursor (prefix c +:+ "*") 100 w) as [w1 [err|[keys cur]]].
  { split_and!; [done|done|]. split; [by eexists|]. intros _. apply failed_recordErr. }
  unfold del_batch. destruct (bool_decide (keys = [])); [|destruct (do_ (cmd_del keys) w1) as [w2 [err|n]]].
  2: { split_and!; [done|done|]. split; [by eexists|]. intros _. apply failed_recordErr. }
  all: destruct (cur =? 0); [|apply IH].
  all: split_and!; [done|done|]; (split; [by intros ?%not_failed_nil|by intros [? ?]]).
Qed.

Lemma span_iff sp evs (bad : Prop) : (bad ∧ Tracing.failed sp evs) ∨ (¬ bad ∧ ¬ Tracing.failed sp evs) →
  Tracing.failed sp evs ↔ bad.
Proof. tauto. Qed.

Ltac one_span key := eapply (op_span _ key); [reflexivity|done|auto|].
Ltac failed_span := apply span_iff; left; split; [by eexists|apply failed_recordErr].
Ltac fine_span :=
  apply span_iff; right; split; [naive_solver|first [apply not_failed_nil|apply not_failed_hit]].

(** ** Properties *)

(** The cache's spans observe and nothing else: each traced operation does to Redis and
    returns exactly what the operation of RedisCache.v does, opens at most one span, ends
    it and touches no older one; the span has an error status exactly when a command failed.
    An error of the JSON codec leaves it clean. *)
Theorem redis_spans c key value ttl fuel keys :
  traced (Get_t c key) (Get Unmarshal c key) (λ w, ∃ e, (do_ (cmd_get (k_ c key)) w).2 = inl e) ∧
  traced (Set_t c key value ttl) (Set_ Marshal c key value ttl)
    (λ w, ∃ raw e, Marshal value = inr raw ∧ (do_ (cmd_set (k_ c key) raw ttl) w).2 = inl e) ∧
  traced (Delete_t c key) (Delete c key) (λ w, (Delete c key w).2 ≠ None) ∧
  traced (Flush_t fuel c) (Flush fuel c) (λ w, ∃ e, (Flush fuel c w).2 = Some (Some e)) ∧
  traced (MGet_t c keys) (MGet Unmarshal c keys) (λ w, ∃ e, (MGet Unmarshal c keys w).2 = inl e).
Proof.
  split_and!; intros w tr Hwf.
  - unfold Get_t, Get. cbn [span_ Tracing.tracer_Start]. destruct (do_ (cmd_get (k_ c key)) w) as [w1 [err|[raw|]]]; [| |]; cbn [fst snd].
    + one_span key. failed_span.
    + destruct (Unmarshal raw); one_span key; fine_span.
    + one_span key. fine_span.
  - unfold Set_t, Set_. cbn [span_ Tracing.tracer_Start]. destruct (Marshal value) as [e|raw] eqn:Em; cbn [fst snd].
    { one_span key. fine_span. }
    destruct (do_ (cmd_set (k_ c key) raw ttl) w) as [w1 [err|u]] eqn:Ed; cbn [fst snd]; one_span key.
    + apply span_iff. left. split; [exists raw, err; by rewrite Ed|apply failed_recordErr].
    + apply span_iff. right. split; [|apply not_failed_nil].
      intros (raw' & e & E1 & E2). simplify_eq. by rewrite Ed in E2.
  - unfold Delete_t, Delete. cbn [span_ Tracing.tracer_Start]. destruct (do_ (cmd_del [k_ c key]) w) as [w1 [err|n]]; cbn [fst snd]; one_span key.
    + apply span_iff. left. split; [done|apply failed_recordErr].
    + fine_span.
  - unfold Flush_t, Flush. cbn [span_ Tracing.tracer_Start]. destruct (bool_decide (prefix c = "")).
    + destruct (do_ cmd_flushdb w) as [w1 [err|u]]; cbn [fst snd]; one_span "*"; [failed_span|fine_span].
    + pose proof (Flush_loop_erase fuel c (Tracing.starts tr) 0 w) as Hl.
      destruct (Flush_loop_t fuel c (Tracing.starts tr) 0 w) as [[w1 evs] r]. destruct Hl as (-> & H1 & H2).
      cbn [fst snd]. by one_span "*".
  - unfold MGet_t, MGet. destruct (bool_decide (keys = [])).
    { exists tr. split_and!; [done|apply Tracing.extends_refl|]. split; [by intros ?%Tracing.wf_fresh|by intros [? ?]]. }
    cbn [span_ Tracing.tracer_Start]. destruct (do_ (cmd_mget (k_ c <$> keys)) w) as [w1 [err|vals]]; cbn [fst snd];
      one_span (Itoa (length keys) +:+ " keys"); [failed_span|fine_span].
Qed.
End Operations.

(** ** Witness *)

Import Ideal.

Lemma redis_spans_witness : ∃ tr',
  Get_t inr (λ _, "") demo "a" (demo_server, []) = (demo_server, tr', inr (Some "x")) ∧
  Tracing.open_spans tr' = ∅ ∧ ¬ Tracing.failed 0%nat tr'.
Proof.
  destruct (redis_spans inr inr (λ _, "") (λ _, "2") demo "a" "v" 0 1 ["a"]) as (Hg & _).
  destruct (Hg demo_server [] (Forall_nil_2 _)) as (tr' & Hr & (_ & _ & _ & Ho) & Hf).
  exists tr'. split_and!; [etrans; [exact Hr|vm_compute; reflexivity]|exact Ho|]. intros Hb. apply Hf in Hb as [e He]. vm_compute in He. discriminate.
Defined.

End RedisSpans.
