(* ===== verification/Feature.v ===== *)
(** * pkg/feature: feature flags in Redis

    Flags are JSON documents under [namespace:flags:name]; [json.Marshal] and
    [json.Unmarshal] on [Flag] are parameters.  A rollout hashes the flag and the
    entity with FNV-1a into 100 buckets. *)

From Stdlib Require Import Ascii.
From S2P Require Import Prelude GoLang Strings Redis.
Open Scope Z_scope.

Module Feature.
Import Strings Redis.

Record Flag := MkFlag { Enabled : bool; Percentage : Z; AllowList : list string; UpdatedAt : Time }.
Definition zero_Flag : Flag := MkFlag false 0 [] time_zero.

Record Store := MkStore { namespace : string }.
Definition Option_ : Type := Store → Store.
Definition WithNamespace (ns : string) : Option_ := λ _, MkStore ns.
Definition NewStore (opts : list Option_) : Store := fold_left (λ s o, o s) opts (MkStore "gkit").

Definition key (s : Store) (name : string) : string := namespace s +:+ ":flags:" +:+ name.

(** ** Hashing *)

Definition fnv_offset : Z := 14695981039346656037.
Definition fnv_prime : Z := 1099511628211.

(** [fnv.New64a] after [Write]. *)
Fixpoint fnv1a (h : Z) (s : string) : Z :=
  match s with
  | EmptyString => h
  | String c s => fnv1a (uwrap64 (Z.lxor h (Z.of_nat (nat_of_ascii c)) * fnv_prime)) s
  end.

Definition hashBucket (k : string) (buckets : Z) : Z := wrap64 (fnv1a fnv_offset k mod uwrap64 buckets).

(** ** The store *)

Section Operations.
Context `{Redis W} (Marshal : Flag → error + string) (Unmarshal : string → error + Flag).

Definition Set_ (s : Store) (NOW : Time) (name : string) (flag : Flag) (w : W) : W * option error :=
  let flag := MkFlag (Enabled flag) (Percentage flag) (AllowList flag) NOW in
  match Marshal flag with
  | inl err => (w, Some (ErrWrap "feature: marshal %q: %w" [name] err))
  | inr raw =>
    match do_ (cmd_set (key s name) raw 0) w with
    | (w, inl err) => (w, Some (ErrWrap "feature: set %q: %w" [name] err))
    | (w, inr _) => (w, None)
    end
  end.

Definition Get (s : Store) (name : string) (w : W) : W * (Flag * bool * option error) :=
  match do_ (cmd_get (key s name)) w with
  | (w, inr None) => (w, (zero_Flag, false, None))
  | (w, inl err) => (w, (zero_Flag, false, Some (ErrWrap "feature: get %q: %w" [name] err)))
  | (w, inr (Some raw)) =>
    match Unmarshal raw with
    | inl err => (w, (zero_Flag, false, Some (ErrWrap "feature: unmarshal %q: %w" [name] err)))
    | inr f => (w, (f, true, None))
    end
  end.

Definition Delete (s : Store) (name : string) (w : W) : W * option error :=
  match do_ (cmd_del [key s name]) w with
  | (w, inl err) => (w, Some (ErrWrap "feature: delete %q: %w" [name] err))
  | (w, inr _) => (w, None)
  end.

Definition IsEnabled (s : Store) (name : string) (w : W) : W * bool :=
  match Get s name w with
  | (w, (_, _, Some err)) => (w, false)
  | (w, (f, ok, None)) =>
    (w, ok && Enabled f && ((Percentage f =? 0) || (Percentage f >=? 100)) && bool_decide (AllowList f = []))
  end.

Definition IsEnabledFor (s : Store) (name entityID : string) (w : W) : W * bool :=
  match Get s name w with
  | (w, (_, _, Some err)) => (w, false)
  | (w, (f, ok, None)) =>
    (w, if negb ok || negb (Enabled f) then false
        else if existsb (λ id, bool_decide (id = entityID)) (AllowList f) then true
        else if Percentage f >? 0 then hashBucket (name +:+ ":" +:+ entityID) 100 <? Percentage f
        else true)
  end.

(** One key of [ListAll]: an unreadable one is skipped; [k[len(prefix):]] panics on
    a key shorter than the prefix. *)
Definition list_key (s : Store) (k : string) (flags : gmap string Flag) (w : W)
    : W * outcome (gmap string Flag) :=
  match do_ (cmd_get k) w with
  | (w, inr (Some raw)) =>
    match Unmarshal raw with
    | inl _ => (w, Ret flags)
    | inr f =>
      let prefix := key s "" in
      if (String.length k <? String.length prefix)%nat then (w, Panic "slice bounds out of range")
      else (w, Ret (<[from (String.length prefix) k := f]> flags))
    end
  | (w, _) => (w, Ret flags)
  end.

Fixpoint list_batch (s : Store) (keys : list string) (flags : gmap string Flag) (w : W)
    : W * outcome (gmap string Flag) :=
  match keys with
  | [] => (w, Ret flags)
  | k :: keys =>
    match list_key s k flags w with
    | (w, Panic m) => (w, Panic m)
    | (w, Ret flags) => list_batch s keys flags w
    end
  end.

(** [None] stands for running out of fuel. *)
Fixpoint ListAll_loop (fuel : nat) (s : Store) (cursor : Z) (flags : gmap string Flag) (w : W)
    : W * option (outcome (error + gmap string Flag)) :=
  match fuel with
  | O => (w, None)
  | S fuel =>
    match scan cursor (key s "*") 100 w with
    | (w, inl err) => (w, Some (Ret (inl (ErrWrap "feature: scan: %w" [] err))))
    | (w, inr (keys, next)) =>
      match list_batch s keys flags w with
      | (w, Panic m) => (w, Some (Panic m))
      | (w, Ret flags) => if next =? 0 then (w, Some (Ret (inr flags))) else ListAll_loop fuel s next flags w
      end
    end
  end.

Definition ListAll (fuel : nat) (s : Store) (w : W) : W * option (outcome (error + gmap string Flag)) :=
  ListAll_loop fuel s 0 ∅ w.

End Operations.

(** ** Specification *)

(** Whether a flag is on for an entity. *)
Definition decision (f : Flag) (name entityID : string) : bool :=
  Enabled f && (bool_decide (entityID ∈ AllowList f)
                || (Percentage f <=? 0) || (hashBucket (name +:+ ":" +:+ entityID) 100 <? Percentage f)).

(** ** Lemmas *)

Lemma hashBucket_range k : 0 ≤ hashBucket k 100 < 100.
Proof.
  unfold hashBucket. rewrite (uwrap64_id 100) by lia.
  pose proof (Z.mod_pos_bound (fnv1a fnv_offset k) 100 ltac:(lia)).
  rewrite wrap64_id; [lia|]. unfold is_int64, int64_min, int64_max. lia.
Qed.

Lemma from_app p t : from (String.length p) (p +:+ t) = t.
Proof. induction p as [|a p IH]; [by destruct t|]. exact IH. Qed.

Lemma HasPrefix_split k p : HasPrefix k p = true ↔ ∃ t, k = p +:+ t.
Proof.
  split; [|intros [t ->]; apply HasPrefix_app]. unfold HasPrefix.
  revert k. induction p as [|a p IH]; intros k; simpl; [by exists k|]. destruct k as [|b k]; [done|].
  destruct (Ascii.eqb a b) eqn:E; [|done]. apply Ascii.eqb_eq in E as <-. intros Hk.
  apply IH in Hk as [t ->]. by exists t.
Qed.

Lemma plain_app p q : plain (p +:+ q) = plain p && plain q.
Proof. induction p as [|a p IH]; [done|]. simpl. rewrite IH. by rewrite andb_assoc. Qed.

Lemma app_string_assoc (p q r : string) : (p +:+ q) +:+ r = p +:+ q +:+ r.
Proof. induction p as [|a p IH]; [done|]. exact (f_equal (String a) IH). Qed.

Lemma key_app s name : key s name = key s "" +:+ name.
Proof. unfold key. rewrite app_string_assoc. done. Qed.

Section Proofs.
Context `{Redis W} (Marshal : Flag → error + string) (Unmarshal : string → error + Flag).

Lemma glob_key s k : plain (namespace s) = true →
  glob (key s "*") k = true ↔ ∃ name, k = key s name.
Proof.
  intros Hp. rewrite key_app, glob_prefix, HasPrefix_split.
  - split; intros [t Ht]; exists t; [rewrite key_app|rewrite key_app in Ht]; done.
  - unfold key. rewrite plain_app, Hp. done.
Qed.

(** What a listing may contain, and what it must. *)
Definition flags_sound (s : Store) (ks : keyspace) (m : gmap string Flag) : Prop :=
  ∀ name f, m !! name = Some f → ∃ e, ks !! key s name = Some e ∧ Unmarshal (contents e) = inr f.

(** No [GET] fails. *)
Definition reads_succeed : Prop := ∀ (k : string) (w : W), ∃ w' v, do_ (cmd_get k) w = (w', inr v).

(** The flags of a listing so far: everything in it is stored, and when no read
    fails it has the decodable flags of [seen] that are alive. *)
Definition listing (s : Store) (w0 w : W) (seen : list string) (m : gmap string Flag) : Prop :=
  keys_of w = keys_of w0 ∧ flags_sound s (keys_of w0) m ∧
  (reads_succeed → ∀ name e f, key s name ∈ seen → keys_of w0 !! key s name = Some e →
     alive (clock w) e = true → Unmarshal (contents e) = inr f → m !! name = Some f).

Lemma key_inj s name name' : key s name = key s name' → name = name'.
Proof. rewrite !(key_app s name), (key_app s name'). apply (inj _). Qed.

(** A key whose processing leaves [m] is accounted for. *)
Lemma listing_snoc s w0 w w' seen m m' name :
  listing s w0 w seen m → quiet w w' → flags_sound s (keys_of w0) m' →
  (∀ name', name' ≠ name → m' !! name' = m !! name') →
  (reads_succeed → ∀ e f, keys_of w0 !! key s name = Some e → alive (clock w') e = true →
     Unmarshal (contents e) = inr f → m' !! name = Some f) →
  listing s w0 w' (seen ++ [key s name]) m'.
Proof.
  intros (Hq & Hs & Hc) Hq' Hs' Hne Hnew. split_and!; [by destruct Hq' as [-> _]|done|].
  intros Hr name' e f Hin He Ha Hu. destruct (decide (name' = name)) as [->|Hn]; [by eapply Hnew|].
  rewrite Hne by done. eapply (Hc Hr); [|done|eapply alive_mono; [apply Hq'|done]|done].
  apply elem_of_app in Hin as [|Hin]; [done|]. apply list_elem_of_singleton, key_inj in Hin. done.
Qed.

Lemma list_key_spec s w0 seen name flags w : listing s w0 w seen flags →
  ∃ w' m, list_key Unmarshal s (key s name) flags w = (w', Ret m) ∧ quiet w w' ∧
    listing s w0 w' (seen ++ [key s name]) m.
Proof.
  intros Hl. pose proof Hl as (Hk0 & Hs & _). unfold list_key.
  destruct (do_ (cmd_get (key s name)) w) as [w1 r] eqn:Ed.
  assert (Hq1 : quiet w w1) by (by eapply (do_quiet (cmd_get (key s name)))). destruct r as [err|v].
  { exists w1, flags. split_and!; [done|done|]. eapply listing_snoc; [exact Hl|done|done|done|]. intros Hr.
    destruct (Hr (key s name) w) as (? & ? & Hr'). congruence. }
  apply do_spec in Ed as (t & Ht & Hd). injection Hd as _ Hv. rewrite Hk0 in Hv. unfold read in Hv.
  destruct v as [raw|].
  - destruct (keys_of w0 !! key s name) as [e|] eqn:Ee; [|done]. simpl in Hv.
    destruct (alive t e) eqn:Ea; [|done]. injection Hv as <-.
    destruct (Unmarshal (contents e)) as [err|f] eqn:Eu.
    { exists w1, flags. split_and!; [done|done|]. eapply listing_snoc; [exact Hl|done|done|done|]. intros _ e' f' ???. congruence. }
    rewrite (key_app s name), length_string_app, (proj2 (Nat.ltb_ge _ _)) by lia. rewrite from_app, <-key_app.
    eexists w1, _. split_and!; [done|done|]. eapply listing_snoc; [exact Hl|done| | |].
    + intros name' f'. rewrite lookup_insert. case_decide as Hn; [|apply Hs].
      intros [= <-]. subst. eauto.
    + intros name' Hn. by rewrite lookup_insert_ne.
    + intros _ e' f' ???. rewrite lookup_insert_eq. congruence.
  - exists w1, flags. split_and!; [done|done|]. eapply listing_snoc; [exact Hl|done|done|done|]. intros _ e f He Ha Hu.
    rewrite He in Hv. simpl in Hv. rewrite (alive_mono t (clock w1)) in Hv; [done|lia|done].
Qed.

Lemma list_batch_spec s w0 keys : Forall (λ k, ∃ name, k = key s name) keys →
  ∀ seen flags w, listing s w0 w seen flags →
  ∃ w' m, list_batch Unmarshal s keys flags w = (w', Ret m) ∧ quiet w w' ∧
    listing s w0 w' (seen ++ keys) m.
Proof.
  induction 1 as [|k keys [name ->] _ IH]; intros seen flags w Hl; simpl.
  - exists w, flags. rewrite app_nil_r. by split_and!.
  - destruct (list_key_spec s w0 seen name flags w Hl) as (w1 & m1 & -> & Hq1 & Hl1).
    destruct (IH _ _ _ Hl1) as (w2 & m2 & -> & Hq2 & Hl2). exists w2, m2.
    rewrite <-app_assoc in Hl2. split_and!; [done|by etrans|done].
Qed.

(** Every live flag has been listed or is still to come. *)
Definition listing_covers (s : Store) (w0 w : W) (cursor : Z) (seen : list string) : Prop :=
  ∀ name e, keys_of w0 !! key s name = Some e → alive (clock w) e = true →
    key s name ∈ seen ∨ key s name ∈ pending w cursor (key s "*").

Definition complete (s : Store) (w0 w : W) (m : gmap string Flag) : Prop :=
  reads_succeed → ∀ name e f, keys_of w0 !! key s name = Some e → alive (clock w) e = true →
    Unmarshal (contents e) = inr f → m !! name = Some f.

Lemma ListAll_loop_spec s w0 fuel : plain (namespace s) = true →
  ∀ cursor seen flags w, listing s w0 w seen flags → listing_covers s w0 w cursor seen →
  (calls_left w cursor < fuel)%nat →
  ∃ w' r, ListAll_loop Unmarshal fuel s cursor flags w = (w', Some (Ret r)) ∧
    ∀ m, r = inr m → flags_sound s (keys_of w0) m ∧ complete s w0 w' m.
Proof.
  intros Hp. induction fuel as [|fuel IH]; intros cursor seen flags w Hl Hcov Hf; [lia|]. simpl.
  destruct (scan cursor _ 100 w) as [w1 [err|[keys next]]] eqn:Es; [by eexists w1, _|].
  destruct (scan_frame _ _ _ _ _ _ Es) as [Hc1 Hk1]. apply scan_spec in Es as (Hg & Hcalls & Hpend).
  pose proof Hl as (Hk0 & Hs0 & Hc0).
  destruct (list_batch_spec s w0 keys) with (seen := seen) (flags := flags) (w := w1)
    as (w2 & m & -> & Hq2 & Hl2).
  { eapply Forall_impl; [exact Hg|]. intros k. by rewrite glob_key. }
  { split_and!; [congruence|done|]. intros Hr name e f ????. eapply (Hc0 Hr); [done|done| |done].
    eauto with gkit. }
  assert (Hcov2 : ∀ name e, keys_of w0 !! key s name = Some e → alive (clock w2) e = true →
    key s name ∈ seen ++ keys ∨ next ≠ 0 ∧ key s name ∈ pending w2 next (key s "*")).
  { intros name e He Ha. apply (alive_mono (clock w1)) in Ha; [|apply Hq2]. rewrite elem_of_app.
    destruct (Hcov name e He) as [|Hin]; [eauto with gkit|tauto|].
    destruct (Hpend _ e Hin) as [|[Hn Hin']]; [by rewrite Hk0|done|tauto|]. right. split; [done|].
    apply Hq2; [done|]. rewrite Hk1, Hk0, He. by eexists. }
  destruct (next =? 0) eqn:En; zbool.
  - eexists w2, _. split; [done|]. intros m' [= <-]. destruct Hl2 as (_ & Hs2 & Hc2). split; [done|].
    intros Hr name e f He Ha Hu. eapply (Hc2 Hr); [|done..]. by destruct (Hcov2 name e He Ha) as [|[]].
  - apply (IH next (seen ++ keys)); [done| |].
    + intros name e He Ha. destruct (Hcov2 name e He Ha) as [|[]]; tauto.
    + specialize (Hcalls En). destruct Hq2 as (_ & _ & Hcl & _). specialize (Hcl next). lia.
Qed.

(** ** Properties *)

(** [ListAll] terminates without a panic once the calls a scan needs fit the
    fuel.  Every flag it lists is the stored document decoded, and when no read
    fails it lists every live flag of the namespace whose document decodes. *)
Theorem list_all_spec s fuel w : plain (namespace s) = true → (calls_left w 0 < fuel)%nat →
  ∃ w' r, ListAll Unmarshal fuel s w = (w', Some (Ret r)) ∧
  ∀ m, r = inr m → flags_sound s (keys_of w) m ∧ complete s w w' m.
Proof.
  intros Hp Hf. apply (ListAll_loop_spec s w fuel Hp 0 []); [| |done].
  - split_and!; [done|by intros name f; rewrite lookup_empty|]. intros _ name e f Hin. by apply not_elem_of_nil in Hin.
  - intros name e He _. right. apply pending_start; [by eexists|]. apply glob_key; [done|by eexists].
Qed.

Lemma IsEnabledFor_read s name id w w1 raw : do_ (cmd_get (key s name)) w = (w1, inr (Some raw)) →
  IsEnabledFor Unmarshal s name id w =
  (w1, match Unmarshal raw with inl _ => false | inr f => decision f name id end).
Proof.
  intros Hd. unfold IsEnabledFor, Get. rewrite Hd. destruct (Unmarshal raw) as [err|f]; [done|].
  f_equal. unfold decision. simpl. destruct (Enabled f); simpl; [|done].
  assert (Hx : existsb (λ i, bool_decide (i = id)) (AllowList f) = bool_decide (id ∈ AllowList f)).
  { apply eq_bool_prop_intro. rewrite bool_decide_spec, !Is_true_true, existsb_exists.
    split; [intros (x & Hx & Hi%bool_decide_eq_true); subst; by apply list_elem_of_In|].
    intros Hx. exists id. split; [by apply list_elem_of_In|by apply bool_decide_eq_true]. }
  rewrite Hx. destruct (bool_decide (id ∈ AllowList f)); [done|]. simpl.
  rewrite Z.gtb_ltb. destruct (0 <? Percentage f) eqn:E; zbool.
  - by rewrite (proj2 (Z.leb_gt _ _)) by lia.
  - by rewrite (proj2 (Z.leb_le _ _)) by lia.
Qed.

(** C37: A flag that was set decides, as long as nobody overwrites it, reads succeed and its
    document decodes to its settings: off for everyone when it is disabled; otherwise on for the
    entities of its allow-list, and with a percentage on for exactly those of the others whose
    hash bucket is below it, so that 100 admits everyone. *)
Theorem set_then_decide s NOW name flag raw t w w1 w2 w3 v id :
  Marshal (MkFlag (Enabled flag) (Percentage flag) (AllowList flag) NOW) = inr raw →
  Unmarshal raw = inr (MkFlag (Enabled flag) (Percentage flag) (AllowList flag) t) →
  Set_ Marshal s NOW name flag w = (w1, None) →
  keys_of w2 !! key s name = keys_of w1 !! key s name →
  do_ (cmd_get (key s name)) w2 = (w3, inr v) →
  ∃ on, IsEnabledFor Unmarshal s name id w2 = (w3, on) ∧
    (Enabled flag = false → on = false) ∧
    (Enabled flag = true → id ∈ AllowList flag → on = true) ∧
    (Enabled flag = true → id ∉ AllowList flag → 0 < Percentage flag →
       on = (hashBucket (name +:+ ":" +:+ id) 100 <? Percentage flag)) ∧
    (Enabled flag = true → 100 ≤ Percentage flag → on = true).
Proof.
  intros Hm Hu Hset Hsame Hget. unfold Set_ in Hset. rewrite Hm in Hset.
  destruct (do_ (cmd_set _ _ _) w) as [w1' [err|[]]] eqn:Ed; simplify_eq.
  apply do_spec in Ed as (t1 & _ & Hd). injection Hd as Hd.
  assert (v = Some raw) as ->.
  { apply do_spec in Hget as (t' & _ & Hg). injection Hg as _ <-. unfold read.
    by rewrite Hsame, <-Hd, lookup_insert_eq. }
  eexists. rewrite (IsEnabledFor_read _ _ _ _ _ _ Hget), Hu. split; [done|].
  pose proof (hashBucket_range (name +:+ ":" +:+ id)) as Hb. unfold decision. simpl.
  destruct (Enabled flag); simpl; split_and!; try done.
  - intros _ Hin. by rewrite bool_decide_eq_true_2.
  - intros _ Hin Hp. by rewrite bool_decide_eq_false_2, (proj2 (Z.leb_gt _ _)) by (done || lia).
  - intros _ Hp. by rewrite (proj2 (Z.ltb_lt _ (Percentage flag))), !orb_true_r by lia.
Qed.

(** When the flag cannot be read or decoded the answer is no. *)
Theorem fail_safe s name id w w1 f ok err : Get Unmarshal s name w = (w1, (f, ok, Some err)) →
  IsEnabledFor Unmarshal s name id w = (w1, false) ∧ IsEnabled Unmarshal s name w = (w1, false).
Proof. unfold IsEnabledFor, IsEnabled. by intros ->. Qed.

End Proofs.

(** Raising a positive percentage only adds entities, 100 admits all of them and
    the buckets are the integers below 100. *)
Theorem rollout_monotone name id p p' allow t :
  0 < p ≤ p' →
  (decision (MkFlag true p allow t) name id = true → decision (MkFlag true p' allow t) name id = true) ∧
  decision (MkFlag true 100 allow t) name id = true ∧
  0 ≤ hashBucket (name +:+ ":" +:+ id) 100 < 100.
Proof.
  intros Hp. pose proof (hashBucket_range (name +:+ ":" +:+ id)) as Hb. unfold decision; simpl.
  split_and!; [|by rewrite (proj2 (Z.ltb_lt _ 100)), !orb_true_r by lia|lia|lia].
  rewrite !orb_true_iff, !Z.leb_le, !Z.ltb_lt. intros [[?|?]|?]; [tauto|lia|right; lia].
Qed.

(** The doc comment of [Percentage] says that 0 means the allow-list only; the code
    lets everyone in. *)
Lemma zero_percentage_admits_all name id allow t : decision (MkFlag true 0 allow t) name id = true.
Proof. unfold decision. simpl. by rewrite orb_true_r. Qed.
(** ** Witnesses *)

Import Ideal.

Definition demo : Store := NewStore [WithNamespace "app"].
Definition demo_flag : Flag := MkFlag true 20 ["u1"] 7.
(** An encoding that knows one flag. *)
Definition demo_marshal (f : Flag) : error + string := inr "flag".
Definition demo_unmarshal (s : string) : error + Flag :=
  if bool_decide (s = "flag") then inr demo_flag else inl (ErrFmt "invalid character" []).
Definition demo_server : server :=
  Server 0 (list_to_map [("app:flags:a", Entry "flag" None); ("app:flags:b", Entry "?" None);
                         ("other", Entry "flag" None)]).

Lemma list_all_spec_witness :
  (ListAll demo_unmarshal 1 demo demo_server).2 = Some (Ret (inr {["a" := demo_flag]})) ∧
  ∃ w' r, ListAll demo_unmarshal 1 demo demo_server = (w', Some (Ret r)) ∧
  ∀ m, r = inr m → flags_sound demo_unmarshal demo (keys_of demo_server) m ∧
    complete demo_unmarshal demo demo_server w' m.
Proof.
  split; [vm_compute; reflexivity|]. apply (list_all_spec demo_unmarshal demo 1 demo_server); [reflexivity|simpl; lia].
Defined.

Lemma set_then_decide_witness :
  let w1 := (Set_ demo_marshal demo 7 "c" demo_flag demo_server).1 in
  (IsEnabledFor demo_unmarshal demo "c" "u1" w1).2 = true ∧
  (IsEnabledFor demo_unmarshal demo "c" "u2" w1).2 = (hashBucket "c:u2" 100 <? 20).
Proof.
  set (w1 := (Set_ demo_marshal demo 7 "c" demo_flag demo_server).1). split; [vm_compute; reflexivity|].
  destruct (set_then_decide demo_marshal demo_unmarshal demo 7 "c" demo_flag "flag" 7 demo_server w1 w1 w1
    (Some "flag") "u2") as (on & -> & _ & _ & Hon & _); [reflexivity..|].
  apply Hon; [reflexivity| |reflexivity]. by apply (bool_decide_unpack _); vm_compute.
Defined.

Lemma fail_safe_witness : (IsEnabledFor demo_unmarshal demo "b" "u1" demo_server).2 = false.
Proof.
  assert (Hg : Get demo_unmarshal demo "b" demo_server = (demo_server, (zero_Flag, false,
    Some (ErrWrap "feature: unmarshal %q: %w" ["b"] (ErrFmt "invalid character" []))))) by (vm_compute; reflexivity).
  rewrite (proj1 (fail_safe demo_unmarshal demo "b" "u1" demo_server demo_server zero_Flag false _ Hg)). reflexivity.
Defined.

Lemma rollout_monotone_witness :
  (decision (MkFlag true 20 [] 0) "f" "u" = true → decision (MkFlag true 50 [] 0) "f" "u" = true).
Proof. apply (rollout_monotone "f" "u" 20 50 [] 0). lia. Defined.

End Feature.
