(* ===== verification/Lock.v ===== *)
(** * pkg/lock: a distributed lock in Redis

    The two Lua scripts and the methods, against the interface of Redis.v; then the
    clients of one key space as a transition system, in which acquisitions, lease
    renewals and releases of any number of clients interleave, commands fail and
    time passes.  Keepalive.v adds the ticker and the channels of the keepalive goroutine. *)

From S2P Require Import Prelude GoLang Strings Redis.
Open Scope Z_scope.

Module Lock.
Import Strings Redis.

Definition ErrNotAcquired_id : positive := 60.
Definition ErrNotAcquired : error := ErrNew 60 "lock: not acquired".

(** [redis.call("GET", KEYS[1]) == ARGV[1]] guards the second command. *)
Definition releaseScript (key token : string) : op Z := λ t ks,
  if bool_decide (read t ks key = Some token) then cmd_del [key] t ks else (ks, 0).

Definition renewScript (key token : string) (ttlMs : Z) : op Z := λ t ks,
  if bool_decide (read t ks key = Some token) then cmd_pexpire key ttlMs t ks else (ks, 0).

Record Locker := MkLocker { retryOk : bool; retryN : Z; retryD : Duration }.
Definition Option_ : Type := Locker → Locker.
Definition WithRetry (n : Z) (interval : Duration) : Option_ := λ _, MkLocker true n interval.
Definition New (opts : list Option_) : Locker := fold_left (λ l o, o l) opts (MkLocker false 0 0).

(** The handle; its channels belong to the keepalive goroutine, whose life is that
    of the handle in the transition system below. *)
Record Lock := MkLock { key : string; token : string; ttl : Duration }.

(** [Duration.Milliseconds] *)
Definition Milliseconds (d : Duration) : Z := Z.quot d Millisecond.

Section Operations.
Context `{Redis W}.

(** [Release], after the keepalive has exited. *)
Definition Release (l : Lock) (w : W) : W * option error :=
  match do_ (releaseScript (key l) (token l)) w with
  | (w, inl err) => (w, Some (ErrWrap "lock: release %q: %w" [key l] err))
  | (w, inr n) =>
    if n =? 0 then (w, Some (ErrFmt "lock: release %q: token mismatch (lock expired?)" [key l])) else (w, None)
  end.

(** One tick of [keepalive]; the code drops the result, which is given here to say
    what the tick achieved. *)
Definition keepalive_tick (l : Lock) (w : W) : W * (error + Z) :=
  do_ (renewScript (key l) (token l) (Milliseconds (ttl l))) w.

(** [uuid] is the token of this call. *)
Definition TryAcquire (uuid : string) (k : string) (d : Duration) (w : W) : W * (error + Lock) :=
  match do_ (cmd_setnx k uuid d) w with
  | (w, inr false) => (w, inl ErrNotAcquired)
  | (w, inl err) => (w, inl (ErrWrap "lock: acquire %q: %w" [k] err))
  | (w, inr true) => (w, inr (MkLock k uuid d))
  end.

(** [uuids n] is the token of attempt [n]; [sleep d] is the select on the context
    and the timer, with the context's error when that came first.  [None] stands for
    running out of fuel. *)
Fixpoint Acquire_loop (fuel : nat) (uuids : Z → string) (sleep : Duration → W → W * option error)
    (l : Locker) (k : string) (d : Duration) (attempt : Z) (w : W) : W * option (error + Lock) :=
  match fuel with
  | O => (w, None)
  | S fuel =>
    match TryAcquire (uuids attempt) k d w with
    | (w, inr lk) => (w, Some (inr lk))
    | (w, inl err) =>
      if negb (errors_Is (Some err) ErrNotAcquired_id) then (w, Some (inl err)) else
      let attempt := wrap64 (attempt + 1) in
      if retryOk l && (attempt >=? retryN l) then (w, Some (inl ErrNotAcquired)) else
      match sleep (if retryOk l then retryD l else 100 * Millisecond) w with
      | (w, Some cerr) => (w, Some (inl (ErrWrap "lock: acquire %q: %w" [k] cerr)))
      | (w, None) => Acquire_loop fuel uuids sleep l k d attempt w
      end
    end
  end.

Definition Acquire (fuel : nat) (uuids : Z → string) (sleep : Duration → W → W * option error)
    (l : Locker) (k : string) (d : Duration) (w : W) : W * option (error + Lock) :=
  Acquire_loop fuel uuids sleep l k d 0 w.

(** The deferred release also runs when [fn] panics. *)
Definition WithLock (fuel : nat) (uuids : Z → string) (sleep : Duration → W → W * option error)
    (l : Locker) (k : string) (d : Duration) (fn : W → W * outcome (option error)) (w : W)
    : W * option (outcome (option error)) :=
  match Acquire fuel uuids sleep l k d w with
  | (w, None) => (w, None)
  | (w, Some (inl err)) => (w, Some (Ret (Some err)))
  | (w, Some (inr lk)) => let '(w, r) := fn w in let '(w, _) := Release lk w in (w, Some r)
  end.

(** ** Clients as a transition system *)

(** A lock its client has acquired and not begun to release.  The client may rely on
    it until [lease]: the time to live counted from before the last command that
    granted it was sent. *)
Record handle := Handle { lock : Lock; lease : Time }.

Definition granted (t : Time) (d : Duration) : Time := t + d / Millisecond * Millisecond.

(** [used] are the tokens drawn so far. *)
Record state := State { world : W; handles : list handle; used : gset string }.

Inductive step : state → state → Prop :=
| step_acquire w hs u uuid k d w' r :
    Millisecond ≤ d → uuid ∉ u → TryAcquire uuid k d w = (w', r) →
    step (State w hs u)
      (State w' (match r with inr lk => hs ++ [Handle lk (granted (clock w) d)] | inl _ => hs end) ({[uuid]} ∪ u))
| step_tick w hs1 h hs2 u w' r :
    keepalive_tick (lock h) w = (w', r) →
    step (State w (hs1 ++ h :: hs2) u)
      (State w' (hs1 ++ (match r with
                         | inr 1 => Handle (lock h) (granted (clock w) (ttl (lock h)))
                         | _ => h
                         end) :: hs2) u)
| step_release w hs1 h hs2 u w' r :
    Release (lock h) w = (w', r) →
    step (State w (hs1 ++ h :: hs2) u) (State w' (hs1 ++ hs2) u)
| step_idle w hs u w' :
    clock w ≤ clock w' → keys_of w' = keys_of w → step (State w hs u) (State w' hs u).

Definition initial (s : state) : Prop := handles s = [].

(** ** The invariant *)

(** While the lease runs the key holds the handle's token until the lease's end at
    least. *)
Definition owns (t : Time) (ks : keyspace) (h : handle) : Prop :=
  t ≤ lease h → ∃ d, ks !! key (lock h) = Some (Entry (token (lock h)) (Some d)) ∧ lease h ≤ d.

Definition handle_ok (w : W) (u : gset string) (h : handle) : Prop :=
  Millisecond ≤ ttl (lock h) ∧ token (lock h) ∈ u ∧ lease h ≤ granted (clock w) (ttl (lock h)) ∧
  owns (clock w) (keys_of w) h.

Definition invariant (s : state) : Prop :=
  NoDup ((token ∘ lock) <$> handles s) ∧ Forall (handle_ok (world s) (used s)) (handles s).

End Operations.

Arguments state W : clear implicits.

(** ** Lemmas *)

(** What a command may do to a key while somebody's lease on it runs. *)
Definition respects {A} (o : op A) (k tok : string) : Prop := ∀ t ks d,
  ks !! k = Some (Entry tok (Some d)) → t ≤ d →
  ∃ d', (o t ks).1 !! k = Some (Entry tok (Some d')) ∧ d ≤ d'.

Lemma read_running t ks k tok d :
  ks !! k = Some (Entry tok (Some d)) → t ≤ d → read t ks k = Some tok.
Proof. intros Hk Ht. unfold read. rewrite Hk. simpl. unfold alive. simpl. by rewrite (proj2 (Z.leb_le _ _)). Qed.

Lemma setnx_respects k uuid d k' tok : respects (cmd_setnx k uuid d) k' tok.
Proof.
  intros t ks e Hk Ht. unfold cmd_setnx. destruct (read t ks k) eqn:Er; [by exists e|]. simpl.
  exists e. split; [|lia]. rewrite lookup_insert_ne; [done|]. intros ->.
  by rewrite (read_running _ _ _ _ _ Hk Ht) in Er.
Qed.

Lemma release_respects k tok k' tok' : (k = k' → tok ≠ tok') → respects (releaseScript k tok) k' tok'.
Proof.
  intros Hne t ks d Hk Ht. exists d. split; [|lia]. unfold releaseScript. case_bool_decide as Hr; [|done].
  simpl. rewrite lookup_delete_ne; [done|]. intros ->. rewrite (read_running _ _ _ _ _ Hk Ht) in Hr. naive_solver.
Qed.

Lemma renew_respects k tok ms k' tok' : (k = k' → tok ≠ tok') → respects (renewScript k tok ms) k' tok'.
Proof.
  intros Hne t ks d Hk Ht. exists d. split; [|lia]. unfold renewScript. case_bool_decide as Hr; [|done].
  assert (k ≠ k'). { intros ->. rewrite (read_running _ _ _ _ _ Hk Ht) in Hr. naive_solver. }
  unfold cmd_pexpire. rewrite Hr. simpl. destruct (ms <=? 0); simpl; [by rewrite lookup_delete_ne|by rewrite lookup_insert_ne].
Qed.

Lemma Milliseconds_pos d : Millisecond ≤ d → 1 ≤ Milliseconds d ∧ Milliseconds d * Millisecond = d / Millisecond * Millisecond.
Proof.
  unfold Milliseconds, Millisecond. intros Hd. rewrite Z.quot_div_nonneg by lia. split; [|lia].
  apply Z.div_le_lower_bound; lia.
Qed.

(** A renewal by the owner. *)
Lemma renew_own k tok ms t ks : 1 ≤ ms → read t ks k = Some tok →
  renewScript k tok ms t ks = (<[k := Entry tok (Some (t + ms * Millisecond))]> ks, 1).
Proof.
  intros Hms Hr. unfold renewScript. rewrite bool_decide_eq_true_2 by done. unfold cmd_pexpire. rewrite Hr.
  by rewrite (proj2 (Z.leb_gt _ _)) by lia.
Qed.

Lemma renew_not_own k tok ms t ks : read t ks k ≠ Some tok → renewScript k tok ms t ks = (ks, 0).
Proof. intros Hr. unfold renewScript. by rewrite bool_decide_eq_false_2. Qed.

Section Proofs.
Context `{Redis W}.
Implicit Types (w : W) (u : gset string) (h : handle) (s : state W).

Lemma granted_mono t t' d : t ≤ t' → granted t d ≤ granted t' d.
Proof. unfold granted. lia. Qed.

Lemma owns_do {A} (o : op A) w w' r h :
  respects o (key (lock h)) (token (lock h)) → do_ o w = (w', r) →
  owns (clock w) (keys_of w) h → owns (clock w') (keys_of w') h.
Proof.
  intros Ho Hd Hown Hle. pose proof (do_clock _ _ _ _ Hd). destruct (Hown ltac:(lia)) as (d & Hk & Hl).
  apply do_spec in Hd as (t & Ht & Hr). destruct (Ho t _ _ Hk ltac:(lia)) as (d' & Hk' & Hd').
  destruct r as [err|a].
  - destruct Hr as [->| ->]; [exists d|exists d']; (split; [done|lia]).
  - rewrite Hr in Hk'. exists d'. split; [done|lia].
Qed.

Lemma handle_ok_do {A} (o : op A) w w' r u u' h :
  respects o (key (lock h)) (token (lock h)) → do_ o w = (w', r) → u ⊆ u' →
  handle_ok w u h → handle_ok w' u' h.
Proof.
  intros Ho Hd Hu (Httl & Htok & Hl & Hown). split_and!; [done|by apply Hu| |by eapply owns_do].
  etrans; [exact Hl|]. apply granted_mono. by eapply do_clock.
Qed.

(** A fresh lock. *)
Lemma acquired_ok uuid k d w w' lk u : Millisecond ≤ d → TryAcquire uuid k d w = (w', inr lk) →
  lk = MkLock k uuid d ∧ handle_ok w' ({[uuid]} ∪ u) (Handle lk (granted (clock w) d)).
Proof.
  unfold TryAcquire. intros Hd. destruct (do_ _ w) as [w1 [err|[]]] eqn:Ed; intros [= <- <-].
  split; [done|]. pose proof (do_clock _ _ _ _ Ed). apply do_spec in Ed as (t & Ht & Hr).
  unfold cmd_setnx in Hr. destruct (read t (keys_of w) k); [done|]. injection Hr as Hr.
  split_and!; [done|set_solver|by apply granted_mono|]. intros Hle. simpl in *.
  rewrite <-Hr. rewrite lookup_insert_eq. unfold deadline. destruct (d >? 0) eqn:E; zbool; [|unfold Millisecond in *; lia].
  eexists. split; [done|]. unfold granted. lia.
Qed.

Lemma TryAcquire_frame uuid k d w w' r : TryAcquire uuid k d w = (w', r) →
  ∃ r', do_ (cmd_setnx k uuid d) w = (w', r') .
Proof. unfold TryAcquire. destruct (do_ _ w) as [w1 [err|[]]]; intros [= <- <-]; eauto. Qed.

Definition ticked (w : W) (h : handle) (r : error + Z) : handle :=
  match r with inr 1 => Handle (lock h) (granted (clock w) (ttl (lock h))) | _ => h end.

Lemma tick_lock w h r : lock (ticked w h r) = lock h.
Proof. unfold ticked. by repeat case_match. Qed.

Lemma tick_ok w w' r u h : keepalive_tick (lock h) w = (w', r) → handle_ok w u h → handle_ok w' u (ticked w h r).
Proof.
  intros Ht (Httl & Htok & Hl & Hown). pose proof (do_clock _ _ _ _ Ht) as Hc.
  destruct (Milliseconds_pos _ Httl) as [Hms1 Hms2]. unfold handle_ok. rewrite tick_lock.
  apply do_spec in Ht as (t & Htt & Hr).
  assert (Hl' : lease (ticked w h r) ≤ granted t (ttl (lock h))).
  { transitivity (granted (clock w) (ttl (lock h))); [|apply granted_mono; lia].
    unfold ticked. repeat case_match; done. }
  split_and!; [done|done|etrans; [exact Hl'|apply granted_mono; lia]|].
  intros Hle. rewrite tick_lock.
  destruct (decide (read t (keys_of w) (key (lock h)) = Some (token (lock h)))) as [Hread|Hread].
  - rewrite (renew_own _ _ _ _ _ Hms1 Hread) in Hr. destruct r as [err|z].
    + simpl in *. destruct Hr as [-> | ->]; [apply Hown; lia|]. rewrite lookup_insert_eq.
      eexists. split; [done|]. unfold granted in *. lia.
    + injection Hr as <- _. rewrite lookup_insert_eq. eexists. split; [done|]. unfold granted in *. lia.
  - rewrite (renew_not_own _ _ _ _ _ Hread) in Hr.
    assert (ticked w h r = h ∧ keys_of w' = keys_of w) as (Hh & ->).
    { destruct r as [err|z]; [by destruct Hr|]. by injection Hr as <- <-. }
    rewrite Hh in *. apply Hown. lia.
Qed.

Lemma lock_invariant_initial s : initial s → invariant s.
Proof. destruct s as [w hs u]. unfold initial. simpl. intros ->. split; constructor. Qed.

(** The other handles have other tokens. *)
Lemma others_ok {A} (o : string → op A) w w' r u hs1 h hs2 :
  (∀ k', (key (lock h) = key (lock k') → token (lock h) ≠ token (lock k')) →
     respects (o (key (lock h))) (key (lock k')) (token (lock k'))) →
  NoDup ((token ∘ lock) <$> hs1 ++ h :: hs2) → do_ (o (key (lock h))) w = (w', r) →
  Forall (handle_ok w u) (hs1 ++ hs2) → Forall (handle_ok w' u) (hs1 ++ hs2).
Proof.
  intros Ho Hnd Hd Hok. rewrite !Forall_forall in *. intros h' Hin.
  eapply handle_ok_do; [|exact Hd|done|by apply Hok]. apply Ho. intros _ Heq.
  rewrite fmap_app, fmap_cons, <-Permutation_middle in Hnd. apply NoDup_cons in Hnd as [Hni _].
  apply Hni. rewrite <-fmap_app. simpl. rewrite Heq. by apply (list_elem_of_fmap_2 (token ∘ lock)).
Qed.

Lemma lock_invariant_step s s' : invariant s → step s s' → invariant s'.
Proof.
  intros [Hnd Hok] Hs. destruct Hs as [w hs u uuid k d w' r Hd Hu Ht|w hs1 h hs2 u w' r Ht|w hs1 h hs2 u w' r Hr|w hs u w' Hc Hk];
    simpl in *.
  - assert (Hold : Forall (handle_ok w' ({[uuid]} ∪ u)) hs).
    { destruct (TryAcquire_frame _ _ _ _ _ _ Ht) as [r' Hf]. eapply Forall_impl; [exact Hok|]. intros h.
      eapply handle_ok_do; [apply setnx_respects|exact Hf|set_solver]. }
    destruct r as [err|lk]; [by split|]. destruct (acquired_ok _ _ _ _ _ _ u Hd Ht) as [-> Hnew]. split; simpl.
    + rewrite fmap_app, NoDup_app. split_and!; [done| |apply NoDup_singleton]. simpl.
      intros tok Hin Htok%list_elem_of_singleton. subst tok. apply list_elem_of_fmap in Hin as (h & -> & Hin).
      rewrite Forall_forall in Hok. destruct (Hok _ Hin) as (_ & Hin' & _). done.
    + rewrite Forall_app, Forall_singleton. done.
  - fold (ticked w h r). split; simpl.
    + rewrite fmap_app, fmap_cons in *. simpl in *. by rewrite tick_lock.
    + pose proof Hok as Hh. rewrite Forall_app, Forall_cons in Hh. destruct Hh as (H1 & Hh & H2).
      apply (tick_ok _ _ _ _ _ Ht) in Hh.
      assert (Ho : Forall (handle_ok w' u) (hs1 ++ hs2)).
      { eapply (others_ok (λ k, renewScript k (token (lock h)) (Milliseconds (ttl (lock h)))));
          [|exact Hnd|exact Ht|by apply Forall_app]. intros. by apply renew_respects. }
      apply Forall_app in Ho as [? ?]. apply Forall_app. split; [done|]. by constructor.
  - split; simpl.
    + rewrite fmap_app in *. rewrite fmap_cons, <-Permutation_middle, NoDup_cons in Hnd. tauto.
    + assert (∃ r', do_ (releaseScript (key (lock h)) (token (lock h))) w = (w', r')) as [r' Hd].
      { unfold Release in Hr. destruct (do_ _ w) as [w1 [err|n]]; [|destruct (n =? 0)]; simplify_eq; eauto. }
      eapply (others_ok (λ k, releaseScript k (token (lock h)))); [|exact Hnd|exact Hd|].
      * intros. by apply release_respects.
      * rewrite Forall_app, Forall_cons in Hok. apply Forall_app. tauto.
  - split; [done|]. eapply Forall_impl; [exact Hok|]. intros h (Httl & Htok & Hl & Hown).
    split_and!; [done|done|etrans; [exact Hl|by apply granted_mono]|]. intros Hle. simpl in *. rewrite Hk. apply Hown. lia.
Qed.

(** ** Properties *)

(** C24: Mutual exclusion.  However acquisitions, renewals, releases, failed commands
    and the passing of time interleave among clients with distinct tokens, at most
    one of the locks held on a key has a lease that still runs, and that one's token
    is what the server shows under the key. *)
Theorem mutual_exclusion s0 s i j h1 h2 :
  initial s0 → rtc step s0 s → handles s !! i = Some h1 → handles s !! j = Some h2 → i ≠ j →
  key (lock h1) = key (lock h2) → clock (world s) ≤ lease h1 →
  lease h2 < clock (world s) ∧ read (clock (world s)) (keys_of (world s)) (key (lock h1)) = Some (token (lock h1)).
Proof.
  intros Hi Hr H1 H2 Hij Hk Hl. destruct (rtc_invariant step invariant s0 s) as [Hnd Hok];
    [eauto using lock_invariant_step|by apply lock_invariant_initial|done|].
  rewrite Forall_forall in Hok.
  destruct (Hok h1) as (_ & _ & _ & Ho1); [by eapply list_elem_of_lookup_2|].
  destruct (Hok h2) as (_ & _ & _ & Ho2); [by eapply list_elem_of_lookup_2|].
  destruct (Ho1 Hl) as (d1 & Hd1 & Hle1). split; [|eapply read_running; [exact Hd1|lia]].
  apply Z.nle_gt. intros Hl2. destruct (Ho2 Hl2) as (d2 & Hd2 & _). rewrite Hk, Hd2 in Hd1.
  apply Hij. eapply (NoDup_lookup _ i j (token (lock h1)) Hnd); rewrite list_lookup_fmap.
  - by rewrite H1.
  - rewrite H2. simpl. congruence.
Qed.

(** [Release] deletes nothing but the lock's own entry: a key of another name, or
    one that by now holds another token, stays.  When it reports success the key is
    free. *)
Theorem release_own_only l w w' r : Release l w = (w', r) →
  (∀ k e, keys_of w !! k = Some e → k ≠ key l ∨ contents e ≠ token l → keys_of w' !! k = Some e) ∧
  (r = None → keys_of w' !! key l = None).
Proof.
  unfold Release. intros Hr.
  destruct (do_ (releaseScript (key l) (token l)) w) as [w1 r1] eqn:Ed.
  assert (w' = w1) as -> by (destruct r1 as [err|n]; [|destruct (n =? 0)]; by simplify_eq).
  split.
  - intros k e Hk Hne. eapply (do_preserves (λ ks, ks !! k = Some e)); [done| |exact Ed].
    intros t. unfold releaseScript. case_bool_decide as Hrd; [|done]. simpl.
    rewrite lookup_delete_ne; [done|]. intros <-. unfold read in Hrd. rewrite Hk in Hrd. simpl in Hrd.
    destruct (alive t e); naive_solver.
  - intros ->. destruct r1 as [err|n]; [done|]. destruct (n =? 0) eqn:En; [done|]. zbool.
    apply do_spec in Ed as (t & _ & Hd). unfold releaseScript in Hd. case_bool_decide; [|by simplify_eq].
    injection Hd as <- _. apply lookup_delete_eq.
Qed.

(** With [WithRetry(n, ..)] [Acquire] returns after at most [max 1 n] attempts,
    whatever the server and the timers do, and a lock it returns is for the key and
    the time to live asked for, under the token of one of these attempts. *)
Theorem acquire_bounded fuel uuids sleep l k d w :
  retryOk l = true → retryN l ≤ int64_max → Z.max 1 (retryN l) ≤ Z.of_nat fuel →
  ∃ w' r, Acquire fuel uuids sleep l k d w = (w', Some r) ∧
  match r with
  | inr lk => ∃ n, 0 ≤ n < Z.max 1 (retryN l) ∧ lk = MkLock k (uuids n) d
  | inl _ => True
  end.
Proof.
  intros Hok Hmax Hf. unfold Acquire.
  cut (∀ n w, 0 ≤ n < Z.max 1 (retryN l) → Z.max 1 (retryN l) - n ≤ Z.of_nat fuel →
    ∃ w' r, Acquire_loop fuel uuids sleep l k d n w = (w', Some r) ∧
    match r with inr lk => ∃ n, 0 ≤ n < Z.max 1 (retryN l) ∧ lk = MkLock k (uuids n) d | inl _ => True end).
  { intros Hc. apply Hc; lia. }
  clear Hf w. induction fuel as [|fuel IH]; intros n w Hn Hf; [lia|]. simpl.
  destruct (TryAcquire _ _ _ w) as [w1 [err|lk]] eqn:Et.
  - destruct (negb _); [by eexists _, (inl _)|]. rewrite Hok. simpl.
    rewrite wrap64_id by (unfold is_int64, int64_min, int64_max in *; lia).
    destruct (n + 1 >=? retryN l) eqn:E; [by eexists _, (inl _)|]. zbool.
    destruct (sleep _ _) as [w2 [cerr|]]; [by eexists _, (inl _)|]. apply IH; lia.
  - eexists w1, _. split; [done|]. exists n. split; [lia|].
    unfold TryAcquire in Et. destruct (do_ _ w) as [w2 [err|[]]]; by simplify_eq.
Qed.

End Proofs.

(** A renewal of a lock with a time to live under a millisecond asks Redis for zero
    milliseconds, which deletes the key. *)
Lemma renew_submillisecond k tok d t ks : 0 < d < Millisecond → read t ks k = Some tok →
  (renewScript k tok (Milliseconds d) t ks).1 !! k = None.
Proof.
  intros Hd Hr. unfold renewScript, Milliseconds. rewrite bool_decide_eq_true_2 by done.
  rewrite Z.quot_small by lia. unfold cmd_pexpire. rewrite Hr. apply lookup_delete_eq.
Qed.

(** ** Witnesses *)

Import Ideal.

Definition two_locks : state server :=
  State (Server (2 * Second) (<["k" := Entry "b" (Some (3 * Second))]> ∅))
    [Handle (MkLock "k" "a" Second) Second; Handle (MkLock "k" "b" Second) (3 * Second)] {["b"; "a"]}.

Lemma mutual_exclusion_witness :
  Second < clock (world two_locks) ∧ read (clock (world two_locks)) (keys_of (world two_locks)) "k" = Some "b".
Proof.
  apply (mutual_exclusion (State (Server 0 ∅) [] ∅) two_locks 1 0
    (Handle (MkLock "k" "b" Second) (3 * Second)) (Handle (MkLock "k" "a" Second) Second)); try reflexivity.
  - eapply rtc_l; [eapply (step_acquire _ _ _ "a" "k" Second _ (inr _)); [vm_compute; discriminate|set_solver|reflexivity]|].
    eapply rtc_l; [eapply (step_idle _ _ _ (Server (2 * Second) _)); [vm_compute; discriminate|reflexivity]|].
    eapply rtc_l; [eapply (step_acquire _ _ _ "b" "k" Second _ (inr _)); [vm_compute; discriminate|set_solver|vm_compute; reflexivity]|].
    vm_compute. apply rtc_refl.
  - discriminate.
  - vm_compute. discriminate.
Defined.

Lemma release_own_only_witness :
  keys_of (Release (MkLock "k" "a" Second) (world two_locks)).1 !! "k" = Some (Entry "b" (Some (3 * Second))).
Proof.
  apply (release_own_only (MkLock "k" "a" Second) (world two_locks) _
    (Release (MkLock "k" "a" Second) (world two_locks)).2); [reflexivity|reflexivity|right; discriminate].
Defined.

Lemma acquire_bounded_witness :
  ∃ w' r, Acquire 3 (λ _, "c") (λ d w, (Server (s_clock w + d) (s_keys w), None)) (New [WithRetry 3 Second])
    "k" Second (world two_locks) = (w', Some r) ∧
  match r with
  | inr lk => ∃ n, 0 ≤ n < Z.max 1 3 ∧ lk = MkLock "k" "c" Second
  | inl _ => True
  end.
Proof. apply (acquire_bounded 3 (λ _, "c")); [reflexivity|vm_compute; discriminate|simpl; lia]. Defined.

End Lock.
