(* ===== verification/Keepalive.v ===== *)
(** * pkg/lock: the keepalive goroutine

    Lock.v lets a renewal occur at any time.  Here the goroutine of one handle runs on the
    timeline of the server's clock: its ticker fires every third of the time to live, it
    receives a tick at most [J] after it fired, and a renewal takes at most [L].  All
    other clients act as in Lock.v.  [Protocol] is the protocol of [Release] with the
    goroutine over the channels [stop] and [done]. *)

From S2P Require Import Prelude GoLang Ticker Redis Lock.
Open Scope Z_scope.

Module Keepalive.
Import Redis Lock Ticker.

(** [time.NewTicker(l.ttl / 3)] *)
Definition keepalive_ticker (l : Lock) (now : Time) : outcome ticker := NewTicker now (Z.quot (ttl l) 3).

(** A time to live below three nanoseconds, zero included, panics in the new goroutine. *)
Lemma keepalive_ticker_panics l now : ttl l < 3 ↔ ∃ m, keepalive_ticker l now = Panic m.
Proof.
  unfold keepalive_ticker, NewTicker. destruct (Z.leb_spec (Z.quot (ttl l) 3) 0) as [H|H].
  - split; [by eexists|]. intros _. apply Z.nle_gt. intros Hd.
    pose proof (Z.quot_le_mono 3 (ttl l) 3 ltac:(lia) Hd). change (Z.quot 3 3) with 1 in *. lia.
  - split; [|by intros []]. intros Hd. exfalso. destruct (Z.le_gt_cases 0 (ttl l)).
    + rewrite Z.quot_small in H by lia. lia.
    + pose proof (Z.quot_le_mono (ttl l) 0 3 ltac:(lia) ltac:(lia)). change (Z.quot 0 3) with 0 in *. lia.
Qed.

Section Timed.
Context `{Redis W} (J L : Duration) (M : nat).

(** The clients, the handle this is about, its ticker, the tick it received last, and how many
    renewals in a row have failed since the last one that did not. *)
Record tstate := TState { sys : state W; mine : handle; tick : ticker; last : Time; misses : nat }.

Definition now (s : tstate) : Time := clock (world (sys s)).

(** The environment: at most [M] renewals fail in a row. *)
Inductive tstep : tstate → tstate → Prop :=
(** the other clients, and time *)
| t_others s h tk x m s' :
    Lock.step s s' → h ∈ handles s → h ∈ handles s' →
    prompt J (clock (world s')) (elapse (clock (world s')) tk) →
    tstep (TState s h tk x m) (TState s' h (elapse (clock (world s')) tk) x m)
(** the goroutine receives a tick and calls the server *)
| t_tick w hs1 h hs2 u tk x m y w' r :
    C tk = Some y → keepalive_tick (lock h) w = (w', r) → clock w' ≤ clock w + L →
    (if r then (m < M)%nat else True) →
    tstep (TState (State w (hs1 ++ h :: hs2) u) h tk x m)
      (TState (State w' (hs1 ++ ticked w h r :: hs2) u) (ticked w h r) (elapse (clock w') (recv tk)) y
        (if r then S m else 0%nat)).

(** After [TryAcquire], called at [t0], has returned and its goroutine has made the ticker. *)
Definition tstart (s : tstate) : Prop :=
  ∃ s0 t0, initial s0 ∧ rtc Lock.step s0 (sys s) ∧ mine s ∈ handles (sys s) ∧
    lease (mine s) = granted t0 (ttl (lock (mine s))) ∧ now s ≤ t0 + J + L ∧
    keepalive_ticker (lock (mine s)) (now s) = Ret (tick s) ∧ last s = now s ∧ misses s = 0%nat.

(** ** The invariant *)

Definition P (s : tstate) : Duration := Z.quot (ttl (lock (mine s))) 3.
(** The time a renewal grants: the time to live in whole milliseconds. *)
Definition G (s : tstate) : Duration := ttl (lock (mine s)) / Millisecond * Millisecond.

Record kept (s : tstate) : Prop := {
  k_sys : invariant (sys s);
  k_mine : mine s ∈ handles (sys s);
  k_period : period (tick s) = P s;
  k_time : on_time J (last s) (now s) (tick s);
  k_misses : (misses s ≤ M)%nat;
  k_lease : last s - Z.of_nat (misses s) * P s + G s ≤ lease (mine s) + J + L
}.

Definition in_time (s : tstate) : Prop :=
  0 ≤ J ∧ 0 ≤ L ∧ J + L < P s ∧ Z.of_nat (S M) * P s + 2 * (J + L) ≤ G s.

Lemma granted_G t s : granted t (ttl (lock (mine s))) = t + G s.
Proof. done. Qed.

(** At every moment the lease has a call's latency left. *)
Lemma kept_lease s : in_time s → kept s → now s + L ≤ lease (mine s).
Proof.
  intros (HJ & HL & HP & HG) [_ _ Hp Ht Hm Hl].
  assert (HB : now s ≤ last s + P s + J) by (rewrite <-Hp; eapply on_time_bound; [lia|exact Ht]).
  assert (Z.of_nat (misses s) * P s ≤ Z.of_nat M * P s) by (apply Z.mul_le_mono_nonneg_r; lia). lia.
Qed.

Lemma kept_others s h tk x m s' : in_time (TState s h tk x m) → kept (TState s h tk x m) → Lock.step s s' → h ∈ handles s' →
  prompt J (clock (world s')) (elapse (clock (world s')) tk) →
  kept (TState s' h (elapse (clock (world s')) tk) x m).
Proof.
  intros (HJ & HL & HP & _) [Hs _ Hp Ht Hm Hl] Hst Hin Hpr. unfold now in *. simpl in *.
  split; simpl; [by eapply lock_invariant_step|done|by rewrite period_elapse| |done|done].
  apply on_time_elapse with (now := clock (world s)); [rewrite Hp; lia|done| |done].
  destruct Hst as [??????? r ? ? Hta|????????|????????|]; simpl; [|by eapply do_clock| |done].
  - destruct (TryAcquire_frame _ _ _ _ _ _ Hta). by eapply do_clock.
  - match goal with HR : Release _ _ = _ |- _ => unfold Release in HR; destruct (do_ _ _) as [w1 [e|n]] eqn:Ed; [|destruct (n =? 0)] end;
      simplify_eq; by eapply do_clock.
Qed.

(** A renewal that gets an answer while the lease runs succeeds. *)
Lemma renewal_succeeds h w w' z : owns (clock w) (keys_of w) h → Millisecond ≤ ttl (lock h) →
  keepalive_tick (lock h) w = (w', inr z) → clock w' ≤ lease h → z = 1.
Proof.
  intros Ho Httl Hk Hle. pose proof (do_clock _ _ _ _ Hk). apply do_spec in Hk as (t & Ht & Hr).
  destruct (Ho ltac:(lia)) as (d & Hd & Hld). destruct (Milliseconds_pos _ Httl) as [Hms _].
  rewrite (renew_own _ _ _ _ _ Hms) in Hr; [by injection Hr|]. eapply read_running; [exact Hd|lia].
Qed.

Lemma kept_ok s : kept s → handle_ok (world (sys s)) (used (sys s)) (mine s).
Proof. intros [[_ Hok] Hin _ _ _ _]. rewrite Forall_forall in Hok. by apply Hok. Qed.

Lemma kept_tick w hs1 h hs2 u tk x m y w' r :
  in_time (TState (State w (hs1 ++ h :: hs2) u) h tk x m) → kept (TState (State w (hs1 ++ h :: hs2) u) h tk x m) →
  C tk = Some y → keepalive_tick (lock h) w = (w', r) → clock w' ≤ clock w + L → (if r then (m < M)%nat else True) →
  kept (TState (State w' (hs1 ++ ticked w h r :: hs2) u) (ticked w h r) (elapse (clock w') (recv tk)) y (if r then S m else 0%nat)).
Proof.
  intros Hin Hk HC Hkt HL Hm. pose proof (kept_lease _ Hin Hk) as Hle. destruct (kept_ok _ Hk) as (Httl & _ & _ & Hown).
  destruct Hin as (HJ & HL0 & HP & _), Hk as [Hs _ Hp Ht Hmis Hl]. unfold now in *. simpl in *.
  pose proof (do_clock _ _ _ _ Hkt) as Hc.
  destruct (on_time_recv J L x (clock w) (clock w') tk y) as (Hy & Hyn & Hot); [done|by rewrite Hp|done|done|lia|].
  assert (HT : lock (ticked w h r) = lock h) by apply tick_lock.
  split; simpl.
  - eapply lock_invariant_step; [exact Hs|]. by apply (step_tick w hs1 h hs2 u w' r).
  - set_solver.
  - rewrite period_elapse. simpl. rewrite Hp. unfold P. simpl. by rewrite HT.
  - exact Hot.
  - destruct r; lia.
  - unfold P, G in *. simpl in *. rewrite HT. destruct r as [err|z].
    + simpl. rewrite Hy, Hp. unfold P. simpl. lia.
    + assert (z = 1) as -> by (eapply renewal_succeeds; [exact Hown|exact Httl|exact Hkt|lia]).
      simpl. unfold granted. lia.
Qed.

Lemma in_time_same s s' : lock (mine s') = lock (mine s) → in_time s → in_time s'.
Proof. intros E. unfold in_time, P, G. by rewrite E. Qed.

Lemma kept_step s s' : in_time s ∧ kept s → tstep s s' → in_time s' ∧ kept s'.
Proof.
  intros [Hi Hk] Hs. destruct Hs as [s h tk x m s' Hst _ Hin Hpr|w hs1 h hs2 u tk x m y w' r HC Hkt HL Hm].
  - split; [by eapply in_time_same|]. by eapply kept_others.
  - split; [eapply in_time_same; [|exact Hi]; apply tick_lock|]. by eapply kept_tick.
Qed.

Lemma kept_start s : in_time s → tstart s → kept s.
Proof.
  intros (HJ & HL & HP & _) (s0 & t0 & Hi & Hr & Hin & Hle & Hn & Hk & Hla & Hm). unfold keepalive_ticker in Hk.
  apply (on_time_new J) in Hk as (_ & Hp & Ht). split.
  - apply (rtc_invariant Lock.step invariant s0 (sys s)); [eauto using lock_invariant_step|by apply lock_invariant_initial|done].
  - done.
  - done.
  - by rewrite Hla.
  - rewrite Hm. lia.
  - rewrite Hle, Hla, Hm, granted_G. lia.
Qed.

(** ** Properties *)

(** C25: The keepalive keeps the lock.  As long as ticks are received within [J] and calls answered
    within [L], and at most [M] renewals fail in a row, a handle whose time to live has room for
    [M + 1] periods and twice that delay never loses its lock: at every moment its lease runs, the
    server shows its token, and no other handle on the key has a running lease, whatever the
    other clients do. *)
Theorem lease_kept s0 s : tstart s0 → in_time s0 → rtc tstep s0 s →
  now s ≤ lease (mine s) ∧ lock (mine s) = lock (mine s0) ∧
  read (now s) (keys_of (world (sys s))) (key (lock (mine s))) = Some (token (lock (mine s))) ∧
  ∀ h, h ∈ handles (sys s) → h ≠ mine s → key (lock h) = key (lock (mine s)) → lease h < now s.
Proof.
  intros H0 Hi Hr.
  assert (HI : (in_time s ∧ kept s) ∧ lock (mine s) = lock (mine s0)).
  { apply (rtc_invariant tstep (λ s, (in_time s ∧ kept s) ∧ lock (mine s) = lock (mine s0)) s0 s); [|split_and!; auto using kept_start|done].
    intros x y [Hx Hl] Hs. split; [by eapply kept_step|]. destruct Hs; simpl in *; [done|]. by rewrite tick_lock. }
  destruct HI as [[Hin Hk] Hl]. pose proof (kept_lease s Hin Hk) as Hle. destruct Hin as (_ & HL & _).
  destruct (kept_ok s Hk) as (_ & _ & _ & Hown). destruct (Hown ltac:(unfold now in *; lia)) as (d & Hd & Hld).
  split_and!; [lia|done|eapply read_running; [exact Hd|unfold now in *; lia]|].
  intros h Hh Hne Hkey. apply Z.nle_gt. intros Hrun. destruct Hk as [[Hnd Hok] Hm _ _ _ _].
  rewrite Forall_forall in Hok. destruct (Hok h Hh) as (_ & _ & _ & Ho). destruct (Ho Hrun) as (d' & Hd' & _).
  rewrite Hkey, Hd in Hd'. injection Hd' as Htok _. apply Hne.
  apply list_elem_of_lookup in Hh as [i Hi'], Hm as [j Hj].
  assert (i = j) as -> by (eapply (NoDup_lookup _ i j (token (lock h)) Hnd); rewrite list_lookup_fmap, ?Hi', ?Hj; simpl; congruence).
  congruence.
Qed.

End Timed.

(** ** A server that fails on schedule *)

Module Flaky.
#[local] Existing Instance Ideal.ideal_redis.

(** [faults]: which of the next commands get no answer. *)
Record server := Server { srv : Ideal.server; faults : list bool }.

Definition no_answer : error := ErrNew 93 "i/o timeout".

Definition flaky_do {A} (o : op A) (w : server) : server * (error + A) :=
  match faults w with
  | true :: fs => (Server (srv w) fs, inl no_answer)
  | fs => let '(s, r) := Ideal.ideal_do o (srv w) in (Server s (drop 1 fs), r)
  end.

Definition flaky_scan (c : Z) (p : string) (n : Z) (w : server) : server * (error + (list string * Z)) :=
  let '(s, r) := Ideal.ideal_scan c p n (srv w) in (Server s (faults w), r).

Lemma flaky_do_cases {A} (o : op A) w w' r : flaky_do o w = (w', r) →
  (srv w' = srv w ∧ r = inl no_answer) ∨ do_ o (srv w) = (srv w', r).
Proof.
  unfold flaky_do. destruct (faults w) as [|[] fs]; [|intros [= <- <-]; by left|];
    (change (Ideal.ideal_do o (srv w)) with (do_ o (srv w)); destruct (do_ o (srv w)) as [s r'] eqn:E; intros [= <- <-]; by right).
Qed.

#[export] Program Instance flaky_redis : Redis server := {
  clock w := clock (srv w); keys_of w := keys_of (srv w); do_ := @flaky_do; scan := flaky_scan; glob := Ideal.ideal_glob;
  pending w := pending (srv w); calls_left w := calls_left (srv w); glob_prefix := Ideal.ideal_glob_prefix
}.
Next Obligation.
  intros A o w w' r [[-> ->]|Hd]%flaky_do_cases; [|by apply do_spec].
  exists (clock (srv w)). split; [lia|by left].
Qed.
Next Obligation.
  intros c p n w w' r Hs. unfold flaky_scan in Hs. destruct (Ideal.ideal_scan c p n (srv w)) as [s r'] eqn:E. simplify_eq.
  exact (scan_frame c p n (srv w) s r E).
Qed.
Next Obligation.
  intros c p n w w' l nx Hs. unfold flaky_scan in Hs. destruct (Ideal.ideal_scan c p n (srv w)) as [s r'] eqn:E. simplify_eq.
  exact (scan_spec c p n (srv w) s l nx E).
Qed.
Next Obligation. intros w p k Hk Hg. exact (pending_start (srv w) p k Hk Hg). Qed.
Next Obligation.
  intros A o w w' r c p k [[-> _]|Hd]%flaky_do_cases Hk Hs; [done|]. exact (pending_do o (srv w) (srv w') r c p k Hd Hk Hs).
Qed.
Next Obligation. intros. simpl. lia. Qed.

End Flaky.
#[local] Existing Instance Flaky.flaky_redis.

(** ** Witnesses *)

(** A lock of three seconds, held since instant 0; the first renewals get no answer. *)
Definition demo_lock : Lock := MkLock "k" "a" (3 * Second).
Definition demo_world (t : Time) (exp : Time) (fs : list bool) : Flaky.server :=
  Flaky.Server (Ideal.Server t {["k" := Entry "a" (Some exp)]}) fs.
Definition demo_state (t exp ls : Time) (fs : list bool) : state Flaky.server :=
  State (demo_world t exp fs) [Handle demo_lock ls] ({["a"]} ∪ ∅).
Definition demo_start (fs : list bool) : tstate :=
  TState (demo_state 0 (3 * Second) (3 * Second) fs) (Handle demo_lock (3 * Second)) (MkTicker Second Second None) 0 0.

Lemma demo_started fs : tstart (W:=Flaky.server) Millisecond 0 (demo_start fs).
Proof.
  exists (State (Flaky.Server (Ideal.Server 0 ∅) (false :: fs)) [] ∅), 0. split_and!; try done.
  - apply rtc_once.
    refine (step_acquire (Flaky.Server (Ideal.Server 0 ∅) (false :: fs)) [] ∅ "a" "k" (3 * Second)
      (demo_world 0 (3 * Second) fs) (inr demo_lock) _ _ _); [by vm_compute|set_solver|reflexivity].
  - by left.
Qed.

(** Nothing happens until [t']. *)
Lemma demo_wait M t t' exp ls fs tk tk' x m : t ≤ t' → elapse t' tk = tk' → prompt Millisecond t' tk' →
  tstep Millisecond 0 M (TState (demo_state t exp ls fs) (Handle demo_lock ls) tk x m)
    (TState (demo_state t' exp ls fs) (Handle demo_lock ls) tk' x m).
Proof.
  intros Ht <- Hp. refine (t_others Millisecond 0 M (demo_state t exp ls fs) (Handle demo_lock ls) tk x m (demo_state t' exp ls fs) _ _ _ Hp);
    [by apply step_idle|by left|by left].
Qed.

(** The renewal of the tick at [y] gets no answer. *)
Lemma demo_miss M t exp ls fs p n y x m : (m < M)%nat → t < n →
  tstep Millisecond 0 M (TState (demo_state t exp ls (true :: fs)) (Handle demo_lock ls) (MkTicker p n (Some y)) x m)
    (TState (demo_state t exp ls fs) (Handle demo_lock ls) (MkTicker p n None) y (S m)).
Proof.
  intros Hm Hn.
  pose proof (t_tick Millisecond 0 M (demo_world t exp (true :: fs)) [] (Handle demo_lock ls) [] ({["a"]} ∪ ∅) (MkTicker p n (Some y)) x m y
    (demo_world t exp fs) (inl Flaky.no_answer) eq_refl eq_refl) as Hs.
  rewrite elapse_early in Hs by done. apply Hs; [simpl; lia|done].
Qed.

(** Time passes from [t] to [t'], and a renewal gets no answer. *)
Ltac demo_waits t t' tk' :=
  eapply rtc_l; [apply (demo_wait _ t t' _ _ _ _ tk'); [by vm_compute|vm_compute; reflexivity|intros ? [= <-]; by vm_compute]|].
Ltac demo_misses := eapply rtc_l; [apply demo_miss; [lia|by vm_compute]|].

Lemma lease_kept_witness : ∃ s : tstate (W:=Flaky.server),
  misses s = 1%nat ∧ now s = Second ∧ now s ≤ lease (mine s).
Proof.
  eexists (TState (demo_state Second (3 * Second) (3 * Second) []) (Handle demo_lock (3 * Second)) (MkTicker Second (2 * Second) None) Second 1).
  split; [reflexivity|]. split; [reflexivity|].
  apply (lease_kept Millisecond 0 1 (demo_start [true]) _).
  - apply demo_started.
  - unfold in_time, P, G. vm_compute. split_and!; discriminate || reflexivity.
  - demo_waits 0 Second (MkTicker Second (2 * Second) (Some Second)). demo_misses. apply rtc_refl.
Defined.

(** Two renewals in a row get no answer.  The third tick fires as the key expires, and is received
    a millisecond later: another client has the lock by then, and the holder is not told. *)
Theorem third_chance_late : ∃ s : tstate (W:=Flaky.server),
  rtc (tstep Millisecond 0 2) (demo_start [true; true]) s ∧ lock (mine s) = demo_lock ∧
  read (now s) (keys_of (world (sys s))) "k" = Some "b" ∧ Handle demo_lock (3 * Second) ∈ handles (sys s).
Proof.
  set (w3 := demo_world (3 * Second + Millisecond) (3 * Second) []).
  set (w4 := Flaky.Server (Ideal.Server (3 * Second + Millisecond) {["k" := Entry "b" (Some (6 * Second + Millisecond))]}) []).
  set (h := Handle demo_lock (3 * Second)).
  set (hs := [h] ++ [Handle (MkLock "k" "b" (3 * Second)) (granted (3 * Second + Millisecond) (3 * Second))]).
  eexists (TState (State w4 hs ({["b"]} ∪ ({["a"]} ∪ ∅))) h (MkTicker Second (4 * Second) (Some (3 * Second))) (2 * Second) 2).
  split; [|split_and!; [done|by vm_compute|by left]].
  demo_waits 0 Second (MkTicker Second (2 * Second) (Some Second)). demo_misses.
  demo_waits Second (2 * Second) (MkTicker Second (3 * Second) (Some (2 * Second))). demo_misses.
  demo_waits (2 * Second) (3 * Second + Millisecond) (MkTicker Second (4 * Second) (Some (3 * Second))).
  eapply rtc_l; [|apply rtc_refl].
  refine (t_others Millisecond 0 2 (State w3 [h] ({["a"]} ∪ ∅)) h (MkTicker Second (4 * Second) (Some (3 * Second))) (2 * Second) 2
    (State w4 hs ({["b"]} ∪ ({["a"]} ∪ ∅))) _ _ _ _).
  - refine (step_acquire w3 [h] ({["a"]} ∪ ∅) "b" "k" (3 * Second) w4 (inr (MkLock "k" "b" (3 * Second))) _ _ _);
      [by vm_compute|set_solver|vm_compute; reflexivity].
  - by left.
  - by left.
  - intros x [= <-]. by vm_compute.
Qed.

End Keepalive.

Module Protocol.
Import Redis Lock.

(** ** Release and the goroutine

    The goroutine: in its select, waiting for the answer to a renewal, gone.  A call of
    [Release]: before the test of [stop], before the close, waiting for [done], before the
    script, waiting for its answer, returned; [RPanic]: it closed a closed channel. *)
Inductive kpc := KSelect | KRenew | KGone.
Inductive rpc := RTest | RClose | RWait | RScript | RSent | RReturned | RPanic.
#[export] Instance rpc_eq_dec : EqDecision rpc.
Proof. solve_decision. Defined.

(** The server: its clock and keys, the scripts of this handle that are on their way to it, and
    whether it has run a release of this handle. *)
Record server := Server { now : Time; ks : keyspace; renewals : nat; releases : nat; released : bool }.

(** [stop] and [done_]: whether the channel is closed. *)
Record state := State { stop : bool; done_ : bool; ka : kpc; rs : list rpc; srv : server }.

Section Protocol.
Context (l : Lock).

(** The key has the token of this handle at the instant [t]. *)
Definition own (t : Time) (m : keyspace) : Prop := read t m (key l) = Some (token l).

Definition send_renewal (v : server) : server := Server (now v) (ks v) (S (renewals v)) (releases v) (released v).
Definition send_release (v : server) : server := Server (now v) (ks v) (renewals v) (S (releases v)) (released v).

(** What happens at the server: a script arrives and runs, or is lost; other clients act and
    time passes.  Their tokens are not this one, so that they neither set it nor let it live
    longer. *)
Inductive serve : server → server → Prop :=
| v_renew t m n x r :
    serve (Server t m (S n) x r) (Server t (renewScript (key l) (token l) (Milliseconds (ttl l)) t m).1 n x r)
| v_release t m n x r :
    serve (Server t m n (S x) r) (Server t (releaseScript (key l) (token l) t m).1 n x true)
| v_lose_renewal t m n x r : serve (Server t m (S n) x r) (Server t m n x r)
| v_lose_release t m n x r : serve (Server t m n (S x) r) (Server t m n x r)
| v_others t t' m m' n x r :
    t ≤ t' → (∀ u, t' ≤ u → own u m' → own u m) → serve (Server t m n x r) (Server t' m' n x r).

(** [TryAcquire] returns. *)
Definition start (t : Time) (m : keyspace) : state := State false false KSelect [] (Server t m 0 0 false).

Inductive step : state → state → Prop :=
(** the goroutine: its select may take the tick also when [stop] is closed; the call of the
    script returns when it is answered, when it fails or after five seconds, and its result is
    dropped *)
| p_tick c d cs v : step (State c d KSelect cs v) (State c d KRenew cs (send_renewal v))
| p_answer c d cs v : step (State c d KRenew cs v) (State c d KSelect cs v)
| p_exit d cs v : step (State true d KSelect cs v) (State true true KGone cs v)
(** [Release] *)
| p_call c d k cs v : step (State c d k cs v) (State c d k (cs ++ [RTest]) v)
| p_test c d k l1 l2 v : step (State c d k (l1 ++ RTest :: l2) v) (State c d k (l1 ++ (if c then RWait else RClose) :: l2) v)
| p_close c d k l1 l2 v : step (State c d k (l1 ++ RClose :: l2) v) (State true d k (l1 ++ (if c then RPanic else RWait) :: l2) v)
| p_done c k l1 l2 v : step (State c true k (l1 ++ RWait :: l2) v) (State c true k (l1 ++ RScript :: l2) v)
| p_script c d k l1 l2 v : step (State c d k (l1 ++ RScript :: l2) v) (State c d k (l1 ++ RSent :: l2) (send_release v))
| p_return c d k l1 l2 v : step (State c d k (l1 ++ RSent :: l2) v) (State c d k (l1 ++ RReturned :: l2) v)
| p_serve c d k cs v v' : serve v v' → step (State c d k cs v) (State c d k cs v').

(** What a call's place says about the channels. *)
Definition place_ok (c d : bool) (p : rpc) : Prop :=
  match p with RWait | RPanic => c = true | RScript | RSent | RReturned => d = true | _ => True end.

(** A release on its way or run: the goroutine is gone.  Once it has run, the lock is. *)
Definition server_ok (d : bool) (v : server) : Prop :=
  (releases v ≠ 0%nat ∨ released v = true → d = true) ∧ (released v = true → ∀ t, now v ≤ t → ¬ own t (ks v)).

Record invariant (s : state) : Prop := {
  i_gone : done_ s = true ↔ ka s = KGone;
  i_stop : done_ s = true → stop s = true;
  i_places : Forall (place_ok (stop s) (done_ s)) (rs s);
  i_server : server_ok (done_ s) (srv s)
}.

Lemma place_mono c c' d d' p : (c = true → c' = true) → (d = true → d' = true) → place_ok c d p → place_ok c' d' p.
Proof. intros Hc Hd. destruct p; simpl; auto. Qed.

Lemma places_replace c c' d p p' l1 l2 : (c = true → c' = true) → Forall (place_ok c d) (l1 ++ p :: l2) → place_ok c' d p' →
  Forall (place_ok c' d) (l1 ++ p' :: l2).
Proof.
  intros Hc HF Hp. rewrite !Forall_app, !Forall_cons in *. destruct HF as (H1 & _ & H2).
  split_and!; [|done|]; (eapply Forall_impl; [eassumption|]); intros q; by apply place_mono.
Qed.

Lemma place_at c d l1 p l2 : Forall (place_ok c d) (l1 ++ p :: l2) → place_ok c d p.
Proof. intros HF. by eapply Forall_elt. Qed.

Lemma renew_foreign t m : ¬ own t m → (renewScript (key l) (token l) (Milliseconds (ttl l)) t m).1 = m.
Proof. intros Ho. unfold renewScript. by rewrite bool_decide_eq_false_2. Qed.

Lemma release_frees t m u : t ≤ u → ¬ own u (releaseScript (key l) (token l) t m).1.
Proof.
  intros Hu Ho. unfold releaseScript in Ho. case_bool_decide as Hr.
  - unfold own, cmd_del, read in Ho. simpl in Ho. by rewrite lookup_delete_eq in Ho.
  - apply Hr. by eapply read_alive_mono.
Qed.

Lemma serve_ok d v v' : server_ok d v → serve v v' → server_ok d v'.
Proof.
  intros [Hd Ho] Hs. destruct Hs as [t m n x r|t m n x r|t m n x r|t m n x r|t t' m m' n x r Ht Hm]; simpl in *.
  - split; simpl; [done|]. intros Hr u Hu. rewrite renew_foreign by (by apply Ho). by apply Ho.
  - split; simpl; [intros _; apply Hd; by left|]. intros _ u Hu. by apply release_frees.
  - by split.
  - split; simpl; [|done]. intros [H|H]; apply Hd; [by left|by right].
  - split; simpl; [done|]. intros Hr u Hu Hou. apply (Ho Hr u); [lia|by apply Hm].
Qed.

Lemma protocol_step s s' : invariant s → step s s' → invariant s'.
Proof.
  intros [Hg Hs Hp Hv] Hst. destruct Hst as [c d cs v|c d cs v|d cs v|c d k cs v|c d k l1 l2 v|c d k l1 l2 v|c k l1 l2 v|c d k l1 l2 v|c d k l1 l2 v|c d k cs v v' Hse];
    simpl in *.
  - split; simpl; [destruct d; split; by try (intros; naive_solver)|done|done|exact Hv].
  - split; simpl; [destruct d; split; by try (intros; naive_solver)|done|done|done].
  - split; simpl; [done|done| |by split; [|apply Hv]]. eapply Forall_impl; [exact Hp|]. intros q. by apply place_mono.
  - split; simpl; [done|done|apply Forall_app; split; [done|by repeat constructor]|done].
  - split; simpl; [done|done| |done]. eapply places_replace; [|exact Hp|by destruct c]. done.
  - split; simpl; [done|done| |done]. eapply places_replace; [|exact Hp|by destruct c]. done.
  - split; simpl; [done|done| |done]. eapply places_replace; [|exact Hp|done]. done.
  - pose proof (place_at _ _ _ _ _ Hp) as Hd. simpl in Hd.
    split; simpl; [done|done|by eapply places_replace; [|exact Hp|done]|by split; [|apply Hv]].
  - pose proof (place_at _ _ _ _ _ Hp) as Hd. simpl in Hd.
    split; simpl; [done|done|by eapply places_replace; [|exact Hp|done]|done].
  - split; simpl; [done|done|done|by eapply serve_ok].
Qed.

Lemma protocol_reachable t m s : rtc step (start t m) s → invariant s.
Proof.
  apply (rtc_invariant step invariant); [eauto using protocol_step|]. split; simpl; [done|done|constructor|].
  split; simpl; [by intros [?|?]|done].
Qed.

(** A goroutine that is gone sends nothing more. *)
Lemma gone_quiet s s' : ka s = KGone → rtc step s s' → ka s' = KGone ∧ (renewals (srv s') ≤ renewals (srv s))%nat.
Proof.
  intros Hg. induction 1 as [s|s s1 s2 Hst _ IH]; [done|].
  assert (H1 : ka s1 = KGone ∧ (renewals (srv s1) ≤ renewals (srv s))%nat).
  { destruct Hst as [| | | | | | | | |? ? ? ? ? ? Hv]; simpl in *; try done. destruct Hv; simpl; split; (done || lia). }
  destruct (IH (proj1 H1)). split; [done|]. lia.
Qed.

(** How far the calls are from their ends. *)
Definition rpc_left (p : rpc) : nat := match p with RTest => 5 | RClose => 4 | RWait => 3 | RScript => 2 | RSent => 1 | _ => 0 end.
Definition kpc_left (k : kpc) : nat := match k with KRenew => 2 | KSelect => 1 | KGone => 0 end.
Definition protocol_left (s : state) : nat := (sum_list_with rpc_left (rs s) + kpc_left (ka s))%nat.

Lemma call_progress s l1 p l2 : invariant s → rs s = l1 ++ p :: l2 → (0 < rpc_left p)%nat →
  ∃ s', step s s' ∧ (protocol_left s' < protocol_left s)%nat.
Proof.
  intros [Hg Hs Hp _] Hr Hl. destruct s as [c d k rs v]. simpl in *. subst rs. pose proof (place_at _ _ _ _ _ Hp) as Hat.
  destruct p; simpl in Hl; try lia.
  - eexists. split; [apply p_test|]. unfold protocol_left. simpl. rewrite !sum_list_with_middle. destruct c; simpl; lia.
  - eexists. split; [apply p_close|]. unfold protocol_left. simpl. rewrite !sum_list_with_middle. destruct c; simpl; lia.
  - simpl in Hat. subst c. destruct k.
    + eexists. split; [apply p_exit|]. unfold protocol_left. simpl. lia.
    + eexists. split; [apply p_answer|]. unfold protocol_left. simpl. lia.
    + assert (d = true) as -> by (by apply Hg). eexists. split; [apply p_done|]. unfold protocol_left. simpl.
      rewrite !sum_list_with_middle. simpl. lia.
  - eexists. split; [apply p_script|]. unfold protocol_left. simpl. rewrite !sum_list_with_middle. simpl. lia.
  - eexists. split; [apply p_return|]. unfold protocol_left. simpl. rewrite !sum_list_with_middle. simpl. lia.
Qed.

(** ** Properties *)

(** C26: A released lock stays released, whatever calls of [Release] there are, however they
    interleave with the goroutine, and however late a renewal reaches the server that the
    goroutine has given up waiting for.  Once a release is on its way no renewal is sent any
    more, since the goroutine has closed [done] on its way out; and when the server has run it
    the key never has the token of this handle again, as the script of a late renewal finds
    another token or none. *)
Theorem released_for_good t m s : rtc step (start t m) s →
  (releases (srv s) ≠ 0%nat ∨ released (srv s) = true →
     ka s = KGone ∧ ∀ s', rtc step s s' → (renewals (srv s') ≤ renewals (srv s))%nat) ∧
  (released (srv s) = true → ∀ u, now (srv s) ≤ u → read u (ks (srv s)) (key l) ≠ Some (token l)).
Proof.
  intros Hr. destruct (protocol_reachable t m s Hr) as [Hg _ _ [Hd Ho]]. split; [|exact Ho].
  intros H. apply Hd, Hg in H. split; [done|]. intros s' Hs. by apply (gone_quiet s s').
Qed.

(** No call of [Release] is stuck: from every reachable state the goroutine and the calls can
    run to their ends. *)
Theorem release_can_return t m s : rtc step (start t m) s → ∃ s', rtc step s s' ∧ Forall (λ p, p = RReturned ∨ p = RPanic) (rs s').
Proof.
  intros Hr. pose proof (protocol_reachable t m s Hr) as Hi. clear Hr.
  remember (protocol_left s) as n eqn:Hn. revert s Hn Hi. induction (lt_wf n) as [n _ IH]. intros s -> Hi.
  destruct (decide (Forall (λ p, rpc_left p = 0%nat) (rs s))) as [HF|HF].
  - exists s. split; [done|]. eapply Forall_impl; [exact HF|]. intros []; simpl; auto; lia.
  - apply not_Forall_Exists in HF; [|apply _]. apply Exists_exists in HF as (p & (l1 & l2 & Hl)%list_elem_of_split & Hp).
    destruct (call_progress s l1 p l2 Hi Hl) as (s1 & Hs & Hlt); [simpl in Hp; lia|].
    destruct (IH _ Hlt s1 eq_refl) as (s2 & Hr & HF2); [by eapply protocol_step|]. exists s2. split; [by eapply rtc_l|done].
Qed.

(** Calls one after the other. *)
Definition active (p : rpc) : Prop := p ≠ RReturned ∧ p ≠ RPanic.
#[export] Instance active_dec p : Decision (active p).
Proof. unfold active. apply _. Defined.
Definition seq_step (s s' : state) : Prop := step s s' ∧ (length (filter active (rs s')) ≤ 1)%nat.

Lemma one_active l1 p l2 q : active p → (length (filter active (l1 ++ p :: l2)) ≤ 1)%nat → q ∈ l1 ++ l2 → ¬ active q.
Proof.
  intros Hp Hl Hq Ha. rewrite filter_app, filter_cons_True, length_app in Hl by done. simpl in Hl.
  assert (Hin : q ∈ filter active l1 ++ filter active l2)
    by (rewrite elem_of_app, !list_elem_of_filter; apply elem_of_app in Hq; tauto).
  destruct (filter active l1), (filter active l2); simpl in *; try lia. by apply not_elem_of_nil in Hin.
Qed.

Definition seq_ok (s : state) : Prop :=
  (length (filter active (rs s)) ≤ 1)%nat ∧ RPanic ∉ rs s ∧ (stop s = true → RClose ∉ rs s).

Lemma seq_ok_step s s' : seq_ok s → seq_step s s' → seq_ok s'.
Proof.
  intros (Hl & Hp & Hc) [Hst Hl']. split; [done|].
  destruct Hst as [| | |c d k cs v|c d k l1 l2 v|c d k l1 l2 v|c k l1 l2 v|c d k l1 l2 v|c d k l1 l2 v|]; simpl in *; try done; try set_solver.
  - destruct c; set_solver.
  - assert (c = false) as -> by (destruct c; [|done]; exfalso; apply Hc; [done|set_solver]).
    split; [set_solver|]. intros _ Hin. apply elem_of_app in Hin. rewrite elem_of_cons in Hin.
    assert (Hq : RClose ∈ l1 ++ l2) by (rewrite elem_of_app; destruct Hin as [?|[?|?]]; [by left|done|by right]).
    apply (one_active l1 RClose l2 RClose) in Hq; [apply Hq; by split|by split|done].
Qed.

(** Calls that follow each other are safe, as the comment of [Release] says: none panics. *)
Theorem sequential_releases_safe t m s : rtc seq_step (start t m) s → RPanic ∉ rs s.
Proof.
  intros Hr. apply (rtc_invariant seq_step seq_ok (start t m) s); [eauto using seq_ok_step| |done]. split_and!; simpl; [lia|set_solver|set_solver].
Qed.

(** Calls that overlap are not: both find [stop] open, and the second close panics. *)
Theorem concurrent_release_panics t m : ∃ s, rtc step (start t m) s ∧ RPanic ∈ rs s.
Proof.
  exists (State true false KSelect [RWait; RPanic] (Server t m 0 0 false)). split; [|set_solver].
  eapply rtc_l; [apply p_call|]. eapply rtc_l; [apply p_call|].
  eapply rtc_l; [apply (p_test _ _ _ [])|]. eapply rtc_l; [apply (p_test _ _ _ [RClose])|].
  eapply rtc_l; [apply (p_close _ _ _ [])|]. eapply rtc_l; [apply (p_close _ _ _ [RWait])|]. apply rtc_refl.
Qed.
End Protocol.

(** ** Witnesses *)

(** The goroutine gives a renewal up; it reaches the server after the release. *)
Definition late_lock : Lock := MkLock "k" "a" (3 * Second).
Definition late_keys : keyspace := {["k" := Entry "a" (Some (3 * Second))]}.
Definition late_renewal : state := State true true KGone [RReturned] (Server 0 ∅ 0 0 true).

Lemma late_reachable : rtc (step late_lock) (start 0 late_keys) late_renewal ∧ rtc (seq_step late_lock) (start 0 late_keys) late_renewal.
Proof.
  assert (Hs : rtc (seq_step late_lock) (start 0 late_keys) late_renewal);
    [|split; [eapply (rtc_subrel (seq_step late_lock) (step late_lock)); [by intros ?? []|done]|done]].
  eapply rtc_l; [split; [apply p_tick|simpl; lia]|]. eapply rtc_l; [split; [apply p_answer|simpl; lia]|].
  eapply rtc_l; [split; [apply p_call|by vm_compute; lia]|].
  eapply rtc_l; [split; [apply (p_test _ _ _ _ [])|by vm_compute; lia]|]. eapply rtc_l; [split; [apply (p_close _ _ _ _ [])|by vm_compute; lia]|].
  eapply rtc_l; [split; [apply p_exit|by vm_compute; lia]|]. eapply rtc_l; [split; [apply (p_done _ _ _ [])|by vm_compute; lia]|].
  eapply rtc_l; [split; [apply (p_script _ _ _ _ [])|by vm_compute; lia]|].
  eapply rtc_l; [split; [apply p_serve, v_release|by vm_compute; lia]|].
  eapply rtc_l; [split; [apply p_serve, v_renew|by vm_compute; lia]|].
  eapply rtc_l; [split; [apply (p_return _ _ _ _ [])|by vm_compute; lia]|]. apply rtc_refl.
Qed.

Lemma released_for_good_witness : ka late_renewal = KGone ∧ ∀ u, 0 ≤ u → read u (ks (srv late_renewal)) "k" ≠ Some "a".
Proof.
  destruct (released_for_good late_lock 0 late_keys late_renewal) as [Hg Ho]; [apply late_reachable|].
  split; [apply Hg; by right|by apply Ho].
Defined.

Lemma release_can_return_witness : ∃ s', rtc (step late_lock) late_renewal s' ∧ Forall (λ p, p = RReturned ∨ p = RPanic) (rs s').
Proof. apply (release_can_return late_lock 0 late_keys). apply late_reachable. Defined.

Lemma sequential_releases_safe_witness : RPanic ∉ rs late_renewal.
Proof. apply (sequential_releases_safe late_lock 0 late_keys). apply late_reachable. Defined.

End Protocol.
