(* ===== verification/PubSub.v ===== *)
(** * pkg/pubsub: the in-process event bus

    The bus, its subscriptions and the goroutines that publish, dispatch and
    unsubscribe, as a transition system.  [Publish] copies the handlers of the topic
    under the lock and then sends to one after the other; each subscription has a
    channel and a goroutine that runs the handler; the unsubscribe function removes
    the subscription under the lock and closes the channel after it.  Each of these
    is a step of its own, so they interleave as the mutex and the channels allow. *)

From S2P Require Import Prelude GoLang.
Open Scope Z_scope.

Module PubSub.

Section Bus.
(** Payloads with their dynamic type. *)
Context {P : Type} (typ : P → positive).

Record Event := MkEvent { Topic : string; Payload : P }.

Notation id := nat (only parsing).

Inductive worker := Idle | Running (e : Event) | Exited.

(** A subscription: its topic, the type its handler takes, the channel (capacity,
    contents, whether it is closed), whether its context is cancelled and its
    dispatch goroutine.  [accepted] and [handled] record the events the channel took
    and the handler finished. *)
Record sub := Sub {
  topic : string; T : positive; cap : nat; queue : list Event; closed : bool; cancelled : bool;
  disp : worker; accepted : list Event; handled : list Event
}.

Definition new_sub (t : string) (ty : positive) (bufSize : Z) : sub :=
  Sub t ty (Z.to_nat (Z.max bufSize 0)) [] false false Idle [] [].

(** [subs] of [Bus] maps a topic to its subscriptions.  [sending] are the calls of
    [Publish] under way, with the handlers they still have to serve; [closing] are the
    calls of an unsubscribe function that have removed the subscription and not yet
    closed its channel, with whether they have cancelled its context; [sent] records what was offered to whom. *)
Record state := State {
  subs : gmap string (list id); table : list sub;
  sending : list (Event * list id); closing : list (id * bool); sent : list (id * Event);
  panicked : bool
}.

Definition NewBus : state := State ∅ [] [] [] [] false.

Definition handlers (s : state) (t : string) : list id := default [] (subs s !! t).

(** ** Channel and goroutine operations *)

(** [case ch <- fn] on an open channel: into the buffer. *)
Definition enqueue (e : Event) (b : sub) : sub :=
  Sub (topic b) (T b) (cap b) (queue b ++ [e]) (closed b) (cancelled b) (disp b) (accepted b ++ [e]) (handled b).
(** Without a buffer: to the dispatch goroutine that waits in its select. *)
Definition handoff (e : Event) (b : sub) : sub :=
  Sub (topic b) (T b) (cap b) (queue b) (closed b) (cancelled b) (Running e) (accepted b ++ [e]) (handled b).

Definition receive (b : sub) : option sub :=
  match disp b, queue b with
  | Idle, e :: q =>
    Some (Sub (topic b) (T b) (cap b) q (closed b) (cancelled b) (Running e) (accepted b) (handled b))
  | _, _ => None
  end.

Definition finish (b : sub) : option sub :=
  match disp b with
  | Running e =>
    Some (Sub (topic b) (T b) (cap b) (queue b) (closed b) (cancelled b) Idle (accepted b) (handled b ++ [e]))
  | _ => None
  end.

(** The goroutine returns when its context is done or its channel closed and drained. *)
Definition exit_ (b : sub) : option sub :=
  match disp b with
  | Idle => if cancelled b || closed b && bool_decide (queue b = [])
            then Some (Sub (topic b) (T b) (cap b) (queue b) (closed b) (cancelled b) Exited (accepted b) (handled b))
            else None
  | _ => None
  end.

Definition cancel (b : sub) : sub :=
  Sub (topic b) (T b) (cap b) (queue b) (closed b) true (disp b) (accepted b) (handled b).
Definition close_ (b : sub) : sub :=
  Sub (topic b) (T b) (cap b) (queue b) true (cancelled b) (disp b) (accepted b) (handled b).

(** The loop of the unsubscribe function. *)
Fixpoint remove_first (i : id) (l : list id) : list id :=
  match l with [] => [] | j :: l => if bool_decide (j = i) then l else j :: remove_first i l end.

(** [rawHandler.publish]: what a send of [e] may lead to; [None] is a panic. *)
Inductive publish (e : Event) (b : sub) : option sub → Prop :=
| publish_type : typ (Payload e) ≠ T b → publish e b None
| publish_closed : typ (Payload e) = T b → closed b = true → publish e b None
| publish_buffer : typ (Payload e) = T b → closed b = false → (length (queue b) < cap b)%nat →
    publish e b (Some (enqueue e b))
| publish_full : typ (Payload e) = T b → closed b = false → (0 < cap b ≤ length (queue b))%nat →
    publish e b (Some b)
| publish_handoff : typ (Payload e) = T b → closed b = false → cap b = 0%nat → disp b = Idle →
    publish e b (Some (handoff e b))
| publish_unready : typ (Payload e) = T b → closed b = false → cap b = 0%nat → publish e b (Some b).

(** ** Steps *)

Definition set_table (s : state) (t : list sub) : state :=
  State (subs s) t (sending s) (closing s) (sent s) (panicked s).

Inductive step : state → state → Prop :=
(** [Subscribe], atomic under the lock *)
| step_subscribe s t ty bufSize :
    step s (State (<[t := handlers s t ++ [length (table s)]]> (subs s)) (table s ++ [new_sub t ty bufSize])
              (sending s) (closing s) (sent s) (panicked s))
(** [Publish]: copy the handlers *)
| step_publish s t p :
    step s (State (subs s) (table s) (sending s ++ [(MkEvent t p, handlers s t)]) (closing s) (sent s) (panicked s))
(** [Publish]: serve the next handler; a panic ends the call *)
| step_send s l1 e i rest l2 b b' :
    sending s = l1 ++ (e, i :: rest) :: l2 → table s !! i = Some b → publish e b (Some b') →
    step s (State (subs s) (<[i := b']> (table s)) (l1 ++ (e, rest) :: l2) (closing s) (sent s ++ [(i, e)])
              (panicked s))
| step_send_panic s l1 e i rest l2 b :
    sending s = l1 ++ (e, i :: rest) :: l2 → table s !! i = Some b → publish e b None →
    step s (State (subs s) (table s) (l1 ++ l2) (closing s) (sent s ++ [(i, e)]) true)
(** the dispatch goroutine *)
| step_receive s i b b' : table s !! i = Some b → receive b = Some b' → step s (set_table s (<[i := b']> (table s)))
| step_finish s i b b' : table s !! i = Some b → finish b = Some b' → step s (set_table s (<[i := b']> (table s)))
| step_exit s i b b' : table s !! i = Some b → exit_ b = Some b' → step s (set_table s (<[i := b']> (table s)))
(** the unsubscribe function: under the lock, then [cancel] and [close] *)
| step_unsubscribe s i b :
    table s !! i = Some b →
    step s (State (<[topic b := remove_first i (handlers s (topic b))]> (subs s)) (table s)
              (sending s) (closing s ++ [(i, false)]) (sent s) (panicked s))
| step_cancel s l1 i l2 b :
    closing s = l1 ++ (i, false) :: l2 → table s !! i = Some b →
    step s (State (subs s) (<[i := cancel b]> (table s)) (sending s) (l1 ++ (i, true) :: l2) (sent s) (panicked s))
| step_close s l1 i l2 b :
    closing s = l1 ++ (i, true) :: l2 → table s !! i = Some b →
    step s (State (subs s) (<[i := close_ b]> (table s)) (sending s) (l1 ++ l2) (sent s)
              (panicked s || closed b)).

(** ** The invariant *)

Definition in_flight (b : sub) : list Event := match disp b with Running e => [e] | _ => [] end.

Definition sent_to (s : state) (i : id) : list Event := (filter (λ x, x.1 = i) (sent s)).*2.

(** A subscription on its own, given what was offered to it. *)
Record sub_ok (offered : list Event) (b : sub) : Prop := {
  so_fifo : handled b ++ in_flight b ++ queue b = accepted b;
  so_cap : (length (queue b) ≤ cap b)%nat;
  so_sub : accepted b `sublist_of` offered;
  so_typed : Forall (λ e, Topic e = topic b ∧ typ (Payload e) = T b) (accepted b);
}.

Definition has_topic (s : state) (t : string) (i : id) : Prop := ∃ b, table s !! i = Some b ∧ topic b = t.

Record invariant (s : state) : Prop := {
  inv_sub i b : table s !! i = Some b → sub_ok (sent_to s i) b;
  inv_topic t i : i ∈ handlers s t → has_topic s t i;
  inv_nodup t : NoDup (handlers s t);
  inv_sending e is_ i : (e, is_) ∈ sending s → i ∈ is_ → has_topic s (Topic e) i;
  inv_reg i b : table s !! i = Some b →
    i ∈ handlers s (topic b) ↔ closed b = false ∧ i ∉ (closing s).*1;
  inv_closing i : i ∈ (closing s).*1 → is_Some (table s !! i);
}.

(** [Topics], in the order in which the map iterates. *)
Definition Topics (s : state) : list string := (filter (λ x, x.2 ≠ []) (map_to_list (subs s))).*1.

(** ** Lemmas *)

Lemma sub_ok_offered l x b : sub_ok l b → sub_ok (l ++ x) b.
Proof. intros [?? Hs ?]. split; [done|done| |done]. by apply sublist_inserts_r. Qed.

Lemma sent_to_app s sub' tab snd cls x p i :
  sent_to (State sub' tab snd cls (sent s ++ x) p) i = sent_to s i ++ (filter (λ y, y.1 = i) x).*2.
Proof. unfold sent_to. simpl. by rewrite filter_app, fmap_app. Qed.

(** A step that replaces one subscription and touches neither the map nor the
    topics keeps the invariant. *)
Lemma invariant_update s i b b' snd cls x p :
  invariant s → table s !! i = Some b → topic b' = topic b →
  sub_ok (sent_to s i ++ (filter (λ y, y.1 = i) x).*2) b' →
  (∀ e l j, (e, l) ∈ snd → j ∈ l → ∃ l', (e, l') ∈ sending s ∧ j ∈ l') →
  (∀ j, j ∈ cls.*1 → j ∈ (closing s).*1) →
  (closed b' = false ∧ i ∉ cls.*1 ↔ closed b = false ∧ i ∉ (closing s).*1) →
  (∀ j, j ≠ i → j ∈ (closing s).*1 → j ∈ cls.*1) →
  invariant (State (subs s) (<[i := b']> (table s)) snd cls (sent s ++ x) p).
Proof.
  intros [Hsub Htop Hnd Hsend Hreg Hcls] Hi Ht Hb' Hsnd Hc1 Hc2 Hc3.
  set (s' := State _ _ _ _ _ _).
  assert (Hlk : ∀ j c, table s' !! j = Some c → j = i ∧ c = b' ∨ j ≠ i ∧ table s !! j = Some c).
  { intros j c Hj. simpl in Hj. apply list_lookup_insert_Some in Hj. naive_solver. }
  assert (Hht : ∀ t j, has_topic s t j → has_topic s' t j).
  { intros t j (c & Hj & Hc). destruct (decide (j = i)) as [->|].
    - exists b'. simpl. rewrite list_lookup_insert_eq by (by eapply lookup_lt_Some). naive_solver.
    - exists c. simpl. by rewrite list_lookup_insert_ne. }
  split.
  - intros j c Hj. unfold s'. rewrite sent_to_app. destruct (Hlk j c Hj) as [[-> ->]|[Hne Hj']]; [done|].
    apply sub_ok_offered. eauto.
  - intros t j Hin. apply Hht. by apply Htop.
  - apply Hnd.
  - intros e l j Hin Hj. apply Hht. destruct (Hsnd e l j Hin Hj) as (l' & ? & ?). eauto.
  - intros j c Hj. destruct (Hlk j c Hj) as [[-> ->]|[Hne Hj']]; simpl.
    + change (handlers s' (topic b')) with (handlers s (topic b')). rewrite Ht, (Hreg i b Hi), Hc2. done.
    + change (handlers s' (topic c)) with (handlers s (topic c)). rewrite (Hreg j c Hj').
      split; intros [? Hn]; (split; [done|]); contradict Hn; auto.
  - intros j Hj. simpl in *. destruct (Hcls j (Hc1 j Hj)) as [c Hc].
    apply lookup_lt_is_Some. rewrite length_insert. by eapply lookup_lt_Some.
Qed.

(** A step of the dispatch goroutine. *)
Lemma invariant_local s i b b' : invariant s → table s !! i = Some b →
  topic b' = topic b → closed b' = closed b → (∀ l, sub_ok l b → sub_ok l b') →
  invariant (set_table s (<[i := b']> (table s))).
Proof.
  intros Hinv Hi Ht Hc Hok. pose proof (inv_sub _ Hinv i b Hi) as Hb.
  unfold set_table. rewrite <-(app_nil_r (sent s)).
  eapply invariant_update; [done|done|done| |by eauto|done| |done].
  - apply Hok. simpl. by rewrite app_nil_r.
  - by rewrite Hc.
Qed.

Lemma receive_ok l b b' : receive b = Some b' → topic b' = topic b ∧ closed b' = closed b ∧ (sub_ok l b → sub_ok l b').
Proof.
  unfold receive. destruct (disp b) eqn:Ed, (queue b) as [|e0 q] eqn:Eq; try done. intros [= <-].
  split_and!; [done|done|]. intros [Hf Hc Hs Ht]. unfold in_flight in Hf. rewrite Ed, Eq in Hf. rewrite Eq in Hc.
  split; simpl in *; [done|lia|done|done].
Qed.

Lemma finish_ok l b b' : finish b = Some b' → topic b' = topic b ∧ closed b' = closed b ∧ (sub_ok l b → sub_ok l b').
Proof.
  unfold finish. destruct (disp b) eqn:Ed; try done. intros [= <-].
  split_and!; [done|done|]. intros [Hf Hc Hs Ht]. unfold in_flight in Hf. rewrite Ed in Hf.
  split; simpl; [|done..]. by rewrite <-app_assoc.
Qed.

Lemma exit_ok l b b' : exit_ b = Some b' → topic b' = topic b ∧ closed b' = closed b ∧ (sub_ok l b → sub_ok l b').
Proof.
  unfold exit_. destruct (disp b) eqn:Ed; try done. destruct (_ || _); [|done]. intros [= <-].
  split_and!; [done|done|]. intros [Hf Hc Hs Ht]. unfold in_flight in Hf. rewrite Ed in Hf. by split.
Qed.

Lemma publish_ok l e b b' : publish e b (Some b') → Topic e = topic b → sub_ok l b →
  topic b' = topic b ∧ closed b' = closed b ∧ sub_ok (l ++ [e]) b'.
Proof.
  intros Hp Ht [Hf Hc Hs Hty].
  assert (Hacc : accepted b ++ [e] `sublist_of` l ++ [e]) by (by apply sublist_app).
  inversion Hp; subst; (split_and!; [done|done|]); try (by apply sub_ok_offered).
  - split; simpl; [by rewrite <-Hf, !app_assoc|rewrite length_app; simpl; lia|done|].
    apply Forall_app. by rewrite Forall_singleton.
  - assert (queue b = []) as Hq. { destruct (queue b); simpl in *; [done|lia]. }
    unfold in_flight in Hf. destruct (disp b); try done. rewrite Hq in *. simpl in Hf. rewrite app_nil_r in Hf.
    split; simpl; [by rewrite Hf, Hq|by rewrite Hq; lia|done|]. apply Forall_app. by rewrite Forall_singleton.
Qed.

Lemma remove_first_spec i l : NoDup l → NoDup (remove_first i l) ∧ ∀ j, j ∈ remove_first i l ↔ j ∈ l ∧ j ≠ i.
Proof.
  induction 1 as [|k l Hk Hnd [IH1 IH2]]; simpl.
  { split; [constructor|]. intros j. rewrite elem_of_nil. tauto. }
  case_bool_decide as E.
  - subst. split; [done|]. intros j. rewrite elem_of_cons. split; [|naive_solver].
    intros Hj. split; [by right|]. by intros ->.
  - split.
    + constructor; [|done]. rewrite IH2. tauto.
    + intros j. rewrite !elem_of_cons, IH2. naive_solver.
Qed.

Lemma handlers_insert s t l tab snd cls x p t' :
  handlers (State (<[t := l]> (subs s)) tab snd cls x p) t' = if decide (t = t') then l else handlers s t'.
Proof. unfold handlers. simpl. rewrite lookup_insert. by case_decide. Qed.

Lemma invariant_subscribe s t ty n : invariant s →
  invariant (State (<[t := handlers s t ++ [length (table s)]]> (subs s)) (table s ++ [new_sub t ty n])
               (sending s) (closing s) (sent s) (panicked s)).
Proof.
  intros [Hsub Htop Hnd Hsend Hreg Hcls]. set (s' := State _ _ _ _ _ _).
  assert (Hnew : ∀ j c, table s' !! j = Some c →
    table s !! j = Some c ∨ j = length (table s) ∧ c = new_sub t ty n).
  { intros j c Hj. simpl in Hj. apply lookup_app_Some in Hj as [|[Hle Hj]]; [by left|]. right.
    apply list_lookup_singleton_Some in Hj as [? <-]. split; [lia|done]. }
  assert (Hold : ∀ t' j, has_topic s t' j → has_topic s' t' j).
  { intros t' j (c & Hj & Hc). exists c. split; [|done]. simpl. by apply lookup_app_l_Some. }
  assert (Hlt : ∀ t', length (table s) ∉ handlers s t').
  { intros t' Hin. apply Htop in Hin as (c & Hc & _). apply lookup_lt_Some in Hc. lia. }
  assert (Hh : ∀ t', handlers s' t' = if decide (t = t') then handlers s t ++ [length (table s)] else handlers s t').
  { intros t'. apply handlers_insert. }
  split.
  - intros j c Hj. destruct (Hnew j c Hj) as [Hj'|[-> ->]]; [exact (Hsub j c Hj')|].
    split; simpl; [done|lia|apply sublist_nil_l|constructor].
  - intros t' j. rewrite Hh. case_decide as E; [subst|by auto].
    rewrite elem_of_app, list_elem_of_singleton. intros [Hin| ->]; [by auto|]. exists (new_sub t' ty n).
    split; [|done]. simpl. by rewrite list_lookup_middle.
  - intros t'. rewrite Hh. case_decide; [|done]. apply NoDup_app. split_and!; [done| |apply NoDup_singleton].
    intros j Hj Hj'%list_elem_of_singleton. subst. by apply Hlt in Hj.
  - intros e l j Hin Hj. apply Hold. simpl in Hin. eauto.
  - intros j c Hj. rewrite Hh. destruct (Hnew j c Hj) as [Hj'|[-> ->]]; simpl.
    + rewrite <-(Hreg j c Hj'). case_decide as E; [|done]. rewrite elem_of_app, list_elem_of_singleton, E.
      apply lookup_lt_Some in Hj'. split; [intros [?|?]; [done|lia]|tauto].
    + rewrite decide_True by done. rewrite elem_of_app, list_elem_of_singleton. split; [|tauto].
      intros _. split; [done|]. intros [c Hc]%Hcls. apply lookup_lt_Some in Hc. lia.
  - intros j Hj. simpl in *. destruct (Hcls j Hj) as [c Hc]. exists c. by apply lookup_app_l_Some.
Qed.

Lemma invariant_unsubscribe s i b : invariant s → table s !! i = Some b →
  invariant (State (<[topic b := remove_first i (handlers s (topic b))]> (subs s)) (table s)
               (sending s) (closing s ++ [(i, false)]) (sent s) (panicked s)).
Proof.
  intros [Hsub Htop Hnd Hsend Hreg Hcls] Hi. set (s' := State _ _ _ _ _ _).
  destruct (remove_first_spec i (handlers s (topic b)) (Hnd _)) as [Hr1 Hr2].
  assert (Hh : ∀ t, handlers s' t = if decide (topic b = t) then remove_first i (handlers s (topic b)) else handlers s t).
  { intros t. apply handlers_insert. }
  split; try done.
  - intros t j. rewrite Hh. case_decide as E; [|apply Htop]. subst. rewrite Hr2. intros [? _]. by apply Htop.
  - intros t. rewrite Hh. by case_decide.
  - intros j c Hj. simpl in Hj. simpl. rewrite Hh, fmap_app, elem_of_app. simpl. rewrite list_elem_of_singleton.
    specialize (Hreg j c Hj). case_decide as E.
    + rewrite Hr2, E, Hreg. tauto.
    + rewrite Hreg. assert (j ≠ i) by (intros ->; rewrite Hi in Hj; naive_solver). tauto.
  - intros j Hj. simpl in *. rewrite fmap_app, elem_of_app in Hj. simpl in Hj. rewrite list_elem_of_singleton in Hj.
    destruct Hj as [Hj| ->]; [by apply Hcls|by eexists].
Qed.

Lemma filter_id_singleton (i : id) (e : Event) : (filter (λ y : id * Event, y.1 = i) [(i, e)]).*2 = [e].
Proof. by rewrite filter_cons_True. Qed.

Lemma bus_invariant_step s s' : invariant s → step s s' → invariant s'.
Proof.
  intros Hinv Hs. destruct Hs as [s t ty n|s t p|s l1 e i rest l2 b b' Hsnd Hi Hp|s l1 e i rest l2 b Hsnd Hi Hp
    |s i b b' Hi Hb|s i b b' Hi Hb|s i b b' Hi Hb|s i b Hi|s l1 i l2 b Hc Hi|s l1 i l2 b Hc Hi].
  - by apply invariant_subscribe.
  - destruct Hinv as [Hsub Htop Hnd Hsend Hreg Hcls]. split; try done.
    intros e l j. simpl. rewrite elem_of_app, list_elem_of_singleton. intros [|[= -> ->]] Hj; [by eauto|]. by apply Htop.
  - destruct (publish_ok (sent_to s i) e b b' Hp) as (Ht & Hc & Hok).
    { destruct (inv_sending s Hinv e (i :: rest) i) as (c & Hc & Hct); [rewrite Hsnd; set_solver|by left|]. congruence. }
    { by apply inv_sub. }
    eapply invariant_update; [done|done|done| | |done|by rewrite Hc|done].
    + by rewrite filter_id_singleton.
    + intros e' l j. rewrite Hsnd, elem_of_app, elem_of_cons. setoid_rewrite elem_of_app. setoid_rewrite elem_of_cons.
      intros [Hin|[[= -> ->]|Hin]] Hj; [by eauto| |by eauto]. exists (i :: rest). split; [tauto|by right].
  - rewrite <-(list_insert_id (table s) i b Hi).
    eapply invariant_update; [done|done|done| | |done|done|done].
    + apply sub_ok_offered. by apply inv_sub.
    + intros e' l j. rewrite Hsnd, elem_of_app. setoid_rewrite elem_of_app. setoid_rewrite elem_of_cons.
      intros [Hin|Hin] Hj; eauto.
  - eapply invariant_local; [done|exact Hi|by apply (receive_ok [] b)..|intros l; by apply (receive_ok l b)].
  - eapply invariant_local; [done|exact Hi|by apply (finish_ok [] b)..|intros l; by apply (finish_ok l b)].
  - eapply invariant_local; [done|exact Hi|by apply (exit_ok [] b)..|intros l; by apply (exit_ok l b)].
  - by apply invariant_unsubscribe.
  - rewrite <-(app_nil_r (sent s)). eapply invariant_update; [done|exact Hi|done| |by eauto| | |].
    + simpl. rewrite app_nil_r. destruct (inv_sub s Hinv i b Hi). by split.
    + intros j. by rewrite Hc, !fmap_app.
    + by rewrite Hc, !fmap_app.
    + intros j _. by rewrite Hc, !fmap_app.
  - rewrite <-(app_nil_r (sent s)). eapply invariant_update; [done|exact Hi|done| |by eauto| | |].
    + simpl. rewrite app_nil_r. destruct (inv_sub s Hinv i b Hi). by split.
    + intros j. rewrite Hc, !fmap_app, fmap_cons. set_solver.
    + simpl. rewrite Hc, !fmap_app, fmap_cons. set_solver.
    + intros j Hne. rewrite Hc, !fmap_app, fmap_cons. simpl. rewrite !elem_of_app, elem_of_cons. tauto.
Qed.

Lemma invariant_init : invariant NewBus.
Proof.
  split; simpl.
  - intros i b Hi. by rewrite lookup_nil in Hi.
  - intros t i Hin. by apply not_elem_of_nil in Hin.
  - intros t. constructor.
  - intros e l i Hin. by apply not_elem_of_nil in Hin.
  - intros i b Hi. by rewrite lookup_nil in Hi.
  - intros i Hin. by apply not_elem_of_nil in Hin.
Qed.

Lemma bus_reachable s : rtc step NewBus s → invariant s.
Proof. apply (rtc_invariant step invariant); [eauto using bus_invariant_step|apply invariant_init]. Qed.

(** Where a panic can come from. *)
Definition panic_cause (s : state) : Prop :=
  ∃ i b, table s !! i = Some b ∧ (closed b = true ∨ ∃ e, (i, e) ∈ sent s ∧ typ (Payload e) ≠ T b).

Lemma publish_keeps e b b' : publish e b (Some b') → T b' = T b ∧ closed b' = closed b.
Proof. intros Hp. by inversion Hp. Qed.

Lemma local_keeps b b' : receive b = Some b' ∨ finish b = Some b' ∨ exit_ b = Some b' →
  T b' = T b ∧ closed b' = closed b.
Proof. unfold receive, finish, exit_. intros [?|[?|?]]; repeat case_match; by simplify_eq. Qed.

(** Subscriptions keep their type, stay closed, and what was sent stays sent. *)
Lemma step_keeps s s' i b : step s s' → table s !! i = Some b →
  (∃ b', table s' !! i = Some b' ∧ T b' = T b ∧ (closed b = true → closed b' = true)) ∧
  ∀ x, x ∈ sent s → x ∈ sent s'.
Proof.
  assert (Hins : ∀ (l : list sub) j c c', l !! i = Some b → l !! j = Some c → T c' = T c →
    (closed c = true → closed c' = true) →
    ∃ b', <[j := c']> l !! i = Some b' ∧ T b' = T b ∧ (closed b = true → closed b' = true)).
  { intros l j c c' Hi Hj HT Hc. destruct (decide (j = i)) as [->|].
    - exists c'. rewrite list_lookup_insert_eq by (by eapply lookup_lt_Some). rewrite Hi in Hj. by simplify_eq.
    - exists b. by rewrite list_lookup_insert_ne. }
  intros Hs Hi. destruct Hs as [s t ty n| | s l1 e j rest l2 c c' Hsnd Hj Hp|s l1 e j rest l2 c Hsnd Hj Hp
    |s j c c' Hj Hb|s j c c' Hj Hb|s j c c' Hj Hb| |s l1 j l2 c Hc Hj|s l1 j l2 c Hc Hj];
    simpl; (split; [|intros x Hx; try (rewrite elem_of_app; left); done]);
    try (by exists b); try (by eapply Hins).
  - exists b. split; [by apply lookup_app_l_Some|done].
  - apply publish_keeps in Hp as [? ?]. eapply Hins; [done|done|done|congruence].
  - destruct (local_keeps c c') as [? ?]; [tauto|]. eapply Hins; [done|done|done|congruence].
  - destruct (local_keeps c c') as [? ?]; [tauto|]. eapply Hins; [done|done|done|congruence].
  - destruct (local_keeps c c') as [? ?]; [tauto|]. eapply Hins; [done|done|done|congruence].
Qed.

Lemma panic_cause_step s s' : (panicked s = true → panic_cause s) → step s s' → panicked s' = true → panic_cause s'.
Proof.
  intros IH Hs Hp. destruct (panicked s) eqn:E.
  { destruct (IH eq_refl) as (i & b & Hi & Hc). destruct (step_keeps s s' i b Hs Hi) as [(b' & Hi' & HT & Hcl) Hsent].
    exists i, b'. split; [done|]. rewrite HT. naive_solver. }
  destruct Hs as [| | |s l1 e i rest l2 b Hsnd Hi Hpb| | | | | |s l1 i l2 b Hc Hi]; simpl in *; try congruence.
  - exists i, b. split; [done|]. simpl. inversion Hpb; subst; [right|by left].
    exists e. rewrite elem_of_app, list_elem_of_singleton. tauto.
  - exists i, (close_ b). split; [|by left]. simpl. apply list_lookup_insert_eq. by eapply lookup_lt_Some.
Qed.

(** ** Properties *)

(** Delivery.  In every reachable state each subscription's handler has finished
    and is running, and its channel holds, exactly the events the channel accepted, in
    order and each once; they are a subsequence of what publishers offered it, all of
    its own topic and type; and the channel never holds more than its capacity. *)
Theorem delivery s i b : rtc step NewBus s → table s !! i = Some b →
  handled b ++ in_flight b ++ queue b = accepted b ∧ accepted b `sublist_of` sent_to s i ∧
  Forall (λ e, Topic e = topic b ∧ typ (Payload e) = T b) (accepted b) ∧
  (length (queue b) ≤ cap b)%nat.
Proof. intros Hr Hi. by destruct (inv_sub s (bus_reachable s Hr) i b Hi). Qed.

(** Registration.  A subscription is listed under its topic, once and under no
    other, exactly until its unsubscribe function is called. *)
Theorem registration s i b t : rtc step NewBus s → table s !! i = Some b →
  NoDup (handlers s t) ∧
  (i ∈ handlers s t ↔ t = topic b ∧ closed b = false ∧ i ∉ (closing s).*1).
Proof.
  intros Hr Hi. apply bus_reachable in Hr. split; [by apply inv_nodup|].
  rewrite <-(inv_reg s Hr i b Hi). split; [|by intros [-> ?]].
  intros Hin. destruct (inv_topic s Hr t i Hin) as (c & Hc & <-). rewrite Hi in Hc. by simplify_eq.
Qed.

(** A run panics only where an event of another type was published to a
    subscription's topic or a subscription was unsubscribed: as long as types agree and
    nobody unsubscribes, sends never fail. *)
Theorem panic_needs_unsubscribe s : rtc step NewBus s → panicked s = true →
  ∃ i b, table s !! i = Some b ∧ (closed b = true ∨ ∃ e, (i, e) ∈ sent s ∧ typ (Payload e) ≠ T b).
Proof.
  intros Hr. revert s Hr. apply (rtc_ind_r (λ s, panicked s = true → panic_cause s)); [done|].
  intros y z _ Hs IH. by apply (panic_cause_step y z).
Qed.

End Bus.

(** ** Runs *)

(** One subscription on topic [t], one publisher of [tt] and one unsubscribe. *)
Definition demo_event : @Event unit := MkEvent "t" tt.

(** Published and handled. *)
Definition demo_done : @state unit :=
  State {["t" := [0%nat]]} [Sub "t" 1 1 [] false false Idle [demo_event] [demo_event]] [(demo_event, [])] []
    [(0%nat, demo_event)] false.

Lemma demo_done_reachable : rtc (step (λ _, 1%positive)) NewBus demo_done.
Proof.
  eapply rtc_l; [apply (step_subscribe _ NewBus "t" 1 1)|].
  eapply rtc_l; [eapply (step_publish _ _ "t" tt)|].
  eapply rtc_l; [eapply (step_send _ _ [] demo_event 0%nat [] []); [reflexivity|reflexivity|]; by apply publish_buffer; [| |simpl; lia]|].
  eapply rtc_l; [eapply (step_receive _ _ 0%nat); [reflexivity|reflexivity]|].
  eapply rtc_l; [eapply (step_finish _ _ 0%nat); [reflexivity|reflexivity]|].
  apply rtc_refl.
Qed.

Lemma delivery_witness :
  [demo_event] ++ [] ++ [] = [demo_event] ∧ [demo_event] `sublist_of` sent_to demo_done 0%nat ∧
  Forall (λ e, Topic e = "t" ∧ 1%positive = 1%positive) [demo_event] ∧ (0 ≤ 1)%nat.
Proof.
  apply (delivery (λ _ : unit, 1%positive) demo_done 0%nat
    (Sub "t" 1 1 [] false false Idle [demo_event] [demo_event])); [apply demo_done_reachable|reflexivity].
Defined.

Lemma registration_witness : 0%nat ∈ handlers demo_done "t".
Proof.
  apply (registration (λ _ : unit, 1%positive) demo_done 0%nat
    (Sub "t" 1 1 [] false false Idle [demo_event] [demo_event]) "t"); [apply demo_done_reachable|reflexivity|].
  split_and!; [reflexivity|reflexivity|apply not_elem_of_nil].
Defined.

(** The race: the publisher has copied the handlers, the unsubscribe function runs to
    its end, and the send finds the channel closed. *)
Definition demo_race : @state unit :=
  State {["t" := []]} [Sub "t" 1 1 [] true true Idle [] []] [] [] [(0%nat, demo_event)] true.

Lemma publish_unsubscribe_race : rtc (step (λ _, 1%positive)) NewBus demo_race ∧ panicked demo_race = true.
Proof.
  split; [|reflexivity].
  eapply rtc_l; [apply (step_subscribe _ NewBus "t" 1 1)|].
  eapply rtc_l; [eapply (step_publish _ _ "t" tt)|].
  eapply rtc_l; [eapply (step_unsubscribe _ _ 0%nat); reflexivity|].
  eapply rtc_l; [eapply (step_cancel _ _ [] 0%nat []); reflexivity|].
  eapply rtc_l; [eapply (step_close _ _ [] 0%nat []); reflexivity|].
  eapply rtc_l; [eapply (step_send_panic _ _ [] demo_event 0%nat [] []); [reflexivity|reflexivity|by apply publish_closed]|].
  apply rtc_refl.
Qed.

Lemma panic_needs_unsubscribe_witness : ∃ i b, table demo_race !! i = Some b ∧
  (closed b = true ∨ ∃ e, (i, e) ∈ sent demo_race ∧ 1%positive ≠ T b).
Proof.
  apply (panic_needs_unsubscribe (λ _ : unit, 1%positive) demo_race); [apply publish_unsubscribe_race|reflexivity].
Defined.

End PubSub.
