(* ===== verification/Orders.v ===== *)
(** * examples/server: the way of an order, from the request to the worker

    main connects three packages: a request handler publishes the order on the bus
    (pkg/pubsub), the dispatch goroutine of the subscription "orders.placed" calls
    [orderPool.Submit] (pkg/pool) and the pool's workers call [processOrder].  The
    composed system has a step for every atomic action of these goroutines, of the
    requests and of main's shutdown; its bus and its pool are the transition systems
    of PubSub.v and Pool.v, so their invariants hold of it.

    [Publish] passes the request's context on to the handler, and net/http cancels
    that context when the request is over.  A job therefore carries the number of its
    request, and [done] is the set of requests whose context is over. *)

From S2P Require Import Prelude GoLang Pool PubSub Server.
Open Scope Z_scope.

Module Orders.

Notation OrderEvent := Server.OrderEvent.
Notation job := (nat * OrderEvent)%type.

(** One payload type is ever published on the server's bus. *)
Definition typ (j : job) : positive := 1.

Definition topic : string := "orders.placed".

Definition orderPool : outcome Pool.config :=
  Pool.New 4 [Pool.WithQueueSize 256; Pool.WithOnError].
Definition cfg : Pool.config := Pool.Config 4 (Pool.Options 256 true).

(** Where main is: before the signal; in [orderPool.Stop]; in the hooks after it and the
    return of [ListenAndShutdown]; in the deferred [unsub].  [Crashed]: a goroutine
    panicked without recover. *)
Inductive phase := Serving | Stopping | Closing | Leaving | Exited | Crashed.

#[export] Instance phase_eq_dec : EqDecision phase.
Proof. solve_decision. Defined.

(** [refused] are the errors of the handler, which the bus logs. *)
Record state := State {
  bus : @PubSub.state job;
  pool : Pool.state job;
  done : gset nat;
  next : nat;
  refused : list (job * error);
  main : phase
}.

Definition set_bus b (x : state) : state := State b (pool x) (done x) (next x) (refused x) (main x).
Definition set_pool p (x : state) : state := State (bus x) p (done x) (next x) (refused x) (main x).
Definition set_main m (x : state) : state := State (bus x) (pool x) (done x) (next x) (refused x) m.

(** ** Start *)

Definition Subscribe (t : string) (bufSize : Z) (b : @PubSub.state job) : PubSub.state :=
  PubSub.State (<[t := PubSub.handlers b t ++ [length (PubSub.table b)]]> (PubSub.subs b))
    (PubSub.table b ++ [PubSub.new_sub t 1 bufSize]) (PubSub.sending b) (PubSub.closing b) (PubSub.sent b)
    (PubSub.panicked b).

Definition boot : outcome state :=
  match orderPool with
  | Panic m => Panic m
  | Ret c =>
    Ret (State (Subscribe topic 64 PubSub.NewBus)
           (Pool.State Pool.init [] (replicate (Z.to_nat (Pool.workers c)) Pool.WRecv) []) ∅ 0 [] Serving)
  end.

(** ** Steps *)

Definition set_sub (i : nat) (c : PubSub.sub) (b : @PubSub.state job) : PubSub.state :=
  PubSub.set_table b (<[i := c]> (PubSub.table b)).

(** The workers return what [processOrder] returns. *)
Definition fn_ok (w : Pool.wstate job) : Prop :=
  match w with
  | Pool.WRet j e | Pool.WDec j e | Pool.WComp j e => e = Server.processOrder j.2
  | Pool.WErr _ _ => False
  | _ => True
  end.

Definition ctx_error (e : error) : Prop := e = context_Canceled ∨ e = context_DeadlineExceeded.

(** How the dispatcher's call [Submit(ctx, j)] returns: at the test of [stopped], from
    the select by its context, or after the send. *)
Inductive Submit_returns (x : state) (j : job) : option error → Pool.state job → Prop :=
| returns_stopped :
    Pool.subs (pool x) = [] → Pool.stopped (Pool.sh (pool x)) = true →
    Submit_returns x j (Some Pool.ErrPoolStopped) (pool x)
| returns_ctx e p' :
    j.1 ∈ done x → ctx_error e → Pool.subs (pool x) ≠ [] → Pool.subs p' = [] →
    Pool.step cfg (pool x) (Pool.Returns j (Some e)) p' → Submit_returns x j (Some e) p'
| returns_ok p' :
    Pool.step cfg (pool x) (Pool.Returns j None) p' → Submit_returns x j None p'.

(** The goroutines of the bus and the pool. *)
Inductive internal : state → state → Prop :=
| i_send x l1 e i rest l2 c c' :
    PubSub.sending (bus x) = l1 ++ (e, i :: rest) :: l2 → PubSub.table (bus x) !! i = Some c →
    PubSub.publish typ e c (Some c') →
    internal x (set_bus (PubSub.State (PubSub.subs (bus x)) (<[i := c']> (PubSub.table (bus x)))
      (l1 ++ (e, rest) :: l2) (PubSub.closing (bus x)) (PubSub.sent (bus x) ++ [(i, e)]) (PubSub.panicked (bus x))) x)
| i_send_panic x l1 e i rest l2 c :
    PubSub.sending (bus x) = l1 ++ (e, i :: rest) :: l2 → PubSub.table (bus x) !! i = Some c →
    PubSub.publish typ e c None →
    internal x (set_bus (PubSub.State (PubSub.subs (bus x)) (PubSub.table (bus x)) (l1 ++ l2)
      (PubSub.closing (bus x)) (PubSub.sent (bus x) ++ [(i, e)]) true) x)
| i_receive x c c' :
    PubSub.table (bus x) !! 0%nat = Some c → PubSub.receive c = Some c' →
    internal x (set_bus (set_sub 0 c' (bus x)) x)
| i_exit x c c' :
    PubSub.table (bus x) !! 0%nat = Some c → PubSub.exit_ c = Some c' →
    internal x (set_bus (set_sub 0 c' (bus x)) x)
(** the handler calls [Submit] and passes its first test *)
| i_submit x c e p' :
    PubSub.table (bus x) !! 0%nat = Some c → PubSub.disp c = PubSub.Running e →
    Pool.subs (pool x) = [] → Pool.subs p' = [Pool.SSelect true (PubSub.Payload e)] →
    Pool.step cfg (pool x) Pool.Tau p' →
    internal x (set_pool p' x)
(** [Submit] returns, and with it the handler *)
| i_return x c c' e r p' :
    PubSub.table (bus x) !! 0%nat = Some c → PubSub.disp c = PubSub.Running e → PubSub.finish c = Some c' →
    Submit_returns x (PubSub.Payload e) r p' →
    internal x (State (set_sub 0 c' (bus x)) p' (done x) (next x)
      (refused x ++ match r with Some err => [(PubSub.Payload e, err)] | None => [] end) (main x))
(** the workers, the send of [Submit], and the steps of [Stop] after its first *)
| i_pool x p' :
    Pool.step cfg (pool x) Pool.Tau p' → length (Pool.subs p') = length (Pool.subs (pool x)) →
    length (Pool.stops p') = length (Pool.stops (pool x)) → Forall fn_ok (Pool.ws p') →
    internal x (set_pool p' x)
(** the dispatch goroutine sends on the closed channel: nothing recovers *)
| i_crash x p' :
    Pool.step cfg (pool x) Pool.Tau p' → Pool.panicked (Pool.sh (pool x)) = false →
    Pool.panicked (Pool.sh p') = true → Pool.stops p' = Pool.stops (pool x) →
    internal x (State (bus x) p' (done x) (next x) (refused x) Crashed).

(** The requests and main. *)
Inductive external : state → state → Prop :=
(** POST /orders or PlaceOrder calls [Publish] *)
| e_publish x ev :
    external x (State (PubSub.State (PubSub.subs (bus x)) (PubSub.table (bus x))
        (PubSub.sending (bus x) ++ [(PubSub.MkEvent topic (next x, ev), PubSub.handlers (bus x) topic)])
        (PubSub.closing (bus x)) (PubSub.sent (bus x)) (PubSub.panicked (bus x)))
      (pool x) (done x) (S (next x)) (refused x) (main x))
(** a request's context is over: answered, timed out or disconnected *)
| e_context x r :
    (r < next x)%nat → external x (State (bus x) (pool x) ({[r]} ∪ done x) (next x) (refused x) (main x))
| e_signal x p' :
    main x = Serving → Pool.step cfg (pool x) Pool.Tau p' → Pool.stops p' = Pool.PStored :: Pool.stops (pool x) →
    external x (set_main Stopping (set_pool p' x))
| e_stopped x :
    main x = Stopping → Pool.PReturned ∈ Pool.stops (pool x) → external x (set_main Closing x)
(** [ListenAndShutdown] returned an error: [os.Exit(1)] *)
| e_exit x : main x = Closing → external x (set_main Exited x)
(** the deferred [unsub] *)
| e_unsub x c :
    main x = Closing → PubSub.table (bus x) !! 0%nat = Some c →
    external x (set_main Leaving (set_bus (PubSub.State
      (<[PubSub.topic c := PubSub.remove_first 0 (PubSub.handlers (bus x) (PubSub.topic c))]> (PubSub.subs (bus x)))
      (PubSub.table (bus x)) (PubSub.sending (bus x)) (PubSub.closing (bus x) ++ [(0%nat, false)])
      (PubSub.sent (bus x)) (PubSub.panicked (bus x))) x))
| e_cancel x l1 l2 c :
    main x = Leaving → PubSub.closing (bus x) = l1 ++ (0%nat, false) :: l2 → PubSub.table (bus x) !! 0%nat = Some c →
    external x (set_bus (PubSub.State (PubSub.subs (bus x)) (<[0%nat := PubSub.cancel c]> (PubSub.table (bus x)))
      (PubSub.sending (bus x)) (l1 ++ (0%nat, true) :: l2) (PubSub.sent (bus x)) (PubSub.panicked (bus x))) x)
| e_close x l1 l2 c :
    main x = Leaving → PubSub.closing (bus x) = l1 ++ (0%nat, true) :: l2 → PubSub.table (bus x) !! 0%nat = Some c →
    external x (set_main Exited (set_bus (PubSub.State (PubSub.subs (bus x)) (<[0%nat := PubSub.close_ c]> (PubSub.table (bus x)))
      (PubSub.sending (bus x)) (l1 ++ l2) (PubSub.sent (bus x)) (PubSub.panicked (bus x) || PubSub.closed c)) x)).

Definition alive (x : state) : Prop := main x ≠ Exited ∧ main x ≠ Crashed.

Inductive step (x y : state) : Prop :=
| step_internal : alive x → internal x y → step x y
| step_external : alive x → external x y → step x y.

Definition reachable (x : state) : Prop := ∃ x0, boot = Ret x0 ∧ rtc step x0 x.

(** ** The components' runs *)

Lemma orderPool_cfg : orderPool = Ret cfg.
Proof. reflexivity. Qed.

Definition bus0 : @PubSub.state job := Subscribe topic 64 PubSub.NewBus.
Definition pool0 : Pool.state job := Pool.State Pool.init [] (replicate 4 Pool.WRecv) [].
Definition start : state := State bus0 pool0 ∅ 0 [] Serving.

Lemma boot_start : boot = Ret start.
Proof. reflexivity. Qed.

Definition bus_step (x y : state) : Prop := bus y = bus x ∨ PubSub.step typ (bus x) (bus y).
Definition pool_step (x y : state) : Prop := pool y = pool x ∨ Pool.any_step cfg (pool x) (pool y).

Lemma internal_parts x y : internal x y → bus_step x y ∧ pool_step x y.
Proof.
  unfold bus_step, pool_step. intros Hs.
  destruct Hs as [x l1 e i rest l2 c c' Hl Hi Hp|x l1 e i rest l2 c Hl Hi Hp|x c c' Hi Hc|x c c' Hi Hc|x c e p' Hi Hd Hs Hs' Hp
    |x c c' e r p' Hi Hd Hc Hr|x p' Hp|x p' Hp]; simpl; (split; [|]); try (by left); right.
  - by eapply PubSub.step_send.
  - by eapply PubSub.step_send_panic.
  - by eapply PubSub.step_receive.
  - by eapply PubSub.step_exit.
  - by eexists.
  - by eapply PubSub.step_finish.
  - destruct Hr as [? ?| |]; [|by eexists..]. exists (Pool.Returns (PubSub.Payload e) (Some Pool.ErrPoolStopped)).
    destruct (pool x). by apply Pool.submit_rejected.
  - by eexists.
  - by eexists.
Qed.

Lemma external_parts x y : external x y → bus_step x y ∧ pool_step x y.
Proof.
  unfold bus_step, pool_step. intros Hs.
  destruct Hs; simpl; (split; [|]); try (by left); right.
  - apply PubSub.step_publish.
  - by eexists.
  - by apply PubSub.step_unsubscribe.
  - by eapply PubSub.step_cancel.
  - by eapply PubSub.step_close.
Qed.

Lemma step_parts x y : step x y → bus_step x y ∧ pool_step x y.
Proof. intros [_ Hs|_ Hs]; [by apply internal_parts|by apply external_parts]. Qed.

Lemma run_parts x : rtc step start x → rtc (PubSub.step typ) PubSub.NewBus (bus x) ∧ Pool.reachable cfg (pool x).
Proof.
  revert x. apply rtc_ind_r.
  - split.
    + eapply rtc_l; [apply (PubSub.step_subscribe typ PubSub.NewBus topic 1 64)|apply rtc_refl].
    + eapply rtc_l; [eexists; apply (Pool.start_workers cfg)|apply rtc_refl].
  - intros y z _ Hs [IHb IHp]. apply step_parts in Hs as [Hb Hp]. split.
    + destruct Hb as [->|Hb]; [done|]. by eapply rtc_r.
    + destruct Hp as [->|Hp]; [done|]. by eapply rtc_r.
Qed.

(** ** The link between the handler and its call of [Submit] *)

(** The job at the handler that the pool has not taken yet. *)
Definition waiting (x : state) (c : PubSub.sub) : list job :=
  match PubSub.disp c, Pool.subs (pool x) with
  | PubSub.Running e, [Pool.SSent _] => []
  | PubSub.Running e, _ => [PubSub.Payload e]
  | _, _ => []
  end.

(** Offers still to be made by calls of [Publish]. *)
Definition offers (b : @PubSub.state job) : list nat :=
  '(e, ids) ← PubSub.sending b; (λ _ : nat, (PubSub.Payload e).1) <$> ids.

Definition cause (x : state) (r : job * error) : Prop :=
  r.2 = Pool.ErrPoolStopped ∧ Pool.stopped (Pool.sh (pool x)) = true ∨ ctx_error r.2 ∧ r.1.1 ∈ done x.

Definition calls (p : Pool.state job) (w : PubSub.worker) : Prop :=
  match w with
  | PubSub.Running e => Pool.subs p ∈ [[]; [Pool.SSelect true (PubSub.Payload e)]; [Pool.SSent (PubSub.Payload e)]]
  | _ => Pool.subs p = []
  end.

Record link (x : state) (c : PubSub.sub) : Prop := {
  l_table : PubSub.table (bus x) = [c];
  l_sub : PubSub.cap c = 64%nat ∧ PubSub.T c = 1%positive ∧ PubSub.topic c = topic;
  l_calls : calls (pool x) (PubSub.disp c);
  l_flow : PubSub.Payload <$> PubSub.handled c ++ PubSub.in_flight c ≡ₚ
    Pool.sent (Pool.sh (pool x)) ++ (refused x).*1 ++ waiting x c;
  l_refused : Forall (cause x) (refused x);
  l_fn : Forall fn_ok (Pool.ws (pool x)) ∧ Forall (λ r, r.2 = None) (Pool.finished (Pool.sh (pool x)));
  l_ws : length (Pool.ws (pool x)) = 4%nat;
  l_nodup : NoDup ((PubSub.Payload <$> PubSub.accepted c).*1 ++ offers (bus x));
  l_next : Forall (λ i, (i < next x)%nat) ((PubSub.Payload <$> PubSub.accepted c).*1 ++ offers (bus x));
  l_serving : main x = Serving → Pool.stopped (Pool.sh (pool x)) = false ∧ Pool.stops (pool x) = [] ∧
    PubSub.closed c = false ∧ PubSub.cancelled c = false ∧ PubSub.disp c ≠ PubSub.Exited
}.

(** ** The link is kept *)

(** What a step of the workers, of a send or of [Stop] does to the pool. *)
Record pool_kept (p p' : Pool.state job) : Prop := {
  k_ws : length (Pool.ws p') = length (Pool.ws p);
  k_finished : Forall (λ r, r.2 = None) (Pool.finished (Pool.sh p'));
  k_stopped : Pool.stopped (Pool.sh p') = Pool.stopped (Pool.sh p);
  k_stops : Pool.stops p = [] → Pool.stops p' = [];
  k_sent : Pool.subs p' = Pool.subs p ∧ Pool.sent (Pool.sh p') = Pool.sent (Pool.sh p) ∨
    ∃ b1 b2 k j, Pool.subs p = b1 ++ Pool.SSelect k j :: b2 ∧ Pool.subs p' = b1 ++ Pool.SSent j :: b2 ∧
      Pool.sent (Pool.sh p') = Pool.sent (Pool.sh p) ++ [j]
}.

Lemma pool_tau p p' :
  Pool.step cfg p Pool.Tau p' → length (Pool.subs p') = length (Pool.subs p) →
  length (Pool.stops p') = length (Pool.stops p) → Pool.ws p ≠ [] → Forall fn_ok (Pool.ws p) →
  Forall (λ r, r.2 = None) (Pool.finished (Pool.sh p)) → pool_kept p p'.
Proof.
  intros Hs Hb Ht Hw Hf Hr.
  inversion Hs; subst; simpl in *; try done; try lia;
    try (exfalso; rewrite ?length_app in *; simpl in *; lia);
    (split; simpl; [by rewrite ?length_app|try done|done|try done; by intros ?%Pool.middle_nonempty|try (by left)]).
  - right. by eexists _, _, _, _.
  - right. by eexists _, _, _, _.
  - apply Forall_app. split; [done|]. apply Forall_singleton. apply Forall_app in Hf as [_ Hf].
    by apply Forall_cons in Hf as [-> _].
Qed.

(** Results of the call of [Submit]. *)
Lemma submit_returned x j r p' :
  Submit_returns x j r p' → Pool.subs (pool x) ∈ [[]; [Pool.SSelect true j]; [Pool.SSent j]] →
  Pool.subs p' = [] ∧ Pool.ws p' = Pool.ws (pool x) ∧ Pool.stops p' = Pool.stops (pool x) ∧
  Pool.sent (Pool.sh p') = Pool.sent (Pool.sh (pool x)) ∧ Pool.finished (Pool.sh p') = Pool.finished (Pool.sh (pool x)) ∧
  Pool.stopped (Pool.sh p') = Pool.stopped (Pool.sh (pool x)) ∧
  match r with
  | None => Pool.subs (pool x) = [Pool.SSent j]
  | Some e => Pool.subs (pool x) ≠ [Pool.SSent j] ∧
      (e = Pool.ErrPoolStopped ∧ Pool.stopped (Pool.sh (pool x)) = true ∨ ctx_error e ∧ j.1 ∈ done x)
  end.
Proof.
  intros Hr Hsub. destruct Hr as [He Hs|e p' Hd Hc Hn Hs' Hs|p' Hs].
  - rewrite He in *. split_and!; try done. by left.
  - remember (pool x) as q eqn:Eq. clear Eq.
    inversion Hs as [| | | | |s b1 b2 w p j' Hcl Hq|s b1 b2 w p j' e'| | | | | | | | | | | | | | |]; subst; simpl in *; try done;
      apply app_eq_nil in Hs' as [-> ->]; simpl in *; [set_solver|].
    split_and!; try done. by right.
  - remember (pool x) as q eqn:Eq. clear Eq.
    inversion Hs as [| | | | | | | |s b1 b2 w p j'| | | | | | | | | | | | |]; subst. simpl in *.
    assert (b1 = [] ∧ b2 = []) as [-> ->] by (destruct b1 as [|? []], b2; set_solver).
    done.
Qed.

Lemma cause_mono x y r :
  (Pool.stopped (Pool.sh (pool x)) = true → Pool.stopped (Pool.sh (pool y)) = true) → done x ⊆ done y →
  cause x r → cause y r.
Proof. intros Hs Hd [[? ?]|[? ?]]; [left|right]; split; auto; set_solver. Qed.

(** A step that leaves the dispatcher where it is. *)
Lemma link_bus x c c' b d n m :
  link x c → PubSub.table b = [c'] →
  (PubSub.cap c', PubSub.T c', PubSub.topic c') = (PubSub.cap c, PubSub.T c, PubSub.topic c) →
  PubSub.disp c' = PubSub.disp c → PubSub.handled c' = PubSub.handled c →
  (m = Serving → main x = Serving ∧ PubSub.closed c' = PubSub.closed c ∧ PubSub.cancelled c' = PubSub.cancelled c) →
  done x ⊆ d → NoDup ((PubSub.Payload <$> PubSub.accepted c').*1 ++ offers b) →
  Forall (λ i, (i < n)%nat) ((PubSub.Payload <$> PubSub.accepted c').*1 ++ offers b) →
  link (State b (pool x) d n (refused x) m) c'.
Proof.
  intros [Ht Hs Hc Hf Hr Hfn Hw _ _ Hsv] Hb Heq Hdi Hh Hm Hd Hnd Hlt. injection Heq as E1 E2 E3.
  split; simpl; try done.
  - by rewrite E1, E2, E3.
  - by rewrite Hdi.
  - unfold waiting, PubSub.in_flight in *. by rewrite Hdi, Hh.
  - eapply Forall_impl; [exact Hr|]. intros r. by apply cause_mono.
  - intros Em. destruct (Hm Em) as (Em' & -> & ->). rewrite Hdi. by apply Hsv.
Qed.

(** A step of the dispatcher that does not touch the channel's history. *)
Lemma link_dispatch x c c' p r :
  link x c →
  (PubSub.cap c', PubSub.T c', PubSub.topic c', PubSub.accepted c', PubSub.closed c', PubSub.cancelled c') =
  (PubSub.cap c, PubSub.T c, PubSub.topic c, PubSub.accepted c, PubSub.closed c, PubSub.cancelled c) →
  let y := State (set_sub 0 c' (bus x)) p (done x) (next x) (refused x ++ r) (main x) in
  calls p (PubSub.disp c') →
  (PubSub.Payload <$> PubSub.handled c' ++ PubSub.in_flight c' ≡ₚ
    Pool.sent (Pool.sh p) ++ (refused x ++ r).*1 ++ waiting y c') →
  Forall (cause x) r → Pool.ws p = Pool.ws (pool x) → Pool.stops p = Pool.stops (pool x) →
  Pool.finished (Pool.sh p) = Pool.finished (Pool.sh (pool x)) →
  Pool.stopped (Pool.sh p) = Pool.stopped (Pool.sh (pool x)) →
  (main x = Serving → PubSub.disp c' ≠ PubSub.Exited) → link y c'.
Proof.
  intros [Ht Hs Hc Hf Hr Hfn Hw Hnd Hlt Hsv] Heq y Hcl Hfl Hr' Ew Est Ef Eo Hx. injection Heq as E1 E2 E3 E4 E5 E6.
  split; simpl; rewrite ?E1, ?E2, ?E3, ?E4, ?E5, ?E6, ?Ew, ?Est, ?Ef, ?Eo; try done.
  - by rewrite Ht.
  - apply Forall_app. split; (eapply Forall_impl; [done|]); intros z; apply cause_mono; simpl; by rewrite ?Eo.
  - intros Em. destruct (Hsv Em) as (? & ? & ? & ? & ?). split_and!; auto.
Qed.

Lemma calls_sub p e : calls p (PubSub.Running e) →
  Pool.subs p = [] ∨ Pool.subs p = [Pool.SSelect true (PubSub.Payload e)] ∨ Pool.subs p = [Pool.SSent (PubSub.Payload e)].
Proof. unfold calls. rewrite !elem_of_cons, elem_of_nil. tauto. Qed.

Lemma link_receive x c c' : link x c → PubSub.receive c = Some c' → link (set_bus (set_sub 0 c' (bus x)) x) c'.
Proof.
  intros Hl Hc. pose proof Hl as [Ht Hs Hcl Hf Hr Hfn Hw Hnd Hlt Hsv].
  unfold PubSub.receive in Hc. destruct (PubSub.disp c) eqn:Ed; try done. destruct (PubSub.queue c) as [|e q] eqn:Eq; try done.
  injection Hc as <-. unfold set_bus. rewrite <-(app_nil_r (refused x)).
  apply (link_dispatch x c); try done; simpl.
  - unfold calls in Hcl. rewrite Hcl. left.
  - unfold waiting, PubSub.in_flight in *. rewrite Ed in Hf. simpl in *. rewrite Hcl.
    rewrite !app_nil_r in *. by rewrite fmap_app, Hf, <-app_assoc.
Qed.

Lemma link_exit x c c' : link x c → PubSub.exit_ c = Some c' → link (set_bus (set_sub 0 c' (bus x)) x) c'.
Proof.
  intros Hl Hc. pose proof Hl as [Ht Hs Hcl Hf Hr Hfn Hw Hnd Hlt Hsv].
  unfold PubSub.exit_ in Hc. destruct (PubSub.disp c) eqn:Ed; try done.
  destruct (PubSub.cancelled c || _) eqn:Eb; [|done].
  injection Hc as <-. unfold set_bus. rewrite <-(app_nil_r (refused x)).
  apply (link_dispatch x c); try done; simpl.
  - unfold waiting, PubSub.in_flight in *. rewrite Ed in Hf. simpl in *. by rewrite !app_nil_r in *.
  - intros Em. destruct (Hsv Em) as (_ & _ & E1 & E2 & _). by rewrite E1, E2 in Eb.
Qed.

Lemma link_return x c c' e r p' : link x c → PubSub.disp c = PubSub.Running e → PubSub.finish c = Some c' →
  Submit_returns x (PubSub.Payload e) r p' →
  link (State (set_sub 0 c' (bus x)) p' (done x) (next x)
      (refused x ++ match r with Some err => [(PubSub.Payload e, err)] | None => [] end) (main x)) c'.
Proof.
  intros Hl Ed Hc Hret. pose proof Hl as [Ht Hs Hcl Hf Hr Hfn Hw Hnd Hlt Hsv]. rewrite Ed in Hcl.
  destruct (submit_returned x _ r p' Hret Hcl) as (Hsub & Ew & Est & Ese & Ef & Eo & Hres).
  unfold PubSub.finish in Hc. rewrite Ed in Hc. injection Hc as <-.
  apply (link_dispatch x c); try done; simpl.
  - unfold waiting, PubSub.in_flight in *. simpl. rewrite Ed in Hf. rewrite app_nil_r, Hf, Ese.
    destruct r as [err|]; simpl.
    + rewrite fmap_app. simpl. rewrite app_nil_r.
      destruct (calls_sub _ _ Hcl) as [Hq|[Hq|Hq]]; rewrite Hq in *; naive_solver.
    + by rewrite Hres, !app_nil_r.
  - destruct r as [err|]; constructor; [|done]. apply Hres.
Qed.

(** A step of the pool alone. *)
Lemma link_pool x c p' m :
  link x c → pool_kept (pool x) p' → Forall fn_ok (Pool.ws p') → (m = Serving → main x = Serving) →
  link (State (bus x) p' (done x) (next x) (refused x) m) c.
Proof.
  intros [Ht Hs Hcl Hf Hr Hfn Hw Hnd Hlt Hsv] [Kw Kf Ko Kt Ks] Hok Hm.
  assert (Hcalls : calls p' (PubSub.disp c) ∧ PubSub.Payload <$> PubSub.handled c ++ PubSub.in_flight c ≡ₚ
    Pool.sent (Pool.sh p') ++ (refused x).*1 ++ waiting (set_pool p' x) c).
  { destruct Ks as [[Es Et]|(b1 & b2 & k & j & Es & Es' & Et)].
    { unfold calls, waiting in *. simpl. by rewrite Es, Et. }
    unfold waiting in *. simpl. destruct (PubSub.disp c) as [|e|] eqn:Ed; simpl in Hcl; try (rewrite Es in Hcl; by destruct b1).
    destruct (calls_sub _ _ Hcl) as [Hq|[Hq|Hq]]; rewrite Hq in *; [by destruct b1| |destruct b1 as [|? []]; simplify_eq/=].
    assert (b1 = [] ∧ b2 = [] ∧ j = PubSub.Payload e) as (-> & -> & ->) by (destruct b1 as [|? []]; by simplify_eq/=).
    rewrite Es'. simpl. split; [unfold calls; rewrite Es'; right; right; left|]. rewrite Hf, Et, app_nil_r, (Permutation_app_comm (refused x).*1), app_assoc. done. }
  destruct Hcalls as [Hc1 Hc2]. split; simpl; try done.
  - eapply Forall_impl; [exact Hr|]. intros r. apply cause_mono; [by rewrite <-Ko|done].
  - lia.
  - intros Em. destruct (Hsv (Hm Em)) as (? & ? & ? & ? & ?). rewrite Ko. split_and!; auto.
Qed.

Lemma link_submit x c e p' :
  link x c → PubSub.disp c = PubSub.Running e → Pool.subs (pool x) = [] →
  Pool.subs p' = [Pool.SSelect true (PubSub.Payload e)] → Pool.step cfg (pool x) Pool.Tau p' →
  link (set_pool p' x) c.
Proof.
  intros [Ht Hs Hcl Hf Hr Hfn Hw Hnd Hlt Hsv] Ed Es Es' Hst.
  assert (E : Pool.sh p' = Pool.sh (pool x) ∧ Pool.ws p' = Pool.ws (pool x) ∧ Pool.stops p' = Pool.stops (pool x)).
  { destruct (pool x) as [s b w p]. simpl in *. subst b. inversion Hst; subst; simpl in *; try done; by destruct b1. }
  destruct E as (Esh & Ew & Est). unfold set_pool. split; simpl; rewrite ?Esh, ?Ew, ?Est; try done.
  - rewrite Ed. unfold calls. rewrite Es'. right. left.
  - rewrite Hf. unfold waiting. simpl. by rewrite Ed, Es, Es'.
  - eapply Forall_impl; [exact Hr|]. intros r. apply cause_mono; simpl; by rewrite ?Esh.
Qed.

Lemma link_crash x c p' :
  link x c → Pool.step cfg (pool x) Pool.Tau p' → Pool.panicked (Pool.sh (pool x)) = false →
  Pool.panicked (Pool.sh p') = true → Pool.stops p' = Pool.stops (pool x) →
  link (State (bus x) p' (done x) (next x) (refused x) Crashed) c.
Proof.
  intros [Ht Hs Hcl Hf Hr Hfn Hw Hnd Hlt Hsv] Hst E1 E2 E3.
  assert (E : (∃ k j b1 b2, Pool.subs (pool x) = b1 ++ Pool.SSelect k j :: b2 ∧ Pool.subs p' = b1 ++ b2) ∧
    Pool.ws p' = Pool.ws (pool x) ∧ Pool.sh p' = Pool.set_panicked (Pool.sh (pool x))).
  { destruct (pool x) as [s b w p], p' as [s' b' w' q]. simpl in *. clear Hsv Hcl. inversion Hst; subst; simpl in *; try congruence.
    - by split_and!; [eexists _, _, _, _| |].
    - match goal with H : _ ++ _ = _ |- _ => apply (f_equal length) in H; rewrite !length_app in H; simpl in H; lia end. }
  destruct E as ((k & j & b1 & b2 & Es & Es') & Ew & Esh).
  destruct (PubSub.disp c) as [|e|] eqn:Ed; simpl in Hcl; try (rewrite Es in Hcl; by destruct b1).
  assert (Hs' : Pool.subs (pool x) = [Pool.SSelect true (PubSub.Payload e)] ∧ b1 = [] ∧ b2 = []).
  { destruct (calls_sub _ _ Hcl) as [Hq|[Hq|Hq]]; rewrite Hq in *; destruct b1 as [|? []]; by simplify_eq/=. }
  destruct Hs' as (Hq & -> & ->). simpl in Es'.
  split; simpl; rewrite ?Ew, ?Esh; try done.
  - rewrite Ed. unfold calls. rewrite Es'. left.
  - rewrite Hf. unfold waiting. simpl. by rewrite Ed, Hq, Es'.
  - eapply Forall_impl; [exact Hr|]. intros r. apply cause_mono; simpl; by rewrite ?Esh.
Qed.

Lemma offers_send (b b' : @PubSub.state job) l1 e i rest l2 :
  PubSub.sending b = l1 ++ (e, i :: rest) :: l2 → PubSub.sending b' = l1 ++ (e, rest) :: l2 →
  offers b ≡ₚ (PubSub.Payload e).1 :: offers b'.
Proof. unfold offers. intros -> ->. rewrite !bind_app, !bind_cons. simpl. by rewrite <-Permutation_middle. Qed.

Lemma link_send x c e rest l1 l2 c' b' :
  link x c → PubSub.sending (bus x) = l1 ++ (e, 0%nat :: rest) :: l2 → PubSub.publish typ e c (Some c') →
  PubSub.table b' = [c'] → PubSub.sending b' = l1 ++ (e, rest) :: l2 →
  link (set_bus b' x) c'.
Proof.
  intros Hl Hsnd Hp Ht' Hsnd'. pose proof Hl as [Ht [Hcap Hs] Hcl Hf Hr Hfn Hw Hnd Hlt Hsv].
  pose proof (offers_send _ b' _ _ _ _ _ Hsnd Hsnd') as Ho.
  rewrite Ho in Hnd, Hlt.
  assert (Hc' : c' = c ∨ c' = PubSub.enqueue e c).
  { inversion Hp; subst; auto; lia. }
  unfold set_bus. destruct Hc' as [->| ->]; apply (link_bus x c); try done; auto; simpl.
  - rewrite <-Permutation_middle in Hnd. by apply NoDup_cons in Hnd as [_ ?].
  - rewrite <-Permutation_middle in Hlt. by apply Forall_cons in Hlt as [_ ?].
  - by rewrite !fmap_app, <-app_assoc.
  - by rewrite !fmap_app, <-app_assoc.
Qed.

(** The only subscription is number 0. *)
Lemma only_sub x c i t : link x c → PubSub.has_topic (bus x) t i → i = 0%nat.
Proof. intros Hl (d & Hd & _). rewrite (l_table _ _ Hl) in Hd. by apply list_lookup_singleton_Some in Hd as [-> _]. Qed.

Lemma handlers_at_most_one x c : PubSub.invariant typ (bus x) → link x c →
  PubSub.handlers (bus x) topic = [] ∨ PubSub.handlers (bus x) topic = [0%nat].
Proof.
  intros Hi Hl. pose proof (PubSub.inv_nodup _ _ Hi topic) as Hnd.
  assert (H0 : Forall (λ i, i = 0%nat) (PubSub.handlers (bus x) topic)).
  { apply Forall_forall. intros i Hin. eapply only_sub; [done|]. by apply (PubSub.inv_topic _ _ Hi). }
  destruct (PubSub.handlers _ _) as [|a [|b l]]; [by left|right|]; decompose_Forall_hyps; [done|].
  exfalso. apply NoDup_cons in Hnd as [Hn _]. apply Hn. left.
Qed.

Lemma link_publish x c ev : PubSub.invariant typ (bus x) → link x c →
  link (State (PubSub.State (PubSub.subs (bus x)) (PubSub.table (bus x))
        (PubSub.sending (bus x) ++ [(PubSub.MkEvent topic (next x, ev), PubSub.handlers (bus x) topic)])
        (PubSub.closing (bus x)) (PubSub.sent (bus x)) (PubSub.panicked (bus x)))
      (pool x) (done x) (S (next x)) (refused x) (main x)) c.
Proof.
  intros Hi Hl. pose proof Hl as [Ht Hs Hcl Hf Hr Hfn Hw Hnd Hlt Hsv]. set (b' := PubSub.State _ _ _ _ _ _).
  assert (Ho : offers b' = offers (bus x) ∨ offers b' = offers (bus x) ++ [next x]).
  { unfold offers. simpl. rewrite bind_app, bind_cons. simpl. rewrite app_nil_r.
    destruct (handlers_at_most_one x c Hi Hl) as [->| ->]; simpl; [left; apply app_nil_r|by right]. }
  assert (Hlt' : Forall (λ i, (i < S (next x))%nat) ((PubSub.Payload <$> PubSub.accepted c).*1 ++ offers (bus x))).
  { eapply Forall_impl; [exact Hlt|]. simpl. lia. }
  apply (link_bus x c); try done.
  - destruct Ho as [->| ->]; [done|]. rewrite app_assoc. apply NoDup_app. split_and!; [done| |apply NoDup_singleton].
    intros i Hin ->%list_elem_of_singleton. rewrite Forall_forall in Hlt. apply Hlt in Hin. lia.
  - destruct Ho as [->| ->]; [done|]. rewrite app_assoc. apply Forall_app. split; [done|]. apply Forall_singleton. lia.
Qed.

Lemma link_internal x y c : PubSub.invariant typ (bus x) → link x c → internal x y → ∃ c', link y c'.
Proof.
  intros Hi Hl Hs. pose proof (l_table x c Hl) as Ht.
  destruct Hs as [x l1 e i rest l2 d d' Hsn Hd Hp|x l1 e i rest l2 d Hsn Hd Hp|x d d' Hd Hr|x d d' Hd Hr|x d e p' Hd Hdi Hs Hs' Hp
    |x d d' e r p' Hd Hdi Hr Hret|x p' Hp Hb Ht' Hok|x p' Hp E1 E2 E3];
    try (rewrite Ht in Hd; apply list_lookup_singleton_Some in Hd as [Hi0 <-]; try subst i).
  - exists d'. eapply link_send; [done|exact Hsn|done| |done]. simpl. by rewrite Ht.
  - exists c. unfold set_bus.
    assert (Ho : offers (bus x) ≡ₚ ((λ _ : nat, (PubSub.Payload e).1) <$> 0%nat :: rest) ++ (offers
      (PubSub.State (PubSub.subs (bus x)) (PubSub.table (bus x)) (l1 ++ l2)
        (PubSub.closing (bus x)) (PubSub.sent (bus x) ++ [(0%nat, e)]) true))).
    { unfold offers. rewrite Hsn. cbn [PubSub.sending]. rewrite !bind_app, bind_cons.
      rewrite !app_assoc. f_equiv. by rewrite Permutation_app_comm. }
    pose proof (l_nodup x c Hl) as Hnd. pose proof (l_next x c Hl) as Hlt. rewrite Ho in Hnd, Hlt.
    apply (link_bus x c); try done.
    + rewrite Permutation_app_swap_app in Hnd. by apply NoDup_app in Hnd as (_ & _ & ?).
    + rewrite Permutation_app_swap_app in Hlt. by apply Forall_app in Hlt as [_ ?].
  - exists d'. by apply (link_receive x c).
  - exists d'. by apply (link_exit x c).
  - exists c. by apply (link_submit x c e).
  - exists d'. by apply (link_return x c d' e).
  - exists c. destruct (l_fn x c Hl). unfold set_pool. apply link_pool; try done. apply pool_tau; try done.
    intros E. pose proof (l_ws x c Hl) as Hw. by rewrite E in Hw.
  - exists c. by apply link_crash.
Qed.

Lemma link_external x y c : PubSub.invariant typ (bus x) → link x c → external x y → ∃ c', link y c'.
Proof.
  intros Hi Hl Hs. pose proof Hl as [Ht Hsu Hcl Hf Hr Hfn Hw Hnd Hlt Hsv].
  destruct Hs as [x ev|x r Hr'|x p' Hm Hp Est|x Hm Hret|x Hm|x d Hm Hd|x l1 l2 d Hm Hc Hd|x l1 l2 d Hm Hc Hd];
    try (rewrite Ht in Hd; apply list_lookup_singleton_Some in Hd as [_ <-]).
  - exists c. by apply link_publish.
  - exists c. apply (link_bus x c); try done. set_solver.
  - exists c. assert (E : Pool.sh p' = Pool.set_stopped (Pool.sh (pool x)) ∧ Pool.subs p' = Pool.subs (pool x) ∧
      Pool.ws p' = Pool.ws (pool x)).
    { destruct (pool x) as [s b w p]. simpl in *. inversion Hp; subst; simpl in *; try done;
        try (apply (f_equal length) in Est; simpl in Est; rewrite ?length_app in Est; simpl in Est; lia). }
    destruct E as (E1 & E2 & E3). unfold set_main, set_pool.
    split; simpl; rewrite ?E1, ?E3; try done.
    + unfold calls. by rewrite E2.
    + unfold waiting. simpl. by rewrite E2.
    + eapply Forall_impl; [exact Hr|]. intros r. apply cause_mono; simpl; by rewrite ?E1.
  - exists c. by apply (link_bus x c).
  - exists c. by apply (link_bus x c).
  - exists c. by apply (link_bus x c).
  - exists (PubSub.cancel c). apply (link_bus x c); try done; simpl; rewrite ?Ht; try done. by rewrite Hm.
  - exists (PubSub.close_ c). apply (link_bus x c); try done; simpl; by rewrite ?Ht.
Qed.

Lemma link_run x : rtc step start x → ∃ c, link x c.
Proof.
  revert x. apply rtc_ind_r.
  - exists (PubSub.new_sub topic 1 64). split; try done; simpl; repeat constructor.
  - intros x y Hr Hs [c IH]. pose proof (PubSub.bus_reachable _ _ (proj1 (run_parts x Hr))) as Hb.
    destruct Hs as [_ Hs|_ Hs]; [by eapply link_internal|by eapply link_external].
Qed.

(** ** The work left *)

Definition call_weight (b : Pool.sstate job) : nat := match b with Pool.SSelect _ _ => 9 | Pool.SSent _ => 1 end.

Definition pool_load (p : Pool.state job) : nat := (Pool.work p + sum_list_with call_weight (Pool.subs p))%nat.

Definition handler_load (w : @PubSub.worker job) (p : Pool.state job) : nat :=
  match w, Pool.subs p with
  | PubSub.Running _, [] => 11
  | PubSub.Running _, _ => 1
  | _, _ => 0
  end.

(** An upper bound on the steps the goroutines can still make. *)
Definition load (x : state) : nat :=
  match PubSub.table (bus x) with
  | c :: _ => 13 * length (offers (bus x)) + 12 * length (PubSub.queue c) + handler_load (PubSub.disp c) (pool x) +
              pool_load (pool x)
  | [] => 0
  end.

(** Nothing is on its way: every order the bus accepted is processed or refused. *)
Definition settled (x : state) : Prop :=
  ∃ c, PubSub.table (bus x) = [c] ∧ offers (bus x) = [] ∧ PubSub.queue c = [] ∧ PubSub.disp c = PubSub.Idle ∧
    Pool.jobs (Pool.sh (pool x)) = [] ∧ Forall (λ w, w = Pool.WRecv) (Pool.ws (pool x)) ∧
    PubSub.Payload <$> PubSub.accepted c ≡ₚ (Pool.finished (Pool.sh (pool x))).*1 ++ (refused x).*1.

Lemma pool_load_tau p p' :
  Pool.step cfg p Pool.Tau p' → length (Pool.subs p') = length (Pool.subs p) →
  length (Pool.stops p') = length (Pool.stops p) → Pool.ws p ≠ [] → Pool.stops p = [] → Forall fn_ok (Pool.ws p) →
  (pool_load p' < pool_load p)%nat.
Proof.
  intros Hs Hb Ht Hw Hst Hf. unfold pool_load, Pool.work.
  inversion Hs; subst; simpl in *; try done; try lia;
    try (by apply Pool.middle_nonempty in Hst);
    try (exfalso; rewrite ?length_app in *; simpl in *; lia);
    rewrite ?sum_list_with_app, ?length_app; simpl; rewrite ?H; simpl; try lia.
Qed.

Lemma no_crash (p p' : Pool.state job) : Pool.closed (Pool.sh p) = false → Pool.step cfg p Pool.Tau p' →
  Pool.panicked (Pool.sh p) = false → Pool.panicked (Pool.sh p') = true → False.
Proof.
  intros Hc Hs H1 H2.
  inversion Hs; subst; simpl in *; try congruence; destruct (Pool.onError (Pool.opts cfg)); simpl in *; congruence.
Qed.

#[local] Arguments Nat.mul : simpl never.

#[local] Instance is_recv_dec (w : Pool.wstate job) : Decision (w = Pool.WRecv).
Proof. destruct w; (by left) || (by right). Defined.

Section Component.
(** What a reachable state gives. *)
Context (x : state) (c : PubSub.sub) (Hl : link x c) (Hp : Pool.Inv cfg (pool x)) (Hb : PubSub.invariant typ (bus x)).

Lemma not_closed : main x = Serving → Pool.closed (Pool.sh (pool x)) = false.
Proof.
  intros Hm. destruct (l_serving x c Hl Hm) as (Hs & _). pose proof (Pool.inv_closed _ _ Hp) as Hc.
  destruct (Pool.closed _); [|done]. rewrite Hs in Hc. by specialize (Hc eq_refl).
Qed.

Lemma ws_nonempty : Pool.ws (pool x) ≠ [].
Proof. intros E. pose proof (l_ws x c Hl) as Hw. by rewrite E in Hw. Qed.

(** Every step of the goroutines uses up work. *)
Lemma load_internal y : main x = Serving → internal x y → main y = Serving ∧ (load y < load x)%nat.
Proof.
  intros Hm Hs. pose proof (not_closed Hm) as Hnc. pose proof ws_nonempty as Hne.
  destruct (l_serving x c Hl Hm) as (Hst & Hstops & Hcl & Hca & _).
  pose proof Hl as [Ht [Hcap [HT _]] Hcalls _ _ [Hfn _] _ _ _ _]. unfold load. rewrite Ht.
  destruct Hs as [x l1 e i rest l2 d d' Hsn Hd Hpub|x l1 e i rest l2 d Hsn Hd Hpub|x d d' Hd Hr|x d d' Hd Hr|x d e p' Hd Hdi Hs Hs' Hps
    |x d d' e r p' Hd Hdi Hr Hret|x p' Hps Hbs Ht' Hok|x p' Hps E1 E2 E3];
    try (rewrite Ht in Hd; apply list_lookup_singleton_Some in Hd as [Hi0 <-]; try subst i).
  - split; [done|]. simpl. rewrite Ht. simpl.
    match goal with |- context [offers (PubSub.State ?a ?b ?c' ?d ?e' ?f)] =>
      rewrite (offers_send (bus x) (PubSub.State a b c' d e' f) l1 e 0 rest l2 Hsn eq_refl) end. simpl.
    inversion Hpub; subst; simpl; rewrite ?length_app; simpl; lia.
  - inversion Hpub; unfold typ in *; congruence.
  - split; [done|]. simpl. rewrite Ht. unfold PubSub.receive in Hr.
    destruct (PubSub.disp c) eqn:Ed; try done. destruct (PubSub.queue c); try done. injection Hr as <-. simpl in *.
    unfold handler_load. rewrite Hcalls. unfold offers. simpl. lia.
  - unfold PubSub.exit_ in Hr. rewrite Hcl, Hca in Hr. by destruct (PubSub.disp c).
  - split; [done|]. simpl. rewrite Ht, Hdi. unfold handler_load, pool_load, Pool.work. rewrite Hs, Hs'. simpl.
    assert (Pool.sh p' = Pool.sh (pool x) ∧ Pool.ws p' = Pool.ws (pool x)) as [-> ->]; [|lia].
    destruct (pool x) as [s b w p]. simpl in *. subst b. inversion Hps; subst; simpl in *; try done; by destruct b1.
  - split; [done|]. simpl. rewrite Ht, Hdi in *. simpl in *.
    destruct (submit_returned x _ r p' Hret Hcalls) as (Hsub & Ew & _). unfold PubSub.finish in Hr. rewrite Hdi in Hr.
    injection Hr as <-. simpl. unfold pool_load, Pool.work. rewrite Hsub, Ew.
    assert (Pool.jobs (Pool.sh p') = Pool.jobs (Pool.sh (pool x))) as ->.
    { destruct Hret as [| |p' Hst']; [done|..]; remember (pool x) as q eqn:E; clear E;
        match goal with H : Pool.step _ _ _ _ |- _ => inversion H; by subst end. }
    unfold offers, handler_load. simpl. destruct (Pool.subs (pool x)); simpl; lia.
  - split; [done|]. simpl. rewrite Ht. pose proof (pool_load_tau _ _ Hps Hbs Ht' Hne Hstops Hfn).
    unfold handler_load.
    destruct (PubSub.disp c); simpl; try lia. destruct (Pool.subs (pool x)), (Pool.subs p'); simpl in *; lia.
  - exfalso. by eapply no_crash.
Qed.

(** As long as work is left some goroutine can step. *)
Lemma workers_progress : Forall (λ w, w = Pool.WRecv) (Pool.ws (pool x)) ∧ Pool.jobs (Pool.sh (pool x)) = [] ∨
  (¬ Forall (λ w, w ≠ Pool.WExit) (Pool.ws (pool x))) ∨ ∃ y, internal x y.
Proof.
  pose proof (l_fn x c Hl) as [Hfn _]. pose proof (ws_nonempty) as Hne.
  assert (Hgo : ∀ p', Pool.step cfg (pool x) Pool.Tau p' → Pool.subs p' = Pool.subs (pool x) →
    Pool.stops p' = Pool.stops (pool x) → Forall fn_ok (Pool.ws p') → ∃ y, internal x y).
  { intros p' Hs E1 E2 Hok. exists (set_pool p' x). apply i_pool; [done|by rewrite E1|by rewrite E2|done]. }
  destruct (pool x) as [s b w st]. simpl in *.
  destruct (Forall_or_middle (λ w, w = Pool.WRecv) w) as [Hall|(w1 & y & w2 & -> & Hy)].
  - destruct (Pool.jobs s) as [|j js] eqn:Ej; [by left|]. right. right. destruct w as [|y w]; [done|].
    apply Forall_cons in Hall as [-> Hall]. eapply Hgo; [by apply (Pool.run_recv cfg s b [])|done..|]. simpl.
    apply Forall_cons. split; [done|]. by apply Forall_cons in Hfn as [_ ?].
  - right. apply Forall_app in Hfn as [Hf1 Hf2]. apply Forall_cons in Hf2 as [Hfy Hf2].
    destruct y as [|j|j|j e|j e|j e|j e|]; [done|..]; simpl in Hfy; try done;
      try (right; eapply Hgo; [first [apply (Pool.run_fn _ _ _ _ _ _ _ None)|constructor]|done..|];
           simpl; apply Forall_app; split; [done|]; by apply Forall_cons).
    + right. subst e. eapply Hgo; [constructor|done..|]. simpl. apply Forall_app. split; [done|]. by apply Forall_cons.
    + left. intros Hall. apply Forall_app in Hall as [_ Hall]. by apply Forall_cons in Hall as [? _].
Qed.

Lemma offers_progress : main x = Serving → offers (bus x) = [] ∨ ∃ y, internal x y.
Proof.
  intros Hm. pose proof Hl as [Ht [Hcap [HT _]] _ _ _ _ _ _ _ Hsv]. destruct (Hsv Hm) as (_ & _ & Hcl & _).
  destruct (Forall_or_middle (λ o : PubSub.Event * list nat, o.2 = []) (PubSub.sending (bus x)))
    as [Hall|(l1 & [e [|i rest]] & l2 & E & Hne)]; [left|done|right].
  - unfold offers. induction Hall as [|[e is_] l E Hall IH]; [done|]. rewrite bind_cons, IH. simpl in *. by subst.
  - assert (i = 0%nat) as ->.
    { eapply only_sub; [exact Hl|]. eapply (PubSub.inv_sending _ _ Hb e (i :: rest)); [rewrite E; set_solver|left]. }
    assert (Hpub : ∃ d, PubSub.publish typ e c (Some d)).
    { destruct (decide (length (PubSub.queue c) < 64)%nat).
      - eexists. apply PubSub.publish_buffer; [by rewrite HT|done|by rewrite Hcap].
      - eexists. apply PubSub.publish_full; [by rewrite HT|done|]. rewrite Hcap. lia. }
    destruct Hpub as [d Hpub]. eexists. eapply i_send; [exact E| |exact Hpub]. by rewrite Ht.
Qed.

Lemma handler_progress e : main x = Serving → PubSub.disp c = PubSub.Running e →
  (Pool.subs (pool x) = [Pool.SSelect true (PubSub.Payload e)] ∧ Pool.jobs (Pool.sh (pool x)) ≠ []) ∨ ∃ y, internal x y.
Proof.
  intros Hm Ed. pose proof Hl as [Ht _ Hcalls _ _ [Hfn _] _ _ _ Hsv]. destruct (Hsv Hm) as (Hst & _).
  pose proof (not_closed Hm) as Hnc. rewrite Ed in Hcalls.
  assert (Hd : PubSub.table (bus x) !! 0%nat = Some c) by by rewrite Ht.
  destruct (calls_sub _ _ Hcalls) as [Hq|[Hq|Hq]].
  - right. eexists. eapply (i_submit x c e (Pool.State (Pool.sh (pool x)) [Pool.SSelect true (PubSub.Payload e)]
      (Pool.ws (pool x)) (Pool.stops (pool x)))); [done|done|done|done|].
    destruct (pool x). simpl in *. subst. by apply Pool.submit_begin.
  - destruct (decide (Pool.jobs (Pool.sh (pool x)) = [])) as [Ej|]; [|by left]. right.
    exists (set_pool (Pool.State (Pool.add_sent (PubSub.Payload e) (Pool.set_jobs [PubSub.Payload e] (Pool.sh (pool x))))
      [Pool.SSent (PubSub.Payload e)] (Pool.ws (pool x)) (Pool.stops (pool x))) x).
    apply i_pool; [|by rewrite Hq|done|done]. destruct (pool x) as [s b w st]. simpl in *. subst b.
    replace [PubSub.Payload e] with (Pool.jobs s ++ [PubSub.Payload e]) by by rewrite Ej.
    apply (Pool.submit_send cfg s [] []); [done|]. by rewrite Ej.
  - right. eexists. eapply (i_return x c _ e None (Pool.State (Pool.add_submitted (Pool.sh (pool x))) [] (Pool.ws (pool x))
      (Pool.stops (pool x)))); [done|done|by unfold PubSub.finish; rewrite Ed|].
    apply returns_ok. destruct (pool x) as [s b w st]. simpl in *. subst b. apply (Pool.submit_count cfg s [] []).
Qed.

Lemma orders_progress : main x = Serving → settled x ∨ ∃ y, internal x y.
Proof.
  intros Hm. destruct (offers_progress Hm) as [Ho|]; [|by right].
  destruct (l_serving x c Hl Hm) as (_ & _ & _ & _ & Hex).
  assert (Hw : Forall (λ w, w ≠ Pool.WExit) (Pool.ws (pool x))).
  { apply Forall_forall. intros w Hin ->. destruct (Pool.inv_exit _ _ Hp Hin) as [Hc _]. by rewrite not_closed in Hc. }
  destruct workers_progress as [[Hws Hj]|[?|]]; [|done|by right].
  destruct (PubSub.disp c) as [|e|] eqn:Ed; [| |done].
  2: { destruct (handler_progress e Hm Ed) as [[_ ?]|]; [done|by right]. }
  destruct (PubSub.queue c) as [|e q] eqn:Eq.
  2: { right. eexists. eapply (i_receive x c); [by rewrite (l_table x c Hl)|]. unfold PubSub.receive. by rewrite Ed, Eq. }
  left. exists c. split_and!; try done; [by apply l_table|].
  pose proof (l_flow x c Hl) as Hf. pose proof (PubSub.inv_sub _ _ Hb 0 c) as Hs.
  rewrite (l_table x c Hl) in Hs. destruct (Hs eq_refl) as [<- _ _ _].
  pose proof (Pool.inv_jobs _ _ Hp) as Hpj. unfold waiting, PubSub.in_flight in *. rewrite Ed, Eq in *. simpl in *.
  rewrite Hj in Hpj. rewrite !app_nil_r in Hf. rewrite app_nil_r, Hf, Hpj. simpl.
  assert (omap Pool.held (Pool.ws (pool x)) = []) as ->; [|done].
  clear - Hws. induction Hws as [|w l -> _ IH]; done.
Qed.

End Component.

(** ** Reachable states *)

Lemma reachable_run x : reachable x → rtc step start x.
Proof. intros (x0 & E & Hr). rewrite boot_start in E. by injection E as <-. Qed.

Lemma reachable_parts x : rtc step start x → ∃ c, link x c ∧ Pool.Inv cfg (pool x) ∧ PubSub.invariant typ (bus x).
Proof.
  intros Hr. destruct (link_run x Hr) as [c Hl]. destruct (run_parts x Hr) as [Hb Hp]. exists c.
  split_and!; [done|apply Pool.reachable_inv; [done|done]|by apply PubSub.bus_reachable].
Qed.

(** Where the orders are. *)
Lemma accounts x c : link x c → Pool.Inv cfg (pool x) → PubSub.invariant typ (bus x) →
  PubSub.Payload <$> PubSub.accepted c ≡ₚ
    (PubSub.Payload <$> PubSub.queue c) ++ waiting x c ++ Pool.jobs (Pool.sh (pool x)) ++
    omap Pool.held (Pool.ws (pool x)) ++ (Pool.finished (Pool.sh (pool x))).*1 ++ (refused x).*1.
Proof.
  intros Hl Hp Hb. pose proof (PubSub.inv_sub _ _ Hb 0 c) as Hs. rewrite (l_table x c Hl) in Hs.
  destruct (Hs eq_refl) as [<- _ _ _]. rewrite app_assoc, fmap_app, (l_flow x c Hl), (Pool.inv_jobs _ _ Hp).
  rewrite (Permutation_app_comm _ (PubSub.Payload <$> _)). f_equiv.
  rewrite (Permutation_app_comm (refused x).*1), app_assoc, (Permutation_app_comm _ (waiting x c)), <-!app_assoc. done.
Qed.

Lemma run_internal n x y c : link x c → Pool.Inv cfg (pool x) → PubSub.invariant typ (bus x) → main x = Serving →
  rtc step start x → nsteps internal n x y → main y = Serving ∧ rtc step start y ∧ (n + load y ≤ load x)%nat.
Proof.
  intros Hl Hp Hb Hm Hr Hn. revert c Hl Hp Hb Hm Hr. induction Hn as [x|n x y z Hxy _ IH]; intros c Hl Hp Hb Hm Hr.
  { split_and!; [done|done|lia]. }
  destruct (load_internal x c Hl Hp Hb y Hm Hxy) as [Hm' Hlt].
  assert (Hry : rtc step start y).
  { eapply rtc_r; [done|]. apply step_internal; [|done]. unfold alive. by rewrite Hm. }
  destruct (reachable_parts y Hry) as (d & Hl' & Hp' & Hb'). destruct (IH d) as (? & ? & ?); try done.
  split_and!; try done. lia.
Qed.

Lemma run_pool x y : rtc step x y → rtc (Pool.any_step cfg) (pool x) (pool y).
Proof.
  induction 1 as [|x y z Hs _ IH]; [apply rtc_refl|]. apply step_parts in Hs as [_ [E|Hs]]; [by rewrite <-E|].
  by eapply rtc_l.
Qed.

(** ** Properties *)

(** C13: Every order is accounted for.  In every reachable state of the server the orders
    the bus took are, each once, in the subscription's channel, at its handler, in the
    pool's queue, at a worker, processed or refused; no order is processed or refused
    twice; processing never fails; an order is refused only by a stopped pool or because
    its own request's context was over; and at most 64, 1, 256 and 4 orders are at the
    four stations. *)
Theorem orders_accounted x : reachable x →
  ∃ c, PubSub.table (bus x) = [c] ∧
    PubSub.Payload <$> PubSub.accepted c ≡ₚ
      (PubSub.Payload <$> PubSub.queue c) ++ waiting x c ++ Pool.jobs (Pool.sh (pool x)) ++
      omap Pool.held (Pool.ws (pool x)) ++ (Pool.finished (Pool.sh (pool x))).*1 ++ (refused x).*1 ∧
    PubSub.accepted c `sublist_of` PubSub.sent_to (bus x) 0 ∧
    NoDup ((Pool.finished (Pool.sh (pool x))).*1 ++ (refused x).*1) ∧
    Forall (λ r, r.2 = None) (Pool.finished (Pool.sh (pool x))) ∧ Pool.reported (Pool.sh (pool x)) = [] ∧
    Forall (cause x) (refused x) ∧
    (length (PubSub.queue c) ≤ 64)%nat ∧ (length (waiting x c) ≤ 1)%nat ∧
    (length (Pool.jobs (Pool.sh (pool x))) ≤ 256)%nat ∧ (length (omap Pool.held (Pool.ws (pool x))) ≤ 4)%nat.
Proof.
  intros Hr. apply reachable_run in Hr. destruct (reachable_parts x Hr) as (c & Hl & Hp & Hb).
  exists c. pose proof (accounts x c Hl Hp Hb) as Hacc. pose proof (l_table x c Hl) as Ht.
  pose proof (PubSub.inv_sub _ _ Hb 0 c) as Hs. rewrite Ht in Hs. destruct (Hs eq_refl) as [_ Hcap Hsub _].
  destruct (l_fn x c Hl) as [Hfn Hfin]. destruct (l_sub x c Hl) as [Hc64 _].
  split_and!; try done.
  - pose proof (l_nodup x c Hl) as Hnd. apply NoDup_app in Hnd as (Hnd & _ & _).
    apply NoDup_fmap_1 in Hnd. rewrite Hacc in Hnd.
    do 4 (apply NoDup_app in Hnd as (_ & _ & Hnd)). done.
  - pose proof (Pool.inv_reported _ _ Hp) as Hrep. simpl in Hrep.
    assert (E : omap Pool.failure (Pool.finished (Pool.sh (pool x))) = []).
    { clear - Hfin. induction Hfin as [|[j [e|]] l E _ IH]; done. }
    rewrite E in Hrep. apply Permutation_nil_l in Hrep. by destruct (app_eq_nil _ _ (eq_sym Hrep)).
  - apply (l_refused x c Hl).
  - by rewrite <-Hc64.
  - unfold waiting. destruct (PubSub.disp c); simpl; [lia| |lia]. repeat case_match; simpl; lia.
  - pose proof (Pool.inv_depth _ _ Hp) as Hd. simpl in Hd. lia.
  - rewrite <-(l_ws x c Hl). apply omap_length_le.
Qed.

(** C34: Left alone, the running server settles.  From any reachable state before the
    signal, the goroutines of the bus and the pool can make no more than [load x] steps,
    whatever their interleaving, and they stop only when every order the bus took has
    been processed or refused: none stays behind in a channel or at a handler. *)
Theorem orders_settle x n y : reachable x → main x = Serving → nsteps internal n x y →
  (n ≤ load x)%nat ∧ (settled y ∨ ∃ z, internal y z).
Proof.
  intros Hr Hm Hn. apply reachable_run in Hr. destruct (reachable_parts x Hr) as (c & Hl & Hp & Hb).
  destruct (run_internal n x y c Hl Hp Hb Hm Hr Hn) as (Hm' & Hr' & Hle). split; [lia|].
  destruct (reachable_parts y Hr') as (d & Hl' & Hp' & Hb'). by apply (orders_progress y d).
Qed.

(** Once [orderPool.Stop] has returned, which main waits for before it shuts the HTTP and
    gRPC servers down, no order is processed any more: whatever the bus takes from then
    on, and whatever it still held, stays unprocessed or is refused. *)
Theorem stopped_pool_refuses x y : reachable x → Pool.PReturned ∈ Pool.stops (pool x) → rtc step x y →
  ∃ c, PubSub.table (bus y) = [c] ∧
    PubSub.Payload <$> PubSub.accepted c ≡ₚ
      (PubSub.Payload <$> PubSub.queue c) ++ waiting y c ++ (Pool.finished (Pool.sh (pool x))).*1 ++ (refused y).*1.
Proof.
  intros Hr HP Hxy. apply reachable_run in Hr. destruct (reachable_parts x Hr) as (d & Hl & Hp & _).
  assert (Hq : Pool.quiet (pool x)).
  { split_and!; [|by eapply ws_nonempty|by apply (Pool.inv_returned _ _ Hp)]. apply (Pool.inv_sclosed _ _ Hp). by right. }
  destruct (Pool.rtc_quiet cfg _ _ Hq (run_pool x y Hxy)) as [Es Ef].
  assert (Hry : rtc step start y) by by etrans. destruct (reachable_parts y Hry) as (c & Hl' & Hp' & Hb').
  exists c. split; [by apply l_table|]. rewrite (accounts y c Hl' Hp' Hb').
  assert (Hnil : Pool.jobs (Pool.sh (pool y)) ++ omap Pool.held (Pool.ws (pool y)) = []); [|by rewrite (app_assoc (Pool.jobs _)), Hnil, Ef].
  assert (E : Pool.sent (Pool.sh (pool x)) ≡ₚ (Pool.finished (Pool.sh (pool x))).*1).
  { rewrite (Pool.inv_jobs _ _ Hp). destruct Hq as (Hc & Hne & Hall). rewrite (Pool.all_exit_omap _ _ eq_refl Hall).
    destruct (Pool.ws (pool x)) as [|w ws] eqn:Ew; [done|]. apply Forall_cons in Hall as [-> _].
    destruct (Pool.inv_exit _ _ Hp) as [_ ->]; [rewrite Ew; left|done]. }
  pose proof (Pool.inv_jobs _ _ Hp') as Hj. rewrite Es, E, Ef, app_assoc in Hj.
  apply Permutation_length in Hj. rewrite length_app in Hj. apply length_zero_iff_nil. lia.
Qed.

(** ** Runs *)

Definition order : OrderEvent := Server.MkOrder "p1" 1 0.
Definition placed : @PubSub.Event job := PubSub.MkEvent topic (0%nat, order).

(** The bus after one order has been published and its handler has returned. *)
Definition bus_with (q : list PubSub.Event) (w : PubSub.worker) (h : list PubSub.Event) : @PubSub.state job :=
  PubSub.State (PubSub.subs bus0) [PubSub.Sub topic 1 64 q false false w [placed] h] [(placed, [])] []
    [(0%nat, placed)] false.

Ltac ostep c := eapply rtc_l; [c|]; simpl.
Ltac goroutine c := ostep ltac:(apply step_internal; [by split|]; c).
Ltac outside c := ostep ltac:(apply step_external; [by split|]; c).
Ltac pool_does c :=
  goroutine ltac:(eapply i_pool; [c|reflexivity|reflexivity|simpl; by repeat constructor]).
(** The handler receives the order and calls [Submit]. *)
Ltac handler_calls :=
  goroutine ltac:(eapply i_receive; reflexivity);
  goroutine ltac:(eapply i_submit; [reflexivity|reflexivity|reflexivity| |
    by apply (Pool.submit_begin cfg _ _ _ _ (0%nat, order) true)]; reflexivity).

(** A request publishes the order, and the bus takes it. *)
Lemma run_published y : rtc step (State (bus_with [placed] PubSub.Idle []) pool0 ∅ 1 [] Serving) y → rtc step start y.
Proof.
  intros Hy. outside ltac:(apply (e_publish start order)).
  goroutine ltac:(eapply (i_send _ [] placed 0 [] []); [reflexivity|reflexivity|];
    apply PubSub.publish_buffer; [reflexivity|reflexivity|simpl; lia]).
  exact Hy.
Qed.

(** The order is handed to the pool, whose first worker processes it. *)
Definition processed : state :=
  State (bus_with [] PubSub.Idle [placed])
    (Pool.State (Pool.Shared [] false false false 1 1 0 0 [(0%nat, order)] [((0%nat, order), None)] []) []
       (replicate 4 Pool.WRecv) []) ∅ 1 [] Serving.

Lemma processed_reachable : reachable processed.
Proof.
  exists start. split; [reflexivity|]. apply run_published.
  handler_calls.
  pool_does ltac:(by apply (Pool.submit_send cfg _ [] [])).
  goroutine ltac:(eapply (i_return _ _ _ placed None); [reflexivity|reflexivity|reflexivity|apply returns_ok; apply (Pool.submit_count cfg _ [] [])]).
  pool_does ltac:(by apply (Pool.run_recv cfg _ _ [])).
  pool_does ltac:(apply (Pool.run_begin cfg _ _ [])).
  pool_does ltac:(apply (Pool.run_fn cfg _ _ [] _ _ _ None)).
  pool_does ltac:(apply (Pool.run_end cfg _ _ [])).
  pool_does ltac:(apply (Pool.run_completed cfg _ _ [])).
  pool_does ltac:(apply (Pool.run_ok cfg _ _ [])).
  apply rtc_refl.
Qed.

Lemma orders_accounted_witness : NoDup ((Pool.finished (Pool.sh (pool processed))).*1 ++ (refused processed).*1).
Proof. destruct (orders_accounted processed processed_reachable) as (c & _ & _ & _ & Hnd & _). exact Hnd. Defined.

Lemma orders_settle_witness : (0 ≤ load processed)%nat ∧ (settled processed ∨ ∃ z, internal processed z).
Proof.
  exact (orders_settle processed 0 processed processed_reachable eq_refl (nsteps_O internal processed)).
Defined.

(** The only order so far was refused with its context's error. *)
Definition lost : state :=
  State (bus_with [] PubSub.Idle [placed]) pool0 ({[0%nat]} ∪ ∅) 1 [((0%nat, order), context_Canceled)] Serving.

(** The order is accepted, the request answered and its context cancelled; then the
    select of [Submit] takes the context's case although the queue is empty, and the
    order is gone: the server has settled, no shutdown under way. *)
Theorem accepted_order_lost : reachable lost ∧ settled lost ∧ main lost = Serving ∧
  Pool.finished (Pool.sh (pool lost)) = [].
Proof.
  split_and!; [|exists (PubSub.Sub topic 1 64 [] false false PubSub.Idle [placed] [placed]); split_and!;
    [done|done|done|done|done|simpl; by repeat constructor|done]|done|done].
  exists start. split; [reflexivity|]. apply run_published.
  outside ltac:(apply (e_context _ 0); simpl; lia).
  handler_calls.
  goroutine ltac:(eapply (i_return _ _ _ placed (Some context_Canceled)); [reflexivity|reflexivity|reflexivity|];
    eapply returns_ctx; [simpl; set_solver|by left|done| |apply (Pool.submit_cancelled cfg _ [] [])]; reflexivity).
  apply rtc_refl.
Qed.

(** The signal arrives while the handler is between the test of [stopped] and the send:
    [Stop] closes the channel, the send panics in the dispatch goroutine, which has no
    recover, and the process dies in the middle of its shutdown. *)
Theorem shutdown_crash : ∃ x, reachable x ∧ main x = Crashed.
Proof.
  eexists. split.
  - exists start. split; [reflexivity|]. apply run_published.
    handler_calls.
    outside ltac:(eapply e_signal; [reflexivity|apply Pool.stop_store|reflexivity]).
    pool_does ltac:(by apply (Pool.stop_close cfg _ _ _ [] [])).
    goroutine ltac:(eapply i_crash; [by apply (Pool.submit_closed cfg _ [] [])|reflexivity|reflexivity|reflexivity]).
    apply rtc_refl.
  - reflexivity.
Qed.

(** The idle server is told to stop: [orderPool.Stop] has returned. *)
Definition stopped : state :=
  State bus0 (Pool.State (Pool.set_closed (Pool.set_stopped Pool.init)) [] (replicate 4 Pool.WExit) [Pool.PReturned])
    ∅ 0 [] Stopping.

Lemma stopped_reachable : reachable stopped.
Proof.
  exists start. split; [reflexivity|].
  outside ltac:(eapply e_signal; [reflexivity|apply Pool.stop_store|reflexivity]).
  pool_does ltac:(by apply (Pool.stop_close cfg _ _ _ [] [])).
  pool_does ltac:(by apply (Pool.run_done cfg _ _ [])).
  pool_does ltac:(by apply (Pool.run_done cfg _ _ [Pool.WExit])).
  pool_does ltac:(by apply (Pool.run_done cfg _ _ [Pool.WExit; Pool.WExit])).
  pool_does ltac:(by apply (Pool.run_done cfg _ _ [Pool.WExit; Pool.WExit; Pool.WExit])).
  pool_does ltac:(apply (Pool.stop_wait cfg _ _ _ [] []); by repeat constructor).
  apply rtc_refl.
Qed.

Lemma stopped_pool_refuses_witness : ∃ c, PubSub.table (bus stopped) = [c] ∧
  PubSub.Payload <$> PubSub.accepted c ≡ₚ (PubSub.Payload <$> PubSub.queue c) ++ waiting stopped c ++ [] ++ [].
Proof. apply (stopped_pool_refuses stopped stopped stopped_reachable); [left|apply rtc_refl]. Defined.

End Orders.
