(* ===== verification/Routes.v ===== *)
(** * examples/server: routing, and a request through the whole HTTP stack

    [Mux] is the part of net/http's ServeMux the server uses: patterns of a method and
    literal or single-wildcard segments, their conflicts, path cleaning and redirects, and
    the 404 and 405 answers (Go 1.25; host patterns, trailing slashes and
    multi-segment wildcards are not needed and rejected by [parsePattern]).  [Routes]
    registers main's five routes and runs a request through the middleware and the
    mux to the handlers of Server.v. *)

From Stdlib Require Import Ascii.
From S2P Require Import Prelude GoLang Strings Retry Health Http Middleware RateLimit Float64 ProductApi Server.
Import Strings.
Open Scope Z_scope.

Module Mux.

Notation slash := "/"%char.

(** ** Paths *)

Definition hex_value (c : Ascii.ascii) : option nat :=
  let n := Ascii.nat_of_ascii c in
  if in_range 48 57 c then Some (n - 48)%nat
  else if in_range 65 70 c then Some (n - 55)%nat
  else if in_range 97 102 c then Some (n - 87)%nat
  else None.

(** [url.PathUnescape]; [None] is its error. *)
Fixpoint PathUnescape (s : string) : option string :=
  match s with
  | "" => Some ""
  | String "%" (String a (String b s)) =>
    match hex_value a, hex_value b with
    | Some x, Some y => String (Ascii.ascii_of_nat (16 * x + y)) <$> PathUnescape s
    | _, _ => None
    end
  | String "%" _ => None
  | String c s => String c <$> PathUnescape s
  end.

Definition pathUnescape (s : string) : string := default s (PathUnescape s).

(** The loop of [path.Clean] on a rooted path. *)
Definition clean_step (acc : list string) (s : string) : list string :=
  if bool_decide (s = "" ∨ s = ".") then acc
  else if bool_decide (s = "..") then take (length acc - 1) acc
  else acc ++ [s].

Definition Clean (p : string) : list string := fold_left clean_step (Split slash p) [].

Definition last_slash (p : string) : bool := bool_decide (last (Split slash p) = Some "") && bool_decide (p ≠ "").

Definition render (segs : list string) : string := "/" +:+ Join segs "/".

Definition cleanPath (p : string) : string :=
  match p with
  | "" => "/"
  | String c _ =>
    let p := if Ascii.eqb c slash then p else "/" +:+ p in
    let np := render (Clean p) in
    if last_slash p && bool_decide (np ≠ "/") then np +:+ "/" else np
  end.

(** The segments the matcher sees: an empty last one stands for the final slash. *)
Fixpoint mark (segs : list string) : list string :=
  match segs with
  | [] => []
  | [s] => [if bool_decide (s = "") then "/" else s]
  | s :: segs => s :: mark segs
  end.

Definition segments (p : string) : list string := pathUnescape <$> mark (drop 1 (Split slash p)).

(** ** Patterns *)

Inductive segment := Lit (s : string) | Wild (name : string).

Record pattern := MkPattern { method : string; segs : list segment }.

#[export] Instance segment_eq_dec : EqDecision segment.
Proof. solve_decision. Defined.
#[export] Instance pattern_eq_dec : EqDecision pattern.
Proof. solve_decision. Defined.

Definition parse_segment (s : string) : option segment :=
  match s with
  | "" => None
  | String "{" name =>
    match reverse name with
    | String "}" name =>
      let name := reverse name in
      if bool_decide (name = "") || Contains name "$" || Contains name "." || Contains name "{" then None
      else Some (Wild name)
    | _ => None
    end
  | _ => if Contains s "{" then None else Some (Lit (pathUnescape s))
  end.

(** [parsePattern] on "METHOD /path". *)
Definition parsePattern (s : string) : option pattern :=
  match Split " " s with
  | [m; p] =>
    if bool_decide (cleanPath p ≠ p) then None
    else match Split slash p with
         | "" :: ss => MkPattern m <$> mapM parse_segment ss
         | _ => None
         end
  | _ => None
  end.

(** ** Conflicts *)

Inductive relationship := Equivalent | MoreGeneral | MoreSpecific | Disjoint | Overlaps.

#[export] Instance relationship_eq_dec : EqDecision relationship.
Proof. solve_decision. Defined.

Definition inverseRelationship (r : relationship) : relationship :=
  match r with MoreSpecific => MoreGeneral | MoreGeneral => MoreSpecific | r => r end.

Definition combineRelationships (r1 r2 : relationship) : relationship :=
  match r1 with
  | Equivalent => r2
  | Disjoint => Disjoint
  | Overlaps => if bool_decide (r2 = Disjoint) then Disjoint else Overlaps
  | MoreGeneral | MoreSpecific =>
    if bool_decide (r2 = Equivalent) then r1
    else if bool_decide (r2 = inverseRelationship r1) then Overlaps
    else r2
  end.

Definition compareMethods (p1 p2 : pattern) : relationship :=
  if bool_decide (method p1 = method p2) then Equivalent
  else if bool_decide (method p1 = "") then MoreGeneral
  else if bool_decide (method p2 = "") then MoreSpecific
  else if bool_decide (method p1 = "GET" ∧ method p2 = "HEAD") then MoreGeneral
  else if bool_decide (method p2 = "GET" ∧ method p1 = "HEAD") then MoreSpecific
  else Disjoint.

Definition compareSegments (s1 s2 : segment) : relationship :=
  match s1, s2 with
  | Wild _, Wild _ => Equivalent
  | Wild _, Lit s => if bool_decide (s = "/") then Disjoint else MoreGeneral
  | Lit s, Wild _ => if bool_decide (s = "/") then Disjoint else MoreSpecific
  | Lit s, Lit t => if bool_decide (s = t) then Equivalent else Disjoint
  end.

Fixpoint comparePaths (l1 l2 : list segment) (rel : relationship) : relationship :=
  match l1, l2 with
  | [], [] => rel
  | s1 :: l1, s2 :: l2 =>
    match combineRelationships rel (compareSegments s1 s2) with
    | Disjoint => Disjoint
    | rel => comparePaths l1 l2 rel
    end
  | _, _ => Disjoint
  end.

Definition comparePathsAndMethods (p1 p2 : pattern) : relationship :=
  match compareMethods p1 p2 with
  | Disjoint => Disjoint
  | m => combineRelationships m (comparePaths (segs p1) (segs p2) Equivalent)
  end.

Definition conflictsWith (p1 p2 : pattern) : bool :=
  match comparePathsAndMethods p1 p2 with Equivalent | Overlaps => true | _ => false end.

(** ** The multiplexer *)

Section Mux.
Context {H : Type}.

Definition ServeMux : Type := list (pattern * H).

Definition Handle (pat : string) (h : H) (mux : ServeMux) : outcome ServeMux :=
  match parsePattern pat with
  | None => Panic "http: invalid pattern"
  | Some p => if existsb (λ q, conflictsWith p q.1) mux then Panic "http: pattern conflicts"
              else Ret (mux ++ [(p, h)])
  end.

Fixpoint matchPath (ps : list segment) (ss : list string) : option (list (string * string)) :=
  match ps, ss with
  | [], [] => Some []
  | Lit l :: ps, s :: ss => if bool_decide (l = s) then matchPath ps ss else None
  | Wild n :: ps, s :: ss => if bool_decide (s = "/") then None else cons (n, s) <$> matchPath ps ss
  | _, _ => None
  end.

(** A pattern without method matches every method, GET also matches HEAD. *)
Definition matchMethod (pm m : string) : bool :=
  bool_decide (pm = m) || bool_decide (pm = "") || bool_decide (pm = "GET") && bool_decide (m = "HEAD").

Fixpoint match_ (mux : ServeMux) (m : string) (ss : list string) : option (H * list (string * string)) :=
  match mux with
  | [] => None
  | (p, h) :: mux =>
    match (if matchMethod (method p) m then matchPath (segs p) ss else None) with
    | Some vs => Some (h, vs)
    | None => match_ mux m ss
    end
  end.

Fixpoint insert_sorted (s : string) (l : list string) : list string :=
  match l with
  | [] => [s]
  | t :: l => if bool_decide (s = t) then t :: l else if String.leb s t then s :: t :: l else t :: insert_sorted s l
  end.

Definition matches (ps : list segment) (ss : list string) : bool :=
  match matchPath ps ss with Some _ => true | None => false end.

Definition matchingMethods (mux : ServeMux) (path : string) : list string :=
  let paths := if last_slash path then [path] else [path; path +:+ "/"] in
  let ms := p ← mux; if existsb (λ q, matches (segs p.1) (segments q)) paths
                     then method p.1 :: (if bool_decide (method p.1 = "GET") then ["HEAD"] else []) else [] in
  foldr insert_sorted [] ms.

Inductive target :=
| Found (h : H) (values : list (string * string))
| Redirect (path : string)
| MethodNotAllowed (Allow : list string)
| NotFound.

Definition findHandler (mux : ServeMux) (m escaped : string) : target :=
  let path := if bool_decide (m = "CONNECT") then escaped else cleanPath escaped in
  let n := match_ mux m (segments path) in
  match n, (if last_slash path then None else match_ mux m (segments (path +:+ "/"))) with
  | None, Some _ => Redirect (path +:+ "/")
  | _, _ =>
    if bool_decide (path ≠ escaped) then Redirect path
    else match n with
         | Some (h, vs) => Found h vs
         | None => match matchingMethods mux path with [] => NotFound | ms => MethodNotAllowed ms end
         end
  end.
End Mux.
Arguments ServeMux : clear implicits.
Arguments target : clear implicits.

(** ** Path cleaning *)

Definition good (s : string) : Prop := s ≠ "" ∧ s ≠ "." ∧ s ≠ ".." ∧ Contains s slash = false.

Lemma clean_step_good acc s : Forall good acc → Contains s slash = false → Forall good (clean_step acc s).
Proof.
  intros Ha Hs. unfold clean_step. case_bool_decide as E1; [done|]. case_bool_decide as E2; [by apply Forall_take|].
  apply Forall_app. split; [done|]. apply Forall_singleton. split_and!; tauto.
Qed.

Lemma Clean_good p : Forall good (Clean p).
Proof.
  unfold Clean. pose proof (Split_parts slash p) as Hp.
  assert (H0 : Forall good []) by constructor. revert H0.
  generalize (@nil string). induction Hp as [|s l Hs Hl IH]; intros acc Ha; simpl; [done|].
  apply IH. by apply clean_step_good.
Qed.

Lemma clean_good_id l acc : Forall good l → fold_left clean_step l acc = acc ++ l.
Proof.
  intros Hl. revert acc. induction Hl as [|s l (H1 & H2 & H3 & _) Hl IH]; intros acc; simpl; [by rewrite app_nil_r|].
  rewrite IH. unfold clean_step. rewrite !bool_decide_eq_false_2 by tauto. by rewrite <-app_assoc.
Qed.

Lemma good_parts l : Forall good l → Forall (λ x, Contains x slash = false) l.
Proof. intros Hl. eapply Forall_impl; [done|]. by intros s (_ & _ & _ & ?). Qed.

Lemma Join_snoc l : l ≠ [] → Join l "/" +:+ "/" = Join (l ++ [""]) "/".
Proof.
  induction l as [|x l IH]; [done|]. intros _. destruct l as [|y l]; [done|].
  change (Join (x :: y :: l) "/") with (x +:+ "/" +:+ Join (y :: l) "/").
  change (Join ((x :: y :: l) ++ [""]) "/") with (x +:+ "/" +:+ Join ((y :: l) ++ [""]) "/").
  rewrite <-IH by done. by rewrite !append_assoc.
Qed.

Lemma split_render l : l ≠ [] → Forall good l → Split slash (render l) = "" :: l.
Proof. intros Hne Hl. unfold render. simpl. f_equal. apply Split_Join; [done|]. by apply good_parts. Qed.

Lemma split_render_slash l : l ≠ [] → Forall good l → Split slash (render l +:+ "/") = "" :: l ++ [""].
Proof.
  intros Hne Hl. change (Split slash (render l +:+ "/")) with ("" :: Split slash (Join l "/" +:+ "/")).
  f_equal. rewrite Join_snoc by done. apply Split_Join; [by destruct l|].
  apply Forall_app. split; [by apply good_parts|by repeat constructor].
Qed.

Lemma good_last l : l ≠ [] → Forall good l → last ("" :: l) ≠ Some "".
Proof.
  intros Hne Hl E. rewrite last_cons in E. destruct (last l) as [s|] eqn:El; [|by apply last_None in El].
  injection E as ->. apply last_Some_elem_of in El. rewrite Forall_forall in Hl. by destruct (Hl "" El).
Qed.

Lemma render_not_root l : l ≠ [] → Forall good l → render l ≠ "/".
Proof. intros Hne Hl E. apply (f_equal (Split slash)) in E. rewrite split_render in E by done. simpl in E.
  injection E as ->. apply Forall_cons in Hl as [[? _] _]. done. Qed.

(** A clean path is left as it is. *)
Lemma cleanPath_render l : Forall good l → cleanPath (render l) = render l.
Proof.
  intros Hl. destruct (decide (l = [])) as [->|Hne]; [reflexivity|].
  change (cleanPath (render l)) with
    (let np := render (Clean (render l)) in
     if last_slash (render l) && bool_decide (np ≠ "/") then np +:+ "/" else np).
  unfold Clean. rewrite split_render by done. cbn [fold_left]. change (clean_step [] "") with (@nil string).
  rewrite clean_good_id by done. cbn zeta. unfold last_slash. rewrite split_render by done.
  rewrite (bool_decide_eq_false_2 (last ("" :: l) = Some "")) by by apply good_last. done.
Qed.

Lemma cleanPath_render_slash l : l ≠ [] → Forall good l → cleanPath (render l +:+ "/") = render l +:+ "/".
Proof.
  intros Hne Hl.
  change (cleanPath (render l +:+ "/")) with
    (let np := render (Clean (render l +:+ "/")) in
     if last_slash (render l +:+ "/") && bool_decide (np ≠ "/") then np +:+ "/" else np).
  unfold Clean, last_slash. rewrite split_render_slash by done. cbn [fold_left]. change (clean_step [] "") with (@nil string).
  rewrite fold_left_app, (clean_good_id l) by done. cbn [fold_left app]. change (clean_step l "") with l. cbn zeta.
  rewrite (bool_decide_eq_true_2 (last _ = _)), (bool_decide_eq_true_2 (render l ≠ "/")), bool_decide_eq_true_2.
  - done.
  - unfold render. done.
  - by apply render_not_root.
  - by rewrite app_comm_cons, last_snoc.
Qed.

(** What [cleanPath] returns. *)
Lemma cleanPath_shape p : ∃ l, Forall good l ∧ (cleanPath p = render l ∨ l ≠ [] ∧ cleanPath p = render l +:+ "/").
Proof.
  destruct p as [|c p]; [exists []; by split; [constructor|left]|].
  set (p' := if Ascii.eqb c slash then String c p else "/" +:+ String c p).
  exists (Clean p'). split; [apply Clean_good|].
  change (cleanPath (String c p)) with
    (let np := render (Clean p') in if last_slash p' && bool_decide (np ≠ "/") then np +:+ "/" else np). cbn zeta.
  destruct (last_slash p'); simpl; [|by left]. case_bool_decide as E; [right|by left]. split; [|done].
  intros E'. apply E. by rewrite E'.
Qed.

(** The redirect of an unclean path ends at once: a cleaned path is clean. *)
Theorem clean_idempotent p : cleanPath (cleanPath p) = cleanPath p.
Proof.
  destruct (cleanPath_shape p) as (l & Hl & [->|[Hne ->]]); [by apply cleanPath_render|by apply cleanPath_render_slash].
Qed.

(** ** Segments *)

Lemma mark_good l : Forall good l → mark l = l.
Proof.
  induction 1 as [|s l [Hs _] Hl IH]; [done|]. destruct l as [|t l]; [|by rewrite <-IH at 2].
  simpl. by rewrite bool_decide_eq_false_2.
Qed.

Lemma mark_slash l : Forall good l → mark (l ++ [""]) = l ++ ["/"].
Proof.
  induction 1 as [|s l Hs Hl IH]; [done|]. destruct l as [|t l]; [done|].
  change (mark ((s :: t :: l) ++ [""])) with (s :: mark ((t :: l) ++ [""])). by rewrite IH.
Qed.

Lemma segments_render l : l ≠ [] → Forall good l → segments (render l) = pathUnescape <$> l.
Proof. intros Hne Hl. unfold segments. rewrite split_render by done. simpl. rewrite drop_0. by rewrite mark_good. Qed.

Lemma segments_render_slash l : l ≠ [] → Forall good l → segments (render l +:+ "/") = (pathUnescape <$> l) ++ ["/"].
Proof.
  intros Hne Hl. unfold segments. rewrite split_render_slash by done. simpl. rewrite drop_0, mark_slash, fmap_app by done. done.
Qed.

Lemma last_slash_render l : l ≠ [] → Forall good l → last_slash (render l) = false.
Proof.
  intros Hne Hl. unfold last_slash. rewrite split_render by done.
  by rewrite (bool_decide_eq_false_2 (last _ = _)) by by apply good_last.
Qed.

End Mux.

Module Routes.
Import Mux Float64 ProductApi Server.

(** ** main's routes *)

Inductive route := GetProductRoute | PostOrdersRoute | MetricsRoute | ReadyRoute | LiveRoute.

#[export] Instance route_eq_dec : EqDecision route.
Proof. solve_decision. Defined.

Definition mux : outcome (ServeMux route) :=
  fold_left (λ o '(pat, r), match o with Ret m => Handle pat r m | Panic e => Panic e end)
    [("GET /products/{id}", GetProductRoute); ("POST /orders", PostOrdersRoute); ("GET /metrics", MetricsRoute);
     ("GET /healthz/ready", ReadyRoute); ("GET /healthz/live", LiveRoute)] (Ret []).

Definition routes : ServeMux route :=
  [(MkPattern "GET" [Lit "products"; Wild "id"], GetProductRoute);
   (MkPattern "POST" [Lit "orders"], PostOrdersRoute);
   (MkPattern "GET" [Lit "metrics"], MetricsRoute);
   (MkPattern "GET" [Lit "healthz"; Lit "ready"], ReadyRoute);
   (MkPattern "GET" [Lit "healthz"; Lit "live"], LiveRoute)].

Lemma mux_routes : mux = Ret routes.
Proof. vm_compute. reflexivity. Qed.

(** The answer to a method on a path of these segments. *)
Definition route_table (m : string) (ss : list string) : target route :=
  let get r vs := if bool_decide (m = "GET" ∨ m = "HEAD") then Found r vs else MethodNotAllowed ["GET"; "HEAD"] in
  match ss with
  | [a] =>
    if bool_decide (a = "orders") then
      if bool_decide (m = "POST") then Found PostOrdersRoute [] else MethodNotAllowed ["POST"]
    else if bool_decide (a = "metrics") then get MetricsRoute []
    else NotFound
  | [a; b] =>
    if bool_decide (a = "products") then
      if bool_decide (b = "/") then NotFound else get GetProductRoute [("id", b)]
    else if bool_decide (a = "healthz" ∧ b = "ready") then get ReadyRoute []
    else if bool_decide (a = "healthz" ∧ b = "live") then get LiveRoute []
    else NotFound
  | _ => NotFound
  end.

(** No route matches a path with a final slash. *)
Lemma matchPath_slash ps ss : Forall (λ s, s ≠ Lit "/") ps → matchPath ps (ss ++ ["/"]) = None.
Proof.
  intros Hps. revert ss. induction Hps as [|s ps Hs _ IH]; intros [|t ss]; try done; simpl.
  - destruct s; [|done]. case_bool_decide; [congruence|done].
  - destruct s as [l|n]; [by case_bool_decide|]. case_bool_decide; [done|]. by rewrite IH.
Qed.

Lemma routes_no_slash : Forall (λ q, Forall (λ s, s ≠ Lit "/") (segs q.1)) routes.
Proof. by repeat constructor. Qed.

Lemma match_slash m ss : match_ routes m (ss ++ ["/"]) = None.
Proof.
  pose proof routes_no_slash as Hr. induction Hr as [|[p h] l Hp _ IH]; simpl; [done|].
  rewrite (matchPath_slash (segs p)) by done. by destruct (matchMethod _ _).
Qed.

(** The methods offered for a path are those of the routes that match it. *)
Lemma matchingMethods_render l : l ≠ [] → Forall good l →
  matchingMethods routes (render l) =
  foldr insert_sorted [] (p ← routes; if matches (segs p.1) (pathUnescape <$> l)
    then Mux.method p.1 :: (if bool_decide (Mux.method p.1 = "GET") then ["HEAD"] else []) else []).
Proof.
  intros Hne Hl. unfold matchingMethods. rewrite last_slash_render by done. f_equal.
  pose proof routes_no_slash as Hr. induction Hr as [|p ps Hp _ IH]; [done|]. rewrite !bind_cons, IH. f_equal.
  cbn [existsb]. rewrite segments_render, segments_render_slash by done.
  assert (matches (segs p.1) ((pathUnescape <$> l) ++ ["/"]) = false) as ->.
  { unfold matches. by rewrite (matchPath_slash (segs p.1)). }
  by rewrite !orb_false_r.
Qed.

Lemma findHandler_clean m l : m ≠ "CONNECT" → l ≠ [] → Forall good l →
  findHandler routes m (render l) =
  match match_ routes m (pathUnescape <$> l) with
  | Some (h, vs) => Found h vs
  | None => match matchingMethods routes (render l) with [] => NotFound | ms => MethodNotAllowed ms end
  end.
Proof.
  intros Hm Hne Hl. unfold findHandler. rewrite bool_decide_eq_false_2 by done. cbn zeta.
  rewrite cleanPath_render, last_slash_render, segments_render, segments_render_slash, match_slash by done.
  rewrite (bool_decide_eq_false_2 (render l ≠ render l)) by (intros E; by apply E).
  by destruct (match_ _ _ _) as [[]|].
Qed.

Lemma route_table_ok m ss :
  match match_ routes m ss with
  | Some (h, vs) => Found h vs
  | None =>
    match foldr insert_sorted [] (p ← routes; if matches (segs p.1) ss
      then Mux.method p.1 :: (if bool_decide (Mux.method p.1 = "GET") then ["HEAD"] else []) else []) with
    | [] => NotFound
    | ms => MethodNotAllowed ms
    end
  end = route_table m ss.
Proof.
  unfold route_table, routes.
  assert (Hget : matchMethod "GET" m = bool_decide (m = "GET" ∨ m = "HEAD")).
  { unfold matchMethod. repeat case_bool_decide; try done; naive_solver. }
  assert (Hpost : matchMethod "POST" m = bool_decide (m = "POST")).
  { unfold matchMethod. repeat case_bool_decide; try done; naive_solver. }
  assert (Hm4 : ∀ P : bool → bool → Prop, P true true → P true false → P false true → P false false →
    P (bool_decide (m = "GET" ∨ m = "HEAD")) (bool_decide (m = "POST"))) by (intros P ????; by repeat case_bool_decide).
  unfold matches.
  destruct ss as [|a [|b [|c ss]]]; cbn [match_ matchPath segs Mux.method mbind list_bind fst]; rewrite Hget, Hpost.
  - by apply Hm4.
  - destruct (decide (a = "orders")) as [->|Ho]; [by apply Hm4|]. destruct (decide (a = "metrics")) as [->|Hme]; [by apply Hm4|].
    rewrite (bool_decide_eq_false_2 ("orders" = a)), (bool_decide_eq_false_2 ("metrics" = a)),
      (bool_decide_eq_false_2 (a = _)), (bool_decide_eq_false_2 (a = _)) by done.
    destruct (bool_decide ("products" = a)), (bool_decide ("healthz" = a)); by apply Hm4.
  - destruct (decide (a = "products")) as [->|Hp].
    { destruct (decide (b = "/")) as [->|Hb]; [by apply Hm4|].
      rewrite !(bool_decide_eq_false_2 (b = "/")) by done. by apply Hm4. }
    rewrite (bool_decide_eq_false_2 ("products" = a)), (bool_decide_eq_false_2 (a = "products")) by done.
    destruct (decide (a = "healthz")) as [->|Hh].
    { destruct (decide (b = "ready")) as [->|Hb1]; [by apply Hm4|]. destruct (decide (b = "live")) as [->|Hb2]; [by apply Hm4|].
      rewrite (bool_decide_eq_false_2 ("ready" = b)), (bool_decide_eq_false_2 ("live" = b)), !(bool_decide_eq_false_2 (_ ∧ _))
        by naive_solver. destruct (bool_decide ("orders" = "healthz")), (bool_decide ("metrics" = "healthz")); by apply Hm4. }
    rewrite (bool_decide_eq_false_2 ("healthz" = a)), !(bool_decide_eq_false_2 (_ ∧ _)) by naive_solver.
    destruct (bool_decide ("orders" = a)), (bool_decide ("metrics" = a)); by apply Hm4.
  - assert (Hif : ∀ (x : bool) T, (if x then @None T else None) = None) by by intros [].
    change (cons ("id", b) <$> None) with (@None (list (string * string))). rewrite !Hif. done.
Qed.

(** C32: Routing.  The five registrations succeed; a request with a clean path of at least
    one segment goes to the route its segments (percent-decoded) name, GET routes also
    taking HEAD; with another method it is answered 405 with the methods of that path, on
    any other path 404. *)
Theorem routes_spec m l : m ≠ "CONNECT" → l ≠ [] → Forall good l →
  mux = Ret routes ∧ findHandler routes m (render l) = route_table m (pathUnescape <$> l).
Proof.
  intros Hm Hne Hl. split; [apply mux_routes|]. rewrite findHandler_clean, matchingMethods_render by done.
  apply route_table_ok.
Qed.

(** ** A request through the server *)

Fixpoint PathValue (vs : list (string * string)) (name : string) : string :=
  match vs with [] => "" | (k, v) :: vs => if bool_decide (k = name) then v else PathValue vs name end.

Section Serve.
Context (ctx_Err : world → option error) (contextSleep : Duration → world → world * option error)
  (rand_N : Duration → world → world * Duration) (Pow : float64 → float64 → float64) (oob : float64 → Z).
(** The length of a JSON text, the decoded body of a request, its path as sent, the
    handler of the metrics library, and the renderings of net/http. *)
Context (size : response → Z) (report_size : Health.Report → Z) (redirect_size : string → Z)
  (decode : Http.Request → option OrderEvent) (EscapedPath : Http.Request → string)
  (metrics : Http.Request → Http.run) (location : string → string)
  (err_text : error → string) (order : list nat).

Notation GET := (GET_product ctx_Err contextSleep rand_N Pow oob).

(** [Group.handler] on the writer. *)
Definition health_events (r : Z * Health.Report) : list Http.event :=
  Http.SetHeader "Content-Type" "application/json" ::
  (if Health.R_Healthy r.2 then [] else [Http.WriteHeader 503]) ++ [Http.Write (report_size r.2)].

Definition run_route (t : route) (vs : list (string * string)) (r : Http.Request) (w : world) : world * Http.run :=
  match t with
  | GetProductRoute =>
    match GET (PathValue vs "id") w with
    | (w, Ret resp) => (w, (response_events size resp, Ret tt))
    | (w, Panic m) => (w, ([], Panic m))
    end
  | PostOrdersRoute => let '(w, resp) := POST_orders (decode r) w in (w, (response_events size resp, Ret tt))
  | MetricsRoute => (w, metrics r)
  | ReadyRoute => let '(w, rep) := ready err_text order w in (w, (health_events rep, Ret tt))
  | LiveRoute =>
    (w, (health_events (Health.LiveHandler (λ c, (run_checker c w).2) err_text order healthGroup), Ret tt))
  end.

(** [http.Redirect] with status 301. *)
Definition redirect (m p : string) : list Http.event :=
  Http.SetHeader "Location" (location p) ::
  (if bool_decide (m = "GET" ∨ m = "HEAD") then [Http.SetHeader "Content-Type" "text/html; charset=utf-8"] else []) ++
  Http.WriteHeader 301 :: (if bool_decide (m = "GET") then [Http.Write (redirect_size p)] else []).

(** A request for [*], as sent with OPTIONS, is refused (over HTTP/1.1 with a Connection header);
    its path is [*], and no other request's is. *)
Definition ServeHTTP (r : Http.Request) (w : world) : world * Http.run :=
  if bool_decide (EscapedPath r = "*") then (w, ([Http.SetHeader "Connection" "close"; Http.WriteHeader 400], Ret tt)) else
  match findHandler routes (Http.Method r) (EscapedPath r) with
  | Found t vs => run_route t vs r w
  | Redirect p => (w, (redirect (Http.Method r) p, Ret tt))
  | MethodNotAllowed ms =>
    (w, (Http.SetHeader "Allow" (Join ms ", ") :: Http.http_Error "Method Not Allowed" 405, Ret tt))
  | NotFound => (w, (Http.http_Error "404 page not found" 404, Ret tt))
  end.

(** What the server answers with when the limiter lets a request pass. *)
Definition answer (r : Http.Request) (w : world) : Z :=
  if bool_decide (EscapedPath r = "*") then 400 else
  match findHandler routes (Http.Method r) (EscapedPath r) with
  | Found GetProductRoute vs =>
    match (GET (PathValue vs "id") w).2 with Ret (RError _ code) => code | _ => 200 end
  | Found PostOrdersRoute _ => match decode r with Some _ => 202 | None => 400 end
  | Found MetricsRoute _ => Http.wire_status (metrics r).1
  | Found ReadyRoute _ => (ready err_text order w).2.1
  | Found LiveRoute _ => 200
  | Redirect _ => 301
  | MethodNotAllowed _ => 405
  | NotFound => 404
  end.

Lemma GET_answer id w : ∃ w' resp, GET id w = (w', Ret resp) ∧
  match resp with RProduct _ => True | RError _ code => code = 404 ∨ code = 500 | RAccepted => False end.
Proof.
  rewrite GET_eq. destruct (Retry.Do_loop _ _ _ _ _ _ _ _) as [w' [p [e|]]]; eexists _, _; (split; [done|]);
    unfold get_response; simpl; [|done]. destruct (existsb _ _); auto.
Qed.

Lemma health_wire (r : Z * Health.Report) : Middleware.plain (health_events r) = true ∧
  Http.wire_status (health_events r) = if Health.R_Healthy r.2 then 200 else 503.
Proof. unfold health_events. by destruct (Health.R_Healthy r.2). Qed.

Lemma ready_code w : (ready err_text order w).2.1 = if Health.R_Healthy (ready err_text order w).2.2 then 200 else 503.
Proof. done. Qed.

Lemma live_healthy w :
  Health.R_Healthy (Health.LiveHandler (λ c, (run_checker c w).2) err_text order healthGroup).2 = true.
Proof.
  unfold Health.LiveHandler, Health.handler, Health.Check. simpl.
  match goal with |- context [fold_left (Health.finish ?f ?g ?cs) order ?l] =>
    assert (fold_left (Health.finish f g cs) order l = []) as -> by
      (apply nil_length_inv; by rewrite Health.fold_finish_length) end.
  done.
Qed.

(** The mux on its own. *)
Lemma ServeHTTP_answer r w : Middleware.plain (metrics r).1 = true → (metrics r).2 = Ret tt →
  Middleware.plain (ServeHTTP r w).2.1 = true ∧ (ServeHTTP r w).2.2 = Ret tt ∧
  Http.wire_status (ServeHTTP r w).2.1 = answer r w.
Proof.
  intros Hmp Hmo. unfold ServeHTTP, answer. case_bool_decide; [done|]. destruct (findHandler _ _ _) as [t vs|p|ms|]; [destruct t| | |]; simpl.
  - destruct (GET_answer (PathValue vs "id") w) as (w' & resp & -> & Hr). simpl.
    destruct resp as [msg code| |]; [destruct Hr as [-> | ->]; done|done|done].
  - by destruct (decode r).
  - done.
  - destruct (health_wire (ready err_text order w).2) as [Hp Hw]. split_and!; [exact Hp|done|].
    exact Hw.
  - match goal with |- context [health_events ?x] => destruct (health_wire x) as [Hp Hw] end.
    rewrite live_healthy in Hw. done.
  - unfold redirect. repeat case_bool_decide; done.
  - done.
  - done.
Qed.

(** The server's handler: the middleware around the mux. *)
Definition serve (rnd : Http.Request → list Z) (now : Time) (lim : RateLimit.KeyedLimiter string) (w : world) : Http.Handler :=
  http_handler rnd now lim (λ r, (ServeHTTP r w).2).

(** [r.WithContext] leaves the body, the URL and what the metrics handler reads alone. *)
Record shallow : Prop := {
  sh_decode c r : decode (Http.WithContext c r) = decode r;
  sh_path c r : EscapedPath (Http.WithContext c r) = EscapedPath r;
  sh_metrics c r : metrics (Http.WithContext c r) = metrics r;
  sh_plain r : Middleware.plain (metrics r).1 = true;
  sh_ok r : (metrics r).2 = Ret tt
}.

Lemma answer_context c r w : shallow → answer (Http.WithContext c r) w = answer r w.
Proof. intros [H1 H2 H3 _ _]. unfold answer. by rewrite H2, H1, H3. Qed.

Lemma serve_status rnd now lim w r : shallow →
  (serve rnd now lim w r).2 = Ret tt ∧
  Http.wire_status (serve rnd now lim w r).1 =
    if (RateLimit.Keyed_Allow now (Http.RemoteAddr r) lim).2 then answer r w else 429.
Proof.
  intros Hsh. pose proof (stack_status rnd now lim (λ r, (ServeHTTP r w).2) r) as Hs. unfold serve.
  destruct (http_handler _ _ _ _ _) as [evs o]. destruct Hs as [Ho Hst].
  { intros r'. by apply ServeHTTP_answer; apply Hsh. }
  split; [done|]. simpl. rewrite Hst. destruct (RateLimit.Keyed_Allow _ _ _).2; [|done].
  match goal with |- context [ServeHTTP ?q w] => set (r' := q) end.
  destruct (ServeHTTP_answer r' w) as (_ & Hok & Ha); [apply Hsh..|].
  destruct (ServeHTTP r' w) as [w' [mevs mo]]. simpl in *. rewrite Hok, Ha. by apply answer_context.
Qed.

(** A request through the whole HTTP server.  No panic escapes, and the status the
    client receives is 429 over the rate and otherwise the one of its route: the product,
    404 or 500 for a product, 202 or 400 for an order, the report's for a readiness probe,
    200 for a liveness probe, the library's for the metrics, 301 for a path that is
    not clean, 400 for [*], 405 for a wrong method and 404 for any other path. *)
Theorem request_status rnd now lim w r : shallow →
  (serve rnd now lim w r).2 = Ret tt ∧
  Http.wire_status (serve rnd now lim w r).1 =
    if (RateLimit.Keyed_Allow now (Http.RemoteAddr r) lim).2 then
      if bool_decide (EscapedPath r = "*") then 400 else
      match findHandler routes (Http.Method r) (EscapedPath r) with
      | Found GetProductRoute vs =>
        match (GET (PathValue vs "id") w).2 with Ret (RError _ code) => code | _ => 200 end
      | Found PostOrdersRoute _ => match decode r with Some _ => 202 | None => 400 end
      | Found MetricsRoute _ => Http.wire_status (metrics r).1
      | Found ReadyRoute _ => (ready err_text order w).2.1
      | Found LiveRoute _ => 200
      | Redirect _ => 301
      | MethodNotAllowed _ => 405
      | NotFound => 404
      end
    else 429.
Proof. apply serve_status. Qed.

(** The path of a product of the catalogue is clean and leads to its route. *)
Lemma product_route p : p ∈ sampleProducts →
  findHandler routes "GET" ("/products/" +:+ ID p) = Found GetProductRoute [("id", ID p)].
Proof.
  intros Hp. unfold sampleProducts in Hp. rewrite !elem_of_cons, elem_of_nil in Hp.
  destruct_or?; subst; vm_compute; reflexivity.
Qed.

(** What the handler returns goes out as 200. *)
Lemma product_answer rnd now lim w p r : shallow → p ∈ sampleProducts →
  (GET (ID p) w).2 = Ret (RProduct p) ∧ breaker (GET (ID p) w).1 = breaker w →
  Http.Method r = "GET" → EscapedPath r = "/products/" +:+ ID p →
  (RateLimit.Keyed_Allow now (Http.RemoteAddr r) lim).2 = true →
  Http.wire_status (serve rnd now lim w r).1 = 200 ∧
  (ServeHTTP r w).2 = (response_events size (RProduct p), Ret tt) ∧
  breaker (ServeHTTP r w).1 = breaker w.
Proof.
  intros Hsh Hp Hav Hm Hpath Hlim. destruct (serve_status rnd now lim w r Hsh) as [_ ->]. rewrite Hlim.
  unfold answer, ServeHTTP. rewrite Hm, Hpath, product_route, (bool_decide_eq_false_2 ("/products/" +:+ ID p = "*")) by done. simpl.
  destruct (GET (ID p) w) as [w' o]. destruct Hav as [Hget Hbr]. simpl in *. by rewrite Hget.
Qed.

(** The catalogue over the wire.  GET /products/{id} for a product of the catalogue
    that passes the rate limiter is answered 200 with that product, within five minutes of
    a warm-up and whatever requests and jobs ran before, without consulting or changing
    the circuit breaker. *)
Theorem product_over_http Sprint rnd now lim clk rn w0 os1 os2 p r : shallow →
  (∀ d w, ext w (contextSleep d w).1) → (∀ n w, ext w (rand_N n w).1) → start clk rn = Ret w0 →
  monotonic clk → p ∈ sampleProducts →
  let run := run_ops ctx_Err contextSleep rand_N Pow oob Sprint in
  let w1 := run os1 w0 in let w2 := run os2 (warmup w1) in
  clk (reads w2) ≤ clk (reads w1) + 5 * Minute → ctx_Err w2 = None →
  Http.Method r = "GET" → EscapedPath r = "/products/" +:+ ID p →
  (RateLimit.Keyed_Allow now (Http.RemoteAddr r) lim).2 = true →
  Http.wire_status (serve rnd now lim w2 r).1 = 200 ∧
  (ServeHTTP r w2).2 = (response_events size (RProduct p), Ret tt) ∧
  breaker (ServeHTTP r w2).1 = breaker w2.
Proof.
  intros Hsh Hsl Hra Hst Hmo Hp run w1 w2 Hd Hctx Hm Hpath Hlim.
  apply product_answer; try done. by apply (product_available ctx_Err contextSleep rand_N Pow oob Sprint clk rn w0 os1 os2 p).
Qed.

Lemma rw_run_total m p c evs rw : Http.RequestsTotal m p c ∈ evs → Http.RequestsTotal m p c ∈ (Middleware.rw_run rw evs).2.
Proof.
  revert rw. induction evs as [|e evs IH]; intros rw; rewrite ?elem_of_nil, ?elem_of_cons; [done|]. simpl.
  intros [<-|Hin]; simpl.
  - destruct (Middleware.rw_run rw evs) as [? out]. simpl. left.
  - destruct (Middleware.rw_step rw e) as [rw1 out1]. specialize (IH rw1 Hin).
    destruct (Middleware.rw_run rw1 evs). simpl in *. apply elem_of_app. by right.
Qed.

(** The request counter is labelled with the raw path, for every request: the Timeout
    middleware hands the mux a copy of the request, so the pattern the mux records never
    reaches the metrics middleware around it. *)
Theorem metrics_raw_path rnd now lim w r : shallow → Http.Pattern r = "" →
  ∃ code, Http.RequestsTotal (Http.Method r) (Http.Path r) code ∈ (serve rnd now lim w r).1.
Proof.
  intros Hsh Hpat. unfold serve, http_handler, Middleware.Apply, Middleware.Chain.
  cbn [length Middleware.Chain_loop lookup list_lookup]. unfold Middleware.RequestID.
  set (r1 := Http.WithContext _ r). set (h := Middleware.Timeout _ _).
  assert (Hh : (h r1).2 = Ret tt).
  { unfold h, Middleware.Timeout, Middleware.RateLimit. destruct (negb _); [done|]. by apply ServeHTTP_answer; apply Hsh. }
  destruct (h r1) as [evs o] eqn:E. simpl in Hh. subst o.
  unfold Middleware.Logging, Middleware.Recovery, Middleware.HTTPMetrics_Middleware. rewrite E.
  destruct (Middleware.rw_run Middleware.wrapResponseWriter evs) as [wr out] eqn:Er.
  change (Http.Pattern r1) with (Http.Pattern r). rewrite Hpat, bool_decide_eq_true_2 by done.
  change (Http.Method r1) with (Http.Method r). change (Http.Path r1) with (Http.Path r).
  exists (Middleware.status wr).
  match goal with |- context [Middleware.rw_run ?rw ?l] =>
    pose proof (rw_run_total (Http.Method r) (Http.Path r) (Middleware.status wr) l rw) as Hin;
    destruct (Middleware.rw_run rw l) as [wr2 out2] end.
  simpl in *. right. apply elem_of_app. left. apply Hin. set_solver.
Qed.
End Serve.

(** ** Witnesses *)

Definition demo_escaped (r : Http.Request) : string := Http.Path r.
Definition demo_metrics (r : Http.Request) : Http.run := ([Http.Write 5], Ret tt).

Lemma demo_shallow : shallow (λ _, None) demo_escaped demo_metrics.
Proof. by split. Qed.

Lemma routes_spec_witness : findHandler routes "DELETE" "/products/a%20b" = MethodNotAllowed ["GET"; "HEAD"] ∧
  findHandler routes "HEAD" "/products/a%20b" = Found GetProductRoute [("id", "a b")].
Proof.
  assert (Hg : Forall good ["products"; "a%20b"]) by by repeat constructor.
  split.
  - destruct (routes_spec "DELETE" ["products"; "a%20b"]) as [_ Hs]; [done|done|done|]. exact Hs.
  - destruct (routes_spec "HEAD" ["products"; "a%20b"]) as [_ Hs]; [done|done|done|]. exact Hs.
Defined.

Definition demo_serve : world → Http.Handler :=
  serve (λ _, None) (λ _ w, (w, None)) (λ n w, (w, n - 1)) (λ _ y, y) (λ _, 0) (λ _, 20) (λ _, 10) (λ _, 30)
    (λ _, None) demo_escaped demo_metrics (λ p, p) (λ _, "") [0; 1]%nat (λ _, [1; 2; 3; 4; 5; 6; 7; 8]) 0 ipLimiter.

Lemma request_status_witness :
  Http.wire_status (demo_serve demo_start (Http.MkRequest "GET" "/products//p1" "" ∅ ∅ "10.0.0.1:4242" (Http.Ctx None None []))).1
  = 301.
Proof.
  destruct (request_status (λ _, None) (λ _ w, (w, None)) (λ n w, (w, n - 1)) (λ _ y, y) (λ _, 0) (λ _, 20) (λ _, 10) (λ _, 30)
    (λ _, None) demo_escaped demo_metrics (λ p, p) (λ _, "") [0; 1]%nat (λ _, [1; 2; 3; 4; 5; 6; 7; 8]) 0 ipLimiter demo_start
    (Http.MkRequest "GET" "/products//p1" "" ∅ ∅ "10.0.0.1:4242" (Http.Ctx None None [])) demo_shallow) as [_ Hs].
  etrans; [exact Hs|]. vm_compute. reflexivity.
Defined.

Lemma product_over_http_witness :
  Http.wire_status (demo_serve (warmup demo_start) (Http.MkRequest "GET" "/products/p3" "" ∅ ∅ "10.0.0.1:4242" (Http.Ctx None None []))).1
  = 200.
Proof.
  apply (product_over_http (λ _, None) (λ _ w, (w, None)) (λ n w, (w, n - 1)) (λ _ y, y) (λ _, 0) (λ _, 20) (λ _, 10) (λ _, 30)
    (λ _, None) demo_escaped demo_metrics (λ p, p) (λ _, "") [0; 1]%nat (λ _, "1") (λ _, [1; 2; 3; 4; 5; 6; 7; 8]) 0 ipLimiter
    demo_clock (λ _, false) demo_start [] [] (MkProduct "p3" "4K Monitor" (cents 39999))
    (Http.MkRequest "GET" "/products/p3" "" ∅ ∅ "10.0.0.1:4242" (Http.Ctx None None []))).
  - apply demo_shallow.
  - reflexivity.
  - reflexivity.
  - reflexivity.
  - apply demo_monotonic.
  - right. right. left.
  - vm_compute. discriminate.
  - reflexivity.
  - reflexivity.
  - reflexivity.
  - vm_compute. reflexivity.
Defined.

Lemma metrics_raw_path_witness : ∃ code,
  Http.RequestsTotal "GET" "/products/p3" code ∈
    (demo_serve demo_start (Http.MkRequest "GET" "/products/p3" "" ∅ ∅ "10.0.0.1:4242" (Http.Ctx None None []))).1.
Proof.
  apply (metrics_raw_path (λ _, None) (λ _ w, (w, None)) (λ n w, (w, n - 1)) (λ _ y, y) (λ _, 0) (λ _, 20) (λ _, 10) (λ _, 30)
    (λ _, None) demo_escaped demo_metrics (λ p, p) (λ _, "") [0; 1]%nat (λ _, [1; 2; 3; 4; 5; 6; 7; 8]) 0 ipLimiter demo_start
    (Http.MkRequest "GET" "/products/p3" "" ∅ ∅ "10.0.0.1:4242" (Http.Ctx None None [])) demo_shallow eq_refl).
Defined.
End Routes.
