(* ===== verification/Config.v ===== *)
(** * pkg/config: configuration from the environment

    The process environment is a map; a [.env] file is the list of its lines as the
    scanner returns them.  A struct is the tree of its fields with their tags, types
    and current values; the fields are exported, since reflection panics when it sets
    others.  [time.ParseDuration], [url.Parse], [net.ParseIP] and [strconv.ParseFloat]
    are parameters; [ParseInt], [ParseUint] and [ParseBool] are modelled. *)

From Stdlib Require Import Ascii.
From S2P Require Import Prelude GoLang Strings Float64.
Open Scope Z_scope.

Module Config.
Import Strings Float64.

Notation environ := (gmap string string) (only parsing).
Definition LookupEnv (env : environ) (k : string) : option string := env !! k.

(** [os.Setenv] refuses an empty key and zero bytes; a key from the file has no [=]. *)
Definition nul : ascii := ascii_of_nat 0.
Definition Setenv (env : environ) (k v : string) : environ :=
  if bool_decide (k = "") || Contains k nul || Contains v nul then env else <[k := v]> env.

(** ** The .env file *)

(** [strings.Cut(line, "=")] *)
Fixpoint Cut (sep : ascii) (s : string) : option (string * string) :=
  match s with
  | EmptyString => None
  | String c s => if Ascii.eqb c sep then Some ("", s)
                  else match Cut sep s with Some (a, b) => Some (String c a, b) | None => None end
  end.

Fixpoint trim_left (cut : ascii → bool) (s : string) : string :=
  match s with String c s' => if cut c then trim_left cut s' else s | EmptyString => "" end.

(** [strings.Trim] with a set of bytes. *)
Definition Trim (cut : ascii → bool) (s : string) : string :=
  reverse (trim_left cut (reverse (trim_left cut s))).

(** Single and double quotes. *)
Definition quotes (c : ascii) : bool := (Ascii.eqb c (byte 34) || Ascii.eqb c (byte 39)).

(** The variable a line defines, if any. *)
Definition parse_line (line : string) : option (string * string) :=
  let line := TrimSpace line in
  if bool_decide (line = "") || HasPrefix line "#" then None
  else match Cut "="%char line with
       | None => None
       | Some (key, val) => Some (TrimSpace key, Trim quotes (TrimSpace val))
       end.

Definition load_line (env : environ) (line : string) : environ :=
  match parse_line line with
  | None => env
  | Some (key, val) => match LookupEnv env key with Some _ => env | None => Setenv env key val end
  end.

(** [os.ErrNotExist] *)
Definition ErrNotExist_id : positive := 70.

(** A file: why it cannot be opened, or its lines and how the scan ended. *)
Definition file : Type := error + (list string * option error).

Definition loadEnvFile (f : file) (env : environ) : environ * option error :=
  match f with
  | inl err => (env, Some err)
  | inr (lines, err) => (fold_left load_line lines env, err)
  end.

(** ** Field types and values *)

Inductive ftype :=
| TDuration | TURL | TIP | TStrings | TString | TBool
| TInt (bits : Z) | TUint (bits : Z) | TFloat (bits : Z)
| TPtr (t : ftype) | TOther (name : string).

Definition splitTrimmed (s : string) (sep : ascii) : list string :=
  filter (λ p, p ≠ "") (TrimSpace <$> Split sep s).

(** Decimal digits, the most significant first. *)
Definition digit (c : ascii) : option Z :=
  let n := Z.of_nat (nat_of_ascii c) - 48 in if (0 <=? n) && (n <=? 9) then Some n else None.
Fixpoint digits (acc : Z) (s : string) : option Z :=
  match s with
  | EmptyString => Some acc
  | String c s => d ← digit c; digits (acc * 10 + d) s
  end.
Definition magnitude (s : string) : option Z := if bool_decide (s = "") then None else digits 0 s.

(** [strconv.ParseUint(s, 10, bits)] and [strconv.ParseInt(s, 10, bits)] *)
Definition ParseUint (s : string) (bits : Z) : option Z :=
  n ← magnitude s; if n <? 2 ^ bits then Some n else None.
Definition ParseInt (s : string) (bits : Z) : option Z :=
  match s with
  | String "-" s => n ← magnitude s; if n <=? 2 ^ (bits - 1) then Some (- n) else None
  | String "+" s | s => n ← magnitude s; if n <? 2 ^ (bits - 1) then Some n else None
  end.

Definition ParseBool (s : string) : option bool :=
  if bool_decide (s ∈ ["1"; "t"; "T"; "true"; "TRUE"; "True"]) then Some true
  else if bool_decide (s ∈ ["0"; "f"; "F"; "false"; "FALSE"; "False"]) then Some false
  else None.

Section Load.
Context {URL IP : Type}.
Context (ParseDuration : string → error + Duration) (ParseURL : string → error + URL)
  (ParseIP : string → option IP) (ParseFloat : string → Z → option float64).

Inductive value :=
| VDuration (d : Duration) | VURL (u : URL) | VIP (i : option IP) | VStrings (l : list string)
| VString (s : string) | VBool (b : bool) | VInt (n : Z) | VFloat (f : float64)
| VPtr (v : option value) | VOther.

Fixpoint setField (ft : ftype) (raw : string) : error + value :=
  match ft with
  | TPtr t => match setField t raw with inl err => inl err | inr v => inr (VPtr (Some v)) end
  | TDuration =>
    match ParseDuration raw with
    | inl err => inl (ErrWrap "invalid duration %q: %w" [raw] err) | inr d => inr (VDuration d) end
  | TURL =>
    match ParseURL raw with
    | inl err => inl (ErrWrap "invalid URL %q: %w" [raw] err) | inr u => inr (VURL u) end
  | TIP => match ParseIP raw with None => inl (ErrFmt "invalid IP %q" [raw]) | Some ip => inr (VIP (Some ip)) end
  | TStrings => inr (VStrings (splitTrimmed raw ","%char))
  | TString => inr (VString raw)
  | TBool => match ParseBool raw with None => inl (ErrFmt "invalid bool %q" [raw]) | Some b => inr (VBool b) end
  | TInt bits => match ParseInt raw bits with None => inl (ErrFmt "invalid int %q" [raw]) | Some n => inr (VInt n) end
  | TUint bits => match ParseUint raw bits with None => inl (ErrFmt "invalid uint %q" [raw]) | Some n => inr (VInt n) end
  | TFloat bits => match ParseFloat raw bits with None => inl (ErrFmt "invalid float %q" [raw]) | Some f => inr (VFloat f) end
  | TOther name => inl (ErrFmt "unsupported type %s" [name])
  end.

Record tags := Tags { t_env : string; t_default : string; t_required : string }.

(** Fields: a value of some type, or a nested struct. *)
Inductive node := Leaf (t : ftype) (v : value) | Struct (name : string) (fields : list (tags * node)).

(** The messages of [parseStruct], with the parts they are made of. *)
Inductive failure := Missing (var : string) | Invalid (var : string) (err : error) | Nested (errs : list failure).

(** The text a tagged field is set from: the variable when it is set and not empty, else
    the default. *)
Definition raw_for (env : environ) (g : tags) : option string :=
  match LookupEnv env (t_env g) with
  | Some raw => if bool_decide (raw = "") then
                  if bool_decide (t_default g = "") then None else Some (t_default g)
                else Some raw
  | None => if bool_decide (t_default g = "") then None else Some (t_default g)
  end.

Definition set_node (n : node) (raw : string) : error + node :=
  match n with
  | Leaf t _ => match setField t raw with inl err => inl err | inr v => inr (Leaf t v) end
  | Struct name _ => inl (ErrFmt "unsupported type %s" [name])
  end.

(** One field of [parseStruct]: its new value and the messages it adds. *)
Definition parse_field (env : environ) (rec : node → node * list failure) (x : tags * node)
    : (tags * node) * list failure :=
  let '(g, n) := x in
  match n, bool_decide (t_env g = "") with
  | Struct _ _, true => let '(n', errs) := rec n in ((g, n'), if bool_decide (length errs = 0%nat) then [] else [Nested errs])
  | _, true => ((g, n), [])
  | _, false =>
    match raw_for env g with
    | None => ((g, n), if bool_decide (t_required g = "true") then [Missing (t_env g)] else [])
    | Some raw =>
      match set_node n raw with
      | inl err => ((g, n), [Invalid (t_env g) err])
      | inr n' => ((g, n'), [])
      end
    end
  end.

(** The struct after the call and the collected messages; no messages is nil. *)
Fixpoint parseStruct (env : environ) (n : node) : node * list failure :=
  match n with
  | Leaf _ _ => (n, [])
  | Struct name fs =>
    let rs := map (parse_field env (parseStruct env)) fs in
    (Struct name (map fst rs), concat (map snd rs))
  end.

Record options := Options { envFile : string }.
Definition Option_ : Type := options → options.
Definition WithEnvFile (path : string) : Option_ := λ _, Options path.

(** What [Load] is given: a non-nil pointer to a struct, or something else. *)
Inductive target := TStruct (n : node) | TBad.

Inductive load_error := EnvFile (e : error) | BadTarget | Fields (errs : list failure).

Definition load_target (dst : target) (env : environ) : environ * target * option load_error :=
  match dst with
  | TBad => (env, dst, Some BadTarget)
  | TStruct n => let '(n', errs) := parseStruct env n in
                 (env, TStruct n', if bool_decide (length errs = 0%nat) then None else Some (Fields errs))
  end.

(** [open] is the file system. *)
Definition Load (open : string → file) (dst : target) (opts : list Option_) (env : environ)
    : environ * target * option load_error :=
  let cfg := fold_left (λ c o, o c) opts (Options "") in
  let '(env, err) := if bool_decide (envFile cfg = "") then (env, None) else loadEnvFile (open (envFile cfg)) env in
  match err with
  | Some e =>
    if negb (errors_Is (Some e) ErrNotExist_id)
    then (env, dst, Some (EnvFile (ErrWrap "config: load env file %q: %w" [envFile cfg] e)))
    else load_target dst env
  | None => load_target dst env
  end.

Definition MustLoad (open : string → file) (dst : target) (opts : list Option_) (env : environ)
    : environ * target * outcome unit :=
  match Load open dst opts env with
  | (env, dst, Some _) => (env, dst, Panic "config")
  | (env, dst, None) => (env, dst, Ret tt)
  end.

(** ** Specification *)

(** The first line that can define [k]. *)
Definition defines (k : string) (line : string) : option string :=
  match parse_line line with
  | Some (k', v) => if bool_decide (k' = k) && negb (bool_decide (k = "") || Contains k nul || Contains v nul)
                    then Some v else None
  | None => None
  end.
Definition first_definition (k : string) (lines : list string) : option string := head (omap (defines k) lines).

(** The fields that are not descended into, at every depth, in order. *)
Definition descend (x : tags * node) : bool :=
  match x.2 with Struct _ _ => bool_decide (t_env x.1 = "") | Leaf _ _ => false end.
Fixpoint leaves (n : node) : list (tags * node) :=
  match n with
  | Leaf _ _ => []
  | Struct _ fs => flat_map (λ x, if descend x then leaves x.2 else [x]) fs
  end.

(** A field after the call: set when it has a text that parses, else as it was. *)
Definition loaded (env : environ) (x : tags * node) : tags * node :=
  if bool_decide (t_env x.1 = "") then x
  else match raw_for env x.1 with
       | None => x
       | Some raw => match set_node x.2 raw with inr n => (x.1, n) | inl _ => x end
       end.

(** A field that is in order: not tagged, set from a text that parses, or without a text
    and not required. *)
Definition field_ok (env : environ) (x : tags * node) : Prop :=
  t_env x.1 = "" ∨
  match raw_for env x.1 with
  | None => t_required x.1 ≠ "true"
  | Some raw => ∃ n, set_node x.2 raw = inr n
  end.

(** ** Lemmas *)

Lemma load_line_lookup env line k :
  load_line env line !! k = match env !! k with Some v => Some v | None => defines k line end.
Proof.
  unfold load_line, defines, LookupEnv, Setenv. destruct (parse_line line) as [[k' v]|]; [|by destruct (env !! k)].
  destruct (decide (k' = k)) as [->|Hne].
  - rewrite (bool_decide_eq_true_2 (k = k)) by done. simpl. destruct (env !! k) as [u|] eqn:E; [done|].
    destruct (_ || _); simpl; [done|]. by rewrite lookup_insert_eq.
  - rewrite (bool_decide_eq_false_2 (k' = k)) by done. simpl. destruct (env !! k') eqn:E'; [by destruct (env !! k)|].
    destruct (_ || _); [by destruct (env !! k)|]. rewrite lookup_insert_ne by done. by destruct (env !! k).
Qed.

(** Induction on nodes with the fields of a struct. *)
Fixpoint node_ind' (Q : node → Prop) (Hl : ∀ t v, Q (Leaf t v))
    (Hs : ∀ name fs, Forall (λ x, Q x.2) fs → Q (Struct name fs)) (n : node) : Q n :=
  match n with
  | Leaf t v => Hl t v
  | Struct name fs =>
    Hs name fs ((fix go fs : Forall (λ x, Q x.2) fs :=
      match fs with
      | [] => Forall_nil_2 _
      | x :: fs => Forall_cons_2 _ _ _ (node_ind' Q Hl Hs x.2) (go fs)
      end) fs)
  end.

Lemma parse_field_leaf env rec x : descend x = false →
  (parse_field env rec x).1 = loaded env x ∧ ((parse_field env rec x).2 = [] ↔ field_ok env x).
Proof.
  destruct x as [g n]. unfold descend, parse_field, loaded, field_ok. simpl.
  destruct (decide (t_env g = "")) as [E|E].
  - rewrite bool_decide_eq_true_2 by done. destruct n; [|done]. intros _. split; [done|]. tauto.
  - rewrite bool_decide_eq_false_2 by done. intros _. destruct n as [t v|name fs]; destruct (raw_for env g) as [raw|].
    + destruct (set_node _ raw) as [err|n'] eqn:Es; (split; [done|]); split; try done.
      * intros [?|[n' Hn]]; [done|]. done.
      * intros _. right. by eexists.
    + split; [done|]. case_bool_decide; split; naive_solver.
    + simpl. split; [done|]. split; [done|]. intros [?|[n' Hn]]; done.
    + split; [done|]. case_bool_decide; split; naive_solver.
Qed.

Lemma parseStruct_leaf_kind env name fs : ∃ fs', (parseStruct env (Struct name fs)).1 = Struct name fs'.
Proof. by eexists. Qed.

Lemma loaded_not_descend env x : descend x = false → descend (loaded env x) = false.
Proof.
  destruct x as [g [t v|name fs]]; unfold descend, loaded; simpl.
  - intros _. destruct (bool_decide _); [done|]. destruct (raw_for env g); [|done]. by destruct (setField _ _).
  - intros Hd. rewrite Hd. by destruct (raw_for env g).
Qed.

(** One field of the struct, given the claim for what it nests. *)
Lemma parse_field_spec env x :
  leaves (parseStruct env x.2).1 = map (loaded env) (leaves x.2) ∧
    ((parseStruct env x.2).2 = [] ↔ Forall (field_ok env) (leaves x.2)) →
  (let y := (parse_field env (parseStruct env) x).1 in if descend y then leaves y.2 else [y]) =
    map (loaded env) (if descend x then leaves x.2 else [x]) ∧
  ((parse_field env (parseStruct env) x).2 = [] ↔ Forall (field_ok env) (if descend x then leaves x.2 else [x])).
Proof.
  intros [IH1 IH2]. destruct (descend x) eqn:Ed.
  - destruct x as [g n]. unfold descend in Ed. simpl in *. destruct n as [|name fs]; [done|].
    apply bool_decide_eq_true in Ed. unfold parse_field. rewrite bool_decide_eq_true_2 by done.
    destruct (parseStruct env (Struct name fs)) as [n' errs] eqn:Ep. simpl in IH1, IH2.
    destruct (parseStruct_leaf_kind env name fs) as [fs' Hn]. rewrite Ep in Hn. simpl in Hn. subst n'. simpl. split.
    + unfold descend. simpl. rewrite bool_decide_eq_true_2 by done. exact IH1.
    + rewrite <-IH2. case_bool_decide as El; [by apply nil_length_inv in El as ->|].
      split; [done|]. intros ->. done.
  - destruct (parse_field_leaf env (parseStruct env) x Ed) as [-> H2]. simpl.
    rewrite loaded_not_descend by done. split; [done|]. by rewrite Forall_singleton.
Qed.

Lemma parseStruct_spec env n :
  leaves (parseStruct env n).1 = map (loaded env) (leaves n) ∧
  ((parseStruct env n).2 = [] ↔ Forall (field_ok env) (leaves n)).
Proof.
  induction n as [t v|name fs IH] using node_ind'; [by rewrite Forall_nil|]. cbn [parseStruct leaves fst snd].
  induction IH as [|x fs Hx _ [IH1 IH2]]; [by rewrite Forall_nil|].
  destruct (parse_field_spec env x Hx) as [H1 H2]. cbn [map flat_map concat]. split.
  - rewrite map_app, <-H1, <-IH1. done.
  - rewrite Forall_app, <-H2, <-IH2. destruct (parse_field env (parseStruct env) x).2; [|split; [done|naive_solver]].
    simpl. tauto.
Qed.

Lemma env_file_lookup lines err env k :
  (loadEnvFile (inr (lines, err)) env).1 !! k =
  match env !! k with Some v => Some v | None => first_definition k lines end.
Proof.
  unfold loadEnvFile, first_definition. simpl. revert env. induction lines as [|line lines IH]; intros env; simpl.
  - by destruct (env !! k).
  - rewrite IH, load_line_lookup. destruct (env !! k); [done|]. by destruct (defines k line).
Qed.

(** ** Properties *)

(** A [.env] file never changes a variable of the process; a variable the process
    does not have gets the value of the first line of the file that defines it. *)
Theorem env_file_precedence lines err env k :
  (loadEnvFile (inr (lines, err)) env).1 !! k =
  match env !! k with Some v => Some v | None => first_definition k lines end.
Proof. apply env_file_lookup. Qed.

(** [Load] keeps the variables of the process.  Unless the env file is unreadable,
    which leaves the struct alone, it succeeds exactly when every field, at every depth
    of nested structs, is in order in the environment after the file; and whether it
    succeeds or not, each field holds the parsed variable or default, or what it held
    before. *)
Theorem load_spec open opts n env :
  match Load open (TStruct n) opts env with
  | (env', TStruct n', r) =>
    (∀ k v, env !! k = Some v → env' !! k = Some v) ∧
    ((∃ e, r = Some (EnvFile e) ∧ n' = n) ∨
     leaves n' = map (loaded env') (leaves n) ∧ (r = None ↔ Forall (field_ok env') (leaves n)))
  | (_, TBad, _) => False
  end.
Proof.
  unfold Load. set (cfg := fold_left _ _ _).
  destruct (if bool_decide (envFile cfg = "") then _ else _) as [env' err] eqn:Ef.
  assert (Henv : ∀ k v, env !! k = Some v → env' !! k = Some v).
  { intros k v Hk. case_bool_decide; [by simplify_eq|]. destruct (open (envFile cfg)) as [e|[lines e]]; [by simplify_eq/=|].
    pose proof (env_file_lookup lines e env k) as Hl. rewrite Ef, Hk in Hl. done. }
  assert (Ht : match load_target (TStruct n) env' with
    | (env'', TStruct n', r) => env'' = env' ∧ leaves n' = map (loaded env') (leaves n) ∧
        (r = None ↔ Forall (field_ok env') (leaves n))
    | (_, TBad, _) => False end).
  { clear Ef Henv. unfold load_target. destruct (parseStruct_spec env' n) as [H1 H2].
    destruct (parseStruct env' n) as [n' errs]. split_and!; [done|done|].
    rewrite <-H2. case_bool_decide as El; [apply nil_length_inv in El as ->; done|].
    split; [done|]. simpl. intros ->. done. }
  destruct err as [e|]; [destruct (negb _); [by eauto|]|];
    (destruct (load_target (TStruct n) env') as [[env'' [n'|]] r]; [|done]; destruct Ht as (-> & ? & ?); tauto).
Qed.

Lemma parse_digits_nonneg acc s n : 0 ≤ acc → digits acc s = Some n → 0 ≤ n.
Proof.
  revert acc. induction s as [|c s IH]; intros acc Ha; simpl; [naive_solver|].
  unfold digit. destruct ((0 <=? _) && _) eqn:E; simpl; [|done]. zbool. apply IH. lia.
Qed.

Lemma magnitude_nonneg s n : magnitude s = Some n → 0 ≤ n.
Proof. unfold magnitude. case_bool_decide; [done|]. by apply parse_digits_nonneg. Qed.

Lemma ParseInt_range s bits n : 1 ≤ bits → ParseInt s bits = Some n → - 2 ^ (bits - 1) ≤ n < 2 ^ (bits - 1).
Proof.
  intros Hb. pose proof (Z.pow_pos_nonneg 2 (bits - 1) ltac:(lia) ltac:(lia)).
  assert (Hp : ∀ s, (n ← magnitude s; if n <? 2 ^ (bits - 1) then Some n else None) = Some n →
    - 2 ^ (bits - 1) ≤ n < 2 ^ (bits - 1)).
  { intros s'. destruct (magnitude s') as [m|] eqn:E; simpl; [|done]. apply magnitude_nonneg in E.
    destruct (m <? _) eqn:El; [|done]. zbool. intros [= <-]. lia. }
  assert (Hm : ∀ s, (n ← magnitude s; if n <=? 2 ^ (bits - 1) then Some (- n) else None) = Some n →
    - 2 ^ (bits - 1) ≤ n < 2 ^ (bits - 1)).
  { intros s'. destruct (magnitude s') as [m|] eqn:E; simpl; [|done]. apply magnitude_nonneg in E.
    destruct (m <=? _) eqn:El; [|done]. zbool. intros [= <-]. lia. }
  unfold ParseInt. repeat case_match; first [apply Hp | apply Hm].
Qed.

(** The number an integer field is set to fits the width of the field. *)
Theorem int_field_fits raw bits n : 1 ≤ bits →
  (setField (TInt bits) raw = inr (VInt n) → - 2 ^ (bits - 1) ≤ n < 2 ^ (bits - 1)) ∧
  (setField (TUint bits) raw = inr (VInt n) → 0 ≤ n < 2 ^ bits).
Proof.
  intros Hb. simpl. split.
  - destruct (ParseInt raw bits) eqn:E; [|done]. intros [= ->]. by eapply ParseInt_range.
  - unfold ParseUint. destruct (magnitude raw) as [m|] eqn:E; simpl; [|done]. apply magnitude_nonneg in E.
    destruct (m <? _) eqn:El; [|done]. zbool. intros [= <-]. lia.
Qed.

End Load.

Lemma int_field_fits_witness :
  - 2 ^ (8 - 1) ≤ -128 < 2 ^ (8 - 1).
Proof.
  apply (int_field_fits (URL := unit) (IP := unit) (λ _, inr 0) (λ _, inr tt) (λ _, None) (λ _ _, None)
    "-128" 8); [lia|reflexivity].
Defined.

(** Quotes, comments and the precedence of the process and of the first line. *)
Example env_file_demo :
  (loadEnvFile (inr (["# c"; " A = 'x' "; "A=y"; "B=z"; "junk"], None)) {["B" := "p"]}).1 =
  {["A" := "x"; "B" := "p"]}.
Proof. vm_compute. reflexivity. Qed.

End Config.
