(* ===== verification/RedisClient.v ===== *)
(** * The client set-up of pkg/rediscache, loaded by pkg/config

    [ClientConfig] as the struct that [Config.Load] fills from the environment, and
    [NewClient], which turns it into the options of go-redis.  The theorem follows a
    setting from its environment variable to the client. *)

From S2P Require Import Prelude GoLang Config.
Import Config.
Open Scope Z_scope.

Module RedisClient.

Record ClientConfig := MkClientConfig {
  Addr : string; Password : string; DB : Z; PoolSize : Z; Timeout : Duration
}.

(** The fields of [redis.Options] that are set. *)
Record Options := MkOptions {
  o_Addr : string; o_Password : string; o_DB : Z; o_PoolSize : Z;
  DialTimeout : Duration; ReadTimeout : Duration; WriteTimeout : Duration
}.

Definition NewClient (cfg : ClientConfig) : Options :=
  MkOptions (Addr cfg) (Password cfg) (DB cfg) (PoolSize cfg) (Timeout cfg) (Timeout cfg) (Timeout cfg).

Section Load.
Context {URL IP : Type} (ParseDuration : string → error + Duration) (ParseURL : string → error + URL)
  (ParseIP : string → option IP) (ParseFloat : string → Z → option Float64.Float64.float64).

(** The struct as reflection shows it: [int] is 64 bits wide. *)
Definition fields (cfg : ClientConfig) : list (tags * @node URL IP) :=
  [(Tags "REDIS_ADDR" "localhost:6379" "", Leaf TString (VString (Addr cfg)));
   (Tags "REDIS_PASSWORD" "" "", Leaf TString (VString (Password cfg)));
   (Tags "REDIS_DB" "0" "", Leaf (TInt 64) (VInt (DB cfg)));
   (Tags "REDIS_POOL" "10" "", Leaf (TInt 64) (VInt (PoolSize cfg)));
   (Tags "REDIS_TIMEOUT" "5s" "", Leaf TDuration (VDuration (Timeout cfg)))].

Definition as_node (cfg : ClientConfig) : @node URL IP := Struct "ClientConfig" (fields cfg).

Definition zero_config : ClientConfig := MkClientConfig "" "" 0 0 0.

(** A variable that is set and not empty, else the default. *)
Definition text (env : gmap string string) (var default : string) : string :=
  match env !! var with Some raw => if bool_decide (raw = "") then default else raw | None => default end.

Lemma raw_for_text env var d :
  d ≠ "" → raw_for env (Tags var d "") = Some (text env var d).
Proof.
  intros Hd. unfold raw_for, LookupEnv, text. simpl. rewrite (bool_decide_eq_false_2 (d = "")) by done.
  destruct (env !! var); [|done]. by case_bool_decide.
Qed.

Lemma raw_for_empty env var :
  raw_for env (Tags var "" "") = if bool_decide (text env var "" = "") then None else Some (text env var "").
Proof.
  unfold raw_for, LookupEnv, text. simpl. destruct (env !! var) as [raw|]; [|done].
  case_bool_decide as E; [done|]. by rewrite bool_decide_eq_false_2.
Qed.

(** Loading a fresh [ClientConfig] and making a client of it: address, password,
    database, pool size and the three timeouts come from their variables where these
    are set and not empty, else from the defaults; and the load succeeds. *)
Theorem client_from_environment env db pool d :
  ParseInt (text env "REDIS_DB" "0") 64 = Some db → ParseInt (text env "REDIS_POOL" "10") 64 = Some pool →
  ParseDuration (text env "REDIS_TIMEOUT" "5s") = inr d →
  ∃ cfg, parseStruct ParseDuration ParseURL ParseIP ParseFloat env (as_node zero_config) = (as_node cfg, []) ∧
    NewClient cfg = MkOptions (text env "REDIS_ADDR" "localhost:6379") (text env "REDIS_PASSWORD" "") db pool d d d.
Proof.
  intros Hdb Hpool Hd.
  exists (MkClientConfig (text env "REDIS_ADDR" "localhost:6379") (text env "REDIS_PASSWORD" "") db pool d).
  split; [|done]. unfold as_node, fields. cbn [parseStruct map parse_field t_env zero_config].
  rewrite !(bool_decide_eq_false_2 (_ = "")) by done.
  rewrite (raw_for_text env "REDIS_ADDR"), (raw_for_text env "REDIS_DB"), (raw_for_text env "REDIS_POOL"),
    (raw_for_text env "REDIS_TIMEOUT"), raw_for_empty by done. cbn [set_node setField]. rewrite Hdb, Hpool, Hd.
  case_bool_decide as E; [by rewrite E|done].
Qed.

End Load.

Lemma client_from_environment_witness : ∃ cfg,
  parseStruct (URL:=unit) (IP:=unit) (λ s, if bool_decide (s = "5s") then inr (5 * Second) else inl context_Canceled)
    (λ _, inr tt) (λ _, None) (λ _ _, None) {["REDIS_DB" := "3"]} (as_node zero_config) = (as_node cfg, []) ∧
  NewClient cfg = MkOptions "localhost:6379" "" 3 10 (5 * Second) (5 * Second) (5 * Second).
Proof.
  destruct (client_from_environment (URL:=unit) (IP:=unit)
    (λ s, if bool_decide (s = "5s") then inr (5 * Second) else inl context_Canceled)
    (λ _, inr tt) (λ _, None) (λ _ _, None) {["REDIS_DB" := "3"]} 3 10 (5 * Second)) as (cfg & Hload & Hnew); [vm_compute; reflexivity..|].
  exists cfg. split; [exact Hload|]. rewrite Hnew. vm_compute. reflexivity.
Defined.

End RedisClient.
