(* ===== verification/Sched.v ===== *)
(** * pkg/sched: the job scheduler

    [New], [Every] and [After] build the schedule; after [Start] one goroutine per
    entry ([loop]) and one per dispatched job ([run]) share a channel used as a
    semaphore and a wait group.  They are a transition system.  Timers and tickers may
    fire at any time, so the theorems hold for every timing; SchedTimed.v runs them on a
    timeline. *)

From S2P Require Import Prelude GoLang.
Open Scope Z_scope.

Module Sched.

(** The function of a job stays opaque: what it returns is chosen by the step. *)
Record Job := MkJob { Name : string }.

Record schedule := MkSchedule { job : Job; interval : Duration; delay : Duration }.

Record options := Options { has_onError : bool }.
Definition Option_ : Type := options → options.
Definition WithOnError : Option_ := λ _, Options true.

Record Scheduler := MkScheduler { workers : Z; opts : options; schedules : list schedule }.

Definition New (workers : Z) (os : list Option_) : Scheduler :=
  MkScheduler workers (fold_left (λ o opt, opt o) os (Options false)) [].
Definition Every (d : Duration) (name : string) (s : Scheduler) : Scheduler :=
  MkScheduler (workers s) (opts s) (schedules s ++ [MkSchedule (MkJob name) d 0]).
Definition After (d : Duration) (name : string) (s : Scheduler) : Scheduler :=
  MkScheduler (workers s) (opts s) (schedules s ++ [MkSchedule (MkJob name) 0 d]).

(** ** The goroutines *)

(** Where the goroutine of an entry is: in its select, in the select of [dispatch], on
    its way out, gone. *)
Inductive loop_pc := Waiting | Dispatching | Exiting | Gone.
(** [fired] counts the jobs it has started. *)
Record loop := Loop { entry : schedule; pc : loop_pc; fired : nat }.

Definition periodic (sc : schedule) : bool := interval sc >? 0.

(** A job's goroutine: inside the function, returned, slot released. *)
Inductive run_pc := InFn | Returned | Released.
#[export] Instance run_pc_eq_dec : EqDecision run_pc.
Proof. solve_decision. Defined.
Record run := Run { rjob : Job; rpc : run_pc }.

Record state := State {
  cap : Z; onError : bool; loops : list loop; runs : list run;
  sem : Z; wg : Z; cancelled : bool; stopped : bool; reported : list (Job * error)
}.

(** [runPeriodic] dispatches at once, [runOnce] waits for its timer. *)
Definition new_loop (sc : schedule) : loop := Loop sc (if periodic sc then Dispatching else Waiting) 0.

(** [make(chan struct{}, workers)] panics on a negative size. *)
Definition Start (s : Scheduler) : outcome state :=
  if workers s <? 0 then Panic "makechan: size out of range"
  else Ret (State (workers s) (has_onError (opts s)) (new_loop <$> schedules s) [] 0
              (Z.of_nat (length (schedules s))) false false []).

(** What follows [dispatch] in the goroutine of an entry. *)
Definition after_dispatch (sc : schedule) : loop_pc := if periodic sc then Waiting else Exiting.

Definition with_loop (s : state) (ls : list loop) : state :=
  State (cap s) (onError s) ls (runs s) (sem s) (wg s) (cancelled s) (stopped s) (reported s).

Inductive step : state → state → Prop :=
(** the timer or ticker fires *)
| step_fire s l1 sc n l2 :
    loops s = l1 ++ Loop sc Waiting n :: l2 →
    step s (with_loop s (l1 ++ Loop sc Dispatching n :: l2))
| step_loop_cancelled s l1 sc n l2 :
    loops s = l1 ++ Loop sc Waiting n :: l2 → cancelled s = true →
    step s (with_loop s (l1 ++ Loop sc Exiting n :: l2))
(** [dispatch] takes a slot and starts the job *)
| step_dispatch s l1 sc n l2 :
    loops s = l1 ++ Loop sc Dispatching n :: l2 → sem s < cap s →
    step s (State (cap s) (onError s) (l1 ++ Loop sc (after_dispatch sc) (S n) :: l2) (runs s ++ [Run (job sc) InFn])
              (sem s + 1) (wg s + 1) (cancelled s) (stopped s) (reported s))
| step_dispatch_cancelled s l1 sc n l2 :
    loops s = l1 ++ Loop sc Dispatching n :: l2 → cancelled s = true →
    step s (with_loop s (l1 ++ Loop sc (after_dispatch sc) n :: l2))
(** the deferred [wg.Done] of an entry *)
| step_loop_done s l1 sc n l2 :
    loops s = l1 ++ Loop sc Exiting n :: l2 →
    step s (State (cap s) (onError s) (l1 ++ Loop sc Gone n :: l2) (runs s) (sem s) (wg s - 1)
              (cancelled s) (stopped s) (reported s))
(** the job returns and an error is reported *)
| step_return s r1 j r2 (res : option error) :
    runs s = r1 ++ Run j InFn :: r2 →
    step s (State (cap s) (onError s) (loops s) (r1 ++ Run j Returned :: r2) (sem s) (wg s) (cancelled s) (stopped s)
              (match res with Some err => if onError s then reported s ++ [(j, err)] else reported s
                            | None => reported s end))
(** the deferred calls of the job's goroutine *)
| step_release s r1 j r2 :
    runs s = r1 ++ Run j Returned :: r2 →
    step s (State (cap s) (onError s) (loops s) (r1 ++ Run j Released :: r2) (sem s - 1) (wg s)
              (cancelled s) (stopped s) (reported s))
| step_run_done s r1 j r2 :
    runs s = r1 ++ Run j Released :: r2 →
    step s (State (cap s) (onError s) (loops s) (r1 ++ r2) (sem s) (wg s - 1) (cancelled s) (stopped s) (reported s))
(** [Stop]: cancel (as the caller's context may, too), then wait *)
| step_cancel s :
    step s (State (cap s) (onError s) (loops s) (runs s) (sem s) (wg s) true (stopped s) (reported s))
| step_stopped s :
    cancelled s = true → wg s = 0 →
    step s (State (cap s) (onError s) (loops s) (runs s) (sem s) (wg s) true true (reported s)).

(** ** The invariant *)

Definition loop_active (l : loop) : nat := match pc l with Gone => 0 | _ => 1 end.
Definition holds_slot (r : run) : nat := match rpc r with Released => 0 | _ => 1 end.

(** An entry of [After] has fired only when it is on its way out. *)
Definition loop_ok (l : loop) : Prop :=
  periodic (entry l) = false → match pc l with Waiting | Dispatching => fired l = 0%nat | _ => (fired l ≤ 1)%nat end.

Record invariant (s : state) : Prop := {
  inv_sem : sem s = Z.of_nat (sum_list_with holds_slot (runs s));
  inv_cap : sem s ≤ cap s;
  inv_wg : wg s = Z.of_nat (sum_list_with loop_active (loops s) + length (runs s));
  inv_loops : Forall loop_ok (loops s);
  inv_stopped : stopped s = true → wg s = 0 ∧ cancelled s = true;
}.

(** ** Lemmas *)

Lemma invariant_start sch s : Start sch = Ret s → invariant s.
Proof.
  unfold Start. destruct (workers sch <? 0) eqn:E; [done|]. zbool. intros [= <-]. split; simpl; [done|lia| | |done].
  - rewrite Nat.add_0_r. f_equal. induction (schedules sch) as [|sc l IH]; [done|]. simpl.
    rewrite IH. unfold new_loop, loop_active. by destruct (periodic sc).
  - apply Forall_fmap, Forall_true. intros sc. unfold loop_ok, new_loop. simpl. by destruct (periodic sc).
Qed.

(** A step that moves one loop. *)
Lemma invariant_loop s l1 l l' l2 rs sem' wg' :
  invariant s → loops s = l1 ++ l :: l2 → loop_ok l' →
  sem' = Z.of_nat (sum_list_with holds_slot rs) → sem' ≤ cap s →
  wg' = wg s + Z.of_nat (loop_active l') - Z.of_nat (loop_active l) + Z.of_nat (length rs) - Z.of_nat (length (runs s)) →
  (stopped s = true → False) →
  invariant (State (cap s) (onError s) (l1 ++ l' :: l2) rs sem' wg' (cancelled s) (stopped s) (reported s)).
Proof.
  intros [Hs Hc Hw Hl Hst] Hls Hok Hsem Hcap Hwg Hns. rewrite Hls in Hw, Hl. rewrite sum_list_with_middle in Hw.
  split; simpl; [done|done| | |by intros ?%Hns].
  - rewrite sum_list_with_middle. lia.
  - rewrite Forall_app, Forall_cons in *. tauto.
Qed.

(** A loop that is not gone, or a run, keeps the wait group positive. *)
Lemma active_not_stopped s l1 l l2 : invariant s → loops s = l1 ++ l :: l2 → loop_active l = 1%nat → stopped s = true → False.
Proof.
  intros [_ _ Hw _ Hst] Hl Ha Hs. destruct (Hst Hs) as [H0 _]. rewrite Hl, sum_list_with_middle in Hw. lia.
Qed.

Lemma run_not_stopped s r1 r r2 : invariant s → runs s = r1 ++ r :: r2 → stopped s = true → False.
Proof.
  intros [_ _ Hw _ Hst] Hr Hs. destruct (Hst Hs) as [H0 _]. rewrite Hr, length_app in Hw. simpl in Hw. lia.
Qed.

Lemma sched_invariant_step s s' : invariant s → step s s' → invariant s'.
Proof.
  intros Hinv Hs. pose proof Hinv as [Hsem Hcap Hwg Hl Hst].
  destruct Hs as [s l1 sc n l2 El|s l1 sc n l2 El Hc|s l1 sc n l2 El Hlt|s l1 sc n l2 El Hc|s l1 sc n l2 El
    |s r1 j r2 res Er|s r1 j r2 Er|s r1 j r2 Er|s|s Hc H0];
    try (assert (Hok : loop_ok (Loop sc _ n)) by (rewrite El in Hl; eapply Forall_elt, Hl));
    try (pose proof (active_not_stopped _ _ _ _ Hinv El eq_refl) as Hns);
    try (pose proof (run_not_stopped _ _ _ _ Hinv Er) as Hns).
  - eapply invariant_loop; [done|exact El|exact Hok|done|done|unfold loop_active; simpl; lia|done].
  - eapply invariant_loop; [done|exact El| |done|done|unfold loop_active; simpl; lia|done].
    intros Hp. specialize (Hok Hp). simpl in *. lia.
  - eapply invariant_loop; [done|exact El| | |lia| |done].
    + intros Hp. specialize (Hok Hp). unfold after_dispatch. simpl in *. rewrite Hp. lia.
    + rewrite sum_list_with_app. simpl. change (holds_slot _) with 1%nat. lia.
    + rewrite length_app. unfold after_dispatch, loop_active. simpl. destruct (periodic sc); simpl; lia.
  - eapply invariant_loop; [done|exact El| |done|done| |done].
    + intros Hp. specialize (Hok Hp). unfold after_dispatch. simpl in *. rewrite Hp. lia.
    + unfold after_dispatch, loop_active. simpl. destruct (periodic sc); lia.
  - eapply invariant_loop; [done|exact El| |done|done|unfold loop_active; simpl; lia|done].
    intros Hp. specialize (Hok Hp). simpl in *. lia.
  - rewrite Er in Hsem, Hwg. rewrite sum_list_with_middle in Hsem. rewrite length_app in Hwg. simpl in *.
    split; simpl; [rewrite sum_list_with_middle; simpl; lia|done|rewrite length_app; simpl; lia|done|by intros ?%Hns].
  - rewrite Er in Hsem, Hwg. rewrite sum_list_with_middle in Hsem. rewrite length_app in Hwg. simpl in *.
    split; simpl; [rewrite sum_list_with_middle; simpl; lia|lia|rewrite length_app; simpl; lia|done|by intros ?%Hns].
  - rewrite Er in Hsem, Hwg. rewrite sum_list_with_middle in Hsem. rewrite length_app in Hwg. simpl in *.
    split; simpl; [lia|done|rewrite length_app; simpl; lia|done|by intros ?%Hns].
  - split; simpl; try done. intros Hs. split; [by apply Hst|done].
  - by split.
Qed.

Lemma sched_reachable sch s0 s : Start sch = Ret s0 → rtc step s0 s → invariant s.
Proof. intros H0. apply (rtc_invariant step invariant); [eauto using sched_invariant_step|by eapply invariant_start]. Qed.

Lemma cap_start sch s0 s : Start sch = Ret s0 → rtc step s0 s → cap s = workers sch.
Proof.
  intros H0. apply (rtc_invariant step (λ s, cap s = workers sch)).
  - intros x y Hx Hs. by destruct Hs.
  - unfold Start in H0. destruct (workers sch <? 0); by simplify_eq/=.
Qed.

(** How far the goroutines are from their ends once the context is cancelled. *)
Definition loop_left (l : loop) : nat := match pc l with Gone => 0 | Exiting => 1 | Waiting => 2 | Dispatching => 3 end.
Definition run_left (r : run) : nat := match rpc r with InFn => 3 | Returned => 2 | Released => 1 end.
Definition left_ (s : state) : nat := (sum_list_with loop_left (loops s) + sum_list_with run_left (runs s))%nat.

Lemma sum_list_with_pos {A} (f : A → nat) l : (0 < sum_list_with f l)%nat → ∃ l1 x l2, l = l1 ++ x :: l2 ∧ (0 < f x)%nat.
Proof.
  induction l as [|x l IH]; simpl; [lia|]. intros Hp. destruct (decide (0 < f x)%nat); [by exists [], x, l|].
  destruct IH as (l1 & y & l2 & -> & Hy); [lia|]. by exists (x :: l1), y, l2.
Qed.

(** While something is left, some step brings the end nearer. *)
Lemma progress_cancelled s : cancelled s = true → (0 < left_ s)%nat →
  ∃ s', step s s' ∧ cancelled s' = true ∧ (left_ s' < left_ s)%nat.
Proof.
  intros Hc Hp. unfold left_ in Hp.
  destruct (decide (0 < sum_list_with loop_left (loops s))%nat) as [Hl|Hl].
  - apply sum_list_with_pos in Hl as (l1 & [sc p n] & l2 & El & Hx). destruct p; simpl in Hx.
    + eexists. split; [by eapply step_loop_cancelled|]. split; [done|]. unfold left_. simpl.
      rewrite El, !sum_list_with_middle. unfold loop_left at 1 3. simpl. lia.
    + eexists. split; [by eapply step_dispatch_cancelled|]. split; [done|]. unfold left_, after_dispatch. simpl.
      rewrite El, !sum_list_with_middle. unfold loop_left at 1 3. simpl. destruct (periodic sc); lia.
    + eexists. split; [by eapply step_loop_done|]. split; [done|]. unfold left_. simpl.
      rewrite El, !sum_list_with_middle. unfold loop_left at 1 3. simpl. lia.
    + unfold loop_left in Hx. simpl in Hx. lia.
  - destruct (sum_list_with_pos run_left (runs s)) as (r1 & [j p] & r2 & Er & _); [lia|]. destruct p.
    + eexists. split; [by eapply (step_return _ _ _ _ None)|]. split; [done|]. unfold left_. simpl.
      rewrite Er, !sum_list_with_middle. unfold run_left at 1 3. simpl. lia.
    + eexists. split; [by eapply step_release|]. split; [done|]. unfold left_. simpl.
      rewrite Er, !sum_list_with_middle. unfold run_left at 1 3. simpl. lia.
    + eexists. split; [by eapply step_run_done|]. split; [done|]. unfold left_. simpl.
      rewrite Er, !sum_list_with_middle. unfold run_left at 2. simpl. lia.
Qed.

Lemma left_zero s : left_ s = 0%nat → sum_list_with loop_active (loops s) = 0%nat ∧ runs s = [].
Proof.
  unfold left_. intros H0. split.
  - assert (Hl : sum_list_with loop_left (loops s) = 0%nat) by lia. clear H0.
    induction (loops s) as [|[sc p n] ls IH]; simpl in *; [done|].
    rewrite IH by lia. destruct p; unfold loop_left in Hl; simpl in Hl; lia || done.
  - destruct (runs s) as [|[j p] rs]; [done|]. simpl in H0. destruct p; unfold run_left in H0; simpl in H0; lia.
Qed.

Lemma drains s : invariant s → cancelled s = true → ∃ s', rtc step s s' ∧ stopped s' = true.
Proof.
  remember (left_ s) as n eqn:Hn. revert s Hn. induction (lt_wf n) as [n _ IH]; intros s -> Hinv Hc.
  destruct (decide (left_ s = 0%nat)) as [H0|H0].
  - apply left_zero in H0 as [Hl Hr]. eexists. split; [|].
    + apply rtc_once. apply step_stopped; [done|]. rewrite (inv_wg s Hinv), Hl, Hr. done.
    + done.
  - destruct (progress_cancelled s Hc) as (s1 & Hs & Hc1 & Hlt); [lia|].
    destruct (IH (left_ s1) Hlt s1 eq_refl) as (s2 & Hr & Hst); [by eapply sched_invariant_step|done|].
    exists s2. split; [by eapply rtc_l|done].
Qed.

(** ** Properties *)

(** In every reachable state at most [workers] jobs are inside their functions. *)
Theorem concurrency_bounded sch s0 s : Start sch = Ret s0 → rtc step s0 s →
  Z.of_nat (length (filter (λ r, rpc r = InFn) (runs s))) ≤ workers sch.
Proof.
  intros H0 Hr. rewrite <-(cap_start sch s0 s H0 Hr). apply (sched_reachable sch s0 s H0) in Hr as [Hsem Hcap _ _ _].
  cut (length (filter (λ r, rpc r = InFn) (runs s)) ≤ sum_list_with holds_slot (runs s))%nat; [lia|].
  clear. induction (runs s) as [|r rs IH]; [done|]. rewrite filter_cons. simpl.
  destruct (decide (rpc r = InFn)) as [E|]; [|lia]. unfold holds_slot at 1. rewrite E. simpl. lia.
Qed.

(** When [Stop] has returned every goroutine of the scheduler is gone, and however
    the run continues no job is ever running again. *)
Theorem stop_is_final sch s0 s s' : Start sch = Ret s0 → rtc step s0 s → stopped s = true → rtc step s s' →
  Forall (λ l, pc l = Gone) (loops s') ∧ runs s' = [].
Proof.
  intros H0 Hr Hst Hr'.
  assert (Hinv : invariant s') by (eapply sched_reachable; [done|by etrans]).
  assert (Hst' : stopped s' = true).
  { apply (rtc_invariant step (λ s, stopped s = true) s s'); [|done|done]. intros x y Hx Hs. by destruct Hs. }
  destruct Hinv as [_ _ Hw _ Hstop]. destruct (Hstop Hst') as [Hw0 _]. rewrite Hw0 in Hw. split.
  - assert (Hl : sum_list_with loop_active (loops s') = 0%nat) by lia. clear -Hl.
    induction (loops s') as [|[sc p n] ls IH]; constructor; simpl in *; [destruct p; simpl in Hl; try done; lia|].
    apply IH. lia.
  - apply nil_length_inv. lia.
Qed.

(** An [After] entry starts its job at most once, and while its timer has not fired
    not at all. *)
Theorem after_runs_once sch s0 s l : Start sch = Ret s0 → rtc step s0 s → l ∈ loops s →
  periodic (entry l) = false → (fired l ≤ 1)%nat ∧ (pc l = Waiting → fired l = 0%nat).
Proof.
  intros H0 Hr Hl Hp. apply (sched_reachable sch s0 s H0) in Hr as [_ _ _ Hok _].
  rewrite Forall_forall in Hok. specialize (Hok l Hl Hp). split; [destruct (pc l); lia|]. intros E. by rewrite E in Hok.
Qed.

(** [Stop] does not deadlock: from every reachable state with the context cancelled
    the goroutines can run to their ends, provided jobs return, and [Stop] with them. *)
Theorem stop_can_return sch s0 s : Start sch = Ret s0 → rtc step s0 s → cancelled s = true →
  ∃ s', rtc step s s' ∧ stopped s' = true.
Proof. intros H0 Hr. apply drains. by eapply sched_reachable. Qed.

(** ** Witnesses *)

Definition demo : Scheduler := After Second "b" (Every Minute "a" (New 1 [])).
Definition demo_a : schedule := MkSchedule (MkJob "a") Minute 0.
Definition demo_b : schedule := MkSchedule (MkJob "b") 0 Second.
Definition demo_start : state := State 1 false [Loop demo_a Dispatching 0; Loop demo_b Waiting 0] [] 0 2 false false [].

(** The periodic job is running. *)
Definition demo_running : state :=
  State 1 false [Loop demo_a Waiting 1; Loop demo_b Waiting 0] [Run (MkJob "a") InFn] 1 3 false false [].

Lemma demo_running_reachable : rtc step demo_start demo_running.
Proof. apply rtc_once. apply (step_dispatch demo_start [] demo_a 0 [Loop demo_b Waiting 0]); [reflexivity|simpl; lia]. Qed.

Lemma concurrency_bounded_witness : Z.of_nat (length (filter (λ r, rpc r = InFn) (runs demo_running))) ≤ 1.
Proof. apply (concurrency_bounded demo demo_start demo_running); [reflexivity|apply demo_running_reachable]. Defined.

Lemma after_runs_once_witness : (0 ≤ 1)%nat ∧ (Waiting = Waiting → 0%nat = 0%nat).
Proof.
  apply (after_runs_once demo demo_start demo_running (Loop demo_b Waiting 0));
    [reflexivity|apply demo_running_reachable|right; left|reflexivity].
Defined.

(** Nothing scheduled: [Stop] returns at once. *)
Definition idle_start : state := State 1 false [] [] 0 0 false false [].
Definition idle_cancelled : state := State 1 false [] [] 0 0 true false [].
Definition idle_stopped : state := State 1 false [] [] 0 0 true true [].

Lemma idle_steps : rtc step idle_start idle_cancelled ∧ rtc step idle_start idle_stopped.
Proof.
  assert (H1 : step idle_start idle_cancelled) by apply (step_cancel idle_start). split; [by apply rtc_once|].
  eapply rtc_l; [exact H1|]. apply rtc_once. by apply (step_stopped idle_cancelled).
Qed.

Lemma stop_is_final_witness : Forall (λ l, pc l = Gone) (loops idle_stopped) ∧ runs idle_stopped = [].
Proof.
  apply (stop_is_final (New 1 []) idle_start idle_stopped idle_stopped);
    [reflexivity|apply idle_steps|reflexivity|apply rtc_refl].
Defined.

Lemma stop_can_return_witness : ∃ s', rtc step idle_cancelled s' ∧ stopped s' = true.
Proof.
  apply (stop_can_return (New 1 []) idle_start idle_cancelled); [reflexivity|apply idle_steps|reflexivity].
Defined.

End Sched.
