(* ===== verification/SchedTimed.v ===== *)
(** * pkg/sched on a timeline

    Sched.v lets timers fire at any time.  Here every entry has its ticker or timer, and time
    passes under three assumptions: a loop in its select receives a tick at most [J] after it
    fired and, when a slot is free, starts the job by then; and a job gives its slot back at
    most [D] after it began.  Every step is a step of Sched.v, so its invariant holds.  [Stop]
    is not part of this system: it shows what happens until then. *)

From S2P Require Import Prelude GoLang Ticker Sched.
Open Scope Z_scope.

Module SchedTimed.
Import Ticker Sched.

(** [time.NewTicker(interval)] of [runPeriodic], [time.NewTimer(delay)] of [runOnce]. *)
Inductive alarm := Periodic (t : ticker) | Once (at_ : Time).

(** [t0]: when the goroutine started; [tick]: the tick received last; [starts]: when its jobs began. *)
Record tloop := TLoop { lp : loop; al : alarm; t0 : Time; tick : Time; starts : list Time }.
Record trun := TRun { owner : nat; begun : Time; rn : run }.

Record tstate := TState {
  now : Time; cap : Z; onError : bool; ls : list tloop; rs : list trun; sem : Z; wg : Z; reported : list (Job * error)
}.

(** The state of Sched.v. *)
Definition untimed (s : tstate) : Sched.state :=
  Sched.State (cap s) (onError s) (lp <$> ls s) (rn <$> rs s) (sem s) (wg s) false false (reported s).

Definition elapse_loop (t : Time) (l : tloop) : tloop :=
  TLoop (lp l) (match al l with Periodic tk => Periodic (elapse t tk) | a => a end) (t0 l) (tick l) (starts l).

Definition holding (r : trun) : Prop := rpc (rn r) ≠ Released.
#[export] Instance holding_dec r : Decision (holding r).
Proof. unfold holding. apply _. Defined.

Section Timed.
Context (J D : Duration).

(** The goroutine of an entry, started at [t]. *)
Definition tnew (sc : schedule) (t : Time) : tloop :=
  TLoop (new_loop sc)
    (if periodic sc then Periodic (MkTicker (interval sc) (t + interval sc) None) else Once (t + Z.max 0 (delay sc))) t t [].

(** [Start]: at [now] all goroutines have started, each at most [J] ago. *)
Definition tstart (sch : Scheduler) (s : tstate) : Prop :=
  ∃ ts s0, Start sch = Ret s0 ∧ length ts = length (schedules sch) ∧ Forall (λ t, t ≤ now s ≤ t + J) ts ∧
    ls s = zip_with tnew (schedules sch) ts ∧ rs s = [] ∧ untimed s = s0.

(** What the passing of time to [t] waits for. *)
Definition loop_prompt (free : bool) (t : Time) (l : tloop) : Prop :=
  match al l, pc (lp l) with
  | Periodic tk, Waiting => prompt J t tk
  | Periodic _, Dispatching => if free then t ≤ tick l + J else True
  | _, _ => True
  end.
Definition run_prompt (t : Time) (r : trun) : Prop := holding r → t ≤ begun r + D.

Inductive tstep : tstate → tstate → Prop :=
| s_elapse s t :
    now s ≤ t → Forall (loop_prompt (sem s <? cap s) t) (elapse_loop t <$> ls s) → Forall (run_prompt t) (rs s) →
    tstep s (TState t (cap s) (onError s) (elapse_loop t <$> ls s) (rs s) (sem s) (wg s) (reported s))
| s_tick s l1 sc n tk b x ss l2 y :
    ls s = l1 ++ TLoop (Loop sc Waiting n) (Periodic tk) b x ss :: l2 → C tk = Some y →
    tstep s (TState (now s) (cap s) (onError s) (l1 ++ TLoop (Loop sc Dispatching n) (Periodic (recv tk)) b y ss :: l2)
      (rs s) (sem s) (wg s) (reported s))
| s_timer s l1 sc n t b x ss l2 :
    ls s = l1 ++ TLoop (Loop sc Waiting n) (Once t) b x ss :: l2 → t ≤ now s →
    tstep s (TState (now s) (cap s) (onError s) (l1 ++ TLoop (Loop sc Dispatching n) (Once t) b t ss :: l2)
      (rs s) (sem s) (wg s) (reported s))
| s_dispatch s l1 sc n a b x ss l2 :
    ls s = l1 ++ TLoop (Loop sc Dispatching n) a b x ss :: l2 → sem s < cap s →
    tstep s (TState (now s) (cap s) (onError s)
      (l1 ++ TLoop (Loop sc (after_dispatch sc) (S n)) a b x (ss ++ [now s]) :: l2)
      (rs s ++ [TRun (length l1) (now s) (Run (job sc) InFn)]) (sem s + 1) (wg s + 1) (reported s))
| s_loop_done s l1 sc n a b x ss l2 :
    ls s = l1 ++ TLoop (Loop sc Exiting n) a b x ss :: l2 →
    tstep s (TState (now s) (cap s) (onError s) (l1 ++ TLoop (Loop sc Gone n) a b x ss :: l2) (rs s) (sem s) (wg s - 1) (reported s))
| s_return s r1 o b j r2 (res : option error) :
    rs s = r1 ++ TRun o b (Run j InFn) :: r2 →
    tstep s (TState (now s) (cap s) (onError s) (ls s) (r1 ++ TRun o b (Run j Returned) :: r2) (sem s) (wg s)
      (match res with Some err => if onError s then reported s ++ [(j, err)] else reported s | None => reported s end))
| s_release s r1 o b j r2 :
    rs s = r1 ++ TRun o b (Run j Returned) :: r2 →
    tstep s (TState (now s) (cap s) (onError s) (ls s) (r1 ++ TRun o b (Run j Released) :: r2) (sem s - 1) (wg s) (reported s))
| s_run_done s r1 o b j r2 :
    rs s = r1 ++ TRun o b (Run j Released) :: r2 →
    tstep s (TState (now s) (cap s) (onError s) (ls s) (r1 ++ r2) (sem s) (wg s - 1) (reported s)).

(** Every step but the passing of time is a step of the untimed scheduler. *)
Lemma tstep_refines s s' : tstep s s' → untimed s' = untimed s ∨ Sched.step (untimed s) (untimed s').
Proof.
  intros Hs. destruct Hs as [s t|s l1 sc n tk b x ss l2 y El|s l1 sc n t b x ss l2 El|s l1 sc n a b x ss l2 El Hc|s l1 sc n a b x ss l2 El
    |s r1 o b j r2 res Er|s r1 o b j r2 Er|s r1 o b j r2 Er]; unfold untimed; simpl.
  - left. f_equal. rewrite <-list_fmap_compose. done.
  - right. rewrite El, !fmap_app, !fmap_cons. by eapply (step_fire (Sched.State _ _ _ _ _ _ _ _ _)).
  - right. rewrite El, !fmap_app, !fmap_cons. by eapply (step_fire (Sched.State _ _ _ _ _ _ _ _ _)).
  - right. rewrite El, !fmap_app, !fmap_cons. by eapply (step_dispatch (Sched.State _ _ _ _ _ _ _ _ _)).
  - right. rewrite El, !fmap_app, !fmap_cons. by eapply (step_loop_done (Sched.State _ _ _ _ _ _ _ _ _)).
  - right. rewrite Er, !fmap_app, !fmap_cons. by eapply (step_return (Sched.State _ _ _ _ _ _ _ _ _)).
  - right. rewrite Er, !fmap_app, !fmap_cons. by eapply (step_release (Sched.State _ _ _ _ _ _ _ _ _)).
  - right. rewrite Er, !fmap_app, !fmap_cons. by eapply (step_run_done (Sched.State _ _ _ _ _ _ _ _ _)).
Qed.

Lemma timed_run_refines s s' : rtc tstep s s' → rtc Sched.step (untimed s) (untimed s').
Proof.
  induction 1 as [|x y z Hs _ IH]; [done|]. destruct (tstep_refines x y Hs) as [E|E]; [by rewrite <-E|by eapply rtc_l].
Qed.

(** ** The invariant *)

(** The [k]-th job of an entry begins within [J] of the [k]-th multiple of its interval, and
    the next one is not overdue. *)
Definition loop_on_time (t : Time) (l : tloop) : Prop :=
  periodic (entry (lp l)) = true →
  let I := interval (entry (lp l)) in let n := Z.of_nat (fired (lp l)) in
  length (starts l) = fired (lp l) ∧
  (∀ k b, starts l !! k = Some b → t0 l + Z.of_nat k * I ≤ b ≤ t0 l + Z.of_nat k * I + J) ∧
  ∃ tk, al l = Periodic tk ∧ period tk = I ∧ on_time J (tick l) t tk ∧
  match pc (lp l) with
  | Waiting => tick l = t0 l + (n - 1) * I
  | Dispatching => tick l = t0 l + n * I ∧ t ≤ tick l + J
  | _ => False
  end.

(** Where the entry of a job that holds a slot can be. *)
Definition owner_ok (b : Time) (l : tloop) : Prop :=
  pc (lp l) ≠ Dispatching ∧ if periodic (entry (lp l)) then b ≤ tick l + J else pc (lp l) ≠ Waiting.

Definition run_ok (t : Time) (ls : list tloop) (r : trun) : Prop :=
  holding r → t ≤ begun r + D ∧ ∃ l, ls !! owner r = Some l ∧ owner_ok (begun r) l.

Definition alarm_ok (l : tloop) : Prop :=
  periodic (entry (lp l)) = match al l with Periodic _ => true | Once _ => false end.

Definition roomy (sc : schedule) : Prop := periodic sc = true → J + D < interval sc.

Record tinv (s : tstate) : Prop := {
  ti_base : Sched.invariant (untimed s);
  ti_alarms : Forall alarm_ok (ls s);
  ti_roomy : Forall (λ l, roomy (entry (lp l))) (ls s);
  ti_cap : Z.of_nat (length (ls s)) ≤ cap s;
  ti_loops : Forall (loop_on_time (now s)) (ls s);
  ti_runs : Forall (run_ok (now s) (ls s)) (rs s);
  ti_owners : NoDup (owner <$> filter holding (rs s))
}.

(** ** Lemmas *)

Lemma lookup_replace {A} (l1 l2 : list A) x y i : i ≠ length l1 → (l1 ++ y :: l2) !! i = (l1 ++ x :: l2) !! i.
Proof.
  intros Hi. replace (l1 ++ y :: l2) with (<[length l1 := y]> (l1 ++ x :: l2)); [by rewrite list_lookup_insert_ne|].
  rewrite insert_app_r_alt, Nat.sub_diag by lia. done.
Qed.

Lemma runs_replace t l1 l l' l2 rs :
  Forall (run_ok t (l1 ++ l :: l2)) rs → (∀ b, t ≤ b + D → owner_ok b l → owner_ok b l') → Forall (run_ok t (l1 ++ l' :: l2)) rs.
Proof.
  intros HF Hl. eapply Forall_impl; [exact HF|]. intros r Hr Hh. destruct (Hr Hh) as (Ht & m & Hm & Ho). split; [done|].
  destruct (decide (owner r = length l1)) as [E|E].
  - rewrite E in *. rewrite list_lookup_middle in Hm by done. injection Hm as <-. exists l'. split; [by rewrite list_lookup_middle|by apply Hl].
  - exists m. split; [by rewrite (lookup_replace l1 l2 l l')|done].
Qed.

Lemma sem_holding s : Sched.invariant (untimed s) → sem s = Z.of_nat (length (filter holding (rs s))).
Proof.
  intros [Hs _ _ _ _]. simpl in Hs. rewrite Hs. f_equal. clear. induction (rs s) as [|r l IH]; [done|]. csimpl.
  rewrite filter_cons, IH. unfold holds_slot. destruct (decide (holding r)) as [E|E]; unfold holding in E;
    destruct (rpc (rn r)); try done; exfalso; by apply E.
Qed.

(** A loop that wants a slot gets one: the others hold at most one each. *)
Lemma slot_free s l1 l l2 : tinv s → ls s = l1 ++ l :: l2 → pc (lp l) = Dispatching → sem s < cap s.
Proof.
  intros [Hb _ _ Hc _ Hr Hnd] Hl Hpc. rewrite (sem_holding s Hb).
  cut (length (filter holding (rs s)) < length (ls s))%nat; [lia|].
  assert (Hnd' : NoDup (length l1 :: (owner <$> filter holding (rs s)))).
  { constructor; [|done]. intros (r & E & [Hh Hin]%list_elem_of_filter)%list_elem_of_fmap.
    rewrite Forall_forall in Hr. destruct (Hr r Hin Hh) as (_ & m & Hm & [Hm' _]).
    rewrite <-E, Hl, list_lookup_middle in Hm by done. congruence. }
  rewrite <-(length_seq (length (ls s)) 0). rewrite <-(length_fmap owner). change (S (length (owner <$> filter holding (rs s))) ≤ length (seq 0 (length (ls s))))%nat.
  change (S (length (owner <$> filter holding (rs s)))) with (length (length l1 :: (owner <$> filter holding (rs s)))).
  apply submseteq_length, NoDup_submseteq; [done|]. intros o [->|(r & -> & [Hh Hin]%list_elem_of_filter)%list_elem_of_fmap]%elem_of_cons.
  - apply elem_of_seq. rewrite Hl, length_app. simpl. lia.
  - rewrite Forall_forall in Hr. destruct (Hr r Hin Hh) as (_ & m & Hm & _). apply lookup_lt_Some in Hm. apply elem_of_seq. lia.
Qed.

Context (J_pos : 0 ≤ J) (D_pos : 0 ≤ D).

Lemma base_step s s' : Sched.invariant (untimed s) → tstep s s' → Sched.invariant (untimed s').
Proof. intros Hb Hs. destruct (tstep_refines s s' Hs) as [->|Hs']; [done|by eapply sched_invariant_step]. Qed.

(** One loop moves, and with it nothing but the loops. *)
Lemma replace_loops s l1 l l' l2 sem' wg' :
  tinv s → ls s = l1 ++ l :: l2 → entry (lp l') = entry (lp l) → alarm_ok l' → loop_on_time (now s) l' →
  (∀ b, now s ≤ b + D → owner_ok b l → owner_ok b l') →
  Sched.invariant (untimed (TState (now s) (cap s) (onError s) (l1 ++ l' :: l2) (rs s) sem' wg' (reported s))) →
  tinv (TState (now s) (cap s) (onError s) (l1 ++ l' :: l2) (rs s) sem' wg' (reported s)).
Proof.
  intros [Hb Hal Hro Hc Hl Hr Hnd] El Ee Ha' Hl' Ho Hb'. rewrite El in *. split; simpl; try done.
  - rewrite Forall_app, Forall_cons in *. tauto.
  - rewrite Forall_app, Forall_cons in *. by rewrite Ee.
  - rewrite length_app in *. done.
  - rewrite Forall_app, Forall_cons in *. tauto.
  - by eapply runs_replace.
Qed.

(** A loop seen at its place. *)
Lemma loop_at s l1 l l2 : tinv s → ls s = l1 ++ l :: l2 → roomy (entry (lp l)) ∧ loop_on_time (now s) l ∧ alarm_ok l.
Proof.
  intros [_ Hal Hro _ Hl _ _] El. rewrite El in *. split_and!; [by apply Forall_elt in Hro|by apply Forall_elt in Hl|by apply Forall_elt in Hal].
Qed.

Lemma tinv_elapse s t : tinv s → now s ≤ t → Forall (loop_prompt (sem s <? cap s) t) (elapse_loop t <$> ls s) →
  Forall (run_prompt t) (rs s) →
  tinv (TState t (cap s) (onError s) (elapse_loop t <$> ls s) (rs s) (sem s) (wg s) (reported s)).
Proof.
  intros Hi Ht Hpl Hpr. pose proof Hi as [Hb Hal Hro Hc Hl Hr Hnd].
  split; simpl; [| |by rewrite Forall_fmap|by rewrite length_fmap| | |done].
  - assert (E : untimed (TState t (cap s) (onError s) (elapse_loop t <$> ls s) (rs s) (sem s) (wg s) (reported s)) = untimed s);
      [|by rewrite E]. unfold untimed. simpl. f_equal. by rewrite <-list_fmap_compose.
  - rewrite Forall_fmap. eapply Forall_impl; [exact Hal|]. intros l Ha. unfold alarm_ok in *. simpl. by destruct (al l).
  - rewrite Forall_fmap, Forall_forall in *. intros l Hin Hp. simpl in *.
    destruct (Hl l Hin Hp) as (Hlen & Hst & tk & Ha & Hpe & Hot & Hpc). specialize (Hpl l Hin). specialize (Hro l Hin Hp).
    unfold elapse_loop, loop_prompt in *. simpl in *. rewrite Ha in *.
    assert (Hd : pc (lp l) = Dispatching → t ≤ tick l + J).
    { intros E. rewrite E in Hpl. apply list_elem_of_split in Hin as (l1 & l2 & El). pose proof (slot_free s l1 l l2 Hi El E) as Hf.
      by rewrite (proj2 (Z.ltb_lt _ _) Hf) in Hpl. }
    split_and!; [done|done|]. exists (elapse t tk). split_and!; [done|by rewrite period_elapse| |].
    + apply on_time_elapse with (now := now s); [lia|done|done|]. destruct (pc (lp l)); try done. specialize (Hd eq_refl).
      destruct Hot as [(HC & Hn & _)|(_ & _ & ?)]; [|lia]. rewrite elapse_early by lia. intros x. by rewrite HC.
    + destruct (pc (lp l)); try done. split; [tauto|by apply Hd].
  - rewrite Forall_forall in *. intros r Hin Hh. destruct (Hr r Hin Hh) as (_ & l & El & Ho). split; [by apply Hpr|].
    exists (elapse_loop t l). by rewrite list_lookup_fmap, El.
Qed.

Lemma tinv_tick s l1 sc n tk b x ss l2 y :
  tinv s → ls s = l1 ++ TLoop (Loop sc Waiting n) (Periodic tk) b x ss :: l2 → C tk = Some y →
  tinv (TState (now s) (cap s) (onError s) (l1 ++ TLoop (Loop sc Dispatching n) (Periodic (recv tk)) b y ss :: l2)
    (rs s) (sem s) (wg s) (reported s)).
Proof.
  intros Hi El HC. destruct (loop_at s _ _ _ Hi El) as (Hro & Hl & Hal).
  assert (Hy : periodic sc = true → y = x + interval sc ∧ y ≤ now s ≤ y + J ∧ on_time J y (now s) (recv tk) ∧ J + D < interval sc).
  { intros Hp. specialize (Hro Hp). destruct (Hl Hp) as (_ & _ & tk' & [= <-] & Hpe & Hot & _). simpl in *.
    destruct (on_time_recv J 0 x (now s) (now s) tk y) as (E & Hy & Ho); [done|lia|done|done|lia|].
    rewrite elapse_early in Ho by (destruct Hot as [(? & _)|(? & ? & ?)]; [congruence|simpl; lia]). split_and!; [lia|lia|lia|done|lia]. }
  eapply replace_loops; [exact Hi|exact El|done|exact Hal| | |].
  - intros Hp. destruct (Hy Hp) as (E & Hyn & Ho & _). destruct (Hl Hp) as (Hlen & Hst & tk' & [= <-] & Hpe & _ & Ht). simpl in *.
    split_and!; [done|done|]. exists (recv tk). split_and!; [done|done|done|lia|lia].
  - intros b' Hb' [_ Ho]. simpl in *. destruct (periodic sc) eqn:Hp; [|done]. destruct (Hy eq_refl) as (E & Hyn & _ & Hlt). lia.
  - eapply base_step; [apply Hi|]. by eapply s_tick.
Qed.

Lemma tinv_timer s l1 sc n t b x ss l2 :
  tinv s → ls s = l1 ++ TLoop (Loop sc Waiting n) (Once t) b x ss :: l2 → t ≤ now s →
  tinv (TState (now s) (cap s) (onError s) (l1 ++ TLoop (Loop sc Dispatching n) (Once t) b t ss :: l2) (rs s) (sem s) (wg s) (reported s)).
Proof.
  intros Hi El Ht. destruct (loop_at s _ _ _ Hi El) as (_ & Hl & Hp). unfold alarm_ok in Hp. simpl in Hp.
  eapply replace_loops; [exact Hi|exact El|done|exact Hp| | |].
  - intros Hp'. simpl in Hp'. congruence.
  - intros b' _ [_ Ho]. simpl in Ho. by rewrite Hp in Ho.
  - eapply base_step; [apply Hi|]. by eapply s_timer.
Qed.

Lemma tinv_loop_done s l1 sc n a b x ss l2 :
  tinv s → ls s = l1 ++ TLoop (Loop sc Exiting n) a b x ss :: l2 →
  tinv (TState (now s) (cap s) (onError s) (l1 ++ TLoop (Loop sc Gone n) a b x ss :: l2) (rs s) (sem s) (wg s - 1) (reported s)).
Proof.
  intros Hi El. destruct (loop_at s _ _ _ Hi El) as (_ & Hl & Hal). eapply replace_loops; [exact Hi|exact El|done|exact Hal| | |].
  - intros Hp. by destruct (Hl Hp) as (_ & _ & tk & _ & _ & _ & []).
  - intros b' _ [_ Ho]. split; [done|]. simpl in *. by destruct (periodic sc).
  - eapply base_step; [apply Hi|]. by eapply s_loop_done.
Qed.

Lemma tinv_dispatch s l1 sc n a b x ss l2 :
  tinv s → ls s = l1 ++ TLoop (Loop sc Dispatching n) a b x ss :: l2 → sem s < cap s →
  tinv (TState (now s) (cap s) (onError s) (l1 ++ TLoop (Loop sc (after_dispatch sc) (S n)) a b x (ss ++ [now s]) :: l2)
    (rs s ++ [TRun (length l1) (now s) (Run (job sc) InFn)]) (sem s + 1) (wg s + 1) (reported s)).
Proof.
  intros Hi El Hc. destruct (loop_at s _ _ _ Hi El) as (Hro & Hl & Ha'). pose proof Hi as [Hb Hal Hroom Hcap Hls Hr Hnd].
  set (l' := TLoop (Loop sc (after_dispatch sc) (S n)) a b x (ss ++ [now s])).
  assert (Hl' : loop_on_time (now s) l').
  { intros Hp. simpl in Hp. destruct (Hl Hp) as (Hlen & Hst & tk & Ha & Hpe & Hot & Htick & Hle). specialize (Hro Hp). simpl in *.
    assert (x ≤ now s) by (destruct Hot as [(_ & _ & ?)|(_ & _ & ?)]; lia).
    split_and!; [rewrite length_app; simpl; lia| |].
    - intros k t. destruct (decide (k < length ss)%nat); [rewrite lookup_app_l by done; apply Hst|].
      rewrite lookup_app_r by (by apply Nat.nlt_ge). change (@length Z ss) with (@length Time ss).
      destruct (k - length ss)%nat eqn:Ek; [|done]. intros [= <-]. assert (k = n) as -> by lia. lia.
    - exists tk. unfold after_dispatch. rewrite Hp. split_and!; [done|done|done|lia]. }
  assert (Hnew : owner_ok (now s) l').
  { unfold owner_ok, l', after_dispatch. simpl. destruct (periodic sc) eqn:Hp; [|done]. split; [done|].
    by destruct (Hl Hp) as (_ & _ & tk & _ & _ & _ & _ & ?). }
  split; simpl.
  - eapply base_step; [exact Hb|]. by eapply s_dispatch.
  - rewrite El, Forall_app, Forall_cons in Hal. rewrite Forall_app, Forall_cons. tauto.
  - rewrite El, Forall_app, Forall_cons in Hroom. by rewrite Forall_app, Forall_cons.
  - rewrite El, length_app in Hcap. by rewrite length_app.
  - rewrite El, Forall_app, Forall_cons in Hls. rewrite Forall_app, Forall_cons. tauto.
  - apply Forall_app. split.
    + eapply (runs_replace _ _ (TLoop (Loop sc Dispatching n) a b x ss)); [by rewrite <-El|]. by intros ? _ [[] _].
    + apply Forall_singleton. intros _. simpl. split; [lia|]. exists l'. split; [by apply list_lookup_middle|done].
  - rewrite filter_app, (filter_cons_True _ (TRun (length l1) (now s) (Run (job sc) InFn))), fmap_app by done.
    apply NoDup_app. split_and!; [done| |apply NoDup_singleton].
    intros o (r & -> & [Hh Hin]%list_elem_of_filter)%list_elem_of_fmap E%list_elem_of_singleton.
    rewrite Forall_forall in Hr. destruct (Hr r Hin Hh) as (_ & m & Hm & [Hm' _]). simpl in E.
    rewrite E, El, list_lookup_middle in Hm by done. by injection Hm as <-.
Qed.

(** The runs change, and the loops do not. *)
Lemma replace_runs s rs' sem' wg' rep :
  tinv s → Forall (run_ok (now s) (ls s)) rs' → (owner <$> filter holding rs') `sublist_of` (owner <$> filter holding (rs s)) →
  Sched.invariant (untimed (TState (now s) (cap s) (onError s) (ls s) rs' sem' wg' rep)) →
  tinv (TState (now s) (cap s) (onError s) (ls s) rs' sem' wg' rep).
Proof. intros [_ Hal Hro Hc Hl _ Hnd] Hr Hs Hb. split; try done. by eapply sublist_NoDup. Qed.

Lemma tinv_step s s' : tinv s → tstep s s' → tinv s'.
Proof.
  intros Hi Hs. pose proof (base_step _ _ (ti_base s Hi) Hs) as Hb. pose proof (ti_runs s Hi) as Hr.
  destruct Hs as [s t ? ? ?|s l1 sc n tk b x ss l2 y El HC|s l1 sc n t b x ss l2 El Ht|s l1 sc n a b x ss l2 El Hc|s l1 sc n a b x ss l2 El
    |s r1 o b j r2 res Er|s r1 o b j r2 Er|s r1 o b j r2 Er].
  - by apply tinv_elapse.
  - by eapply tinv_tick.
  - by eapply tinv_timer.
  - by eapply tinv_dispatch.
  - by eapply tinv_loop_done.
  - apply replace_runs; [done| | |done].
    + rewrite Er in Hr. rewrite Forall_app, Forall_cons in *. destruct Hr as (? & Hr & ?). split_and!; [done| |done]. intros _. by apply Hr.
    + rewrite Er, !filter_app, !filter_cons_True by done. by rewrite !fmap_app, !fmap_cons.
  - apply replace_runs; [done| | |done].
    + rewrite Er in Hr. rewrite Forall_app, Forall_cons in *. destruct Hr as (? & _ & ?). split_and!; [done|intros Hh; by destruct Hh|done].
    + rewrite Er, !filter_app, filter_cons_False, filter_cons_True by (done || intros Hh; by destruct Hh). rewrite !fmap_app, fmap_cons.
      by apply sublist_app, sublist_cons.
  - apply replace_runs; [done| | |done].
    + rewrite Er in Hr. rewrite Forall_app, Forall_cons in *. tauto.
    + by rewrite Er, !filter_app, filter_cons_False by (intros Hh; by destruct Hh).
Qed.

Lemma tinv_start sch s : tstart sch s → Z.of_nat (length (schedules sch)) ≤ workers sch → Forall roomy (schedules sch) → tinv s.
Proof.
  intros (ts & s0 & Hst & Hlen & Hts & Hls & Hrs & Hu) Hw Hro.
  assert (Hin : ∀ l, l ∈ ls s → ∃ sc t, l = tnew sc t ∧ sc ∈ schedules sch ∧ t ≤ now s ≤ t + J).
  { intros l Hl. rewrite Hls in Hl. apply elem_of_lookup_zip_with_1 in Hl as (i & sc & t & -> & Hsc & Ht). exists sc, t.
    split_and!; [done|by eapply list_elem_of_lookup_2|..]; rewrite Forall_forall in Hts; apply Hts; by eapply list_elem_of_lookup_2. }
  rewrite Forall_forall in Hro.
  split; [rewrite Hu; by eapply invariant_start| | | | | |]; try (apply Forall_forall; intros l (sc & t & -> & Hsc & Ht)%Hin).
  - unfold alarm_ok, tnew. simpl. by destruct (periodic sc).
  - by apply Hro.
  - rewrite Hls, length_zip_with_l_eq by done. pose proof (cap_start sch s0 s0 Hst (rtc_refl _ _)) as Hc. rewrite <-Hu in Hc. simpl in Hc. lia.
  - intros Hp. simpl in Hp. specialize (Hro sc Hsc Hp). unfold tnew, new_loop. simpl. rewrite Hp. split_and!; [done|by intros ? ? [=]|].
    eexists. split_and!; [done|done| |lia|lia]. left. simpl. split_and!; [done|done|lia|lia].
  - rewrite Hrs. constructor.
  - rewrite Hrs. constructor.
Qed.

(** ** Completed runs *)

(** The jobs of entry [i] that are inside their functions. *)
Definition inside (i : nat) (s : tstate) : nat := length (filter (λ r, owner r = i ∧ rpc (rn r) = InFn) (rs s)).

(** The runs of entry [i] that have returned. *)
Definition completed (i : nat) (l : tloop) (s : tstate) : Z := Z.of_nat (fired (lp l)) - Z.of_nat (inside i s).

(** One loop is replaced by one with the same start and entry. *)
Lemma loop_replace (l1 l2 : list tloop) l l' i m : (l1 ++ l :: l2) !! i = Some m → t0 l' = t0 l → entry (lp l') = entry (lp l) →
  ∃ m', (l1 ++ l' :: l2) !! i = Some m' ∧ t0 m' = t0 m ∧ entry (lp m') = entry (lp m) ∧
    (i = length l1 ∧ m = l ∧ m' = l' ∨ i ≠ length l1 ∧ m' = m).
Proof.
  intros Hm Ht He. destruct (decide (i = length l1)) as [->|Hi].
  - rewrite list_lookup_middle in Hm by done. injection Hm as <-. exists l'. rewrite list_lookup_middle by done. by split_and!; [| | |left].
  - exists m. rewrite (lookup_replace l1 l2 l l') by done. by split_and!; [| | |right].
Qed.

Lemma fired_step s s' i l : tstep s s' → ls s !! i = Some l →
  ∃ l', ls s' !! i = Some l' ∧ t0 l' = t0 l ∧ entry (lp l') = entry (lp l) ∧
    (fired (lp l') = fired (lp l) ∧ (inside i s' = inside i s ∨ inside i s = S (inside i s')) ∨
     fired (lp l') = S (fired (lp l)) ∧ inside i s' = S (inside i s)).
Proof.
  intros Hs. destruct Hs as [s t|s l1 sc n tk b x ss l2 y El|s l1 sc n t b x ss l2 El|s l1 sc n a b x ss l2 El Hc|s l1 sc n a b x ss l2 El
    |s r1 o b j r2 res Er|s r1 o b j r2 Er|s r1 o b j r2 Er]; intros Hl.
  1: { exists (elapse_loop t l). simpl. rewrite list_lookup_fmap, Hl. by split_and!; [| | |left; split; [|left]]. }
  1-4: rewrite El in Hl.
  1, 2, 4: eapply loop_replace in Hl as (m' & Hm & Ht & He & Hc);
    [exists m'; split_and!; [exact Hm|exact Ht|exact He|]; left; split; [|by left]; by destruct Hc as [(_ & -> & ->)|(_ & ->)]|done..].
  - eapply loop_replace in Hl as (m' & Hm & Ht & He & Hi); [exists m'; split_and!; [exact Hm|exact Ht|exact He|]|done..].
    unfold inside. simpl. rewrite filter_app, length_app, filter_cons, filter_nil. simpl.
    destruct Hi as [(-> & -> & ->)|(Hne & ->)]; [right; rewrite decide_True by done|left; rewrite decide_False by naive_solver];
      (split; [done|]); simpl; lia.
  - exists l. split_and!; [done..|]. left. split; [done|]. unfold inside. simpl. rewrite Er, !filter_app, !length_app, !filter_cons. simpl.
    rewrite (decide_False (P := o = i ∧ Returned = InFn)) by naive_solver. case_decide; simpl; lia.
  - exists l. split_and!; [done..|]. left. split; [done|]. left. unfold inside. simpl.
    rewrite Er, !filter_app, !filter_cons_False by naive_solver. done.
  - exists l. split_and!; [done..|]. left. split; [done|]. left. unfold inside. simpl. rewrite Er, !filter_app, filter_cons_False; [done|].
    naive_solver.
Qed.

(** A step completes a run of an entry exactly when one of its jobs returns. *)
Lemma completed_step s s' i l : tstep s s' → ls s !! i = Some l →
  ∃ l', ls s' !! i = Some l' ∧ t0 l' = t0 l ∧ entry (lp l') = entry (lp l) ∧
    completed i l' s' = completed i l s + (if decide (inside i s' < inside i s)%nat then 1 else 0).
Proof.
  intros Hs Hl. destruct (fired_step s s' i l Hs Hl) as (l' & ? & ? & ? & Hf). exists l'. split_and!; [done..|].
  unfold completed. case_decide; lia.
Qed.

(** At most one job of an entry is inside its function. *)
Lemma inside_run s i : tinv s → inside i s ≠ 0%nat → inside i s = 1%nat ∧ ∃ r, r ∈ rs s ∧ holding r ∧ owner r = i.
Proof.
  intros Hi H0. pose proof (ti_owners s Hi) as Hnd. unfold inside in *.
  assert (E : filter (λ r, owner r = i ∧ rpc (rn r) = InFn) (rs s) = filter (λ r, owner r = i ∧ rpc (rn r) = InFn) (filter holding (rs s))).
  { rewrite list_filter_filter_l; [done|]. intros r [_ Hr]. unfold holding. by rewrite Hr. }
  destruct (filter (λ r, owner r = i ∧ rpc (rn r) = InFn) (rs s)) as [|r l] eqn:Ef; [done|].
  assert (Hin : ∀ x, x ∈ r :: l → x ∈ rs s ∧ holding x ∧ owner x = i).
  { intros x. rewrite <-Ef. intros [[Ho Hp] Hx]%list_elem_of_filter. split_and!; [done| |done]. unfold holding. by rewrite Hp. }
  split; [|exists r; apply Hin; left].
  destruct l as [|r' l]; [done|]. exfalso.
  assert (Hs : (owner <$> r :: r' :: l) `sublist_of` (owner <$> filter holding (rs s))).
  { rewrite E. apply fmap_sublist, sublist_filter. }
  apply (sublist_NoDup _ _ Hnd), NoDup_cons in Hs as [Hs _]. apply Hs.
  apply elem_of_cons. left. destruct (Hin r) as (_ & _ & ->); [left|]. destruct (Hin r') as (_ & _ & ->); [right; left|done].
Qed.

(** The run that is due next returns in time, and one that is inside its function is not early. *)
Lemma completed_due s i l : tinv s → ls s !! i = Some l → periodic (entry (lp l)) = true →
  let I := interval (entry (lp l)) in
  now s ≤ t0 l + completed i l s * I + J + D ∧ (inside i s ≠ 0%nat → t0 l + completed i l s * I ≤ now s).
Proof.
  intros Hi Hl Hp I. pose proof Hl as (l1 & l2 & El)%list_elem_of_lookup_2%list_elem_of_split.
  destruct (loop_at s _ _ _ Hi El) as (Hrm & Hot & _). specialize (Hrm Hp).
  destruct (Hot Hp) as (_ & _ & tk & _ & Hpe & Ho & Hpc). fold I in Hrm, Hpe, Hpc. unfold completed.
  pose proof (on_time_bound J (tick l) (now s) tk ltac:(lia) Ho) as Hb.
  assert (tick l ≤ now s) by (destruct Ho as [(_ & _ & ?)|(_ & _ & ?)]; lia).
  destruct (decide (inside i s = 0%nat)) as [H0|H0].
  - rewrite H0, Z.sub_0_r. split; [|done]. destruct (pc (lp l)); [lia|lia|done|done].
  - destruct (inside_run s i Hi H0) as (H1 & r & Hr & Hh & Eo). rewrite H1. change (Z.of_nat 1) with 1.
    pose proof (ti_runs s Hi) as Hrs. rewrite Forall_forall in Hrs. destruct (Hrs r Hr Hh) as (Hd & m & Hm & Hpd & Hbe).
    rewrite Eo, Hl in Hm. injection Hm as <-. rewrite Hp in Hbe. destruct (pc (lp l)); [lia|done|done|done].
Qed.

(** ** Time is never stuck *)

(** What must happen before time passes. *)
Definition urgency (l : tloop) : nat :=
  match pc (lp l), al l with
  | Waiting, Periodic tk => match C tk with Some _ => 4 | None => 0 end
  | Dispatching, _ => 3
  | _, _ => 0
  end.
Definition run_urgency (r : trun) : nat := match rpc (rn r) with InFn => 2 | Returned => 1 | Released => 0 end.
Definition urgent (s : tstate) : nat := (sum_list_with urgency (ls s) + sum_list_with run_urgency (rs s))%nat.

Lemma urgent_step s : tinv s → (0 < urgent s)%nat → ∃ s', tstep s s' ∧ now s' = now s ∧ (urgent s' < urgent s)%nat.
Proof.
  intros Hi Hu. unfold urgent in Hu. destruct (decide (0 < sum_list_with urgency (ls s))%nat) as [Hl|Hl].
  - apply sum_list_with_pos in Hl as (l1 & [[sc p n] a b x ss] & l2 & El & Hx). destruct p; unfold urgency in Hx; simpl in Hx; try lia.
    + destruct a as [tk|]; [|lia]. destruct (C tk) as [y|] eqn:HC; [|lia]. eexists. split; [by eapply s_tick|]. split; [done|].
      unfold urgent. simpl. rewrite El, !sum_list_with_middle. unfold urgency at 1 3. simpl. rewrite HC. lia.
    + eexists. split; [eapply s_dispatch; [exact El|by eapply slot_free]|]. split; [done|]. unfold urgent. simpl.
      rewrite El, !sum_list_with_middle, app_nil_r.
      assert (E0 : urgency (TLoop (Loop sc (after_dispatch sc) (S n)) a b x (ss ++ [now s])) = 0%nat).
      { destruct (loop_at s _ _ _ Hi El) as (Hr & Hot & _). unfold urgency, after_dispatch. simpl. destruct (periodic sc) eqn:Hp; [|done].
        specialize (Hr Hp). destruct (Hot Hp) as (_ & _ & tk & Ea & Hpe & [(HC & _)|(_ & _ & ?)] & _ & Hle); simpl in *; [by rewrite Ea, HC|lia]. }
      rewrite E0. change (urgency (TLoop (Loop sc Dispatching n) a b x ss)) with 3%nat.
      change (run_urgency (TRun _ _ _)) with 2%nat. lia.
  - destruct (sum_list_with_pos run_urgency (rs s)) as (r1 & [o b [j p]] & r2 & Er & Hx); [lia|]. destruct p; unfold run_urgency in Hx; simpl in Hx; try lia.
    + eexists. split; [by eapply (s_return _ _ _ _ _ _ None)|]. split; [done|]. unfold urgent. simpl. rewrite Er, !sum_list_with_middle.
      unfold run_urgency at 1 3. simpl. lia.
    + eexists. split; [by eapply s_release|]. split; [done|]. unfold urgent. simpl. rewrite Er, !sum_list_with_middle.
      unfold run_urgency at 1 3. simpl. lia.
Qed.

Lemma sum_list_with_zero {A} (f : A → nat) l : sum_list_with f l = 0%nat → ∀ x, x ∈ l → f x = 0%nat.
Proof. induction l as [|y l IH]; simpl; intros H0 x; rewrite ?elem_of_nil, ?elem_of_cons; [done|]. intros [->|Hx]; [lia|apply IH; [lia|done]]. Qed.

Lemma idle_elapse s : tinv s → urgent s = 0%nat → ∃ s', tstep s s' ∧ now s' = now s + 1.
Proof.
  intros Hi Hu. unfold urgent in Hu. eexists. split; [apply (s_elapse s (now s + 1)); [lia| |]|done].
  - apply Forall_fmap, Forall_forall. intros l Hin. pose proof (sum_list_with_zero urgency (ls s) ltac:(lia) l Hin) as H0.
    pose proof Hin as (l1 & l2 & El)%list_elem_of_split. destruct (loop_at s _ _ _ Hi El) as (_ & Hot & Hal).
    unfold loop_prompt, elapse_loop, urgency, alarm_ok in *. simpl. destruct (al l) as [tk|] eqn:Ea; [|done].
    destruct (pc (lp l)); try done. destruct (C tk) eqn:HC; [done|]. destruct (Hot Hal) as (_ & _ & tk' & Etk & _ & Ho & _).
    rewrite Ea in Etk. injection Etk as <-. destruct Ho as [(_ & Hn & Hlt)|(? & _)]; [|congruence]. unfold prompt, elapse.
    destruct (Z.ltb_spec (now s + 1) (next tk)); intros x; simpl; rewrite HC; [done|]. simpl. intros [= <-]. lia.
  - apply Forall_forall. intros r Hin Hh. pose proof (sum_list_with_zero run_urgency (rs s) ltac:(lia) r Hin) as H0.
    unfold run_urgency, holding in *. by destruct (rpc (rn r)).
Qed.

Lemma time_passes s : tinv s → ∃ s', rtc tstep s s' ∧ now s < now s'.
Proof.
  remember (urgent s) as n eqn:Hn. revert s Hn. induction (lt_wf n) as [n _ IH]. intros s -> Hi.
  destruct (decide (urgent s = 0%nat)) as [H0|H0].
  - destruct (idle_elapse s Hi H0) as (s' & Hs & Hn). exists s'. split; [by apply rtc_once|lia].
  - destruct (urgent_step s Hi) as (s1 & Hs & Hn & Hlt); [lia|].
    destruct (IH _ Hlt s1 eq_refl) as (s2 & Hr & Hn2); [by eapply tinv_step|]. exists s2. split; [by eapply rtc_l|lia].
Qed.

(** ** Properties *)

(** C27: Periodic jobs run on time.  With at least as many slots as entries, and jobs that are done
    before the next tick, the [k]-th run of a periodic entry begins within [J] of the [k]-th
    multiple of its interval: no run is skipped, delayed by other entries or early; the next one
    is not overdue; an entry that wants a slot finds one; and the assumptions never stop the
    clock. *)
Theorem jobs_on_time sch s0 s : tstart sch s0 → Z.of_nat (length (schedules sch)) ≤ workers sch → Forall roomy (schedules sch) →
  rtc tstep s0 s →
  (∀ l, l ∈ ls s → periodic (entry (lp l)) = true →
     let I := interval (entry (lp l)) in
     length (starts l) = fired (lp l) ∧
     (∀ k b, starts l !! k = Some b → t0 l + Z.of_nat k * I ≤ b ≤ t0 l + Z.of_nat k * I + J) ∧
     now s ≤ t0 l + Z.of_nat (fired (lp l)) * I + J) ∧
  (∀ l, l ∈ ls s → pc (lp l) = Dispatching → sem s < cap s) ∧
  ∃ s', rtc tstep s s' ∧ now s < now s'.
Proof.
  intros H0 Hw Hro Hr. assert (Hi : tinv s).
  { apply (rtc_invariant tstep tinv s0 s); [eauto using tinv_step|by eapply tinv_start|done]. }
  split_and!; [| |by apply time_passes].
  - intros l (l1 & l2 & El)%list_elem_of_split Hp. destruct (loop_at s _ _ _ Hi El) as (Hrm & Hot & _). specialize (Hrm Hp).
    destruct (Hot Hp) as (Hlen & Hst & tk & _ & Hpe & Ho & Hpc). split_and!; [done|done|].
    pose proof (on_time_bound J (tick l) (now s) tk ltac:(lia) Ho) as Hb. destruct (pc (lp l)); [lia|lia|done|done].
  - intros l (l1 & l2 & El)%list_elem_of_split Hpc. by eapply slot_free.
Qed.

End Timed.

(** ** Witnesses *)

(** A job every minute and one a second after the start, with two slots. *)
Definition demo_timed : Scheduler := After Second "b" (Every Minute "a" (New 2 [])).
Definition demo_t0 : tstate :=
  TState 0 2 false [tnew (MkSchedule (MkJob "a") Minute 0) 0; tnew (MkSchedule (MkJob "b") 0 Second) 0] [] 0 2 [].
(** The first run has begun. *)
Definition demo_t1 : tstate :=
  let sc := MkSchedule (MkJob "a") Minute 0 in
  TState 0 2 false [TLoop (Loop sc Waiting 1) (Periodic (MkTicker Minute Minute None)) 0 0 [0]; tnew (MkSchedule (MkJob "b") 0 Second) 0]
    [TRun 0 0 (Run (MkJob "a") InFn)] 1 3 [].

Lemma jobs_on_time_witness : (∀ l, l ∈ ls demo_t1 → pc (lp l) = Dispatching → 1 < 2) ∧
  ∃ s', rtc (tstep Second Second) demo_t1 s' ∧ 0 < now s'.
Proof.
  apply (jobs_on_time Second Second ltac:(done) ltac:(done) demo_timed demo_t0 demo_t1).
  - exists [0; 0]. eexists. split_and!; [reflexivity|reflexivity| |reflexivity|reflexivity|reflexivity].
    repeat constructor; vm_compute; discriminate.
  - vm_compute. discriminate.
  - repeat constructor; vm_compute; congruence.
  - apply rtc_once. exact (s_dispatch Second Second demo_t0 [] _ _ _ _ _ _ _ eq_refl eq_refl).
Defined.

End SchedTimed.
