(* ===== verification/Main.v ===== *)
(** * examples/server: main, from the first constructor to the exit code

    [build] is main up to the registration of the shutdown hooks: every constructor in
    its order, with the panics they may raise, on the models of the packages.  [finish]
    is the rest: the wait for the signal, the hooks, and the deferred calls.  What the
    environment, the OpenTelemetry SDK and the Prometheus registry return is an argument. *)

From S2P Require Import Prelude GoLang Strings CircuitBreaker LruCache Graceful Health Pool Store Tracing Http Interceptors Rpc.
From S2P Require Import Float64 Metrics ProductApi RateLimit Server PubSub Orders Routes Sched.
Open Scope Z_scope.

Module Main.

Notation "'let?' x := m 'in' k" := (match m with Ret x => k | Panic e => Panic e end)
  (at level 200, x pattern, m at level 100, k at level 200).

(** Calls deferred by main, the last one first. *)
Inductive deferred := DeferCancel | DeferTracerShutdown | DeferUnsub.

(** [http.Server]. *)
Record httpServer := MkHttpServer { Addr : string; ReadTimeout : Duration; WriteTimeout : Duration; IdleTimeout : Duration }.

Section Main.
Context {R : Type} `{Metrics.Registerer R} {Sampler : Type} (AlwaysSample : Sampler).
Context `{!Interceptors.GrpcStatus} `{!Rpc.GrpcChain Server.world ProductApi.any ProductApi.any}.

(** The registrations of a gRPC server. *)
Context {S : Type} (no_services : S) (RegisterService :
  string * list (ProductApi.MethodDesc Server.world) → ProductApi.ProductServiceServer Server.world → S → S).
Context (Sprint : Z → string).

(** [init]: the codec registry before main. *)
Definition init (reg : gmap string Rpc.jsonCodec) : gmap string Rpc.jsonCodec := Rpc.Register reg.

Record app := App {
  registry : Metrics.Registry (R:=R);
  httpMetrics : Metrics.HTTPMetrics;
  rpcMetrics : Metrics.RPCMetrics;
  world : Server.world;
  orders : Orders.state;
  ipLimiter : RateLimit.KeyedLimiter string;
  scheduler : Sched.state;
  healthGroup : @Health.Group Server.checker;
  mux : Mux.ServeMux Routes.route;
  httpSrv : httpServer;
  grpcSrv : Rpc.Server (W:=Server.world) (Req:=ProductApi.any) (Resp:=ProductApi.any);
  services : S;
  defers : list deferred
}.

(** The tracer provider of main. *)
Definition tracer (Getenv : string → string) (resource stdout : option error) (otlp : string → option error)
    : list Tracing.setup * option error :=
  Tracing.NewTracerProvider AlwaysSample resource stdout otlp
    [Tracing.WithServiceName (Server.envOr Getenv "OTEL_SERVICE_NAME" "gkit-server");
     Tracing.WithEnvironment "development";
     Tracing.WithOTLPEndpoint (Getenv "OTEL_EXPORTER_OTLP_ENDPOINT")].

Definition jobs : Sched.Scheduler :=
  Sched.Every (60 * Second) "log-stats" (Sched.Every (30 * Second) "cache-warmup" (Sched.New 2 [Sched.WithOnError])).

Definition rpc_server : Rpc.Server :=
  Rpc.NewServer
    [Rpc.WithReflection;
     Rpc.WithUnaryInterceptors [Interceptors.Recovery; Interceptors.Logging; Interceptors.UnaryInterceptor];
     Rpc.WithStreamInterceptors [Interceptors.StreamRecovery; Interceptors.StreamLogging; Interceptors.StreamInterceptor]].

(** The collectors read their snapshot when they are scraped; registered is what they describe. *)
Definition cache_collector : Metrics.Collector :=
  Metrics.CDescs (Metrics.Cache_Describe (Metrics.NewCacheCollector "product_cache" (Metrics.MkCacheSnapshot 0 0 0 0))).
Definition pool_collector : Metrics.Collector :=
  Metrics.CDescs (Metrics.Pool_Describe (Metrics.NewPoolCollector "order_pool" (Metrics.MkPoolSnapshot 0 0 0 0 0))).

Definition build (fresh : R) (go process : Metrics.Collector) (otel : option error)
    (clk : nat → Time) (rnd : nat → bool) : outcome app :=
  let? reg := Metrics.NewRegistry fresh go process "gkit" in
  let '(r, hm) := Metrics.NewHTTPMetrics (Metrics.r_ reg) in
  let? hm := hm in
  let '(r, rm) := Metrics.NewRPCMetrics r in
  let? rm := rm in
  let? w := Server.start clk rnd in
  let '(reg, o) := Metrics.MustRegister [cache_collector] (Metrics.MkRegistry r (Metrics.namespace reg)) in
  let? _ := o in
  let? ord := Orders.boot in
  let '(reg, o) := Metrics.MustRegister [pool_collector] reg in
  let? _ := o in
  let? sch := Sched.Start jobs in
  let? m := Routes.mux in
  Ret (App reg hm rm w ord Server.ipLimiter sch Server.healthGroup m
    (MkHttpServer ":8080" (5 * Second) (10 * Second) (120 * Second)) rpc_server
    (ProductApi.RegisterProductServiceServer RegisterService (Server.productService Sprint) no_services)
    ([DeferUnsub] ++ (if otel then [] else [DeferTracerShutdown]) ++ [DeferCancel])).

(** ** The end *)

Inductive event := Hook (a : Server.action) | Deferred (d : deferred) | Exit (code : Z).

(** After [ListenAndShutdown]: an error exits at once, otherwise the deferred calls run. *)
Definition finish (http : option error) (ev : Graceful.wake) (a : app) : list event :=
  let '(tr, err) := Graceful.ListenAndShutdown (λ d tr, tr ++ [Server.ADeadline d]) ev (Server.shutdown_group http) [] in
  (Hook <$> tr) ++
  match err with
  | Some _ => [Exit 1]
  | None => (Deferred <$> defers a) ++ [Exit 0]
  end.

(** ** Listening *)

Inductive log := LogListening (what addr : string) | LogServeError (what : string) (err : option error).

Definition ErrServerClosed : error := ErrNew 91 "http: Server closed".

(** The two goroutines: what they log when the listener returns. *)
Definition http_goroutine (ListenAndServe : option error) : list log :=
  LogListening "HTTP" ":8080" ::
  if errors_Is ListenAndServe 91 then [] else [LogServeError "HTTP server error" ListenAndServe].

Definition grpc_goroutine (listen : option error) (ev : Rpc.serve_event) : list log :=
  LogListening "gRPC" ":50051" ::
  match (Rpc.Serve listen ev).2 with Some err => [LogServeError "gRPC error" (Some err)] | None => [] end.

(** ** Registration *)

(** The standard collectors: metrics with valid labels, valid and distinct names and a prefix
    of their own. *)
Definition standard (pre : string) (c : Metrics.Collector) : Prop :=
  NoDup (Metrics.ids c).*1 ∧ Forall (λ x, Metrics.valid_name x = true) (Metrics.ids c).*1 ∧
  Forall (λ x, String.prefix pre x = true) (Metrics.ids c).*1 ∧ Metrics.labels_ok c = true.

Definition http_collectors : list Metrics.Collector :=
  [Metrics.CVec (Metrics.requestsTotal Metrics.http_vecs); Metrics.CVec (Metrics.requestDuration Metrics.http_vecs);
   Metrics.CVec (Metrics.requestsInFlight Metrics.http_vecs); Metrics.CVec (Metrics.responseBytes Metrics.http_vecs)].
Definition rpc_collectors : list Metrics.Collector :=
  [Metrics.CVec (Metrics.rpc_requestsTotal Metrics.rpc_vecs); Metrics.CVec (Metrics.rpc_requestDuration Metrics.rpc_vecs);
   Metrics.CVec (Metrics.rpc_requestsInFlight Metrics.rpc_vecs)].

Definition own : list Metrics.Collector := http_collectors ++ rpc_collectors ++ [cache_collector; pool_collector].

Lemma own_names : (own ≫= Metrics.ids).*1 = Metrics.server_names.
Proof. reflexivity. Qed.

Lemma prefix_go_process s : String.prefix "go_" s = true → String.prefix "process_" s = true → False.
Proof.
  destruct s as [|c s]; [done|]. cbn [String.prefix]. destruct (Ascii.ascii_dec _ c) as [<-|]; [|done]. done.
Qed.

Lemma own_apart x : x ∈ (own ≫= Metrics.ids).*1 → String.prefix "go_" x = false ∧ String.prefix "process_" x = false.
Proof.
  rewrite own_names. intros Hx.
  assert (HF : Forall (λ s, String.prefix "go_" s = false ∧ String.prefix "process_" s = false) Metrics.server_names)
    by by repeat constructor.
  rewrite Forall_forall in HF. by apply HF.
Qed.

(** All of main's collectors fit into a fresh registry. *)
Lemma register_all fresh go process : Metrics.in_use fresh = [] → standard "go_" go → standard "process_" process →
  ∃ r, Metrics.reg_MustRegister ([go; process] ++ own) fresh = (r, Ret tt).
Proof.
  intros Hf (Hg1 & Hg2 & Hg3 & Hg4) (Hp1 & Hp2 & Hp3 & Hp4).
  assert (E : (([go; process] ++ own) ≫= Metrics.ids).*1 =
    (Metrics.ids go).*1 ++ (Metrics.ids process).*1 ++ (own ≫= Metrics.ids).*1) by (by rewrite <-!fmap_app).
  destruct (Metrics.MustRegister_new ([go; process] ++ own) fresh) as (r & Hr & _); [|by exists r].
  split; rewrite ?E.
  - apply NoDup_app. split_and!; [done| |apply NoDup_app; split_and!; [done| |]].
    + rewrite Forall_forall in Hg3. intros x Hx [Hx'|Hx']%elem_of_app.
      * rewrite Forall_forall in Hp3. eapply prefix_go_process; [by apply Hg3|by apply Hp3].
      * destruct (own_apart x Hx') as [Ho _]. rewrite Hg3 in Ho by done. done.
    + rewrite Forall_forall in Hp3. intros x Hx Hx'. destruct (own_apart x Hx') as [_ Ho]. rewrite Hp3 in Ho by done. done.
    + rewrite own_names. by apply (bool_decide_unpack _); vm_compute.
  - rewrite !Forall_app. split_and!; [done|done|]. rewrite own_names. by repeat constructor.
  - repeat (apply Forall_cons; split; [done || (vm_compute; reflexivity)|]). constructor.
  - rewrite Hf. intros x _. apply not_elem_of_nil.
Qed.

(** ** Properties *)

(** C36: The server starts.  On a fresh registry with the standard collectors main builds
    all its components without a panic, whether or not the tracer could be set up: no two
    metrics collide, no two routes conflict and no size is out of range.  The cache is
    warm, the order path is the one of Orders.v, both background jobs are about to run
    for the first time, the Product service is registered, and the deferred calls are [unsub], the tracer's shutdown if there
    is a tracer, and [cancel]. *)
Theorem main_starts fresh go process otel clk rnd :
  Metrics.in_use fresh = [] → standard "go_" go → standard "process_" process →
  ∃ a, build fresh go process otel clk rnd = Ret a ∧
    Server.start clk rnd = Ret (world a) ∧ Orders.boot = Ret (orders a) ∧ mux a = Routes.routes ∧
    Sched.Start jobs = Ret (scheduler a) ∧
    (λ l, (Sched.Name (Sched.job (Sched.entry l)), Sched.interval (Sched.entry l), Sched.pc l)) <$> Sched.loops (scheduler a) =
      [("cache-warmup", 30 * Second, Sched.Dispatching); ("log-stats", 60 * Second, Sched.Dispatching)] ∧
    services a = RegisterService ProductApi.ProductService_ServiceDesc (Server.productService Sprint) no_services ∧
    defers a = DeferUnsub :: (if otel then [] else [DeferTracerShutdown]) ++ [DeferCancel].
Proof.
  intros Hf Hg Hp. destruct (register_all fresh go process Hf Hg Hp) as (r & Hr).
  apply Metrics.must_app in Hr as (r1 & R1 & Hr). apply (Metrics.must_app http_collectors) in Hr as (r2 & R2 & Hr).
  apply (Metrics.must_app rpc_collectors) in Hr as (r3 & R3 & Hr). apply (Metrics.must_app [cache_collector]) in Hr as (r4 & R4 & R5).
  assert (Hw : ∃ w, Server.start clk rnd = Ret w) by by eexists. destruct Hw as [w Hw].
  unfold build, Metrics.NewRegistry. rewrite R1. cbn [Metrics.r_]. unfold Metrics.NewHTTPMetrics.
  change (Metrics.reg_MustRegister _ r1) with (Metrics.reg_MustRegister http_collectors r1). rewrite R2.
  unfold Metrics.NewRPCMetrics. change (Metrics.reg_MustRegister _ r2) with (Metrics.reg_MustRegister rpc_collectors r2).
  rewrite R3, Hw. unfold Metrics.MustRegister. cbn [Metrics.r_ Metrics.namespace]. rewrite R4. cbn [Metrics.r_ Metrics.namespace].
  rewrite R5. eexists. split; [reflexivity|]. cbn [world orders mux registry scheduler services defers Metrics.r_].
  by split_and!.
Qed.

(** The end of main.  The hooks run in the order opposite to their registration and
    the process exits with 0 exactly when the HTTP server shut down in time; then the
    deferred calls run, with the tracer's shutdown if there is one.  Otherwise it exits with
    1 and runs none of them: spans not yet exported are lost. *)
Theorem main_exits http ev a :
  finish http ev a =
  (Hook <$> [Server.ADeadline (15 * Second); Server.APoolStop; Server.AHttpShutdown; Server.AGrpcStop;
             Server.ACancel; Server.ASchedulerStop]) ++
  match http with
  | None => (Deferred <$> defers a) ++ [Exit 0]
  | Some _ => [Exit 1]
  end.
Proof. unfold finish. by destruct ev, http. Qed.
End Main.

(** ** Witness *)

Definition demo_go : Metrics.Collector := Metrics.CDescs [Metrics.MkDesc "go_goroutines" "Number of goroutines." []].
Definition demo_process : Metrics.Collector := Metrics.CDescs [Metrics.MkDesc "process_open_fds" "Open descriptors." []].

#[local] Existing Instances Metrics.table_registerer Interceptors.demo_status Rpc.foldr_chain.

Lemma main_starts_witness : ∃ a,
  build (R:=Metrics.table) (S:=list string) [] (λ desc _ l, l ++ [desc.1]) (λ _, "1") [] demo_go demo_process
    (Some (ErrNew 92 "no collector")) Server.demo_clock (λ _, false) = Ret a ∧
  services a = ["product.v1.ProductService"] ∧ defers a = [DeferUnsub; DeferCancel].
Proof.
  destruct (main_starts (R:=Metrics.table) (S:=list string) [] (λ desc _ l, l ++ [desc.1]) (λ _, "1") [] demo_go demo_process
    (Some (ErrNew 92 "no collector")) Server.demo_clock (λ _, false)) as (a & Ha & _ & _ & _ & _ & _ & Hs & Hd).
  - reflexivity.
  - split_and!; [by apply NoDup_singleton|by repeat constructor|by repeat constructor|reflexivity].
  - split_and!; [by apply NoDup_singleton|by repeat constructor|by repeat constructor|reflexivity].
  - exists a. split; [exact Ha|]. split; [exact Hs|exact Hd].
Defined.

End Main.
