(* ===== verification/Uptime.v ===== *)
(** * The running server on a timeline

    The scheduler of main with its timers (SchedTimed.v) and the service with its requests
    (Server.v), side by side.  The warm-up of the cache is the job of the first entry: it runs
    when that job returns.  The [n]-th reading of the service's clock happens between [now] and
    [now + E] of the scheduler's timeline, so [E] bounds how long one request or job takes; the
    readings nobody keeps ([idle]) are those of the log lines, the metrics and the limiter. *)

From S2P Require Import Prelude GoLang Float64 LruCache CircuitBreaker RateLimit Health Http ProductApi Server Routes Ticker Sched SchedTimed Main.
Open Scope Z_scope.

Module Uptime.
Import Float64 ProductApi Server SchedTimed.

(** A reading of the clock whose result is not used. *)
Definition idle (n : nat) (w : world) : world := Nat.iter n (λ w, (time_Now w).1) w.

(** The entry of the warm-up in [Main.jobs]. *)
Definition warmup_entry : Sched.schedule := Sched.MkSchedule (Sched.MkJob "cache-warmup") (30 * Second) 0.

Section Uptime.
Context (J D E : Duration).
Context (ctx_Err : world → option error) (contextSleep : Duration → world → world * option error)
  (rand_N : Duration → world → world * Duration) (Pow : float64 → float64 → float64) (oob : float64 → Z)
  (Sprint : Z → string).

(** The next reading of the clock. *)
Definition reading (w : world) : Time := clock w (reads w).

Definition synced (s : tstate) (w : world) : Prop := now s ≤ reading w ≤ now s + E.

(** A step of the scheduler, the return of the warm-up job, or a request or another job. *)
Inductive jstep : tstate * world → tstate * world → Prop :=
| j_sched s s' w n :
    tstep J D s s' → (inside 0 s ≤ inside 0 s')%nat → synced s' (idle n w) → jstep (s, w) (s', idle n w)
| j_warmup s s' w n :
    tstep J D s s' → (inside 0 s' < inside 0 s)%nat → synced s' (idle n (warmup w)) → jstep (s, w) (s', idle n (warmup w))
| j_op s w o n :
    let w' := idle n (run_op ctx_Err contextSleep rand_N Pow oob Sprint w o) in
    synced s w' → jstep (s, w) (s, w').

(** ** The invariant *)

(** The cache is warm since [tw]: with [c] warm-ups completed, since the beginning of the last
    one, or since main filled it. *)
Definition warm_since (tw : Time) (s : tstate) : Prop :=
  ∃ l, ls s !! 0%nat = Some l ∧ Sched.entry (lp l) = warmup_entry ∧
    let c := completed 0 l s in t0 l + (c - 1) * (30 * Second) ≤ tw ∨ c = 0 ∧ t0 l ≤ tw + E.

Record uinv (clk : nat → Time) (s : tstate) (w : world) : Prop := {
  u_sched : tinv J D s;
  u_inv : Inv w;
  u_clock : clock w = clk;
  u_synced : synced s w;
  u_warm : ∃ tw, warm tw w ∧ tw ≤ reading w ∧ warm_since tw s
}.

Context (J_pos : 0 ≤ J) (D_pos : 0 ≤ D) (slack : 30 * Second + J + D + 2 * E ≤ 5 * Minute).

(** ** Lemmas *)

Lemma ext_idle n w : ext w (idle n w).
Proof. induction n as [|n IH]; [done|]. etrans; [exact IH|]. apply (ext_time_Now (idle n w)). Qed.

Lemma ext_warm w w' tw : ext w w' → monotonic (clock w) → Inv w → tw ≤ reading w → reading w' ≤ tw + 5 * Minute →
  warm tw w → warm tw w'.
Proof.
  intros He Hm Hi Ht Hd Hw p Hp. unfold reading in *. rewrite (ext_clock _ _ He) in Hd. apply (ext_held _ _ He); try done. by apply Hw.
Qed.

Lemma ext_reading w w' : ext w w' → monotonic (clock w) → reading w ≤ reading w'.
Proof. intros He Hm. unfold reading. rewrite (ext_clock _ _ He). apply Hm, (ext_reads _ _ He). Qed.

Lemma warm_age tw s : 0 ≤ E → tinv J D s → warm_since tw s → now s ≤ tw + 30 * Second + J + D + E.
Proof.
  intros HE Hi (l & Hl & He & Hc).
  destruct (completed_due J D J_pos D_pos s 0 l Hi Hl) as [Hd _]; [by rewrite He|]. rewrite He in Hd.
  change (Sched.interval warmup_entry) with (30 * Second) in Hd. unfold Second in *. lia.
Qed.

(** What was warm since [tw] has not expired. *)
Lemma warm_fresh tw s w : tinv J D s → synced s w → warm_since tw s → reading w ≤ tw + 5 * Minute.
Proof.
  intros Hi Hs Hc. pose proof (warm_age tw s) as Ha. unfold synced in Hs. specialize (Ha ltac:(lia) Hi Hc). lia.
Qed.

(** Whatever is not a warm-up leaves the cache warm. *)
Lemma uinv_other clk s s' w w' : monotonic clk → uinv clk s w → tinv J D s' → ext w w' → synced s' w' →
  (∀ tw, warm_since tw s → warm_since tw s') → uinv clk s' w'.
Proof.
  intros Hm [Hi Hw Hc Hs (tw & Hwm & Ht & Hsince)] Hi' He Hs' Hkeep. split; [done|by apply (ext_inv _ _ He)| |done|].
  - by rewrite (ext_clock _ _ He).
  - subst clk. exists tw. split_and!; [|by etrans; [|apply ext_reading]|by apply Hkeep].
    eapply ext_warm; [done|done|done|done| |done]. by eapply warm_fresh; [|exact Hs'|apply Hkeep].
Qed.

Lemma uinv_refill clk s s' w w1 w2 : monotonic clk → uinv clk s w → tstep J D s s' → (inside 0 s' < inside 0 s)%nat →
  ext w w1 → (clock w (reads w1) ≤ clock w (reads w) + 5 * Minute → warm (clock w (reads w)) w1) → ext w1 w2 → synced s' w2 →
  uinv clk s' w2.
Proof.
  intros Hm [Hi Hw Hc Hs (tw & Hwm & Ht & l & Hl & He & Hb)] Hst Hlt Hx Hfill Hx' Hs'.
  pose proof (tinv_step J D J_pos D_pos s s' Hi Hst) as Hi'. assert (Hx2 : ext w w2) by by etrans.
  destruct (completed_due J D J_pos D_pos s 0 l Hi Hl) as [_ Hbeg]; [by rewrite He|].
  destruct (completed_step J D s s' 0 l Hst Hl) as (l' & Hl' & Et & Ee & Ec). rewrite decide_True in Ec by done.
  rewrite He in *. change (Sched.interval warmup_entry) with (30 * Second) in Hbeg.
  assert (Hsince : warm_since (reading w) s').
  { exists l'. split_and!; [done|by rewrite Ee|]. simpl. left. rewrite Ec, Et. destruct Hs. specialize (Hbeg ltac:(lia)). unfold Second in *. lia. }
  pose proof (warm_fresh _ _ _ Hi' Hs' Hsince) as Hfr. subst clk.
  assert (Hm' : monotonic (clock w1)) by by rewrite (ext_clock _ _ Hx).
  pose proof (ext_reading _ _ Hx' Hm') as Hr. pose proof (ext_reading _ _ Hx Hm) as Hr0.
  split; [done|by apply (ext_inv _ _ Hx2)|by rewrite (ext_clock _ _ Hx2)|done|].
  exists (reading w). split_and!; [|by etrans|done]. eapply ext_warm; [exact Hx'|done|by apply (ext_inv _ _ Hx)|done|done|].
  apply Hfill. unfold reading in *. rewrite (ext_clock _ _ Hx) in Hr. rewrite (ext_clock _ _ Hx2) in *. lia.
Qed.

Context (sleep_ext : ∀ d w, ext w (contextSleep d w).1) (rand_ext : ∀ n w, ext w (rand_N n w).1).

Lemma uinv_step clk s w s' w' : monotonic clk → uinv clk s w → jstep (s, w) (s', w') → uinv clk s' w'.
Proof.
  intros Hm Hu Hj. inversion Hj as [? ? ? n Ht Hle Hsy|? ? ? n Ht Hlt Hsy|? ? o n wo Hsy]; subst.
  - eapply uinv_other; [done|done|by eapply tinv_step, Ht; [| |apply Hu]|apply ext_idle|done|].
    intros tw (l & Hl & He & Hc). destruct (completed_step J D s s' 0 l Ht Hl) as (l' & Hl' & Et & Ee & Ec).
    rewrite decide_False in Ec by lia. exists l'. split_and!; [done|congruence|]. simpl. by rewrite Ec, Et, Z.add_0_r.
  - eapply (uinv_refill clk s s' w (warmup w)); [done|done|done|done|apply ext_warmup| |apply ext_idle|done].
    apply warmup_warm; [by rewrite (u_clock _ _ _ Hu)|by apply (u_inv _ _ _ Hu)].
  - eapply uinv_other; [done|done|apply Hu| |done|done]. etrans; [|apply ext_idle]. by apply ext_op.
Qed.

Lemma uinv_start clk rn s0 w0 : monotonic clk → J + D < 30 * Second → tstart J Main.jobs s0 → start clk rn = Ret w0 → synced s0 w0 →
  now s0 ≤ clk 0%nat + E → uinv clk s0 w0.
Proof.
  intros Hm Hroom Hts Hst Hsy Hlate. destruct (start_inv _ _ _ Hst) as [Hi Hc].
  assert (Hti : tinv J D s0).
  { eapply tinv_start; [done..| |]; [done|]. repeat constructor; intros _; simpl; unfold Second, Minute in *; lia. }
  split; [done|done|done|done|]. exists (clk 0%nat). destruct Hts as (ts & s1 & _ & Hlen & Hage & Hls & Hrs & _).
  destruct ts as [|t ts]; [done|]. apply Forall_cons in Hage as [Hage _].
  assert (Hsince : warm_since (clk 0%nat) s0).
  { eexists. rewrite Hls. split; [done|]. split; [done|]. right. unfold completed, inside. rewrite Hrs. simpl. split; [done|lia]. }
  pose proof (warm_fresh _ _ _ Hti Hsy Hsince) as Hfr. unfold reading in *. rewrite Hc in *.
  split_and!; [by eapply start_warm|apply Hm; lia|done].
Qed.

(** ** Properties *)

Context (size : response → Z) (report_size : Health.Report → Z) (redirect_size : string → Z)
  (decode : Http.Request → option OrderEvent) (EscapedPath : Http.Request → string)
  (metrics : Http.Request → Http.run) (location : string → string) (err_text : error → string) (order : list nat).
Notation ServeHTTP := (Routes.ServeHTTP ctx_Err contextSleep rand_N Pow oob size report_size redirect_size decode EscapedPath metrics location err_text order).
Notation serve := (Routes.serve ctx_Err contextSleep rand_N Pow oob size report_size redirect_size decode EscapedPath metrics location err_text order).

(** C11: The catalogue stays available as long as the server runs.  When ticks are received
    within [J], jobs return within [D], requests and jobs take at most [E], and
    [30s + J + D + 2E] is at most the five minutes of the cache, then at every moment from the
    start on, whatever requests, jobs and scheduler steps came before, the whole catalogue is
    in the cache since at most [30s + J + D + E]; and GET /products/{id} for one of its products that passes the
    rate limiter is answered 200 with that product, without the circuit breaker. *)
Theorem always_available clk rn s0 w0 s w :
  monotonic clk → J + D < 30 * Second → tstart J Main.jobs s0 → start clk rn = Ret w0 → synced s0 w0 → now s0 ≤ clk 0%nat + E →
  rtc jstep (s0, w0) (s, w) →
  (∃ tw, warm tw w ∧ now s ≤ tw + 30 * Second + J + D + E) ∧
  ∀ rnd t lim p r, Routes.shallow decode EscapedPath metrics → p ∈ sampleProducts → ctx_Err w = None →
    Http.Method r = "GET" → EscapedPath r = "/products/" +:+ ID p → (RateLimit.Keyed_Allow t (Http.RemoteAddr r) lim).2 = true →
    Http.wire_status (serve rnd t lim w r).1 = 200 ∧
    (ServeHTTP r w).2 = (response_events size (RProduct p), Ret tt) ∧ breaker (ServeHTTP r w).1 = breaker w.
Proof.
  intros Hm Hroom Hts Hst Hsy Hlate Hr.
  assert (Hu : uinv clk s w).
  { apply (rtc_invariant jstep (λ x, uinv clk x.1 x.2) (s0, w0) (s, w)); [|by eapply uinv_start|done].
    intros [s1 w1] [s2 w2] Hu1 Hj. by eapply uinv_step. }
  destruct Hu as [Hi Hinv Hclk Hs (tw & Hwm & Htw & Hsince)]. split.
  - exists tw. split; [done|]. eapply warm_age; [destruct Hs; lia|done|done].
  - intros rnd t lim p r Hsh Hp Hctx Hme Hpath Hlim. apply Routes.product_answer; try done.
    apply (GET_hit _ _ _ _ _ _ tw); [done|done|by apply Hwm|by eapply warm_fresh|done].
Qed.

End Uptime.

(** ** Witness *)

(** A thousand seconds into the clock of Server.v the warm-up starts and returns. *)
Definition demo_now : Time := 1000 * Second.
Definition stats_entry : Sched.schedule := Sched.MkSchedule (Sched.MkJob "log-stats") (60 * Second) 0.
Definition demo_s0 : tstate := TState demo_now 2 true [tnew warmup_entry demo_now; tnew stats_entry demo_now] [] 0 2 [].
Definition demo_s1 : tstate :=
  TState demo_now 2 true
    [TLoop (Sched.Loop warmup_entry Sched.Waiting 1) (Periodic (Ticker.MkTicker (30 * Second) (demo_now + 30 * Second) None)) demo_now demo_now [demo_now];
     tnew stats_entry demo_now] [TRun 0 demo_now (Sched.Run (Sched.MkJob "cache-warmup") Sched.InFn)] 1 3 [].
Definition demo_s2 : tstate :=
  TState demo_now 2 true (ls demo_s1) [TRun 0 demo_now (Sched.Run (Sched.MkJob "cache-warmup") Sched.Returned)] 1 3 [].

Lemma demo_steps : rtc (jstep Second Second Second (λ _, None) (λ _ w, (w, None)) (λ n w, (w, n - 1)) (λ _ y, y) (λ _, 0) (λ _, "1"))
  (demo_s0, demo_start) (demo_s2, warmup demo_start).
Proof.
  eapply rtc_l; [|apply rtc_once].
  - apply (j_sched _ _ _ _ _ _ _ _ _ demo_s0 demo_s1 demo_start 0); [|by vm_compute; lia|by vm_compute].
    exact (s_dispatch Second Second demo_s0 [] _ _ _ _ _ _ _ eq_refl eq_refl).
  - apply (j_warmup _ _ _ _ _ _ _ _ _ demo_s1 demo_s2 demo_start 0); [|by vm_compute; lia|by vm_compute].
    exact (s_return Second Second demo_s1 [] _ _ _ _ None eq_refl).
Qed.

Lemma always_available_witness :
  Http.wire_status (Routes.demo_serve (warmup demo_start) (Http.MkRequest "GET" "/products/p3" "" ∅ ∅ "10.0.0.1:4242" (Http.Ctx None None []))).1
  = 200.
Proof.
  apply (always_available Second Second Second (λ _, None) (λ _ w, (w, None)) (λ n w, (w, n - 1)) (λ _ y, y) (λ _, 0) (λ _, "1")
    ltac:(done) ltac:(done) ltac:(done) ltac:(reflexivity) ltac:(reflexivity) (λ _, 20) (λ _, 10) (λ _, 30) (λ _, None) Routes.demo_escaped Routes.demo_metrics
    (λ p, p) (λ _, "") [0; 1]%nat demo_clock (λ _, false) demo_s0 demo_start demo_s2 (warmup demo_start))
    with (p := MkProduct "p3" "4K Monitor" (cents 39999)).
  - apply demo_monotonic.
  - reflexivity.
  - exists [demo_now; demo_now]. eexists. split_and!; [reflexivity|reflexivity| |reflexivity|reflexivity|reflexivity].
    repeat constructor; vm_compute; discriminate.
  - reflexivity.
  - vm_compute. split; discriminate.
  - vm_compute. discriminate.
  - apply demo_steps.
  - apply Routes.demo_shallow.
  - right. right. left.
  - reflexivity.
  - reflexivity.
  - reflexivity.
  - vm_compute. reflexivity.
Defined.

End Uptime.
