(* ===== verification/Stream.v ===== *)
(** * pkg/async: streams

    A stream is the goroutine of its last operator with the channel it writes to; the
    goroutines upstream are part of it.  [move] is one action of one of these
    goroutines, so that a schedule is a list of choices, and a run of [Collect] is a
    sequence of such actions interleaved with its own receives.  The theorem is that
    of a Kahn network: whatever the schedule, [Collect] returns the list function the
    operators stand for.  [errCh] is closed before [ch] and nothing in the package ever
    sends on it, so it is not part of the state. *)

From S2P Require Import Prelude GoLang.
Open Scope Z_scope.

Module Stream.

Record chan (A : Type) := Chan { buf : list A; cap : nat; closed : bool }.
Arguments Chan {A}.
Arguments buf {A}.
Arguments cap {A}.
Arguments closed {A}.

Definition make {A} (n : nat) : chan A := Chan [] n false.
Definition full {A} (c : chan A) : bool := bool_decide (cap c ≤ length (buf c))%nat.
Definition push {A} (v : A) (c : chan A) : chan A := Chan (buf c ++ [v]) (cap c) (closed c).
Definition close {A} (c : chan A) : chan A := Chan (buf c) (cap c) true.

(** A producer function of [Generate], as far as the stream sees it: it returns, or calls
    [send] with a value and goes on as the answer tells it.  Every producer that returns after
    finitely many calls, whatever it is answered, is one of these; FromSlice's is [of_list]. *)
Inductive producer (A : Type) := Return | Send (v : A) (k : bool → producer A).
Arguments Return {A}.
Arguments Send {A}.

Fixpoint of_list {A} (l : list A) : producer A :=
  match l with [] => Return | v :: l => Send v (λ ok, if ok then of_list l else Return) end.

(** The goroutines: [hold] is a value received and on its way to the channel.  A closed
    output channel means that the goroutine has returned. *)
Inductive Stream : Type → Type :=
| SGenerate {A} (p : producer A) (ch : chan A) : Stream A
| SMap {A B} (fn : A → B) (s : Stream A) (hold : option B) (ch : chan B) : Stream B
| SFilter {A} (keep : A → bool) (s : Stream A) (hold : option A) (ch : chan A) : Stream A
| STake {A} (n count : Z) (s : Stream A) (hold : option A) (ch : chan A) : Stream A.

Definition out {A} (s : Stream A) : chan A :=
  match s with SGenerate _ ch | SMap _ _ _ ch | SFilter _ _ _ ch | STake _ _ _ _ ch => ch end.

(** ** Constructors *)

Definition Generate {A} (p : producer A) : Stream A := SGenerate p (make 16).
Definition FromSlice {A} (l : list A) : Stream A := Generate (of_list l).
Definition Map {A B} (s : Stream A) (fn : A → B) : Stream B := SMap fn s None (make (cap (out s))).
Definition Filter {A} (s : Stream A) (keep : A → bool) : Stream A := SFilter keep s None (make (cap (out s))).
Definition Take {A} (s : Stream A) (n : Z) : Stream A := STake n 0 s None (make (cap (out s))).

(** ** Actions *)

Definition set_out {A} (s : Stream A) : chan A → Stream A :=
  match s in Stream A return chan A → Stream A with
  | SGenerate p _ => λ c, SGenerate p c
  | SMap f s h _ => λ c, SMap f s h c
  | SFilter k s h _ => λ c, SFilter k s h c
  | STake n i s h _ => λ c, STake n i s h c
  end.

(** A receive from the stream's channel. *)
Definition recv {A} (s : Stream A) : option (A * Stream A) :=
  match buf (out s) with
  | v :: b => Some (v, set_out s (Chan b (cap (out s)) (closed (out s))))
  | [] => None
  end.

(** The channel is closed and drained: a receive reports [!ok]. *)
Definition drained {A} (s : Stream A) : bool := closed (out s) && bool_decide (length (buf (out s)) = 0%nat).

(** [move d i s]: the goroutine [i] operators upstream acts; [d] is whether the context
    of [Generate] is done and the select of its [send] takes that case.  [None]: it has
    returned or is blocked. *)
Fixpoint move (d : bool) (i : nat) {A} (s : Stream A) {struct s} : option (Stream A) :=
  match s in Stream A return option (Stream A) with
  | SGenerate p ch =>
    match i with
    | S _ => None
    | O =>
      if closed ch then None
      else match p with
           | Return => Some (SGenerate Return (close ch))
           | Send v k =>
             if d then Some (SGenerate (k false) ch)
             else if full ch then None else Some (SGenerate (k true) (push v ch))
           end
    end
  | SMap fn s hold ch =>
    match i with
    | S i => match move d i s with Some s => Some (SMap fn s hold ch) | None => None end
    | O =>
      if closed ch then None
      else match hold with
           | Some v => if full ch then None else Some (SMap fn s None (push v ch))
           | None =>
             match recv s with
             | Some (v, s) => Some (SMap fn s (Some (fn v)) ch)
             | None => if drained s then Some (SMap fn s None (close ch)) else None
             end
           end
    end
  | SFilter keep s hold ch =>
    match i with
    | S i => match move d i s with Some s => Some (SFilter keep s hold ch) | None => None end
    | O =>
      if closed ch then None
      else match hold with
           | Some v => if full ch then None else Some (SFilter keep s None (push v ch))
           | None =>
             match recv s with
             | Some (v, s) => Some (SFilter keep s (if keep v then Some v else None) ch)
             | None => if drained s then Some (SFilter keep s None (close ch)) else None
             end
           end
    end
  | STake n count s hold ch =>
    match i with
    | S i => match move d i s with Some s => Some (STake n count s hold ch) | None => None end
    | O =>
      if closed ch then None
      else match hold with
           | Some v => if full ch then None else Some (STake n (wrap64 (count + 1)) s None (push v ch))
           | None =>
             match recv s with
             | Some (v, s) => if count >=? n then Some (STake n count s None (close ch))
                              else Some (STake n count s (Some v) ch)
             | None => if drained s then Some (STake n count s None (close ch)) else None
             end
           end
    end
  end.

(** ** Collect *)

(** [Collect] while it runs, and its return: [inl] when its own context was done. *)
Inductive collect (A : Type) :=
| Collecting (acc : list A) (s : Stream A)
| Returned (r : error + list A) (s : Stream A).
Arguments Collecting {A}.
Arguments Returned {A}.

(** [cs] and [cd] are whether the context of [Generate] and that of [Collect] are done. *)
Inductive step {A} (cs cd : bool) : collect A → collect A → Prop :=
| step_move acc s i d s' : (d = true → cs = true) → move d i s = Some s' →
    step cs cd (Collecting acc s) (Collecting acc s')
| step_recv acc s v s' : recv s = Some (v, s') → step cs cd (Collecting acc s) (Collecting (acc ++ [v]) s')
| step_end acc s : drained s = true → step cs cd (Collecting acc s) (Returned (inr acc) s)
| step_ctx acc s err : cd = true → step cs cd (Collecting acc s) (Returned (inl err) s).

(** ** ForEach *)

(** [seen] are the items [fn] was called with. *)
Inductive each (A : Type) :=
| Each (seen : list A) (s : Stream A)
| EachReturned (seen : list A) (err : option error).
Arguments Each {A}.
Arguments EachReturned {A}.

Inductive each_step {A} (fn : A → option error) (cs cd : bool) : each A → each A → Prop :=
| each_move seen s i d s' : (d = true → cs = true) → move d i s = Some s' →
    each_step fn cs cd (Each seen s) (Each seen s')
| each_recv seen s v s' : recv s = Some (v, s') → fn v = None →
    each_step fn cs cd (Each seen s) (Each (seen ++ [v]) s')
| each_fail seen s v s' err : recv s = Some (v, s') → fn v = Some err →
    each_step fn cs cd (Each seen s) (EachReturned (seen ++ [v]) (Some err))
| each_end seen s : drained s = true → each_step fn cs cd (Each seen s) (EachReturned seen None)
| each_ctx seen s err : cd = true → each_step fn cs cd (Each seen s) (EachReturned seen (Some err)).

(** ** Batch *)

(** What the goroutine of [Batch] selects: an item, the timer, the closed input. *)
Inductive batch_event (A : Type) := BItem (v : A) | BTick | BClose.
Arguments BItem {A}.
Arguments BTick {A}.
Arguments BClose {A}.

(** The buffer and the batches sent so far. *)
Record batcher (A : Type) := Batcher { bbuf : list A; sent : list (list A); finished : bool }.
Arguments Batcher {A}.
Arguments bbuf {A}.
Arguments sent {A}.
Arguments finished {A}.

(** Without the timer, which only decides when the next [BTick] comes. *)
Definition flush {A} (b : batcher A) : batcher A :=
  if bool_decide (0 < length (bbuf b))%nat then Batcher [] (sent b ++ [bbuf b]) (finished b) else b.

Definition batch_step {A} (size : Z) (b : batcher A) (e : batch_event A) : batcher A :=
  if finished b then b else
  match e with
  | BItem v =>
    let b := Batcher (bbuf b ++ [v]) (sent b) false in
    if Z.of_nat (length (bbuf b)) >=? size then flush b else b
  | BTick => flush b
  | BClose => let b := flush b in Batcher (bbuf b) (sent b) true
  end.

(** [make([]T, 0, size)] panics on a negative size. *)
Definition Batch {A} (size : Z) (es : list (batch_event A)) : outcome (batcher A) :=
  if size <? 0 then Panic "makeslice: cap out of range"
  else Ret (fold_left (batch_step size) es (Batcher [] [] false)).

Definition items {A} (es : list (batch_event A)) : list A :=
  es ≫= λ e, match e with BItem v => [v] | _ => [] end.

(** ** Specification *)

(** What a producer sends as long as nothing is cancelled, and how many calls it makes at most. *)
Fixpoint yields {A} (p : producer A) : list A :=
  match p with Return => [] | Send v k => v :: yields (k true) end.
Fixpoint sends {A} (p : producer A) : nat :=
  match p with Return => 0 | Send _ k => S (Nat.max (sends (k true)) (sends (k false))) end.

(** It returns when [send] answers false, as the comment of [Generate] asks. *)
Fixpoint obeys {A} (p : producer A) : Prop :=
  match p with Return => True | Send _ k => k false = Return ∧ obeys (k true) end.

(** What is still to come out of a stream. *)
Fixpoint den {A} (s : Stream A) : list A :=
  match s in Stream A return list A with
  | SGenerate p ch => buf ch ++ (if closed ch then [] else yields p)
  | SMap fn s hold ch => buf ch ++ (if closed ch then [] else option_list hold ++ map fn (den s))
  | SFilter keep s hold ch => buf ch ++ (if closed ch then [] else option_list hold ++ filter keep (den s))
  | STake n count s hold ch =>
    buf ch ++ (if closed ch then []
               else option_list hold ++ take (Z.to_nat (n - count) - length (option_list hold)) (den s))
  end.

(** ** Well-formed streams *)

Fixpoint wf {A} (s : Stream A) : Prop :=
  match s with
  | SGenerate _ ch => (0 < cap ch)%nat
  | SMap _ s _ ch => (0 < cap ch)%nat ∧ wf s
  | SFilter _ s _ ch => (0 < cap ch)%nat ∧ wf s
  | STake n count s hold ch =>
    (0 < cap ch)%nat ∧ wf s ∧ is_int64 n ∧ 0 ≤ count ≤ Z.max 0 n ∧ (is_Some hold → count < n)
  end.

(** Upper bounds on the values still to come out and on the actions still to come. *)
Fixpoint cnt {A} (s : Stream A) : nat :=
  match s with
  | SGenerate p ch => length (buf ch) + sends p
  | SMap _ s hold ch => length (buf ch) + length (option_list hold) + cnt s
  | SFilter _ s hold ch => length (buf ch) + length (option_list hold) + cnt s
  | STake _ _ s hold ch => length (buf ch) + length (option_list hold) + cnt s
  end.

Fixpoint obeying {A} (s : Stream A) : Prop :=
  match s with SGenerate p _ => obeys p | SMap _ s _ _ | SFilter _ s _ _ | STake _ _ s _ _ => obeying s end.

Definition open {A} (c : chan A) : nat := if closed c then 0 else 1.

Fixpoint work {A} (s : Stream A) : nat :=
  match s with
  | SGenerate p ch => sends p + open ch
  | SMap _ s hold ch => work s + 2 * cnt s + length (option_list hold) + open ch
  | SFilter _ s hold ch => work s + 2 * cnt s + length (option_list hold) + open ch
  | STake _ _ s hold ch => work s + 2 * cnt s + length (option_list hold) + open ch
  end.

(** ** Lemmas *)

Lemma wf_cap {A} (s : Stream A) : wf s → (0 < cap (out s))%nat.
Proof. destruct s; simpl; tauto. Qed.

Lemma full_false {A} (c : chan A) : full c = false ↔ (length (buf c) < cap c)%nat.
Proof. unfold full. rewrite bool_decide_eq_false. lia. Qed.

Lemma recv_spec {A} (s : Stream A) v s' : recv s = Some (v, s') →
  den s = v :: den s' ∧ cnt s = S (cnt s') ∧ work s' = work s ∧ (wf s → wf s') ∧ cap (out s') = cap (out s).
Proof.
  unfold recv. destruct (buf (out s)) as [|x b] eqn:E; [done|]. intros [= <- <-].
  destruct s; simpl in *; rewrite E; simpl; split_and!; done || tauto.
Qed.

Lemma drained_spec {A} (s : Stream A) : drained s = true → den s = [].
Proof.
  unfold drained. intros [Hc Hb%bool_decide_eq_true]%andb_true_iff. apply nil_length_inv in Hb.
  destruct s; simpl in *; by rewrite Hc, Hb.
Qed.

Lemma wf_Take_count n count : is_int64 n → 0 ≤ count → count < n → wrap64 (count + 1) = count + 1.
Proof. intros [_ ?] ??. apply wrap64_id. unfold is_int64, int64_min in *. lia. Qed.

Lemma stage_prefix {A} (b h x y : list A) (c : bool) : x `prefix_of` y →
  b ++ (if c then [] else h ++ x) `prefix_of` b ++ (if c then [] else h ++ y).
Proof. intros. destruct c; [done|]. by do 2 apply prefix_app. Qed.

Lemma map_prefix {A B} (f : A → B) x y : x `prefix_of` y → map f x `prefix_of` map f y.
Proof. intros [k ->]. rewrite map_app. by apply prefix_app_r. Qed.
Lemma filter_prefix {A} (f : A → bool) x y : x `prefix_of` y → filter f x `prefix_of` filter f y.
Proof. intros [k ->]. rewrite filter_app. by apply prefix_app_r. Qed.
Lemma take_prefix_mono {A} n (x y : list A) : x `prefix_of` y → take n x `prefix_of` take n y.
Proof. intros [k ->]. rewrite take_app. by apply prefix_app_r. Qed.

Lemma of_list_spec {A} (l : list A) : yields (of_list l) = l ∧ obeys (of_list l).
Proof. induction l as [|v l [IH1 IH2]]; simpl; [done|]. by rewrite IH1. Qed.

Lemma recv_obeying {A} (s : Stream A) v s' : recv s = Some (v, s') → obeying s → obeying s'.
Proof. unfold recv. destruct (buf (out s)); [done|]. intros [= _ <-]. by destruct s. Qed.

Lemma move_obeying d i {A} (s s' : Stream A) : move d i s = Some s' → obeying s → obeying s'.
Proof.
  revert i s'. induction s as [A p ch|A B fn s IH hold ch|A keep s IH hold ch|A n count s IH hold ch]; intros i s' Hm Ho; simpl in Hm.
  - destruct i; [|done]. destruct (closed ch); [done|]. destruct p as [|v k]; [by simplify_eq|].
    destruct Ho as [Hf Ht]. destruct d; [simplify_eq/=; by rewrite Hf|]. destruct (full ch); [done|]. by simplify_eq.
  - destruct i as [|i]; [|destruct (move d i s) eqn:E; [|done]; simplify_eq/=; by eapply IH].
    destruct (closed ch); [done|]. destruct hold; [destruct (full ch); [done|by simplify_eq]|].
    destruct (recv s) as [[v s1]|] eqn:Er; [simplify_eq/=; by eapply recv_obeying|destruct (drained s); by simplify_eq].
  - destruct i as [|i]; [|destruct (move d i s) eqn:E; [|done]; simplify_eq/=; by eapply IH].
    destruct (closed ch); [done|]. destruct hold; [destruct (full ch); [done|by simplify_eq]|].
    destruct (recv s) as [[v s1]|] eqn:Er; [simplify_eq/=; by eapply recv_obeying|destruct (drained s); by simplify_eq].
  - destruct i as [|i]; [|destruct (move d i s) eqn:E; [|done]; simplify_eq/=; by eapply IH].
    destruct (closed ch); [done|]. destruct hold; [destruct (full ch); [done|by simplify_eq]|].
    destruct (recv s) as [[v s1]|] eqn:Er; [|destruct (drained s); by simplify_eq].
    destruct (count >=? n); simplify_eq/=; by eapply recv_obeying.
Qed.

(** One action: what is to come stays the same, or is cut short when the producer's
    context is done; and there is less left to do. *)
Definition advances {A} (d : bool) (s s' : Stream A) : Prop :=
  wf s' ∧ (obeying s → den s' `prefix_of` den s) ∧ (d = false → den s' = den s) ∧
  (cnt s' ≤ cnt s)%nat ∧ (work s' < work s)%nat ∧ cap (out s') = cap (out s).

(** The usual case. *)
Lemma advances_eq {A} d (s s' : Stream A) : wf s' → den s' = den s → (cnt s' ≤ cnt s)%nat → (work s' < work s)%nat →
  cap (out s') = cap (out s) → advances d s s'.
Proof. intros ? He ???. split_and!; try done. by rewrite He. Qed.

Lemma src_advances d {A} (p : producer A) ch i s' :
  wf (SGenerate p ch) → move d i (SGenerate p ch) = Some s' → advances d (SGenerate p ch) s'.
Proof.
  intros Hwf Hm. simpl in Hm. destruct i; [|done]. destruct (closed ch) eqn:Ec; [done|].
  destruct p as [|v k]; [|destruct d].
  - simplify_eq/=. apply advances_eq; simpl; unfold open; rewrite ?Ec; simpl; done || lia.
  - simplify_eq/=. unfold advances. simpl. unfold open. rewrite Ec. split_and!; try done; try lia.
    intros [-> _]. simpl. rewrite app_nil_r. by apply prefix_app_r.
  - destruct (full ch); [done|]. simplify_eq/=.
    apply advances_eq; simpl; unfold open; simpl; rewrite ?Ec, ?length_app, <-?app_assoc; simpl; done || lia.
Qed.

Lemma map_advances d {A B} (fn : A → B) s hold ch s' :
  wf (SMap fn s hold ch) → move d 0 (SMap fn s hold ch) = Some s' → advances d (SMap fn s hold ch) s'.
Proof.
  intros [Hc Hwf] Hm. simpl in Hm. destruct (closed ch) eqn:Ec; [done|]. destruct hold as [v|].
  - destruct (full ch); [done|]. simplify_eq/=.
    apply advances_eq; simpl; unfold open; simpl; rewrite ?Ec, ?length_app, <-?app_assoc; simpl; done || lia.
  - destruct (recv s) as [[v s1]|] eqn:Er.
    + apply recv_spec in Er as (Hd & Hn & Hw & Hwf' & _). simplify_eq/=.
      apply advances_eq; simpl; rewrite ?Ec, ?Hd, ?Hn, ?Hw; simpl; [by auto|done|lia|lia|done].
    + destruct (drained s) eqn:Ed; [|done]. apply drained_spec in Ed. simplify_eq/=.
      apply advances_eq; simpl; unfold open; simpl; rewrite ?Ec, ?Ed; simpl; done || lia.
Qed.

Lemma filter_advances d {A} (keep : A → bool) s hold ch s' :
  wf (SFilter keep s hold ch) → move d 0 (SFilter keep s hold ch) = Some s' → advances d (SFilter keep s hold ch) s'.
Proof.
  intros [Hc Hwf] Hm. simpl in Hm. destruct (closed ch) eqn:Ec; [done|]. destruct hold as [v|].
  - destruct (full ch); [done|]. simplify_eq/=.
    apply advances_eq; simpl; unfold open; simpl; rewrite ?Ec, ?length_app, <-?app_assoc; simpl; done || lia.
  - destruct (recv s) as [[v s1]|] eqn:Er.
    + apply recv_spec in Er as (Hd & Hn & Hw & Hwf' & _). simplify_eq/=.
      apply advances_eq; simpl; rewrite ?Ec, ?Hd, ?Hn, ?Hw; [by auto| | | |done].
      * rewrite filter_cons. destruct (keep v); [by rewrite decide_True|]. rewrite decide_False; [done|by intros []].
      * destruct (keep v); simpl; lia.
      * destruct (keep v); simpl; lia.
    + destruct (drained s) eqn:Ed; [|done]. apply drained_spec in Ed. simplify_eq/=.
      apply advances_eq; simpl; unfold open; simpl; rewrite ?Ec, ?Ed; simpl; done || lia.
Qed.

Lemma take_advances d {A} n count (s : Stream A) hold ch s' :
  wf (STake n count s hold ch) → move d 0 (STake n count s hold ch) = Some s' → advances d (STake n count s hold ch) s'.
Proof.
  intros (Hc & Hwf & Hn64 & Hcount & Hhold) Hm. simpl in Hm. destruct (closed ch) eqn:Ec; [done|].
  destruct hold as [v|].
  - specialize (Hhold ltac:(by eexists)). destruct (full ch); [done|]. rewrite (wf_Take_count n) in Hm by (done || lia).
    simplify_eq/=. apply advances_eq; simpl; unfold open; simpl; rewrite ?Ec, ?length_app, <-?app_assoc; simpl; [|..|lia|lia|done].
    + split_and!; try done; try lia.
    + do 3 f_equal. lia.
  - destruct (recv s) as [[v s1]|] eqn:Er.
    + apply recv_spec in Er as (Hd & Hn & Hw & Hwf' & _). destruct (count >=? n) eqn:E; zbool; simplify_eq/=.
      * apply advances_eq; simpl; unfold open; simpl; rewrite ?Ec, ?Hd, ?Hn, ?Hw; simpl; [|..|lia|lia|done].
        -- split_and!; try done; auto; lia.
        -- replace (Z.to_nat (n - count) - 0)%nat with 0%nat by lia. done.
      * apply advances_eq; simpl; rewrite ?Ec, ?Hd, ?Hn, ?Hw; simpl; [|..|lia|lia|done].
        -- split_and!; try done; auto; lia.
        -- replace (Z.to_nat (n - count) - 0)%nat with (S (Z.to_nat (n - count) - 1)) by lia. done.
    + destruct (drained s) eqn:Ed; [|done]. apply drained_spec in Ed. simplify_eq/=.
      apply advances_eq; simpl; unfold open; simpl; rewrite ?Ec, ?Ed, ?take_nil; simpl; done || lia || auto.
Qed.

Lemma move_spec d i {A} (s s' : Stream A) : wf s → move d i s = Some s' → advances d s s'.
Proof.
  revert i s'. induction s as [A p ch|A B fn s IH hold ch|A keep s IH hold ch|A n count s IH hold ch];
    intros i s' Hwf Hm.
  - by eapply src_advances.
  - destruct i as [|i]; [by apply map_advances|]. simpl in Hm. destruct (move d i s) as [s1|] eqn:E; [|done].
    destruct Hwf as [Hc Hwf]. destruct (IH _ _ Hwf E) as (Hwf1 & Hp & He & Hn & Hw & _). simplify_eq.
    split_and!; simpl; [done|intros Ho; by apply stage_prefix, map_prefix, Hp|intros; by rewrite He|lia|lia|done].
  - destruct i as [|i]; [by apply filter_advances|]. simpl in Hm. destruct (move d i s) as [s1|] eqn:E; [|done].
    destruct Hwf as [Hc Hwf]. destruct (IH _ _ Hwf E) as (Hwf1 & Hp & He & Hn & Hw & _). simplify_eq.
    split_and!; simpl; [done|intros Ho; by apply stage_prefix, filter_prefix, Hp|intros; by rewrite He|lia|lia|done].
  - destruct i as [|i]; [by apply take_advances|]. simpl in Hm. destruct (move d i s) as [s1|] eqn:E; [|done].
    destruct Hwf as (Hc & Hwf & Hrest). destruct (IH _ _ Hwf E) as (Hwf1 & Hp & He & Hn & Hw & _). simplify_eq.
    split_and!; simpl; [tauto|intros Ho; by apply stage_prefix, take_prefix_mono, Hp|intros; by rewrite He|lia|lia|done].
Qed.

(** Some goroutine can act unless a value or the end is there to be received. *)
Lemma stage_progress {A} (s : Stream A) : buf (out s) ≠ [] ∨ closed (out s) = true →
  (∃ v s', recv s = Some (v, s')) ∨ recv s = None ∧ drained s = true.
Proof.
  unfold recv, drained. destruct (buf (out s)) as [|v b]; [|by eauto]. intros [?| ->]; [done|]. by right.
Qed.

Lemma not_full {A} (c : chan A) : (0 < cap c)%nat → buf c = [] → full c = false.
Proof. intros ? E. rewrite full_false, E. done. Qed.

Lemma stream_progress {A} (s : Stream A) : wf s →
  buf (out s) ≠ [] ∨ closed (out s) = true ∨ ∃ i s', move false i s = Some s'.
Proof.
  induction s as [A p ch|A B fn s IH hold ch|A keep s IH hold ch|A n count s IH hold ch]; intros Hwf; simpl in *;
    (destruct (buf ch) as [|x b] eqn:Eb; [|by left]); (destruct (closed ch) eqn:Ec; [by right; left|]); right; right.
  - exists 0%nat. simpl. rewrite ?Ec, (not_full ch) by done. destruct p; by eexists.
  - destruct Hwf as [Hc Hwf]. specialize (IH Hwf).
    destruct hold as [v|]; [exists 0%nat; simpl; rewrite ?Ec, (not_full ch) by done; by eexists|].
    destruct IH as [Hb|[Hcl|(i & s1 & Hi)]]; [| |by exists (S i); simpl; rewrite Hi; eexists];
      (destruct (stage_progress s) as [(v & s1 & Hr)|[Hr Hd]]; [tauto| |];
       exists 0%nat; simpl; rewrite ?Ec, Hr, ?Hd; by eexists).
  - destruct Hwf as [Hc Hwf]. specialize (IH Hwf).
    destruct hold as [v|]; [exists 0%nat; simpl; rewrite ?Ec, (not_full ch) by done; by eexists|].
    destruct IH as [Hb|[Hcl|(i & s1 & Hi)]]; [| |by exists (S i); simpl; rewrite Hi; eexists];
      (destruct (stage_progress s) as [(v & s1 & Hr)|[Hr Hd]]; [tauto| |];
       exists 0%nat; simpl; rewrite ?Ec, Hr, ?Hd; by eexists).
  - destruct Hwf as (Hc & Hwf & _). specialize (IH Hwf).
    destruct hold as [v|]; [exists 0%nat; simpl; rewrite ?Ec, (not_full ch) by done; by eexists|].
    destruct IH as [Hb|[Hcl|(i & s1 & Hi)]]; [| |by exists (S i); simpl; rewrite Hi; eexists];
      (destruct (stage_progress s) as [(v & s1 & Hr)|[Hr Hd]]; [tauto| |];
       exists 0%nat; simpl; rewrite ?Ec, Hr, ?Hd; [destruct (count >=? n)|]; by eexists).
Qed.

(** ** Runs of Collect *)

(** What a run has gathered, against what was to come at its start; [ob]: whether the producer
    obeys its [send]. *)
Definition col_ok {A} (ob : Prop) (cs : bool) (l : list A) (c : collect A) : Prop :=
  match c with
  | Collecting acc s => wf s ∧ (ob → obeying s ∧ acc ++ den s `prefix_of` l) ∧ (cs = false → acc ++ den s = l)
  | Returned (inr r) s => (ob → r `prefix_of` l) ∧ (cs = false → r = l)
  | Returned (inl _) _ => True
  end.

Lemma col_ok_step {A} ob cs cd (l : list A) c c' : col_ok ob cs l c → step cs cd c c' → col_ok ob cs l c'.
Proof.
  intros Hok Hs. destruct Hs as [acc s i d s' Hd Hm|acc s v s' Hr|acc s Hd|acc s err Hcd]; simpl in *; [| | |done].
  - destruct Hok as (Hwf & Hp & He). destruct (move_spec _ _ _ _ Hwf Hm) as (Hwf' & Hp' & He' & _).
    split_and!; [done| |].
    + intros Hob. destruct (Hp Hob) as [Ho Hpre]. split; [by eapply move_obeying|]. etrans; [by apply prefix_app, Hp'|done].
    + intros Hcs. rewrite He' by (destruct d; [naive_solver|done]). by apply He.
  - destruct Hok as (Hwf & Hp & He). pose proof (recv_obeying _ _ _ Hr) as Ho. apply recv_spec in Hr as (Hd & _ & _ & Hwf' & _).
    rewrite Hd in *. rewrite <-app_assoc. split_and!; [by apply Hwf'| |done]. intros Hob. destruct (Hp Hob). by split; [apply Ho|].
  - destruct Hok as (Hwf & Hp & He). rewrite (drained_spec s Hd), app_nil_r in *. split; [|done]. intros Hob. by apply Hp.
Qed.

Definition col_left {A} (c : collect A) : nat :=
  match c with Collecting _ s => S (work s + cnt s) | Returned _ _ => 0 end.

Lemma col_left_step {A} ob cs cd (l : list A) c c' : col_ok ob cs l c → step cs cd c c' → (col_left c' < col_left c)%nat.
Proof.
  intros Hok Hs. destruct Hs as [acc s i d s' Hd Hm|acc s v s' Hr|acc s Hd|acc s err Hcd]; simpl in *; try lia.
  - destruct Hok as (Hwf & _). destruct (move_spec _ _ _ _ Hwf Hm) as (_ & _ & _ & ? & ? & _). lia.
  - apply recv_spec in Hr as (_ & Hn & Hw & _). lia.
Qed.

(** ** Pipelines as programs *)

Inductive pipe : Type → Type :=
| PGenerate {A} (p : producer A) : pipe A
| PSlice {A} (l : list A) : pipe A
| PMap {A B} (p : pipe A) (fn : A → B) : pipe B
| PFilter {A} (p : pipe A) (keep : A → bool) : pipe A
| PTake {A} (p : pipe A) (n : Z) : pipe A.

Fixpoint build {A} (p : pipe A) : Stream A :=
  match p in pipe A return Stream A with
  | PGenerate p => Generate p
  | PSlice l => FromSlice l
  | PMap p fn => Map (build p) fn
  | PFilter p keep => Filter (build p) keep
  | PTake p n => Take (build p) n
  end.

(** The list it stands for. *)
Fixpoint sem {A} (p : pipe A) : list A :=
  match p in pipe A return list A with
  | PGenerate p => yields p
  | PSlice l => l
  | PMap p fn => map fn (sem p)
  | PFilter p keep => filter keep (sem p)
  | PTake p n => take (Z.to_nat n) (sem p)
  end.

(** The counts of [Take] are Go integers. *)
Fixpoint ints {A} (p : pipe A) : Prop :=
  match p with PGenerate _ | PSlice _ => True | PMap p _ | PFilter p _ => ints p | PTake p n => is_int64 n ∧ ints p end.

(** Its producer obeys. *)
Fixpoint obedient {A} (p : pipe A) : Prop :=
  match p with PGenerate p => obeys p | PSlice _ => True | PMap p _ | PFilter p _ | PTake p _ => obedient p end.

Lemma build_obeying {A} (p : pipe A) : obedient p → obeying (build p).
Proof. induction p as [A p|A l|A B p IH fn|A p IH keep|A p IH n]; simpl; auto. intros _. apply of_list_spec. Qed.

Lemma build_spec {A} (p : pipe A) : ints p → wf (build p) ∧ den (build p) = sem p.
Proof.
  induction p as [A p|A l|A B p IH fn|A p IH keep|A p IH n]; simpl; [split; [lia|done]|split; [lia|apply of_list_spec]|..].
  - intros [Hwf <-]%IH. split; [split; [by apply wf_cap|done]|done].
  - intros [Hwf <-]%IH. split; [split; [by apply wf_cap|done]|done].
  - intros [Hn Hi]. destruct (IH Hi) as [Hwf <-]. split.
    + split_and!; try done; try lia; by apply wf_cap.
    + f_equal. lia.
Qed.

(** ** Properties *)

(** However the goroutines of a pipeline of [Generate] or [FromSlice] with [Map], [Filter] and
    [Take] are scheduled, a [Collect] that returns without its context being done returns the list
    the pipeline stands for when the producer's context is not done either, and a prefix of it
    otherwise, if the producer stops when it is told to. *)
Theorem collect_spec {A} (p : pipe A) cs cd r s : ints p →
  rtc (step cs cd) (Collecting [] (build p)) (Returned (inr r) s) →
  (obedient p → r `prefix_of` sem p) ∧ (cs = false → r = sem p).
Proof.
  intros Hi Hr. destruct (build_spec p Hi) as [Hwf Hd].
  apply (rtc_invariant (step cs cd) (col_ok (obedient p) cs (sem p))) in Hr; [done| |].
  - intros x y. apply col_ok_step.
  - simpl. rewrite Hd. split_and!; [done| |done]. intros Ho. split; [by apply build_obeying|done].
Qed.

(** The items up to and including the first that [fn] refuses, with its error. *)
Fixpoint until_error {A} (fn : A → option error) (l : list A) : list A * option error :=
  match l with
  | [] => ([], None)
  | v :: l => match fn v with
              | Some err => ([v], Some err)
              | None => let '(seen, err) := until_error fn l in (v :: seen, err)
              end
  end.

Lemma until_error_app {A} (fn : A → option error) l l' : Forall (λ v, fn v = None) l →
  until_error fn (l ++ l') = let '(seen, err) := until_error fn l' in (l ++ seen, err).
Proof.
  induction 1 as [|v l Hv _ IH]; simpl; [by destruct (until_error fn l')|]. rewrite Hv, IH.
  by destruct (until_error fn l').
Qed.

Definition each_ok {A} (fn : A → option error) (l : list A) (c : each A) : Prop :=
  match c with
  | Each seen s => wf s ∧ seen ++ den s = l ∧ Forall (λ v, fn v = None) seen
  | EachReturned seen err => (seen, err) = until_error fn l
  end.

Lemma each_ok_step {A} fn (l : list A) c c' : each_ok fn l c → each_step fn false false c c' → each_ok fn l c'.
Proof.
  intros Hok Hs. destruct Hs as [seen s i d s' Hd Hm|seen s v s' Hr Hf|seen s v s' err Hr Hf|seen s Hd|]; [..|done];
    simpl in *; destruct Hok as (Hwf & <- & HF).
  - destruct (move_spec _ _ _ _ Hwf Hm) as (Hwf' & _ & He & _). rewrite He by (destruct d; naive_solver). done.
  - apply recv_spec in Hr as (Hd & _ & _ & Hwf' & _). rewrite Hd, <-app_assoc.
    split_and!; [by apply Hwf'|done|]. apply Forall_app. split; [done|]. by constructor.
  - apply recv_spec in Hr as (Hd & _). rewrite until_error_app, Hd by done. simpl. by rewrite Hf.
  - rewrite until_error_app, (drained_spec s Hd) by done. simpl. by rewrite app_nil_r.
Qed.

(** Under every schedule [ForEach] calls its function with the items of the pipeline in
    order, up to and including the first one it fails on, and returns that error, or nil
    when there is none; as long as no context is done. *)
Theorem foreach_spec {A} (p : pipe A) fn seen err : ints p →
  rtc (each_step fn false false) (Each [] (build p)) (EachReturned seen err) →
  (seen, err) = until_error fn (sem p).
Proof.
  intros Hi Hr. destruct (build_spec p Hi) as [Hwf Hd].
  apply (rtc_invariant (each_step fn false false) (each_ok fn (sem p))) in Hr; [done| |].
  - intros x y. apply each_ok_step.
  - simpl. by rewrite Hd.
Qed.

(** C35: [Collect] terminates on every pipeline of [Map], [Filter] and [Take] over a slice or a
    producer that makes finitely many sends, under every schedule and whether or not contexts are
    done: the length of every run is bounded in advance, and no run gets stuck before [Collect]
    has returned. *)
Theorem collect_terminates {A} (p : pipe A) cs cd n c : ints p →
  nsteps (step cs cd) n (Collecting [] (build p)) c →
  (n ≤ S (work (build p) + cnt (build p)))%nat ∧
  ((∃ c', step cs cd c c') ∨ ∃ r s, c = Returned r s).
Proof.
  intros Hi Hn. destruct (build_spec p Hi) as [Hwf Hd].
  assert (H0 : col_ok False cs (sem p) (Collecting [] (build p))) by (simpl; by rewrite Hd).
  assert (Hc : col_ok False cs (sem p) c ∧ (n + col_left c ≤ col_left (Collecting [] (build p)))%nat).
  { clear Hwf Hd. induction Hn as [x|n x y z Hxy Hyz IH]; [split; [done|lia]|].
    destruct IH as [Hz Hl]; [by eapply col_ok_step|]. split; [done|].
    pose proof (col_left_step _ _ _ _ _ _ H0 Hxy). lia. }
  destruct Hc as [Hc Hl]. split; [simpl in Hl; lia|]. destruct c as [acc s|r s]; [|by eauto].
  left. destruct Hc as (Hwf' & _). destruct (stream_progress s Hwf') as [Hb|[Hb|(i & s' & Hm)]].
  - destruct (stage_progress s) as [(v & s' & Hr)|[_ Hdr]]; [by left|by eexists; eapply step_recv|by eexists; apply step_end].
  - destruct (stage_progress s) as [(v & s' & Hr)|[_ Hdr]]; [by right|by eexists; eapply step_recv|by eexists; apply step_end].
  - eexists. by eapply (step_move _ _ _ _ i false).
Qed.

Lemma flush_spec' {A} (b : batcher A) : concat (sent (flush b)) = concat (sent b) ++ bbuf b ∧ bbuf (flush b) = [] ∧
  (∀ m, Forall (λ l, 1 ≤ Z.of_nat (length l) ≤ m) (sent b) → Z.of_nat (length (bbuf b)) ≤ m →
     Forall (λ l, 1 ≤ Z.of_nat (length l) ≤ m) (sent (flush b))).
Proof.
  unfold flush. destruct b as [bb se fi]; simpl. case_bool_decide as Hb; simpl; split_and!.
  - rewrite concat_app. simpl. by rewrite app_nil_r.
  - done.
  - intros m HF Hm. apply Forall_app. split; [done|]. constructor; [lia|constructor].
  - destruct bb; simpl in *; [by rewrite app_nil_r|lia].
  - destruct bb; simpl in *; [done|lia].
  - done.
Qed.

Lemma batch_steps {A} size (es : list (batch_event A)) b : 0 ≤ size →
  finished b = false → Forall (λ e, e ≠ BClose) es →
  Forall (λ l, 1 ≤ Z.of_nat (length l) ≤ Z.max 1 size) (sent b) → Z.of_nat (length (bbuf b)) < Z.max 1 size →
  let b' := fold_left (batch_step size) es b in
  concat (sent b') ++ bbuf b' = concat (sent b) ++ bbuf b ++ items es ∧ finished b' = false ∧
  Forall (λ l, 1 ≤ Z.of_nat (length l) ≤ Z.max 1 size) (sent b') ∧ Z.of_nat (length (bbuf b')) < Z.max 1 size.
Proof.
  intros Hs. revert b. induction es as [|e es IH]; intros b Hf HF Hsent Hbuf; simpl.
  { rewrite app_nil_r. done. }
  apply Forall_cons in HF as [He HF].
  assert (Hstep : let b1 := batch_step size b e in
    concat (sent b1) ++ bbuf b1 = concat (sent b) ++ bbuf b ++ items [e] ∧ finished b1 = false ∧
    Forall (λ l, 1 ≤ Z.of_nat (length l) ≤ Z.max 1 size) (sent b1) ∧ Z.of_nat (length (bbuf b1)) < Z.max 1 size).
  { unfold batch_step. rewrite Hf. destruct e as [v| |]; [| |done].
    - set (b1 := Batcher _ _ _). destruct (flush_spec' b1) as (H1 & H2 & H3).
      destruct (Z.of_nat (length (bbuf b1)) >=? size) eqn:E; zbool; simpl in E; rewrite length_app in E; simpl in E.
      + rewrite H1, H2. simpl. rewrite app_nil_r. split_and!; [done|by unfold flush; case_bool_decide| |lia].
        apply H3; [done|]. simpl. rewrite length_app. simpl. lia.
      + simpl. rewrite length_app. simpl. split_and!; [done|done|done|lia].
    - destruct (flush_spec' b) as (H1 & H2 & H3). rewrite H1, H2. simpl. rewrite !app_nil_r.
      split_and!; [done|by unfold flush; case_bool_decide|apply H3; [done|lia]|lia]. }
  destruct Hstep as (H1 & H2 & H3 & H4). destruct (IH _ H2 HF H3 H4) as (H1' & ?). split; [|done].
  rewrite H1', app_assoc, H1. unfold items. simpl. by rewrite app_nil_r, <-!app_assoc.
Qed.

(** [Batch] loses, repeats and reorders nothing: when its input has ended the batches
    it sent concatenate to the items it received, whenever its timer fired, and each
    batch has between one and [max 1 size] of them. *)
Theorem batch_spec {A} size (es : list (batch_event A)) b : Forall (λ e, e ≠ BClose) es →
  Batch size (es ++ [BClose]) = Ret b →
  concat (sent b) = items es ∧ Forall (λ l, 1 ≤ Z.of_nat (length l) ≤ Z.max 1 size) (sent b).
Proof.
  unfold Batch. intros HF. destruct (size <? 0) eqn:E; [done|]. zbool. rewrite fold_left_app. intros [= <-].
  destruct (batch_steps size es (Batcher [] [] false)) as (H1 & H2 & H3 & H4); [lia|done|done|constructor|simpl; lia|].
  simpl in *. set (b1 := fold_left _ _ _) in *. unfold batch_step. rewrite H2. simpl.
  destruct (flush_spec' b1) as (F1 & F2 & F3). rewrite F1, H1. split; [done|]. apply F3; [done|lia].
Qed.

(** ** Schedules *)

(** [Some i] lets the goroutine [i] upstream act, [None] lets [Collect] receive. *)
Fixpoint drive {A} (l : list (option nat)) (c : collect A) : collect A :=
  match l, c with
  | [], _ => c
  | _, Returned _ _ => c
  | Some i :: l, Collecting acc s =>
    drive l (match move false i s with Some s' => Collecting acc s' | None => c end)
  | None :: l, Collecting acc s =>
    drive l (match recv s with
             | Some (v, s') => Collecting (acc ++ [v]) s'
             | None => if drained s then Returned (inr acc) s else c
             end)
  end.

Lemma drive_sound {A} l (c : collect A) : rtc (step false false) c (drive l c).
Proof.
  revert c. induction l as [|[i|] l IH]; intros [acc s|r s]; simpl; try apply rtc_refl.
  - destruct (move false i s) as [s'|] eqn:E; [|done]. eapply rtc_l; [|apply IH]. by eapply (step_move _ _ _ _ i false).
  - destruct (recv s) as [[v s']|] eqn:E; [eapply rtc_l; [|apply IH]; by eapply step_recv|].
    destruct (drained s) eqn:Ed; [|done]. eapply rtc_l; [|apply IH]. by apply step_end.
Qed.

(** The first two of the values doubled. *)
Definition demo : pipe Z := PTake (PMap (PSlice [1; 2; 3]) (λ x, 2 * x)) 2.
Definition demo_schedule : list (option nat) :=
  concat (replicate 12 [Some 2%nat; Some 1%nat; Some 0%nat; None]).

Lemma collect_spec_witness : (obedient demo → [2; 4] `prefix_of` [2; 4]) ∧ (false = false → [2; 4] = [2; 4]).
Proof.
  apply (collect_spec demo false false [2; 4]
    (match drive demo_schedule (Collecting [] (build demo)) with Returned _ s | Collecting _ s => s end)).
  - simpl. unfold is_int64, int64_min, int64_max. lia.
  - pose proof (drive_sound demo_schedule (Collecting [] (build demo))) as Hr. vm_compute in Hr |- *. exact Hr.
Defined.

(** A producer that sends one value more when it is told to stop. *)
Definition last_words : pipe Z := PMap (PGenerate (Send 1 (λ ok, if ok then Send 2 (λ _, Return) else Send 0 (λ _, Return)))) (λ x, 2 * x).

Definition told_to_stop : collect Z :=
  Collecting [] (SMap (λ x, 2 * x) (SGenerate (Send 0 (λ _, Return)) (make 16)) None (make 16)).

Lemma collect_terminates_witness :
  (1 ≤ S (work (build last_words) + cnt (build last_words)))%nat ∧
  ((∃ c', step true false told_to_stop c') ∨ ∃ r s, told_to_stop = Returned r s).
Proof.
  apply (collect_terminates last_words true false 1); [exact I|].
  eapply nsteps_l; [|constructor]. by apply (step_move _ _ [] (build last_words) 1 true).
Defined.

Lemma foreach_spec_witness :
  ([2], Some context_Canceled) = until_error (λ v, if v =? 2 then Some context_Canceled else None) [2; 3].
Proof.
  apply (foreach_spec (PSlice [2; 3]) (λ v, if v =? 2 then Some context_Canceled else None) [2] (Some context_Canceled));
    [exact I|].
  eapply rtc_l; [by apply (each_move _ _ _ _ _ 0 false (SGenerate (of_list [3]) (push 2 (make 16))))|].
  eapply rtc_l; [by eapply (each_fail _ _ _ [] _ 2)|]. apply rtc_refl.
Defined.

Lemma batch_spec_witness :
  concat [[1]; [2; 3]] = [1; 2; 3] ∧ Forall (λ l : list Z, 1 ≤ Z.of_nat (length l) ≤ Z.max 1 2) [[1]; [2; 3]].
Proof.
  apply (batch_spec 2 [BItem 1; BTick; BItem 2; BItem 3] (Batcher [] [[1]; [2; 3]] true)); [|reflexivity].
  repeat constructor; discriminate.
Defined.

(** [Take] returns without draining its input: with more values than the channel holds
    the producer stays blocked in its send after [Collect] has returned. *)
Definition leak_run : collect Z :=
  drive (replicate 16 (Some 1%nat) ++ replicate 3 (Some 0%nat) ++ replicate 2 (Some 1%nat) ++ [None; None])
    (Collecting [] (build (PTake (PSlice (seqZ 1 20)) 1))).

Lemma take_leaks_producer : ∃ p ch ch',
  leak_run = Returned (inr [1]) (STake 1 1 (SGenerate p ch) None ch') ∧ closed ch = false ∧
  ∀ i, move false i (STake 1 1 (SGenerate p ch) None ch') = None.
Proof.
  do 3 eexists. split; [vm_compute; reflexivity|]. split; [reflexivity|].
  intros [|[|i]]; reflexivity.
Qed.

End Stream.
