(* ===== verification/Async.v ===== *)
(** * pkg/async: semaphore, future, barrier, debounce and throttle

    Each primitive is a channel with the goroutines around it, as a transition system
    over its callers.  Timers fire at any time except in [Debounce], whose promise is
    about time: there every step carries the clock. *)

From S2P Require Import Prelude GoLang.
Open Scope Z_scope.


(** ** Semaphore *)

Module Semaphore.

(** The channel: its capacity and the number of tokens in it. *)
Record Semaphore := MkSemaphore { cap : Z; len : Z }.

Definition NewSemaphore (n : Z) : outcome Semaphore :=
  if n <? 0 then Panic "makechan: size out of range" else Ret (MkSemaphore n 0).

Definition TryAcquire (s : Semaphore) : Semaphore * bool :=
  if len s <? cap s then (MkSemaphore (cap s) (len s + 1), true) else (s, false).

(** [Acquire] when its select is decided: by a free slot, or by the context with its
    error. *)
Inductive Acquire (ctx_err : option error) (s : Semaphore) : Semaphore → option error → Prop :=
| Acquire_slot : len s < cap s → Acquire ctx_err s (MkSemaphore (cap s) (len s + 1)) None
| Acquire_done err : ctx_err = Some err → Acquire ctx_err s s (Some err).

Definition Release (s : Semaphore) : outcome Semaphore :=
  if 0 <? len s then Ret (MkSemaphore (cap s) (len s - 1))
  else Panic "async: semaphore released more times than acquired".

Definition Available (s : Semaphore) : Z := cap s - len s.
Definition Capacity (s : Semaphore) : Z := cap s.

(** Calls by any number of goroutines; [held] counts the permits given out and not
    returned. *)
Inductive step : Semaphore * Z → Semaphore * Z → Prop :=
| step_acquire s h e s' : Acquire e s s' None → step (s, h) (s', h + 1)
| step_acquire_ctx s h e s' err : Acquire e s s' (Some err) → step (s, h) (s', h)
| step_try s h s' ok : TryAcquire s = (s', ok) → step (s, h) (s', if ok then h + 1 else h)
| step_release s h s' : Release s = Ret s' → step (s, h) (s', h - 1).

Definition ok (n : Z) (x : Semaphore * Z) : Prop := cap x.1 = n ∧ len x.1 = x.2 ∧ 0 ≤ len x.1 ≤ n.

Lemma semaphore_ok_step n x y : ok n x → step x y → ok n y.
Proof.
  intros (Hc & Hl & Hb) Hs. destruct Hs as [s h e s' Ha|s h e s' err Ha|s h s' b Ha|s h s' Ha]; unfold ok in *; simpl in *.
  - inversion Ha; subst; simpl; lia.
  - inversion Ha; subst; simpl; lia.
  - unfold TryAcquire in Ha. destruct (len s <? cap s) eqn:E; zbool; simplify_eq/=; lia.
  - unfold Release in Ha. destruct (0 <? len s) eqn:E; zbool; simplify_eq/=; lia.
Qed.

(** However [Acquire], [TryAcquire] and [Release] interleave, the permits held and
    those available add up to the capacity and neither is negative; [TryAcquire] succeeds
    exactly when a permit is available and [Release] panics exactly when none is held. *)
Theorem semaphore_permits n s0 s h : NewSemaphore n = Ret s0 → rtc step (s0, 0) (s, h) →
  h + Available s = Capacity s ∧ Capacity s = n ∧ 0 ≤ h ≤ n ∧
  ((TryAcquire s).2 = true ↔ 0 < Available s) ∧ ((∃ m, Release s = Panic m) ↔ h = 0).
Proof.
  unfold NewSemaphore. destruct (n <? 0) eqn:En; [done|]. zbool. intros [= <-] Hr.
  apply (rtc_invariant step (ok n)) in Hr as (Hc & Hl & Hb); [|eauto using semaphore_ok_step|unfold ok; simpl; lia].
  simpl in *. unfold Available, Capacity, TryAcquire, Release. split_and!; try lia.
  - destruct (len s <? cap s) eqn:E; zbool; simpl; split; done || lia.
  - destruct (0 <? len s) eqn:E; zbool; split; naive_solver lia.
Qed.

Lemma semaphore_permits_witness : 1 + Available (MkSemaphore 2 1) = Capacity (MkSemaphore 2 1).
Proof.
  apply (semaphore_permits 2 (MkSemaphore 2 0) (MkSemaphore 2 1) 1); [reflexivity|].
  apply rtc_once. apply (step_try _ 0 _ true). reflexivity.
Defined.

End Semaphore.

(** ** Future *)

Module Future.
Section Future.
Context {T : Type} (zero : T).

(** [result] of the source. *)
Definition result : Type := T * option error.

(** [once]: not entered, entered by the first caller of [Await], left. *)
Inductive once := Fresh | Inside | Over.

(** [ch]: what the producer has sent and nobody received; [fn_result] records what the
    function returned; [res] is the field of the struct; [returned] are the results the
    calls of [Await] have returned so far. *)
Record Future := MkFuture {
  fn_result : option result; ch : option result; state : once; res : result; returned : list result
}.

Definition Async : Future := MkFuture None None Fresh (zero, None) [].

Inductive step : Future → Future → Prop :=
(** the function returns and its result is sent *)
| step_produce f r : fn_result f = None →
    step f (MkFuture (Some r) (Some r) (state f) (res f) (returned f))
(** the first [Await] enters [once.Do] *)
| step_enter f : state f = Fresh → step f (MkFuture (fn_result f) (ch f) Inside (res f) (returned f))
(** its select receives the result, or its context is done *)
| step_receive f r : state f = Inside → ch f = Some r →
    step f (MkFuture (fn_result f) None Over r (returned f))
| step_ctx f err : state f = Inside →
    step f (MkFuture (fn_result f) (ch f) Over (zero, Some err) (returned f))
(** an [Await] past [once.Do] returns *)
| step_return f : state f = Over →
    step f (MkFuture (fn_result f) (ch f) Over (res f) (returned f ++ [res f])).

Definition ok (f : Future) : Prop :=
  match state f with
  | Over => Forall (λ r, r = res f) (returned f) ∧ (fn_result f = Some (res f) ∨ ∃ err, res f = (zero, Some err))
  | _ => returned f = [] ∧ ch f = fn_result f
  end.

Lemma future_ok_step f f' : ok f → step f f' → ok f'.
Proof.
  unfold ok. intros Hok Hs. destruct Hs as [f r Hr|f Hs|f r Hs Hc|f err Hs|f Hs]; simpl.
  - destruct (state f); [naive_solver..|]. destruct Hok as [HF [?|?]]; [congruence|]. eauto.
  - rewrite Hs in Hok. done.
  - rewrite Hs in Hok. destruct Hok as [-> <-]. split; [constructor|]. by left.
  - rewrite Hs in Hok. destruct Hok as [-> _]. split; [constructor|]. right. by eexists.
  - rewrite Hs in Hok. destruct Hok as [HF Hr]. split; [|done]. apply Forall_app. split; [done|]. by constructor.
Qed.

(** All calls of [Await] on a future return the same result, and it is what the
    function returned unless it is the error of a context that was done before. *)
Theorem await_agreement f r r' : rtc step Async f → r ∈ returned f → r' ∈ returned f →
  r = r' ∧ (fn_result f = Some r ∨ ∃ err, r = (zero, Some err)).
Proof.
  intros Hr Hin Hin'. apply (rtc_invariant step ok) in Hr; [|eauto using future_ok_step|by split].
  unfold ok in Hr. destruct (state f); [destruct Hr as [Hn _]; rewrite Hn in Hin; by apply not_elem_of_nil in Hin..|].
  destruct Hr as [HF Hres]. rewrite Forall_forall in HF. rewrite (HF r Hin), (HF r' Hin'). done.
Qed.

(** The result of a context that was done stays, although the function has returned. *)
Lemma await_caches_context err v : ∃ f,
  rtc step Async f ∧ fn_result f = Some (v, None) ∧ returned f = [(zero, Some err); (zero, Some err)].
Proof.
  exists (MkFuture (Some (v, None)) (Some (v, None)) Over (zero, Some err) [(zero, Some err); (zero, Some err)]).
  split; [|done].
  eapply rtc_l; [by apply step_enter|]. eapply rtc_l; [by apply (step_ctx _ err)|]. eapply rtc_l; [by apply step_return|].
  eapply rtc_l; [by apply (step_produce _ (v, None))|]. eapply rtc_l; [by apply step_return|]. apply rtc_refl.
Qed.

End Future.

Lemma await_agreement_witness : let r : Z * option error := (7, None) in
  r = r ∧ (Some r = Some r ∨ ∃ err, r = (0, Some err)).
Proof.
  apply (await_agreement 0 (MkFuture (Some (7, None)) None Over (7, None) [(7, None)]) (7, None) (7, None)); [|left|left].
  eapply rtc_l; [by apply (step_produce _ _ (7, None))|]. eapply rtc_l; [by apply step_enter|].
  eapply rtc_l; [by apply (step_receive _ _ (7, None))|]. eapply rtc_l; [by apply step_return|]. apply rtc_refl.
Defined.

End Future.

(** ** All and Race *)

Module Combinators.
Section Combinators.
Context {T : Type} (zero : T).

(** What a select of the combinator takes: the context's error, or the result that the
    goroutine of future [i] sent after its [Await]. *)
Inductive choice := Ctx (err : error) | Merge (i : nat) (val : T) (err : option error).

(** The loop of [All] over [todo] more selects; [None]: it is still waiting.  The index
    comes from the loop over the futures, so it is in range of [results]. *)
Fixpoint All_loop (todo : nat) (cs : list choice) (results : list T) : option (error + list T) :=
  match todo with
  | O => Some (inr results)
  | S todo =>
    match cs with
    | [] => None
    | Ctx err :: _ => Some (inl err)
    | Merge i val (Some err) :: _ => Some (inl err)
    | Merge i val None :: cs => All_loop todo cs (<[i := val]> results)
    end
  end.

Definition All (n : nat) (cs : list choice) : option (error + list T) := All_loop n cs (replicate n zero).

(** The first select decides. *)
Definition Race (cs : list choice) : option (T * option error) :=
  match cs with
  | [] => None
  | Ctx err :: _ => Some (zero, Some err)
  | Merge _ val err :: _ => Some (val, err)
  end.

(** The results [rs] of the futures, arriving in the order [is]. *)
Definition arrive (rs : list (T * option error)) (is_ : list nat) : list choice :=
  omap (λ i, (λ r : T * option error, Merge i r.1 r.2) <$> rs !! i) is_.

(** The error of the first future of [is_] that failed. *)
Definition first_error (rs : list (T * option error)) (is_ : list nat) : option error :=
  head (omap (λ i, rs !! i ≫= snd) is_).

Lemma All_loop_spec rs is_ acc cs : NoDup is_ → Forall (λ i, (i < length rs)%nat) is_ → length acc = length rs →
  ∃ acc', All_loop (length is_) (arrive rs is_ ++ cs) acc =
    Some (match first_error rs is_ with Some err => inl err | None => inr acc' end) ∧ length acc' = length rs ∧
    ∀ j, acc' !! j = if decide (j ∈ is_) then fst <$> rs !! j else acc !! j.
Proof.
  unfold arrive, first_error. revert acc. induction is_ as [|i is_ IH]; intros acc Hnd Hlt Hlen; simpl.
  { exists acc. done. }
  apply NoDup_cons in Hnd as [Hni Hnd]. apply Forall_cons in Hlt as [Hi Hlt].
  destruct (lookup_lt_is_Some_2 rs i Hi) as [[v e] Hr]. rewrite Hr. simpl.
  destruct (IH (<[i := v]> acc)) as (acc' & Hrun & Hlen' & Hlk); [done|done|by rewrite length_insert|].
  exists acc'. split_and!; [by destruct e; simpl|done|]. intros j. rewrite Hlk.
  destruct (decide (j = i)) as [->|Hne].
  - rewrite decide_False, decide_True by (done || by left). rewrite list_lookup_insert_eq by (by rewrite Hlen).
    by rewrite Hr.
  - rewrite list_lookup_insert_ne by done. destruct (decide (j ∈ is_)).
    + by rewrite decide_True by (by right).
    + rewrite decide_False; [done|]. rewrite elem_of_cons. tauto.
Qed.

(** [All] returns the values of its futures in the order of the arguments, in whatever
    order they resolve; when one fails it returns the error of the first one that resolved
    with an error. *)
Theorem all_spec rs is_ cs : is_ ≡ₚ seq 0 (length rs) →
  All (length rs) (arrive rs is_ ++ cs) =
  Some (match first_error rs is_ with Some err => inl err | None => inr rs.*1 end).
Proof.
  intros Hp. unfold All.
  assert (Hlen : length is_ = length rs) by (by rewrite Hp, length_seq).
  destruct (All_loop_spec rs is_ (replicate (length rs) zero) cs) as (acc & Hrun & _ & Hlk).
  - rewrite Hp. apply NoDup_seq.
  - rewrite Hp. apply Forall_forall. intros i. rewrite elem_of_seq. lia.
  - by rewrite length_replicate.
  - rewrite Hlen in Hrun. rewrite Hrun. replace acc with (rs.*1); [done|]. symmetry. apply list_eq. intros j.
    rewrite Hlk, list_lookup_fmap. case_decide as Hj; [done|].
    assert (Hge : (length rs ≤ j)%nat). { apply Nat.nlt_ge. intros Hlt. apply Hj. rewrite Hp, elem_of_seq. lia. }
    by rewrite (lookup_ge_None_2 rs j Hge), lookup_ge_None_2 by (by rewrite length_replicate).
Qed.

(** When the context is done before every future has resolved [All] returns its error,
    unless a failed future came first. *)
Theorem all_cancelled rs is_ err cs : NoDup is_ → Forall (λ i, (i < length rs)%nat) is_ → (length is_ < length rs)%nat →
  All (length rs) (arrive rs is_ ++ Ctx err :: cs) =
  Some (inl (default err (first_error rs is_))).
Proof.
  intros Hnd Hlt Hl. unfold All, arrive, first_error. remember (length rs) as n eqn:Hn.
  assert (Hgen : ∀ acc n, (length is_ < n)%nat →
    All_loop n (omap (λ i, (λ r : T * option error, Merge i r.1 r.2) <$> rs !! i) is_ ++ Ctx err :: cs) acc =
    Some (inl (default err (head (omap (λ i, rs !! i ≫= snd) is_))))).
  { clear Hl Hnd. induction Hlt as [|i is_ Hi Hlt IH]; intros acc m Hm; (destruct m as [|m]; [simpl in Hm; lia|]); simpl; [done|].
    rewrite Hn in Hi. destruct (lookup_lt_is_Some_2 rs i Hi) as [[v [e|]] Hr]; rewrite Hr; simpl; [done|].
    apply IH. simpl in Hm. lia. }
  by apply Hgen.
Qed.

End Combinators.

Lemma all_spec_witness :
  All 0 2 (arrive [(1, None); (2, None)] [1%nat; 0%nat] ++ []) = Some (inr [1; 2]) ∧
  All 0 2 (arrive [(1, None); (2, Some context_Canceled)] [1%nat; 0%nat] ++ []) = Some (inl context_Canceled).
Proof.
  split; [apply (all_spec 0 [(1, None); (2, None)] [1%nat; 0%nat] [])
         |apply (all_spec 0 [(1, None); (2, Some context_Canceled)] [1%nat; 0%nat] [])]; apply perm_swap.
Defined.

Lemma all_cancelled_witness :
  All 0 2 (arrive [(1, None); (2, None)] [1%nat] ++ [Ctx context_Canceled]) = Some (inl context_Canceled).
Proof.
  apply (all_cancelled 0 [(1, None); (2, None)] [1%nat] context_Canceled []); [apply NoDup_singleton| |simpl; lia].
  constructor; [simpl; lia|constructor].
Defined.

End Combinators.

(** ** Barrier *)

Module Barrier.

(** Where a caller of [Wait] is: before [arrive], in the select, back with nil or with
    the context's error. *)
Inductive caller := Arriving | Waiting | Passed | Failed (err : error).

(** [tokens] is the content of the latch's channel, of capacity [n]; [drained] counts
    what [countWg.wait] has received; [done] is whether the channel was closed. *)
Record Barrier := MkBarrier { n : nat; tokens : nat; drained : nat; done : bool; callers : list caller }.

Definition NewBarrier (n : Z) : outcome Barrier :=
  if n <? 0 then Panic "makechan: size out of range" else Ret (MkBarrier (Z.to_nat n) 0 0 false []).

Inductive step : Barrier → Barrier → Prop :=
(** a goroutine calls [Wait] *)
| step_call b : step b (MkBarrier (n b) (tokens b) (drained b) (done b) (callers b ++ [Arriving]))
(** [arrive], which blocks while the channel is full *)
| step_arrive b l1 l2 : callers b = l1 ++ Arriving :: l2 → (tokens b < n b)%nat →
    step b (MkBarrier (n b) (S (tokens b)) (drained b) (done b) (l1 ++ Waiting :: l2))
(** [countWg.wait] receives one of its [n] tokens *)
| step_drain b k : tokens b = S k → (drained b < n b)%nat →
    step b (MkBarrier (n b) k (S (drained b)) (done b) (callers b))
(** and then [done] is closed *)
| step_close b : drained b = n b → done b = false →
    step b (MkBarrier (n b) (tokens b) (drained b) true (callers b))
| step_pass b l1 l2 : callers b = l1 ++ Waiting :: l2 → done b = true →
    step b (MkBarrier (n b) (tokens b) (drained b) (done b) (l1 ++ Passed :: l2))
| step_ctx b l1 l2 err : callers b = l1 ++ Waiting :: l2 →
    step b (MkBarrier (n b) (tokens b) (drained b) (done b) (l1 ++ Failed err :: l2)).

Definition arrived (c : caller) : nat := match c with Arriving => 0 | _ => 1 end.
Definition arrivals (b : Barrier) : nat := sum_list_with arrived (callers b).

Record ok (m : nat) (b : Barrier) : Prop := {
  ok_n : n b = m;
  ok_arrivals : (arrivals b = tokens b + drained b)%nat;
  ok_drained : (drained b ≤ n b)%nat;
  ok_done : done b = true → drained b = n b;
  ok_passed : Passed ∈ callers b → done b = true;
}.

Lemma elem_of_middle_other {A} (x y z : A) l1 l2 : x ≠ y → x ∈ l1 ++ y :: l2 → x ∈ l1 ++ z :: l2.
Proof. rewrite !elem_of_app, !elem_of_cons. naive_solver. Qed.

Lemma barrier_ok_step m b b' : ok m b → step b b' → ok m b'.
Proof.
  intros [Hn Ha Hd Hdone Hp] Hs. unfold arrivals in *.
  destruct Hs as [b|b l1 l2 Hc Ht|b k Ht Hlt|b Hdr Hdn|b l1 l2 Hc Hdn|b l1 l2 err Hc]; split; unfold arrivals; simpl in *;
    try rewrite Hc in *; rewrite ?sum_list_with_middle, ?sum_list_with_app in *; simpl in *; try done; try lia; try tauto;
    try (intros ?%Hdone; lia).
  - rewrite elem_of_app, list_elem_of_singleton. intros [?|[=]]. auto.
  - intros Hin. apply Hp. by eapply (elem_of_middle_other _ Waiting).
  - intros Hin. apply Hp. by eapply (elem_of_middle_other _ (Failed err)).
Qed.

(** The rendezvous.  A call of [Wait] on a barrier for [n] returns nil only when [n]
    calls of [Wait] have arrived, whatever the contexts of the callers do. *)
Theorem barrier_rendezvous m b0 b : NewBarrier m = Ret b0 → rtc step b0 b → Passed ∈ callers b →
  m ≤ Z.of_nat (arrivals b).
Proof.
  unfold NewBarrier. destruct (m <? 0) eqn:E; [discriminate|]. zbool. intros [= <-] Hr Hin.
  apply (rtc_invariant step (ok (Z.to_nat m))) in Hr as [Hn Ha Hd Hdone Hp];
    [|eauto using barrier_ok_step|by split; simpl; try lia; try easy; intros ?%not_elem_of_nil].
  specialize (Hdone (Hp Hin)). lia.
Qed.

Lemma barrier_rendezvous_witness : 1 ≤ Z.of_nat (arrivals (MkBarrier 1 0 1 true [Passed])).
Proof.
  apply (barrier_rendezvous 1 (MkBarrier 1 0 0 false []) (MkBarrier 1 0 1 true [Passed])); [reflexivity| |left].
  eapply rtc_l; [apply step_call|]. eapply rtc_l; [apply (step_arrive _ [] []); [reflexivity|simpl; lia]|].
  eapply rtc_l; [apply (step_drain _ 0); [reflexivity|simpl; lia]|].
  eapply rtc_l; [apply step_close; reflexivity|]. eapply rtc_l; [apply (step_pass _ [] []); reflexivity|]. apply rtc_refl.
Defined.

End Barrier.

(** ** Throttle *)

Module Throttle.

(** The permit channel, of capacity one. *)
Record Throttle := MkThrottle { permit : bool }.
Definition NewThrottle : Throttle := MkThrottle true.

(** A tick of the ticker, and a call of the returned function: whether [fn] runs. *)
Definition tick (s : Throttle) : Throttle := MkThrottle true.
Definition call (s : Throttle) : Throttle * bool :=
  if permit s then (MkThrottle false, true) else (s, false).

Inductive event := Tick | Call.

(** The calls that got through, one entry per call. *)
Fixpoint run (es : list event) (s : Throttle) : list bool :=
  match es with
  | [] => []
  | Tick :: es => run es (tick s)
  | Call :: es => let '(s, b) := call s in b :: run es s
  end.

Definition ticks (es : list event) : nat := sum_list_with (λ e, match e with Tick => 1 | Call => 0 end)%nat es.
Definition passed (bs : list bool) : nat := sum_list_with (λ b : bool, if b then 1 else 0)%nat bs.

Lemma run_passed es s : (passed (run es s) ≤ ticks es + if permit s then 1 else 0)%nat.
Proof.
  unfold passed, ticks. revert s. induction es as [|[|] es IH]; intros s; simpl; [lia| |].
  - specialize (IH (tick s)). simpl in IH. lia.
  - unfold call. destruct (permit s) eqn:E.
    + specialize (IH (MkThrottle false)). simpl in *. lia.
    + specialize (IH s). rewrite E in IH. simpl in *. lia.
Qed.

(** In any stretch of calls the throttled function runs at most once more often than
    the ticker ticks, and the first call always gets through. *)
Theorem throttle_rate es :
  (passed (run es NewThrottle) ≤ ticks es + 1)%nat ∧ ∀ es', es = Call :: es' → head (run es NewThrottle) = Some true.
Proof. split; [apply (run_passed es NewThrottle)|]. by intros es' ->. Qed.

(** Two calls on either side of a tick both get through, however close they are. *)
Example throttle_two_calls : run [Call; Tick; Call] NewThrottle = [true; true].
Proof. reflexivity. Qed.

End Throttle.

(** ** Debounce *)

Module Debounce.
Section Debounce.
Context (interval : Duration).

(** The trigger channel, of capacity one; the instant the timer is set for; the instants
    at which the goroutine received a trigger and at which it ran [fn], newest first. *)
Record state := State {
  trigger : bool; deadline : option Time; resets : list Time; fires : list Time; calls : nat
}.
Definition init : state := State false None [] [] 0.

(** Steps at the instant [t]. *)
Inductive step (t : Time) : state → state → Prop :=
| step_call s : step t s (State true (deadline s) (resets s) (fires s) (S (calls s)))
| step_reset s : trigger s = true →
    step t s (State false (Some (t + interval)) (t :: resets s) (fires s) (calls s))
| step_fire s d : deadline s = Some d → d ≤ t →
    step t s (State (trigger s) None (resets s) (t :: fires s) (calls s)).

(** Runs along a clock that does not go back. *)
Inductive runs : Time → state → Prop :=
| runs_init t : runs t init
| runs_step t t' s s' : runs t s → t ≤ t' → step t' s s' → runs t' s'.

Definition pending (s : state) : nat := match deadline s with Some _ => 1 | None => 0 end.
Definition signal (s : state) : nat := if trigger s then 1 else 0.

Record ok (s : state) : Prop := {
  ok_fires : Forall (λ f, ∃ r, r ∈ resets s ∧ r + interval ≤ f) (fires s);
  ok_deadline d : deadline s = Some d → ∃ r rs, resets s = r :: rs ∧ d = r + interval;
  ok_count : (length (fires s) + pending s ≤ length (resets s))%nat;
  ok_calls : (length (resets s) + signal s ≤ calls s)%nat;
}.

Lemma debounce_ok t s : runs t s → ok s.
Proof.
  induction 1 as [t|t t' s s' _ IH Ht Hs]; [split; simpl; [by apply Forall_nil_2|done|by unfold pending|by unfold signal]|].
  destruct IH as [Hf Hd Hc Hk]. destruct Hs as [s|s Htr|s d Hdl Hle]; split; unfold pending, signal in *; simpl in *; try done.
  - destruct (trigger s); lia.
  - eapply Forall_impl; [exact Hf|]. intros f (r & ? & ?). exists r. split; [by right|done].
  - intros d [= <-]. eauto.
  - destruct (deadline s); lia.
  - rewrite Htr in Hk. lia.
  - constructor; [|done]. destruct (Hd d Hdl) as (r & rs & Hr & ->). exists r. rewrite Hr. split; [by left|done].
  - rewrite Hdl in Hc. lia.
Qed.

(** The debounced function runs no more often than it is called, and never before
    [interval] has passed since the call it answers was received: at the moment it runs, the
    latest call received is at least [interval] old. *)
Theorem debounce_quiet t t' s s' d : runs t s → t ≤ t' → deadline s = Some d → step t' s s' →
  fires s' ≠ fires s →
  (∃ r rs, resets s' = r :: rs ∧ r + interval ≤ t') ∧ (length (fires s') ≤ calls s')%nat.
Proof.
  intros Hr Ht Hdl Hs Hne.
  assert (Hok' : ok s') by (eapply debounce_ok, (runs_step t); done).
  split; [|destruct Hok' as [_ _ Hc Hk]; lia]. apply debounce_ok in Hr as [_ Hd _ _].
  inversion Hs as [?|?|? d' Hd' Hle]; subst; simpl in *; try done.
  destruct (Hd d' Hd') as (r & rs & Hr & ->). eauto.
Qed.

End Debounce.

Lemma debounce_quiet_witness : ∃ r rs, [1] = r :: rs ∧ r + 5 ≤ 6.
Proof.
  apply (debounce_quiet 5 1 6 (State false (Some 6) [1] [] 1) (State false None [1] [6] 1) 6); try done.
  - apply (runs_step 5 0 1 (State true None [] [] 1)); [|lia|by apply (step_reset 5 1 (State true None [] [] 1))].
    apply (runs_step 5 0 0 init); [apply runs_init|lia|apply (step_call 5 0 init)].
  - apply (step_fire 5 6 (State false (Some 6) [1] [] 1) 6); [reflexivity|lia].
Defined.

End Debounce.

