(* ===== verification/Channels.v ===== *)
(** * pkg/async: FanOut, Tee, OrDone and FanIn

    [FanOut], [Tee] and [OrDone] are one goroutine that receives from its input and
    sends each value to its outputs one after the other, every send and every receive in
    a select with the context: [dispatcher] with [n], two or one outputs.  [FanIn] is one
    such goroutine per input over a shared output.  An input is the list of values it
    will deliver before it is closed. *)

From S2P Require Import Prelude GoLang.
Open Scope Z_scope.


(** ** One input, several outputs *)

Module FanOut.
Section FanOut.
Context {T : Type}.

(** An output: what was sent to it and how much of that its receiver has taken. *)
Record output := Output { sent : list T; taken : nat }.
Definition room (cap : nat) (o : output) : Prop := (length (sent o) < taken o + cap)%nat.

(** [received] are the values taken from the input; [next] is, while one of them is being
    sent, that value and the outputs it has been sent to; [stopped] when the goroutine has
    returned and closed the outputs, with whether the context was the reason. *)
Record dispatcher := Dispatcher {
  cap : nat; todo : list T; received : list T; next : option (T * nat);
  outs : list output; stopped : option bool
}.

Definition start (n cap : nat) (l : list T) : dispatcher :=
  Dispatcher cap l [] None (replicate n (Output [] 0)) None.

(** [make([]chan T, n)] panics on a negative [n]. *)
Definition FanOut (n : Z) (l : list T) : outcome dispatcher :=
  if n <? 0 then Panic "makeslice: len out of range" else Ret (start (Z.to_nat n) 16 l).
Definition Tee (l : list T) : dispatcher := start 2 16 l.
Definition OrDone (l : list T) : dispatcher := start 1 1 l.

Inductive step : dispatcher → dispatcher → Prop :=
| step_receive c v l rs os :
    step (Dispatcher c (v :: l) rs None os None) (Dispatcher c l (rs ++ [v]) (Some (v, 0%nat)) os None)
| step_end c rs os :
    step (Dispatcher c [] rs None os None) (Dispatcher c [] rs None os (Some false))
| step_send c l rs v i os o :
    os !! i = Some o → room c o →
    step (Dispatcher c l rs (Some (v, i)) os None)
      (Dispatcher c l rs (Some (v, S i)) (<[i := Output (sent o ++ [v]) (taken o)]> os) None)
| step_sent c l rs v os :
    step (Dispatcher c l rs (Some (v, length os)) os None) (Dispatcher c l rs None os None)
(** the context is done: at the receive, or at a send *)
| step_ctx c l rs nx os :
    (∀ v, nx ≠ Some (v, length os)) →
    step (Dispatcher c l rs nx os None) (Dispatcher c l rs nx os (Some true))
(** a receiver takes a value *)
| step_take c l rs nx os st i o :
    os !! i = Some o → (taken o < length (sent o))%nat →
    step (Dispatcher c l rs nx os st) (Dispatcher c l rs nx (<[i := Output (sent o) (S (taken o))]> os) st).

(** What output [j] has been sent: everything received, but for the value under way when
    its turn has not come. *)
Definition due (rs : list T) (nx : option (T * nat)) (j : nat) : list T :=
  match nx with
  | Some (_, i) => if decide (j < i)%nat then rs else take (length rs - 1) rs
  | None => rs
  end.
#[local] Arguments due : simpl never.

Record ok (n : nat) (l : list T) (d : dispatcher) : Prop := {
  ok_input : received d ++ todo d = l;
  ok_len : length (outs d) = n;
  ok_outs j o : outs d !! j = Some o → sent o = due (received d) (next d) j ∧ (taken o ≤ length (sent o) ≤ taken o + cap d)%nat;
  ok_next v i : next d = Some (v, i) → last (received d) = Some v ∧ (i ≤ n)%nat;
  ok_end : stopped d = Some false → todo d = [] ∧ next d = None;
}.

Lemma ok_start n c l : ok n l (start n c l).
Proof.
  split; simpl; try done.
  - apply length_replicate.
  - intros j o [-> _]%lookup_replicate. simpl. split; [done|lia].
Qed.

Lemma take_last (l : list T) v : take (length (l ++ [v]) - 1) (l ++ [v]) = l.
Proof. rewrite length_app. simpl. replace (length l + 1 - 1)%nat with (length l) by lia. by rewrite take_app_length. Qed.

(** A value whose turn comes for output [i]. *)
Lemma due_send rs v i : last rs = Some v → due rs (Some (v, S i)) i = due rs (Some (v, i)) i ++ [v].
Proof.
  intros [rs' ->]%last_Some. unfold due. repeat case_decide; try lia. by rewrite take_last.
Qed.

Lemma due_send_other rs v i j : j ≠ i → due rs (Some (v, S i)) j = due rs (Some (v, i)) j.
Proof. intros. unfold due. repeat case_decide; done || lia. Qed.

Lemma dispatcher_step n l d d' : ok n l d → step d d' → ok n l d'.
Proof.
  intros [Hin Hlen Ho Hnx Hend] Hs.
  destruct Hs as [c v l' rs os|c rs os|c l' rs v i os o Hi Hroom|c l' rs v os|c l' rs nx os Hnx'|c l' rs nx os st i o Hi Ht];
    split; simpl in *; try done.
  - by rewrite <-app_assoc.
  - intros j o Hj. unfold due. rewrite decide_False by lia. rewrite take_last. by apply (Ho j o).
  - intros v' i [= <- <-]. split; [by rewrite last_snoc|lia].
  - by rewrite length_insert.
  - destruct (Hnx v i eq_refl) as [Hl Hle]. intros j o' [(<- & <- & Hlt)|[Hne Hj]]%list_lookup_insert_Some; simpl.
    + destruct (Ho i o Hi) as [Hs Hb]. rewrite due_send, Hs by done.
      split; [done|]. unfold room in Hroom. rewrite <-Hs, length_app. simpl. lia.
    + rewrite due_send_other by done. by apply Ho.
  - intros v' i' [= <- <-]. destruct (Hnx v i eq_refl) as [Hl Hle]. split; [done|].
    apply lookup_lt_Some in Hi. lia.
  - intros j o Hj. destruct (Ho j o Hj) as [Hs Hb]. split; [|done]. rewrite Hs. unfold due.
    rewrite decide_True; [done|]. by eapply lookup_lt_Some.
  - by rewrite length_insert.
  - intros j o' [(<- & <- & Hlt)|[Hne Hj]]%list_lookup_insert_Some; simpl; [|by apply Ho].
    destruct (Ho i o Hi) as [Hs Hb]. split; [done|lia].
Qed.

(** Broadcast.  Under every schedule each output of [FanOut], [Tee] or [OrDone] is sent a
    prefix of the input, any two outputs at most one value apart, never more than the
    capacity ahead of its receiver; and when the goroutine has ended without its context being
    done, every output was sent the whole input. *)
Theorem broadcast n c (l : list T) d j o : rtc step (start n c l) d → outs d !! j = Some o →
  sent o `prefix_of` l ∧ (length (sent o) ≤ taken o + c)%nat ∧
  (∀ k o', outs d !! k = Some o' → (length (sent o') ≤ length (sent o) + 1)%nat) ∧
  (stopped d = Some false → sent o = l).
Proof.
  intros Hr Hj.
  assert (Hok : ok n l d ∧ cap d = c) by
    (apply (rtc_invariant step (λ d, ok n l d ∧ cap d = c) (start n c l)); [|split; [apply ok_start|done]|done];
     intros x y [Hx Hc] Hs; split; [by eapply dispatcher_step|by destruct Hs]).
  destruct Hok as [[Hin Hlen Ho Hnx Hend] Hc]. destruct (Ho j o Hj) as [Hs Hb].
  assert (Hdue : ∀ k, due (received d) (next d) k `prefix_of` received d ∧
    (length (received d) ≤ length (due (received d) (next d) k) + 1)%nat).
  { intros k. unfold due. destruct (next d) as [[v i]|]; [case_decide|]; split; try done; try lia.
    - apply prefix_take.
    - rewrite length_take. lia. }
  split_and!.
  - rewrite <-Hin, Hs. etrans; [apply Hdue|]. by apply prefix_app_r.
  - lia.
  - intros k o' Hk. destruct (Ho k o' Hk) as [-> _]. rewrite Hs.
    destruct (Hdue k) as [Hp%prefix_length _], (Hdue j) as [_ Hq]. lia.
  - intros Hst. destruct (Hend Hst) as [Ht Hn]. rewrite Hs, Hn. unfold due.
    rewrite Ht, app_nil_r in Hin. done.
Qed.

End FanOut.

Lemma broadcast_witness : [1; 2] `prefix_of` [1; 2; 3].
Proof.
  apply (broadcast 1 1 [1; 2; 3] (Dispatcher 1 [3] [1; 2] (Some (2, 1%nat)) [Output [1; 2] 1] None) 0 (Output [1; 2] 1));
    [|reflexivity].
  eapply rtc_l; [apply step_receive|]. eapply rtc_l; [apply (step_send _ _ _ _ 0 _ (Output [] 0)); [reflexivity|unfold room; simpl; lia]|].
  eapply rtc_l; [apply (step_sent _ _ _ 1 [Output [1] 0])|]. eapply rtc_l; [apply (step_take _ _ _ _ _ _ 0 (Output [1] 0)); [reflexivity|simpl; lia]|].
  eapply rtc_l; [apply step_receive|]. eapply rtc_l; [apply (step_send _ _ _ _ 0 _ (Output [1] 1)); [reflexivity|unfold room; simpl; lia]|].
  apply rtc_refl.
Defined.

End FanOut.

(** ** Several inputs, one output *)

Module FanIn.
Section FanIn.
Context {T : Type}.

(** The goroutine of an input: what is still to come, the value between the two selects,
    and how it ended ([Some true]: by the context). *)
Record forwarder := Forwarder { todo : list T; hold : option T; ended : option bool }.

(** [sent] has, with every value, the input it came from. *)
Record merger := Merger { ins : list forwarder; sent : list (nat * T); taken : nat; closed : bool }.

Definition start (ls : list (list T)) : merger := Merger ((λ l, Forwarder l None None) <$> ls) [] 0 false.

Definition set_in (i : nat) (w : forwarder) (m : merger) : merger :=
  Merger (<[i := w]> (ins m)) (sent m) (taken m) (closed m).

Inductive step : merger → merger → Prop :=
| step_receive m i v l : ins m !! i = Some (Forwarder (v :: l) None None) →
    step m (set_in i (Forwarder l (Some v) None) m)
| step_end m i : ins m !! i = Some (Forwarder [] None None) →
    step m (set_in i (Forwarder [] None (Some false)) m)
| step_send m i v l : ins m !! i = Some (Forwarder l (Some v) None) → (length (sent m) < taken m + 16)%nat →
    step m (Merger (<[i := Forwarder l None None]> (ins m)) (sent m ++ [(i, v)]) (taken m) (closed m))
| step_ctx m i l h : ins m !! i = Some (Forwarder l h None) →
    step m (set_in i (Forwarder l h (Some true)) m)
(** [wg.Wait] and [close(out)] *)
| step_close m : Forall (λ w, is_Some (ended w)) (ins m) →
    step m (Merger (ins m) (sent m) (taken m) true)
| step_take m : (taken m < length (sent m))%nat →
    step m (Merger (ins m) (sent m) (S (taken m)) (closed m)).

Definition from (i : nat) (l : list (nat * T)) : list T := (filter (λ x, x.1 = i) l).*2.

Record ok (ls : list (list T)) (m : merger) : Prop := {
  ok_len : length (ins m) = length ls;
  ok_in i w : ins m !! i = Some w → ls !! i = Some (from i (sent m) ++ option_list (hold w) ++ todo w) ∧
    (ended w = Some false → todo w = [] ∧ hold w = None);
  ok_tags : Forall (λ x, (x.1 < length ls)%nat) (sent m);
  ok_closed : closed m = true → Forall (λ w, is_Some (ended w)) (ins m);
  ok_room : (taken m ≤ length (sent m) ≤ taken m + 16)%nat;
}.

Lemma from_snoc i j v l : from i (l ++ [(j, v)]) = if decide (j = i) then from i l ++ [v] else from i l.
Proof.
  unfold from. rewrite filter_app, fmap_app. case_decide; subst.
  - by rewrite filter_cons_True.
  - rewrite filter_cons_False by done. by rewrite filter_nil, app_nil_r.
Qed.

(** A step of one goroutine that neither sends nor was over. *)
Lemma ok_set_in ls m i w w' : ok ls m → ins m !! i = Some w → ended w = None →
  option_list (hold w) ++ todo w = option_list (hold w') ++ todo w' →
  (ended w' = Some false → todo w' = [] ∧ hold w' = None) → ok ls (set_in i w' m).
Proof.
  intros [Hl Hin Ht Hc Hr] Hi He Heq Hend. split; simpl; [by rewrite length_insert| |done| |done].
  - intros j x [(<- & <- & _)|[Hne Hj]]%list_lookup_insert_Some; [|by apply Hin].
    rewrite <-Heq. split; [by apply Hin|done].
  - intros Hcl. exfalso. specialize (Hc Hcl). rewrite Forall_lookup in Hc. specialize (Hc i w Hi). rewrite He in Hc.
    by destruct Hc.
Qed.

Lemma merger_step ls m m' : ok ls m → step m m' → ok ls m'.
Proof.
  intros Hok Hs. destruct Hs as [m i v l Hi|m i Hi|m i v l Hi Hroom|m i l h Hi|m Hall|m Hlt].
  - by eapply ok_set_in.
  - by eapply ok_set_in.
  - destruct Hok as [Hl Hin Ht Hc Hr]. split; simpl; [by rewrite length_insert| | | |].
    + intros j x [(<- & <- & _)|[Hne Hj]]%list_lookup_insert_Some; rewrite from_snoc; simpl.
      * rewrite decide_True by done. split; [|done]. rewrite <-app_assoc. by apply (proj1 (Hin i _ Hi)).
      * rewrite decide_False by done. by apply Hin.
    + apply Forall_app. split; [done|]. constructor; [|constructor]. simpl. rewrite <-Hl. by eapply lookup_lt_Some.
    + intros Hcl. exfalso. specialize (Hc Hcl). rewrite Forall_lookup in Hc. specialize (Hc i _ Hi). by destruct Hc.
    + rewrite length_app. simpl. lia.
  - by eapply ok_set_in.
  - destruct Hok as [Hl Hin Ht Hc Hr]. by split.
  - destruct Hok as [Hl Hin Ht Hc Hr]. split; simpl; try done. lia.
Qed.

Lemma ok_init ls : ok ls (start ls).
Proof.
  split; simpl; [by rewrite length_fmap| |constructor|done|lia].
  intros i w. rewrite list_lookup_fmap. destruct (ls !! i) as [l|]; simpl; [|done]. by intros [= <-].
Qed.

(** Merge.  Under every schedule the values [FanIn] has sent that came from one input are
    a prefix of that input in its order, and nothing else was sent; when the output is closed
    and no goroutine ended because of the context, every input was forwarded whole: the output
    is an interleaving of the inputs. *)
Theorem fan_in_merges ls m i l : rtc step (start ls) m → ls !! i = Some l →
  from i (sent m) `prefix_of` l ∧ Forall (λ x, (x.1 < length ls)%nat) (sent m) ∧
  (closed m = true → Forall (λ w, ended w ≠ Some true) (ins m) → from i (sent m) = l).
Proof.
  intros Hr Hl. apply (rtc_invariant step (ok ls)) in Hr as [Hlen Hin Ht Hc _]; [|eauto using merger_step|apply ok_init].
  destruct (lookup_lt_is_Some_2 (ins m) i) as [w Hw]; [rewrite Hlen; by eapply lookup_lt_Some|].
  destruct (Hin i w Hw) as [Heq Hend]. rewrite Hl in Heq. injection Heq as ->. split_and!; [by apply prefix_app_r|done|].
  intros Hcl Hno. specialize (Hc Hcl). rewrite Forall_lookup in Hc, Hno.
  destruct (Hc i w Hw) as [[|] He]; [by apply Hno in Hw|]. destruct (Hend He) as [-> ->]. simpl. by rewrite app_nil_r.
Qed.

End FanIn.

Lemma fan_in_merges_witness : [7] `prefix_of` [7; 8].
Proof.
  apply (fan_in_merges [[7; 8]] (Merger [Forwarder [8] None None] [(0%nat, 7)] 0 false) 0 [7; 8]); [|reflexivity].
  eapply rtc_l; [by apply (step_receive _ 0 7 [8])|].
  eapply rtc_l; [apply (step_send _ 0 7 [8]); [reflexivity|simpl; lia]|]. apply rtc_refl.
Defined.

End FanIn.

